(** * Gradient reconstruction engine of code_saturne (src/alge/cs_gradient.cxx)

    A shallow embedding of the scalar gradient drivers, the clipping stage,
    the COCG cache and the small dense kernels, in exact real arithmetic
    ([cs_real_t] is read as [R]), followed by the properties established
    about them.  Division is total over [R] ([x / 0 = 0]), whereas the
    compiled code gets an infinity or a NaN: a property that relies on the
    value of a quotient or of an inverse carries the hypothesis that the
    divisor does not vanish.  The packed inversion kernel is given a second
    time over binary64 numbers (module [Binary64]), to tell what survives
    rounding. *)

From Stdlib Require Import Reals Lra Lia ZArith List Bool Arith String Ascii.
From Stdlib Require Import Permutation.
From Stdlib Require Floats.
Import ListNotations.

Open Scope R_scope.

(** ** Arrays and scalars *)

(** C arrays are read as total maps from indices; [upd] is the assignment
    [a[i] = v]. *)

Notation "'array' T" := (nat -> T) (at level 10, T at level 9, only parsing).

Definition upd {T : Type} (a : array T) (i : nat) (v : T) : array T :=
  fun j => if Nat.eqb j i then v else a j.

(** An array that the code allocates and then initialises over its whole
    extent is read as the constant map; indices beyond the extent of an
    array are never addressed by the code on a well-formed mesh. *)

(** Counted loop [for (i = lo; i < hi; i++)], as the list of its indices. *)

Definition range (lo hi : nat) : list nat := seq lo (hi - lo).

Definition for_loop {S : Type} (lo hi : nat) (body : S -> nat -> S) (s : S) : S :=
  fold_left body (range lo hi) s.

(** Macros of cs_defs.h. *)

Definition CS_ABS (a : R) : R := if Rlt_dec a 0 then - a else a.
Definition CS_MIN (a b : R) : R := if Rlt_dec a b then a else b.
Definition CS_MAX (a b : R) : R := if Rgt_dec a b then a else b.

(** [DBL_MAX] of float.h, the largest finite binary64 number. *)

Definition DBL_MAX : R := (2 - / 2 ^ 52) * 2 ^ 1023.

(** ** Small fixed-size values *)

Record cs_real_3_t : Type := R3 { cx : R; cy : R; cz : R }.

Record cs_cocg_6_t : Type :=
  Cocg { a0 : R; a1 : R; a2 : R; a3 : R; a4 : R; a5 : R }.

Record cs_real_33_t : Type :=
  M33 { m00 : R; m01 : R; m02 : R;
        m10 : R; m11 : R; m12 : R;
        m20 : R; m21 : R; m22 : R }.

Definition zero3 : cs_real_3_t := R3 0 0 0.
Definition zero6 : cs_cocg_6_t := Cocg 0 0 0 0 0 0.

Definition scale3 (f : R) (v : cs_real_3_t) : cs_real_3_t :=
  R3 (cx v * f) (cy v * f) (cz v * f).

Definition dot3 (u v : cs_real_3_t) : R :=
  cx u * cx v + cy u * cy v + cz u * cz v.

Definition sub3 (u v : cs_real_3_t) : cs_real_3_t :=
  R3 (cx u - cx v) (cy u - cy v) (cz u - cz v).

Definition add3 (u v : cs_real_3_t) : cs_real_3_t :=
  R3 (cx u + cx v) (cy u + cy v) (cz u + cz v).

(** [g[j] += p * n[j]] for j = 0, 1, 2. *)

Definition axpy3 (g : cs_real_3_t) (p : R) (n : cs_real_3_t) : cs_real_3_t :=
  R3 (cx g + p * cx n) (cy g + p * cy n) (cz g + p * cz n).

(** [g[j] -= p * n[j]] for j = 0, 1, 2. *)

Definition axmy3 (g : cs_real_3_t) (p : R) (n : cs_real_3_t) : cs_real_3_t :=
  R3 (cx g - p * cx n) (cy g - p * cy n) (cz g - p * cz n).

(** Euclidean magnitude of a cell gradient. *)

Definition norm3 (v : cs_real_3_t) : R := sqrt (dot3 v v).

(** The symmetric 3x3 matrix held by a packed 6-entry array: entries 0..2
    are the diagonal, 3 is xy, 4 is yz, 5 is xz (the layout used when the
    least-squares drivers multiply [cocg] by the right-hand side). *)

Definition sym_33 (a : cs_cocg_6_t) : cs_real_33_t :=
  M33 (a0 a) (a3 a) (a5 a)
      (a3 a) (a1 a) (a4 a)
      (a5 a) (a4 a) (a2 a).

Definition mul_33 (p q : cs_real_33_t) : cs_real_33_t :=
  M33 (m00 p * m00 q + m01 p * m10 q + m02 p * m20 q)
      (m00 p * m01 q + m01 p * m11 q + m02 p * m21 q)
      (m00 p * m02 q + m01 p * m12 q + m02 p * m22 q)
      (m10 p * m00 q + m11 p * m10 q + m12 p * m20 q)
      (m10 p * m01 q + m11 p * m11 q + m12 p * m21 q)
      (m10 p * m02 q + m11 p * m12 q + m12 p * m22 q)
      (m20 p * m00 q + m21 p * m10 q + m22 p * m20 q)
      (m20 p * m01 q + m21 p * m11 q + m22 p * m21 q)
      (m20 p * m02 q + m21 p * m12 q + m22 p * m22 q).

Definition identity_33 : cs_real_33_t := M33 1 0 0 0 1 0 0 0 1.

Definition det_6 (a : cs_cocg_6_t) : R :=
    a0 a * (a1 a * a2 a - a4 a * a4 a)
  + a3 a * (a4 a * a5 a - a3 a * a2 a)
  + a5 a * (a3 a * a4 a - a1 a * a5 a).

Definition det_33 (a : cs_real_33_t) : R :=
    m00 a * (m11 a * m22 a - m21 a * m12 a)
  + m10 a * (m21 a * m02 a - m01 a * m22 a)
  + m20 a * (m01 a * m12 a - m11 a * m02 a).

(** ** Finite sums and packed symmetric matrices *)

(** [rsum f n] is the sum of [f 0 .. f (n-1)]. *)

Fixpoint rsum (f : nat -> R) (n : nat) : R :=
  match n with
  | O => 0
  | S k => rsum f k + f k
  end.

(** ** Dense kernels *)

Module Kernels.

(** [_math_6_inv_cramer_sym_in_place]: the six cofactors are taken from the
    input before any entry is overwritten.  On a matrix whose determinant
    vanishes the C kernel divides by zero and leaves infinities or NaN,
    where this definition leaves zeros: what is established about the
    entries of an inverse assumes a determinant that is not zero. *)

Definition _math_6_inv_cramer_sym_in_place (a : cs_cocg_6_t) : cs_cocg_6_t :=
  let a00 := a1 a * a2 a - a4 a * a4 a in
  let a01 := a4 a * a5 a - a3 a * a2 a in
  let a02 := a3 a * a4 a - a1 a * a5 a in
  let a11 := a0 a * a2 a - a5 a * a5 a in
  let a12 := a3 a * a5 a - a0 a * a4 a in
  let a22 := a0 a * a1 a - a3 a * a3 a in
  let det_inv := 1 / (a0 a * a00 + a3 a * a01 + a5 a * a02) in
  Cocg (a00 * det_inv) (a11 * det_inv) (a22 * det_inv)
       (a01 * det_inv) (a12 * det_inv) (a02 * det_inv).

(** Modelled from the spec: [cs_math_33_inv_cramer_in_place] is declared in
    cs_math.h, which is not part of the sources at hand; the spec describes
    it as the 3x3 Cramer's-rule inversion applied in place to the iterative
    scheme's COCG matrix. *)

Definition cs_math_33_inv_cramer_in_place (a : cs_real_33_t) : cs_real_33_t :=
  let a00 := m11 a * m22 a - m21 a * m12 a in
  let a01 := m21 a * m02 a - m01 a * m22 a in
  let a02 := m01 a * m12 a - m11 a * m02 a in
  let a10 := m20 a * m12 a - m10 a * m22 a in
  let a11 := m00 a * m22 a - m20 a * m02 a in
  let a12 := m10 a * m02 a - m00 a * m12 a in
  let a20 := m10 a * m21 a - m20 a * m11 a in
  let a21 := m20 a * m01 a - m00 a * m21 a in
  let a22 := m00 a * m11 a - m10 a * m01 a in
  let det_inv := 1 / (m00 a * a00 + m10 a * a01 + m20 a * a02) in
  M33 (a00 * det_inv) (a01 * det_inv) (a02 * det_inv)
      (a10 * det_inv) (a11 * det_inv) (a12 * det_inv)
      (a20 * det_inv) (a21 * det_inv) (a22 * det_inv).

(** Offset of row [ii] in the packed lower-triangular storage. *)

Definition row_start (ii : nat) : nat := (ii * (ii + 1) / 2)%nat.

(** [_fact_crout_pp]: the state is the matrix [ad] and the scratch vector
    [aux], which the C code leaves uninitialised ([aux0] here). *)

Definition crout_jj (ii_d_size kk : nat) (st : array R * array R) (jj : nat)
  : array R * array R :=
  let '(ad, aux) := st in
  (upd ad (ii_d_size + jj) (ad (ii_d_size + jj)%nat - ad (ii_d_size + kk)%nat * aux jj),
   aux).

Definition crout_ii (kk kk_d_size : nat) (st : array R * array R) (ii : nat)
  : array R * array R :=
  let '(ad, aux) := st in
  let ii_d_size := row_start ii in
  let aux := upd aux ii (ad (ii_d_size + kk)%nat) in
  let ad := upd ad (ii_d_size + kk)
                (ad (ii_d_size + kk)%nat / ad (kk_d_size + kk)%nat) in
  for_loop (kk + 1) (ii + 1) (crout_jj ii_d_size kk) (ad, aux).

Definition crout_kk (d_size : nat) (st : array R * array R) (kk : nat)
  : array R * array R :=
  let kk_d_size := row_start kk in
  for_loop (kk + 1) d_size (crout_ii kk kk_d_size) st.

Definition _fact_crout_pp (d_size : nat) (aux0 : array R) (ad : array R)
  : array R :=
  fst (for_loop 0 (d_size - 1) (crout_kk d_size) (ad, aux0)).

(** [_fw_and_bw_ldtl_pp]: forward substitution, diagonal scaling and
    backward substitution; [aux0] and [x0] are the initial contents of the
    scratch and output vectors. *)

Definition fw_jj (mat : array R) (ii ii_d_size : nat) (aux : array R) (jj : nat)
  : array R :=
  upd aux ii (aux ii - aux jj * mat (ii_d_size + jj)%nat).

Definition fw_ii (mat b : array R) (aux : array R) (ii : nat) : array R :=
  let ii_d_size := row_start ii in
  let aux := upd aux ii (b ii) in
  for_loop 0 ii (fw_jj mat ii ii_d_size) aux.

Definition diag_ii (mat : array R) (aux : array R) (ii : nat) : array R :=
  let ii_d_size := row_start ii in
  upd aux ii (aux ii / mat (ii_d_size + ii)%nat).

Definition bw_jj (mat : array R) (ii : nat) (x : array R) (jj : nat) : array R :=
  let jj_d_size := row_start jj in
  upd x ii (x ii - x jj * mat (jj_d_size + ii)%nat).

Definition bw_ii (mat aux : array R) (d_size : nat) (x : array R) (ii : nat)
  : array R :=
  let x := upd x ii (aux ii) in
  fold_left (bw_jj mat ii) (rev (range (ii + 1) d_size)) x.

Definition _fw_and_bw_ldtl_pp (mat : array R) (d_size : nat)
           (aux0 x0 : array R) (b : array R) : array R :=
  let aux := for_loop 0 d_size (fw_ii mat b) aux0 in
  let aux := for_loop 0 d_size (diag_ii mat) aux in
  fold_left (bw_ii mat aux d_size) (rev (range 0 d_size)) x0.

End Kernels.

(** ** Dense symmetric systems in packed storage *)

(** Entry [(i, j)], [j <= i], of the lower triangle stored row by row. *)

Definition packed (ad : array R) (i j : nat) : R :=
  ad (Kernels.row_start i + j)%nat.

(** The symmetric matrix of which [N] gives the lower triangle. *)

Definition symm (N : nat -> nat -> R) (i j : nat) : R :=
  if (j <=? i)%nat then N i j else N j i.

(** [A x] for the symmetric matrix [A] held by [ad]. *)

Definition mat_vec (d : nat) (ad : array R) (x : array R) (i : nat) : R :=
  rsum (fun j => symm (packed ad) i j * x j) d.

Definition quad_form (d : nat) (N : nat -> nat -> R) (v : nat -> R) : R :=
  rsum (fun i => rsum (fun j => v i * N i j * v j) d) d.

(** The matrix held by [ad] is positive definite. *)

Definition sym_pos_def (d : nat) (ad : array R) : Prop :=
  forall v : nat -> R,
    (exists i, (i < d)%nat /\ v i <> 0) ->
    0 < quad_form d (symm (packed ad)) v.

(** One elimination step on the lower triangle: column [k] is divided by
    the pivot and the trailing block is replaced by its Schur complement. *)

Definition schur_step (k : nat) (M : nat -> nat -> R) (i j : nat) : R :=
  if (k <? i)%nat then
    if (k <? j)%nat then M i j - M i k / M k k * M j k
    else if (j =? k)%nat then M i k / M k k
    else M i j
  else M i j.

Fixpoint schur (m : nat) (M : nat -> nat -> R) : nat -> nat -> R :=
  match m with
  | O => M
  | S k => schur_step k (schur k M)
  end.

(** Positive definiteness on the vectors whose first [k] entries vanish. *)

Definition pos_def_from (d k : nat) (N : nat -> nat -> R) : Prop :=
  forall v : nat -> R,
    (forall i, (i < k)%nat -> v i = 0) ->
    (exists i, (i < d)%nat /\ v i <> 0) ->
    0 < quad_form d (symm N) v.

Definition unit_vec (k : nat) (i : nat) : R := if (i =? k)%nat then 1 else 0.

(** The unit lower triangular factor read off the factorized storage. *)

Definition unit_lower (F : nat -> nat -> R) (i k : nat) : R :=
  if (k <? i)%nat then F i k else if (k =? i)%nat then 1 else 0.

(** ** The packed inversion kernel over binary64 numbers *)

(** [cs_real_t] and [cs_cocg_t] are [double]: every operation of the kernel
    rounds its result to the nearest binary64 number.  The primitive
    floating-point numbers of Rocq are the binary64 numbers with that
    rounding. *)

Module Binary64.

Import Floats.
Local Open Scope float_scope.

Record cs_cocg_6_t : Type :=
  Cocg { a0 : float; a1 : float; a2 : float;
         a3 : float; a4 : float; a5 : float }.

(** [_math_6_inv_cramer_sym_in_place], statement by statement. *)

Definition _math_6_inv_cramer_sym_in_place (a : cs_cocg_6_t) : cs_cocg_6_t :=
  let a00 := a1 a * a2 a - a4 a * a4 a in
  let a01 := a4 a * a5 a - a3 a * a2 a in
  let a02 := a3 a * a4 a - a1 a * a5 a in
  let a11 := a0 a * a2 a - a5 a * a5 a in
  let a12 := a3 a * a5 a - a0 a * a4 a in
  let a22 := a0 a * a1 a - a3 a * a3 a in
  let det_inv := 1 / (a0 a * a00 + a3 a * a01 + a5 a * a02) in
  Cocg (a00 * det_inv) (a11 * det_inv) (a22 * det_inv)
       (a01 * det_inv) (a12 * det_inv) (a02 * det_inv).

(** First row of the product of two packed symmetric matrices (row 0 of
    [i] is [i[0], i[3], i[5]]), each operation rounded; used to check an
    inverse against the matrix it comes from. *)

Definition product_row_0 (i a : cs_cocg_6_t) : float * float * float :=
  (a0 i * a0 a + a3 i * a3 a + a5 i * a5 a,
   a0 i * a3 a + a3 i * a1 a + a5 i * a4 a,
   a0 i * a5 a + a3 i * a4 a + a5 i * a2 a).

(** The matrix with 1 on the diagonal and [1 - 2^-28] elsewhere. *)

Definition almost_ones : cs_cocg_6_t :=
  let e := 1 - 0x1p-28 in Cocg 1 1 1 e e e.

(** The real number that a finite binary64 number stands for. *)

Definition real_of (x : float) : option R :=
  match Prim2SF x with
  | S754_zero _ => Some 0%R
  | S754_finite s m e =>
      Some ((if s then - IZR (Zpos m) else IZR (Zpos m)) * powerRZ 2 e)%R
  | _ => None
  end.

End Binary64.

(** The packed real matrix and the real triple that binary64 ones stand
    for, when every entry is finite. *)

Definition real_of_6 (a : Binary64.cs_cocg_6_t) : option cs_cocg_6_t :=
  match Binary64.real_of (Binary64.a0 a), Binary64.real_of (Binary64.a1 a),
        Binary64.real_of (Binary64.a2 a), Binary64.real_of (Binary64.a3 a),
        Binary64.real_of (Binary64.a4 a), Binary64.real_of (Binary64.a5 a) with
  | Some r0, Some r1, Some r2, Some r3, Some r4, Some r5 =>
      Some (Cocg r0 r1 r2 r3 r4 r5)
  | _, _, _, _, _, _ => None
  end.

Definition real_of_3 (v : PrimFloat.float * PrimFloat.float * PrimFloat.float)
  : option cs_real_3_t :=
  match Binary64.real_of (fst (fst v)), Binary64.real_of (snd (fst v)),
        Binary64.real_of (snd v) with
  | Some x, Some y, Some z => Some (R3 x y z)
  | _, _, _ => None
  end.
(** ** Mesh, geometric quantities and external collaborators *)

Inductive cs_halo_type_t : Type := CS_HALO_STANDARD | CS_HALO_EXTENDED.

Definition halo_type_eqb (a b : cs_halo_type_t) : bool :=
  match a, b with
  | CS_HALO_STANDARD, CS_HALO_STANDARD => true
  | CS_HALO_EXTENDED, CS_HALO_EXTENDED => true
  | _, _ => false
  end.

(** The scheme enumeration of cs_gradient.h (not among the sources at
    hand): one value per entry of [cs_gradient_type_name]. *)

Inductive cs_gradient_type_t : Type :=
| CS_GRADIENT_GREEN_ITER
| CS_GRADIENT_LSQ
| CS_GRADIENT_GREEN_LSQ
| CS_GRADIENT_GREEN_VTX.

(** The clip mode is an integer ([cs_gradient_limit_t], cast from the
    Fortran option [imligp]).  cs_gradient.h is not among the sources at
    hand; the values are the literals that [_vector_gradient_clipping]
    tests the same argument against ([< 0], [== 0], [== 1]). *)

Definition CS_GRADIENT_LIMIT_NONE : Z := (-1)%Z.
Definition CS_GRADIENT_LIMIT_CELL : Z := 0%Z.
Definition CS_GRADIENT_LIMIT_FACE : Z := 1%Z.

(** Modelled from the spec: the halo and periodicity transport is an
    external primitive ("exchange ghost-cell entries and apply rotational
    correction for periodic boundaries; assumed blocking and correct").
    Its entry points are taken as functions on the synchronized array:
    [cs_halo_sync_var_strided] is the exchange with stride 3 and
    [cs_halo_sync_var_strided_6] the one with stride 6. *)

Record cs_halo_t : Type := {
  cs_halo_sync_var : cs_halo_type_t -> array R -> array R;
  cs_halo_sync_var_strided :
    cs_halo_type_t -> array cs_real_3_t -> array cs_real_3_t;
  cs_halo_perio_sync_var_vect :
    cs_halo_type_t -> array cs_real_3_t -> array cs_real_3_t;
  cs_halo_sync_var_strided_6 :
    cs_halo_type_t -> array cs_cocg_6_t -> array cs_cocg_6_t;
  cs_halo_perio_sync_var_sym_tens :
    cs_halo_type_t -> array cs_cocg_6_t -> array cs_cocg_6_t
}.

(** Thread/group numbering of faces ([cs_numbering_t]). *)

Record cs_numbering_t : Type := {
  n_threads : nat;
  n_groups : nat;
  group_index : array nat
}.

Record cs_mesh_t : Type := {
  n_cells : nat;
  n_cells_with_ghosts : nat;
  n_i_faces : nat;
  n_b_faces : nat;
  n_b_cells : nat;
  b_cells : array nat;
  i_face_cells : array (nat * nat);
  b_face_cells : array nat;
  cell_cells_idx : option (array nat);
  cell_cells_lst : array nat;
  i_face_numbering : cs_numbering_t;
  b_face_numbering : cs_numbering_t;
  halo : option cs_halo_t;
  have_rotation_perio : bool;
  n_domains : nat
}.

Record cs_mesh_quantities_t : Type := {
  cell_cen : array cs_real_3_t;
  cell_vol : array R;
  cell_f_vol : array R;
  i_face_normal : array cs_real_3_t;
  b_face_normal : array cs_real_3_t;
  i_f_face_normal : array cs_real_3_t;
  b_f_face_normal : array cs_real_3_t;
  i_face_cog : array cs_real_3_t;
  b_face_cog : array cs_real_3_t;
  b_face_surf : array R;
  b_dist : array R;
  weight : array R;
  dofij : array cs_real_3_t;
  diipb : array cs_real_3_t;
  corr_grad_lin : array cs_real_33_t;
  c_disable_flag : array Z;
  has_disable_flag : nat
}.

(** Interior faces in the order of the nested loops
    [for g_id  for t_id  for f_id in group_index[(t_id*n_groups+g_id)*2 ..+1]]
    (the threads of one group are run one after the other). *)

Definition i_face_order (m : cs_mesh_t) : list nat :=
  let nm := i_face_numbering m in
  flat_map
    (fun g_id =>
       flat_map
         (fun t_id =>
            range (group_index nm ((t_id * n_groups nm + g_id) * 2))
                  (group_index nm ((t_id * n_groups nm + g_id) * 2 + 1)))
         (range 0 (n_threads nm)))
    (range 0 (n_groups nm)).

(** Boundary faces in the order of
    [for t_id  for f_id in group_index[t_id*2 .. t_id*2+1]]. *)

Definition b_face_order (m : cs_mesh_t) : list nat :=
  let nm := b_face_numbering m in
  flat_map
    (fun t_id => range (group_index nm (t_id * 2))
                       (group_index nm (t_id * 2 + 1)))
    (range 0 (n_threads nm)).

(** Extended neighbours of cell [ii]:
    [cell_cells_lst[cidx]] for [cidx] in [idx[ii] .. idx[ii+1]]. *)

Definition ext_neighbours (m : cs_mesh_t) (idx : array nat) (ii : nat) : list nat :=
  map (cell_cells_lst m) (range (idx ii) (idx (ii + 1)%nat)).

(** Right-hand side of the least-squares systems ([cs_real_4_t]): three
    components and, in the fourth slot, the cell value of the variable. *)

Record cs_real_4_t : Type := R4 { rhs_v : cs_real_3_t; rhs_p : R }.

(** Modelled from the spec: the internal-coupling module is an external
    collaborator ("an opaque per-coupling-entity handle exposing add
    interior contribution, add boundary contribution and is-this-face-coupled
    queries").  Its operations used by the scalar drivers are fields of the
    handle. *)

Record cs_internal_coupling_t : Type := {
  cpl_id : nat;
  coupled_faces : array bool;
  cs_internal_coupling_initialize_scalar_gradient :
    option (array R) -> array R -> array cs_real_3_t -> array cs_real_3_t;
  cs_internal_coupling_iterative_scalar_gradient :
    option (array R) -> array cs_real_3_t -> array R ->
    array cs_real_3_t -> array cs_real_3_t;
  cs_internal_coupling_reconstruct_scalar_gradient :
    array cs_real_3_t -> array cs_real_3_t -> array cs_real_3_t;
  cs_internal_coupling_it_cocg_contribution :
    array cs_real_33_t -> array cs_real_33_t;
  cs_internal_coupling_lsq_cocg_contribution :
    array cs_cocg_6_t -> array cs_cocg_6_t;
  cs_internal_coupling_lsq_cocg_weighted :
    array cs_cocg_6_t -> array cs_cocg_6_t -> array cs_cocg_6_t;
  cs_internal_coupling_lsq_scalar_gradient :
    option (array R) -> nat -> array cs_real_4_t -> array cs_real_4_t
}.

(** [coupled_faces[f_id * cpl_stride]]: without coupling the stride is 0 and
    the one-entry array holds [false]. *)

Definition is_coupled (cpl : option cs_internal_coupling_t) (f_id : nat) : bool :=
  match cpl with
  | Some c => coupled_faces c f_id
  | None => false
  end.

(** Summation strategy of the edge-to-node sums ([cs_e2n_sum_t]), and the
    one compiled in by default. *)

Inductive cs_e2n_sum_t : Type :=
| CS_E2N_SUM_SCATTER
| CS_E2N_SUM_SCATTER_ATOMIC
| CS_E2N_SUM_GATHER
| CS_E2N_SUM_STORE_THEN_GATHER.

Definition _e2n_sum_type : cs_e2n_sum_t := CS_E2N_SUM_STORE_THEN_GATHER.

(** Build and process-wide settings read by the drivers ([NDEBUG] tells
    whether assertions are compiled out), and the collective reductions
    (external, MPI). *)

Record cs_glob_t : Type := {
  cs_glob_porous_model : Z;
  NDEBUG : bool;
  cs_glob_e2n_sum_type : cs_e2n_sum_t;
  CS_BAD_CELLS_WARPED_CORRECTION : bool;
  CS_BAD_CELLS_REGULARISATION : bool;
  cs_bad_cells_regularisation_vector :
    array cs_real_3_t -> array cs_real_3_t;
  poro_duq : option (array R * array R * array R);
  cs_math_epzero : R;
  cs_math_3_normalize : cs_real_3_t -> cs_real_3_t;
  cs_glob_n_ranks : nat;
  MPI_Allreduce_sum : R -> R;
  MPI_Allreduce_max : R -> R;
  MPI_Allreduce_min : R -> R;
  MPI_Allreduce_sum_gnum : nat -> nat
}.

(** [i_poro_duq_0[is_porous*f_id]] and its two siblings: when the porosity
    fields are not defined the pointers designate a local scalar holding 0. *)

Definition i_poro_duq_0 (g : cs_glob_t) (f_id : nat) : R :=
  match poro_duq g with Some (p0, _, _) => p0 f_id | None => 0 end.

Definition i_poro_duq_1 (g : cs_glob_t) (f_id : nat) : R :=
  match poro_duq g with Some (_, p1, _) => p1 f_id | None => 0 end.

Definition b_poro_duq (g : cs_glob_t) (f_id : nat) : R :=
  match poro_duq g with Some (_, _, pb) => pb f_id | None => 0 end.

(** Cell volume used to scale the Green-Gauss sums. *)

Definition cell_f_vol_used (g : cs_glob_t) (fvq : cs_mesh_quantities_t) : array R :=
  if (Z.eqb (cs_glob_porous_model g) 1 || Z.eqb (cs_glob_porous_model g) 2)%bool
  then cell_vol fvq else cell_f_vol fvq.

(** [dvol]: inverse volume, or 0 for a disabled cell. *)

Definition dvol_of (fvq : cs_mesh_quantities_t) (vol : array R) (c_id : nat) : R :=
  let has_dc := has_disable_flag fvq in
  if Z.eqb (Z.of_nat has_dc * c_disable_flag fvq (has_dc * c_id)%nat)%Z 0%Z
  then 1 / vol c_id else 0.

(** [_sync_scalar_gradient_halo]. *)

Definition _sync_scalar_gradient_halo (m : cs_mesh_t)
           (halo_type : cs_halo_type_t) (grad : array cs_real_3_t)
  : array cs_real_3_t :=
  match halo m with
  | Some h =>
      let grad := cs_halo_sync_var_strided h halo_type grad in
      if have_rotation_perio m
      then cs_halo_perio_sync_var_vect h halo_type grad
      else grad
  | None => grad
  end.

(** Messages written by [bft_printf]. *)

Inductive log_event : Type :=
| Log_clip (var_name : string) (n_clip : nat) (min_factor max_factor : R)
| Log_converged (var_name : string) (n_sweeps : Z) (residual norm : R)
| Log_warning (var_name : string) (n_sweeps : Z) (residual norm : R).

Definition is_warning (e : log_event) : bool :=
  match e with Log_warning _ _ _ _ => true | _ => false end.

(** ** Clipping stage: [_scalar_gradient_clipping] *)

(** One interior face of the cell-based pass: [denum] holds the maximum
    variation of the gradient, [denom] the maximum variation of the
    variable. *)

Definition clip_cell_i_face (m : cs_mesh_t) (fvq : cs_mesh_quantities_t)
           (var : array R) (grad : array cs_real_3_t)
           (st : array R * array R) (f_id : nat) : array R * array R :=
  let '(denum, denom) := st in
  let ii := fst (i_face_cells m f_id) in
  let jj := snd (i_face_cells m f_id) in
  let dist := sub3 (cell_cen fvq ii) (cell_cen fvq jj) in
  let dist1 := CS_ABS (dot3 dist (grad ii)) in
  let dist2 := CS_ABS (dot3 dist (grad jj)) in
  let dvar := CS_ABS (var ii - var jj) in
  let denum := upd denum ii (CS_MAX (denum ii) dist1) in
  let denum := upd denum jj (CS_MAX (denum jj) dist2) in
  let denom := upd denom ii (CS_MAX (denom ii) dvar) in
  let denom := upd denom jj (CS_MAX (denom jj) dvar) in
  (denum, denom).

(** One extended neighbour [jj] of cell [ii], cell-based pass. *)

Definition clip_cell_ext (fvq : cs_mesh_quantities_t)
           (var : array R) (grad : array cs_real_3_t) (ii : nat)
           (st : array R * array R) (jj : nat) : array R * array R :=
  let '(denum, denom) := st in
  let dist := sub3 (cell_cen fvq ii) (cell_cen fvq jj) in
  let dist1 := CS_ABS (dot3 dist (grad ii)) in
  let dvar := CS_ABS (var ii - var jj) in
  let denum := upd denum ii (CS_MAX (denum ii) dist1) in
  let denom := upd denom ii (CS_MAX (denom ii) dvar) in
  (denum, denom).

(** Mean face gradient [0.5 * (grad[ii] + grad[jj])]. *)

Definition face_mean3 (u v : cs_real_3_t) : cs_real_3_t :=
  R3 (0.5 * (cx u + cx v)) (0.5 * (cy u + cy v)) (0.5 * (cz u + cz v)).

(** One interior face of the face-based pass. *)

Definition clip_face_i_face (m : cs_mesh_t) (fvq : cs_mesh_quantities_t)
           (var : array R) (grad : array cs_real_3_t)
           (st : array R * array R) (f_id : nat) : array R * array R :=
  let '(denum, denom) := st in
  let ii := fst (i_face_cells m f_id) in
  let jj := snd (i_face_cells m f_id) in
  let dist := sub3 (cell_cen fvq ii) (cell_cen fvq jj) in
  let dist1 := CS_ABS (dot3 dist (face_mean3 (grad ii) (grad jj))) in
  let dvar := CS_ABS (var ii - var jj) in
  let denum := upd denum ii (CS_MAX (denum ii) dist1) in
  let denum := upd denum jj (CS_MAX (denum jj) dist1) in
  let denom := upd denom ii (CS_MAX (denom ii) dvar) in
  let denom := upd denom jj (CS_MAX (denom jj) dvar) in
  (denum, denom).

(** One extended neighbour [jj] of cell [ii], face-based pass. *)

Definition clip_face_ext (fvq : cs_mesh_quantities_t)
           (var : array R) (grad : array cs_real_3_t) (ii : nat)
           (st : array R * array R) (jj : nat) : array R * array R :=
  let '(denum, denom) := st in
  let dist := sub3 (cell_cen fvq ii) (cell_cen fvq jj) in
  let dist1 := CS_ABS (dot3 dist (face_mean3 (grad ii) (grad jj))) in
  let dvar := CS_ABS (var ii - var jj) in
  let denum := upd denum ii (CS_MAX (denum ii) dist1) in
  let denom := upd denom ii (CS_MAX (denom ii) dvar) in
  (denum, denom).

(** The complement for the extended neighbourhood runs only when the
    cell-to-cells index exists and the halo is the extended one. *)

Definition ext_loop {S : Type} (m : cs_mesh_t) (halo_type : cs_halo_type_t)
           (body : nat -> S -> nat -> S) (s : S) : S :=
  match cell_cells_idx m with
  | Some idx =>
      if halo_type_eqb halo_type CS_HALO_EXTENDED
      then for_loop 0 (n_cells m)
                    (fun s ii => fold_left (body ii) (ext_neighbours m idx ii) s) s
      else s
  | None => s
  end.

(** One-sided factor of a cell: 1, or [climgp * denom / denum] when the
    gradient variation exceeds [climgp] times the variation of the variable. *)

Definition one_sided_factor (climgp : R) (denum denom : array R) (c : nat) : R :=
  if Rgt_dec (denum c) (climgp * denom c)
  then climgp * denom c / denum c else 1.

(** Running statistics of a clipping loop: the (possibly rescaled)
    gradient, the minimum and maximum factors and the number of clips. *)

Record clip_acc : Type := Clip_acc {
  acc_grad : array cs_real_3_t;
  acc_min : R;
  acc_max : R;
  acc_n : nat
}.

(** Cell-based clipping of one cell. *)

Definition clip_cell_apply (climgp : R) (denum denom : array R)
           (a : clip_acc) (ii : nat) : clip_acc :=
  if Rgt_dec (denum ii) (climgp * denom ii) then
    let factor1 := climgp * denom ii / denum ii in
    Clip_acc (upd (acc_grad a) ii (scale3 factor1 (acc_grad a ii)))
             (CS_MIN factor1 (acc_min a))
             (CS_MAX factor1 (acc_max a))
             (acc_n a + 1)
  else a.

(** Face-based pass, one interior face: the smaller of the one-sided
    factors of its two cells lowers the factor of both. *)

Definition clip_factor_i_face (m : cs_mesh_t) (climgp : R)
           (denum denom : array R) (clip_factor : array R) (f_id : nat)
  : array R :=
  let ii := fst (i_face_cells m f_id) in
  let jj := snd (i_face_cells m f_id) in
  let factor1 := one_sided_factor climgp denum denom ii in
  let factor2 := one_sided_factor climgp denum denom jj in
  let l_min_factor := CS_MIN factor1 factor2 in
  let clip_factor := upd clip_factor ii (CS_MIN (clip_factor ii) l_min_factor) in
  upd clip_factor jj (CS_MIN (clip_factor jj) l_min_factor).

(** Face-based pass, extended neighbours of cell [ii]. *)

Definition clip_factor_ext_cell (m : cs_mesh_t) (idx : array nat) (climgp : R)
           (denum denom : array R) (clip_factor : array R) (ii : nat)
  : array R :=
  let factor1 :=
    fold_left
      (fun factor1 jj =>
         CS_MIN factor1 (one_sided_factor climgp denum denom jj))
      (ext_neighbours m idx ii) 1 in
  upd clip_factor ii (CS_MIN (clip_factor ii) factor1).

Definition clip_factor_ext (m : cs_mesh_t) (halo_type : cs_halo_type_t)
           (climgp : R) (denum denom : array R) (clip_factor : array R)
  : array R :=
  match cell_cells_idx m with
  | Some idx =>
      if halo_type_eqb halo_type CS_HALO_EXTENDED
      then for_loop 0 (n_cells m)
                    (clip_factor_ext_cell m idx climgp denum denom) clip_factor
      else clip_factor
  | None => clip_factor
  end.

(** Face-based clipping of one cell. *)

Definition clip_face_apply (clip_factor : array R) (a : clip_acc) (ii : nat)
  : clip_acc :=
  let grad := upd (acc_grad a) ii (scale3 (clip_factor ii) (acc_grad a ii)) in
  if Rlt_dec (clip_factor ii) 0.99 then
    Clip_acc grad
             (CS_MIN (acc_min a) (clip_factor ii))
             (CS_MAX (acc_max a) (clip_factor ii))
             (acc_n a + 1)
  else Clip_acc grad (acc_min a) (acc_max a) (acc_n a).

Definition _scalar_gradient_clipping
           (g : cs_glob_t) (m : cs_mesh_t) (fvq : cs_mesh_quantities_t)
           (halo_type : cs_halo_type_t) (clip_mode : Z) (verbosity : Z)
           (climgp : R) (var_name : string) (var : array R)
           (grad : array cs_real_3_t) (log : list log_event)
  : array cs_real_3_t * list log_event :=
  let min_factor := 1 in
  let max_factor := 0 in
  if (clip_mode <=? CS_GRADIENT_LIMIT_NONE)%Z then (grad, log)
  else
    (* Synchronize variable *)
    let grad :=
      match halo m with
      | Some h =>
          if (clip_mode =? CS_GRADIENT_LIMIT_FACE)%Z
          then cs_halo_perio_sync_var_vect h halo_type
                 (cs_halo_sync_var_strided h halo_type grad)
          else grad
      | None => grad
      end in
    let denum0 : array R := fun _ => 0 in
    let denom0 : array R := fun _ => 0 in
    (* First computations *)
    let '(denum, denom) :=
      if (clip_mode =? CS_GRADIENT_LIMIT_CELL)%Z then
        ext_loop m halo_type (clip_cell_ext fvq var grad)
          (fold_left (clip_cell_i_face m fvq var grad) (i_face_order m)
                     (denum0, denom0))
      else if (clip_mode =? CS_GRADIENT_LIMIT_FACE)%Z then
        ext_loop m halo_type (clip_face_ext fvq var grad)
          (fold_left (clip_face_i_face m fvq var grad) (i_face_order m)
                     (denum0, denom0))
      else (denum0, denom0) in
    (* Clipping of the gradient if denum/denom > climgp *)
    let a :=
      if (clip_mode =? CS_GRADIENT_LIMIT_CELL)%Z then
        let t := for_loop 0 (n_cells m) (clip_cell_apply climgp denum denom)
                          (Clip_acc grad min_factor max_factor 0) in
        Clip_acc (acc_grad t) (CS_MIN min_factor (acc_min t))
                 (CS_MAX max_factor (acc_max t)) (0 + acc_n t)
      else if (clip_mode =? CS_GRADIENT_LIMIT_FACE)%Z then
        let clip_factor : array R := fun _ => DBL_MAX in
        let '(denom, denum) :=
          match halo m with
          | Some h => (cs_halo_sync_var h halo_type denom,
                       cs_halo_sync_var h halo_type denum)
          | None => (denom, denum)
          end in
        let clip_factor :=
          fold_left (clip_factor_i_face m climgp denum denom)
                    (i_face_order m) clip_factor in
        let clip_factor :=
          clip_factor_ext m halo_type climgp denum denom clip_factor in
        let t := for_loop 0 (n_cells m) (clip_face_apply clip_factor)
                          (Clip_acc grad min_factor max_factor 0) in
        Clip_acc (acc_grad t) (CS_MIN min_factor (acc_min t))
                 (CS_MAX max_factor (acc_max t)) (0 + acc_n t)
      else Clip_acc grad min_factor max_factor 0 in
    (* Update min/max and n_clip in case of parallelism *)
    let a :=
      if (1 <? n_domains m)%nat then
        Clip_acc (acc_grad a) (MPI_Allreduce_min g (acc_min a))
                 (MPI_Allreduce_max g (acc_max a))
                 (MPI_Allreduce_sum_gnum g (acc_n a))
      else a in
    (* Output warning if necessary *)
    let log :=
      if (1 <? verbosity)%Z
      then log ++ [Log_clip var_name (acc_n a) (acc_min a) (acc_max a)]
      else log in
    (* Synchronize grad *)
    let grad :=
      match halo m with
      | Some h =>
          cs_halo_perio_sync_var_vect h halo_type
            (cs_halo_sync_var_strided h halo_type (acc_grad a))
      | None => acc_grad a
      end in
    (grad, log).

(** ** Green-Gauss drivers: initialisation and iterative reconstruction *)

(** The optional cell weighting: none, one scalar per cell ([w_stride] 1)
    or one symmetric tensor per cell ([w_stride] 6, six consecutive
    entries of [c_weight]). *)

Inductive weighting : Type :=
| W_none
| W_scalar (c_weight_s : array R)
| W_tensor (c_weight_t : array cs_cocg_6_t).

Definition as_tensor_weight (c_weight : array R) : array cs_cocg_6_t :=
  fun c => Cocg (c_weight (6 * c)%nat) (c_weight (6 * c + 1)%nat)
                (c_weight (6 * c + 2)%nat) (c_weight (6 * c + 3)%nat)
                (c_weight (6 * c + 4)%nat) (c_weight (6 * c + 5)%nat).

Definition weighting_of (w_stride : Z) (c_weight : option (array R)) : weighting :=
  match c_weight with
  | None => W_none
  | Some cw =>
      if (w_stride =? 1)%Z then W_scalar cw
      else if (w_stride =? 6)%Z then W_tensor (as_tensor_weight cw)
      else W_none
  end.

(** Modelled from the spec: [cs_math_sym_33_inv_cramer] (cs_math.h, not
    among the sources at hand) is the out-of-place Cramer's-rule inverse of
    a packed symmetric matrix. *)

Definition cs_math_sym_33_inv_cramer (s : cs_cocg_6_t) : cs_cocg_6_t :=
  Kernels._math_6_inv_cramer_sym_in_place s.

(** Face interpolation weight [ktpond]. *)

Definition ktpond_of (fvq : cs_mesh_quantities_t) (w : weighting)
           (f_id ii jj : nat) : R :=
  match w with
  | W_none => weight fvq f_id
  | W_scalar c_weight_s =>
      weight fvq f_id * c_weight_s ii
      / (weight fvq f_id * c_weight_s ii
         + (1 - weight fvq f_id) * c_weight_s jj)
  | W_tensor c_weight_t =>
      let wi := c_weight_t ii in
      let wj := c_weight_t jj in
      let pond := weight fvq f_id in
      let sum :=
        Cocg (pond * a0 wi + (1 - pond) * a0 wj)
             (pond * a1 wi + (1 - pond) * a1 wj)
             (pond * a2 wi + (1 - pond) * a2 wj)
             (pond * a3 wi + (1 - pond) * a3 wj)
             (pond * a4 wi + (1 - pond) * a4 wj)
             (pond * a5 wi + (1 - pond) * a5 wj) in
      let inv_sum := cs_math_sym_33_inv_cramer sum in
      pond / 3
      * (  a0 inv_sum * a0 wi + a1 inv_sum * a1 wi + a2 inv_sum * a2 wi
         + 2 * (a3 inv_sum * a3 wi + a4 inv_sum * a4 wi + a5 inv_sum * a5 wi))
  end.

(** [grad[ii] += pfaci * n; grad[jj] -= pfacj * n]. *)

Definition scatter_face (a : array cs_real_3_t) (ii jj : nat)
           (pfaci pfacj : R) (n : cs_real_3_t) : array cs_real_3_t :=
  let a := upd a ii (axpy3 (a ii) pfaci n) in
  upd a jj (axmy3 (a jj) pfacj n).

(** [_initialize_scalar_gradient], interior face, hydrostatic case. *)

Definition init_i_face_hyd (g : cs_glob_t) (m : cs_mesh_t)
           (fvq : cs_mesh_quantities_t) (w : weighting)
           (f_ext : array cs_real_3_t) (pvar : array R)
           (grad : array cs_real_3_t) (f_id : nat) : array cs_real_3_t :=
  let ii := fst (i_face_cells m f_id) in
  let jj := snd (i_face_cells m f_id) in
  let ktpond := ktpond_of fvq w f_id ii jj in
  let poro0 := i_poro_duq_0 g f_id in
  let poro1 := i_poro_duq_1 g f_id in
  let pfaci :=
      ktpond * (dot3 (sub3 (i_face_cog fvq f_id) (cell_cen fvq ii)) (f_ext ii)
                + poro0)
    + (1 - ktpond)
      * (dot3 (sub3 (i_face_cog fvq f_id) (cell_cen fvq jj)) (f_ext jj)
         + poro1) in
  let pfacj := pfaci in
  let pfaci := pfaci + (1 - ktpond) * (pvar jj - pvar ii) in
  let pfacj := pfacj - ktpond * (pvar jj - pvar ii) in
  scatter_face grad ii jj pfaci pfacj (i_f_face_normal fvq f_id).

(** Boundary face, hydrostatic case (no test on coupled faces there). *)

Definition init_b_face_hyd (g : cs_glob_t) (m : cs_mesh_t)
           (fvq : cs_mesh_quantities_t) (inc : R)
           (f_ext : array cs_real_3_t) (coefap coefbp pvar : array R)
           (grad : array cs_real_3_t) (f_id : nat) : array cs_real_3_t :=
  let ii := b_face_cells m f_id in
  let poro := b_poro_duq g f_id in
  let pfac :=
      coefap f_id * inc
    + coefbp f_id
      * (dot3 (sub3 (b_face_cog fvq f_id) (cell_cen fvq ii)) (f_ext ii)
         + poro) in
  let pfac := pfac + (coefbp f_id - 1) * pvar ii in
  upd grad ii (axpy3 (grad ii) pfac (b_f_face_normal fvq f_id)).

(** Interior face, standard case. *)

Definition init_i_face (m : cs_mesh_t) (fvq : cs_mesh_quantities_t)
           (w : weighting) (pvar : array R)
           (grad : array cs_real_3_t) (f_id : nat) : array cs_real_3_t :=
  let ii := fst (i_face_cells m f_id) in
  let jj := snd (i_face_cells m f_id) in
  let ktpond := ktpond_of fvq w f_id ii jj in
  let pfaci := (1 - ktpond) * (pvar jj - pvar ii) in
  let pfacj := - ktpond * (pvar jj - pvar ii) in
  scatter_face grad ii jj pfaci pfacj (i_f_face_normal fvq f_id).

(** Boundary face, standard case. *)

Definition init_b_face (m : cs_mesh_t) (fvq : cs_mesh_quantities_t)
           (cpl : option cs_internal_coupling_t) (inc : R)
           (coefap coefbp pvar : array R)
           (grad : array cs_real_3_t) (f_id : nat) : array cs_real_3_t :=
  if is_coupled cpl f_id then grad
  else
    let ii := b_face_cells m f_id in
    let pfac := inc * coefap f_id + (coefbp f_id - 1) * pvar ii in
    upd grad ii (axpy3 (grad ii) pfac (b_f_face_normal fvq f_id)).

(** [grad[c] *= dvol] over the owned cells. *)

Definition scale_by_dvol (g : cs_glob_t) (m : cs_mesh_t)
           (fvq : cs_mesh_quantities_t) (grad : array cs_real_3_t)
  : array cs_real_3_t :=
  for_loop 0 (n_cells m)
    (fun grad cell_id =>
       upd grad cell_id
           (scale3 (dvol_of fvq (cell_f_vol_used g fvq) cell_id) (grad cell_id)))
    grad.

Definition _initialize_scalar_gradient
           (g : cs_glob_t) (m : cs_mesh_t) (fvq : cs_mesh_quantities_t)
           (cpl : option cs_internal_coupling_t) (w_stride : Z)
           (hyd_p_flag : Z) (inc : R) (f_ext : array cs_real_3_t)
           (coefap coefbp pvar : array R) (c_weight : option (array R))
  : array cs_real_3_t :=
  let w := weighting_of w_stride c_weight in
  (* Initialize gradient *)
  let grad : array cs_real_3_t := fun _ => zero3 in
  let grad :=
    if (hyd_p_flag =? 1)%Z then
      let grad := fold_left (init_i_face_hyd g m fvq w f_ext pvar)
                            (i_face_order m) grad in
      fold_left (init_b_face_hyd g m fvq inc f_ext coefap coefbp pvar)
                (b_face_order m) grad
    else
      let grad := fold_left (init_i_face m fvq w pvar) (i_face_order m) grad in
      let grad :=
        match cpl with
        | Some c =>
            cs_internal_coupling_initialize_scalar_gradient c c_weight pvar grad
        | None => grad
        end in
      fold_left (init_b_face m fvq cpl inc coefap coefbp pvar)
                (b_face_order m) grad in
  let grad := scale_by_dvol g m fvq grad in
  _sync_scalar_gradient_halo m CS_HALO_EXTENDED grad.

(** *** The COCG cache *)

Record cs_gradient_quantities_t : Type := {
  cocg_it : option (array cs_real_33_t);
  cocgb_s_lsq : option (array cs_cocg_6_t);
  cocg_lsq : option (array cs_cocg_6_t);
  cocgb_s_lsq_ext : option (array cs_cocg_6_t);
  cocg_lsq_ext : option (array cs_cocg_6_t)
}.

Definition gq_empty : cs_gradient_quantities_t :=
  {| cocg_it := None; cocgb_s_lsq := None; cocg_lsq := None;
     cocgb_s_lsq_ext := None; cocg_lsq_ext := None |}.

(** The static array [_gradient_quantities]; its length is
    [_n_gradient_quantities]. *)

Definition gq_store : Type := list cs_gradient_quantities_t.

(** [_gradient_quantities_get]: grows the array up to [id] with empty
    structures; the structure returned is entry [id]. *)

Definition _gradient_quantities_get (id : nat) (store : gq_store) : gq_store :=
  if (List.length store <=? id)%nat
  then store ++ repeat gq_empty (id + 1 - List.length store)
  else store.

Definition gq_at (store : gq_store) (id : nat) : cs_gradient_quantities_t :=
  nth id store gq_empty.

Fixpoint gq_set (store : gq_store) (id : nat) (q : cs_gradient_quantities_t)
  : gq_store :=
  match store, id with
  | [], _ => []
  | _ :: t, O => q :: t
  | h :: t, S k => h :: gq_set t k q
  end.

Definition gq_id_of (cpl : option cs_internal_coupling_t) : nat :=
  match cpl with None => 0%nat | Some c => (cpl_id c + 1)%nat end.

Definition add_33 (p q : cs_real_33_t) : cs_real_33_t :=
  M33 (m00 p + m00 q) (m01 p + m01 q) (m02 p + m02 q)
      (m10 p + m10 q) (m11 p + m11 q) (m12 p + m12 q)
      (m20 p + m20 q) (m21 p + m21 q) (m22 p + m22 q).

Definition sub_33 (p q : cs_real_33_t) : cs_real_33_t :=
  M33 (m00 p - m00 q) (m01 p - m01 q) (m02 p - m02 q)
      (m10 p - m10 q) (m11 p - m11 q) (m12 p - m12 q)
      (m20 p - m20 q) (m21 p - m21 q) (m22 p - m22 q).

(** [vecfac * dvol] for [vecfac = (-0.5 * dofij[i]) * normal[j]]. *)

Definition cocg_it_face_term (d n : cs_real_3_t) (dvol : R) : cs_real_33_t :=
  M33 (-0.5 * cx d * cx n * dvol) (-0.5 * cx d * cy n * dvol)
      (-0.5 * cx d * cz n * dvol)
      (-0.5 * cy d * cx n * dvol) (-0.5 * cy d * cy n * dvol)
      (-0.5 * cy d * cz n * dvol)
      (-0.5 * cz d * cx n * dvol) (-0.5 * cz d * cy n * dvol)
      (-0.5 * cz d * cz n * dvol).

Definition cocg_it_i_face (m : cs_mesh_t) (fvq : cs_mesh_quantities_t)
           (cocg : array cs_real_33_t) (f_id : nat) : array cs_real_33_t :=
  let cell_id1 := fst (i_face_cells m f_id) in
  let cell_id2 := snd (i_face_cells m f_id) in
  let dvol1 := 1 / cell_vol fvq cell_id1 in
  let dvol2 := 1 / cell_vol fvq cell_id2 in
  let cocg :=
    upd cocg cell_id1
        (add_33 (cocg cell_id1)
                (cocg_it_face_term (dofij fvq f_id) (i_face_normal fvq f_id) dvol1)) in
  upd cocg cell_id2
      (sub_33 (cocg cell_id2)
              (cocg_it_face_term (dofij fvq f_id) (i_face_normal fvq f_id) dvol2)).

(** [_compute_cell_cocg_it]: returns the matrices; the caller's structure
    designates them from then on. *)

Definition _compute_cell_cocg_it (m : cs_mesh_t) (fvq : cs_mesh_quantities_t)
           (ce : option cs_internal_coupling_t) : array cs_real_33_t :=
  let cocg : array cs_real_33_t := fun _ => identity_33 in
  let cocg := for_loop 0 (n_i_faces m) (cocg_it_i_face m fvq) cocg in
  let cocg :=
    match ce with
    | Some c => cs_internal_coupling_it_cocg_contribution c cocg
    | None => cocg
    end in
  for_loop 0 (n_cells m)
    (fun cocg cell_id =>
       upd cocg cell_id (Kernels.cs_math_33_inv_cramer_in_place (cocg cell_id)))
    cocg.

(** *** Diagnostics entry *)

(** The counters are machine integers: [n_calls] is an [unsigned] (32
    bits), [n_iter_min] and [n_iter_max] are [int], and [n_iter_tot] is an
    [unsigned long], of 64 bits on the LP64 platforms the code is built
    for.  Unsigned arithmetic wraps around. *)

Definition UINT_MODULUS : Z := (2 ^ 32)%Z.
Definition ULONG_MODULUS : Z := (2 ^ 64)%Z.
Definition INT_MIN : Z := (- 2 ^ 31)%Z.
Definition INT_MAX : Z := (2 ^ 31 - 1)%Z.

Record cs_gradient_info_t : Type := {
  info_name : string;
  info_type : cs_gradient_type_t;
  n_calls : Z;
  n_iter_min : Z;
  n_iter_max : Z;
  n_iter_tot : Z
}.

(** [_gradient_info_update_iter]: [n_iter] is an [int]; it is converted
    to [unsigned long] when added to [n_iter_tot], and the sum wraps. *)

Definition _gradient_info_update_iter (this_info : cs_gradient_info_t)
           (n_iter : Z) : cs_gradient_info_t :=
  let '(mn, mx) :=
    if (n_iter_max this_info <? n_iter)%Z then
      (if (n_calls this_info =? 0)%Z then n_iter else n_iter_min this_info,
       n_iter)
    else if (n_iter <? n_iter_min this_info)%Z then
      (n_iter, n_iter_max this_info)
    else (n_iter_min this_info, n_iter_max this_info) in
  {| info_name := info_name this_info;
     info_type := info_type this_info;
     n_calls := n_calls this_info;
     n_iter_min := mn;
     n_iter_max := mx;
     n_iter_tot := ((n_iter_tot this_info + n_iter) mod ULONG_MODULUS)%Z |}.

(** [if (gradient_info != NULL) _gradient_info_update_iter(...)]. *)

Definition update_iter_opt (gradient_info : option cs_gradient_info_t)
           (n_iter : Z) : option cs_gradient_info_t :=
  option_map (fun i => _gradient_info_update_iter i n_iter) gradient_info.

(** Modelled from the spec: [cs_dot] (cs_blas.h, not among the sources at
    hand) is the dot product; [_l2_norm_1] applied to the [3*n_cells]
    components of a cell array is the L2 norm over the owned cells, summed
    over the ranks when there are several. *)

Definition _l2_norm_1 (g : cs_glob_t) (n_cells : nat) (x : array cs_real_3_t) : R :=
  let s := rsum (fun c => dot3 (x c) (x c)) n_cells in
  let s := if (1 <? cs_glob_n_ranks g)%nat then MPI_Allreduce_sum g s else s in
  sqrt s.

(** *** One reconstruction sweep *)

(** Interior face, hydrostatic case. *)

Definition sweep_i_face_hyd (g : cs_glob_t) (m : cs_mesh_t)
           (fvq : cs_mesh_quantities_t) (w : weighting)
           (f_ext : array cs_real_3_t) (pvar : array R)
           (grad : array cs_real_3_t)
           (rhs : array cs_real_3_t) (f_id : nat) : array cs_real_3_t :=
  let c_id1 := fst (i_face_cells m f_id) in
  let c_id2 := snd (i_face_cells m f_id) in
  let ktpond := ktpond_of fvq w f_id c_id1 c_id2 in
  let poro0 := i_poro_duq_0 g f_id in
  let poro1 := i_poro_duq_1 g f_id in
  let wf := weight fvq f_id in
  let fexd := face_mean3 (f_ext c_id1) (f_ext c_id2) in
  let d1 := sub3 (i_face_cog fvq f_id) (cell_cen fvq c_id1) in
  let d2 := sub3 (i_face_cog fvq f_id) (cell_cen fvq c_id2) in
  let pfaci :=
      cx d1 * (ktpond * cx (f_ext c_id1) - wf * cx fexd)
    + cy d1 * (ktpond * cy (f_ext c_id1) - wf * cy fexd)
    + cz d1 * (ktpond * cz (f_ext c_id1) - wf * cz fexd)
    + ktpond * poro0
    + cx d2 * ((1 - ktpond) * cx (f_ext c_id2) - (1 - wf) * cx fexd)
    + cy d2 * ((1 - ktpond) * cy (f_ext c_id2) - (1 - wf) * cy fexd)
    + cz d2 * ((1 - ktpond) * cz (f_ext c_id2) - (1 - wf) * cz fexd)
    + (1 - ktpond) * poro1
    + dot3 (dofij fvq f_id) (add3 (grad c_id1) (grad c_id2)) * 0.5 in
  let pfacj := pfaci in
  let pfaci := pfaci + (1 - ktpond) * (pvar c_id2 - pvar c_id1) in
  let pfacj := pfacj - ktpond * (pvar c_id2 - pvar c_id1) in
  scatter_face rhs c_id1 c_id2 pfaci pfacj (i_f_face_normal fvq f_id).

(** Boundary face, hydrostatic case. *)

Definition sweep_b_face_hyd (g : cs_glob_t) (m : cs_mesh_t)
           (fvq : cs_mesh_quantities_t) (inc : R)
           (f_ext : array cs_real_3_t) (coefap coefbp pvar : array R)
           (grad : array cs_real_3_t)
           (rhs : array cs_real_3_t) (f_id : nat) : array cs_real_3_t :=
  let c_id := b_face_cells m f_id in
  let poro := b_poro_duq g f_id in
  let pfac :=
      coefap f_id * inc
    + coefbp f_id
      * (  dot3 (diipb fvq f_id) (sub3 (grad c_id) (f_ext c_id))
         + dot3 (sub3 (b_face_cog fvq f_id) (cell_cen fvq c_id)) (f_ext c_id)
         + poro) in
  let pfac := pfac + (coefbp f_id - 1) * pvar c_id in
  upd rhs c_id (axpy3 (rhs c_id) pfac (b_f_face_normal fvq f_id)).

(** Interior face, standard case. *)

Definition sweep_i_face (m : cs_mesh_t) (fvq : cs_mesh_quantities_t)
           (w : weighting) (pvar : array R) (grad : array cs_real_3_t)
           (rhs : array cs_real_3_t) (f_id : nat) : array cs_real_3_t :=
  let c_id1 := fst (i_face_cells m f_id) in
  let c_id2 := snd (i_face_cells m f_id) in
  let pfaci := 0.5 * dot3 (dofij fvq f_id) (add3 (grad c_id1) (grad c_id2)) in
  let pfacj := pfaci in
  let ktpond := ktpond_of fvq w f_id c_id1 c_id2 in
  let pfaci := pfaci + (1 - ktpond) * (pvar c_id2 - pvar c_id1) in
  let pfacj := pfacj - ktpond * (pvar c_id2 - pvar c_id1) in
  scatter_face rhs c_id1 c_id2 pfaci pfacj (i_f_face_normal fvq f_id).

(** Boundary face, standard case. *)

Definition sweep_b_face (m : cs_mesh_t) (fvq : cs_mesh_quantities_t)
           (cpl : option cs_internal_coupling_t) (inc : R)
           (coefap coefbp pvar : array R) (grad : array cs_real_3_t)
           (rhs : array cs_real_3_t) (f_id : nat) : array cs_real_3_t :=
  if is_coupled cpl f_id then rhs
  else
    let c_id := b_face_cells m f_id in
    let pfac :=
        coefap f_id * inc
      + coefbp f_id * dot3 (diipb fvq f_id) (grad c_id) in
    let pfac := pfac + (coefbp f_id - 1) * pvar c_id in
    upd rhs c_id (axpy3 (rhs c_id) pfac (b_f_face_normal fvq f_id)).

(** [rhs * cocg] as added to the gradient:
    component [j] is [rhs[0]*cocg[0][j] + rhs[1]*cocg[1][j] + rhs[2]*cocg[2][j]]. *)

Definition rhs_times_cocg (r : cs_real_3_t) (c : cs_real_33_t) : cs_real_3_t :=
  R3 (cx r * m00 c + cy r * m10 c + cz r * m20 c)
     (cx r * m01 c + cy r * m11 c + cz r * m21 c)
     (cx r * m02 c + cy r * m12 c + cz r * m22 c).

(** Increment of one owned cell: the right-hand side is scaled by [dvol]
    and the gradient advanced by [rhs * cocg]. *)

Definition sweep_increment (g : cs_glob_t) (fvq : cs_mesh_quantities_t)
           (cocg : array cs_real_33_t)
           (st : array cs_real_3_t * array cs_real_3_t) (c_id : nat)
  : array cs_real_3_t * array cs_real_3_t :=
  let '(grad, rhs) := st in
  let dvol := dvol_of fvq (cell_f_vol_used g fvq) c_id in
  let rhs := upd rhs c_id (scale3 dvol (rhs c_id)) in
  let grad := upd grad c_id (add3 (grad c_id) (rhs_times_cocg (rhs c_id) (cocg c_id))) in
  (grad, rhs).

(** One sweep: the new gradient and its right-hand side. *)

Definition sweep (g : cs_glob_t) (m : cs_mesh_t) (fvq : cs_mesh_quantities_t)
           (cpl : option cs_internal_coupling_t) (w : weighting)
           (c_weight : option (array R))
           (hyd_p_flag : Z) (inc : R) (f_ext : array cs_real_3_t)
           (coefap coefbp pvar : array R) (cocg : array cs_real_33_t)
           (grad : array cs_real_3_t)
  : array cs_real_3_t * array cs_real_3_t :=
  let vol := cell_f_vol_used g fvq in
  (* Compute right hand side *)
  let rhs : array cs_real_3_t :=
    fun c_id => R3 (- cx (grad c_id) * vol c_id)
                   (- cy (grad c_id) * vol c_id)
                   (- cz (grad c_id) * vol c_id) in
  let rhs :=
    if (hyd_p_flag =? 1)%Z then
      let rhs := fold_left (sweep_i_face_hyd g m fvq w f_ext pvar grad)
                           (i_face_order m) rhs in
      fold_left (sweep_b_face_hyd g m fvq inc f_ext coefap coefbp pvar grad)
                (b_face_order m) rhs
    else
      let rhs := fold_left (sweep_i_face m fvq w pvar grad)
                           (i_face_order m) rhs in
      let rhs :=
        match cpl with
        | Some c =>
            cs_internal_coupling_iterative_scalar_gradient c c_weight grad pvar rhs
        | None => rhs
        end in
      fold_left (sweep_b_face m fvq cpl inc coefap coefbp pvar grad)
                (b_face_order m) rhs in
  (* Increment gradient *)
  let '(grad, rhs) :=
    for_loop 0 (n_cells m) (sweep_increment g fvq cocg) (grad, rhs) in
  (* Synchronize halos *)
  (_sync_scalar_gradient_halo m CS_HALO_STANDARD grad, rhs).

(** *** [_iterative_scalar_gradient] *)

(** State of the sweep loop. *)

Record sweep_state : Type := Sweep_state {
  sw_grad : array cs_real_3_t;
  sw_n_sweeps : Z;
  sw_l2_residual : R;
  sw_log : list log_event
}.

(** [for (n_sweeps = ...; n_sweeps < nswrgp; n_sweeps++) { ...; if
    (l2_residual < epsrgp*rnorm) break; }], by recursion on the number
    [todo] of values of [n_sweeps] still below [nswrgp]. *)

Fixpoint sweep_loop (g : cs_glob_t) (m : cs_mesh_t)
         (one_sweep : array cs_real_3_t -> array cs_real_3_t * array cs_real_3_t)
         (var_name : string) (verbosity : Z) (epsrgp rnorm : R)
         (todo : nat) (s : sweep_state) : sweep_state :=
  match todo with
  | O => s
  | S todo' =>
      let '(grad, rhs) := one_sweep (sw_grad s) in
      (* Convergence test *)
      let l2_residual := _l2_norm_1 g (n_cells m) rhs in
      if Rlt_dec l2_residual (epsrgp * rnorm) then
        let log :=
          if (2 <=? verbosity)%Z
          then sw_log s ++ [Log_converged var_name (sw_n_sweeps s)
                                          (l2_residual / rnorm) rnorm]
          else sw_log s in
        Sweep_state grad (sw_n_sweeps s) l2_residual log
      else
        sweep_loop g m one_sweep var_name verbosity epsrgp rnorm todo'
                   (Sweep_state grad (sw_n_sweeps s + 1)%Z l2_residual (sw_log s))
  end.

(** Result of the driver: the gradient, the cache, the diagnostics entry
    and the log. *)

Record iter_result : Type := Iter_result {
  it_grad : array cs_real_3_t;
  it_store : gq_store;
  it_info : option cs_gradient_info_t;
  it_log : list log_event
}.

Definition _iterative_scalar_gradient
           (g : cs_glob_t) (m : cs_mesh_t) (fvq : cs_mesh_quantities_t)
           (cpl : option cs_internal_coupling_t) (w_stride : Z)
           (var_name : string) (gradient_info : option cs_gradient_info_t)
           (nswrgp : Z) (hyd_p_flag : Z) (verbosity : Z) (inc : R)
           (epsrgp : R) (f_ext : array cs_real_3_t)
           (coefap coefbp pvar : array R) (c_weight : option (array R))
           (store : gq_store) (log : list log_event)
           (grad : array cs_real_3_t) : iter_result :=
  if (nswrgp <? 1)%Z then
    Iter_result grad store (update_iter_opt gradient_info 0) log
  else
    let gq_id := gq_id_of cpl in
    let store := _gradient_quantities_get gq_id store in
    let gq := gq_at store gq_id in
    let '(cocg, store) :=
      match cocg_it gq with
      | Some cocg => (cocg, store)
      | None =>
          let cocg := _compute_cell_cocg_it m fvq cpl in
          (cocg,
           gq_set store gq_id
                  {| cocg_it := Some cocg;
                     cocgb_s_lsq := cocgb_s_lsq gq;
                     cocg_lsq := cocg_lsq gq;
                     cocgb_s_lsq_ext := cocgb_s_lsq_ext gq;
                     cocg_lsq_ext := cocg_lsq_ext gq |})
      end in
    let w := weighting_of w_stride c_weight in
    (* Compute normalization residual *)
    let rnorm := _l2_norm_1 g (n_cells m) grad in
    if Rle_dec rnorm (cs_math_epzero g) then
      Iter_result grad store (update_iter_opt gradient_info 0) log
    else
      let s :=
        sweep_loop g m
          (sweep g m fvq cpl w c_weight hyd_p_flag inc f_ext
                 coefap coefbp pvar cocg)
          var_name verbosity epsrgp rnorm
          (Z.to_nat (nswrgp - 1)) (Sweep_state grad 1 0 log) in
      let log :=
        if Rge_dec (sw_l2_residual s) (epsrgp * rnorm) then
          if (-1 <? verbosity)%Z
          then sw_log s ++ [Log_warning var_name (sw_n_sweeps s)
                                        (sw_l2_residual s / rnorm) rnorm]
          else sw_log s
        else sw_log s in
      Iter_result (sw_grad s) store
                  (update_iter_opt gradient_info (sw_n_sweeps s)) log.

(** Gradient after [k] sweeps. *)

Fixpoint sweep_grad
         (one_sweep : array cs_real_3_t -> array cs_real_3_t * array cs_real_3_t)
         (k : nat) (grad : array cs_real_3_t) : array cs_real_3_t :=
  match k with
  | O => grad
  | S k' => sweep_grad one_sweep k' (fst (one_sweep grad))
  end.

(** Residual norm computed by sweep [k] (counted from 1); for [k = 0] it
    is the initial value 0 of [l2_residual]. *)

Fixpoint sweep_residual (g : cs_glob_t) (m : cs_mesh_t)
         (one_sweep : array cs_real_3_t -> array cs_real_3_t * array cs_real_3_t)
         (k : nat) (grad : array cs_real_3_t) : R :=
  match k with
  | O => 0
  | S k' =>
      match k' with
      | O => _l2_norm_1 g (n_cells m) (snd (one_sweep grad))
      | S _ => sweep_residual g m one_sweep k' (fst (one_sweep grad))
      end
  end.

(** The iterative COCG matrices the driver works with: those of the cache
    when present, freshly computed ones otherwise. *)

Definition cocg_it_used (m : cs_mesh_t) (fvq : cs_mesh_quantities_t)
           (cpl : option cs_internal_coupling_t) (store : gq_store)
  : array cs_real_33_t :=
  match cocg_it (gq_at (_gradient_quantities_get (gq_id_of cpl) store)
                       (gq_id_of cpl)) with
  | Some cocg => cocg
  | None => _compute_cell_cocg_it m fvq cpl
  end.

(** The log gained a warning. *)

Definition warned (log log' : list log_event) : Prop :=
  exists e, log' = log ++ [e] /\ is_warning e = true.

(** ** Least-squares driver and its COCG cache *)

(** [cocg[ii][0..5] += (d[0]*d[0], d[1]*d[1], d[2]*d[2], d[0]*d[1],
    d[1]*d[2], d[0]*d[2]) * s]. *)

Definition cocg_add_scaled (c : cs_cocg_6_t) (d : cs_real_3_t) (s : R)
  : cs_cocg_6_t :=
  Cocg (a0 c + cx d * cx d * s) (a1 c + cy d * cy d * s)
       (a2 c + cz d * cz d * s) (a3 c + cx d * cy d * s)
       (a4 c + cy d * cz d * s) (a5 c + cx d * cz d * s).

(** The same accumulation without a scale factor. *)

Definition cocg_add_outer (c : cs_cocg_6_t) (d : cs_real_3_t) : cs_cocg_6_t :=
  Cocg (a0 c + cx d * cx d) (a1 c + cy d * cy d)
       (a2 c + cz d * cz d) (a3 c + cx d * cy d)
       (a4 c + cy d * cz d) (a5 c + cx d * cz d).

Definition cocg_lsq_i_face (m : cs_mesh_t) (fvq : cs_mesh_quantities_t)
           (cocg : array cs_cocg_6_t) (f_id : nat) : array cs_cocg_6_t :=
  let ii := fst (i_face_cells m f_id) in
  let jj := snd (i_face_cells m f_id) in
  let dc := sub3 (cell_cen fvq jj) (cell_cen fvq ii) in
  let ddc := 1 / (cx dc * cx dc + cy dc * cy dc + cz dc * cz dc) in
  let cocg := upd cocg ii (cocg_add_scaled (cocg ii) dc ddc) in
  upd cocg jj (cocg_add_scaled (cocg jj) dc ddc).

Definition cocg_lsq_neighbour (fvq : cs_mesh_quantities_t) (ii : nat)
           (cocg : array cs_cocg_6_t) (jj : nat) : array cs_cocg_6_t :=
  let dc := sub3 (cell_cen fvq jj) (cell_cen fvq ii) in
  let ddc := 1 / (cx dc * cx dc + cy dc * cy dc + cz dc * cz dc) in
  upd cocg ii (cocg_add_scaled (cocg ii) dc ddc).

Definition cocg_lsq_b_face_sym (g : cs_glob_t) (m : cs_mesh_t)
           (fvq : cs_mesh_quantities_t) (ce : option cs_internal_coupling_t)
           (cocg : array cs_cocg_6_t) (f_id : nat) : array cs_cocg_6_t :=
  if is_coupled ce f_id then cocg
  else
    let ii := b_face_cells m f_id in
    let normal := cs_math_3_normalize g (b_face_normal fvq f_id) in
    upd cocg ii (cocg_add_outer (cocg ii) normal).

(** In-place inversion of the matrices of the cells [cell_of 0 ..
    cell_of (n-1)]. *)

Definition invert_cells (n : nat) (cell_of : nat -> nat)
           (cocg : array cs_cocg_6_t) : array cs_cocg_6_t :=
  for_loop 0 n
    (fun cocg ii =>
       upd cocg (cell_of ii)
           (Kernels._math_6_inv_cramer_sym_in_place (cocg (cell_of ii))))
    cocg.

(** [_compute_cell_cocg_lsq]: the pair [(cocg, cocgb)] stored in the
    structure ([cocgb] holds the interior-only sums of the boundary cells,
    indexed by position in [b_cells]). *)

Definition _compute_cell_cocg_lsq (g : cs_glob_t) (m : cs_mesh_t)
           (extended : bool) (fvq : cs_mesh_quantities_t)
           (ce : option cs_internal_coupling_t)
  : array cs_cocg_6_t * array cs_cocg_6_t :=
  (* Initialization *)
  let cocg : array cs_cocg_6_t := fun _ => zero6 in
  (* Contribution from interior faces *)
  let cocg := fold_left (cocg_lsq_i_face m fvq) (i_face_order m) cocg in
  (* Contribution for internal coupling *)
  let cocg :=
    match ce with
    | Some c => cs_internal_coupling_lsq_cocg_contribution c cocg
    | None => cocg
    end in
  (* Contribution from extended neighborhood *)
  let cocg :=
    if extended then
      match cell_cells_idx m with
      | Some idx =>
          for_loop 0 (n_cells m)
            (fun cocg ii =>
               fold_left (cocg_lsq_neighbour fvq ii) (ext_neighbours m idx ii) cocg)
            cocg
      | None => cocg
      end
    else cocg in
  (* Save partial cocg at interior faces of boundary cells *)
  let cocgb : array cs_cocg_6_t := fun ii => cocg (b_cells m ii) in
  (* Contribution from boundary faces, assuming symmetry everywhere *)
  let cocg := fold_left (cocg_lsq_b_face_sym g m fvq ce) (b_face_order m) cocg in
  (* Invert for all cells *)
  (invert_cells (n_cells m) (fun c_id => c_id) cocg, cocgb).

Definition is_extended (m : cs_mesh_t) (halo_type : cs_halo_type_t) : bool :=
  halo_type_eqb halo_type CS_HALO_EXTENDED
  && match cell_cells_idx m with Some _ => true | None => false end.

Definition gq_cocg_lsq (extended : bool) (gq : cs_gradient_quantities_t)
  : option (array cs_cocg_6_t) :=
  if extended then cocg_lsq_ext gq else cocg_lsq gq.

Definition gq_cocgb_lsq (extended : bool) (gq : cs_gradient_quantities_t)
  : option (array cs_cocg_6_t) :=
  if extended then cocgb_s_lsq_ext gq else cocgb_s_lsq gq.

Definition gq_with_lsq (extended : bool) (gq : cs_gradient_quantities_t)
           (cocg cocgb : option (array cs_cocg_6_t)) : cs_gradient_quantities_t :=
  if extended then
    {| cocg_it := cocg_it gq; cocgb_s_lsq := cocgb_s_lsq gq;
       cocg_lsq := cocg_lsq gq;
       cocgb_s_lsq_ext := cocgb; cocg_lsq_ext := cocg |}
  else
    {| cocg_it := cocg_it gq; cocgb_s_lsq := cocgb;
       cocg_lsq := cocg;
       cocgb_s_lsq_ext := cocgb_s_lsq_ext gq;
       cocg_lsq_ext := cocg_lsq_ext gq |}.

(** The matrices designated by a possibly null pointer of the structure. *)

Definition deref6 (p : option (array cs_cocg_6_t)) : array cs_cocg_6_t :=
  match p with Some a => a | None => fun _ => zero6 end.

(** [_get_cell_cocg_lsq] (host build, [accel] false): builds the matrices
    when the structure has none, and returns the cache together with the
    two arrays it designates. *)

Definition _get_cell_cocg_lsq (g : cs_glob_t) (m : cs_mesh_t)
           (halo_type : cs_halo_type_t) (fvq : cs_mesh_quantities_t)
           (ce : option cs_internal_coupling_t) (store : gq_store)
  : gq_store * array cs_cocg_6_t * array cs_cocg_6_t :=
  let gq_id := gq_id_of ce in
  let store := _gradient_quantities_get gq_id store in
  let gq := gq_at store gq_id in
  let extended := is_extended m halo_type in
  let store :=
    match gq_cocg_lsq extended gq with
    | Some _ => store
    | None =>
        let '(cocg, cocgb) := _compute_cell_cocg_lsq g m extended fvq ce in
        gq_set store gq_id (gq_with_lsq extended gq (Some cocg) (Some cocgb))
    end in
  let gq := gq_at store gq_id in
  (store, deref6 (gq_cocg_lsq extended gq), deref6 (gq_cocgb_lsq extended gq)).

(** Boundary face of the recomputation: the face term depends on the
    boundary coefficient [coefbp]. *)

Definition bc_direction (fvq : cs_mesh_quantities_t) (coefbp : array R)
           (f_id : nat) : cs_real_3_t :=
  let umcbdd := (1 - coefbp f_id) / b_dist fvq f_id in
  let udbfs := 1 / b_face_surf fvq f_id in
  R3 (udbfs * cx (b_face_normal fvq f_id) + umcbdd * cx (diipb fvq f_id))
     (udbfs * cy (b_face_normal fvq f_id) + umcbdd * cy (diipb fvq f_id))
     (udbfs * cz (b_face_normal fvq f_id) + umcbdd * cz (diipb fvq f_id)).

Definition recompute_b_face (m : cs_mesh_t) (fvq : cs_mesh_quantities_t)
           (cpl : option cs_internal_coupling_t) (coefbp : array R)
           (cocg : array cs_cocg_6_t) (f_id : nat) : array cs_cocg_6_t :=
  if is_coupled cpl f_id then cocg
  else
    let ii := b_face_cells m f_id in
    upd cocg ii (cocg_add_outer (cocg ii) (bc_direction fvq coefbp f_id)).

(** [cocg[b_cells[ii]] = cocgb[ii]] for every boundary cell. *)

Definition restore_b_cells (m : cs_mesh_t) (cocgb cocg : array cs_cocg_6_t)
  : array cs_cocg_6_t :=
  for_loop 0 (n_b_cells m)
           (fun cocg ii => upd cocg (b_cells m ii) (cocgb ii)) cocg.

(** [_recompute_lsq_scalar_cocg]. *)

Definition _recompute_lsq_scalar_cocg (m : cs_mesh_t)
           (fvq : cs_mesh_quantities_t) (cpl : option cs_internal_coupling_t)
           (coefbp : array R) (cocgb cocg : array cs_cocg_6_t)
  : array cs_cocg_6_t :=
  (* Recompute cocg at boundaries, using saved cocgb *)
  let cocg := restore_b_cells m cocgb cocg in
  (* Contribution for internal coupling *)
  let cocg :=
    match cpl with
    | Some c => cs_internal_coupling_lsq_cocg_contribution c cocg
    | None => cocg
    end in
  (* Contribution from regular boundary faces *)
  let cocg := fold_left (recompute_b_face m fvq cpl coefbp) (b_face_order m) cocg in
  invert_cells (n_b_cells m) (b_cells m) cocg.

(** Right-hand side of the least-squares system. *)

Definition rhs_add (r : cs_real_4_t) (v : cs_real_3_t) : cs_real_4_t :=
  R4 (add3 (rhs_v r) v) (rhs_p r).

(** [d * p], component by component. *)

Definition times3 (d : cs_real_3_t) (p : R) : cs_real_3_t :=
  R3 (cx d * p) (cy d * p) (cz d * p).

(** [s * d], component by component. *)

Definition smul3 (s : R) (d : cs_real_3_t) : cs_real_3_t :=
  R3 (s * cx d) (s * cy d) (s * cz d).

Definition lsq_i_face (m : cs_mesh_t) (fvq : cs_mesh_quantities_t)
           (c_weight : option (array R))
           (rhsv : array cs_real_4_t) (f_id : nat) : array cs_real_4_t :=
  let ii := fst (i_face_cells m f_id) in
  let jj := snd (i_face_cells m f_id) in
  let pond := weight fvq f_id in
  let dc := sub3 (cell_cen fvq jj) (cell_cen fvq ii) in
  (* (P_j - P_i) / ||d||^2 *)
  let pfac := (rhs_p (rhsv jj) - rhs_p (rhsv ii))
              / (cx dc * cx dc + cy dc * cy dc + cz dc * cz dc) in
  let fctb := times3 dc pfac in
  match c_weight with
  | Some cw =>
      let denom := 1 / (pond * cw ii + (1 - pond) * cw jj) in
      let rhsv := upd rhsv ii (rhs_add (rhsv ii) (smul3 (cw jj * denom) fctb)) in
      upd rhsv jj (rhs_add (rhsv jj) (smul3 (cw ii * denom) fctb))
  | None =>
      let rhsv := upd rhsv ii (rhs_add (rhsv ii) fctb) in
      upd rhsv jj (rhs_add (rhsv jj) fctb)
  end.

Definition lsq_ext (fvq : cs_mesh_quantities_t) (ii : nat)
           (rhsv : array cs_real_4_t) (jj : nat) : array cs_real_4_t :=
  let dc := sub3 (cell_cen fvq jj) (cell_cen fvq ii) in
  let pfac := (rhs_p (rhsv jj) - rhs_p (rhsv ii))
              / (cx dc * cx dc + cy dc * cy dc + cz dc * cz dc) in
  upd rhsv ii (rhs_add (rhsv ii) (times3 dc pfac)).

Definition lsq_b_face (m : cs_mesh_t) (fvq : cs_mesh_quantities_t)
           (cpl : option cs_internal_coupling_t) (inc : R)
           (coefap coefbp : array R)
           (rhsv : array cs_real_4_t) (f_id : nat) : array cs_real_4_t :=
  if is_coupled cpl f_id then rhsv
  else
    let ii := b_face_cells m f_id in
    let unddij := 1 / b_dist fvq f_id in
    let udbfs := 1 / b_face_surf fvq f_id in
    let umcbdd := (1 - coefbp f_id) * unddij in
    let dsij :=
      R3 (udbfs * cx (b_face_normal fvq f_id) + umcbdd * cx (diipb fvq f_id))
         (udbfs * cy (b_face_normal fvq f_id) + umcbdd * cy (diipb fvq f_id))
         (udbfs * cz (b_face_normal fvq f_id) + umcbdd * cz (diipb fvq f_id)) in
    let pfac := (coefap f_id * inc + (coefbp f_id - 1) * rhs_p (rhsv ii))
                * unddij in
    upd rhsv ii (rhs_add (rhsv ii) (times3 dsij pfac)).

(** [grad[c] = cocg[c] . rhsv[c]] with the packed layout. *)

Definition cocg_times_rhs (c : cs_cocg_6_t) (r : cs_real_3_t) : cs_real_3_t :=
  R3 (a0 c * cx r + a3 c * cy r + a5 c * cz r)
     (a3 c * cx r + a1 c * cy r + a4 c * cz r)
     (a5 c * cx r + a4 c * cy r + a2 c * cz r).

Definition solve_cells (m : cs_mesh_t) (cocg : array cs_cocg_6_t)
           (rhsv : array cs_real_4_t) (grad : array cs_real_3_t)
  : array cs_real_3_t :=
  for_loop 0 (n_cells m)
    (fun grad c_id =>
       upd grad c_id (cocg_times_rhs (cocg c_id) (rhs_v (rhsv c_id))))
    grad.

(** Writes the matrices back where the cache designates them (the
    recomputation works in place on the cached array). *)

Definition store_cocg_lsq (m : cs_mesh_t) (halo_type : cs_halo_type_t)
           (store : gq_store) (cocg : array cs_cocg_6_t) : gq_store :=
  let extended := is_extended m halo_type in
  let gq := gq_at store 0 in
  gq_set store 0 (gq_with_lsq extended gq (Some cocg) (gq_cocgb_lsq extended gq)).

(** [_lsq_scalar_gradient] (host build).  The cache is looked up without
    the coupling ([NULL] is passed, "handled locally here"); [grad] is the
    output array, of which only owned entries are assigned before the
    exchange. *)

Definition _lsq_scalar_gradient
           (g : cs_glob_t) (m : cs_mesh_t) (fvq : cs_mesh_quantities_t)
           (cpl : option cs_internal_coupling_t)
           (halo_type : cs_halo_type_t) (recompute_cocg : bool) (inc : R)
           (coefap coefbp pvar : array R) (c_weight : option (array R))
           (store : gq_store) (grad : array cs_real_3_t)
  : array cs_real_3_t * gq_store :=
  let '(store, cocg, cocgb) := _get_cell_cocg_lsq g m halo_type fvq None store in
  (* Compute cocg and save contribution at boundaries *)
  let '(cocg, store) :=
    if recompute_cocg then
      let cocg := _recompute_lsq_scalar_cocg m fvq cpl coefbp cocgb cocg in
      (cocg, store_cocg_lsq m halo_type store cocg)
    else (cocg, store) in
  (* Compute Right-Hand Side *)
  let rhsv : array cs_real_4_t := fun c_id => R4 zero3 (pvar c_id) in
  let rhsv := fold_left (lsq_i_face m fvq c_weight) (i_face_order m) rhsv in
  let rhsv := ext_loop m halo_type (lsq_ext fvq) rhsv in
  let rhsv :=
    match cpl with
    | Some c => cs_internal_coupling_lsq_scalar_gradient c c_weight 1 rhsv
    | None => rhsv
    end in
  let rhsv := fold_left (lsq_b_face m fvq cpl inc coefap coefbp)
                        (b_face_order m) rhsv in
  (* Compute gradient *)
  let grad := solve_cells m cocg rhsv grad in
  (_sync_scalar_gradient_halo m CS_HALO_STANDARD grad, store).

(** ** Least squares with a tensor weighting, and the reconstruction
       driver *)

(** Modelled from the spec: [cs_math_sym_33_3_product] (cs_math.h, not
    among the sources at hand), the product of a packed symmetric matrix
    and a vector, with the packing used throughout this file (diagonal in
    entries 0 to 2, then xy, yz, xz). *)

Definition cs_math_sym_33_3_product (s : cs_cocg_6_t) (v : cs_real_3_t)
  : cs_real_3_t :=
  R3 (a0 s * cx v + a3 s * cy v + a5 s * cz v)
     (a3 s * cx v + a1 s * cy v + a4 s * cz v)
     (a5 s * cx v + a4 s * cy v + a2 s * cz v).

(** [sum[ii] = a*wi[ii] + (1. - a)*wj[ii]]. *)

Definition ani_sum (wi wj : cs_cocg_6_t) (a : R) : cs_cocg_6_t :=
  Cocg (a * a0 wi + (1 - a) * a0 wj) (a * a1 wi + (1 - a) * a1 wj)
       (a * a2 wi + (1 - a) * a2 wj) (a * a3 wi + (1 - a) * a3 wj)
       (a * a4 wi + (1 - a) * a4 wj) (a * a5 wi + (1 - a) * a5 wj).

(** [_compute_ani_weighting_cocg]: the pair [(ki_d, kj_d)]. *)

Definition _compute_ani_weighting_cocg (wi wj : cs_cocg_6_t)
           (d : cs_real_3_t) (a : R) : cs_real_3_t * cs_real_3_t :=
  let sum := ani_sum wi wj a in
  let inv_wi := cs_math_sym_33_inv_cramer wi in
  let inv_wj := cs_math_sym_33_inv_cramer wj in
  let ki_d := cs_math_sym_33_3_product sum
                (cs_math_sym_33_3_product inv_wj d) in
  let kj_d := cs_math_sym_33_3_product sum
                (cs_math_sym_33_3_product inv_wi d) in
  (ki_d, kj_d).

(** [res[ii] += p_diff * k_d[ii] * norm]. *)

Definition ani_add (res : cs_real_4_t) (p_diff : R) (k_d : cs_real_3_t)
           (norm : R) : cs_real_4_t :=
  R4 (R3 (cx (rhs_v res) + p_diff * cx k_d * norm)
         (cy (rhs_v res) + p_diff * cy k_d * norm)
         (cz (rhs_v res) + p_diff * cz k_d * norm))
     (rhs_p res).

(** [_compute_ani_weighting]: the updated pair [(resi, resj)]. *)

Definition _compute_ani_weighting (wi wj : cs_cocg_6_t) (p_diff : R)
           (d : cs_real_3_t) (a : R) (resi resj : cs_real_4_t)
  : cs_real_4_t * cs_real_4_t :=
  let '(ki_d, kj_d) := _compute_ani_weighting_cocg wi wj d a in
  (* 1 / ||Ki. K_f^-1. IJ||^2 *)
  let normi := 1 / dot3 ki_d ki_d in
  (* 1 / ||Kj. K_f^-1. IJ||^2 *)
  let normj := 1 / dot3 kj_d kj_d in
  (ani_add resi p_diff ki_d normi, ani_add resj p_diff kj_d normj).

(** [cocg[c] += (d x d) * s] in the packed layout. *)

Definition cocg_add_outer_scaled (c : cs_cocg_6_t) (d : cs_real_3_t) (s : R)
  : cs_cocg_6_t :=
  Cocg (a0 c + cx d * cx d * s) (a1 c + cy d * cy d * s)
       (a2 c + cz d * cz d * s) (a3 c + cx d * cy d * s)
       (a4 c + cy d * cz d * s) (a5 c + cx d * cz d * s).

(** Interior face of [_lsq_scalar_gradient_ani]: matrices and right-hand
    sides of the two cells.  [resi] and [resj] designate [rhsv[ii]] and
    [rhsv[jj]]; the update of cell [jj] is written last. *)

Definition ani_i_face (m : cs_mesh_t) (fvq : cs_mesh_quantities_t)
           (c_weight_t : array cs_cocg_6_t)
           (st : array cs_cocg_6_t * array cs_real_4_t) (f_id : nat)
  : array cs_cocg_6_t * array cs_real_4_t :=
  let '(cocg, rhsv) := st in
  let ii := fst (i_face_cells m f_id) in
  let jj := snd (i_face_cells m f_id) in
  let pond := weight fvq f_id in
  let dc := sub3 (cell_cen fvq jj) (cell_cen fvq ii) in
  (* cocg contribution *)
  let '(dc_i, dc_j) :=
    _compute_ani_weighting_cocg (c_weight_t ii) (c_weight_t jj) dc pond in
  let i_dci := 1 / dot3 dc_i dc_i in
  let i_dcj := 1 / dot3 dc_j dc_j in
  let cocg := upd cocg ii (cocg_add_outer_scaled (cocg ii) dc_i i_dci) in
  let cocg := upd cocg jj (cocg_add_outer_scaled (cocg jj) dc_j i_dcj) in
  (* RHS contribution *)
  let p_diff := rhs_p (rhsv jj) - rhs_p (rhsv ii) in
  let '(resi, resj) :=
    _compute_ani_weighting (c_weight_t ii) (c_weight_t jj) p_diff dc pond
                           (rhsv ii) (rhsv jj) in
  let rhsv := upd rhsv ii resi in
  let rhsv := upd rhsv jj resj in
  (cocg, rhsv).

(** Boundary face of [_lsq_scalar_gradient_ani]. *)

Definition ani_b_face (m : cs_mesh_t) (fvq : cs_mesh_quantities_t)
           (cpl : option cs_internal_coupling_t) (inc : R)
           (coefap coefbp : array R)
           (st : array cs_cocg_6_t * array cs_real_4_t) (f_id : nat)
  : array cs_cocg_6_t * array cs_real_4_t :=
  let '(cocg, rhsv) := st in
  if is_coupled cpl f_id then (cocg, rhsv)
  else
    let ii := b_face_cells m f_id in
    let umcbdd := (1 - coefbp f_id) / b_dist fvq f_id in
    let udbfs := 1 / b_face_surf fvq f_id in
    let unddij := 1 / b_dist fvq f_id in
    let dsij :=
      R3 (udbfs * cx (b_face_normal fvq f_id) + umcbdd * cx (diipb fvq f_id))
         (udbfs * cy (b_face_normal fvq f_id) + umcbdd * cy (diipb fvq f_id))
         (udbfs * cz (b_face_normal fvq f_id) + umcbdd * cz (diipb fvq f_id)) in
    (* cocg contribution *)
    let cocg := upd cocg ii (cocg_add_outer (cocg ii) dsij) in
    (* RHS contribution *)
    let pfac := (coefap f_id * inc + (coefbp f_id - 1) * rhs_p (rhsv ii))
                * unddij in
    let rhsv := upd rhsv ii (rhs_add (rhsv ii) (times3 dsij pfac)) in
    (cocg, rhsv).

(** [_lsq_scalar_gradient_ani]. *)

Definition _lsq_scalar_gradient_ani
           (m : cs_mesh_t) (fvq : cs_mesh_quantities_t)
           (cpl : option cs_internal_coupling_t) (inc : R)
           (coefap coefbp pvar : array R) (c_weight_t : array cs_cocg_6_t)
           (c_weight : array R)
           (grad : array cs_real_3_t) : array cs_real_3_t :=
  let cocg : array cs_cocg_6_t := fun _ => zero6 in
  let rhsv : array cs_real_4_t := fun c_id => R4 zero3 (pvar c_id) in
  (* Contribution from interior faces *)
  let '(cocg, rhsv) :=
    fold_left (ani_i_face m fvq c_weight_t) (i_face_order m) (cocg, rhsv) in
  (* Contribution from coupled faces *)
  let '(cocg, rhsv) :=
    match cpl with
    | Some c =>
        (cs_internal_coupling_lsq_cocg_weighted c c_weight_t cocg,
         cs_internal_coupling_lsq_scalar_gradient c (Some c_weight) 6 rhsv)
    | None => (cocg, rhsv)
    end in
  (* Contribution from boundary faces *)
  let '(cocg, rhsv) :=
    fold_left (ani_b_face m fvq cpl inc coefap coefbp) (b_face_order m)
              (cocg, rhsv) in
  (* Invert cocg for all cells. *)
  let cocg := invert_cells (n_cells m) (fun c => c) cocg in
  (* Compute gradient *)
  let grad := solve_cells m cocg rhsv grad in
  (* Synchronize halos *)
  _sync_scalar_gradient_halo m CS_HALO_STANDARD grad.

(** *** [_reconstruct_scalar_gradient] *)

(** Interior face, hydrostatic case. *)

Definition rec_i_face_hyd (g : cs_glob_t) (m : cs_mesh_t)
           (fvq : cs_mesh_quantities_t) (w : weighting)
           (f_ext : array cs_real_3_t) (c_var : array R)
           (r_grad : array cs_real_3_t)
           (grad : array cs_real_3_t) (f_id : nat) : array cs_real_3_t :=
  let c_id1 := fst (i_face_cells m f_id) in
  let c_id2 := snd (i_face_cells m f_id) in
  let ktpond := ktpond_of fvq w f_id c_id1 c_id2 in
  let poro0 := i_poro_duq_0 g f_id in
  let poro1 := i_poro_duq_1 g f_id in
  let fexd := face_mean3 (f_ext c_id1) (f_ext c_id2) in
  let pfaci :=
      ktpond
      * (dot3 (sub3 (i_face_cog fvq f_id) (cell_cen fvq c_id1)) (f_ext c_id1)
         + poro0)
    + (1 - ktpond)
      * (dot3 (sub3 (i_face_cog fvq f_id) (cell_cen fvq c_id2)) (f_ext c_id2)
         + poro1) in
  let pfacj := pfaci in
  let pfaci := pfaci + (1 - ktpond) * (c_var c_id2 - c_var c_id1) in
  let pfacj := pfacj - ktpond * (c_var c_id2 - c_var c_id1) in
  (* Reconstruction part *)
  let rfac :=
      weight fvq f_id
      * dot3 (sub3 (cell_cen fvq c_id1) (i_face_cog fvq f_id)) fexd
    + (1 - weight fvq f_id)
      * dot3 (sub3 (cell_cen fvq c_id2) (i_face_cog fvq f_id)) fexd
    + dot3 (dofij fvq f_id) (add3 (r_grad c_id1) (r_grad c_id2)) * 0.5 in
  scatter_face grad c_id1 c_id2 (pfaci + rfac) (pfacj + rfac)
               (i_f_face_normal fvq f_id).

(** Boundary face, hydrostatic case. *)

Definition rec_b_face_hyd (g : cs_glob_t) (m : cs_mesh_t)
           (fvq : cs_mesh_quantities_t) (inc : R)
           (f_ext : array cs_real_3_t) (coefap coefbp c_var : array R)
           (r_grad : array cs_real_3_t)
           (grad : array cs_real_3_t) (f_id : nat) : array cs_real_3_t :=
  let c_id := b_face_cells m f_id in
  let poro := b_poro_duq g f_id in
  let pfac :=
      coefap f_id * inc
    + coefbp f_id
      * (dot3 (sub3 (b_face_cog fvq f_id) (cell_cen fvq c_id)) (f_ext c_id)
         + poro) in
  let pfac := pfac + (coefbp f_id - 1) * c_var c_id in
  (* Reconstruction part *)
  let rfac :=
    coefbp f_id * dot3 (diipb fvq f_id) (sub3 (r_grad c_id) (f_ext c_id)) in
  upd grad c_id (axpy3 (grad c_id) (pfac + rfac) (b_f_face_normal fvq f_id)).

(** Interior face, standard case. *)

Definition rec_i_face (m : cs_mesh_t) (fvq : cs_mesh_quantities_t)
           (w : weighting) (c_var : array R) (r_grad : array cs_real_3_t)
           (grad : array cs_real_3_t) (f_id : nat) : array cs_real_3_t :=
  let c_id1 := fst (i_face_cells m f_id) in
  let c_id2 := snd (i_face_cells m f_id) in
  let ktpond := ktpond_of fvq w f_id c_id1 c_id2 in
  let pfaci := (1 - ktpond) * (c_var c_id2 - c_var c_id1) in
  let pfacj := - ktpond * (c_var c_id2 - c_var c_id1) in
  (* Reconstruction part *)
  let rfac := 0.5 * dot3 (dofij fvq f_id) (add3 (r_grad c_id1) (r_grad c_id2)) in
  scatter_face grad c_id1 c_id2 (pfaci + rfac) (pfacj + rfac)
               (i_f_face_normal fvq f_id).

(** Boundary face, standard case. *)

Definition rec_b_face (m : cs_mesh_t) (fvq : cs_mesh_quantities_t)
           (cpl : option cs_internal_coupling_t) (inc : R)
           (coefap coefbp c_var : array R) (r_grad : array cs_real_3_t)
           (grad : array cs_real_3_t) (f_id : nat) : array cs_real_3_t :=
  if is_coupled cpl f_id then grad
  else
    let c_id := b_face_cells m f_id in
    let pfac := inc * coefap f_id + (coefbp f_id - 1) * c_var c_id in
    (* Reconstruction part *)
    let rfac := coefbp f_id * dot3 (diipb fvq f_id) (r_grad c_id) in
    upd grad c_id (axpy3 (grad c_id) (pfac + rfac) (b_f_face_normal fvq f_id)).

(** [corr_grad_lin[c] . gradpa]. *)

Definition mat_33_3_product (c : cs_real_33_t) (v : cs_real_3_t) : cs_real_3_t :=
  R3 (0 + m00 c * cx v + m01 c * cy v + m02 c * cz v)
     (0 + m10 c * cx v + m11 c * cy v + m12 c * cz v)
     (0 + m20 c * cx v + m21 c * cy v + m22 c * cz v).

(** Final loop over the owned cells: scaling by [dvol], then the
    correction for warped faces when that option is set. *)

Definition rec_scale (g : cs_glob_t) (m : cs_mesh_t)
           (fvq : cs_mesh_quantities_t) (grad : array cs_real_3_t)
  : array cs_real_3_t :=
  for_loop 0 (n_cells m)
    (fun grad c_id =>
       let dvol := dvol_of fvq (cell_f_vol_used g fvq) c_id in
       let gradpa := scale3 dvol (grad c_id) in
       upd grad c_id
           (if CS_BAD_CELLS_WARPED_CORRECTION g
            then mat_33_3_product (corr_grad_lin fvq c_id) gradpa
            else gradpa))
    grad.

Definition _reconstruct_scalar_gradient
           (g : cs_glob_t) (m : cs_mesh_t) (fvq : cs_mesh_quantities_t)
           (cpl : option cs_internal_coupling_t) (w_stride : Z)
           (hyd_p_flag : Z) (inc : R) (f_ext : array cs_real_3_t)
           (coefap coefbp : array R) (c_weight : option (array R))
           (c_var : array R) (r_grad : array cs_real_3_t)
  : array cs_real_3_t :=
  let w := weighting_of w_stride c_weight in
  (* Initialize gradient *)
  let grad : array cs_real_3_t := fun _ => zero3 in
  let grad :=
    if (hyd_p_flag =? 1)%Z then
      let grad := fold_left (rec_i_face_hyd g m fvq w f_ext c_var r_grad)
                            (i_face_order m) grad in
      fold_left (rec_b_face_hyd g m fvq inc f_ext coefap coefbp c_var r_grad)
                (b_face_order m) grad
    else
      let grad := fold_left (rec_i_face m fvq w c_var r_grad)
                            (i_face_order m) grad in
      let grad :=
        match cpl with
        | Some c =>
            cs_internal_coupling_reconstruct_scalar_gradient c r_grad
              (cs_internal_coupling_initialize_scalar_gradient
                 c c_weight c_var grad)
        | None => grad
        end in
      fold_left (rec_b_face m fvq cpl inc coefap coefbp c_var r_grad)
                (b_face_order m) grad in
  let grad := rec_scale g m fvq grad in
  (* Synchronize halos *)
  _sync_scalar_gradient_halo m CS_HALO_EXTENDED grad.

(** ** Scheme dispatch and public entry points *)

(** *** C strings *)

(** A [string] stands for the characters of a NUL-terminated C string.
    [strcmp] and [strncmp] are modelled by the sign of their result; a
    character is compared by its code as an unsigned char. *)

Definition char_cmp (c1 c2 : ascii) : Z :=
  if (nat_of_ascii c1 <? nat_of_ascii c2)%nat then (-1)%Z
  else if (nat_of_ascii c2 <? nat_of_ascii c1)%nat then 1%Z
  else 0%Z.

Fixpoint strncmp (s1 s2 : string) (n : nat) {struct n} : Z :=
  match n with
  | O => 0%Z
  | S n' =>
      match s1, s2 with
      | EmptyString, EmptyString => 0%Z
      | EmptyString, String _ _ => (-1)%Z
      | String _ _, EmptyString => 1%Z
      | String c1 r1, String c2 r2 =>
          if (char_cmp c1 c2 =? 0)%Z then strncmp r1 r2 n'
          else char_cmp c1 c2
      end
  end.

Fixpoint strcmp (s1 s2 : string) : Z :=
  match s1, s2 with
  | EmptyString, EmptyString => 0%Z
  | EmptyString, String _ _ => (-1)%Z
  | String _ _, EmptyString => 1%Z
  | String c1 r1, String c2 r2 =>
      if (char_cmp c1 c2 =? 0)%Z then strcmp r1 r2 else char_cmp c1 c2
  end.

(** [strncpy(dest, src, n)] into a buffer of [n + 1] bytes whose last byte
    is NUL: the string then held by [dest]. *)

Fixpoint strncpy (src : string) (n : nat) {struct n} : string :=
  match n with
  | O => EmptyString
  | S n' =>
      match src with
      | EmptyString => EmptyString
      | String c r => String c (strncpy r n')
      end
  end.

(** *** Drivers that are not embedded *)

(** Six-component and six-by-six boundary coefficients, and the gradient
    of a symmetric tensor (six components, three directions). *)

Definition cs_real_6_t : Type := cs_cocg_6_t.
Definition cs_real_66_t : Type := nat -> nat -> R.
Definition cs_real_63_t : Type := nat -> nat -> R.

Definition identity_66 : cs_real_66_t :=
  fun j k => if (j =? k)%nat then 1 else 0.

(** What a driver may touch besides its output array: the COCG cache, the
    diagnostics entry it was handed, and the log. *)

Record cs_gradient_env_t : Type := Env {
  env_store : gq_store;
  env_info : option cs_gradient_info_t;
  env_log : list log_event
}.

(** The hydrostatic least-squares driver and the drivers of the vector and
    tensor gradients are taken as they come: the dispatch below is
    described for any behaviour of theirs.  Each maps the environment and
    the array it writes to their new values. *)

Record cs_gradient_drivers_t : Type := {
  _lsq_scalar_gradient_hyd_p :
    cs_e2n_sum_t -> cs_mesh_t -> cs_mesh_quantities_t -> cs_halo_type_t ->
    bool -> R -> array cs_real_3_t -> array R -> array R -> array R ->
    option (array R) -> gq_store -> array cs_real_3_t ->
    array cs_real_3_t * gq_store;
  _initialize_vector_gradient :
    cs_mesh_t -> cs_mesh_quantities_t -> option cs_internal_coupling_t ->
    cs_halo_type_t -> Z -> array cs_real_3_t -> array cs_real_33_t ->
    array cs_real_3_t -> option (array R) ->
    cs_gradient_env_t * array cs_real_33_t ->
    cs_gradient_env_t * array cs_real_33_t;
  _iterative_vector_gradient :
    cs_mesh_t -> cs_mesh_quantities_t -> option cs_internal_coupling_t ->
    string -> cs_halo_type_t -> Z -> Z -> Z -> R ->
    array cs_real_3_t -> array cs_real_33_t ->
    array cs_real_3_t -> option (array R) ->
    cs_gradient_env_t * array cs_real_33_t ->
    cs_gradient_env_t * array cs_real_33_t;
  _lsq_vector_gradient :
    cs_mesh_t -> cs_mesh_quantities_t -> option cs_internal_coupling_t ->
    cs_halo_type_t -> Z -> array cs_real_3_t -> array cs_real_33_t ->
    array cs_real_3_t -> option (array R) ->
    cs_gradient_env_t * array cs_real_33_t ->
    cs_gradient_env_t * array cs_real_33_t;
  _vector_gradient_clipping :
    cs_mesh_t -> cs_mesh_quantities_t -> cs_halo_type_t -> Z -> Z -> R ->
    string -> array cs_real_3_t ->
    cs_gradient_env_t * array cs_real_33_t ->
    cs_gradient_env_t * array cs_real_33_t;
  _reconstruct_vector_gradient :
    cs_mesh_t -> cs_mesh_quantities_t -> option cs_internal_coupling_t ->
    cs_halo_type_t -> Z -> array cs_real_3_t -> array cs_real_33_t ->
    array cs_real_3_t -> option (array R) -> array cs_real_33_t ->
    cs_gradient_env_t * array cs_real_33_t ->
    cs_gradient_env_t * array cs_real_33_t;
  cs_bad_cells_regularisation_tensor :
    array cs_real_33_t -> array cs_real_33_t;
  _initialize_tensor_gradient :
    cs_mesh_t -> cs_mesh_quantities_t -> cs_halo_type_t -> Z ->
    array cs_real_6_t -> array cs_real_66_t -> array cs_real_6_t ->
    cs_gradient_env_t * array cs_real_63_t ->
    cs_gradient_env_t * array cs_real_63_t;
  _iterative_tensor_gradient :
    cs_mesh_t -> cs_mesh_quantities_t -> string -> cs_halo_type_t ->
    Z -> Z -> Z -> R ->
    array cs_real_6_t -> array cs_real_66_t -> array cs_real_6_t ->
    cs_gradient_env_t * array cs_real_63_t ->
    cs_gradient_env_t * array cs_real_63_t;
  _lsq_tensor_gradient :
    cs_mesh_t -> cs_mesh_quantities_t -> cs_halo_type_t -> Z ->
    array cs_real_6_t -> array cs_real_66_t -> array cs_real_6_t ->
    option (array R) ->
    cs_gradient_env_t * array cs_real_63_t ->
    cs_gradient_env_t * array cs_real_63_t;
  _tensor_gradient_clipping :
    cs_mesh_t -> cs_mesh_quantities_t -> cs_halo_type_t -> Z -> Z -> R ->
    string -> array cs_real_6_t ->
    cs_gradient_env_t * array cs_real_63_t ->
    cs_gradient_env_t * array cs_real_63_t
}.

(** *** [_gradient_scalar] *)

(** The two function-scope statics of [_gradient_scalar]. *)

Record gradient_scalar_static : Type := {
  last_fvm_count : Z;
  var_name_prev : string
}.

Definition static_initial : gradient_scalar_static :=
  {| last_fvm_count := 0%Z; var_name_prev := EmptyString |}.

(** The flag [recompute_cocg] as set at the head of [_gradient_scalar];
    [compute_count] is the value that [cs_mesh_quantities_compute_count()]
    (external) returns during the call. *)

Definition recompute_cocg_flag (st : gradient_scalar_static)
           (check_recompute_cocg : bool) (var_name : string) (inc : Z)
           (compute_count : Z) : bool :=
  let recompute_cocg := true in
  if check_recompute_cocg then
    (* We may reuse the boundary COCG values
       if we last computed a gradient for this same field or array,
       and if we are solving in increment. *)
    let recompute_cocg :=
      if ((strncmp (var_name_prev st) var_name 95 =? 0)%Z && (inc =? 0)%Z)%bool
      then false else recompute_cocg in
    let prev_fvq_count := last_fvm_count st in
    let last_fvm_count := compute_count in
    if negb (last_fvm_count =? prev_fvq_count)%Z then true else recompute_cocg
  else recompute_cocg.

(** The statics when the call returns. *)

Definition static_after (st : gradient_scalar_static)
           (check_recompute_cocg : bool) (var_name : string)
           (compute_count : Z) : gradient_scalar_static :=
  {| last_fvm_count :=
       if check_recompute_cocg then compute_count else last_fvm_count st;
     var_name_prev := strncpy var_name 95 |}.

Record gradient_result : Type := Gradient_result {
  res_grad : array cs_real_3_t;
  res_static : gradient_scalar_static;
  res_env : cs_gradient_env_t
}.

(** The template instance selected by [cs_glob_e2n_sum_type]. *)

Definition hyd_p_instance (g : cs_glob_t) : cs_e2n_sum_t :=
  match cs_glob_e2n_sum_type g with
  | CS_E2N_SUM_SCATTER => CS_E2N_SUM_SCATTER
  | CS_E2N_SUM_SCATTER_ATOMIC => CS_E2N_SUM_SCATTER_ATOMIC
  | CS_E2N_SUM_GATHER => CS_E2N_SUM_GATHER
  | _ => _e2n_sum_type
  end.

(** The least-squares stage shared by [CS_GRADIENT_LSQ] and
    [CS_GRADIENT_GREEN_LSQ]: the driver chosen by the weighting and the
    hydrostatic flag, then the clipping. *)

Definition lsq_stage (g : cs_glob_t) (m : cs_mesh_t)
           (fvq : cs_mesh_quantities_t) (drv : cs_gradient_drivers_t)
           (var_name : string) (halo_type : cs_halo_type_t) (inc : Z)
           (recompute_cocg : bool) (hyd_p_flag w_stride verbosity clip_mode : Z)
           (clip_coeff : R) (f_ext : array cs_real_3_t)
           (bc_coeff_a bc_coeff_b var : array R) (c_weight : option (array R))
           (cpl : option cs_internal_coupling_t)
           (env : cs_gradient_env_t) (r_grad : array cs_real_3_t)
  : array cs_real_3_t * cs_gradient_env_t :=
  let '(r_grad, store) :=
    match (w_stride =? 6)%Z, c_weight with
    | true, Some cw =>
        (_lsq_scalar_gradient_ani m fvq cpl (IZR inc) bc_coeff_a bc_coeff_b
                                  var (as_tensor_weight cw) cw r_grad,
         env_store env)
    | _, _ =>
        if negb (hyd_p_flag =? 0)%Z then
          _lsq_scalar_gradient_hyd_p drv (hyd_p_instance g) m fvq halo_type
            recompute_cocg (IZR inc) f_ext bc_coeff_a bc_coeff_b var c_weight
            (env_store env) r_grad
        else
          _lsq_scalar_gradient g m fvq cpl halo_type recompute_cocg (IZR inc)
            bc_coeff_a bc_coeff_b var c_weight (env_store env) r_grad
    end in
  let '(r_grad, log) :=
    _scalar_gradient_clipping g m fvq halo_type clip_mode verbosity clip_coeff
                              var_name var r_grad (env_log env) in
  (r_grad, Env store (env_info env) log).

(** [_gradient_scalar].  [r_grad_alloc] is the content of the work array
    [r_grad] as [BFT_MALLOC] hands it over; the [switch] has no case for
    [CS_GRADIENT_GREEN_VTX] and no default. *)

Definition _gradient_scalar
           (g : cs_glob_t) (m : cs_mesh_t) (fvq : cs_mesh_quantities_t)
           (drv : cs_gradient_drivers_t) (compute_count : Z)
           (r_grad_alloc : array cs_real_3_t)
           (var_name : string) (gradient_type : cs_gradient_type_t)
           (halo_type : cs_halo_type_t) (inc : Z)
           (check_recompute_cocg : bool)
           (n_r_sweeps hyd_p_flag w_stride verbosity clip_mode : Z)
           (epsilon clip_coeff : R) (f_ext : array cs_real_3_t)
           (bc_coeff_a bc_coeff_b : option (array R)) (var : array R)
           (c_weight : option (array R))
           (cpl : option cs_internal_coupling_t)
           (st : gradient_scalar_static) (env : cs_gradient_env_t)
           (grad : array cs_real_3_t) : gradient_result :=
  let recompute_cocg :=
    recompute_cocg_flag st check_recompute_cocg var_name inc compute_count in
  let st := static_after st check_recompute_cocg var_name compute_count in
  (* Use Neumann BC's as default if not provided *)
  let bc_coeff_a :=
    match bc_coeff_a with Some a => a | None => fun _ => 0 end in
  let bc_coeff_b :=
    match bc_coeff_b with Some b => b | None => fun _ => 1 end in
  (* Compute gradient *)
  let '(grad, env) :=
    match gradient_type with
    | CS_GRADIENT_GREEN_ITER =>
        let grad :=
          _initialize_scalar_gradient g m fvq cpl w_stride hyd_p_flag
            (IZR inc) f_ext bc_coeff_a bc_coeff_b var c_weight in
        let r :=
          _iterative_scalar_gradient g m fvq cpl w_stride var_name
            (env_info env) n_r_sweeps hyd_p_flag verbosity (IZR inc) epsilon
            f_ext bc_coeff_a bc_coeff_b var c_weight (env_store env)
            (env_log env) grad in
        (it_grad r, Env (it_store r) (it_info r) (it_log r))
    | CS_GRADIENT_LSQ =>
        lsq_stage g m fvq drv var_name halo_type inc recompute_cocg
                  hyd_p_flag w_stride verbosity clip_mode clip_coeff f_ext
                  bc_coeff_a bc_coeff_b var c_weight cpl env grad
    | CS_GRADIENT_GREEN_LSQ =>
        let '(r_grad, env) :=
          lsq_stage g m fvq drv var_name halo_type inc recompute_cocg
                    hyd_p_flag w_stride verbosity clip_mode clip_coeff f_ext
                    bc_coeff_a bc_coeff_b var c_weight cpl env r_grad_alloc in
        (_reconstruct_scalar_gradient g m fvq cpl w_stride hyd_p_flag
           (IZR inc) f_ext bc_coeff_a bc_coeff_b c_weight var r_grad,
         env)
    | CS_GRADIENT_GREEN_VTX => (grad, env)
    end in
  let grad :=
    if CS_BAD_CELLS_REGULARISATION g
    then cs_bad_cells_regularisation_vector g grad
    else grad in
  Gradient_result grad st env.

(** *** [_gradient_vector] and [_gradient_tensor] *)

(** A call either returns or stops the process on a failed [assert]. *)

Inductive outcome (A : Type) : Type :=
| Returned (a : A)
| Aborted.

Arguments Returned {A} a.
Arguments Aborted {A}.

(** [_gradient_vector]: as for the scalar, a [switch] over three schemes
    and no default. *)

Definition _gradient_vector
           (g : cs_glob_t) (m : cs_mesh_t) (fvq : cs_mesh_quantities_t)
           (drv : cs_gradient_drivers_t)
           (r_gradv_alloc : array cs_real_33_t)
           (var_name : string) (gradient_type : cs_gradient_type_t)
           (halo_type : cs_halo_type_t) (inc n_r_sweeps verbosity clip_mode : Z)
           (epsilon clip_coeff : R)
           (bc_coeff_a : option (array cs_real_3_t))
           (bc_coeff_b : option (array cs_real_33_t))
           (var : array cs_real_3_t) (c_weight : option (array R))
           (cpl : option cs_internal_coupling_t)
           (env : cs_gradient_env_t) (grad : array cs_real_33_t)
  : cs_gradient_env_t * array cs_real_33_t :=
  (* Use Neumann BC's as default if not provided *)
  let bc_coeff_a :=
    match bc_coeff_a with Some a => a | None => fun _ => R3 0 0 0 end in
  let bc_coeff_b :=
    match bc_coeff_b with
    | Some b => b
    | None => fun _ => M33 1 0 0 0 1 0 0 0 1
    end in
  (* Compute gradient *)
  let '(env, grad) :=
    match gradient_type with
    | CS_GRADIENT_GREEN_ITER =>
        let s := _initialize_vector_gradient drv m fvq cpl halo_type inc
                   bc_coeff_a bc_coeff_b var c_weight (env, grad) in
        (* If reconstructions are required *)
        if (1 <? n_r_sweeps)%Z then
          _iterative_vector_gradient drv m fvq cpl var_name halo_type inc
            n_r_sweeps verbosity epsilon bc_coeff_a bc_coeff_b var c_weight s
        else s
    | CS_GRADIENT_LSQ =>
        let s := _lsq_vector_gradient drv m fvq cpl halo_type inc
                   bc_coeff_a bc_coeff_b var c_weight (env, grad) in
        _vector_gradient_clipping drv m fvq halo_type clip_mode verbosity
          clip_coeff var_name var s
    | CS_GRADIENT_GREEN_LSQ =>
        let s := _lsq_vector_gradient drv m fvq cpl halo_type inc
                   bc_coeff_a bc_coeff_b var c_weight (env, r_gradv_alloc) in
        let '(env, r_gradv) :=
          _vector_gradient_clipping drv m fvq halo_type clip_mode verbosity
            clip_coeff var_name var s in
        _reconstruct_vector_gradient drv m fvq cpl halo_type inc
          bc_coeff_a bc_coeff_b var c_weight r_gradv (env, grad)
    | CS_GRADIENT_GREEN_VTX => (env, grad)
    end in
  let grad :=
    if CS_BAD_CELLS_REGULARISATION g
    then cs_bad_cells_regularisation_tensor drv grad
    else grad in
  (env, grad).

(** [_gradient_tensor]: two schemes, and [assert(0)] in the default case,
    which stops the process unless assertions are compiled out. *)

Definition _gradient_tensor
           (g : cs_glob_t) (m : cs_mesh_t) (fvq : cs_mesh_quantities_t)
           (drv : cs_gradient_drivers_t)
           (var_name : string) (gradient_type : cs_gradient_type_t)
           (halo_type : cs_halo_type_t) (inc n_r_sweeps verbosity clip_mode : Z)
           (epsilon clip_coeff : R)
           (bc_coeff_a : option (array cs_real_6_t))
           (bc_coeff_b : option (array cs_real_66_t))
           (var : array cs_real_6_t)
           (env : cs_gradient_env_t) (grad : array cs_real_63_t)
  : outcome (cs_gradient_env_t * array cs_real_63_t) :=
  (* Use Neumann BC's as default if not provided *)
  let bc_coeff_a :=
    match bc_coeff_a with Some a => a | None => fun _ => zero6 end in
  let bc_coeff_b :=
    match bc_coeff_b with Some b => b | None => fun _ => identity_66 end in
  (* Compute gradient *)
  match gradient_type with
  | CS_GRADIENT_GREEN_ITER =>
      let s := _initialize_tensor_gradient drv m fvq halo_type inc
                 bc_coeff_a bc_coeff_b var (env, grad) in
      (* If reconstructions are required *)
      Returned
        (if (1 <? n_r_sweeps)%Z then
           _iterative_tensor_gradient drv m fvq var_name halo_type inc
             n_r_sweeps verbosity epsilon bc_coeff_a bc_coeff_b var s
         else s)
  | CS_GRADIENT_LSQ =>
      let s := _lsq_tensor_gradient drv m fvq halo_type inc
                 bc_coeff_a bc_coeff_b var None (env, grad) in
      Returned
        (_tensor_gradient_clipping drv m fvq halo_type clip_mode verbosity
           clip_coeff var_name var s)
  | _ =>
      (* Should be set to available options by caller *)
      if NDEBUG g then Returned (env, grad) else Aborted
  end.

(** *** The table of diagnostics entries *)

(** Rank of a scheme in the enumeration. *)

Definition gradient_type_code (t : cs_gradient_type_t) : Z :=
  match t with
  | CS_GRADIENT_GREEN_ITER => 0
  | CS_GRADIENT_LSQ => 1
  | CS_GRADIENT_GREEN_LSQ => 2
  | CS_GRADIENT_GREEN_VTX => 3
  end%Z.

Definition _gradient_info_create (name : string) (type : cs_gradient_type_t)
  : cs_gradient_info_t :=
  {| info_name := name;
     info_type := type;
     n_calls := 0%Z;
     n_iter_min := 0;
     n_iter_max := 0;
     n_iter_tot := 0 |}.

(** The binary search of [_find_or_add_system]: [(mid_id, cmp_ret)] when
    the [while] loop is left.  The interval shrinks at every turn, so that
    one turn more than the table has entries is enough. *)

Fixpoint find_system_loop (turns : nat) (systems : list cs_gradient_info_t)
         (name : string) (type : cs_gradient_type_t)
         (start_id end_id mid_id cmp_ret : Z) : Z * Z :=
  match turns with
  | O => (mid_id, cmp_ret)
  | S turns' =>
      if (start_id <=? end_id)%Z then
        let e := nth (Z.to_nat mid_id) systems (_gradient_info_create name type) in
        let cmp_ret := strcmp (info_name e) name in
        let cmp_ret :=
          if (cmp_ret =? 0)%Z
          then (gradient_type_code (info_type e) - gradient_type_code type)%Z
          else cmp_ret in
        if (cmp_ret <? 0)%Z then
          let start_id := (mid_id + 1)%Z in
          find_system_loop turns' systems name type start_id end_id
            (start_id + Z.quot (end_id - start_id) 2)%Z cmp_ret
        else if (0 <? cmp_ret)%Z then
          let end_id := (mid_id - 1)%Z in
          find_system_loop turns' systems name type start_id end_id
            (start_id + Z.quot (end_id - start_id) 2)%Z cmp_ret
        else (mid_id, cmp_ret)
      else (mid_id, cmp_ret)
  end.

(** [_find_or_add_system]: the position of the entry and the table, which
    gains a fresh entry at that position when none was found.  (The
    capacity of the table, doubled when it is full, is left out.) *)

Definition _find_or_add_system (name : string) (type : cs_gradient_type_t)
           (systems : list cs_gradient_info_t)
  : nat * list cs_gradient_info_t :=
  let start_id := 0%Z in
  let end_id := (Z.of_nat (List.length systems) - 1)%Z in
  let mid_id := (start_id + Z.quot (end_id - start_id) 2)%Z in
  let '(mid_id, cmp_ret) :=
    find_system_loop (S (List.length systems)) systems name type
                     start_id end_id mid_id 1%Z in
  (* If found, return *)
  if (cmp_ret =? 0)%Z then (Z.to_nat mid_id, systems)
  else
    (* Insert in sorted list *)
    (Z.to_nat mid_id,
     firstn (Z.to_nat mid_id) systems
     ++ _gradient_info_create name type :: skipn (Z.to_nat mid_id) systems).

Fixpoint systems_set (systems : list cs_gradient_info_t) (id : nat)
         (i : cs_gradient_info_t) : list cs_gradient_info_t :=
  match systems, id with
  | [], _ => []
  | _ :: rest, O => i :: rest
  | e :: rest, S id' => e :: systems_set rest id' i
  end.

(** [gradient_info->n_calls += 1], on an [unsigned]. *)

Definition info_called (i : cs_gradient_info_t) : cs_gradient_info_t :=
  {| info_name := info_name i;
     info_type := info_type i;
     n_calls := ((n_calls i + 1) mod UINT_MODULUS)%Z;
     n_iter_min := n_iter_min i;
     n_iter_max := n_iter_max i;
     n_iter_tot := n_iter_tot i |}.

(** *** Public entry points *)

(** File-scope and function-scope state that outlives a call: the statics
    of [_gradient_scalar], the COCG cache, the table of diagnostics
    entries, and what was printed.  Timers are left out. *)

Record cs_gradient_globals_t : Type := Globals {
  gl_static : gradient_scalar_static;
  gl_store : gq_store;
  cs_glob_gradient_systems : list cs_gradient_info_t;
  gl_log : list log_event
}.

Definition globals_initial : cs_gradient_globals_t :=
  Globals static_initial [] [] [].

(** Entry [k] of a six-component value, and the flat view of an array of
    them (the inverse of the cast [as_tensor_weight]). *)

Definition cocg_nth (c : cs_cocg_6_t) (k : nat) : R :=
  match k with
  | 0 => a0 c | 1 => a1 c | 2 => a2 c | 3 => a3 c | 4 => a4 c | _ => a5 c
  end%nat.

Definition of_tensor_weight (t : array cs_cocg_6_t) : array R :=
  fun i => cocg_nth (t (i / 6)%nat) (i mod 6)%nat.

(** Writes the diagnostics entry back and counts the call. *)

Definition systems_after (systems : list cs_gradient_info_t) (id : nat)
           (info : option cs_gradient_info_t) : list cs_gradient_info_t :=
  match info with
  | Some i => systems_set systems id (info_called i)
  | None => systems
  end.

(** [cs_gradient_scalar]: the input arrays are synchronized first, and the
    boundary COCG is always recomputed. *)

Definition cs_gradient_scalar
           (g : cs_glob_t) (m : cs_mesh_t) (fvq : cs_mesh_quantities_t)
           (drv : cs_gradient_drivers_t) (compute_count : Z)
           (r_grad_alloc : array cs_real_3_t)
           (var_name : string) (gradient_type : cs_gradient_type_t)
           (halo_type : cs_halo_type_t)
           (inc n_r_sweeps hyd_p_flag w_stride verbosity clip_mode : Z)
           (epsilon clip_coeff : R) (f_ext : array cs_real_3_t)
           (bc_coeff_a bc_coeff_b : option (array R)) (var : array R)
           (c_weight : option (array R))
           (cpl : option cs_internal_coupling_t)
           (gl : cs_gradient_globals_t) (grad : array cs_real_3_t)
  : array cs_real_3_t * cs_gradient_globals_t :=
  let '(id, systems) :=
    _find_or_add_system var_name gradient_type (cs_glob_gradient_systems gl) in
  let gradient_info :=
    nth id systems (_gradient_info_create var_name gradient_type) in
  (* Synchronize variable *)
  let '(var, c_weight, f_ext) :=
    match halo m with
    | Some h =>
        let var := cs_halo_sync_var h halo_type var in
        let c_weight :=
          match c_weight with
          | Some cw =>
              if (w_stride =? 6)%Z then
                Some (of_tensor_weight
                        (cs_halo_perio_sync_var_sym_tens h halo_type
                           (cs_halo_sync_var_strided_6 h halo_type
                              (as_tensor_weight cw))))
              else Some (cs_halo_sync_var h halo_type cw)
          | None => None
          end in
        let f_ext :=
          if (hyd_p_flag =? 1)%Z then
            cs_halo_perio_sync_var_vect h halo_type
              (cs_halo_sync_var_strided h halo_type f_ext)
          else f_ext in
        (var, c_weight, f_ext)
    | None => (var, c_weight, f_ext)
    end in
  let r :=
    _gradient_scalar g m fvq drv compute_count r_grad_alloc var_name
      gradient_type halo_type inc
      false (* Do not use previous cocg at boundary, recompute *)
      n_r_sweeps hyd_p_flag w_stride verbosity clip_mode epsilon clip_coeff
      f_ext bc_coeff_a bc_coeff_b var c_weight cpl (gl_static gl)
      (Env (gl_store gl) (Some gradient_info) (gl_log gl)) grad in
  (res_grad r,
   Globals (res_static r) (env_store (res_env r))
           (systems_after systems id (env_info (res_env r)))
           (env_log (res_env r))).

(** [cs_gradient_scalar_synced_input]: the variable and the weighting are
    taken as already synchronized, and the recomputation of the boundary
    COCG is subject to the check. *)

Definition cs_gradient_scalar_synced_input
           (g : cs_glob_t) (m : cs_mesh_t) (fvq : cs_mesh_quantities_t)
           (drv : cs_gradient_drivers_t) (compute_count : Z)
           (r_grad_alloc : array cs_real_3_t)
           (var_name : string) (gradient_type : cs_gradient_type_t)
           (halo_type : cs_halo_type_t)
           (inc n_r_sweeps hyd_p_flag w_stride verbosity clip_mode : Z)
           (epsilon clip_coeff : R) (f_ext : array cs_real_3_t)
           (bc_coeff_a bc_coeff_b : option (array R)) (var : array R)
           (c_weight : option (array R))
           (cpl : option cs_internal_coupling_t)
           (gl : cs_gradient_globals_t) (grad : array cs_real_3_t)
  : array cs_real_3_t * cs_gradient_globals_t :=
  let f_ext :=
    if (hyd_p_flag =? 1)%Z then
      match halo m with
      | Some h =>
          let f_ext := cs_halo_sync_var_strided h halo_type f_ext in
          if have_rotation_perio m
          then cs_halo_perio_sync_var_vect h halo_type f_ext
          else f_ext
      | None => f_ext
      end
    else f_ext in
  let '(id, systems) :=
    _find_or_add_system var_name gradient_type (cs_glob_gradient_systems gl) in
  let gradient_info :=
    nth id systems (_gradient_info_create var_name gradient_type) in
  let r :=
    _gradient_scalar g m fvq drv compute_count r_grad_alloc var_name
      gradient_type halo_type inc
      true (* Check recompute of cocg *)
      n_r_sweeps hyd_p_flag w_stride verbosity clip_mode epsilon clip_coeff
      f_ext bc_coeff_a bc_coeff_b var c_weight cpl (gl_static gl)
      (Env (gl_store gl) (Some gradient_info) (gl_log gl)) grad in
  (res_grad r,
   Globals (res_static r) (env_store (res_env r))
           (systems_after systems id (env_info (res_env r)))
           (env_log (res_env r))).

(** [cs_gradient_vector]. *)

Definition cs_gradient_vector
           (g : cs_glob_t) (m : cs_mesh_t) (fvq : cs_mesh_quantities_t)
           (drv : cs_gradient_drivers_t)
           (r_gradv_alloc : array cs_real_33_t)
           (var_name : string) (gradient_type : cs_gradient_type_t)
           (halo_type : cs_halo_type_t) (inc n_r_sweeps verbosity clip_mode : Z)
           (epsilon clip_coeff : R)
           (bc_coeff_a : option (array cs_real_3_t))
           (bc_coeff_b : option (array cs_real_33_t))
           (var : array cs_real_3_t) (c_weight : option (array R))
           (cpl : option cs_internal_coupling_t)
           (gl : cs_gradient_globals_t) (gradv : array cs_real_33_t)
  : array cs_real_33_t * cs_gradient_globals_t :=
  let '(id, systems) :=
    _find_or_add_system var_name gradient_type (cs_glob_gradient_systems gl) in
  let gradient_info :=
    nth id systems (_gradient_info_create var_name gradient_type) in
  let '(var, c_weight) :=
    match halo m with
    | Some h =>
        let var := cs_halo_sync_var_strided h halo_type var in
        let var :=
          if have_rotation_perio m
          then cs_halo_perio_sync_var_vect h halo_type var
          else var in
        (var, option_map (cs_halo_sync_var h halo_type) c_weight)
    | None => (var, c_weight)
    end in
  (* Compute gradient *)
  let '(env, gradv) :=
    _gradient_vector g m fvq drv r_gradv_alloc var_name gradient_type
      halo_type inc n_r_sweeps verbosity clip_mode epsilon clip_coeff
      bc_coeff_a bc_coeff_b var c_weight cpl
      (Env (gl_store gl) (Some gradient_info) (gl_log gl)) gradv in
  (gradv,
   Globals (gl_static gl) (env_store env)
           (systems_after systems id (env_info env)) (env_log env)).

(** [cs_gradient_tensor]: [CS_GRADIENT_GREEN_LSQ] is replaced by
    [CS_GRADIENT_GREEN_ITER] before anything else. *)

Definition cs_gradient_tensor
           (g : cs_glob_t) (m : cs_mesh_t) (fvq : cs_mesh_quantities_t)
           (drv : cs_gradient_drivers_t)
           (var_name : string) (gradient_type : cs_gradient_type_t)
           (halo_type : cs_halo_type_t) (inc n_r_sweeps verbosity clip_mode : Z)
           (epsilon clip_coeff : R)
           (bc_coeff_a : option (array cs_real_6_t))
           (bc_coeff_b : option (array cs_real_66_t))
           (var : array cs_real_6_t)
           (gl : cs_gradient_globals_t) (grad : array cs_real_63_t)
  : outcome (array cs_real_63_t * cs_gradient_globals_t) :=
  let gradient_type :=
    match gradient_type with
    | CS_GRADIENT_GREEN_LSQ => CS_GRADIENT_GREEN_ITER
    | t => t
    end in
  let '(id, systems) :=
    _find_or_add_system var_name gradient_type (cs_glob_gradient_systems gl) in
  let gradient_info :=
    nth id systems (_gradient_info_create var_name gradient_type) in
  let var :=
    match halo m with
    | Some h =>
        let var := cs_halo_sync_var_strided_6 h halo_type var in
        if have_rotation_perio m
        then cs_halo_perio_sync_var_sym_tens h halo_type var
        else var
    | None => var
    end in
  (* Compute gradient *)
  match _gradient_tensor g m fvq drv var_name gradient_type halo_type inc
          n_r_sweeps verbosity clip_mode epsilon clip_coeff
          bc_coeff_a bc_coeff_b var
          (Env (gl_store gl) (Some gradient_info) (gl_log gl)) grad with
  | Returned (env, grad) =>
      Returned
        (grad,
         Globals (gl_static gl) (env_store env)
                 (systems_after systems id (env_info env)) (env_log env))
  | Aborted => Aborted
  end.

(** *** Sequences of scalar gradient calls *)

(** What the statics of [_gradient_scalar] see of a call: the entry point
    ([cs_gradient_scalar_synced_input] passes [true] for
    [check_recompute_cocg], [cs_gradient_scalar] passes [false]), the
    variable name, [inc], and the mesh-quantities compute count at the time
    of the call. *)

Record scalar_call : Type := Scalar_call {
  call_synced : bool;
  call_name : string;
  call_inc : Z;
  call_count : Z
}.

Definition static_step (st : gradient_scalar_static) (c : scalar_call)
  : gradient_scalar_static :=
  static_after st (call_synced c) (call_name c) (call_count c).

(** The statics after a sequence of calls made from program start. *)

Definition statics_after_calls (h : list scalar_call) : gradient_scalar_static :=
  fold_left static_step h static_initial.

(** The flag [recompute_cocg] of a call made after the calls of [h]. *)

Definition recompute_cocg_at (h : list scalar_call) (c : scalar_call) : bool :=
  recompute_cocg_flag (statics_after_calls h) (call_synced c) (call_name c)
                      (call_inc c) (call_count c).

(** The name remembered after the calls of [h] (its first 95 characters),
    empty before any call; and the compute count seen by the last call of
    [h] that went through the check, 0 when there is none. *)

Definition remembered_name (h : list scalar_call) : string :=
  last (map (fun p => strncpy (call_name p) 95) h) EmptyString.

Definition remembered_count (h : list scalar_call) : Z :=
  last (map call_count (filter call_synced h)) 0%Z.

(** ** Least-squares gradient at a single cell *)

Module CellGradient.

(** Cell adjacencies ([cs_mesh_adjacencies_t], read through
    [cs_glob_mesh_adjacencies]): for each cell the range of its face
    neighbours in [cell_cells], of its extended neighbours in
    [cell_cells_e] (the index is NULL without extended neighbourhood) and
    of its boundary faces in [cell_b_faces]. *)

Record cs_mesh_adjacencies_t : Type := {
  cell_cells_idx : array nat;
  cell_cells : array nat;
  cell_cells_e_idx : option (array nat);
  cell_cells_e : array nat;
  cell_b_faces_idx : array nat;
  cell_b_faces : array nat
}.

(** The accumulators [cocg[6]] and [rhsv[3]]. *)

Definition lsq_system : Type := (cs_cocg_6_t * cs_real_3_t)%type.

(** One neighbour [c_id1 = cell_cells_p[i]], without and with weighting. *)

Definition adj_cell (fvq : cs_mesh_quantities_t) (c_id : nat) (var : array R)
           (cell_cells_p : array nat) (st : lsq_system) (i : nat)
  : lsq_system :=
  let '(cocg, rhsv) := st in
  let c_id1 := cell_cells_p i in
  let dc := sub3 (cell_cen fvq c_id1) (cell_cen fvq c_id) in
  let ddc := 1 / (cx dc * cx dc + cy dc * cy dc + cz dc * cz dc) in
  let pfac := (var c_id1 - var c_id) * ddc in
  (cocg_add_scaled cocg dc ddc, add3 rhsv (scale3 pfac dc)).

Definition adj_cell_weighted (fvq : cs_mesh_quantities_t) (c_id : nat)
           (var c_weight : array R) (cell_cells_p : array nat)
           (st : lsq_system) (i : nat) : lsq_system :=
  let '(cocg, rhsv) := st in
  let c_id1 := cell_cells_p i in
  let dc := sub3 (cell_cen fvq c_id1) (cell_cen fvq c_id) in
  let ddc := 1 / (cx dc * cx dc + cy dc * cy dc + cz dc * cz dc) in
  let pfac := (var c_id1 - var c_id) * ddc in
  let _weight := 2 * c_weight c_id1 / (c_weight c_id + c_weight c_id1) in
  (cocg_add_scaled cocg dc ddc,
   R3 (cx rhsv + cx dc * pfac * _weight)
      (cy rhsv + cy dc * pfac * _weight)
      (cz rhsv + cz dc * pfac * _weight)).

(** The neighbours [cell_cells_p[s_id .. e_id-1]]. *)

Definition adj_cells (fvq : cs_mesh_quantities_t) (c_id : nat) (var : array R)
           (c_weight : option (array R)) (cell_cells_p : array nat)
           (s_id e_id : nat) (st : lsq_system) : lsq_system :=
  match c_weight with
  | None => for_loop s_id e_id (adj_cell fvq c_id var cell_cells_p) st
  | Some w =>
      for_loop s_id e_id (adj_cell_weighted fvq c_id var w cell_cells_p) st
  end.

(** One turn of [for (adj_id = 0; adj_id < n_adj; adj_id++)]: the face
    neighbours, then the extended ones.  Without extended adjacency the
    loop is left by [break], at what is its last turn. *)

Definition adjacency (ma : cs_mesh_adjacencies_t) (fvq : cs_mesh_quantities_t)
           (c_id : nat) (var : array R) (c_weight : option (array R))
           (st : lsq_system) (adj_id : nat) : lsq_system :=
  if (adj_id =? 0)%nat then
    adj_cells fvq c_id var c_weight (cell_cells ma)
              (cell_cells_idx ma c_id) (cell_cells_idx ma (c_id + 1)%nat) st
  else
    match cell_cells_e_idx ma with
    | Some idx =>
        adj_cells fvq c_id var c_weight (cell_cells_e ma)
                  (idx c_id) (idx (c_id + 1)%nat) st
    | None => st
    end.

(** One boundary face [f_id = cell_b_faces[i]]: known face boundary
    conditions, known face values, or cell values taken as face values. *)

Definition b_face (ma : cs_mesh_adjacencies_t) (fvq : cs_mesh_quantities_t)
           (c_id : nat) (bc_coeff_a bc_coeff_b : option (array R))
           (var : array R) (st : lsq_system) (i : nat) : lsq_system :=
  let '(cocg, rhsv) := st in
  let f_id := cell_b_faces ma i in
  let udbfs := 1 / b_face_surf fvq f_id in
  let dsij := R3 (udbfs * cx (b_face_normal fvq f_id))
                 (udbfs * cy (b_face_normal fvq f_id))
                 (udbfs * cz (b_face_normal fvq f_id)) in
  match bc_coeff_a, bc_coeff_b with
  | Some a, Some b =>
      let unddij := 1 / b_dist fvq f_id in
      let umcbdd := (1 - b f_id) * unddij in
      let pfac := (a f_id + (b f_id - 1) * var c_id) * unddij in
      let dsij := R3 (cx dsij + umcbdd * cx (diipb fvq f_id))
                     (cy dsij + umcbdd * cy (diipb fvq f_id))
                     (cz dsij + umcbdd * cz (diipb fvq f_id)) in
      (cocg_add_outer cocg dsij, add3 rhsv (scale3 pfac dsij))
  | Some a, None =>
      let dc := sub3 (b_face_cog fvq f_id) (cell_cen fvq c_id) in
      let ddc := 1 / (cx dc * cx dc + cy dc * cy dc + cz dc * cz dc) in
      let pfac := (a f_id - var c_id) * ddc in
      (cocg_add_scaled cocg dc ddc, add3 rhsv (scale3 pfac dc))
  | None, _ =>
      let dc := sub3 (b_face_cog fvq f_id) (cell_cen fvq c_id) in
      let ddc := 1 / (cx dc * cx dc + cy dc * cy dc + cz dc * cz dc) in
      (cocg_add_scaled cocg dc ddc, rhsv)
  end.

(** The covariance matrix and right-hand side accumulated before the
    inversion. *)

Definition cell_system (ma : cs_mesh_adjacencies_t)
           (fvq : cs_mesh_quantities_t) (c_id : nat)
           (halo_type : cs_halo_type_t)
           (bc_coeff_a bc_coeff_b : option (array R)) (var : array R)
           (c_weight : option (array R)) : lsq_system :=
  let n_adj := if halo_type_eqb halo_type CS_HALO_EXTENDED then 2%nat else 1%nat in
  let st := for_loop 0 n_adj (adjacency ma fvq c_id var c_weight)
                     (zero6, zero3) in
  (* Contribution from boundary faces *)
  for_loop (cell_b_faces_idx ma c_id) (cell_b_faces_idx ma (c_id + 1)%nat)
           (b_face ma fvq c_id bc_coeff_a bc_coeff_b var) st.

(** [cs_gradient_scalar_cell]: the system is solved by Cramer's rule, the
    cofactors being written out in the function. *)

Definition cs_gradient_scalar_cell (ma : cs_mesh_adjacencies_t)
           (fvq : cs_mesh_quantities_t) (c_id : nat)
           (halo_type : cs_halo_type_t)
           (bc_coeff_a bc_coeff_b : option (array R)) (var : array R)
           (c_weight : option (array R)) : cs_real_3_t :=
  let '(cocg, rhsv) :=
    cell_system ma fvq c_id halo_type bc_coeff_a bc_coeff_b var c_weight in
  (* Invert *)
  let a00 := a1 cocg * a2 cocg - a4 cocg * a4 cocg in
  let a01 := a4 cocg * a5 cocg - a3 cocg * a2 cocg in
  let a02 := a3 cocg * a4 cocg - a1 cocg * a5 cocg in
  let a11 := a0 cocg * a2 cocg - a5 cocg * a5 cocg in
  let a12 := a3 cocg * a5 cocg - a0 cocg * a4 cocg in
  let a22 := a0 cocg * a1 cocg - a3 cocg * a3 cocg in
  let det_inv := 1 / (a0 cocg * a00 + a3 cocg * a01 + a5 cocg * a02) in
  R3 ((a00 * cx rhsv + a01 * cy rhsv + a02 * cz rhsv) * det_inv)
     ((a01 * cx rhsv + a11 * cy rhsv + a12 * cz rhsv) * det_inv)
     ((a02 * cx rhsv + a12 * cy rhsv + a22 * cz rhsv) * det_inv).

(** The cells and faces whose centres the function subtracts the cell
    centre from: the neighbours visited and, unless both boundary
    coefficient arrays are given, the boundary faces of the cell. *)

Definition neighbours (ma : cs_mesh_adjacencies_t) (c_id : nat)
           (halo_type : cs_halo_type_t) : list nat :=
  map (cell_cells ma)
      (range (cell_cells_idx ma c_id) (cell_cells_idx ma (c_id + 1)%nat))
  ++ (if halo_type_eqb halo_type CS_HALO_EXTENDED then
        match cell_cells_e_idx ma with
        | Some idx =>
            map (cell_cells_e ma) (range (idx c_id) (idx (c_id + 1)%nat))
        | None => []
        end
      else []).

Definition b_faces (ma : cs_mesh_adjacencies_t) (c_id : nat) : list nat :=
  map (cell_b_faces ma)
      (range (cell_b_faces_idx ma c_id) (cell_b_faces_idx ma (c_id + 1)%nat)).

(** No division by zero: the centres of the neighbours and of the
    boundary faces differ from the centre of the cell. *)

Definition distinct_centres (ma : cs_mesh_adjacencies_t)
           (fvq : cs_mesh_quantities_t) (c_id : nat)
           (halo_type : cs_halo_type_t) : Prop :=
  (forall c_id1, In c_id1 (neighbours ma c_id halo_type) ->
     dot3 (sub3 (cell_cen fvq c_id1) (cell_cen fvq c_id))
          (sub3 (cell_cen fvq c_id1) (cell_cen fvq c_id)) <> 0)
  /\ (forall f_id, In f_id (b_faces ma c_id) ->
        dot3 (sub3 (b_face_cog fvq f_id) (cell_cen fvq c_id))
             (sub3 (b_face_cog fvq f_id) (cell_cen fvq c_id)) <> 0).

(** The right-hand side is the covariance matrix applied to [G]. *)

Definition consistent (G : cs_real_3_t) (st : lsq_system) : Prop :=
  snd st = cocg_times_rhs (fst st) G.

(** Two systems with the same matrix, the right-hand side of the third
    being the combination of those of the first two. *)

Definition combines (al be : R) (s1 s2 s3 : lsq_system) : Prop :=
  fst s1 = fst s3 /\ fst s2 = fst s3
  /\ snd s3 = add3 (scale3 al (snd s1)) (scale3 be (snd s2)).

End CellGradient.
(** ** Order of the table of diagnostics entries *)

(** The comparison made by the binary search of [_find_or_add_system]: an
    entry against a name and a scheme, by name first, then by scheme. *)

Definition system_cmp (e : cs_gradient_info_t) (name : string)
           (type : cs_gradient_type_t) : Z :=
  let cmp_ret := strcmp (info_name e) name in
  if (cmp_ret =? 0)%Z
  then (gradient_type_code (info_type e) - gradient_type_code type)%Z
  else cmp_ret.

(** The table is in strictly increasing order. *)

Definition systems_sorted (systems : list cs_gradient_info_t) : Prop :=
  forall i j d, (i < j < List.length systems)%nat ->
    (system_cmp (nth i systems d) (info_name (nth j systems d))
                (info_type (nth j systems d)) < 0)%Z.

(** What the search leaves in [(mid_id, cmp_ret)]: the position of the
    entry, or the position at which the key keeps the table sorted. *)

Definition search_post (systems : list cs_gradient_info_t) (name : string)
           (type : cs_gradient_type_t) (r : Z * Z) : Prop :=
  let cmp := fun j : nat =>
    system_cmp (nth j systems (_gradient_info_create name type)) name type in
  let '(mid_id, cmp_ret) := r in
  (0 <= mid_id)%Z
  /\ ((cmp_ret = 0%Z /\ (Z.to_nat mid_id < List.length systems)%nat
       /\ cmp (Z.to_nat mid_id) = 0%Z)
      \/ (cmp_ret <> 0%Z /\ (Z.to_nat mid_id <= List.length systems)%nat
          /\ (forall j, (j < Z.to_nat mid_id)%nat -> (cmp j < 0)%Z)
          /\ (forall j, (Z.to_nat mid_id <= j < List.length systems)%nat ->
                        (0 < cmp j)%Z))).

(** Number of calls recorded for a name and a scheme: that of the first
    entry of the key, 0 without one. *)

Definition is_system (name : string) (type : cs_gradient_type_t)
           (e : cs_gradient_info_t) : bool :=
  (system_cmp e name type =? 0)%Z.

Definition system_calls (name : string) (type : cs_gradient_type_t)
           (systems : list cs_gradient_info_t) : Z :=
  match find (is_system name type) systems with
  | Some e => n_calls e
  | None => 0%Z
  end.

(** One more call is recorded for a name and a scheme (the count is an
    [unsigned] and wraps around), nothing else changes in the counts, and
    the table is sorted. *)

Definition counts_call (name : string) (type : cs_gradient_type_t)
           (systems systems' : list cs_gradient_info_t) : Prop :=
  systems_sorted systems'
  /\ system_calls name type systems'
     = ((system_calls name type systems + 1) mod UINT_MODULUS)%Z
  /\ (forall name' type', (name', type') <> (name, type) ->
        system_calls name' type' systems' = system_calls name' type' systems).

(** What one call through the iterative driver does to its entry: the
    sweep count is recorded by the driver, then the entry point counts the
    call. *)

Definition record_call (i : cs_gradient_info_t) (n_iter : Z)
  : cs_gradient_info_t :=
  info_called (_gradient_info_update_iter i n_iter).
(** ** Least-squares gradient of an affine field *)

(** The covariance sums of [_compute_cell_cocg_lsq] as they stand when
    the partial sums of the boundary cells are saved: interior faces and
    extended neighbourhood, without coupling. *)

Definition cocg_lsq_interior (m : cs_mesh_t) (extended : bool)
           (fvq : cs_mesh_quantities_t) : array cs_cocg_6_t :=
  let cocg : array cs_cocg_6_t := fun _ => zero6 in
  let cocg := fold_left (cocg_lsq_i_face m fvq) (i_face_order m) cocg in
  if extended then
    match cell_cells_idx m with
    | Some idx =>
        for_loop 0 (n_cells m)
          (fun cocg ii =>
             fold_left (cocg_lsq_neighbour fvq ii) (ext_neighbours m idx ii) cocg)
          cocg
    | None => cocg
    end
  else cocg.

(** The field [G . x + k] sampled at the cell centres. *)

Definition affine_field (fvq : cs_mesh_quantities_t) (G : cs_real_3_t) (k : R)
           (pvar : array R) : Prop :=
  forall c, pvar c = dot3 G (cell_cen fvq c) + k.

(** No division by zero in the least-squares sums: the two cells of an
    interior face, and a cell and its extended neighbours, have distinct
    centres. *)

Definition centres_distinct (m : cs_mesh_t) (fvq : cs_mesh_quantities_t)
  : Prop :=
  (forall f_id, In f_id (i_face_order m) ->
     let dc := sub3 (cell_cen fvq (snd (i_face_cells m f_id)))
                    (cell_cen fvq (fst (i_face_cells m f_id))) in
     dot3 dc dc <> 0)
  /\ (forall idx ii jj, cell_cells_idx m = Some idx -> (ii < n_cells m)%nat ->
        In jj (ext_neighbours m idx ii) ->
        let dc := sub3 (cell_cen fvq jj) (cell_cen fvq ii) in
        dot3 dc dc <> 0).

(** The cache holds no least-squares matrices for the neighbourhood
    asked for. *)

Definition lsq_cache_empty (m : cs_mesh_t) (halo_type : cs_halo_type_t)
           (store : gq_store) : Prop :=
  gq_cocg_lsq (is_extended m halo_type)
              (gq_at (_gradient_quantities_get 0 store) 0) = None.

(** The right-hand side is the covariance sum applied to [G], and carries
    the variable. *)

Definition lsq_consistent (G : cs_real_3_t) (pvar : array R)
           (cocg : array cs_cocg_6_t) (rhsv : array cs_real_4_t) : Prop :=
  forall c, rhs_v (rhsv c) = cocg_times_rhs (cocg c) G
            /\ rhs_p (rhsv c) = pvar c.

(** Two right-hand sides with the same vectors, the second carrying the
    variable plus [k]. *)

Definition rhs_shifted (k : R) (rhsv rhsv' : array cs_real_4_t) : Prop :=
  forall c, rhs_v (rhsv' c) = rhs_v (rhsv c)
            /\ rhs_p (rhsv' c) = rhs_p (rhsv c) + k.
(** ** Bounds of the cell-based clipping *)

(** The pair [(denum, denom)] that the cell-based pass of
    [_scalar_gradient_clipping] holds when its first loops are done. *)

Definition cell_clip_bounds (m : cs_mesh_t) (fvq : cs_mesh_quantities_t)
           (halo_type : cs_halo_type_t) (var : array R)
           (grad : array cs_real_3_t) : array R * array R :=
  ext_loop m halo_type (clip_cell_ext fvq var grad)
    (fold_left (clip_cell_i_face m fvq var grad) (i_face_order m)
               (fun _ => 0, fun _ => 0)).

(** On the first [n] cells, the gradient variations of [st'] are those of
    [st] times [f], the variations of the variable being the same. *)

Definition scaled_by (n : nat) (f : array R) (st st' : array R * array R)
  : Prop :=
  forall c, (c < n)%nat ->
    fst st' c = f c * fst st c /\ snd st' c = snd st c.
(** ** Porosity balance: [cs_gradient_porosity_balance] *)

(** The face quantities of [cs_mesh_quantities_t] that this function alone
    reads. *)

Record cs_fluid_faces_t : Type := {
  i_f_face_factor : array (R * R);
  b_f_face_factor : array R;
  i_f_face_surf : array R;
  i_face_surf : array R;
  b_f_face_surf : array R
}.

(** Values of the fields [inner_mass_flux] and [boundary_mass_flux], and
    previous values of the velocity ([CS_F_(vel)->val_pre], three entries
    per cell). *)

Record cs_flux_fields_t : Type := {
  i_massflux : array R;
  b_massflux : array R;
  vel_val_pre : array cs_real_3_t
}.

(** Values of the fields [i_poro_duq_0], [i_poro_duq_1], [b_poro_duq] and
    [poro_div_duq]. *)

Record cs_poro_fields_t : Type := Poro_fields {
  val_i_poro_duq_0 : array R;
  val_i_poro_duq_1 : array R;
  val_b_poro_duq : array R;
  val_poro_div_duq : array cs_real_3_t
}.

(** [has_dc * c_disable_flag[has_dc * c_id] == 0]. *)

Definition cell_enabled (fvq : cs_mesh_quantities_t) (c_id : nat) : bool :=
  let has_dc := has_disable_flag fvq in
  Z.eqb (Z.of_nat has_dc * c_disable_flag fvq (has_dc * c_id)%nat)%Z 0%Z.

(** Inner faces corrections, one face: the values written to
    [i_poro_duq_0[f_id]] and [i_poro_duq_1[f_id]] ([cs_math_3_dot_product]
    of cs_math.h is the dot product). *)

Definition poro_i_face_terms (g : cs_glob_t) (m : cs_mesh_t)
           (fvq : cs_mesh_quantities_t) (ff : cs_fluid_faces_t)
           (fl : cs_flux_fields_t) (f_id : nat) : R * R :=
  let ii := fst (i_face_cells m f_id) in
  let jj := snd (i_face_cells m f_id) in
  let normal := cs_math_3_normalize g (i_face_normal fvq f_id) in
  let vel_i := vel_val_pre fl ii in
  let vel_j := vel_val_pre fl jj in
  let veli_dot_n := (1 - fst (i_f_face_factor ff f_id)) * dot3 vel_i normal in
  let velj_dot_n := (1 - snd (i_f_face_factor ff f_id)) * dot3 vel_j normal in
  (* Is the cell disabled (for solid or porous)? *)
  let d_f_surf :=
    if (cell_enabled fvq ii && cell_enabled fvq jj)%bool
    then 1 / CS_MAX (i_f_face_surf ff f_id)
                    (cs_math_epzero g * i_face_surf ff f_id)
    else 0 in
  (veli_dot_n * i_massflux fl f_id * d_f_surf,
   velj_dot_n * i_massflux fl f_id * d_f_surf).

Definition poro_i_face (g : cs_glob_t) (m : cs_mesh_t)
           (fvq : cs_mesh_quantities_t) (ff : cs_fluid_faces_t)
           (fl : cs_flux_fields_t) (st : cs_poro_fields_t) (f_id : nat)
  : cs_poro_fields_t :=
  let ii := fst (i_face_cells m f_id) in
  let jj := snd (i_face_cells m f_id) in
  let i_poro_duq_0 :=
    upd (val_i_poro_duq_0 st) f_id
        (fst (poro_i_face_terms g m fvq ff fl f_id)) in
  let i_poro_duq_1 :=
    upd (val_i_poro_duq_1 st) f_id
        (snd (poro_i_face_terms g m fvq ff fl f_id)) in
  Poro_fields i_poro_duq_0 i_poro_duq_1 (val_b_poro_duq st)
    (scatter_face (val_poro_div_duq st) ii jj
                  (i_poro_duq_0 f_id) (i_poro_duq_1 f_id)
                  (i_f_face_normal fvq f_id)).

(** Boundary faces corrections, one face: the value written to
    [b_poro_duq[f_id]]. *)

Definition poro_b_face_term (g : cs_glob_t) (m : cs_mesh_t)
           (fvq : cs_mesh_quantities_t) (ff : cs_fluid_faces_t)
           (fl : cs_flux_fields_t) (f_id : nat) : R :=
  let ii := b_face_cells m f_id in
  let normal := cs_math_3_normalize g (b_face_normal fvq f_id) in
  let vel_i := vel_val_pre fl ii in
  let veli_dot_n := (1 - b_f_face_factor ff f_id) * dot3 vel_i normal in
  let d_f_surf :=
    if cell_enabled fvq ii
    then 1 / CS_MAX (b_f_face_surf ff f_id)
                    (cs_math_epzero g * b_face_surf fvq f_id)
    else 0 in
  veli_dot_n * b_massflux fl f_id * d_f_surf.

Definition poro_b_face (g : cs_glob_t) (m : cs_mesh_t)
           (fvq : cs_mesh_quantities_t) (ff : cs_fluid_faces_t)
           (fl : cs_flux_fields_t) (st : cs_poro_fields_t) (f_id : nat)
  : cs_poro_fields_t :=
  let ii := b_face_cells m f_id in
  let b_poro_duq :=
    upd (val_b_poro_duq st) f_id (poro_b_face_term g m fvq ff fl f_id) in
  let c_poro_div_duq := val_poro_div_duq st in
  Poro_fields (val_i_poro_duq_0 st) (val_i_poro_duq_1 st) b_poro_duq
    (upd c_poro_div_duq ii
         (axpy3 (c_poro_div_duq ii) (b_poro_duq f_id)
                (b_f_face_normal fvq f_id))).

(** Finalisation of cell terms, one cell. *)

Definition poro_cell (fvq : cs_mesh_quantities_t)
           (c_poro_div_duq : array cs_real_3_t) (c_id : nat)
  : array cs_real_3_t :=
  upd c_poro_div_duq c_id
      (scale3 (dvol_of fvq (cell_f_vol fvq) c_id) (c_poro_div_duq c_id)).

(** One turn of the loop on the threads of the boundary faces: the faces
    of the thread, then the finalisation of the cell terms, which the
    source has inside this loop. *)

Definition poro_b_thread (g : cs_glob_t) (m : cs_mesh_t)
           (fvq : cs_mesh_quantities_t) (ff : cs_fluid_faces_t)
           (fl : cs_flux_fields_t) (st : cs_poro_fields_t) (t_id : nat)
  : cs_poro_fields_t :=
  let b_group_index := group_index (b_face_numbering m) in
  let st :=
    for_loop (b_group_index (t_id * 2)%nat) (b_group_index (t_id * 2 + 1)%nat)
             (poro_b_face g m fvq ff fl) st in
  Poro_fields (val_i_poro_duq_0 st) (val_i_poro_duq_1 st) (val_b_poro_duq st)
    (for_loop 0 (n_cells m) (poro_cell fvq) (val_poro_div_duq st)).

(** [cs_gradient_porosity_balance]: the function returns at once when the
    field [i_poro_duq_0] is not defined ([fields] is [None]); otherwise
    [poro_div_duq] is set to zero over its whole extent before anything
    else. *)

Definition cs_gradient_porosity_balance
           (g : cs_glob_t) (m : cs_mesh_t) (fvq : cs_mesh_quantities_t)
           (ff : cs_fluid_faces_t) (fl : cs_flux_fields_t) (inc : Z)
           (fields : option cs_poro_fields_t) : option cs_poro_fields_t :=
  match fields with
  | None => None
  | Some st =>
      let c_poro_div_duq : array cs_real_3_t := fun _ => zero3 in
      if (inc =? 1)%Z then
        let st :=
          Poro_fields (val_i_poro_duq_0 st) (val_i_poro_duq_1 st)
                      (val_b_poro_duq st) c_poro_div_duq in
        (* Inner faces corrections *)
        let st := fold_left (poro_i_face g m fvq ff fl) (i_face_order m) st in
        (* Boundary faces corrections *)
        let st :=
          for_loop 0 (n_threads (b_face_numbering m))
                   (poro_b_thread g m fvq ff fl) st in
        (* Handle parallelism and periodicity *)
        let c_poro_div_duq :=
          match halo m with
          | Some h =>
              cs_halo_sync_var_strided h CS_HALO_STANDARD (val_poro_div_duq st)
          | None => val_poro_div_duq st
          end in
        Some (Poro_fields (val_i_poro_duq_0 st) (val_i_poro_duq_1 st)
                          (val_b_poro_duq st) c_poro_div_duq)
      else
        let '(i_poro_duq_0, i_poro_duq_1) :=
          for_loop 0 (n_i_faces m)
                   (fun '(p0, p1) f_id => (upd p0 f_id 0, upd p1 f_id 0))
                   (val_i_poro_duq_0 st, val_i_poro_duq_1 st) in
        Some (Poro_fields i_poro_duq_0 i_poro_duq_1 (val_b_poro_duq st)
                          c_poro_div_duq)
  end.

(** The cell terms all vanish. *)

Definition balance_zero (st : cs_poro_fields_t) : Prop :=
  forall c, val_poro_div_duq st c = zero3.

(** A face array holds the terms of face [f_id]. *)

Definition i_terms_at (g : cs_glob_t) (m : cs_mesh_t)
           (fvq : cs_mesh_quantities_t) (ff : cs_fluid_faces_t)
           (fl : cs_flux_fields_t) (f_id : nat) (st : cs_poro_fields_t)
  : Prop :=
  val_i_poro_duq_0 st f_id = fst (poro_i_face_terms g m fvq ff fl f_id)
  /\ val_i_poro_duq_1 st f_id = snd (poro_i_face_terms g m fvq ff fl f_id).

Definition b_term_at (g : cs_glob_t) (m : cs_mesh_t)
           (fvq : cs_mesh_quantities_t) (ff : cs_fluid_faces_t)
           (fl : cs_flux_fields_t) (f_id : nat) (st : cs_poro_fields_t)
  : Prop :=
  val_b_poro_duq st f_id = poro_b_face_term g m fvq ff fl f_id.

(** The arrays after the two loops on the faces. *)

Definition after_faces (g : cs_glob_t) (m : cs_mesh_t)
           (fvq : cs_mesh_quantities_t) (ff : cs_fluid_faces_t)
           (fl : cs_flux_fields_t) (st : cs_poro_fields_t) : cs_poro_fields_t :=
  for_loop 0 (n_threads (b_face_numbering m)) (poro_b_thread g m fvq ff fl)
    (fold_left (poro_i_face g m fvq ff fl) (i_face_order m) st).

(** ** Green-Gauss gradient of a vector: [_initialize_vector_gradient]
    and [_reconstruct_vector_gradient] *)

Module VectorGradient.

(** What the drivers take from other modules: the halo exchange of
    arrays of 3x3 values ([cs_halo_sync_var_strided] with stride 9 and
    [cs_halo_perio_sync_var_tens]) and the contributions of coupled
    faces. *)

Record cs_vector_externals_t : Type := {
  cs_halo_sync_var_strided_9 :
    cs_halo_t -> cs_halo_type_t -> array cs_real_33_t -> array cs_real_33_t;
  cs_halo_perio_sync_var_tens :
    cs_halo_t -> cs_halo_type_t -> array cs_real_33_t -> array cs_real_33_t;
  cs_internal_coupling_initialize_vector_gradient :
    cs_internal_coupling_t -> option (array R) -> array cs_real_3_t ->
    array cs_real_33_t -> array cs_real_33_t;
  cs_internal_coupling_reconstruct_vector_gradient :
    cs_internal_coupling_t -> array cs_real_33_t -> array cs_real_33_t ->
    array cs_real_33_t
}.

(** [v[i]] and the row [a[i][0..2]], for [i] in 0..2. *)

Definition comp_3 (v : cs_real_3_t) (i : nat) : R :=
  match i with
  | O => cx v
  | S O => cy v
  | _ => cz v
  end.

Definition row_33 (a : cs_real_33_t) (i : nat) : cs_real_3_t :=
  match i with
  | O => R3 (m00 a) (m01 a) (m02 a)
  | S O => R3 (m10 a) (m11 a) (m12 a)
  | _ => R3 (m20 a) (m21 a) (m22 a)
  end.

Definition rows_33 (r0 r1 r2 : cs_real_3_t) : cs_real_33_t :=
  M33 (cx r0) (cy r0) (cz r0)
      (cx r1) (cy r1) (cz r1)
      (cx r2) (cy r2) (cz r2).

Definition zero_33 : cs_real_33_t := M33 0 0 0 0 0 0 0 0 0.

(** The vector [r_i] among three, for [i] in 0..2. *)

Definition comp_rows (r0 r1 r2 : cs_real_3_t) (i : nat) : cs_real_3_t :=
  match i with
  | O => r0
  | S O => r1
  | _ => r2
  end.

(** [a[i][j] += p[i] * n[j]] and [a[i][j] -= p[i] * n[j]] for i, j in
    0..2. *)

Definition axpy_33 (a : cs_real_33_t) (p n : cs_real_3_t) : cs_real_33_t :=
  M33 (m00 a + cx p * cx n) (m01 a + cx p * cy n) (m02 a + cx p * cz n)
      (m10 a + cy p * cx n) (m11 a + cy p * cy n) (m12 a + cy p * cz n)
      (m20 a + cz p * cx n) (m21 a + cz p * cy n) (m22 a + cz p * cz n).

Definition axmy_33 (a : cs_real_33_t) (p n : cs_real_3_t) : cs_real_33_t :=
  M33 (m00 a - cx p * cx n) (m01 a - cx p * cy n) (m02 a - cx p * cz n)
      (m10 a - cy p * cx n) (m11 a - cy p * cy n) (m12 a - cy p * cz n)
      (m20 a - cz p * cx n) (m21 a - cz p * cy n) (m22 a - cz p * cz n).

(** [a[i][j] *= dvol]. *)

Definition scale_33 (a : cs_real_33_t) (dvol : R) : cs_real_33_t :=
  M33 (m00 a * dvol) (m01 a * dvol) (m02 a * dvol)
      (m10 a * dvol) (m11 a * dvol) (m12 a * dvol)
      (m20 a * dvol) (m21 a * dvol) (m22 a * dvol).

(** Interior faces contribution. *)

Definition init_i_face_v (m : cs_mesh_t) (fvq : cs_mesh_quantities_t)
           (pvar : array cs_real_3_t) (c_weight : option (array R))
           (grad : array cs_real_33_t) (f_id : nat) : array cs_real_33_t :=
  let c_id1 := fst (i_face_cells m f_id) in
  let c_id2 := snd (i_face_cells m f_id) in
  let pond := weight fvq f_id in
  let ktpond :=
    match c_weight with
    | None => pond
    | Some cw =>
        pond * cw c_id1 / (pond * cw c_id1 + (1 - pond) * cw c_id2)
    end in
  let pfaci :=
    R3 ((1 - ktpond) * (cx (pvar c_id2) - cx (pvar c_id1)))
       ((1 - ktpond) * (cy (pvar c_id2) - cy (pvar c_id1)))
       ((1 - ktpond) * (cz (pvar c_id2) - cz (pvar c_id1))) in
  let pfacj :=
    R3 (- ktpond * (cx (pvar c_id2) - cx (pvar c_id1)))
       (- ktpond * (cy (pvar c_id2) - cy (pvar c_id1)))
       (- ktpond * (cz (pvar c_id2) - cz (pvar c_id1))) in
  let grad :=
    upd grad c_id1 (axpy_33 (grad c_id1) pfaci (i_f_face_normal fvq f_id)) in
  upd grad c_id2 (axmy_33 (grad c_id2) pfacj (i_f_face_normal fvq f_id)).

(** Boundary face treatment: [pfac] starts from [inc*coefav[f_id][i]] and
    receives the terms of [k = 0, 1, 2] in turn. *)

Definition init_b_face_v (m : cs_mesh_t) (fvq : cs_mesh_quantities_t)
           (cpl : option cs_internal_coupling_t) (inc : Z)
           (coefav : array cs_real_3_t) (coefbv : array cs_real_33_t)
           (pvar : array cs_real_3_t)
           (grad : array cs_real_33_t) (f_id : nat) : array cs_real_33_t :=
  if is_coupled cpl f_id then grad
  else
    let c_id := b_face_cells m f_id in
    let a := coefav f_id in
    let b := coefbv f_id in
    let p := pvar c_id in
    let pfac :=
      R3 (IZR inc * cx a + (m00 b - 1) * cx p + m01 b * cy p + m02 b * cz p)
         (IZR inc * cy a + m10 b * cx p + (m11 b - 1) * cy p + m12 b * cz p)
         (IZR inc * cz a + m20 b * cx p + m21 b * cy p + (m22 b - 1) * cz p)
    in
    upd grad c_id (axpy_33 (grad c_id) pfac (b_f_face_normal fvq f_id)).

(** Periodicity and parallelism treatment of both drivers. *)

Definition sync_vector_gradient_halo (x : cs_vector_externals_t)
           (m : cs_mesh_t) (halo_type : cs_halo_type_t)
           (grad : array cs_real_33_t) : array cs_real_33_t :=
  match halo m with
  | Some h =>
      let grad := cs_halo_sync_var_strided_9 x h halo_type grad in
      if have_rotation_perio m
      then cs_halo_perio_sync_var_tens x h halo_type grad
      else grad
  | None => grad
  end.

(** [_initialize_vector_gradient]. *)

Definition _initialize_vector_gradient
           (x : cs_vector_externals_t) (g : cs_glob_t) (m : cs_mesh_t)
           (fvq : cs_mesh_quantities_t)
           (cpl : option cs_internal_coupling_t)
           (halo_type : cs_halo_type_t) (inc : Z)
           (coefav : array cs_real_3_t) (coefbv : array cs_real_33_t)
           (pvar : array cs_real_3_t) (c_weight : option (array R))
  : array cs_real_33_t :=
  (* Initialization *)
  let grad : array cs_real_33_t := fun _ => zero_33 in
  (* Interior faces contribution *)
  let grad := fold_left (init_i_face_v m fvq pvar c_weight)
                        (i_face_order m) grad in
  (* Contribution from coupled faces *)
  let grad :=
    match cpl with
    | Some c =>
        cs_internal_coupling_initialize_vector_gradient x c c_weight pvar grad
    | None => grad
    end in
  (* Boundary face treatment *)
  let grad := fold_left (init_b_face_v m fvq cpl inc coefav coefbv pvar)
                        (b_face_order m) grad in
  let grad :=
    for_loop 0 (n_cells m)
      (fun grad c_id =>
         upd grad c_id
             (scale_33 (grad c_id)
                       (dvol_of fvq (cell_f_vol_used g fvq) c_id)))
      grad in
  (* Periodicity and parallelism treatment *)
  sync_vector_gradient_halo x m halo_type grad.

(** [_reconstruct_vector_gradient], interior face: the reconstruction
    part uses rows [i] of [r_grad] at both cells. *)

Definition rec_i_face_v (m : cs_mesh_t) (fvq : cs_mesh_quantities_t)
           (pvar : array cs_real_3_t) (c_weight : option (array R))
           (r_grad : array cs_real_33_t)
           (grad : array cs_real_33_t) (f_id : nat) : array cs_real_33_t :=
  let c_id1 := fst (i_face_cells m f_id) in
  let c_id2 := snd (i_face_cells m f_id) in
  let pond := weight fvq f_id in
  let ktpond :=
    match c_weight with
    | None => pond
    | Some cw =>
        pond * cw c_id1 / (pond * cw c_id1 + (1 - pond) * cw c_id2)
    end in
  let pfaci (i : nat) :=
    (1 - ktpond) * (comp_3 (pvar c_id2) i - comp_3 (pvar c_id1) i) in
  let pfacj (i : nat) :=
    - ktpond * (comp_3 (pvar c_id2) i - comp_3 (pvar c_id1) i) in
  (* Reconstruction part *)
  let rfac (i : nat) :=
    0.5 * (cx (dofij fvq f_id)
           * (cx (row_33 (r_grad c_id1) i) + cx (row_33 (r_grad c_id2) i))
           + cy (dofij fvq f_id)
             * (cy (row_33 (r_grad c_id1) i) + cy (row_33 (r_grad c_id2) i))
           + cz (dofij fvq f_id)
             * (cz (row_33 (r_grad c_id1) i) + cz (row_33 (r_grad c_id2) i)))
  in
  let grad :=
    upd grad c_id1
        (axpy_33 (grad c_id1)
                 (R3 (pfaci 0%nat + rfac 0%nat) (pfaci 1%nat + rfac 1%nat)
                     (pfaci 2%nat + rfac 2%nat))
                 (i_f_face_normal fvq f_id)) in
  upd grad c_id2
      (axmy_33 (grad c_id2)
               (R3 (pfacj 0%nat + rfac 0%nat) (pfacj 1%nat + rfac 1%nat)
                   (pfacj 2%nat + rfac 2%nat))
               (i_f_face_normal fvq f_id)).

(** Boundary face: [pfac] receives the terms of [k = 0, 1, 2], then
    [pvar[c_id][i]] is taken off; [rfac] starts from 0. *)

Definition rec_b_face_v (m : cs_mesh_t) (fvq : cs_mesh_quantities_t)
           (cpl : option cs_internal_coupling_t) (inc : Z)
           (coefav : array cs_real_3_t) (coefbv : array cs_real_33_t)
           (pvar : array cs_real_3_t) (r_grad : array cs_real_33_t)
           (grad : array cs_real_33_t) (f_id : nat) : array cs_real_33_t :=
  if is_coupled cpl f_id then grad
  else
    let c_id := b_face_cells m f_id in
    let p := pvar c_id in
    let pfac (i : nat) :=
      IZR inc * comp_3 (coefav f_id) i
      + comp_3 (row_33 (coefbv f_id) i) 0 * cx p
      + comp_3 (row_33 (coefbv f_id) i) 1 * cy p
      + comp_3 (row_33 (coefbv f_id) i) 2 * cz p
      - comp_3 p i in
    (* Reconstruction part *)
    let vecfac (k : nat) :=
      cx (row_33 (r_grad c_id) k) * cx (diipb fvq f_id)
      + cy (row_33 (r_grad c_id) k) * cy (diipb fvq f_id)
      + cz (row_33 (r_grad c_id) k) * cz (diipb fvq f_id) in
    let rfac (i : nat) :=
      0 + comp_3 (row_33 (coefbv f_id) i) 0 * vecfac 0%nat
      + comp_3 (row_33 (coefbv f_id) i) 1 * vecfac 1%nat
      + comp_3 (row_33 (coefbv f_id) i) 2 * vecfac 2%nat in
    upd grad c_id
        (axpy_33 (grad c_id)
                 (R3 (pfac 0%nat + rfac 0%nat) (pfac 1%nat + rfac 1%nat)
                     (pfac 2%nat + rfac 2%nat))
                 (b_f_face_normal fvq f_id)).

(** Final loop over the owned cells: scaling by [dvol], then the
    correction for warped faces, row by row, when that option is set. *)

Definition rec_scale_v (g : cs_glob_t) (m : cs_mesh_t)
           (fvq : cs_mesh_quantities_t) (grad : array cs_real_33_t)
  : array cs_real_33_t :=
  for_loop 0 (n_cells m)
    (fun grad c_id =>
       let dvol := dvol_of fvq (cell_f_vol_used g fvq) c_id in
       let scaled := scale_33 (grad c_id) dvol in
       upd grad c_id
           (if CS_BAD_CELLS_WARPED_CORRECTION g
            then rows_33
                   (mat_33_3_product (corr_grad_lin fvq c_id)
                                     (row_33 scaled 0))
                   (mat_33_3_product (corr_grad_lin fvq c_id)
                                     (row_33 scaled 1))
                   (mat_33_3_product (corr_grad_lin fvq c_id)
                                     (row_33 scaled 2))
            else scaled))
    grad.

Definition _reconstruct_vector_gradient
           (x : cs_vector_externals_t) (g : cs_glob_t) (m : cs_mesh_t)
           (fvq : cs_mesh_quantities_t)
           (cpl : option cs_internal_coupling_t)
           (halo_type : cs_halo_type_t) (inc : Z)
           (coefav : array cs_real_3_t) (coefbv : array cs_real_33_t)
           (pvar : array cs_real_3_t) (c_weight : option (array R))
           (r_grad : array cs_real_33_t)
  : array cs_real_33_t :=
  (* Initialization *)
  let grad : array cs_real_33_t := fun _ => zero_33 in
  (* Interior faces contribution *)
  let grad := fold_left (rec_i_face_v m fvq pvar c_weight r_grad)
                        (i_face_order m) grad in
  (* Contribution from coupled faces *)
  let grad :=
    match cpl with
    | Some c =>
        cs_internal_coupling_reconstruct_vector_gradient x c r_grad
          (cs_internal_coupling_initialize_vector_gradient
             x c c_weight pvar grad)
    | None => grad
    end in
  (* Boundary face treatment *)
  let grad :=
    fold_left (rec_b_face_v m fvq cpl inc coefav coefbv pvar r_grad)
              (b_face_order m) grad in
  let grad := rec_scale_v g m fvq grad in
  (* Periodicity and parallelism treatment *)
  sync_vector_gradient_halo x m halo_type grad.

(** The exchange of 3x3 values leaves the entries of owned cells as they
    are. *)

Definition tensor_halo_keeps_owned (x : cs_vector_externals_t)
           (m : cs_mesh_t) : Prop :=
  forall h, halo m = Some h ->
  forall ht a i, (i < n_cells m)%nat ->
       cs_halo_sync_var_strided_9 x h ht a i = a i
    /\ cs_halo_perio_sync_var_tens x h ht a i = a i.

(** Component [i] of the boundary condition is not coupled to the other
    components: row [i] of [coefbv] is zero off the diagonal, on the
    boundary faces visited. *)

Definition bc_uncoupled (m : cs_mesh_t) (coefbv : array cs_real_33_t)
           (i : nat) : Prop :=
  forall f_id, In f_id (b_face_order m) ->
  forall k, (k < 3)%nat -> k <> i -> comp_3 (row_33 (coefbv f_id) i) k = 0.

End VectorGradient.

(** ** Superposition of least-squares right-hand sides *)

(** The third right-hand side is the combination [al * r1 + be * r2] of
    the first two, vectors and carried variable alike. *)

Definition rhs_combines (al be : R) (r1 r2 r3 : array cs_real_4_t) : Prop :=
  forall c,
    rhs_v (r3 c) = add3 (scale3 al (rhs_v (r1 c))) (scale3 be (rhs_v (r2 c)))
    /\ rhs_p (r3 c) = al * rhs_p (r1 c) + be * rhs_p (r2 c).
(** ** Least squares with a hydrostatic pressure component:
    [_lsq_scalar_gradient_hyd_p] *)

Module HydP.

(** What the driver takes from other modules: the blocks of interior
    faces of the assembly algorithm ([cs_mesh_i_faces_thread_block_count]
    gives the numbers of groups and of threads,
    [cs_mesh_i_faces_thread_block_range] the faces [s_id .. e_id - 1] of
    group [g_id] and thread [t_id]), and [cs_math_3_distance_dot_product]
    (cs_math.h). *)

Record cs_hyd_externals_t : Type := {
  cs_mesh_i_faces_thread_block_count : cs_mesh_t -> cs_e2n_sum_t -> nat * nat;
  cs_mesh_i_faces_thread_block_range :
    cs_mesh_t -> cs_e2n_sum_t -> nat -> nat -> nat -> nat * nat;
  cs_math_3_distance_dot_product :
    cs_real_3_t -> cs_real_3_t -> cs_real_3_t -> R
}.

(** The arrays of [cs_glob_mesh_adjacencies] read by the gather
    algorithms, under the names the driver gives them: [c2c_idx] is
    [cell_cells_idx], [c2c] is [cell_cells], [c2f] is [cell_i_faces]
    (built by [cs_mesh_adjacencies_update_cell_i_faces] when absent) and
    [c2f_sgn] is [cell_i_faces_sgn]. *)

Record cs_mesh_adjacencies_t : Type := {
  c2c_idx : array nat;
  c2c : array nat;
  c2f : array nat;
  c2f_sgn : array Z
}.

(** [cs_math_3_square_norm] (cs_math.h). *)

Definition cs_math_3_square_norm (v : cs_real_3_t) : R :=
  cx v * cx v + cy v * cy v + cz v * cz v.

(** Interior faces in the order of the loops on groups, threads and
    faces of a block. *)

Definition i_face_blocks (x : cs_hyd_externals_t) (m : cs_mesh_t)
           (e2n : cs_e2n_sum_t) : list nat :=
  let '(n_i_groups, n_i_threads) :=
    cs_mesh_i_faces_thread_block_count x m e2n in
  flat_map
    (fun g_id =>
       flat_map
         (fun t_id =>
            let '(s_id, e_id) :=
              cs_mesh_i_faces_thread_block_range x m e2n g_id t_id
                                                 n_i_threads in
            range s_id e_id)
         (range 0 n_i_threads))
    (range 0 n_i_groups).

(** The factor [pfac] of an interior face seen from cell [ii], its
    neighbour being [jj], before any weighting. *)

Definition i_pfac (x : cs_hyd_externals_t) (g : cs_glob_t)
           (fvq : cs_mesh_quantities_t) (f_ext : array cs_real_3_t)
           (dvarij : R) (f_id ii jj : nat) : R :=
  let dc := sub3 (cell_cen fvq jj) (cell_cen fvq ii) in
  (dvarij
   + cs_math_3_distance_dot_product x (i_face_cog fvq f_id)
       (cell_cen fvq ii) (f_ext ii)
   + i_poro_duq_0 g f_id
   - cs_math_3_distance_dot_product x (i_face_cog fvq f_id)
       (cell_cen fvq jj) (f_ext jj)
   - i_poro_duq_1 g f_id)
  / cs_math_3_square_norm dc.

(** One interior face, [CS_E2N_SUM_SCATTER] and
    [CS_E2N_SUM_SCATTER_ATOMIC]. *)

Definition scatter_i_face (x : cs_hyd_externals_t) (g : cs_glob_t)
           (m : cs_mesh_t) (fvq : cs_mesh_quantities_t)
           (f_ext : array cs_real_3_t) (c_weight_s : option (array R))
           (rhsv : array cs_real_4_t) (f_id : nat) : array cs_real_4_t :=
  let ii := fst (i_face_cells m f_id) in
  let jj := snd (i_face_cells m f_id) in
  let dc := sub3 (cell_cen fvq jj) (cell_cen fvq ii) in
  let dvarij := rhs_p (rhsv jj) - rhs_p (rhsv ii) in
  let pfac := i_pfac x g fvq f_ext dvarij f_id ii jj in
  match c_weight_s with
  | Some cw =>
      let pond := weight fvq f_id in
      let pfac := pfac / (pond * cw ii + (1 - pond) * cw jj) in
      let fctb := times3 dc pfac in
      let rhsv := upd rhsv ii (rhs_add (rhsv ii) (smul3 (cw jj) fctb)) in
      upd rhsv jj (rhs_add (rhsv jj) (smul3 (cw ii) fctb))
  | None =>
      let fctb := times3 dc pfac in
      let rhsv := upd rhsv ii (rhs_add (rhsv ii) fctb) in
      upd rhsv jj (rhs_add (rhsv jj) fctb)
  end.

(** One interior face, [CS_E2N_SUM_STORE_THEN_GATHER]: the face term is
    stored in [f_ctb]. *)

Definition store_i_face (x : cs_hyd_externals_t) (g : cs_glob_t)
           (m : cs_mesh_t) (fvq : cs_mesh_quantities_t)
           (f_ext : array cs_real_3_t) (pvar : array R)
           (c_weight_s : option (array R))
           (f_ctb : array cs_real_3_t) (f_id : nat) : array cs_real_3_t :=
  let ii := fst (i_face_cells m f_id) in
  let jj := snd (i_face_cells m f_id) in
  let dc := sub3 (cell_cen fvq jj) (cell_cen fvq ii) in
  let dvarij := pvar jj - pvar ii in
  let pfac := i_pfac x g fvq f_ext dvarij f_id ii jj in
  match c_weight_s with
  | Some cw =>
      let pond := weight fvq f_id in
      let pfac := pfac / (pond * cw ii + (1 - pond) * cw jj) in
      upd f_ctb f_id (times3 dc pfac)
  | None => upd f_ctb f_id (times3 dc pfac)
  end.

(** Assembly for the 2-stage algorithm, one cell. *)

Definition assemble_cell (ma : cs_mesh_adjacencies_t)
           (c_weight_s : option (array R)) (f_ctb : array cs_real_3_t)
           (rhsv : array cs_real_4_t) (c_id_0 : nat) : array cs_real_4_t :=
  let s_id := c2c_idx ma c_id_0 in
  let e_id := c2c_idx ma (c_id_0 + 1)%nat in
  for_loop s_id e_id
    (fun rhsv i =>
       let f_id := c2f ma i in
       match c_weight_s with
       | None => upd rhsv c_id_0 (rhs_add (rhsv c_id_0) (f_ctb f_id))
       | Some cw =>
           let w := cw (c2c ma i) in
           upd rhsv c_id_0 (rhs_add (rhsv c_id_0) (smul3 w (f_ctb f_id)))
       end)
    rhsv.

(** [CS_E2N_SUM_GATHER], one neighbour of cell [ii]. *)

Definition gather_neighbour (x : cs_hyd_externals_t) (g : cs_glob_t)
           (ma : cs_mesh_adjacencies_t) (fvq : cs_mesh_quantities_t)
           (f_ext : array cs_real_3_t) (c_weight_s : option (array R))
           (ii : nat) (rhsv : array cs_real_4_t) (i : nat)
  : array cs_real_4_t :=
  let jj := c2c ma i in
  let f_id := c2f ma i in
  let dc := sub3 (cell_cen fvq jj) (cell_cen fvq ii) in
  let pfac :=
    i_pfac x g fvq f_ext (rhs_p (rhsv jj) - rhs_p (rhsv ii)) f_id ii jj in
  match c_weight_s with
  | Some cw =>
      let w_ii := cw ii in
      let w_jj := cw jj in
      let pond :=
        if (0 <? c2f_sgn ma i)%Z then weight fvq f_id
        else 1 - weight fvq f_id in
      let pfac := pfac / (pond * w_ii + (1 - pond) * w_jj) in
      let fctb := times3 dc pfac in
      upd rhsv ii (rhs_add (rhsv ii) (smul3 w_jj fctb))
  | None =>
      let fctb := times3 dc pfac in
      upd rhsv ii (rhs_add (rhsv ii) fctb)
  end.

Definition gather_cell (x : cs_hyd_externals_t) (g : cs_glob_t)
           (ma : cs_mesh_adjacencies_t) (fvq : cs_mesh_quantities_t)
           (f_ext : array cs_real_3_t) (c_weight_s : option (array R))
           (rhsv : array cs_real_4_t) (ii : nat) : array cs_real_4_t :=
  for_loop (c2c_idx ma ii) (c2c_idx ma (ii + 1)%nat)
           (gather_neighbour x g ma fvq f_ext c_weight_s ii) rhsv.

(** Contribution from interior faces, by the algorithm [e2n];
    [f_ctb_alloc] is the content of the work array [f_ctb] as
    [BFT_MALLOC] hands it over. *)

Definition interior_faces (x : cs_hyd_externals_t) (g : cs_glob_t)
           (ma : cs_mesh_adjacencies_t) (f_ctb_alloc : array cs_real_3_t)
           (e2n : cs_e2n_sum_t) (m : cs_mesh_t) (fvq : cs_mesh_quantities_t)
           (f_ext : array cs_real_3_t) (pvar : array R)
           (c_weight_s : option (array R)) (rhsv : array cs_real_4_t)
  : array cs_real_4_t :=
  match e2n with
  | CS_E2N_SUM_GATHER =>
      for_loop 0 (n_cells m) (gather_cell x g ma fvq f_ext c_weight_s) rhsv
  | CS_E2N_SUM_STORE_THEN_GATHER =>
      let f_ctb :=
        fold_left (store_i_face x g m fvq f_ext pvar c_weight_s)
                  (i_face_blocks x m e2n) f_ctb_alloc in
      (* Assembly for 2-stage algorithm *)
      for_loop 0 (n_cells m) (assemble_cell ma c_weight_s f_ctb) rhsv
  | _ =>
      fold_left (scatter_i_face x g m fvq f_ext c_weight_s)
                (i_face_blocks x m e2n) rhsv
  end.

(** Contribution from extended neighborhood. *)

Definition ext_neighbour (fvq : cs_mesh_quantities_t)
           (f_ext : array cs_real_3_t) (ii : nat)
           (rhsv : array cs_real_4_t) (jj : nat) : array cs_real_4_t :=
  let dc := sub3 (cell_cen fvq jj) (cell_cen fvq ii) in
  let pfac :=
    (rhs_p (rhsv jj) - rhs_p (rhsv ii)
     - 0.5 * dot3 dc (f_ext ii) - 0.5 * dot3 dc (f_ext jj))
    / cs_math_3_square_norm dc in
  let fctb := times3 dc pfac in
  upd rhsv ii (rhs_add (rhsv ii) fctb).

(** Contribution from boundary faces. *)

Definition boundary_face (x : cs_hyd_externals_t) (g : cs_glob_t)
           (m : cs_mesh_t) (fvq : cs_mesh_quantities_t) (inc : R)
           (f_ext : array cs_real_3_t) (coefap coefbp : array R)
           (rhsv : array cs_real_4_t) (f_id : nat) : array cs_real_4_t :=
  let ii := b_face_cells m f_id in
  let poro := b_poro_duq g f_id in
  let unddij := 1 / b_dist fvq f_id in
  let udbfs := 1 / b_face_surf fvq f_id in
  let umcbdd := (1 - coefbp f_id) * unddij in
  let dsij :=
    R3 (udbfs * cx (b_face_normal fvq f_id) + umcbdd * cx (diipb fvq f_id))
       (udbfs * cy (b_face_normal fvq f_id) + umcbdd * cy (diipb fvq f_id))
       (udbfs * cz (b_face_normal fvq f_id) + umcbdd * cz (diipb fvq f_id)) in
  let pfac :=
    (coefap f_id * inc
     + (coefbp f_id - 1)
       * (rhs_p (rhsv ii)
          + cs_math_3_distance_dot_product x (b_face_cog fvq f_id)
              (cell_cen fvq ii) (f_ext ii)
          + poro))
    * unddij in
  upd rhsv ii (rhs_add (rhsv ii) (times3 dsij pfac)).

(** Compute gradient: [grad[c] = cocg[c] . rhsv[c] + f_ext[c]]. *)

Definition compute_gradient (m : cs_mesh_t) (f_ext : array cs_real_3_t)
           (cocg : array cs_cocg_6_t) (rhsv : array cs_real_4_t)
           (grad : array cs_real_3_t) : array cs_real_3_t :=
  for_loop 0 (n_cells m)
    (fun grad c_id =>
       upd grad c_id
           (add3 (cocg_times_rhs (cocg c_id) (rhs_v (rhsv c_id)))
                 (f_ext c_id)))
    grad.

(** [_lsq_scalar_gradient_hyd_p<e2n>]. *)

Definition _lsq_scalar_gradient_hyd_p
           (x : cs_hyd_externals_t) (g : cs_glob_t)
           (ma : cs_mesh_adjacencies_t) (f_ctb_alloc : array cs_real_3_t)
           (e2n : cs_e2n_sum_t) (m : cs_mesh_t) (fvq : cs_mesh_quantities_t)
           (halo_type : cs_halo_type_t) (recompute_cocg : bool) (inc : R)
           (f_ext : array cs_real_3_t) (coefap coefbp pvar : array R)
           (c_weight_s : option (array R))
           (store : gq_store) (grad : array cs_real_3_t)
  : array cs_real_3_t * gq_store :=
  let '(store, cocg, cocgb) :=
    _get_cell_cocg_lsq g m halo_type fvq None store in
  (* Compute cocg and save contribution at boundaries *)
  let '(cocg, store) :=
    if recompute_cocg then
      let cocg := _recompute_lsq_scalar_cocg m fvq None coefbp cocgb cocg in
      (cocg, store_cocg_lsq m halo_type store cocg)
    else (cocg, store) in
  (* Compute Right-Hand Side *)
  let rhsv : array cs_real_4_t := fun c_id => R4 zero3 (pvar c_id) in
  let rhsv :=
    interior_faces x g ma f_ctb_alloc e2n m fvq f_ext pvar c_weight_s rhsv in
  let rhsv := ext_loop m halo_type (ext_neighbour fvq f_ext) rhsv in
  let rhsv := fold_left (boundary_face x g m fvq inc f_ext coefap coefbp)
                        (b_face_order m) rhsv in
  (* Compute gradient *)
  let grad := compute_gradient m f_ext cocg rhsv grad in
  (_sync_scalar_gradient_halo m CS_HALO_STANDARD grad, store).

End HydP.


(** *** The right-hand side, cell by cell *)

(** Sum of a list of vectors. *)

Definition vsum (l : list cs_real_3_t) : cs_real_3_t :=
  fold_left add3 l zero3.

Module HydPTerms.

Import HydP.

(** The term of an interior face, as [CS_E2N_SUM_STORE_THEN_GATHER] stores
    it in [f_ctb]. *)

Definition face_term (x : cs_hyd_externals_t) (g : cs_glob_t)
           (m : cs_mesh_t) (fvq : cs_mesh_quantities_t)
           (f_ext : array cs_real_3_t) (pvar : array R)
           (c_weight_s : option (array R)) (f_id : nat) : cs_real_3_t :=
  let ii := fst (i_face_cells m f_id) in
  let jj := snd (i_face_cells m f_id) in
  let dc := sub3 (cell_cen fvq jj) (cell_cen fvq ii) in
  let pfac := i_pfac x g fvq f_ext (pvar jj - pvar ii) f_id ii jj in
  match c_weight_s with
  | Some cw =>
      let pond := weight fvq f_id in
      times3 dc (pfac / (pond * cw ii + (1 - pond) * cw jj))
  | None => times3 dc pfac
  end.

(** What cell [c] receives from face [f_id]: the term of the face, times
    the weight of the cell on the other side when there is a weighting. *)

Definition cell_term (x : cs_hyd_externals_t) (g : cs_glob_t)
           (m : cs_mesh_t) (fvq : cs_mesh_quantities_t)
           (f_ext : array cs_real_3_t) (pvar : array R)
           (c_weight_s : option (array R)) (c f_id : nat) : cs_real_3_t :=
  match c_weight_s with
  | Some cw =>
      let other :=
        if (fst (i_face_cells m f_id) =? c)%nat
        then snd (i_face_cells m f_id) else fst (i_face_cells m f_id) in
      smul3 (cw other) (face_term x g m fvq f_ext pvar c_weight_s f_id)
  | None => face_term x g m fvq f_ext pvar c_weight_s f_id
  end.

Definition touches (m : cs_mesh_t) (c f_id : nat) : bool :=
  ((fst (i_face_cells m f_id) =? c) || (snd (i_face_cells m f_id) =? c))%nat.

(** The sum over the interior faces of cell [c], in the order of their
    numbers. *)

Definition interior_sum (x : cs_hyd_externals_t) (g : cs_glob_t)
           (m : cs_mesh_t) (fvq : cs_mesh_quantities_t)
           (f_ext : array cs_real_3_t) (pvar : array R)
           (c_weight_s : option (array R)) (c : nat) : cs_real_3_t :=
  vsum (map (cell_term x g m fvq f_ext pvar c_weight_s c)
            (filter (touches m c) (range 0 (n_i_faces m)))).

(** The blocks of the assembly algorithm hold every interior face once. *)

Definition blocks_cover (x : cs_hyd_externals_t) (m : cs_mesh_t)
           (e2n : cs_e2n_sum_t) : Prop :=
  Permutation (i_face_blocks x m e2n) (range 0 (n_i_faces m)).

(** The two cells of an interior face differ. *)

Definition faces_distinct_cells (m : cs_mesh_t) : Prop :=
  forall f_id, (f_id < n_i_faces m)%nat ->
    fst (i_face_cells m f_id) <> snd (i_face_cells m f_id).

(** The cell adjacencies are those of the mesh: the entries of an owned
    cell [c] list its interior faces once each, with the cell on the other
    side, the sign telling whether [c] is the first cell of the face. *)

Definition adjacency_consistent (ma : cs_mesh_adjacencies_t) (m : cs_mesh_t)
  : Prop :=
  forall c, (c < n_cells m)%nat ->
    (forall i, In i (range (c2c_idx ma c) (c2c_idx ma (c + 1)%nat)) ->
       ((0 < c2f_sgn ma i)%Z
        /\ i_face_cells m (c2f ma i) = (c, c2c ma i))
       \/ ((c2f_sgn ma i <= 0)%Z
           /\ i_face_cells m (c2f ma i) = (c2c ma i, c)))
    /\ Permutation
         (map (c2f ma) (range (c2c_idx ma c) (c2c_idx ma (c + 1)%nat)))
         (filter (touches m c) (range 0 (n_i_faces m))).

(** Two right-hand sides that carry the same variable and agree on the
    owned cells. *)

Definition rhs_agree (n : nat) (r r' : array cs_real_4_t) : Prop :=
  (forall c, rhs_p (r c) = rhs_p (r' c))
  /\ (forall c, (c < n)%nat -> rhs_v (r c) = rhs_v (r' c)).

(** The term that the assembly of the 2-stage algorithm adds to a cell for
    its adjacency [i]. *)

Definition assembled (ma : cs_mesh_adjacencies_t)
           (c_weight_s : option (array R)) (f_ctb : array cs_real_3_t)
           (i : nat) : cs_real_3_t :=
  match c_weight_s with
  | None => f_ctb (c2f ma i)
  | Some cw => smul3 (cw (c2c ma i)) (f_ctb (c2f ma i))
  end.

(** The term that the gather algorithm adds to cell [ii] for its
    adjacency [i]. *)

Definition gathered (x : cs_hyd_externals_t) (g : cs_glob_t)
           (ma : cs_mesh_adjacencies_t) (fvq : cs_mesh_quantities_t)
           (f_ext : array cs_real_3_t) (pvar : array R)
           (c_weight_s : option (array R)) (ii i : nat) : cs_real_3_t :=
  let jj := c2c ma i in
  let f_id := c2f ma i in
  let dc := sub3 (cell_cen fvq jj) (cell_cen fvq ii) in
  let pfac := i_pfac x g fvq f_ext (pvar jj - pvar ii) f_id ii jj in
  match c_weight_s with
  | Some cw =>
      let pond :=
        if (0 <? c2f_sgn ma i)%Z then weight fvq f_id
        else 1 - weight fvq f_id in
      smul3 (cw jj) (times3 dc (pfac / (pond * cw ii + (1 - pond) * cw jj)))
  | None => times3 dc pfac
  end.

(** What an assembly algorithm relies on to add up, in each owned cell,
    the terms of the faces of the cell: the scatter algorithms, that their
    blocks hold every face once; the 2-stage algorithm, this and the cell
    adjacencies; the gather algorithm, the cell adjacencies, and that the
    two porosity terms of a face are equal (as they are without porosity
    fields), since it takes them in the same order from both cells of the
    face. *)

Definition algorithm_ready (x : cs_hyd_externals_t) (g : cs_glob_t)
           (ma : cs_mesh_adjacencies_t) (m : cs_mesh_t)
           (e2n : cs_e2n_sum_t) : Prop :=
  match e2n with
  | CS_E2N_SUM_GATHER =>
      adjacency_consistent ma m
      /\ (forall f_id, i_poro_duq_0 g f_id = i_poro_duq_1 g f_id)
  | CS_E2N_SUM_STORE_THEN_GATHER =>
      blocks_cover x m e2n /\ adjacency_consistent ma m
  | _ => blocks_cover x m e2n
  end.

(** The numbering of the interior faces visits every face once. *)

Definition i_faces_numbered (m : cs_mesh_t) : Prop :=
  Permutation (i_face_order m) (range 0 (n_i_faces m)).

End HydPTerms.

(** ** Contracts of the external collaborators *)

(** The halo exchange writes ghost entries only: entries of owned cells
    are left as they are. *)

Definition halo_keeps_owned (m : cs_mesh_t) : Prop :=
  forall h, halo m = Some h ->
  forall ht i, (i < n_cells m)%nat ->
       (forall a, cs_halo_sync_var h ht a i = a i)
    /\ (forall a, cs_halo_sync_var_strided h ht a i = a i)
    /\ (forall a, cs_halo_perio_sync_var_vect h ht a i = a i).

(** Ghost entries are copies of entries owned elsewhere: an exchanged
    array of non-negative values is non-negative. *)

Definition halo_keeps_nonneg (m : cs_mesh_t) : Prop :=
  forall h, halo m = Some h ->
  forall ht (a : array R), (forall i, 0 <= a i) ->
  forall i, 0 <= cs_halo_sync_var h ht a i.

(** Cell [c] is an end of an interior face visited by the face loops. *)

Definition on_interior_face (m : cs_mesh_t) (c : nat) : Prop :=
  exists f_id, In f_id (i_face_order m)
               /\ (fst (i_face_cells m f_id) = c \/ snd (i_face_cells m f_id) = c).

(** The complement for the extended neighbourhood is active. *)

Definition ext_active (m : cs_mesh_t) (halo_type : cs_halo_type_t) : Prop :=
  cell_cells_idx m <> None /\ halo_type = CS_HALO_EXTENDED.

(** Mesh consistency for the boundary-cell list: every boundary face
    visited by the face loops belongs to a listed boundary cell, and the
    list has no repetition. *)

Definition b_faces_on_b_cells (m : cs_mesh_t) : Prop :=
  forall f_id, In f_id (b_face_order m) ->
  exists ii, (ii < n_b_cells m)%nat /\ b_cells m ii = b_face_cells m f_id.

Definition b_cells_distinct (m : cs_mesh_t) : Prop :=
  forall i j, (i < n_b_cells m)%nat -> (j < n_b_cells m)%nat ->
  b_cells m i = b_cells m j -> i = j.

Definition is_b_cell (m : cs_mesh_t) (c : nat) : Prop :=
  exists ii, (ii < n_b_cells m)%nat /\ b_cells m ii = c.

(** Contract of the coupling's covariance contribution: it adds to cells
    that touch a coupled (boundary) face only. *)

Definition coupling_on_b_cells (m : cs_mesh_t)
           (cpl : option cs_internal_coupling_t) : Prop :=
  forall c, cpl = Some c ->
  forall (cocg : array cs_cocg_6_t) (cell : nat),
    ~ is_b_cell m cell ->
    cs_internal_coupling_lsq_cocg_contribution c cocg cell = cocg cell.

(** The matrices after the restore step and the coupling contribution. *)

Definition restored_cocg (m : cs_mesh_t) (cpl : option cs_internal_coupling_t)
           (cocgb cocg : array cs_cocg_6_t) : array cs_cocg_6_t :=
  match cpl with
  | Some c => cs_internal_coupling_lsq_cocg_contribution c
                (restore_b_cells m cocgb cocg)
  | None => restore_b_cells m cocgb cocg
  end.

(** Boundary-face terms re-accumulated on cell [c], in face order. *)

Definition b_face_terms (m : cs_mesh_t) (fvq : cs_mesh_quantities_t)
           (cpl : option cs_internal_coupling_t) (coefbp : array R) (c : nat)
  : list cs_real_3_t :=
  map (bc_direction fvq coefbp)
      (filter (fun f_id => negb (is_coupled cpl f_id)
                           && Nat.eqb (b_face_cells m f_id) c)
              (b_face_order m)).


(** *** Clipping *)

(** The variation of the variable held by the second array of a pair is
    not negative. *)

Definition denom_nonneg (st : array R * array R) : Prop :=
  forall i, 0 <= snd st i.

(** Every entry of [grad'] is the entry of [grad] rescaled by a factor of
    [0, 1]. *)

Definition rescaled (grad grad' : array cs_real_3_t) : Prop :=
  forall c, exists f, 0 <= f <= 1 /\ grad' c = scale3 f (grad c).

(** *** Zero fields *)

(** An array of vectors vanishes on its first [n] entries. *)

Definition zero_on (n : nat) (a : array cs_real_3_t) : Prop :=
  forall c, (c < n)%nat -> a c = zero3.

(** A least-squares right-hand side vanishes, together with the variable
    it carries, on its first [n] entries. *)

Definition rhs_zero_on (n : nat) (rhsv : array cs_real_4_t) : Prop :=
  forall i, (i < n)%nat -> rhsv i = R4 zero3 0.

(** Mesh consistency for the cell indices: ghost cells exist only with a
    halo, interior faces and extended neighbours designate cells of the
    local range (owned or ghost), boundary faces designate owned cells. *)

Definition mesh_in_range (m : cs_mesh_t) : Prop :=
  (n_cells m <= n_cells_with_ghosts m)%nat
  /\ (halo m = None -> n_cells_with_ghosts m = n_cells m)
  /\ (forall f_id, In f_id (i_face_order m) ->
        (fst (i_face_cells m f_id) < n_cells_with_ghosts m)%nat
        /\ (snd (i_face_cells m f_id) < n_cells_with_ghosts m)%nat)
  /\ (forall f_id, In f_id (b_face_order m) ->
        (b_face_cells m f_id < n_cells m)%nat)
  /\ (forall idx ii jj, cell_cells_idx m = Some idx -> (ii < n_cells m)%nat ->
        In jj (ext_neighbours m idx ii) -> (jj < n_cells_with_ghosts m)%nat).

(** Ghost entries are copies (rotated, for a periodicity of rotation) of
    entries owned elsewhere, where the field vanishes as well: an array
    that vanishes on the owned cells vanishes on the ghost cells after the
    exchange. *)

Definition halo_keeps_zero (m : cs_mesh_t) : Prop :=
  forall h, halo m = Some h -> forall ht,
       (forall a : array R,
           (forall c, (c < n_cells m)%nat -> a c = 0) ->
           forall c, (c < n_cells_with_ghosts m)%nat ->
                     cs_halo_sync_var h ht a c = 0)
    /\ (forall a, zero_on (n_cells m) a ->
                  zero_on (n_cells_with_ghosts m)
                          (cs_halo_sync_var_strided h ht a))
    /\ (forall a, zero_on (n_cells_with_ghosts m) a ->
                  zero_on (n_cells_with_ghosts m)
                          (cs_halo_perio_sync_var_vect h ht a)).

(** The contributions of coupled faces are linear in the variable and in
    the gradient they are given: they add nothing for a field and a
    gradient that vanish. *)

Definition coupling_keeps_zero (m : cs_mesh_t)
           (cpl : option cs_internal_coupling_t) : Prop :=
  forall c, cpl = Some c ->
       (forall c_weight (pvar : array R) grad,
           (forall i, (i < n_cells_with_ghosts m)%nat -> pvar i = 0) ->
           zero_on (n_cells_with_ghosts m) grad ->
           zero_on (n_cells_with_ghosts m)
             (cs_internal_coupling_initialize_scalar_gradient
                c c_weight pvar grad))
    /\ (forall r_grad grad,
           zero_on (n_cells_with_ghosts m) r_grad ->
           zero_on (n_cells_with_ghosts m) grad ->
           zero_on (n_cells_with_ghosts m)
             (cs_internal_coupling_reconstruct_scalar_gradient c r_grad grad))
    /\ (forall c_weight w_stride (rhsv : array cs_real_4_t),
           (forall i, (i < n_cells_with_ghosts m)%nat -> rhsv i = R4 zero3 0) ->
           forall i, (i < n_cells_with_ghosts m)%nat ->
             cs_internal_coupling_lsq_scalar_gradient c c_weight w_stride
                                                      rhsv i
             = R4 zero3 0).

(** The regularisation of bad cells, when it is switched on, and the sum
    over the ranks leave a vanishing quantity as it is; the threshold
    [cs_math_epzero] is not negative. *)

Definition globals_keep_zero (g : cs_glob_t) (m : cs_mesh_t) : Prop :=
  (CS_BAD_CELLS_REGULARISATION g = true ->
   forall a, zero_on (n_cells m) a ->
             zero_on (n_cells m) (cs_bad_cells_regularisation_vector g a))
  /\ ((1 < cs_glob_n_ranks g)%nat -> MPI_Allreduce_sum g 0 = 0)
  /\ 0 <= cs_math_epzero g.

(** Homogeneous Neumann coefficients, given or left out: [a] is 0 and [b]
    is 1 on every boundary face. *)

Definition neumann_a (m : cs_mesh_t) (bc_coeff_a : option (array R)) : Prop :=
  match bc_coeff_a with
  | Some a => forall f_id, In f_id (b_face_order m) -> a f_id = 0
  | None => True
  end.

Definition neumann_b (m : cs_mesh_t) (bc_coeff_b : option (array R)) : Prop :=
  match bc_coeff_b with
  | Some b => forall f_id, In f_id (b_face_order m) -> b f_id = 1
  | None => True
  end.

(** *** Output arrays *)

(** Two arrays of vectors hold the same first [n] entries. *)

Definition agree_on (n : nat) (a a' : array cs_real_3_t) : Prop :=
  forall c, (c < n)%nat -> a c = a' c.

(** What the exchange writes to the ghost entries is determined by owned
    entries (of this rank and of the others, which compute alike); the
    rotation of periodic ghost entries is determined by the local
    entries. *)

Definition halo_from_owned (m : cs_mesh_t) : Prop :=
  forall h, halo m = Some h -> forall ht,
       (forall a a', agree_on (n_cells m) a a' ->
                     agree_on (n_cells_with_ghosts m)
                              (cs_halo_sync_var_strided h ht a)
                              (cs_halo_sync_var_strided h ht a'))
    /\ (forall a a', agree_on (n_cells_with_ghosts m) a a' ->
                     agree_on (n_cells_with_ghosts m)
                              (cs_halo_perio_sync_var_vect h ht a)
                              (cs_halo_perio_sync_var_vect h ht a')).

(** The coupling reads and writes entries of local cells only. *)

Definition coupling_reads_local (m : cs_mesh_t)
           (cpl : option cs_internal_coupling_t) : Prop :=
  forall c, cpl = Some c ->
  forall r_grad r_grad' grad grad',
    agree_on (n_cells_with_ghosts m) r_grad r_grad' ->
    agree_on (n_cells_with_ghosts m) grad grad' ->
    agree_on (n_cells_with_ghosts m)
      (cs_internal_coupling_reconstruct_scalar_gradient c r_grad grad)
      (cs_internal_coupling_reconstruct_scalar_gradient c r_grad' grad').

(** The regularisation of bad cells, when it is switched on, determines
    the owned entries from the owned entries. *)

Definition regularisation_from_owned (g : cs_glob_t) (m : cs_mesh_t) : Prop :=
  CS_BAD_CELLS_REGULARISATION g = true ->
  forall a a', agree_on (n_cells m) a a' ->
               agree_on (n_cells m)
                        (cs_bad_cells_regularisation_vector g a)
                        (cs_bad_cells_regularisation_vector g a').

(** ** Least-squares gradient at a boundary cell *)

(** Seen from cell [c], the boundary condition of face [f_id] is the one of
    the field [G . x + k]: from the value at [I'] (the cell value moved by
    [diipb]) it returns the value at the point that lies [b_dist] away
    from [I'] along the unit normal,
    [coefap * inc + coefbp * p(I') = p(I') + b_dist * (G . n)]. *)

Definition bc_consistent (fvq : cs_mesh_quantities_t) (G : cs_real_3_t)
           (inc : R) (coefap coefbp pvar : array R) (c f_id : nat) : Prop :=
  let p_ip := pvar c + dot3 G (diipb fvq f_id) in
  let n := smul3 (1 / b_face_surf fvq f_id) (b_face_normal fvq f_id) in
  coefap f_id * inc + coefbp f_id * p_ip
  = p_ip + b_dist fvq f_id * dot3 G n.

(** The covariance sum of a cell as the recomputation leaves it before the
    inversion: the interior part and the terms of the boundary faces of
    the cell. *)

Definition cocg_lsq_total (m : cs_mesh_t) (extended : bool)
           (fvq : cs_mesh_quantities_t) (coefbp : array R) (c : nat)
  : cs_cocg_6_t :=
  fold_left cocg_add_outer (b_face_terms m fvq None coefbp c)
            (cocg_lsq_interior m extended fvq c).

(** ** The covariance terms of the boundary faces, written out *)

(** Sum of two packed symmetric matrices, and the matrix [d d^T] of a
    vector [d] in the packed layout (xx, yy, zz, xy, yz, xz). *)

Definition add_6 (a b : cs_cocg_6_t) : cs_cocg_6_t :=
  Cocg (a0 a + a0 b) (a1 a + a1 b) (a2 a + a2 b)
       (a3 a + a3 b) (a4 a + a4 b) (a5 a + a5 b).

Definition outer_6 (d : cs_real_3_t) : cs_cocg_6_t :=
  Cocg (cx d * cx d) (cy d * cy d) (cz d * cz d)
       (cx d * cy d) (cy d * cz d) (cx d * cz d).

(** The vector of boundary face [f_id]: the unit normal [n / S] plus
    [(1 - b) / d] times the vector [II'], with [b] the boundary
    coefficient and [d] the distance to the wall. *)

Definition boundary_face_vector (fvq : cs_mesh_quantities_t)
           (coefbp : array R) (f_id : nat) : cs_real_3_t :=
  let n := b_face_normal fvq f_id in
  let s := b_face_surf fvq f_id in
  let k := (1 - coefbp f_id) / b_dist fvq f_id in
  R3 (cx n / s + k * cx (diipb fvq f_id))
     (cy n / s + k * cy (diipb fvq f_id))
     (cz n / s + k * cz (diipb fvq f_id)).

(** The boundary faces of cell [c] that are not coupled, and the sum of
    their covariance terms. *)

Definition boundary_faces_of (m : cs_mesh_t)
           (cpl : option cs_internal_coupling_t) (c : nat) : list nat :=
  filter (fun f_id => negb (is_coupled cpl f_id)
                      && Nat.eqb (b_face_cells m f_id) c)
         (b_face_order m).

Definition boundary_covariance (m : cs_mesh_t) (fvq : cs_mesh_quantities_t)
           (cpl : option cs_internal_coupling_t) (coefbp : array R) (c : nat)
  : cs_cocg_6_t :=
  fold_right (fun f_id acc => add_6 (outer_6 (boundary_face_vector fvq coefbp f_id)) acc)
             zero6 (boundary_faces_of m cpl c).

(** The array [cocg] in which the entries of the listed boundary cells
    are replaced by the saved sums [cocgb]. *)

Definition saved_over (m : cs_mesh_t) (cocgb cocg : array cs_cocg_6_t)
  : array cs_cocg_6_t :=
  fun c =>
    match find (fun ii => Nat.eqb (b_cells m ii) c) (range 0 (n_b_cells m)) with
    | Some ii => cocgb ii
    | None => cocg c
    end.
(** ** Non-degenerate geometry: no division by zero *)

(** The quotients and the inverses of the drivers are taken in [R], where
    they are total.  The predicates below list, stage by stage, the
    divisors that a scalar gradient call meets, and say that none of them
    vanishes. *)

(** The volume that scales the Green-Gauss sum of an owned cell that is
    not disabled. *)

Definition volumes_regular (g : cs_glob_t) (m : cs_mesh_t)
           (fvq : cs_mesh_quantities_t) : Prop :=
  forall c_id, (c_id < n_cells m)%nat ->
    let has_dc := has_disable_flag fvq in
    (Z.of_nat has_dc * c_disable_flag fvq (has_dc * c_id)%nat)%Z = 0%Z ->
    cell_f_vol_used g fvq c_id <> 0.

(** The denominator of the face weight [ktpond]: the interpolated weight
    of the face (scalar weighting), or the determinant of the interpolated
    tensor (tensor weighting). *)

Definition weighting_regular (m : cs_mesh_t) (fvq : cs_mesh_quantities_t)
           (w : weighting) : Prop :=
  forall f_id, In f_id (i_face_order m) ->
    let ii := fst (i_face_cells m f_id) in
    let jj := snd (i_face_cells m f_id) in
    let pond := weight fvq f_id in
    match w with
    | W_none => True
    | W_scalar c_weight_s =>
        pond * c_weight_s ii + (1 - pond) * c_weight_s jj <> 0
    | W_tensor c_weight_t =>
        det_6 (ani_sum (c_weight_t ii) (c_weight_t jj) pond) <> 0
    end.

(** The Green-Gauss sums of the initialisation and of the reconstruction. *)

Definition green_regular (g : cs_glob_t) (m : cs_mesh_t)
           (fvq : cs_mesh_quantities_t) (w_stride : Z)
           (c_weight : option (array R)) : Prop :=
  volumes_regular g m fvq
  /\ weighting_regular m fvq (weighting_of w_stride c_weight).

(** The matrices of [_compute_cell_cocg_it] as they stand before they are
    inverted. *)

Definition cocg_it_sums (m : cs_mesh_t) (fvq : cs_mesh_quantities_t)
           (ce : option cs_internal_coupling_t) : array cs_real_33_t :=
  let cocg : array cs_real_33_t := fun _ => identity_33 in
  let cocg := for_loop 0 (n_i_faces m) (cocg_it_i_face m fvq) cocg in
  match ce with
  | Some c => cs_internal_coupling_it_cocg_contribution c cocg
  | None => cocg
  end.

(** The iterative driver: when the cache holds no matrices, the volumes
    of the cells of the interior faces and the determinants of the
    matrices it builds. *)

Definition iterative_regular (m : cs_mesh_t) (fvq : cs_mesh_quantities_t)
           (cpl : option cs_internal_coupling_t) (store : gq_store) : Prop :=
  cocg_it (gq_at (_gradient_quantities_get (gq_id_of cpl) store)
                 (gq_id_of cpl)) = None ->
  (forall f_id, (f_id < n_i_faces m)%nat ->
     cell_vol fvq (fst (i_face_cells m f_id)) <> 0
     /\ cell_vol fvq (snd (i_face_cells m f_id)) <> 0)
  /\ (forall c_id, (c_id < n_cells m)%nat ->
        det_33 (cocg_it_sums m fvq cpl c_id) <> 0).

(** Surface and distance to the wall of the boundary faces that are not
    coupled. *)

Definition b_faces_regular (m : cs_mesh_t) (fvq : cs_mesh_quantities_t)
           (cpl : option cs_internal_coupling_t) : Prop :=
  forall f_id, In f_id (b_face_order m) -> is_coupled cpl f_id = false ->
    b_dist fvq f_id <> 0 /\ b_face_surf fvq f_id <> 0.

(** The matrices of [_compute_cell_cocg_lsq] as they stand before they
    are inverted. *)

Definition cocg_lsq_sums (g : cs_glob_t) (m : cs_mesh_t) (extended : bool)
           (fvq : cs_mesh_quantities_t) (ce : option cs_internal_coupling_t)
  : array cs_cocg_6_t :=
  let cocg : array cs_cocg_6_t := fun _ => zero6 in
  let cocg := fold_left (cocg_lsq_i_face m fvq) (i_face_order m) cocg in
  let cocg :=
    match ce with
    | Some c => cs_internal_coupling_lsq_cocg_contribution c cocg
    | None => cocg
    end in
  let cocg :=
    if extended then
      match cell_cells_idx m with
      | Some idx =>
          for_loop 0 (n_cells m)
            (fun cocg ii =>
               fold_left (cocg_lsq_neighbour fvq ii) (ext_neighbours m idx ii)
                         cocg)
            cocg
      | None => cocg
      end
    else cocg in
  fold_left (cocg_lsq_b_face_sym g m fvq ce) (b_face_order m) cocg.

(** The matrices of [_recompute_lsq_scalar_cocg] as they stand before
    they are inverted. *)

Definition cocg_recompute_sums (m : cs_mesh_t) (fvq : cs_mesh_quantities_t)
           (cpl : option cs_internal_coupling_t) (coefbp : array R)
           (cocgb cocg : array cs_cocg_6_t) : array cs_cocg_6_t :=
  let cocg := restore_b_cells m cocgb cocg in
  let cocg :=
    match cpl with
    | Some c => cs_internal_coupling_lsq_cocg_contribution c cocg
    | None => cocg
    end in
  fold_left (recompute_b_face m fvq cpl coefbp) (b_face_order m) cocg.

(** The isotropic least-squares driver: distinct centres, regular
    boundary faces, the interpolated weight of each interior face, the
    determinants of the matrices built when the cache holds none, and the
    determinants of the matrices that the recomputation at the boundary
    cells builds from the cache. *)

Definition lsq_regular (g : cs_glob_t) (m : cs_mesh_t)
           (fvq : cs_mesh_quantities_t) (cpl : option cs_internal_coupling_t)
           (halo_type : cs_halo_type_t) (coefbp : array R)
           (c_weight : option (array R)) (store : gq_store) : Prop :=
  centres_distinct m fvq
  /\ b_faces_regular m fvq cpl
  /\ (forall f_id cw, In f_id (i_face_order m) -> c_weight = Some cw ->
        weight fvq f_id * cw (fst (i_face_cells m f_id))
        + (1 - weight fvq f_id) * cw (snd (i_face_cells m f_id)) <> 0)
  /\ (lsq_cache_empty m halo_type store ->
      forall c_id, (c_id < n_cells m)%nat ->
        det_6 (cocg_lsq_sums g m (is_extended m halo_type) fvq None c_id)
        <> 0)
  /\ (forall ii, (ii < n_b_cells m)%nat ->
        let '(_, cocg, cocgb) :=
          _get_cell_cocg_lsq g m halo_type fvq None store in
        det_6 (cocg_recompute_sums m fvq cpl coefbp cocgb cocg (b_cells m ii))
        <> 0).

(** The matrices and right-hand sides of [_lsq_scalar_gradient_ani] as
    they stand before the matrices are inverted. *)

Definition ani_sums (m : cs_mesh_t) (fvq : cs_mesh_quantities_t)
           (cpl : option cs_internal_coupling_t) (inc : R)
           (coefap coefbp pvar : array R) (c_weight_t : array cs_cocg_6_t)
           (c_weight : array R) : array cs_cocg_6_t * array cs_real_4_t :=
  let cocg : array cs_cocg_6_t := fun _ => zero6 in
  let rhsv : array cs_real_4_t := fun c_id => R4 zero3 (pvar c_id) in
  let '(cocg, rhsv) :=
    fold_left (ani_i_face m fvq c_weight_t) (i_face_order m) (cocg, rhsv) in
  let '(cocg, rhsv) :=
    match cpl with
    | Some c =>
        (cs_internal_coupling_lsq_cocg_weighted c c_weight_t cocg,
         cs_internal_coupling_lsq_scalar_gradient c (Some c_weight) 6 rhsv)
    | None => (cocg, rhsv)
    end in
  fold_left (ani_b_face m fvq cpl inc coefap coefbp) (b_face_order m)
            (cocg, rhsv).

(** The least-squares driver with a tensor weighting: the determinants
    of the weighting tensors of the two cells of a face, the squared norms
    of the two weighted distance vectors, regular boundary faces, and
    the determinants of the matrices (which depend neither on the field
    nor on [coefap] and [inc]). *)

Definition ani_regular (m : cs_mesh_t) (fvq : cs_mesh_quantities_t)
           (cpl : option cs_internal_coupling_t) (coefbp : array R)
           (c_weight : array R) : Prop :=
  let c_weight_t := as_tensor_weight c_weight in
  (forall f_id, In f_id (i_face_order m) ->
     let ii := fst (i_face_cells m f_id) in
     let jj := snd (i_face_cells m f_id) in
     let dc := sub3 (cell_cen fvq jj) (cell_cen fvq ii) in
     let k_d :=
       _compute_ani_weighting_cocg (c_weight_t ii) (c_weight_t jj) dc
                                   (weight fvq f_id) in
     det_6 (c_weight_t ii) <> 0 /\ det_6 (c_weight_t jj) <> 0
     /\ dot3 (fst k_d) (fst k_d) <> 0 /\ dot3 (snd k_d) (snd k_d) <> 0)
  /\ b_faces_regular m fvq cpl
  /\ (forall inc coefap pvar c_id, (c_id < n_cells m)%nat ->
        det_6 (fst (ani_sums m fvq cpl inc coefap coefbp pvar c_weight_t
                             c_weight) c_id) <> 0).

(** The least-squares stage without hydrostatic treatment: the driver is
    chosen as in [lsq_stage]. *)

Definition lsq_stage_regular (g : cs_glob_t) (m : cs_mesh_t)
           (fvq : cs_mesh_quantities_t) (cpl : option cs_internal_coupling_t)
           (halo_type : cs_halo_type_t) (w_stride : Z) (coefbp : array R)
           (c_weight : option (array R)) (store : gq_store) : Prop :=
  match (w_stride =? 6)%Z, c_weight with
  | true, Some cw => ani_regular m fvq cpl coefbp cw
  | _, _ => lsq_regular g m fvq cpl halo_type coefbp c_weight store
  end.

(** The weighting that [cs_gradient_scalar] hands to [_gradient_scalar]:
    the array it is given, after the halo exchange. *)

Definition synced_c_weight (m : cs_mesh_t) (halo_type : cs_halo_type_t)
           (w_stride : Z) (c_weight : option (array R))
  : option (array R) :=
  match halo m with
  | Some h =>
      match c_weight with
      | Some cw =>
          if (w_stride =? 6)%Z then
            Some (of_tensor_weight
                    (cs_halo_perio_sync_var_sym_tens h halo_type
                       (cs_halo_sync_var_strided_6 h halo_type
                          (as_tensor_weight cw))))
          else Some (cs_halo_sync_var h halo_type cw)
      | None => None
      end
  | None => c_weight
  end.

(** A scalar gradient call without hydrostatic treatment meets no
    vanishing divisor: the stages are those of [_gradient_scalar] for the
    scheme asked for, with the boundary coefficient [bc_coeff_b] (1 when
    it is left out) and the cache [store] at entry. *)

Definition gradient_regular (g : cs_glob_t) (m : cs_mesh_t)
           (fvq : cs_mesh_quantities_t) (cpl : option cs_internal_coupling_t)
           (gradient_type : cs_gradient_type_t) (halo_type : cs_halo_type_t)
           (w_stride : Z) (bc_coeff_b : option (array R))
           (c_weight : option (array R)) (store : gq_store) : Prop :=
  let coefbp := match bc_coeff_b with Some b => b | None => fun _ => 1 end in
  match gradient_type with
  | CS_GRADIENT_GREEN_ITER =>
      green_regular g m fvq w_stride c_weight
      /\ iterative_regular m fvq cpl store
  | CS_GRADIENT_LSQ =>
      lsq_stage_regular g m fvq cpl halo_type w_stride coefbp c_weight store
  | CS_GRADIENT_GREEN_LSQ =>
      lsq_stage_regular g m fvq cpl halo_type w_stride coefbp c_weight store
      /\ green_regular g m fvq w_stride c_weight
  | CS_GRADIENT_GREEN_VTX => True
  end.
(** ** Drivers taken as they come: what the dispatch relies on *)

(** Two arrays of 3x3 gradients, or of 6x3 gradients, hold the same first
    [n] entries. *)

Definition agree_33 (n : nat) (a a' : array cs_real_33_t) : Prop :=
  forall c, (c < n)%nat -> a c = a' c.

Definition agree_63 (n : nat) (a a' : array cs_real_63_t) : Prop :=
  forall c i j, (c < n)%nat -> a c i j = a' c i j.

Section Stages.

Context {G : Type} (agree : G -> G -> Prop).

(** A driver that computes its output afresh: what it returns does not
    depend on what the output array held. *)

Definition fills
           (F : cs_gradient_env_t * G -> cs_gradient_env_t * G) : Prop :=
  forall env grad grad',
    fst (F (env, grad)) = fst (F (env, grad'))
    /\ agree (snd (F (env, grad))) (snd (F (env, grad'))).

(** A driver that works on the array it is given: from arrays with the
    same entries it returns arrays with the same entries. *)

Definition carries
           (F : cs_gradient_env_t * G -> cs_gradient_env_t * G) : Prop :=
  forall env grad grad', agree grad grad' ->
    fst (F (env, grad)) = fst (F (env, grad'))
    /\ agree (snd (F (env, grad))) (snd (F (env, grad'))).

End Stages.

(** The hydrostatic least-squares driver determines the gradient of
    every local cell from its inputs. *)

Definition hyd_p_fills (m : cs_mesh_t) (drv : cs_gradient_drivers_t) : Prop :=
  forall e2n fvq halo_type recompute_cocg inc f_ext coefap coefbp pvar
         c_weight store grad grad',
    agree_on (n_cells_with_ghosts m)
      (fst (_lsq_scalar_gradient_hyd_p drv e2n m fvq halo_type recompute_cocg
              inc f_ext coefap coefbp pvar c_weight store grad))
      (fst (_lsq_scalar_gradient_hyd_p drv e2n m fvq halo_type recompute_cocg
              inc f_ext coefap coefbp pvar c_weight store grad')).

(** The drivers of the vector gradient: the initialisation and the
    least-squares driver compute their output afresh, the iterative
    driver and the clipping work on the gradient they are given, the
    reconstruction computes its output from the gradient it reconstructs
    with, and the regularisation of bad cells determines the owned entries
    from the local ones. *)

Definition vector_drivers_fill (m : cs_mesh_t) (drv : cs_gradient_drivers_t)
  : Prop :=
  let agree := agree_33 (n_cells_with_ghosts m) in
  (forall fvq cpl halo_type inc coefav coefbv pvar c_weight,
      fills agree (_initialize_vector_gradient drv m fvq cpl halo_type inc
                     coefav coefbv pvar c_weight))
  /\ (forall fvq cpl var_name halo_type inc n_r_sweeps verbosity epsilon
             coefav coefbv pvar c_weight,
        carries agree (_iterative_vector_gradient drv m fvq cpl var_name
                         halo_type inc n_r_sweeps verbosity epsilon coefav
                         coefbv pvar c_weight))
  /\ (forall fvq cpl halo_type inc coefav coefbv pvar c_weight,
        fills agree (_lsq_vector_gradient drv m fvq cpl halo_type inc coefav
                       coefbv pvar c_weight))
  /\ (forall fvq halo_type clip_mode verbosity climgp var_name pvar,
        carries agree (_vector_gradient_clipping drv m fvq halo_type
                         clip_mode verbosity climgp var_name pvar))
  /\ (forall fvq cpl halo_type inc coefav coefbv pvar c_weight r_grad r_grad'
             env grad grad',
        agree r_grad r_grad' ->
        fst (_reconstruct_vector_gradient drv m fvq cpl halo_type inc coefav
               coefbv pvar c_weight r_grad (env, grad))
        = fst (_reconstruct_vector_gradient drv m fvq cpl halo_type inc
                 coefav coefbv pvar c_weight r_grad' (env, grad'))
        /\ agree
             (snd (_reconstruct_vector_gradient drv m fvq cpl halo_type inc
                     coefav coefbv pvar c_weight r_grad (env, grad)))
             (snd (_reconstruct_vector_gradient drv m fvq cpl halo_type inc
                     coefav coefbv pvar c_weight r_grad' (env, grad'))))
  /\ (forall a a', agree a a' ->
        agree_33 (n_cells m) (cs_bad_cells_regularisation_tensor drv a)
                 (cs_bad_cells_regularisation_tensor drv a')).

(** The drivers of the tensor gradient, likewise. *)

Definition tensor_drivers_fill (m : cs_mesh_t) (drv : cs_gradient_drivers_t)
  : Prop :=
  let agree := agree_63 (n_cells_with_ghosts m) in
  (forall fvq halo_type inc coefat coefbt pvar,
      fills agree (_initialize_tensor_gradient drv m fvq halo_type inc coefat
                     coefbt pvar))
  /\ (forall fvq var_name halo_type inc n_r_sweeps verbosity epsilon coefat
             coefbt pvar,
        carries agree (_iterative_tensor_gradient drv m fvq var_name
                         halo_type inc n_r_sweeps verbosity epsilon coefat
                         coefbt pvar))
  /\ (forall fvq halo_type inc coefat coefbt pvar c_weight,
        fills agree (_lsq_tensor_gradient drv m fvq halo_type inc coefat
                       coefbt pvar c_weight))
  /\ (forall fvq halo_type clip_mode verbosity climgp var_name pvar,
        carries agree (_tensor_gradient_clipping drv m fvq halo_type
                         clip_mode verbosity climgp var_name pvar)).

(** The cache as the module leaves it: the saved sums of the boundary
    cells are there only with the matrices, which is what
    [assert(cocgb == NULL)] checks in [_compute_cell_cocg_lsq] before it
    allocates both. *)

Definition cache_consistent (store : gq_store) : Prop :=
  forall gq, In gq store ->
    (cocg_lsq gq = None -> cocgb_s_lsq gq = None)
    /\ (cocg_lsq_ext gq = None -> cocgb_s_lsq_ext gq = None).
(** ** Concrete meshes and settings used as witnesses *)

Module Examples.

(** Settings of a sequential run without porosity or bad-cell options. *)

Definition glob0 : cs_glob_t := {|
  cs_glob_porous_model := 0%Z;
  NDEBUG := false;
  cs_glob_e2n_sum_type := _e2n_sum_type;
  CS_BAD_CELLS_WARPED_CORRECTION := false;
  CS_BAD_CELLS_REGULARISATION := false;
  cs_bad_cells_regularisation_vector := fun grad => grad;
  poro_duq := None;
  cs_math_epzero := / 10 ^ 12;
  cs_math_3_normalize := fun v => scale3 (1 / norm3 v) v;
  cs_glob_n_ranks := 1%nat;
  MPI_Allreduce_sum := fun x => x;
  MPI_Allreduce_max := fun x => x;
  MPI_Allreduce_min := fun x => x;
  MPI_Allreduce_sum_gnum := fun n => n
|}.

(** A numbering with one thread and one group holding faces [0 .. n). *)

Definition numbering_upto (n : nat) : cs_numbering_t := {|
  n_threads := 1%nat;
  n_groups := 1%nat;
  group_index := fun k => match k with O => O | _ => n end
|}.

(** Two cells sharing one interior face, no boundary face, no halo. *)

Definition mesh_2 : cs_mesh_t := {|
  n_cells := 2%nat;
  n_cells_with_ghosts := 2%nat;
  n_i_faces := 1%nat;
  n_b_faces := 0%nat;
  n_b_cells := 0%nat;
  b_cells := fun _ => O;
  i_face_cells := fun _ => (0%nat, 1%nat);
  b_face_cells := fun _ => O;
  cell_cells_idx := None;
  cell_cells_lst := fun _ => O;
  i_face_numbering := numbering_upto 1;
  b_face_numbering := numbering_upto 0;
  halo := None;
  have_rotation_perio := false;
  n_domains := 1%nat
|}.

(** One cell closed by a single boundary face, no halo. *)

Definition mesh_1 : cs_mesh_t := {|
  n_cells := 1%nat;
  n_cells_with_ghosts := 1%nat;
  n_i_faces := 0%nat;
  n_b_faces := 1%nat;
  n_b_cells := 1%nat;
  b_cells := fun _ => O;
  i_face_cells := fun _ => (0%nat, 0%nat);
  b_face_cells := fun _ => O;
  cell_cells_idx := None;
  cell_cells_lst := fun _ => O;
  i_face_numbering := numbering_upto 0;
  b_face_numbering := numbering_upto 1;
  halo := None;
  have_rotation_perio := false;
  n_domains := 1%nat
|}.

(** Unit geometry: cell [c] is centred at [(c, 0, 0)], every face has the
    unit normal [(1, 0, 0)], unit surface and distance, and its centre of
    gravity at [(1, 0, 0)]. *)

Definition fvq_unit : cs_mesh_quantities_t := {|
  cell_cen := fun c => R3 (INR c) 0 0;
  cell_vol := fun _ => 1;
  cell_f_vol := fun _ => 1;
  i_face_normal := fun _ => R3 1 0 0;
  b_face_normal := fun _ => R3 1 0 0;
  i_f_face_normal := fun _ => R3 1 0 0;
  b_f_face_normal := fun _ => R3 1 0 0;
  i_face_cog := fun _ => R3 1 0 0;
  b_face_cog := fun _ => R3 1 0 0;
  b_face_surf := fun _ => 1;
  b_dist := fun _ => 1;
  weight := fun _ => 0.5;
  dofij := fun _ => R3 0 0 0;
  diipb := fun _ => R3 0 0 0;
  corr_grad_lin := fun _ => identity_33;
  c_disable_flag := fun _ => 0%Z;
  has_disable_flag := 0%nat
|}.

(** A uniform field and a uniform gradient along x. *)

Definition var_zero : array R := fun _ => 0.
Definition grad_x : array cs_real_3_t := fun _ => R3 1 0 0.

(** Homogeneous Neumann coefficients and no exterior force. *)

Definition coefa_zero : array R := fun _ => 0.
Definition coefb_one : array R := fun _ => 1.
Definition f_ext_zero : array cs_real_3_t := fun _ => zero3.

(* Coefficients that are homogeneous Neumann on face 0 only. *)
Definition coefa_face_0 : array R :=
  fun f_id => match f_id with O => 0 | _ => 7 end.

Definition coefb_face_0 : array R :=
  fun f_id => match f_id with O => 1 | _ => 3 end.

(** A unit exterior force along x. *)

Definition f_ext_x : array cs_real_3_t := fun _ => R3 1 0 0.

(** Stand-ins for the drivers that are not embedded: each returns what it
    is given. *)

Definition drivers_idle : cs_gradient_drivers_t := {|
  _lsq_scalar_gradient_hyd_p :=
    fun _ _ _ _ _ _ _ _ _ _ _ store grad => (grad, store);
  _initialize_vector_gradient := fun _ _ _ _ _ _ _ _ _ s => s;
  _iterative_vector_gradient := fun _ _ _ _ _ _ _ _ _ _ _ _ _ s => s;
  _lsq_vector_gradient := fun _ _ _ _ _ _ _ _ _ s => s;
  _vector_gradient_clipping := fun _ _ _ _ _ _ _ _ s => s;
  _reconstruct_vector_gradient := fun _ _ _ _ _ _ _ _ _ _ s => s;
  cs_bad_cells_regularisation_tensor := fun grad => grad;
  _initialize_tensor_gradient := fun _ _ _ _ _ _ _ s => s;
  _iterative_tensor_gradient := fun _ _ _ _ _ _ _ _ _ _ _ s => s;
  _lsq_tensor_gradient := fun _ _ _ _ _ _ _ _ s => s;
  _tensor_gradient_clipping := fun _ _ _ _ _ _ _ _ s => s
|}.

(** Stand-ins that compute afresh: the drivers that initialise a gradient
    return the zero gradient, the reconstruction returns the gradient it
    reconstructs with, and the others return what they are given. *)

Definition drivers_fresh : cs_gradient_drivers_t := {|
  _lsq_scalar_gradient_hyd_p :=
    fun _ _ _ _ _ _ _ _ _ _ _ store _ => (fun _ => zero3, store);
  _initialize_vector_gradient :=
    fun _ _ _ _ _ _ _ _ _ s => (fst s, fun _ => M33 0 0 0 0 0 0 0 0 0);
  _iterative_vector_gradient := fun _ _ _ _ _ _ _ _ _ _ _ _ _ s => s;
  _lsq_vector_gradient :=
    fun _ _ _ _ _ _ _ _ _ s => (fst s, fun _ => M33 0 0 0 0 0 0 0 0 0);
  _vector_gradient_clipping := fun _ _ _ _ _ _ _ _ s => s;
  _reconstruct_vector_gradient := fun _ _ _ _ _ _ _ _ _ r s => (fst s, r);
  cs_bad_cells_regularisation_tensor := fun grad => grad;
  _initialize_tensor_gradient :=
    fun _ _ _ _ _ _ _ s => (fst s, fun _ _ _ => 0);
  _iterative_tensor_gradient := fun _ _ _ _ _ _ _ _ _ _ _ s => s;
  _lsq_tensor_gradient := fun _ _ _ _ _ _ _ _ s => (fst s, fun _ _ _ => 0);
  _tensor_gradient_clipping := fun _ _ _ _ _ _ _ _ s => s
|}.

End Examples.

(** ** Further concrete cases used as witnesses *)

Module Cases.

(** Cell 0 with the three face neighbours 1, 2 and 3 and one boundary
    face; no extended neighbourhood. *)

Definition ma_star : CellGradient.cs_mesh_adjacencies_t := {|
  CellGradient.cell_cells_idx := fun c => match c with O => 0%nat | _ => 3%nat end;
  CellGradient.cell_cells := fun i => S i;
  CellGradient.cell_cells_e_idx := None;
  CellGradient.cell_cells_e := fun _ => O;
  CellGradient.cell_b_faces_idx := fun c => match c with O => 0%nat | _ => 1%nat end;
  CellGradient.cell_b_faces := fun _ => O
|}.

(** Cell 0 at the origin, its neighbours one unit away along x, y and z,
    and the centre of the boundary face one unit away along -x. *)

Definition fvq_star : cs_mesh_quantities_t := {|
  cell_cen := fun c => match c with
                       | 0%nat => R3 0 0 0
                       | 1%nat => R3 1 0 0
                       | 2%nat => R3 0 1 0
                       | _ => R3 0 0 1
                       end;
  cell_vol := fun _ => 1;
  cell_f_vol := fun _ => 1;
  i_face_normal := fun _ => R3 1 0 0;
  b_face_normal := fun _ => R3 (-1) 0 0;
  i_f_face_normal := fun _ => R3 1 0 0;
  b_f_face_normal := fun _ => R3 (-1) 0 0;
  i_face_cog := fun _ => R3 1 0 0;
  b_face_cog := fun _ => R3 (-1) 0 0;
  b_face_surf := fun _ => 1;
  b_dist := fun _ => 1;
  weight := fun _ => 0.5;
  dofij := fun _ => R3 0 0 0;
  diipb := fun _ => R3 0 0 0;
  corr_grad_lin := fun _ => identity_33;
  c_disable_flag := fun _ => 0%Z;
  has_disable_flag := 0%nat
|}.

(** The same cells with a skewed boundary face: its centre, at
    (-1, 1, 0), is not in the direction of its normal from the centre of
    cell 0. *)

Definition fvq_skew : cs_mesh_quantities_t := {|
  cell_cen := cell_cen fvq_star;
  cell_vol := fun _ => 1;
  cell_f_vol := fun _ => 1;
  i_face_normal := fun _ => R3 1 0 0;
  b_face_normal := fun _ => R3 (-1) 0 0;
  i_f_face_normal := fun _ => R3 1 0 0;
  b_f_face_normal := fun _ => R3 (-1) 0 0;
  i_face_cog := fun _ => R3 1 0 0;
  b_face_cog := fun _ => R3 (-1) 1 0;
  b_face_surf := fun _ => 1;
  b_dist := fun _ => 1;
  weight := fun _ => 0.5;
  dofij := fun _ => R3 0 0 0;
  diipb := fun _ => R3 0 1 0;
  corr_grad_lin := fun _ => identity_33;
  c_disable_flag := fun _ => 0%Z;
  has_disable_flag := 0%nat
|}.

(** The field x + 2 y + 3 z at the four cell centres, and its value at
    the centre of the boundary face. *)

Definition var_affine : array R :=
  fun c => match c with 0%nat => 0 | 1%nat => 1 | 2%nat => 2 | _ => 3 end.

Definition face_value : array R := fun _ => -1.

(** Four cells: cell 0 shares one interior face with each of the cells
    1, 2 and 3; no boundary face, no halo. *)

Definition mesh_star : cs_mesh_t := {|
  n_cells := 4%nat;
  n_cells_with_ghosts := 4%nat;
  n_i_faces := 3%nat;
  n_b_faces := 0%nat;
  n_b_cells := 0%nat;
  b_cells := fun _ => O;
  i_face_cells := fun f_id => (0%nat, S f_id);
  b_face_cells := fun _ => O;
  cell_cells_idx := None;
  cell_cells_lst := fun _ => O;
  i_face_numbering := Examples.numbering_upto 3;
  b_face_numbering := Examples.numbering_upto 0;
  halo := None;
  have_rotation_perio := false;
  n_domains := 1%nat
|}.

End Cases.
(** ** Concrete cases for the porosity balance *)

Module PorosityCases.

(** The unit geometry with every cell disabled. *)

Definition fvq_solid : cs_mesh_quantities_t := {|
  cell_cen := cell_cen Examples.fvq_unit;
  cell_vol := cell_vol Examples.fvq_unit;
  cell_f_vol := cell_f_vol Examples.fvq_unit;
  i_face_normal := i_face_normal Examples.fvq_unit;
  b_face_normal := b_face_normal Examples.fvq_unit;
  i_f_face_normal := i_f_face_normal Examples.fvq_unit;
  b_f_face_normal := b_f_face_normal Examples.fvq_unit;
  i_face_cog := i_face_cog Examples.fvq_unit;
  b_face_cog := b_face_cog Examples.fvq_unit;
  b_face_surf := b_face_surf Examples.fvq_unit;
  b_dist := b_dist Examples.fvq_unit;
  weight := weight Examples.fvq_unit;
  dofij := dofij Examples.fvq_unit;
  diipb := diipb Examples.fvq_unit;
  corr_grad_lin := corr_grad_lin Examples.fvq_unit;
  c_disable_flag := fun _ => 1%Z;
  has_disable_flag := 1%nat
|}.

(** Faces half open to the fluid, and faces fully open. *)

Definition ff_half : cs_fluid_faces_t := {|
  i_f_face_factor := fun _ => (/ 2, / 2);
  b_f_face_factor := fun _ => / 2;
  i_f_face_surf := fun _ => / 2;
  i_face_surf := fun _ => 1;
  b_f_face_surf := fun _ => / 2
|}.

Definition ff_full : cs_fluid_faces_t := {|
  i_f_face_factor := fun _ => (1, 1);
  b_f_face_factor := fun _ => 1;
  i_f_face_surf := fun _ => 1;
  i_face_surf := fun _ => 1;
  b_f_face_surf := fun _ => 1
|}.

(** Unit mass fluxes and a unit velocity along x. *)

Definition fl_unit : cs_flux_fields_t := {|
  i_massflux := fun _ => 1;
  b_massflux := fun _ => 1;
  vel_val_pre := fun _ => R3 1 0 0
|}.

(** Fields holding 7 everywhere. *)

Definition fields_7 : cs_poro_fields_t :=
  Poro_fields (fun _ => 7) (fun _ => 7) (fun _ => 7) (fun _ => R3 7 7 7).

End PorosityCases.
(** ** A cell against a wall *)

Module WallCase.

(** Four cells: cell 0 shares one interior face with each of the cells 2
    and 3, and has one boundary face; no halo.  With the geometry
    [Cases.fvq_star] the neighbours lie along y and z and the wall along
    -x. *)

Definition mesh_wall : cs_mesh_t := {|
  n_cells := 4%nat;
  n_cells_with_ghosts := 4%nat;
  n_i_faces := 2%nat;
  n_b_faces := 1%nat;
  n_b_cells := 1%nat;
  b_cells := fun _ => O;
  i_face_cells := fun f_id => (0%nat, S (S f_id));
  b_face_cells := fun _ => O;
  cell_cells_idx := None;
  cell_cells_lst := fun _ => O;
  i_face_numbering := Examples.numbering_upto 2;
  b_face_numbering := Examples.numbering_upto 1;
  halo := None;
  have_rotation_perio := false;
  n_domains := 1%nat
|}.

(** Dirichlet condition: the face value, and a zero [coefbp]. *)

Definition coefb_zero : array R := fun _ => 0.

End WallCase.
(** ** A case for the hydrostatic driver *)

(** A single block holding all interior faces, the adjacencies of two
    cells sharing face 0, and the distance dot product
    [(xb - xa) . xc]. *)

Module HydPCase.

Definition x_one_block : HydP.cs_hyd_externals_t := {|
  HydP.cs_mesh_i_faces_thread_block_count := fun _ _ => (1%nat, 1%nat);
  HydP.cs_mesh_i_faces_thread_block_range :=
    fun m _ _ _ _ => (0%nat, n_i_faces m);
  HydP.cs_math_3_distance_dot_product :=
    fun xa xb xc => dot3 (sub3 xb xa) xc
|}.

Definition ma_2 : HydP.cs_mesh_adjacencies_t := {|
  HydP.c2c_idx := fun c => c;
  HydP.c2c := fun i => (1 - i)%nat;
  HydP.c2f := fun _ => 0%nat;
  HydP.c2f_sgn := fun i => match i with O => 1%Z | _ => (-1)%Z end
|}.

Definition f_ext_gravity : array cs_real_3_t := fun _ => R3 0 0 (-1).

End HydPCase.

(** ** A case for the vector drivers *)

(** A halo-free setting for the vector driver, and a diagonal boundary
    condition. *)

Module VectorCase.

Definition x_idle : VectorGradient.cs_vector_externals_t := {|
  VectorGradient.cs_halo_sync_var_strided_9 := fun _ _ a => a;
  VectorGradient.cs_halo_perio_sync_var_tens := fun _ _ a => a;
  VectorGradient.cs_internal_coupling_initialize_vector_gradient :=
    fun _ _ _ a => a;
  VectorGradient.cs_internal_coupling_reconstruct_vector_gradient :=
    fun _ _ a => a
|}.

Definition coefbv_diag : array cs_real_33_t :=
  fun _ => M33 0 0 0 0 (/ 2) 0 0 0 1.

Definition coefav_one : array cs_real_3_t := fun _ => R3 1 1 1.

Definition var_v : array cs_real_3_t :=
  fun c_id => R3 (INR c_id) (2 * INR c_id) 3.

Definition r_grad_v : array cs_real_33_t :=
  fun _ => M33 1 0 0 0 2 0 0 0 0.

End VectorCase.

(** ** Two cubes side by side *)

Module CubeCase.

(** Two unit cubes, cell 0 centred at the origin and cell 1 at (1, 0, 0),
    sharing interior face 0; boundary face 0 closes cell 0 along -x and
    face 1 closes cell 1 along +x; faces 2 to 5 close cell 0 along -y,
    +y, -z, +z and faces 6 to 9 close cell 1 likewise; no halo. *)

Definition mesh_cubes : cs_mesh_t := {|
  n_cells := 2%nat;
  n_cells_with_ghosts := 2%nat;
  n_i_faces := 1%nat;
  n_b_faces := 10%nat;
  n_b_cells := 2%nat;
  b_cells := fun ii => ii;
  i_face_cells := fun _ => (0%nat, 1%nat);
  b_face_cells := fun f_id =>
                    match f_id with
                    | 0%nat => 0%nat
                    | 1%nat => 1%nat
                    | 2%nat | 3%nat | 4%nat | 5%nat => 0%nat
                    | _ => 1%nat
                    end;
  cell_cells_idx := None;
  cell_cells_lst := fun _ => O;
  i_face_numbering := Examples.numbering_upto 1;
  b_face_numbering := Examples.numbering_upto 10;
  halo := None;
  have_rotation_perio := false;
  n_domains := 1%nat
|}.

(** Outward unit normal of boundary face [f_id]. *)

Definition face_normal (f_id : nat) : cs_real_3_t :=
  match f_id with
  | 0%nat => R3 (-1) 0 0
  | 1%nat => R3 1 0 0
  | 2%nat | 6%nat => R3 0 (-1) 0
  | 3%nat | 7%nat => R3 0 1 0
  | 4%nat | 8%nat => R3 0 0 (-1)
  | _ => R3 0 0 1
  end.

(** Faces of unit surface, half a unit away from the cell centres, and
    unit volumes. *)

Definition fvq_cubes : cs_mesh_quantities_t := {|
  cell_cen := fun c_id => match c_id with 0%nat => R3 0 0 0 | _ => R3 1 0 0 end;
  cell_vol := fun _ => 1;
  cell_f_vol := fun _ => 1;
  i_face_normal := fun _ => R3 1 0 0;
  b_face_normal := face_normal;
  i_f_face_normal := fun _ => R3 1 0 0;
  b_f_face_normal := face_normal;
  i_face_cog := fun _ => R3 (/ 2) 0 0;
  b_face_cog :=
    fun f_id =>
      add3 (match b_face_cells mesh_cubes f_id with
            | 0%nat => R3 0 0 0
            | _ => R3 1 0 0
            end)
           (scale3 (/ 2) (face_normal f_id));
  b_face_surf := fun _ => 1;
  b_dist := fun _ => / 2;
  weight := fun _ => 0.5;
  dofij := fun _ => R3 0 0 0;
  diipb := fun _ => R3 0 0 0;
  corr_grad_lin := fun _ => identity_33;
  c_disable_flag := fun _ => 0%Z;
  has_disable_flag := 0%nat
|}.

(** Coefficients that are homogeneous Neumann on the ten boundary faces
    only. *)

Definition coefa_cubes : array R :=
  fun f_id => if (f_id <? 10)%nat then 0 else 7.

Definition coefb_cubes : array R :=
  fun f_id => if (f_id <? 10)%nat then 1 else 3.

(** The field x at the two cell centres. *)

Definition var_x : array R := fun c_id => INR c_id.

End CubeCase.
(** * Properties *)

(** ** Loops *)

Lemma for_loop_nil {S : Type} (lo hi : nat) (body : S -> nat -> S) (s : S) :
  (hi <= lo)%nat -> for_loop lo hi body s = s.
Proof.
  intros H. unfold for_loop, range.
  replace (hi - lo)%nat with 0%nat by lia. reflexivity.
Qed.

Lemma for_loop_S {S : Type} (lo hi : nat) (body : S -> nat -> S) (s : S) :
  (lo <= hi)%nat ->
  for_loop lo (Datatypes.S hi) body s = body (for_loop lo hi body s) hi.
Proof.
  intros H. unfold for_loop, range.
  replace (Datatypes.S hi - lo)%nat with (Datatypes.S (hi - lo)) by lia.
  rewrite seq_S, fold_left_app. simpl.
  replace (lo + (hi - lo))%nat with hi by lia. reflexivity.
Qed.

(** Invariant rule for an ascending counted loop. *)

Lemma for_loop_ind {S : Type} (P : nat -> S -> Prop)
      (lo hi : nat) (body : S -> nat -> S) (s : S) :
  (lo <= hi)%nat ->
  P lo s ->
  (forall i t, (lo <= i < hi)%nat -> P i t -> P (Datatypes.S i) (body t i)) ->
  P hi (for_loop lo hi body s).
Proof.
  intros Hle H0 Hstep. induction hi as [|hi IH].
  - assert (lo = 0%nat) by lia. subst. rewrite for_loop_nil by lia. exact H0.
  - destruct (Nat.eq_dec lo (Datatypes.S hi)) as [->|Hne].
    + rewrite for_loop_nil by lia. exact H0.
    + rewrite for_loop_S by lia. apply Hstep; [lia|].
      apply IH; [lia|]. intros i t Hi. apply Hstep. lia.
Qed.

Lemma range_cons (lo hi : nat) :
  (lo < hi)%nat -> range lo hi = lo :: range (S lo) hi.
Proof.
  intros H. unfold range.
  replace (hi - lo)%nat with (S (hi - S lo)) by lia. reflexivity.
Qed.

(** Invariant rule for a descending counted loop. *)

Lemma rev_loop_ind {S : Type} (P : nat -> S -> Prop)
      (lo hi : nat) (body : S -> nat -> S) (s : S) :
  (lo <= hi)%nat ->
  P hi s ->
  (forall i t, (lo <= i < hi)%nat -> P (Datatypes.S i) t -> P i (body t i)) ->
  P lo (fold_left body (rev (range lo hi)) s).
Proof.
  intros Hle H0 Hstep.
  remember (hi - lo)%nat as n eqn:Hn.
  revert lo Hle Hn Hstep. induction n as [|n IH]; intros lo Hle Hn Hstep.
  - assert (lo = hi) by lia. subst lo. unfold range.
    rewrite Nat.sub_diag. exact H0.
  - rewrite range_cons by lia. simpl. rewrite fold_left_app. simpl.
    apply Hstep; [lia|]. apply IH; [lia|lia|].
    intros i t Hi. apply Hstep. lia.
Qed.

(** Invariant rule for a loop over a list of faces or neighbours. *)

Lemma fold_left_inv {A B : Type} (P : A -> Prop) (f : A -> B -> A)
      (l : list B) (a : A) :
  P a -> (forall a b, In b l -> P a -> P (f a b)) -> P (fold_left f l a).
Proof.
  revert a. induction l as [|x l IH]; intros a Ha Hstep; simpl; [exact Ha|].
  apply IH.
  - apply Hstep; [left; reflexivity|exact Ha].
  - intros a' b Hb. apply Hstep. right. exact Hb.
Qed.

Lemma for_loop_inv {S : Type} (P : S -> Prop)
      (lo hi : nat) (body : S -> nat -> S) (s : S) :
  P s -> (forall t i, (lo <= i < hi)%nat -> P t -> P (body t i)) ->
  P (for_loop lo hi body s).
Proof.
  intros H0 Hstep. unfold for_loop. apply fold_left_inv; [exact H0|].
  intros a b Hb. apply Hstep. unfold range in Hb. apply in_seq in Hb. lia.
Qed.

(** ** Arrays and scalar macros *)

Lemma upd_same {T : Type} (a : array T) (i : nat) (v : T) : upd a i v i = v.
Proof. unfold upd. now rewrite Nat.eqb_refl. Qed.

Lemma upd_other {T : Type} (a : array T) (i j : nat) (v : T) :
  j <> i -> upd a i v j = a j.
Proof.
  intros H. unfold upd. destruct (Nat.eqb_spec j i); [contradiction|reflexivity].
Qed.

Lemma CS_MAX_ge_l (a b : R) : a <= CS_MAX a b.
Proof. unfold CS_MAX. destruct (Rgt_dec a b); lra. Qed.

Lemma CS_MAX_ge_r (a b : R) : b <= CS_MAX a b.
Proof. unfold CS_MAX. destruct (Rgt_dec a b); lra. Qed.

Lemma CS_MIN_le_l (a b : R) : CS_MIN a b <= a.
Proof. unfold CS_MIN. destruct (Rlt_dec a b); lra. Qed.

Lemma CS_MIN_le_r (a b : R) : CS_MIN a b <= b.
Proof. unfold CS_MIN. destruct (Rlt_dec a b); lra. Qed.

Lemma CS_MIN_glb (a b c : R) : c <= a -> c <= b -> c <= CS_MIN a b.
Proof. intros. unfold CS_MIN. destruct (Rlt_dec a b); lra. Qed.

Lemma CS_ABS_nonneg (a : R) : 0 <= CS_ABS a.
Proof. unfold CS_ABS. destruct (Rlt_dec a 0); lra. Qed.

Lemma DBL_MAX_ge_1 : 1 <= DBL_MAX.
Proof.
  unfold DBL_MAX.
  assert (H52 : 1 <= 2 ^ 52) by (apply pow_R1_Rle; lra).
  assert (H1023 : 1 <= 2 ^ 1023) by (apply pow_R1_Rle; lra).
  assert (Hinv : / 2 ^ 52 <= 1).
  { rewrite <- Rinv_1. apply Rinv_le_contravar; lra. }
  assert (0 < / 2 ^ 52) by (apply Rinv_0_lt_compat; lra).
  nra.
Qed.

Lemma CS_ABS_of_nonneg (a : R) : 0 <= a -> CS_ABS a = a.
Proof. intros. unfold CS_ABS. destruct (Rlt_dec a 0); lra. Qed.

Lemma CS_ABS_of_neg (a : R) : a < 0 -> CS_ABS a = - a.
Proof. intros. unfold CS_ABS. destruct (Rlt_dec a 0); lra. Qed.

Lemma CS_MAX_of_le (a b : R) : a <= b -> CS_MAX a b = b.
Proof. intros. unfold CS_MAX. destruct (Rgt_dec a b); lra. Qed.

Lemma CS_MAX_of_ge (a b : R) : b <= a -> CS_MAX a b = a.
Proof. intros. unfold CS_MAX. destruct (Rgt_dec a b); lra. Qed.

(** ** The dense kernels: Crout factorization and substitution *)

Import Kernels.

(** *** packed indexing *)

Lemma row_start_S (i : nat) : row_start (S i) = (row_start i + S i)%nat.
Proof.
  unfold row_start.
  replace (S i * (S i + 1))%nat with (i * (i + 1) + S i * 2)%nat by lia.
  rewrite Nat.div_add by lia. reflexivity.
Qed.

Lemma row_start_lt (i i' : nat) :
  (i < i')%nat -> (row_start i + i < row_start i')%nat.
Proof.
  induction i' as [|i' IH]; intros H; [lia|].
  rewrite row_start_S.
  destruct (Nat.eq_dec i i') as [->|Hne]; [lia|].
  assert (i < i')%nat by lia. specialize (IH H0). lia.
Qed.

Lemma packed_index_inj (i j i' j' : nat) :
  (j <= i)%nat -> (j' <= i')%nat ->
  (row_start i + j = row_start i' + j')%nat -> i = i' /\ j = j'.
Proof.
  intros Hj Hj' Heq.
  destruct (lt_eq_lt_dec i i') as [[Hlt|Heq']|Hgt].
  - pose proof (row_start_lt _ _ Hlt). lia.
  - subst. lia.
  - pose proof (row_start_lt _ _ Hgt). lia.
Qed.

Lemma packed_upd (ad : array R) (i j i' j' : nat) (v : R) :
  (j <= i)%nat -> (j' <= i')%nat ->
  packed (upd ad (row_start i' + j') v) i j
  = if ((i =? i') && (j =? j'))%nat then v else packed ad i j.
Proof.
  intros Hj Hj'. unfold packed, upd.
  destruct (Nat.eqb_spec (row_start i + j) (row_start i' + j')) as [He|Hne].
  - apply packed_index_inj in He; try assumption. destruct He; subst.
    now rewrite !Nat.eqb_refl.
  - destruct (Nat.eqb_spec i i'), (Nat.eqb_spec j j'); simpl; try reflexivity.
    subst. congruence.
Qed.

(** *** the factorisation loops *)

Lemma crout_jj_loop (ii kk hi : nat) (ad aux : array R) :
  (kk + 1 <= hi)%nat -> (hi <= ii + 1)%nat ->
  let st := for_loop (kk + 1) hi (crout_jj (row_start ii) kk) (ad, aux) in
  snd st = aux /\
  forall i j, (j <= i)%nat ->
    packed (fst st) i j
    = if ((i =? ii) && (kk <? j) && (j <? hi))%nat
      then packed ad i j - packed ad ii kk * aux j
      else packed ad i j.
Proof.
  intros Hlo Hhi.
  apply (for_loop_ind
           (fun h st => (h <= ii + 1)%nat ->
              snd st = aux /\
              forall i j, (j <= i)%nat ->
                packed (fst st) i j
                = if ((i =? ii) && (kk <? j) && (j <? h))%nat
                  then packed ad i j - packed ad ii kk * aux j
                  else packed ad i j)); try assumption.
  - intros _. split; [reflexivity|]. intros i j Hj. simpl.
    destruct (Nat.eqb_spec i ii); simpl; [|reflexivity].
    destruct (Nat.ltb_spec kk j); simpl; [|reflexivity].
    destruct (Nat.ltb_spec j (kk + 1)); [lia|reflexivity].
  - intros h [ad' aux'] Hh IH Hh'. destruct IH as [Haux IH]; [lia|].
    simpl in Haux, IH. subst aux'. simpl. split; [reflexivity|].
    intros i j Hj.
    change (ad' (row_start ii + h)%nat) with (packed ad' ii h).
    change (ad' (row_start ii + kk)%nat) with (packed ad' ii kk).
    rewrite packed_upd by lia.
    rewrite (IH ii h) by lia. rewrite (IH ii kk) by lia. rewrite (IH i j) by lia.
    rewrite Nat.eqb_refl. simpl.
    replace (kk <? kk)%nat with false by (symmetry; apply Nat.ltb_irrefl).
    simpl.
    replace (kk <? h)%nat with true by (symmetry; apply Nat.ltb_lt; lia).
    replace (h <? h)%nat with false by (symmetry; apply Nat.ltb_irrefl).
    simpl.
    destruct (Nat.eqb_spec i ii); simpl; [|reflexivity]. subst i.
    destruct (Nat.eqb_spec j h); simpl.
    + subst j.
      replace (kk <? h)%nat with true by (symmetry; apply Nat.ltb_lt; lia).
      replace (h <? S h)%nat with true by (symmetry; apply Nat.ltb_lt; lia).
      reflexivity.
    + destruct (Nat.ltb_spec kk j); simpl; [|reflexivity].
      destruct (Nat.ltb_spec j h), (Nat.ltb_spec j (S h)); try lia; reflexivity.
Qed.

Lemma crout_ii_spec (ii kk : nat) (ad aux : array R) :
  (kk < ii)%nat ->
  let st := crout_ii kk (row_start kk) (ad, aux) ii in
  snd st = upd aux ii (packed ad ii kk) /\
  forall i j, (j <= i)%nat ->
    packed (fst st) i j
    = if (i =? ii)%nat then
        if (kk <? j)%nat then
          packed ad ii j
          - packed ad ii kk / packed ad kk kk * upd aux ii (packed ad ii kk) j
        else if (j =? kk)%nat then packed ad ii kk / packed ad kk kk
        else packed ad ii j
      else packed ad i j.
Proof.
  intros Hk. unfold crout_ii.
  change (ad (row_start ii + kk)%nat) with (packed ad ii kk).
  change (ad (row_start kk + kk)%nat) with (packed ad kk kk).
  destruct (crout_jj_loop ii kk (ii + 1)
              (upd ad (row_start ii + kk) (packed ad ii kk / packed ad kk kk))
              (upd aux ii (packed ad ii kk))) as [Ha Hp]; try lia.
  split; [exact Ha|].
  intros i j Hj. rewrite Hp by lia.
  rewrite !packed_upd by lia. rewrite !Nat.eqb_refl. simpl.
  destruct (Nat.eqb_spec i ii); simpl.
  - subst i.
    destruct (Nat.ltb_spec kk j); simpl.
    + replace (j <? ii + 1)%nat with true by (symmetry; apply Nat.ltb_lt; lia).
      destruct (Nat.eqb_spec j kk); [lia|]. reflexivity.
    + destruct (Nat.eqb_spec j kk); reflexivity.
  - reflexivity.
Qed.

Lemma crout_kk_spec (d kk : nat) (ad aux : array R) :
  forall i j, (j <= i)%nat ->
    packed (fst (crout_kk d (ad, aux) kk)) i j
    = if (i <? d)%nat then schur_step kk (packed ad) i j else packed ad i j.
Proof.
  unfold crout_kk.
  destruct (le_lt_dec d (kk + 1)) as [Hd|Hd].
  - rewrite for_loop_nil by lia. intros i j Hj. simpl.
    destruct (Nat.ltb_spec i d); [|reflexivity].
    unfold schur_step. destruct (Nat.ltb_spec kk i); [lia|reflexivity].
  - assert (Hinv :
      let st := for_loop (kk + 1) d (crout_ii kk (row_start kk)) (ad, aux) in
      (forall i, (kk < i < d)%nat -> snd st i = packed ad i kk) /\
      forall i j, (j <= i)%nat ->
        packed (fst st) i j
        = if (i <? d)%nat then schur_step kk (packed ad) i j
          else packed ad i j).
    { apply (for_loop_ind
               (fun m st =>
                  (forall i, (kk < i < m)%nat -> snd st i = packed ad i kk) /\
                  forall i j, (j <= i)%nat ->
                    packed (fst st) i j
                    = if (i <? m)%nat then schur_step kk (packed ad) i j
                      else packed ad i j)); [lia| |].
      - split; [intros; lia|]. intros i j Hj. simpl.
        destruct (Nat.ltb_spec i (kk + 1)); [|reflexivity].
        unfold schur_step. destruct (Nat.ltb_spec kk i); [lia|reflexivity].
      - intros m [ad' aux'] Hm [Haux Hpk]. simpl in Haux.
        destruct (crout_ii_spec m kk ad' aux') as [Ha Hp]; [lia|].
        simpl in Hpk.
        assert (Hmk : packed ad' m kk = packed ad m kk).
        { rewrite Hpk by lia.
          destruct (Nat.ltb_spec m m); [lia|reflexivity]. }
        assert (Hkk : packed ad' kk kk = packed ad kk kk).
        { rewrite Hpk by lia. destruct (Nat.ltb_spec kk m); [|reflexivity].
          unfold schur_step. destruct (Nat.ltb_spec kk kk); [lia|reflexivity]. }
        split.
        + intros i Hi. rewrite Ha. unfold upd.
          destruct (Nat.eqb_spec i m); [subst; exact Hmk|].
          apply Haux. lia.
        + intros i j Hj. rewrite Hp by lia.
          destruct (Nat.eqb_spec i m).
          * subst i.
            replace (m <? S m)%nat with true by (symmetry; apply Nat.ltb_lt; lia).
            unfold schur_step.
            replace (kk <? m)%nat with true by (symmetry; apply Nat.ltb_lt; lia).
            assert (Hmj : packed ad' m j = packed ad m j).
            { rewrite Hpk by lia.
              destruct (Nat.ltb_spec m m); [lia|reflexivity]. }
            rewrite Hmk, Hkk, Hmj.
            destruct (Nat.ltb_spec kk j).
            -- unfold upd. destruct (Nat.eqb_spec j m).
               ++ subst j. reflexivity.
               ++ rewrite Haux by lia. reflexivity.
            -- reflexivity.
          * rewrite Hpk by lia.
            destruct (Nat.ltb_spec i m), (Nat.ltb_spec i (S m)); try lia;
              reflexivity. }
    intros i j Hj. apply Hinv. exact Hj.
Qed.

Lemma schur_step_ext (d k : nat) (M N : nat -> nat -> R) :
  (forall i j, (j <= i)%nat -> (i < d)%nat -> M i j = N i j) ->
  forall i j, (j <= i)%nat -> (i < d)%nat ->
    schur_step k M i j = schur_step k N i j.
Proof.
  intros H i j Hj Hi. unfold schur_step.
  destruct (Nat.ltb_spec k i); [|apply H; lia].
  destruct (Nat.ltb_spec k j).
  - rewrite (H i j), (H i k), (H k k), (H j k) by lia. reflexivity.
  - destruct (Nat.eqb_spec j k).
    + rewrite (H i k), (H k k) by lia. reflexivity.
    + apply H; lia.
Qed.

Lemma fact_crout_schur (d : nat) (aux0 ad : array R) :
  forall i j, (j <= i)%nat -> (i < d)%nat ->
    packed (_fact_crout_pp d aux0 ad) i j = schur (d - 1) (packed ad) i j.
Proof.
  unfold _fact_crout_pp.
  apply (for_loop_ind
           (fun m st => forall i j, (j <= i)%nat -> (i < d)%nat ->
              packed (fst st) i j = schur m (packed ad) i j)); [lia| |].
  - intros i j _ _. reflexivity.
  - intros m [ad' aux'] Hm IH i j Hj Hi. simpl in IH.
    rewrite crout_kk_spec by lia.
    replace (i <? d)%nat with true by (symmetry; apply Nat.ltb_lt; lia).
    simpl. apply (schur_step_ext d); assumption.
Qed.

(** *** finite sums *)

Lemma rsum_ext (f g : nat -> R) (n : nat) :
  (forall i, (i < n)%nat -> f i = g i) -> rsum f n = rsum g n.
Proof.
  induction n as [|n IH]; intros H; simpl; [reflexivity|].
  rewrite IH, H by (intros; try apply H; lia). reflexivity.
Qed.

Lemma rsum_zero (n : nat) : rsum (fun _ => 0) n = 0.
Proof. induction n as [|n IH]; simpl; [reflexivity|]. rewrite IH. ring. Qed.

Lemma rsum_plus (f g : nat -> R) (n : nat) :
  rsum (fun i => f i + g i) n = rsum f n + rsum g n.
Proof. induction n as [|n IH]; simpl; [ring|]. rewrite IH. ring. Qed.

Lemma rsum_minus (f g : nat -> R) (n : nat) :
  rsum (fun i => f i - g i) n = rsum f n - rsum g n.
Proof. induction n as [|n IH]; simpl; [ring|]. rewrite IH. ring. Qed.

Lemma rsum_scal_l (c : R) (f : nat -> R) (n : nat) :
  rsum (fun i => c * f i) n = c * rsum f n.
Proof. induction n as [|n IH]; simpl; [ring|]. rewrite IH. ring. Qed.

Lemma rsum_scal_r (c : R) (f : nat -> R) (n : nat) :
  rsum (fun i => f i * c) n = rsum f n * c.
Proof. induction n as [|n IH]; simpl; [ring|]. rewrite IH. ring. Qed.

Lemma rsum_swap (f : nat -> nat -> R) (n m : nat) :
  rsum (fun i => rsum (fun j => f i j) m) n
  = rsum (fun j => rsum (fun i => f i j) n) m.
Proof.
  induction n as [|n IH]; simpl.
  - symmetry. apply rsum_zero.
  - rewrite IH, <- rsum_plus. reflexivity.
Qed.

Lemma rsum_vanish_above (f : nat -> R) (k n : nat) :
  (k <= n)%nat -> (forall i, (k <= i < n)%nat -> f i = 0) ->
  rsum f n = rsum f k.
Proof.
  induction n as [|n IH]; intros Hk H.
  - replace k with 0%nat by lia. reflexivity.
  - destruct (Nat.eq_dec k (S n)) as [->|Hne]; [reflexivity|].
    simpl. rewrite H by lia. rewrite IH by (try lia; intros; apply H; lia).
    ring.
Qed.

Lemma rsum_vanish_below (f : nat -> R) (k n : nat) :
  (forall i, (i < k)%nat -> f i = 0) -> (k <= n)%nat ->
  rsum f k = 0.
Proof.
  intros H _. rewrite (rsum_ext f (fun _ => 0)) by assumption.
  apply rsum_zero.
Qed.

Lemma rsum_single (f : nat -> R) (k n : nat) :
  (k < n)%nat -> (forall i, (i < n)%nat -> i <> k -> f i = 0) ->
  rsum f n = f k.
Proof.
  intros Hk H.
  rewrite (rsum_vanish_above f (S k) n) by (try lia; intros; apply H; lia).
  simpl. rewrite (rsum_ext f (fun _ => 0)) by (intros; apply H; lia).
  rewrite rsum_zero. ring.
Qed.

(** *** the Schur sequence *)

Lemma schur_S_stable (m : nat) (M : nat -> nat -> R) (i j : nat) :
  (j < m)%nat \/ (i <= m)%nat -> schur (S m) M i j = schur m M i j.
Proof.
  intros H. simpl. unfold schur_step.
  destruct (Nat.ltb_spec m i); [|reflexivity].
  destruct (Nat.ltb_spec m j); [lia|].
  destruct (Nat.eqb_spec j m); [lia|reflexivity].
Qed.

Lemma schur_stable (M : nat -> nat -> R) (i j m n : nat) :
  (m <= n)%nat -> (j < m)%nat \/ (i <= m)%nat ->
  schur n M i j = schur m M i j.
Proof.
  intros Hmn H. induction n as [|n IH].
  - replace m with 0%nat by lia. reflexivity.
  - destruct (Nat.eq_dec m (S n)) as [->|Hne]; [reflexivity|].
    rewrite schur_S_stable by lia. apply IH. lia.
Qed.

Lemma schur_column (M : nat -> nat -> R) (i j : nat) :
  (j < i)%nat -> schur (S j) M i j = schur j M i j / schur j M j j.
Proof.
  intros H. simpl. unfold schur_step.
  destruct (Nat.ltb_spec j i); [|lia].
  destruct (Nat.ltb_spec j j); [lia|].
  rewrite Nat.eqb_refl. reflexivity.
Qed.

Lemma schur_update (M : nat -> nat -> R) (i j m : nat) :
  (m < j)%nat -> (j <= i)%nat ->
  schur (S m) M i j
  = schur m M i j - schur m M i m / schur m M m m * schur m M j m.
Proof.
  intros Hm Hj. simpl. unfold schur_step.
  destruct (Nat.ltb_spec m i); [|lia].
  destruct (Nat.ltb_spec m j); [|lia]. reflexivity.
Qed.

Lemma schur_telescope (M : nat -> nat -> R) (i j m : nat) :
  (m <= j)%nat -> (j <= i)%nat ->
  schur m M i j
  = M i j - rsum (fun k => schur k M i k / schur k M k k * schur k M j k) m.
Proof.
  intros Hm Hj. induction m as [|m IH].
  - simpl. ring.
  - rewrite schur_update by lia. rewrite IH by lia. simpl. ring.
Qed.

Lemma symm_sym (N : nat -> nat -> R) (i j : nat) : symm N i j = symm N j i.
Proof.
  unfold symm. destruct (Nat.leb_spec j i), (Nat.leb_spec i j); try lia;
    try reflexivity.
  assert (i = j) by lia. subst. reflexivity.
Qed.

Lemma rsum_unit_l (k n : nat) (f : nat -> R) :
  (k < n)%nat -> rsum (fun i => unit_vec k i * f i) n = f k.
Proof.
  intros Hk. rewrite (rsum_single _ k) by
      first [ lia
            | intros i _ Hi; unfold unit_vec;
              destruct (Nat.eqb_spec i k); [contradiction|ring] ].
  unfold unit_vec. rewrite Nat.eqb_refl. ring.
Qed.

Lemma quad_form_shift (d k : nat) (N : nat -> nat -> R) (v : nat -> R) (t : R) :
  (k < d)%nat ->
  (forall i j, N i j = N j i) ->
  quad_form d N (fun i => v i + t * unit_vec k i)
  = quad_form d N v
    + 2 * t * rsum (fun i => v i * N i k) d
    + t * t * N k k.
Proof.
  intros Hk Hsym. unfold quad_form.
  rewrite (rsum_ext _
    (fun i =>   rsum (fun j => v i * N i j * v j) d
              + t * (unit_vec k i * rsum (fun j => N i j * v j) d)
              + t * (v i * N i k)
              + t * t * (unit_vec k i * N i k))).
  - rewrite !rsum_plus, !rsum_scal_l, !rsum_unit_l by lia.
    rewrite (rsum_ext (fun j => N k j * v j) (fun i => v i * N i k))
      by (intros; rewrite (Hsym k); ring).
    ring.
  - intros i _.
    rewrite (rsum_ext _
      (fun j =>   v i * N i j * v j
                + t * unit_vec k i * (N i j * v j)
                + t * v i * (unit_vec k j * N i j)
                + t * t * unit_vec k i * (unit_vec k j * N i j)))
      by (intros; ring).
    rewrite !rsum_plus, !rsum_scal_l, !rsum_unit_l by lia. ring.
Qed.

Lemma quad_form_schur (d k : nat) (M : nat -> nat -> R) (v : nat -> R) :
  (forall i, (i <= k)%nat -> v i = 0) ->
  quad_form d (symm (schur_step k M)) v
  = quad_form d (symm M) v
    - rsum (fun i => v i * symm M i k) d * rsum (fun i => v i * symm M i k) d
      / M k k.
Proof.
  intros Hv. unfold quad_form.
  rewrite (rsum_ext _
    (fun i =>   rsum (fun j => v i * symm M i j * v j) d
              - v i * symm M i k * (rsum (fun j => v j * symm M j k) d / M k k))).
  - rewrite rsum_minus, rsum_scal_r. unfold Rdiv. ring.
  - intros i _.
    transitivity
      (rsum (fun j =>   v i * symm M i j * v j
                      - (v i * symm M i k * / M k k) * (v j * symm M j k)) d).
    + apply rsum_ext. intros j _.
      destruct (le_lt_dec i k) as [Hi|Hi]; [rewrite (Hv i Hi); ring|].
      destruct (le_lt_dec j k) as [Hj|Hj]; [rewrite (Hv j Hj); ring|].
      assert (Hs : symm (schur_step k M) i j
                   = symm M i j - symm M i k * symm M j k / M k k).
      { unfold symm, schur_step.
        destruct (Nat.leb_spec j i);
          destruct (Nat.ltb_spec k i); try lia;
          destruct (Nat.ltb_spec k j); try lia;
          destruct (Nat.leb_spec k i); try lia;
          destruct (Nat.leb_spec k j); try lia;
          unfold Rdiv; ring. }
      rewrite Hs. unfold Rdiv. ring.
    + rewrite rsum_minus, rsum_scal_l. unfold Rdiv. ring.
Qed.

Lemma pos_def_pivot (d k : nat) (N : nat -> nat -> R) :
  pos_def_from d k N -> (k < d)%nat -> 0 < N k k.
Proof.
  intros H Hk.
  assert (Hq : quad_form d (symm N) (unit_vec k) = N k k).
  { unfold quad_form.
    rewrite (rsum_ext _
      (fun i => unit_vec k i * rsum (fun j => unit_vec k j * symm N i j) d)).
    - rewrite !rsum_unit_l by lia. unfold symm.
      rewrite Nat.leb_refl. reflexivity.
    - intros i _. rewrite <- rsum_scal_l. apply rsum_ext. intros; ring. }
  rewrite <- Hq. apply H.
  - intros i Hi. unfold unit_vec. destruct (Nat.eqb_spec i k); [lia|reflexivity].
  - exists k. split; [assumption|]. unfold unit_vec. rewrite Nat.eqb_refl. lra.
Qed.

Lemma pos_def_step (d k : nat) (N : nat -> nat -> R) :
  pos_def_from d k N -> (k < d)%nat -> pos_def_from d (S k) (schur_step k N).
Proof.
  intros H Hk v Hv [i0 [Hi0 Hne]].
  pose proof (pos_def_pivot d k N H Hk) as Hpiv.
  set (c := rsum (fun i => v i * symm N i k) d).
  set (t := - c / N k k).
  assert (Hq : quad_form d (symm (schur_step k N)) v
               = quad_form d (symm N) (fun i => v i + t * unit_vec k i)).
  { rewrite quad_form_schur by (intros; apply Hv; lia).
    rewrite quad_form_shift by (try lia; intros; apply symm_sym).
    fold c. replace (symm N k k) with (N k k)
      by (unfold symm; rewrite Nat.leb_refl; reflexivity).
    unfold t. field. lra. }
  rewrite Hq. apply H.
  - intros i Hi. rewrite Hv by lia. unfold unit_vec.
    destruct (Nat.eqb_spec i k); [lia|ring].
  - exists i0. split; [assumption|].
    unfold unit_vec. destruct (Nat.eqb_spec i0 k) as [->|Hik].
    + exfalso. apply Hne. apply Hv. lia.
    + replace (v i0 + t * 0) with (v i0) by ring. exact Hne.
Qed.

Lemma pos_def_schur (d : nat) (M : nat -> nat -> R) (k : nat) :
  pos_def_from d 0 M -> (k <= d)%nat -> pos_def_from d k (schur k M).
Proof.
  intros H0. induction k as [|k IH]; intros Hk; [exact H0|].
  simpl. apply pos_def_step; [apply IH|]; lia.
Qed.

Lemma schur_pivot_pos (d : nat) (ad : array R) (k : nat) :
  sym_pos_def d ad -> (k < d)%nat -> 0 < schur k (packed ad) k k.
Proof.
  intros H Hk. apply (pos_def_pivot d).
  - apply pos_def_schur; [|lia]. intros v _ Hv. apply H. exact Hv.
  - exact Hk.
Qed.

Lemma rsum_tail_cons (f : nat -> R) (i d : nat) :
  (i < d)%nat ->
  rsum (fun j => if (i <=? j)%nat then f j else 0) d
  = f i + rsum (fun j => if (S i <=? j)%nat then f j else 0) d.
Proof.
  intros Hi.
  rewrite (rsum_ext _
    (fun j => unit_vec i j * f j + (if (S i <=? j)%nat then f j else 0))).
  - rewrite rsum_plus, rsum_unit_l by lia. reflexivity.
  - intros j _. unfold unit_vec.
    destruct (Nat.eqb_spec j i); destruct (Nat.leb_spec i j);
      destruct (Nat.leb_spec (S i) j); try lia; ring.
Qed.

(** *** forward, diagonal and backward substitution *)

Lemma fw_ii_spec (mat b aux : array R) (ii : nat) :
  forall q,
    fw_ii mat b aux ii q
    = if (q =? ii)%nat
      then b ii - rsum (fun j => aux j * packed mat ii j) ii
      else aux q.
Proof.
  unfold fw_ii.
  apply (for_loop_ind
           (fun h a => forall q,
              a q = if (q =? ii)%nat
                    then b ii - rsum (fun j => aux j * packed mat ii j) h
                    else aux q)); [lia| |].
  - intros q. unfold upd. destruct (Nat.eqb_spec q ii); simpl; [ring|reflexivity].
  - intros h a Hh IH q. unfold fw_jj, upd.
    destruct (Nat.eqb_spec q ii).
    + rewrite (IH ii), (IH h), Nat.eqb_refl.
      destruct (Nat.eqb_spec h ii); [lia|]. simpl. unfold packed. ring.
    + rewrite IH. destruct (Nat.eqb_spec q ii); [contradiction|reflexivity].
Qed.

Lemma forward_spec (mat b aux0 : array R) (d : nat) :
  let y := for_loop 0 d (fw_ii mat b) aux0 in
  forall i, (i < d)%nat ->
    y i = b i - rsum (fun j => y j * packed mat i j) i.
Proof.
  apply (for_loop_ind
           (fun m y => forall i, (i < m)%nat ->
              y i = b i - rsum (fun j => y j * packed mat i j) i)); [lia| |].
  - intros i Hi. lia.
  - intros m y Hm IH i Hi. rewrite fw_ii_spec.
    destruct (Nat.eqb_spec i m).
    + subst i. f_equal. apply rsum_ext. intros j Hj.
      rewrite fw_ii_spec. destruct (Nat.eqb_spec j m); [lia|reflexivity].
    + rewrite IH by lia. f_equal. apply rsum_ext. intros j Hj.
      rewrite fw_ii_spec. destruct (Nat.eqb_spec j m); [lia|reflexivity].
Qed.

Lemma diagonal_spec (mat y : array R) (d : nat) :
  forall i, (i < d)%nat ->
    for_loop 0 d (diag_ii mat) y i = y i / packed mat i i.
Proof.
  assert (H : forall q,
             for_loop 0 d (diag_ii mat) y q
             = if (q <? d)%nat then y q / packed mat q q else y q).
  { apply (for_loop_ind
             (fun m z => forall q,
                z q = if (q <? m)%nat then y q / packed mat q q else y q));
      [lia| |].
    - intros q. reflexivity.
    - intros m z Hm IH q. unfold diag_ii, upd.
      destruct (Nat.eqb_spec q m).
      + subst q. rewrite IH.
        destruct (Nat.ltb_spec m m); [lia|].
        destruct (Nat.ltb_spec m (S m)); [|lia]. reflexivity.
      + rewrite IH.
        destruct (Nat.ltb_spec q m), (Nat.ltb_spec q (S m)); try lia;
          reflexivity. }
  intros i Hi. rewrite H.
  destruct (Nat.ltb_spec i d); [reflexivity|lia].
Qed.

Lemma bw_ii_spec (mat z x : array R) (d ii : nat) :
  (ii < d)%nat ->
  forall q,
    bw_ii mat z d x ii q
    = if (q =? ii)%nat
      then z ii
           - rsum (fun j => if (S ii <=? j)%nat
                            then x j * packed mat j ii else 0) d
      else x q.
Proof.
  intros Hii. unfold bw_ii. replace (ii + 1)%nat with (S ii) by lia.
  apply (rev_loop_ind
           (fun h a => (S ii <= h)%nat -> forall q,
              a q = if (q =? ii)%nat
                    then z ii
                         - rsum (fun j => if (h <=? j)%nat
                                          then x j * packed mat j ii else 0) d
                    else x q)); try lia.
  - intros _ q. unfold upd. destruct (Nat.eqb_spec q ii); [|reflexivity].
    rewrite (rsum_ext _ (fun _ => 0)).
    + rewrite rsum_zero. ring.
    + intros j Hj. destruct (Nat.leb_spec d j); [lia|reflexivity].
  - intros h a Hh IH _ q. specialize (IH ltac:(lia)).
    unfold bw_jj, upd. destruct (Nat.eqb_spec q ii).
    + rewrite (IH ii), (IH h), Nat.eqb_refl.
      destruct (Nat.eqb_spec h ii); [lia|].
      rewrite (rsum_tail_cons _ h) by lia. unfold packed. ring.
    + rewrite IH. destruct (Nat.eqb_spec q ii); [contradiction|reflexivity].
Qed.

Lemma backward_spec (mat z x0 : array R) (d : nat) :
  let x := fold_left (bw_ii mat z d) (rev (range 0 d)) x0 in
  forall i, (i < d)%nat ->
    x i + rsum (fun j => if (S i <=? j)%nat
                         then x j * packed mat j i else 0) d
    = z i.
Proof.
  intros x.
  enough (H : forall i, (0 <= i < d)%nat ->
            x i + rsum (fun j => if (S i <=? j)%nat
                                 then x j * packed mat j i else 0) d
            = z i) by (intros i Hi; apply H; lia).
  subst x.
  apply (rev_loop_ind
           (fun m x => forall i, (m <= i < d)%nat ->
              x i + rsum (fun j => if (S i <=? j)%nat
                                   then x j * packed mat j i else 0) d
              = z i)); [lia| |].
  - intros i Hi. lia.
  - intros m x Hm IH i Hi.
    assert (Hs : forall i', (m <= i')%nat ->
               rsum (fun j => if (S i' <=? j)%nat
                              then bw_ii mat z d x m j * packed mat j i'
                              else 0) d
               = rsum (fun j => if (S i' <=? j)%nat
                                then x j * packed mat j i' else 0) d).
    { intros i' Hi'. apply rsum_ext. intros j Hj.
      destruct (Nat.leb_spec (S i') j); [|reflexivity].
      rewrite bw_ii_spec by lia.
      destruct (Nat.eqb_spec j m); [lia|reflexivity]. }
    rewrite Hs by lia. rewrite bw_ii_spec by lia.
    destruct (Nat.eqb_spec i m).
    + subst i. ring.
    + apply IH. lia.
Qed.

Lemma ldlt_entry (d : nat) (aux0 ad : array R) (i j : nat) :
  sym_pos_def d ad -> (j <= i)%nat -> (i < d)%nat ->
  let F := packed (_fact_crout_pp d aux0 ad) in
  packed ad i j
  = rsum (fun k => unit_lower F i k * F k k * unit_lower F j k) d.
Proof.
  intros Hpd Hj Hi F.
  assert (HD : forall k, (k < d)%nat -> F k k = schur k (packed ad) k k).
  { intros k Hk. unfold F. rewrite fact_crout_schur by lia.
    apply schur_stable; lia. }
  assert (HL : forall a k, (k < a)%nat -> (a < d)%nat ->
             F a k = schur k (packed ad) a k / schur k (packed ad) k k).
  { intros a k Hk Ha. unfold F. rewrite fact_crout_schur by lia.
    rewrite (schur_stable _ a k (S k)) by lia. apply schur_column. lia. }
  rewrite (rsum_vanish_above _ (S j) d).
  2: lia.
  2:{ intros k Hk. unfold unit_lower at 2.
      destruct (Nat.ltb_spec k j); [lia|].
      destruct (Nat.eqb_spec k j); [lia|]. ring. }
  simpl.
  rewrite (rsum_ext _
    (fun k => schur k (packed ad) i k / schur k (packed ad) k k
              * schur k (packed ad) j k)).
  2:{ intros k Hk. unfold unit_lower.
      destruct (Nat.ltb_spec k i); [|lia].
      destruct (Nat.ltb_spec k j); [|lia].
      rewrite HD, !HL by lia.
      pose proof (schur_pivot_pos d ad k Hpd ltac:(lia)).
      field. lra. }
  pose proof (schur_telescope (packed ad) i j j (Nat.le_refl j) Hj) as Ht.
  assert (Hlast : unit_lower F i j * F j j * unit_lower F j j
                  = schur j (packed ad) i j).
  { unfold unit_lower. rewrite Nat.ltb_irrefl, Nat.eqb_refl.
    destruct (Nat.ltb_spec j i).
    - rewrite HD, HL by lia.
      pose proof (schur_pivot_pos d ad j Hpd ltac:(lia)).
      field. lra.
    - assert (i = j) by lia. subst i. rewrite Nat.eqb_refl, HD by lia. ring. }
  rewrite Hlast, Ht. ring.
Qed.

(** C8: for a symmetric positive-definite matrix [A] of size [d] in packed
    lower-triangular storage [ad] and any right-hand side [b],
    [_fact_crout_pp] followed by [_fw_and_bw_ldtl_pp] gives [x] with
    [A x = b] (in exact arithmetic), whatever the work arrays and the
    output array held before. *)

Theorem crout_solve (d : nat) (ad b aux0 aux1 x0 : array R) (i : nat) :
  sym_pos_def d ad -> (i < d)%nat ->
  mat_vec d ad
          (_fw_and_bw_ldtl_pp (_fact_crout_pp d aux0 ad) d aux1 x0 b) i
  = b i.
Proof.
  intros Hpd Hi. unfold mat_vec, _fw_and_bw_ldtl_pp.
  set (mat := _fact_crout_pp d aux0 ad).
  set (F := packed mat).
  set (y := for_loop 0 d (fw_ii mat b) aux1).
  set (z := for_loop 0 d (diag_ii mat) y).
  set (x := fold_left (bw_ii mat z d) (rev (range 0 d)) x0).
  pose proof (forward_spec mat b aux1 d) as Hy. fold y in Hy. cbv zeta in Hy.
  pose proof (diagonal_spec mat y d) as Hz. fold z in Hz.
  pose proof (backward_spec mat z x0 d) as Hx. fold x in Hx. cbv zeta in Hx.
  assert (HA : forall a c, (a < d)%nat -> (c < d)%nat ->
             symm (packed ad) a c
             = rsum (fun k => unit_lower F a k * F k k * unit_lower F c k) d).
  { intros a c Ha Hc. unfold symm. destruct (Nat.leb_spec c a).
    - apply (ldlt_entry d aux0 ad a c); assumption.
    - rewrite (ldlt_entry d aux0 ad c a) by (try assumption; lia).
      apply rsum_ext. intros; unfold F, mat; ring. }
  assert (Hcol : forall k, (k < d)%nat ->
             rsum (fun j => unit_lower F j k * x j) d = z k).
  { intros k Hk. rewrite <- (Hx k Hk), <- (rsum_unit_l k d x Hk), <- rsum_plus.
    apply rsum_ext. intros j Hj. unfold unit_lower, unit_vec, F.
    destruct (Nat.ltb_spec k j); destruct (Nat.eqb_spec j k);
      destruct (Nat.eqb_spec k j); destruct (Nat.leb_spec (S k) j);
      try lia; ring. }
  assert (Hpiv : forall k, (k < d)%nat -> F k k <> 0).
  { intros k Hk. unfold F, mat. rewrite fact_crout_schur by lia.
    rewrite (schur_stable _ k k k (d - 1)) by lia.
    pose proof (schur_pivot_pos d ad k Hpd Hk). lra. }
  rewrite (rsum_ext _
    (fun j => rsum (fun k => unit_lower F i k * F k k
                             * (unit_lower F j k * x j)) d)).
  2:{ intros j Hj. rewrite HA by assumption.
      rewrite <- rsum_scal_r. apply rsum_ext. intros; ring. }
  rewrite rsum_swap.
  rewrite (rsum_ext _ (fun k => unit_lower F i k * y k)).
  2:{ intros k Hk. rewrite rsum_scal_l, Hcol, Hz by assumption.
      fold F. field. apply Hpiv. assumption. }
  rewrite (rsum_vanish_above _ (S i) d).
  2: lia.
  2:{ intros k Hk. unfold unit_lower.
      destruct (Nat.ltb_spec k i); [lia|].
      destruct (Nat.eqb_spec k i); [lia|]. ring. }
  simpl.
  assert (Hu : unit_lower F i i = 1).
  { unfold unit_lower. rewrite Nat.ltb_irrefl, Nat.eqb_refl. reflexivity. }
  rewrite Hu.
  rewrite (rsum_ext (fun k => unit_lower F i k * y k)
                    (fun j => y j * packed mat i j)).
  - pose proof (Hy i Hi). lra.
  - intros k Hk. unfold unit_lower.
    destruct (Nat.ltb_spec k i); [|lia]. unfold F. ring.
Qed.

(** The matrix ((2, 1), (1, 2)) in packed storage. *)

Lemma crout_solve_witness :
  let ad : array R := fun k => match k with 1%nat => 1 | _ => 2 end in
  let b : array R := fun k => match k with 0%nat => 1 | _ => 0 end in
  let zero : array R := fun _ => 0 in
  sym_pos_def 2 ad
  /\ (0 < 2)%nat
  /\ mat_vec 2 ad
       (_fw_and_bw_ldtl_pp (_fact_crout_pp 2 zero ad) 2 zero zero b) 0%nat
     = b 0%nat.
Proof.
  intros ad b zero.
  assert (Hpd : sym_pos_def 2 ad).
  { intros v [i [Hi Hv]].
    unfold quad_form. cbn [rsum]. unfold symm, packed, row_start, ad.
    cbn [Nat.leb Nat.mul Nat.add Nat.div Nat.divmod fst].
    assert (Hnz : v 0%nat <> 0 \/ v 1%nat <> 0).
    { destruct i as [|[|i]]; [left|right|lia]; exact Hv. }
    destruct Hnz as [H|H].
    - assert (0 < v 0%nat * v 0%nat) by nra. nra.
    - assert (0 < v 1%nat * v 1%nat) by nra. nra. }
  split; [exact Hpd|]. split; [lia|].
  apply (crout_solve 2 ad b zero zero zero 0%nat Hpd). lia.
Defined.
(** ** Inversion by Cramer's rule *)

(** C7: for a packed symmetric matrix and for a full 3x3 matrix with a
    determinant that is not zero, the matrix left by the in-place
    inversion, multiplied by the original matrix on either side, is the
    identity (in exact arithmetic). *)

Theorem cramer_inverse_roundtrip (a : cs_cocg_6_t) (b : cs_real_33_t) :
  det_6 a <> 0 -> det_33 b <> 0 ->
  (mul_33 (sym_33 (_math_6_inv_cramer_sym_in_place a)) (sym_33 a) = identity_33
   /\ mul_33 (sym_33 a) (sym_33 (_math_6_inv_cramer_sym_in_place a)) = identity_33)
  /\ (mul_33 (cs_math_33_inv_cramer_in_place b) b = identity_33
      /\ mul_33 b (cs_math_33_inv_cramer_in_place b) = identity_33).
Proof.
  intros Ha Hb. destruct a, b. unfold det_6, det_33 in Ha, Hb. simpl in Ha, Hb.
  repeat split;
    unfold mul_33, identity_33, sym_33, _math_6_inv_cramer_sym_in_place,
      cs_math_33_inv_cramer_in_place; simpl; f_equal; field; lra.
Qed.

Lemma cramer_inverse_roundtrip_witness :
  let a := Cocg 2 2 2 1 0 0 in
  let b := M33 1 2 0 0 1 0 0 0 4 in
  det_6 a <> 0 /\ det_33 b <> 0
  /\ mul_33 (sym_33 (_math_6_inv_cramer_sym_in_place a)) (sym_33 a) = identity_33
  /\ mul_33 (cs_math_33_inv_cramer_in_place b) b = identity_33.
Proof.
  intros a b.
  assert (Ha : det_6 a <> 0) by (unfold det_6, a; simpl; lra).
  assert (Hb : det_33 b <> 0) by (unfold det_33, b; simpl; lra).
  split; [exact Ha|]. split; [exact Hb|].
  split.
  - exact (proj1 (proj1 (cramer_inverse_roundtrip a b Ha Hb))).
  - exact (proj1 (proj2 (cramer_inverse_roundtrip a b Ha Hb))).
Defined.


(** *** The kernel in binary64 *)

Lemma real_of_finite (x : PrimFloat.float) (s : bool) (m : positive) (e : Z) :
  FloatOps.Prim2SF x = SpecFloat.S754_finite s m e ->
  Binary64.real_of x
  = Some ((if s then - IZR (Zpos m) else IZR (Zpos m)) * powerRZ 2 e).
Proof. intros H. unfold Binary64.real_of. rewrite H. reflexivity. Qed.

Lemma real_of_one : Binary64.real_of PrimFloat.one = Some 1.
Proof.
  rewrite (real_of_finite _ false 4503599627370496 (-52))
    by (vm_compute; reflexivity).
  f_equal. unfold powerRZ. simpl. lra.
Qed.

Lemma real_of_almost_one :
  Binary64.real_of (Binary64.a3 Binary64.almost_ones) = Some (1 - / 2 ^ 28).
Proof.
  rewrite (real_of_finite _ false 9007199221186560 (-53))
    by (vm_compute; reflexivity).
  f_equal. unfold powerRZ. simpl. lra.
Qed.

Lemma real_of_minus_half :
  Binary64.real_of (PrimFloat.opp (PrimFloat.div PrimFloat.one PrimFloat.two))
  = Some (- / 2).
Proof.
  rewrite (real_of_finite _ true 4503599627370496 (-53))
    by (vm_compute; reflexivity).
  f_equal. unfold powerRZ. simpl. lra.
Qed.

(** C7, in the implementation: the matrix with 1 on the diagonal and
    [1 - 2^-28] elsewhere has binary64 entries and a determinant that is
    not zero; the binary64 kernel returns a matrix whose product with the
    original has [(1, -1/2, -1/2)] as first row, not the row [(1, 0, 0)]
    of the identity nor a rounding error away from it. *)

Lemma cramer_inverse_binary64_far_from_identity :
  let e := 1 - / 2 ^ 28 in
  let inv := Binary64._math_6_inv_cramer_sym_in_place Binary64.almost_ones in
  det_6 (Cocg 1 1 1 e e e) <> 0
  /\ real_of_6 Binary64.almost_ones = Some (Cocg 1 1 1 e e e)
  /\ real_of_3 (Binary64.product_row_0 inv Binary64.almost_ones)
     = Some (R3 1 (- / 2) (- / 2))
  /\ R3 1 (- / 2) (- / 2) <> R3 1 0 0.
Proof.
  intros e inv. split; [|split; [|split]].
  - unfold det_6, e. simpl. lra.
  - unfold real_of_6.
    change (Binary64.a0 Binary64.almost_ones) with PrimFloat.one.
    change (Binary64.a1 Binary64.almost_ones) with PrimFloat.one.
    change (Binary64.a2 Binary64.almost_ones) with PrimFloat.one.
    change (Binary64.a4 Binary64.almost_ones)
      with (Binary64.a3 Binary64.almost_ones).
    change (Binary64.a5 Binary64.almost_ones)
      with (Binary64.a3 Binary64.almost_ones).
    rewrite real_of_one, real_of_almost_one. reflexivity.
  - assert (H : Binary64.product_row_0 inv Binary64.almost_ones
                = (PrimFloat.one,
                   PrimFloat.opp (PrimFloat.div PrimFloat.one PrimFloat.two),
                   PrimFloat.opp (PrimFloat.div PrimFloat.one PrimFloat.two)))
      by (vm_compute; reflexivity).
    rewrite H. unfold real_of_3. cbn [fst snd].
    rewrite real_of_one, real_of_minus_half. reflexivity.
  - intros H. injection H as H _. lra.
Qed.
(** ** Clipping stage *)

Lemma scale3_scale3 (f1 f2 : R) (v : cs_real_3_t) :
  scale3 f2 (scale3 f1 v) = scale3 (f1 * f2) v.
Proof. destruct v. unfold scale3. simpl. f_equal; ring. Qed.

Lemma scale3_one (v : cs_real_3_t) : scale3 1 v = v.
Proof. destruct v. unfold scale3. simpl. f_equal; ring. Qed.

Lemma dot3_nonneg (v : cs_real_3_t) : 0 <= dot3 v v.
Proof. destruct v. unfold dot3. simpl. nra. Qed.

Lemma norm3_scale3_le (f : R) (v : cs_real_3_t) :
  0 <= f <= 1 -> norm3 (scale3 f v) <= norm3 v.
Proof.
  intros Hf. unfold norm3. apply sqrt_le_1.
  - apply dot3_nonneg.
  - apply dot3_nonneg.
  - pose proof (dot3_nonneg v) as Hv. destruct v as [x y z].
    unfold dot3, scale3 in *. simpl in *.
    replace (x * f * (x * f) + y * f * (y * f) + z * f * (z * f))
      with (f * f * (x * x + y * y + z * z)) by ring.
    assert (0 <= f * f <= 1) by nra. nra.
Qed.

(** The one-sided factor lies in [0, 1] as soon as the variation of the
    variable is non-negative. *)

Lemma one_sided_factor_bounds (climgp : R) (denum denom : array R) (c : nat) :
  0 < climgp -> 0 <= denom c ->
  0 <= one_sided_factor climgp denum denom c <= 1.
Proof.
  intros Hc Hd. unfold one_sided_factor.
  destruct (Rgt_dec (denum c) (climgp * denom c)) as [Hgt|]; [|lra].
  assert (Hp : 0 <= climgp * denom c) by nra.
  assert (Hn : 0 < denum c) by lra.
  split.
  - apply Rmult_le_pos; [exact Hp|]. left. apply Rinv_0_lt_compat. exact Hn.
  - apply (Rmult_le_reg_r (denum c)); [exact Hn|].
    unfold Rdiv. rewrite Rmult_assoc, Rinv_l by lra. lra.
Qed.

Lemma upd_max_nonneg (a : array R) (i : nat) (v : R) :
  (forall k, 0 <= a k) -> forall k, 0 <= upd a i (CS_MAX (a i) v) k.
Proof.
  intros H k. unfold upd. destruct (Nat.eqb_spec k i); [|apply H].
  pose proof (CS_MAX_ge_l (a i) v). specialize (H i). lra.
Qed.

Lemma clip_cell_i_face_nonneg m fvq var grad st f_id :
  denom_nonneg st -> denom_nonneg (clip_cell_i_face m fvq var grad st f_id).
Proof.
  destruct st as [denum denom]. unfold denom_nonneg, clip_cell_i_face. simpl.
  intros H. apply upd_max_nonneg. apply upd_max_nonneg. exact H.
Qed.

Lemma clip_face_i_face_nonneg m fvq var grad st f_id :
  denom_nonneg st -> denom_nonneg (clip_face_i_face m fvq var grad st f_id).
Proof.
  destruct st as [denum denom]. unfold denom_nonneg, clip_face_i_face. simpl.
  intros H. apply upd_max_nonneg. apply upd_max_nonneg. exact H.
Qed.

Lemma clip_cell_ext_nonneg fvq var grad ii st jj :
  denom_nonneg st -> denom_nonneg (clip_cell_ext fvq var grad ii st jj).
Proof.
  destruct st as [denum denom]. unfold denom_nonneg, clip_cell_ext. simpl.
  intros H. apply upd_max_nonneg. exact H.
Qed.

Lemma clip_face_ext_nonneg fvq var grad ii st jj :
  denom_nonneg st -> denom_nonneg (clip_face_ext fvq var grad ii st jj).
Proof.
  destruct st as [denum denom]. unfold denom_nonneg, clip_face_ext. simpl.
  intros H. apply upd_max_nonneg. exact H.
Qed.

Lemma ext_loop_inv {S : Type} (P : S -> Prop) m halo_type
      (body : nat -> S -> nat -> S) (s : S) :
  P s -> (forall ii t jj, P t -> P (body ii t jj)) ->
  P (ext_loop m halo_type body s).
Proof.
  intros H0 Hstep. unfold ext_loop.
  destruct (cell_cells_idx m); [|exact H0].
  destruct (halo_type_eqb halo_type CS_HALO_EXTENDED); [|exact H0].
  apply for_loop_inv; [exact H0|].
  intros t ii _ Ht. apply fold_left_inv; [exact Ht|].
  intros a b _. apply Hstep.
Qed.

Lemma clip_cell_apply_rescaled climgp denum denom grad a ii :
  0 < climgp -> (forall i, 0 <= denom i) ->
  rescaled grad (acc_grad a) ->
  rescaled grad (acc_grad (clip_cell_apply climgp denum denom a ii)).
Proof.
  intros Hc Hd Ha c. unfold clip_cell_apply.
  pose proof (one_sided_factor_bounds climgp denum denom ii Hc (Hd ii)) as Hb.
  unfold one_sided_factor in Hb.
  destruct (Rgt_dec (denum ii) (climgp * denom ii)); [|apply Ha].
  simpl. unfold upd. destruct (Nat.eqb_spec c ii); [|apply Ha].
  subst c. destruct (Ha ii) as [f [Hf Hg]].
  exists (f * (climgp * denom ii / denum ii)). split; [nra|].
  rewrite Hg. apply scale3_scale3.
Qed.

(** Face-based clipping: the factors decrease from [DBL_MAX], stay
    non-negative, and fall to at most 1 at both ends of a visited face. *)

Lemma clip_factor_i_face_spec m climgp denum denom cf f_id :
  0 < climgp -> (forall i, 0 <= denom i) -> (forall i, 0 <= cf i) ->
  let cf' := clip_factor_i_face m climgp denum denom cf f_id in
  (forall i, 0 <= cf' i <= cf i)
  /\ cf' (fst (i_face_cells m f_id)) <= 1
  /\ cf' (snd (i_face_cells m f_id)) <= 1.
Proof.
  intros Hc Hd Hcf. unfold clip_factor_i_face.
  set (ii := fst (i_face_cells m f_id)).
  set (jj := snd (i_face_cells m f_id)).
  pose proof (one_sided_factor_bounds climgp denum denom ii Hc (Hd ii)) as H1.
  pose proof (one_sided_factor_bounds climgp denum denom jj Hc (Hd jj)) as H2.
  set (l := CS_MIN (one_sided_factor climgp denum denom ii)
                   (one_sided_factor climgp denum denom jj)).
  assert (Hl : 0 <= l <= 1).
  { unfold l. split; [apply CS_MIN_glb; lra|].
    pose proof (CS_MIN_le_l (one_sided_factor climgp denum denom ii)
                            (one_sided_factor climgp denum denom jj)). lra. }
  cbv zeta.
  assert (Hstep : forall (a : array R) k, (forall i, 0 <= a i) ->
            (forall i, 0 <= upd a k (CS_MIN (a k) l) i <= a i)
            /\ upd a k (CS_MIN (a k) l) k <= 1).
  { intros a k Ha. split.
    - intros i. unfold upd. destruct (Nat.eqb_spec i k).
      + subst i. split; [apply CS_MIN_glb; [apply Ha|lra]|apply CS_MIN_le_l].
      + specialize (Ha i). lra.
    - rewrite upd_same. pose proof (CS_MIN_le_r (a k) l). lra. }
  destruct (Hstep cf ii Hcf) as [Ha1 Hb1].
  destruct (Hstep (upd cf ii (CS_MIN (cf ii) l)) jj
                  (fun i => proj1 (Ha1 i))) as [Ha2 Hb2].
  repeat split.
  - apply Ha2.
  - specialize (Ha1 i). specialize (Ha2 i). lra.
  - specialize (Ha2 ii). lra.
  - exact Hb2.
Qed.

Lemma clip_factor_faces_spec m climgp denum denom (l : list nat) cf :
  0 < climgp -> (forall i, 0 <= denom i) -> (forall i, 0 <= cf i) ->
  let cf' := fold_left (clip_factor_i_face m climgp denum denom) l cf in
  (forall i, 0 <= cf' i <= cf i)
  /\ forall f_id, In f_id l ->
       cf' (fst (i_face_cells m f_id)) <= 1
       /\ cf' (snd (i_face_cells m f_id)) <= 1.
Proof.
  intros Hc Hd. revert cf. induction l as [|x l IH]; intros cf Hcf; simpl.
  - split; [intros i; specialize (Hcf i); lra|intros f []].
  - destruct (clip_factor_i_face_spec m climgp denum denom cf x Hc Hd Hcf)
      as [Ha [Hb1 Hb2]].
    destruct (IH _ (fun i => proj1 (Ha i))) as [Ha' Hb'].
    split.
    + intros i. specialize (Ha i). specialize (Ha' i). lra.
    + intros f [->|Hin]; [|apply Hb'; exact Hin].
      pose proof (Ha' (fst (i_face_cells m f))).
      pose proof (Ha' (snd (i_face_cells m f))). lra.
Qed.

Lemma fold_min_factor_bounds climgp denum denom (l : list nat) (f0 : R) :
  0 < climgp -> (forall i, 0 <= denom i) -> 0 <= f0 <= 1 ->
  0 <= fold_left
         (fun factor1 jj =>
            CS_MIN factor1 (one_sided_factor climgp denum denom jj)) l f0
    <= 1.
Proof.
  intros Hc Hd. revert f0. induction l as [|x l IH]; intros f0 Hf; simpl;
    [exact Hf|].
  apply IH.
  pose proof (one_sided_factor_bounds climgp denum denom x Hc (Hd x)).
  split; [apply CS_MIN_glb; lra|].
  pose proof (CS_MIN_le_l f0 (one_sided_factor climgp denum denom x)). lra.
Qed.

Lemma clip_factor_ext_spec m halo_type climgp denum denom cf :
  0 < climgp -> (forall i, 0 <= denom i) -> (forall i, 0 <= cf i) ->
  let cf' := clip_factor_ext m halo_type climgp denum denom cf in
  (forall i, 0 <= cf' i <= cf i)
  /\ (ext_active m halo_type ->
      forall c, (c < n_cells m)%nat -> cf' c <= 1).
Proof.
  intros Hc Hd Hcf. unfold clip_factor_ext, ext_active.
  destruct (cell_cells_idx m) as [idx|].
  2:{ split; [intros i; specialize (Hcf i); lra|]. intros [H _]. congruence. }
  destruct halo_type; simpl.
  { split; [intros i; specialize (Hcf i); lra|]. intros [_ H]. discriminate. }
  assert (Hinv :
    let cf' := for_loop 0 (n_cells m)
                 (clip_factor_ext_cell m idx climgp denum denom) cf in
    (forall i, 0 <= cf' i <= cf i)
    /\ forall c, (c < n_cells m)%nat -> cf' c <= 1).
  { apply (for_loop_ind
             (fun k cf' => (forall i, 0 <= cf' i <= cf i)
                           /\ forall c, (c < k)%nat -> cf' c <= 1)); [lia| |].
    - split; [intros i; specialize (Hcf i); lra|intros; lia].
    - intros k a Hk [Ha Hb]. unfold clip_factor_ext_cell.
      pose proof (fold_min_factor_bounds climgp denum denom
                    (ext_neighbours m idx k) 1 Hc Hd ltac:(lra)) as Hf.
      split.
      + intros i. unfold upd. destruct (Nat.eqb_spec i k).
        * subst i. specialize (Ha k).
          split; [apply CS_MIN_glb; lra|].
          pose proof (CS_MIN_le_l (a k)
            (fold_left
               (fun factor1 jj =>
                  CS_MIN factor1 (one_sided_factor climgp denum denom jj))
               (ext_neighbours m idx k) 1)). lra.
        * apply Ha.
      + intros c Hck. unfold upd. destruct (Nat.eqb_spec c k).
        * subst c.
          pose proof (CS_MIN_le_r (a k)
            (fold_left
               (fun factor1 jj =>
                  CS_MIN factor1 (one_sided_factor climgp denum denom jj))
               (ext_neighbours m idx k) 1)). lra.
        * apply Hb. lia. }
  destruct Hinv as [Ha Hb]. split; [exact Ha|]. intros _. exact Hb.
Qed.

Lemma clip_face_apply_spec (cf : array R) (grad : array cs_real_3_t)
      (n : nat) (a0 : clip_acc) :
  acc_grad a0 = grad ->
  forall c,
    acc_grad (for_loop 0 n (clip_face_apply cf) a0) c
    = if (c <? n)%nat then scale3 (cf c) (grad c) else grad c.
Proof.
  intros H0.
  apply (for_loop_ind
           (fun k a => forall c,
              acc_grad a c
              = if (c <? k)%nat then scale3 (cf c) (grad c) else grad c));
    [lia| |].
  - intros c. rewrite H0. reflexivity.
  - intros k a Hk IH c.
    assert (Hg : acc_grad (clip_face_apply cf a k)
                 = upd (acc_grad a) k (scale3 (cf k) (acc_grad a k))).
    { unfold clip_face_apply. destruct (Rlt_dec (cf k) 0.99); reflexivity. }
    rewrite Hg. unfold upd. destruct (Nat.eqb_spec c k).
    + subst c. rewrite IH.
      destruct (Nat.ltb_spec k k); [lia|].
      destruct (Nat.ltb_spec k (S k)); [reflexivity|lia].
    + rewrite IH.
      destruct (Nat.ltb_spec c k), (Nat.ltb_spec c (S k)); try lia; reflexivity.
Qed.

(** The final exchange leaves owned cells as they are. *)

Lemma final_sync_owned m (ht : cs_halo_type_t) (grad : array cs_real_3_t) c :
  halo_keeps_owned m -> (c < n_cells m)%nat ->
  match halo m with
  | Some h => cs_halo_perio_sync_var_vect h ht (cs_halo_sync_var_strided h ht grad)
  | None => grad
  end c = grad c.
Proof.
  intros Hh Hc. destruct (halo m) as [h|] eqn:E; [|reflexivity].
  destruct (Hh h E ht c Hc) as [_ [H2 H3]]. rewrite H3, H2. reflexivity.
Qed.

(** C10 (amended): for every clip mode not above [CS_GRADIENT_LIMIT_NONE]
    (that is, every negative mode) the clipping stage returns at once and
    leaves the gradient and the log as they were. *)

Theorem clipping_disabled_is_noop
        g m fvq halo_type clip_mode verbosity climgp var_name var grad log :
  (clip_mode <= CS_GRADIENT_LIMIT_NONE)%Z ->
  _scalar_gradient_clipping g m fvq halo_type clip_mode verbosity climgp
                            var_name var grad log
  = (grad, log).
Proof.
  intros H. unfold _scalar_gradient_clipping.
  destruct (Z.leb_spec clip_mode CS_GRADIENT_LIMIT_NONE); [reflexivity|lia].
Qed.

Lemma clipping_disabled_is_noop_witness :
  (-1 <= CS_GRADIENT_LIMIT_NONE)%Z
  /\ _scalar_gradient_clipping Examples.glob0 Examples.mesh_2 Examples.fvq_unit
       CS_HALO_STANDARD (-1) 2 1 "p" Examples.var_zero Examples.grad_x []
     = (Examples.grad_x, []).
Proof.
  split; [unfold CS_GRADIENT_LIMIT_NONE; lia|].
  apply clipping_disabled_is_noop. unfold CS_GRADIENT_LIMIT_NONE. lia.
Defined.

Lemma rescaled_norm (grad grad' : array cs_real_3_t) (c : nat) :
  (exists f, 0 <= f <= 1 /\ grad' c = scale3 f (grad c)) ->
  norm3 (grad' c) <= norm3 (grad c)
  /\ exists f, 0 <= f <= 1 /\ grad' c = scale3 f (grad c).
Proof.
  intros [f [Hf Hg]]. split.
  - rewrite Hg. apply norm3_scale3_le. exact Hf.
  - exists f. split; assumption.
Qed.

Lemma clipping_cell_rescales
      g m fvq halo_type verbosity climgp var_name var grad log c :
  0 < climgp -> halo_keeps_owned m -> (c < n_cells m)%nat ->
  exists f, 0 <= f <= 1 /\
    fst (_scalar_gradient_clipping g m fvq halo_type CS_GRADIENT_LIMIT_CELL
           verbosity climgp var_name var grad log) c
    = scale3 f (grad c).
Proof.
  intros Hc Hh Hcell. unfold _scalar_gradient_clipping.
  change (CS_GRADIENT_LIMIT_CELL <=? CS_GRADIENT_LIMIT_NONE)%Z with false.
  change (CS_GRADIENT_LIMIT_CELL =? CS_GRADIENT_LIMIT_FACE)%Z with false.
  change (CS_GRADIENT_LIMIT_CELL =? CS_GRADIENT_LIMIT_CELL)%Z with true.
  cbv beta iota.
  replace (match halo m with Some _ => grad | None => grad end) with grad
    by (destruct (halo m); reflexivity).
  destruct (ext_loop m halo_type (clip_cell_ext fvq var grad)
              (fold_left (clip_cell_i_face m fvq var grad) (i_face_order m)
                         (fun _ => 0, fun _ => 0)))
    as [denum denom] eqn:E.
  assert (Hd : forall i, 0 <= denom i).
  { change denom with (snd (denum, denom)). rewrite <- E.
    apply (ext_loop_inv denom_nonneg).
    - apply (fold_left_inv denom_nonneg).
      + intros i. simpl. lra.
      + intros a b _. apply clip_cell_i_face_nonneg.
    - intros ii t jj. apply clip_cell_ext_nonneg. }
  set (t := for_loop 0 (n_cells m) (clip_cell_apply climgp denum denom)
                     (Clip_acc grad 1 0 0)).
  assert (Ht : rescaled grad (acc_grad t)).
  { unfold t. apply (for_loop_inv (fun a => rescaled grad (acc_grad a))).
    - intros k. exists 1. split; [lra|]. simpl. symmetry. apply scale3_one.
    - intros a i _ Ha. apply clip_cell_apply_rescaled; assumption. }
  destruct (Ht c) as [f [Hf Hg]]. exists f. split; [exact Hf|].
  cbv zeta. simpl fst.
  match goal with
  | |- match halo m with Some h => _ | None => ?a end c = _ =>
      transitivity (a c)
  end.
  - apply final_sync_owned; assumption.
  - destruct (1 <? n_domains m)%nat; simpl; exact Hg.
Qed.

Lemma clipping_face_rescales
      g m fvq halo_type verbosity climgp var_name var grad log c :
  0 < climgp -> halo_keeps_owned m -> halo_keeps_nonneg m ->
  (c < n_cells m)%nat ->
  on_interior_face m c \/ ext_active m halo_type ->
  exists f, 0 <= f <= 1 /\
    fst (_scalar_gradient_clipping g m fvq halo_type CS_GRADIENT_LIMIT_FACE
           verbosity climgp var_name var grad log) c
    = scale3 f (grad c).
Proof.
  intros Hc Hh Hn Hcell Hnb. unfold _scalar_gradient_clipping.
  change (CS_GRADIENT_LIMIT_FACE <=? CS_GRADIENT_LIMIT_NONE)%Z with false.
  change (CS_GRADIENT_LIMIT_FACE =? CS_GRADIENT_LIMIT_FACE)%Z with true.
  change (CS_GRADIENT_LIMIT_FACE =? CS_GRADIENT_LIMIT_CELL)%Z with false.
  cbv beta iota.
  set (grad1 := match halo m with
                | Some h => cs_halo_perio_sync_var_vect h halo_type
                              (cs_halo_sync_var_strided h halo_type grad)
                | None => grad
                end).
  assert (Hg1 : grad1 c = grad c) by (apply final_sync_owned; assumption).
  destruct (ext_loop m halo_type (clip_face_ext fvq var grad1)
              (fold_left (clip_face_i_face m fvq var grad1) (i_face_order m)
                         (fun _ => 0, fun _ => 0)))
    as [denum denom] eqn:E.
  assert (Hd : forall i, 0 <= denom i).
  { change denom with (snd (denum, denom)). rewrite <- E.
    apply (ext_loop_inv denom_nonneg).
    - apply (fold_left_inv denom_nonneg).
      + intros i. simpl. lra.
      + intros a b _. apply clip_face_i_face_nonneg.
    - intros ii t jj. apply clip_face_ext_nonneg. }
  destruct (match halo m with
            | Some h => (cs_halo_sync_var h halo_type denom,
                         cs_halo_sync_var h halo_type denum)
            | None => (denom, denum)
            end) as [denom' denum'] eqn:E'.
  assert (Hd' : forall i, 0 <= denom' i).
  { destruct (halo m) as [h|] eqn:Eh; inversion E'; subst.
    - apply (Hn h Eh). exact Hd.
    - exact Hd. }
  set (cf1 := fold_left (clip_factor_i_face m climgp denum' denom')
                        (i_face_order m) (fun _ => DBL_MAX)).
  set (cf2 := clip_factor_ext m halo_type climgp denum' denom' cf1).
  assert (H0 : forall i : nat, 0 <= DBL_MAX)
    by (intros _; pose proof DBL_MAX_ge_1; lra).
  destruct (clip_factor_faces_spec m climgp denum' denom' (i_face_order m)
              (fun _ => DBL_MAX) Hc Hd' H0) as [Ha1 Hb1].
  fold cf1 in Ha1, Hb1.
  destruct (clip_factor_ext_spec m halo_type climgp denum' denom' cf1 Hc Hd'
              (fun i => proj1 (Ha1 i))) as [Ha2 Hb2].
  fold cf2 in Ha2, Hb2.
  assert (Hcf : 0 <= cf2 c <= 1).
  { split; [apply Ha2|]. destruct Hnb as [[f_id [Hin Hends]]|Hext].
    - destruct (Hb1 f_id Hin) as [Hf Hs]. specialize (Ha2 c).
      destruct Hends as [<-|<-]; lra.
    - apply Hb2; assumption. }
  exists (cf2 c). split; [exact Hcf|].
  cbv zeta. simpl fst.
  match goal with
  | |- match halo m with Some h => _ | None => ?a end c = _ =>
      transitivity (a c)
  end.
  - apply final_sync_owned; assumption.
  - rewrite <- Hg1.
    destruct (1 <? n_domains m)%nat; simpl;
      rewrite (clip_face_apply_spec cf2 grad1) by reflexivity;
      destruct (Nat.ltb_spec c (n_cells m)); try lia; reflexivity.
Qed.

(** C1 (amended): for a positive clip coefficient and either enabled clip
    mode, every owned cell's gradient leaves [_scalar_gradient_clipping]
    multiplied by a factor of the closed interval [0, 1], so its Euclidean
    magnitude does not grow; in the face-based mode this is stated for the
    cells that are an end of a visited interior face, or for all owned
    cells when the extended neighbourhood is active. *)

Theorem clipping_shrinks_gradient
        g m fvq halo_type clip_mode verbosity climgp var_name var grad log c :
  0 < climgp ->
  clip_mode = CS_GRADIENT_LIMIT_CELL \/ clip_mode = CS_GRADIENT_LIMIT_FACE ->
  halo_keeps_owned m -> halo_keeps_nonneg m ->
  (c < n_cells m)%nat ->
  (clip_mode = CS_GRADIENT_LIMIT_FACE ->
   on_interior_face m c \/ ext_active m halo_type) ->
  let grad' := fst (_scalar_gradient_clipping g m fvq halo_type clip_mode
                      verbosity climgp var_name var grad log) in
  norm3 (grad' c) <= norm3 (grad c)
  /\ exists f, 0 <= f <= 1 /\ grad' c = scale3 f (grad c).
Proof.
  intros Hc Hmode Hh Hn Hcell Hnb grad'. apply rescaled_norm. subst grad'.
  destruct Hmode as [->| ->].
  - apply clipping_cell_rescales; assumption.
  - apply clipping_face_rescales; try assumption. apply Hnb. reflexivity.
Qed.

Lemma no_halo_keeps_owned (m : cs_mesh_t) : halo m = None -> halo_keeps_owned m.
Proof. intros H h Hh. congruence. Qed.

Lemma no_halo_keeps_nonneg (m : cs_mesh_t) : halo m = None -> halo_keeps_nonneg m.
Proof. intros H h Hh. congruence. Qed.

Lemma clipping_shrinks_gradient_witness :
  let grad' := fst (_scalar_gradient_clipping Examples.glob0 Examples.mesh_2
                      Examples.fvq_unit CS_HALO_STANDARD CS_GRADIENT_LIMIT_CELL
                      0 1 "p" Examples.var_zero Examples.grad_x []) in
  0 < 1
  /\ halo_keeps_owned Examples.mesh_2
  /\ halo_keeps_nonneg Examples.mesh_2
  /\ (0 < n_cells Examples.mesh_2)%nat
  /\ norm3 (grad' 0%nat) <= norm3 (Examples.grad_x 0%nat)
  /\ exists f, 0 <= f <= 1 /\ grad' 0%nat = scale3 f (Examples.grad_x 0%nat).
Proof.
  intros grad'.
  split; [lra|].
  split; [apply no_halo_keeps_owned; reflexivity|].
  split; [apply no_halo_keeps_nonneg; reflexivity|].
  split; [simpl; lia|].
  apply (clipping_shrinks_gradient Examples.glob0 Examples.mesh_2
           Examples.fvq_unit CS_HALO_STANDARD CS_GRADIENT_LIMIT_CELL 0 1 "p"
           Examples.var_zero Examples.grad_x [] 0%nat).
  - lra.
  - left. reflexivity.
  - apply no_halo_keeps_owned. reflexivity.
  - apply no_halo_keeps_nonneg. reflexivity.
  - simpl. lia.
  - intros H. discriminate H.
Defined.

(** Without a halo the cell-based stage returns the result of its clipping
    loop. *)

Lemma clipping_cell_no_halo
      g m fvq halo_type verbosity climgp var_name var grad log :
  halo m = None ->
  fst (_scalar_gradient_clipping g m fvq halo_type CS_GRADIENT_LIMIT_CELL
         verbosity climgp var_name var grad log)
  = let st := ext_loop m halo_type (clip_cell_ext fvq var grad)
                (fold_left (clip_cell_i_face m fvq var grad) (i_face_order m)
                           (fun _ => 0, fun _ => 0)) in
    acc_grad (for_loop 0 (n_cells m) (clip_cell_apply climgp (fst st) (snd st))
                       (Clip_acc grad 1 0 0)).
Proof.
  intros Hh. unfold _scalar_gradient_clipping.
  change (CS_GRADIENT_LIMIT_CELL <=? CS_GRADIENT_LIMIT_NONE)%Z with false.
  change (CS_GRADIENT_LIMIT_CELL =? CS_GRADIENT_LIMIT_FACE)%Z with false.
  change (CS_GRADIENT_LIMIT_CELL =? CS_GRADIENT_LIMIT_CELL)%Z with true.
  cbv beta iota. rewrite Hh.
  destruct (ext_loop m halo_type (clip_cell_ext fvq var grad)
              (fold_left (clip_cell_i_face m fvq var grad) (i_face_order m)
                         (fun _ => 0, fun _ => 0))) as [denum denom].
  cbv zeta. simpl fst. simpl snd.
  destruct (1 <? n_domains m)%nat; reflexivity.
Qed.

(** Two cells holding the same value and a unit gradient along the line of
    their centres: the cell-based stage (mode 0) zeroes the gradient. *)

Lemma mesh_2_cell_clip_result :
  fst (_scalar_gradient_clipping Examples.glob0 Examples.mesh_2
         Examples.fvq_unit CS_HALO_STANDARD CS_GRADIENT_LIMIT_CELL 0 1 "p"
         Examples.var_zero Examples.grad_x []) 0%nat
  = R3 0 0 0.
Proof.
  rewrite clipping_cell_no_halo by reflexivity.
  change (i_face_order Examples.mesh_2) with [0%nat].
  unfold ext_loop. cbn [cell_cells_idx Examples.mesh_2 fold_left].
  set (st := clip_cell_i_face Examples.mesh_2 Examples.fvq_unit
               Examples.var_zero Examples.grad_x (fun _ => 0, fun _ => 0) 0).
  assert (Hnum : fst st 0%nat = 1).
  { unfold st, clip_cell_i_face. cbn [fst snd i_face_cells Examples.mesh_2].
    rewrite upd_other by lia. rewrite upd_same.
    unfold dot3, sub3, Examples.fvq_unit, Examples.grad_x.
    cbn [cx cy cz cell_cen INR].
    replace ((0 - 1) * 1 + (0 - 0) * 0 + (0 - 0) * 0) with (-1) by ring.
    rewrite CS_ABS_of_neg by lra. rewrite CS_MAX_of_le by lra. ring. }
  assert (Hden : snd st 0%nat = 0).
  { unfold st, clip_cell_i_face. cbn [fst snd i_face_cells Examples.mesh_2].
    rewrite upd_other by lia. rewrite upd_same.
    unfold Examples.var_zero. replace (0 - 0) with 0 by ring.
    rewrite CS_ABS_of_nonneg by lra. rewrite CS_MAX_of_le by lra. ring. }
  cbv zeta. change (n_cells Examples.mesh_2) with 2%nat.
  rewrite for_loop_S by lia. rewrite for_loop_S by lia.
  rewrite for_loop_nil by lia.
  set (a1 := clip_cell_apply 1 (fst st) (snd st)
                             (Clip_acc Examples.grad_x 1 0 0) 0).
  assert (H1 : acc_grad a1 0%nat = R3 0 0 0).
  { unfold a1, clip_cell_apply. rewrite Hnum, Hden.
    destruct (Rgt_dec 1 (1 * 0)); [|lra].
    cbn [acc_grad]. rewrite upd_same. unfold scale3, Examples.grad_x.
    cbn [cx cy cz]. f_equal; field. }
  unfold clip_cell_apply.
  destruct (Rgt_dec (fst st 1%nat) (1 * snd st 1%nat)).
  - cbn [acc_grad]. rewrite upd_other by lia. exact H1.
  - exact H1.
Qed.

(** C1 as stated fails: with a positive coefficient and the cell-based
    mode, the factor applied to cell 0 of the two-cell mesh is 0, outside
    the half-open interval (0, 1]. *)

Lemma clipping_factor_can_be_zero :
  0 < 1
  /\ (0 < n_cells Examples.mesh_2)%nat
  /\ ~ (exists f, 0 < f <= 1 /\
          fst (_scalar_gradient_clipping Examples.glob0 Examples.mesh_2
                 Examples.fvq_unit CS_HALO_STANDARD CS_GRADIENT_LIMIT_CELL
                 0 1 "p" Examples.var_zero Examples.grad_x []) 0%nat
          = scale3 f (Examples.grad_x 0%nat)).
Proof.
  split; [lra|]. split; [simpl; lia|].
  intros [f [Hf Heq]]. rewrite mesh_2_cell_clip_result in Heq.
  unfold scale3, Examples.grad_x in Heq. cbn [cx cy cz] in Heq.
  injection Heq as Hx _ _. lra.
Qed.

(** C10 as stated fails: clip mode 0 is non-positive, yet it is the
    cell-based mode and changes the gradient. *)

Lemma clipping_mode_zero_is_active :
  (0 <= 0)%Z
  /\ _scalar_gradient_clipping Examples.glob0 Examples.mesh_2
       Examples.fvq_unit CS_HALO_STANDARD 0 0 1 "p"
       Examples.var_zero Examples.grad_x []
     <> (Examples.grad_x, []).
Proof.
  split; [lia|]. intros H.
  pose proof mesh_2_cell_clip_result as Hr.
  change CS_GRADIENT_LIMIT_CELL with 0%Z in Hr.
  rewrite H in Hr. simpl in Hr. unfold Examples.grad_x in Hr.
  injection Hr as Hx. lra.
Qed.

(** ** Iterative driver: sweep loop *)

Section SweepLoop.

Variables (g : cs_glob_t) (m : cs_mesh_t).
Variable one_sweep : array cs_real_3_t -> array cs_real_3_t * array cs_real_3_t.
Variables (var_name : string) (verbosity : Z) (epsrgp rnorm : R).

Local Abbreviation tol := (epsrgp * rnorm).
Local Abbreviation res := (sweep_residual g m one_sweep).
Local Abbreviation run :=
  (sweep_loop g m one_sweep var_name verbosity epsrgp rnorm).

(** The loop stops at the first sweep whose residual is below the
    tolerance, or after [todo] sweeps. *)

Lemma sweep_loop_spec (todo : nat) (s : sweep_state) :
  exists k : nat,
    (k <= todo)%nat
    /\ sw_grad (run todo s) = sweep_grad one_sweep k (sw_grad s)
    /\ (forall j, (1 <= j < k)%nat -> ~ res j (sw_grad s) < tol)
    /\ ((1 <= k)%nat
        /\ res k (sw_grad s) < tol
        /\ sw_l2_residual (run todo s) = res k (sw_grad s)
        /\ sw_n_sweeps (run todo s) = (sw_n_sweeps s + Z.of_nat k - 1)%Z
        /\ sw_log (run todo s)
           = sw_log s
             ++ (if (2 <=? verbosity)%Z
                 then [Log_converged var_name (sw_n_sweeps s + Z.of_nat k - 1)%Z
                                     (res k (sw_grad s) / rnorm) rnorm]
                 else [])
        \/
        k = todo
        /\ ((1 <= k)%nat -> ~ res k (sw_grad s) < tol)
        /\ sw_l2_residual (run todo s)
           = (if (k =? 0)%nat then sw_l2_residual s else res k (sw_grad s))
        /\ sw_n_sweeps (run todo s) = (sw_n_sweeps s + Z.of_nat k)%Z
        /\ sw_log (run todo s) = sw_log s).
Proof.
  revert s. induction todo as [|todo IH]; intros s.
  - exists 0%nat. split; [lia|]. split; [reflexivity|].
    split; [intros j Hj; lia|]. right.
    split; [reflexivity|]. split; [intros H; lia|].
    split; [reflexivity|]. split; [simpl; lia|reflexivity].
  - simpl.
    destruct (one_sweep (sw_grad s)) as [grad1 rhs1] eqn:E.
    assert (Hg1 : fst (one_sweep (sw_grad s)) = grad1) by (rewrite E; reflexivity).
    assert (Hr1 : res 1 (sw_grad s) = _l2_norm_1 g (n_cells m) rhs1).
    { simpl. rewrite E. reflexivity. }
    destruct (Rlt_dec (_l2_norm_1 g (n_cells m) rhs1) (epsrgp * rnorm))
      as [Hlt|Hge].
    + exists 1%nat. split; [lia|]. simpl sw_grad.
      split; [simpl; rewrite Hg1; reflexivity|].
      split; [intros j Hj; lia|]. left.
      split; [lia|]. split; [rewrite Hr1; exact Hlt|].
      split; [simpl; symmetry; exact Hr1|].
      split; [simpl; lia|]. simpl sw_log.
      replace (sw_n_sweeps s + Z.of_nat 1 - 1)%Z with (sw_n_sweeps s) by lia.
      rewrite Hr1. destruct (2 <=? verbosity)%Z; [reflexivity|].
      symmetry. apply app_nil_r.
    + set (s1 := Sweep_state grad1 (sw_n_sweeps s + 1)
                             (_l2_norm_1 g (n_cells m) rhs1) (sw_log s)).
      destruct (IH s1) as [k [Hk [Hgrad [Hmin Hstop]]]].
      assert (Hres : forall j, (1 <= j)%nat ->
                res (S j) (sw_grad s) = res j grad1).
      { intros j Hj. destruct j as [|j]; [lia|].
        simpl. rewrite Hg1. reflexivity. }
      exists (S k). split; [lia|].
      split; [simpl; rewrite Hg1; exact Hgrad|].
      split.
      { intros j Hj. destruct (Nat.eq_dec j 1) as [->|Hne].
        - rewrite Hr1. exact Hge.
        - destruct j as [|j]; [lia|]. rewrite Hres by lia.
          apply Hmin. lia. }
      destruct Hstop as [[Hk1 [Hlt [Hl2 [Hn Hlog]]]]|[Hk0 [Hnot [Hl2 [Hn Hlog]]]]].
      * left. split; [lia|]. rewrite Hres by lia.
        split; [exact Hlt|]. split; [exact Hl2|].
        split; [rewrite Hn; simpl; lia|].
        rewrite Hlog. simpl sw_n_sweeps. simpl sw_log. simpl sw_grad.
        replace (sw_n_sweeps s + 1 + Z.of_nat k - 1)%Z
          with (sw_n_sweeps s + Z.of_nat (S k) - 1)%Z by lia.
        reflexivity.
      * right. split; [lia|].
        split.
        { intros _. destruct (Nat.eq_dec k 0) as [->|Hk'].
          - rewrite Hr1. exact Hge.
          - rewrite Hres by lia. apply Hnot. lia. }
        split.
        { rewrite Hl2. simpl sw_l2_residual. simpl sw_grad.
          destruct (Nat.eqb_spec k 0) as [->|Hk'].
          - simpl. symmetry. exact Hr1.
          - simpl Nat.eqb. rewrite Hres by lia. reflexivity. }
        split; [rewrite Hn; simpl; lia|exact Hlog].
Qed.

End SweepLoop.

Lemma not_snoc_self {A : Type} (l : list A) (e : A) : l <> l ++ [e].
Proof.
  intros H. apply (f_equal (@List.length A)) in H.
  rewrite length_app in H. simpl in H. lia.
Qed.

Lemma not_warned_self (log : list log_event) : ~ warned log log.
Proof. intros [e [H _]]. exact (not_snoc_self log e H). Qed.

Lemma not_warned_converged (log : list log_event) (b : bool) (e : log_event) :
  is_warning e = false -> ~ warned log (log ++ (if b then [e] else [])).
Proof.
  intros He [e' [H Hw]]. destruct b.
  - apply app_inv_head in H. injection H as <-. congruence.
  - rewrite app_nil_r in H. exact (not_snoc_self log e' H).
Qed.

Lemma warned_snoc (log : list log_event) (e : log_event) :
  is_warning e = true -> warned log (log ++ [e]).
Proof. intros H. exists e. split; [reflexivity|exact H]. Qed.

Lemma l2_norm_nonneg g n x : 0 <= _l2_norm_1 g n x.
Proof. unfold _l2_norm_1. apply sqrt_pos. Qed.

Lemma sweep_residual_nonneg g m one_sweep k grad :
  0 <= sweep_residual g m one_sweep k grad.
Proof.
  revert grad. induction k as [|k IH]; intros grad; simpl; [lra|].
  destruct k; [apply l2_norm_nonneg|apply IH].
Qed.

(** C2 (amended): with an initial norm above [cs_math_epzero] the driver
    runs [k] sweeps, [k] at most [max (nswrgp - 1) 0]; it stops at the first
    sweep whose residual norm is strictly below [epsrgp] times the initial
    norm, or else when the cap is reached; the output is the gradient of
    the last sweep run; a warning is written exactly when [nswrgp >= 1]
    (the driver returns at once and silently when [nswrgp < 1]), the last
    residual computed (0 when no sweep ran) is not below the tolerance and
    the verbosity is above -1.  The function always returns. *)

Theorem iterative_driver_sweeps
        g m fvq cpl w_stride var_name gradient_info nswrgp hyd_p_flag
        verbosity inc epsrgp f_ext coefap coefbp pvar c_weight store log grad :
  let rnorm := _l2_norm_1 g (n_cells m) grad in
  let one_sweep :=
    sweep g m fvq cpl (weighting_of w_stride c_weight) c_weight hyd_p_flag
          inc f_ext coefap coefbp pvar (cocg_it_used m fvq cpl store) in
  let r := _iterative_scalar_gradient g m fvq cpl w_stride var_name
             gradient_info nswrgp hyd_p_flag verbosity inc epsrgp f_ext
             coefap coefbp pvar c_weight store log grad in
  cs_math_epzero g < rnorm ->
  exists k : nat,
    (Z.of_nat k <= Z.max (nswrgp - 1) 0)%Z
    /\ it_grad r = sweep_grad one_sweep k grad
    /\ (forall j, (1 <= j < k)%nat ->
          ~ sweep_residual g m one_sweep j grad < epsrgp * rnorm)
    /\ ((1 <= k)%nat /\ sweep_residual g m one_sweep k grad < epsrgp * rnorm
        \/ Z.of_nat k = Z.max (nswrgp - 1) 0
           /\ ((1 <= k)%nat ->
               ~ sweep_residual g m one_sweep k grad < epsrgp * rnorm))
    /\ (warned log (it_log r)
        <-> (1 <= nswrgp)%Z
            /\ sweep_residual g m one_sweep k grad >= epsrgp * rnorm
            /\ (-1 < verbosity)%Z).
Proof.
  intros rnorm one_sweep r Hnorm. subst r. unfold _iterative_scalar_gradient.
  destruct (Z.ltb_spec nswrgp 1) as [Hn|Hn].
  - exists 0%nat. simpl it_grad. simpl it_log.
    split; [lia|]. split; [reflexivity|]. split; [intros j Hj; lia|].
    split; [right; split; [lia|intros H; lia]|].
    split; [intros H; exfalso; exact (not_warned_self log H)|].
    intros [H _]. lia.
  - fold (cocg_it_used m fvq cpl store).
    assert (Hc : fst (match cocg_it (gq_at (_gradient_quantities_get
                                              (gq_id_of cpl) store)
                                           (gq_id_of cpl)) with
                      | Some cocg =>
                          (cocg, _gradient_quantities_get (gq_id_of cpl) store)
                      | None =>
                          (_compute_cell_cocg_it m fvq cpl,
                           gq_set (_gradient_quantities_get (gq_id_of cpl) store)
                             (gq_id_of cpl)
                             {| cocg_it := Some (_compute_cell_cocg_it m fvq cpl);
                                cocgb_s_lsq :=
                                  cocgb_s_lsq
                                    (gq_at (_gradient_quantities_get
                                              (gq_id_of cpl) store)
                                           (gq_id_of cpl));
                                cocg_lsq :=
                                  cocg_lsq
                                    (gq_at (_gradient_quantities_get
                                              (gq_id_of cpl) store)
                                           (gq_id_of cpl));
                                cocgb_s_lsq_ext :=
                                  cocgb_s_lsq_ext
                                    (gq_at (_gradient_quantities_get
                                              (gq_id_of cpl) store)
                                           (gq_id_of cpl));
                                cocg_lsq_ext :=
                                  cocg_lsq_ext
                                    (gq_at (_gradient_quantities_get
                                              (gq_id_of cpl) store)
                                           (gq_id_of cpl)) |})
                      end)
                = cocg_it_used m fvq cpl store).
    { unfold cocg_it_used.
      destruct (cocg_it (gq_at (_gradient_quantities_get (gq_id_of cpl) store)
                               (gq_id_of cpl))); reflexivity. }
    cbv zeta.
    match goal with
    | |- context [let '(cocg, store0) := ?p in _] =>
        destruct p as [cocg store1] eqn:E
    end.
    simpl in Hc. subst cocg. fold rnorm. fold one_sweep.
    destruct (Rle_dec rnorm (cs_math_epzero g)) as [Hle|_]; [lra|].
    destruct (sweep_loop_spec g m one_sweep var_name verbosity epsrgp rnorm
                (Z.to_nat (nswrgp - 1)) (Sweep_state grad 1 0 log))
      as [k [Hk [Hgrad [Hmin Hstop]]]].
    simpl sw_grad in *. simpl sw_log in *. simpl sw_n_sweeps in *.
    simpl sw_l2_residual in *.
    set (s := sweep_loop g m one_sweep var_name verbosity epsrgp rnorm
                         (Z.to_nat (nswrgp - 1)) (Sweep_state grad 1 0 log)) in *.
    exists k. simpl it_grad. simpl it_log.
    split; [lia|]. split; [exact Hgrad|]. split; [exact Hmin|].
    destruct Hstop as [[Hk1 [Hlt [Hl2 [_ Hlog]]]]|[Hk0 [Hnot [Hl2 [_ Hlog]]]]].
    + split; [left; split; assumption|].
      rewrite Hl2, Hlog.
      destruct (Rge_dec (sweep_residual g m one_sweep k grad) (epsrgp * rnorm))
        as [Hge|_]; [lra|].
      split.
      * intros H. exfalso. revert H. apply not_warned_converged. reflexivity.
      * intros [_ [Hge _]]. lra.
    + split; [right; split; [lia|exact Hnot]|].
      assert (Hres : (if (k =? 0)%nat then 0
                      else sweep_residual g m one_sweep k grad)
                     = sweep_residual g m one_sweep k grad).
      { destruct (Nat.eqb_spec k 0) as [->|]; reflexivity. }
      rewrite Hl2, Hres, Hlog.
      destruct (Rge_dec (sweep_residual g m one_sweep k grad) (epsrgp * rnorm))
        as [Hge|Hlt].
      * destruct (Z.ltb_spec (-1) verbosity) as [Hv|Hv].
        -- split; [intros _; repeat split; [lia|exact Hge|exact Hv]|].
           intros _. apply warned_snoc. reflexivity.
        -- split; [intros H; exfalso; exact (not_warned_self log H)|].
           intros [_ [_ Hv']]. lia.
      * split; [intros H; exfalso; exact (not_warned_self log H)|].
        intros [_ [Hge _]]. contradiction.
Qed.

Lemma epzero_lt_1 : cs_math_epzero Examples.glob0 < 1.
Proof.
  change (cs_math_epzero Examples.glob0) with (/ 10 ^ 12).
  assert (H : 1 < 10 ^ 12) by (apply Rlt_pow_R1; [lra|lia]).
  assert (H1 : / 10 ^ 12 < / 1) by (apply Rinv_lt_contravar; lra).
  rewrite Rinv_1 in H1. exact H1.
Qed.

Lemma l2_norm_grad_x :
  _l2_norm_1 Examples.glob0 (n_cells Examples.mesh_1) Examples.grad_x = 1.
Proof.
  unfold _l2_norm_1. simpl. unfold dot3, Examples.grad_x. simpl.
  replace (0 + (1 * 1 + 0 * 0 + 0 * 0)) with 1 by ring. apply sqrt_1.
Qed.

Lemma iterative_driver_sweeps_witness :
  let rnorm := _l2_norm_1 Examples.glob0 (n_cells Examples.mesh_1)
                          Examples.grad_x in
  let one_sweep :=
    sweep Examples.glob0 Examples.mesh_1 Examples.fvq_unit None
          (weighting_of 1 None) None 0 1 Examples.f_ext_zero
          Examples.coefa_zero Examples.coefb_one Examples.var_zero
          (cocg_it_used Examples.mesh_1 Examples.fvq_unit None (@nil cs_gradient_quantities_t)) in
  let r := _iterative_scalar_gradient Examples.glob0 Examples.mesh_1
             Examples.fvq_unit None 1 "p" None 2 0 0 1 0 Examples.f_ext_zero
             Examples.coefa_zero Examples.coefb_one Examples.var_zero None
             (@nil cs_gradient_quantities_t) [] Examples.grad_x in
  cs_math_epzero Examples.glob0 < rnorm
  /\ exists k : nat,
    (Z.of_nat k <= Z.max (2 - 1) 0)%Z
    /\ it_grad r = sweep_grad one_sweep k Examples.grad_x
    /\ (forall j, (1 <= j < k)%nat ->
          ~ sweep_residual Examples.glob0 Examples.mesh_1 one_sweep j
              Examples.grad_x < 0 * rnorm)
    /\ ((1 <= k)%nat
        /\ sweep_residual Examples.glob0 Examples.mesh_1 one_sweep k
             Examples.grad_x < 0 * rnorm
        \/ Z.of_nat k = Z.max (2 - 1) 0
           /\ ((1 <= k)%nat ->
               ~ sweep_residual Examples.glob0 Examples.mesh_1 one_sweep k
                   Examples.grad_x < 0 * rnorm))
    /\ (warned [] (it_log r)
        <-> (1 <= 2)%Z
            /\ sweep_residual Examples.glob0 Examples.mesh_1 one_sweep k
                 Examples.grad_x >= 0 * rnorm
            /\ (-1 < 0)%Z).
Proof.
  intros rnorm one_sweep r.
  assert (H : cs_math_epzero Examples.glob0 < rnorm).
  { unfold rnorm. rewrite l2_norm_grad_x. exact epzero_lt_1. }
  split; [exact H|].
  exact (iterative_driver_sweeps Examples.glob0 Examples.mesh_1
           Examples.fvq_unit None 1 "p" None 2 0 0 1 0 Examples.f_ext_zero
           Examples.coefa_zero Examples.coefb_one Examples.var_zero None
           (@nil cs_gradient_quantities_t) [] Examples.grad_x H).
Defined.

(** With verbosity -1 the driver exhausts its cap of sweeps without any
    sweep meeting the tolerance, and writes nothing to the log. *)

Lemma iterative_cap_without_warning :
  let rnorm := _l2_norm_1 Examples.glob0 (n_cells Examples.mesh_1)
                          Examples.grad_x in
  let one_sweep :=
    sweep Examples.glob0 Examples.mesh_1 Examples.fvq_unit None
          (weighting_of 1 None) None 0 1 Examples.f_ext_zero
          Examples.coefa_zero Examples.coefb_one Examples.var_zero
          (cocg_it_used Examples.mesh_1 Examples.fvq_unit None (@nil cs_gradient_quantities_t)) in
  let r := _iterative_scalar_gradient Examples.glob0 Examples.mesh_1
             Examples.fvq_unit None 1 "p" None 2 0 (-1) 1 0
             Examples.f_ext_zero Examples.coefa_zero Examples.coefb_one
             Examples.var_zero None (@nil cs_gradient_quantities_t) [] Examples.grad_x in
  cs_math_epzero Examples.glob0 < rnorm
  /\ (forall j, ~ sweep_residual Examples.glob0 Examples.mesh_1 one_sweep j
                    Examples.grad_x < 0 * rnorm)
  /\ it_grad r = sweep_grad one_sweep (Z.to_nat (2 - 1)) Examples.grad_x
  /\ it_log r = []
  /\ ~ warned [] (it_log r).
Proof.
  intros rnorm one_sweep r.
  assert (Hn : rnorm = 1) by apply l2_norm_grad_x.
  assert (Hnone : forall j,
             ~ sweep_residual Examples.glob0 Examples.mesh_1 one_sweep j
                 Examples.grad_x < 0 * rnorm).
  { intros j Hj.
    pose proof (sweep_residual_nonneg Examples.glob0 Examples.mesh_1
                  one_sweep j Examples.grad_x). lra. }
  split; [rewrite Hn; exact epzero_lt_1|].
  split; [exact Hnone|].
  assert (Hr : it_grad r = sweep_grad one_sweep (Z.to_nat (2 - 1))
                                      Examples.grad_x
               /\ it_log r = []).
  { unfold r, _iterative_scalar_gradient.
    change (2 <? 1)%Z with false. cbv iota.
    fold (cocg_it_used Examples.mesh_1 Examples.fvq_unit None (@nil cs_gradient_quantities_t)).
    cbv zeta.
    match goal with
    | |- context [let '(cocg, store0) := ?p in _] =>
        assert (Hc : fst p = cocg_it_used Examples.mesh_1 Examples.fvq_unit
                                          None (@nil cs_gradient_quantities_t));
        [unfold cocg_it_used;
         destruct (cocg_it (gq_at (_gradient_quantities_get (gq_id_of None)
                                                            (@nil cs_gradient_quantities_t))
                                  (gq_id_of None))); reflexivity|];
        destruct p as [cocg store1]
    end.
    simpl in Hc. subst cocg. fold rnorm. fold one_sweep.
    destruct (Rle_dec rnorm (cs_math_epzero Examples.glob0)) as [Hle|_].
    { pose proof epzero_lt_1. lra. }
    generalize (Z.to_nat (2 - 1)). intros todo.
    destruct (sweep_loop_spec Examples.glob0 Examples.mesh_1 one_sweep "p"
                (-1)%Z 0 rnorm todo (Sweep_state Examples.grad_x 1 0 []))
      as [k [Hk [Hgrad [_ Hstop]]]].
    cbn [sw_grad sw_log sw_n_sweeps sw_l2_residual] in Hgrad, Hstop.
    set (s := sweep_loop Examples.glob0 Examples.mesh_1 one_sweep "p" (-1)%Z 0
                rnorm todo (Sweep_state Examples.grad_x 1 0 [])) in *.
    cbn [it_grad it_log].
    destruct Hstop as [[_ [Hlt _]]|[Hk0 [_ [_ [_ Hlog]]]]].
    { exfalso. exact (Hnone k Hlt). }
    split; [rewrite Hgrad, Hk0; reflexivity|].
    change (-1 <? -1)%Z with false. rewrite Hlog.
    destruct (Rge_dec (sw_l2_residual s) (0 * rnorm)); reflexivity. }
  split; [exact (proj1 Hr)|]. split; [exact (proj2 Hr)|].
  rewrite (proj2 Hr). apply not_warned_self.
Qed.

(** ** COCG cache: boundary-only recomputation *)

(** A scatter loop seen from one cell: the cell receives, in order, the
    terms of the faces that designate it. *)

Lemma scatter_gather {T V : Type} (skip : nat -> bool) (cell : nat -> nat)
      (val : nat -> V) (op : T -> V -> T) (l : list nat) (a : array T) (c : nat) :
  fold_left
    (fun a f_id =>
       if skip f_id then a
       else upd a (cell f_id) (op (a (cell f_id)) (val f_id))) l a c
  = fold_left op
      (map val (filter (fun f_id => negb (skip f_id) && Nat.eqb (cell f_id) c) l))
      (a c).
Proof.
  revert a. induction l as [|f l IH]; intros a; simpl; [reflexivity|].
  rewrite IH. destruct (skip f); simpl; [reflexivity|].
  destruct (Nat.eqb_spec (cell f) c) as [->|Hne]; simpl.
  - rewrite upd_same. reflexivity.
  - rewrite upd_other by congruence. reflexivity.
Qed.

Lemma recompute_b_faces_gather m fvq cpl coefbp (cocg : array cs_cocg_6_t) c :
  fold_left (recompute_b_face m fvq cpl coefbp) (b_face_order m) cocg c
  = fold_left cocg_add_outer (b_face_terms m fvq cpl coefbp c) (cocg c).
Proof.
  unfold b_face_terms.
  rewrite <- (scatter_gather (is_coupled cpl) (b_face_cells m)
                             (bc_direction fvq coefbp) cocg_add_outer).
  reflexivity.
Qed.

(** A loop that rewrites the entries [cell_of 0 .. cell_of (n-1)]. *)

Lemma map_cells_other {T : Type} (n : nat) (cell_of : nat -> nat)
      (F : array T -> nat -> T) (a : array T) (c : nat) :
  (forall ii, (ii < n)%nat -> cell_of ii <> c) ->
  for_loop 0 n (fun a ii => upd a (cell_of ii) (F a ii)) a c = a c.
Proof.
  intros H.
  apply (for_loop_inv (fun a' => a' c = a c)); [reflexivity|].
  intros t i Hi Ht. rewrite upd_other; [exact Ht|].
  intros Heq. apply (H i); [lia|congruence].
Qed.

Lemma restore_b_cells_at m (cocgb cocg : array cs_cocg_6_t) ii :
  b_cells_distinct m -> (ii < n_b_cells m)%nat ->
  restore_b_cells m cocgb cocg (b_cells m ii) = cocgb ii.
Proof.
  intros Hd Hii. unfold restore_b_cells.
  assert (H : forall n, (n <= n_b_cells m)%nat ->
            (ii < n)%nat ->
            for_loop 0 n (fun cocg k => upd cocg (b_cells m k) (cocgb k)) cocg
                     (b_cells m ii) = cocgb ii).
  { induction n as [|n IH]; intros Hn Hlt; [lia|].
    rewrite for_loop_S by lia.
    destruct (Nat.eq_dec ii n) as [->|Hne].
    - apply upd_same.
    - rewrite upd_other; [apply IH; lia|].
      intros Heq. apply Hne. apply Hd; [lia|lia|exact Heq]. }
  apply H; lia.
Qed.

Lemma invert_cells_at (n : nat) (cell_of : nat -> nat)
      (cocg : array cs_cocg_6_t) (ii : nat) :
  (forall i j, (i < n)%nat -> (j < n)%nat -> cell_of i = cell_of j -> i = j) ->
  (ii < n)%nat ->
  invert_cells n cell_of cocg (cell_of ii)
  = Kernels._math_6_inv_cramer_sym_in_place (cocg (cell_of ii)).
Proof.
  intros Hd Hii. unfold invert_cells.
  assert (H : forall k, (k <= n)%nat ->
            let r := for_loop 0 k
                       (fun cocg i =>
                          upd cocg (cell_of i)
                              (Kernels._math_6_inv_cramer_sym_in_place
                                 (cocg (cell_of i)))) cocg in
            forall j, (j < n)%nat ->
              r (cell_of j)
              = if (j <? k)%nat
                then Kernels._math_6_inv_cramer_sym_in_place (cocg (cell_of j))
                else cocg (cell_of j)).
  { induction k as [|k IH]; intros Hk r j Hj.
    - reflexivity.
    - subst r. rewrite for_loop_S by lia.
      destruct (Nat.eq_dec j k) as [->|Hne].
      + rewrite upd_same. rewrite (IH ltac:(lia) k) by lia.
        destruct (Nat.ltb_spec k k); [lia|].
        destruct (Nat.ltb_spec k (S k)); [reflexivity|lia].
      + rewrite upd_other.
        * rewrite (IH ltac:(lia) j) by lia.
          destruct (Nat.ltb_spec j k), (Nat.ltb_spec j (S k)); try lia;
            reflexivity.
        * intros Heq. apply Hne. apply Hd; [lia|lia|exact Heq]. }
  rewrite (H n (Nat.le_refl n) ii Hii).
  destruct (Nat.ltb_spec ii n); [reflexivity|lia].
Qed.

Lemma invert_cells_other (n : nat) (cell_of : nat -> nat)
      (cocg : array cs_cocg_6_t) (c : nat) :
  (forall ii, (ii < n)%nat -> cell_of ii <> c) ->
  invert_cells n cell_of cocg c = cocg c.
Proof.
  intros H. unfold invert_cells.
  apply (map_cells_other n cell_of
           (fun a ii => Kernels._math_6_inv_cramer_sym_in_place (a (cell_of ii)))).
  exact H.
Qed.

Lemma b_face_terms_nil m fvq cpl coefbp c :
  b_faces_on_b_cells m -> ~ is_b_cell m c ->
  b_face_terms m fvq cpl coefbp c = [].
Proof.
  intros Hwf Hc. unfold b_face_terms.
  assert (Hall : forall f_id, In f_id (b_face_order m) ->
             (negb (is_coupled cpl f_id) && Nat.eqb (b_face_cells m f_id) c)
             = false).
  { intros f Hf. destruct (Nat.eqb_spec (b_face_cells m f) c) as [He|];
      [|apply andb_false_r].
    exfalso. apply Hc. destruct (Hwf f Hf) as [ii [Hii Hb]].
    exists ii. split; [exact Hii|congruence]. }
  induction (b_face_order m) as [|f l IH]; [reflexivity|].
  simpl. rewrite Hall by (left; reflexivity).
  apply IH. intros f' Hf'. apply Hall. right. exact Hf'.
Qed.

Lemma cramer_sym_left_inverse (a : cs_cocg_6_t) :
  det_6 a <> 0 ->
  mul_33 (sym_33 (Kernels._math_6_inv_cramer_sym_in_place a)) (sym_33 a)
  = identity_33.
Proof.
  intros Ha. destruct a. unfold det_6 in Ha. simpl in Ha.
  unfold mul_33, identity_33, sym_33, Kernels._math_6_inv_cramer_sym_in_place.
  simpl. f_equal; field; lra.
Qed.

Lemma bc_direction_written_out fvq coefbp f_id :
  bc_direction fvq coefbp f_id = boundary_face_vector fvq coefbp f_id.
Proof.
  unfold bc_direction, boundary_face_vector. cbv zeta.
  f_equal; unfold Rdiv; ring.
Qed.

Lemma add_outer_written_out (c : cs_cocg_6_t) (d : cs_real_3_t) :
  cocg_add_outer c d = add_6 c (outer_6 d).
Proof. reflexivity. Qed.

Lemma add_6_assoc (a b c : cs_cocg_6_t) :
  add_6 (add_6 a b) c = add_6 a (add_6 b c).
Proof. unfold add_6. cbn. f_equal; ring. Qed.

Lemma add_6_zero (a : cs_cocg_6_t) : add_6 a zero6 = a.
Proof. destruct a. unfold add_6, zero6. cbn. f_equal; ring. Qed.

Lemma b_face_terms_sum m fvq cpl coefbp c (base : cs_cocg_6_t) :
  fold_left cocg_add_outer (b_face_terms m fvq cpl coefbp c) base
  = add_6 base (boundary_covariance m fvq cpl coefbp c).
Proof.
  unfold b_face_terms, boundary_covariance, boundary_faces_of.
  generalize (filter (fun f_id => negb (is_coupled cpl f_id)
                                  && Nat.eqb (b_face_cells m f_id) c)
                     (b_face_order m)).
  intros l. revert base. induction l as [|f l IH]; intros base.
  - cbn. symmetry. apply add_6_zero.
  - cbn [map fold_left fold_right]. rewrite IH.
    rewrite add_outer_written_out, bc_direction_written_out.
    apply add_6_assoc.
Qed.

Lemma restore_b_cells_written_out m (cocgb cocg : array cs_cocg_6_t) c :
  b_cells_distinct m ->
  restore_b_cells m cocgb cocg c = saved_over m cocgb cocg c.
Proof.
  intros Hd. unfold saved_over.
  destruct (find (fun ii => Nat.eqb (b_cells m ii) c) (range 0 (n_b_cells m)))
    as [ii|] eqn:E.
  - apply find_some in E. destruct E as [Hin Heq].
    apply Nat.eqb_eq in Heq. subst c.
    apply restore_b_cells_at; [exact Hd|].
    unfold range in Hin. apply in_seq in Hin. lia.
  - unfold restore_b_cells.
    apply (map_cells_other (n_b_cells m) (b_cells m) (fun _ ii => cocgb ii)).
    intros ii Hii Heq.
    pose proof (find_none _ _ E ii) as Hn.
    assert (Hin : In ii (range 0 (n_b_cells m))).
    { unfold range. apply in_seq. lia. }
    specialize (Hn Hin). cbn beta in Hn.
    apply Nat.eqb_neq in Hn. contradiction.
Qed.

(** C9: the boundary-only recomputation leaves the matrix of every cell
    outside the boundary-cell list as it was; it first replaces the entry
    of each listed boundary cell by the saved interior-only sum, and the
    matrix it leaves at a listed boundary cell is the in-place inverse of
    that saved sum (to which the internal coupling, when there is one, has
    added its part) plus the terms [d d^T] of the boundary faces of the
    cell that are not coupled, with [d = n / S + ((1 - b) / dist) II']:
    multiplied by that total it gives the identity when the determinant
    of the total is not zero. *)

Theorem recompute_cocg_boundary_only
        m fvq cpl coefbp (cocgb cocg : array cs_cocg_6_t) :
  b_faces_on_b_cells m -> b_cells_distinct m -> coupling_on_b_cells m cpl ->
  let cocg' := _recompute_lsq_scalar_cocg m fvq cpl coefbp cocgb cocg in
  (forall c, ~ is_b_cell m c -> cocg' c = cocg c)
  /\ (forall c, restore_b_cells m cocgb cocg c = saved_over m cocgb cocg c)
  /\ (forall ii, (ii < n_b_cells m)%nat ->
        let restored :=
          match cpl with
          | Some k =>
              cs_internal_coupling_lsq_cocg_contribution k
                (restore_b_cells m cocgb cocg) (b_cells m ii)
          | None => cocgb ii
          end in
        let total :=
          add_6 restored
                (boundary_covariance m fvq cpl coefbp (b_cells m ii)) in
        cocg' (b_cells m ii) = Kernels._math_6_inv_cramer_sym_in_place total
        /\ (det_6 total <> 0 ->
            mul_33 (sym_33 (cocg' (b_cells m ii))) (sym_33 total)
            = identity_33)).
Proof.
  intros Hwf Hd Hcpl cocg'. subst cocg'. unfold _recompute_lsq_scalar_cocg.
  fold (restored_cocg m cpl cocgb cocg).
  split; [|split].
  - intros c Hc.
    assert (Hnot : forall ii, (ii < n_b_cells m)%nat -> b_cells m ii <> c).
    { intros ii Hii Heq. apply Hc. exists ii. split; assumption. }
    rewrite invert_cells_other by exact Hnot.
    rewrite recompute_b_faces_gather, b_face_terms_nil by assumption.
    simpl. unfold restored_cocg.
    assert (Hr : restore_b_cells m cocgb cocg c = cocg c).
    { unfold restore_b_cells.
      apply (map_cells_other (n_b_cells m) (b_cells m) (fun _ ii => cocgb ii)).
      exact Hnot. }
    destruct cpl as [k|]; [|exact Hr].
    rewrite (Hcpl k eq_refl) by exact Hc. exact Hr.
  - intros c. apply restore_b_cells_written_out. exact Hd.
  - intros ii Hii. cbv zeta.
    set (restored :=
           match cpl with
           | Some k =>
               cs_internal_coupling_lsq_cocg_contribution k
                 (restore_b_cells m cocgb cocg) (b_cells m ii)
           | None => cocgb ii
           end).
    set (total := add_6 restored
                        (boundary_covariance m fvq cpl coefbp (b_cells m ii))).
    assert (E : invert_cells (n_b_cells m) (b_cells m)
                  (fold_left (recompute_b_face m fvq cpl coefbp)
                             (b_face_order m) (restored_cocg m cpl cocgb cocg))
                  (b_cells m ii)
                = Kernels._math_6_inv_cramer_sym_in_place total).
    { rewrite invert_cells_at by assumption.
      rewrite recompute_b_faces_gather, b_face_terms_sum.
      f_equal. unfold total, restored, restored_cocg.
      destruct cpl as [k|]; [reflexivity|].
      rewrite restore_b_cells_at by assumption. reflexivity. }
    split; [exact E|].
    intros Hdet. rewrite E. apply cramer_sym_left_inverse. exact Hdet.
Qed.

Lemma wall_skew_covariance :
  boundary_covariance WallCase.mesh_wall Cases.fvq_skew None
                      WallCase.coefb_zero 0%nat
  = Cocg 1 1 0 (-1) 0 0.
Proof.
  unfold boundary_covariance, boundary_faces_of.
  change (b_face_order WallCase.mesh_wall) with [0%nat].
  cbn [filter is_coupled negb andb b_face_cells WallCase.mesh_wall Nat.eqb
       fold_right].
  unfold boundary_face_vector, outer_6, add_6, zero6, WallCase.coefb_zero.
  cbn. f_equal; field.
Qed.

Lemma wall_skew_inverse :
  Kernels._math_6_inv_cramer_sym_in_place (Cocg 1 2 1 (-1) 0 0)
  = Cocg 2 1 1 1 0 0.
Proof.
  unfold Kernels._math_6_inv_cramer_sym_in_place. cbn. f_equal; field.
Qed.

Lemma wall_b_faces_on_b_cells : b_faces_on_b_cells WallCase.mesh_wall.
Proof. intros f Hf. exists 0%nat. split; [simpl; lia|reflexivity]. Qed.

Lemma wall_b_cells_distinct : b_cells_distinct WallCase.mesh_wall.
Proof. intros i j Hi Hj _. simpl in Hi, Hj. lia. Qed.

Lemma no_coupling_on_b_cells (m : cs_mesh_t) : coupling_on_b_cells m None.
Proof. intros c Hc. discriminate Hc. Qed.

Lemma wall_not_b_cell c : c <> 0%nat -> ~ is_b_cell WallCase.mesh_wall c.
Proof. intros Hc (ii & _ & E). apply Hc. symmetry. exact E. Qed.

Lemma recompute_cocg_boundary_only_witness :
  b_faces_on_b_cells WallCase.mesh_wall
  /\ b_cells_distinct WallCase.mesh_wall
  /\ coupling_on_b_cells WallCase.mesh_wall None
  /\ det_6 (Cocg 1 2 1 (-1) 0 0) <> 0
  /\ _recompute_lsq_scalar_cocg WallCase.mesh_wall Cases.fvq_skew None
       WallCase.coefb_zero (fun _ => Cocg 0 1 1 0 0 0)
       (fun _ => Cocg 1 1 1 0 0 0) 0%nat
     = Cocg 2 1 1 1 0 0
  /\ mul_33 (sym_33 (Cocg 2 1 1 1 0 0)) (sym_33 (Cocg 1 2 1 (-1) 0 0))
     = identity_33
  /\ _recompute_lsq_scalar_cocg WallCase.mesh_wall Cases.fvq_skew None
       WallCase.coefb_zero (fun _ => Cocg 0 1 1 0 0 0)
       (fun _ => Cocg 1 1 1 0 0 0) 2%nat
     = Cocg 1 1 1 0 0 0.
Proof.
  destruct (recompute_cocg_boundary_only WallCase.mesh_wall Cases.fvq_skew
              None WallCase.coefb_zero (fun _ => Cocg 0 1 1 0 0 0)
              (fun _ => Cocg 1 1 1 0 0 0) wall_b_faces_on_b_cells
              wall_b_cells_distinct
              (no_coupling_on_b_cells WallCase.mesh_wall))
    as (Hframe & _ & Hb).
  assert (Hdet : det_6 (Cocg 1 2 1 (-1) 0 0) <> 0)
    by (unfold det_6; cbn; lra).
  destruct (Hb 0%nat ltac:(simpl; lia)) as [E Hinv].
  change (b_cells WallCase.mesh_wall 0%nat) with 0%nat in E, Hinv.
  rewrite wall_skew_covariance in E, Hinv.
  replace (add_6 (Cocg 0 1 1 0 0 0) (Cocg 1 1 0 (-1) 0 0))
    with (Cocg 1 2 1 (-1) 0 0) in E, Hinv
    by (unfold add_6; cbn; f_equal; ring).
  rewrite wall_skew_inverse in E.
  split; [exact wall_b_faces_on_b_cells|].
  split; [exact wall_b_cells_distinct|].
  split; [exact (no_coupling_on_b_cells WallCase.mesh_wall)|].
  split; [exact Hdet|].
  split; [exact E|].
  split; [rewrite <- E; exact (Hinv Hdet)|].
  apply Hframe. apply wall_not_b_cell. discriminate.
Defined.
(** ** A field that vanishes *)

Ltac upd_cases :=
  unfold upd;
  repeat match goal with
         | |- context [Nat.eqb ?a ?b] => destruct (Nat.eqb a b)
         end.

Lemma R3_zero (x y z : R) : x = 0 -> y = 0 -> z = 0 -> R3 x y z = zero3.
Proof. intros -> -> ->. reflexivity. Qed.

Lemma R4_zero (x y z p : R) :
  x = 0 -> y = 0 -> z = 0 -> p = 0 -> R4 (R3 x y z) p = R4 zero3 0.
Proof. intros -> -> -> ->. reflexivity. Qed.

Lemma zero_on_upd (n : nat) (a : array cs_real_3_t) (i : nat) (v : cs_real_3_t) :
  zero_on n a -> v = zero3 -> zero_on n (upd a i v).
Proof.
  intros Ha -> c Hc. unfold upd. destruct (Nat.eqb c i); [reflexivity|].
  apply Ha, Hc.
Qed.

Lemma zero_on_le (n k : nat) (a : array cs_real_3_t) :
  zero_on n a -> (k <= n)%nat -> zero_on k a.
Proof. intros Ha Hk c Hc. apply Ha. lia. Qed.

Lemma zero_on_const (n : nat) : zero_on n (fun _ => zero3).
Proof. intros c _. reflexivity. Qed.

Lemma scatter_face_zero (n : nat) (a : array cs_real_3_t) (ii jj : nat)
      (pfaci pfacj : R) (nrm : cs_real_3_t) :
  zero_on n a -> (ii < n)%nat -> (jj < n)%nat -> pfaci = 0 -> pfacj = 0 ->
  zero_on n (scatter_face a ii jj pfaci pfacj nrm).
Proof.
  intros Ha Hii Hjj -> ->. unfold scatter_face.
  assert (H1 : zero_on n (upd a ii (axpy3 (a ii) 0 nrm))).
  { apply zero_on_upd; [exact Ha|]. rewrite (Ha ii Hii).
    unfold axpy3. simpl. apply R3_zero; ring. }
  apply zero_on_upd; [exact H1|]. rewrite (H1 jj Hjj).
  unfold axmy3. simpl. apply R3_zero; ring.
Qed.

Lemma rsum_all_zero (f : nat -> R) (n : nat) :
  (forall i, (i < n)%nat -> f i = 0) -> rsum f n = 0.
Proof.
  induction n as [|n IH]; intros H; simpl; [reflexivity|].
  rewrite IH by (intros i Hi; apply H; lia). rewrite (H n) by lia. ring.
Qed.

Lemma l2_norm_zero (g : cs_glob_t) (m : cs_mesh_t) (x : array cs_real_3_t) :
  globals_keep_zero g m -> zero_on (n_cells m) x ->
  _l2_norm_1 g (n_cells m) x = 0.
Proof.
  intros [_ [Hmpi _]] Hx. unfold _l2_norm_1.
  rewrite rsum_all_zero.
  - destruct (Nat.ltb_spec 1 (cs_glob_n_ranks g)) as [H|H].
    + rewrite (Hmpi H). apply sqrt_0.
    + apply sqrt_0.
  - intros i Hi. rewrite (Hx i Hi). unfold dot3. simpl. ring.
Qed.

(** With a vanishing gradient on input the iterative driver returns at
    once: no sweep, nothing printed. *)

Lemma iterative_zero_exit
      g m fvq cpl w_stride var_name gradient_info nswrgp hyd_p_flag verbosity
      inc epsrgp f_ext coefap coefbp pvar c_weight store log grad :
  globals_keep_zero g m -> zero_on (n_cells m) grad ->
  let r := _iterative_scalar_gradient g m fvq cpl w_stride var_name
             gradient_info nswrgp hyd_p_flag verbosity inc epsrgp f_ext
             coefap coefbp pvar c_weight store log grad in
  it_grad r = grad
  /\ it_info r = update_iter_opt gradient_info 0
  /\ it_log r = log.
Proof.
  intros Hg Hz. unfold _iterative_scalar_gradient.
  destruct (nswrgp <? 1)%Z; [repeat split|].
  cbv zeta.
  match goal with
  | |- context [let '(_, _) := ?p in _] => destruct p as [cocg store1]
  end.
  rewrite (l2_norm_zero g m grad Hg Hz).
  destruct Hg as [_ [_ Hep]].
  destruct (Rle_dec 0 (cs_math_epzero g)) as [_|Hn]; [repeat split|contradiction].
Qed.

Section ZeroField.

Variables (g : cs_glob_t) (m : cs_mesh_t) (fvq : cs_mesh_quantities_t).
Variable cpl : option cs_internal_coupling_t.
Variables coefap coefbp pvar : array R.

Hypothesis Hmesh : mesh_in_range m.
Hypothesis Hhalo : halo_keeps_zero m.
Hypothesis Hcpl : coupling_keeps_zero m cpl.
Hypothesis Hvar : forall c, (c < n_cells_with_ghosts m)%nat -> pvar c = 0.
Hypothesis Hcoefa : forall f_id, In f_id (b_face_order m) -> coefap f_id = 0.
Hypothesis Hcoefb : forall f_id, In f_id (b_face_order m) -> coefbp f_id = 1.

Local Abbreviation N := (n_cells_with_ghosts m).

Lemma owned_le_local : (n_cells m <= N)%nat.
Proof. exact (proj1 Hmesh). Qed.

Lemma i_face_in_range (f_id : nat) :
  In f_id (i_face_order m) ->
  (fst (i_face_cells m f_id) < N)%nat /\ (snd (i_face_cells m f_id) < N)%nat.
Proof. destruct Hmesh as [_ [_ [H _]]]. apply H. Qed.

Lemma b_face_in_range (f_id : nat) :
  In f_id (b_face_order m) -> (b_face_cells m f_id < N)%nat.
Proof.
  destruct Hmesh as [Hle [_ [_ [H _]]]]. intros Hf. specialize (H f_id Hf).
  lia.
Qed.

Lemma sync_zero (ht : cs_halo_type_t) (a : array cs_real_3_t) :
  zero_on (n_cells m) a -> zero_on N (_sync_scalar_gradient_halo m ht a).
Proof.
  intros Ha. unfold _sync_scalar_gradient_halo.
  destruct (halo m) as [h|] eqn:Eh.
  - destruct (Hhalo h Eh ht) as [_ [Hs Hp]].
    destruct (have_rotation_perio m); [apply Hp|]; apply Hs; exact Ha.
  - destruct Hmesh as [_ [Hn _]]. rewrite (Hn Eh). exact Ha.
Qed.

Lemma sync_perio_zero (h : cs_halo_t) (ht : cs_halo_type_t)
      (a : array cs_real_3_t) :
  halo m = Some h -> zero_on (n_cells m) a ->
  zero_on N (cs_halo_perio_sync_var_vect h ht
               (cs_halo_sync_var_strided h ht a)).
Proof.
  intros Eh Ha. destruct (Hhalo h Eh ht) as [_ [Hs Hp]].
  apply Hp, Hs, Ha.
Qed.

(** *** Green-Gauss initialisation *)

Lemma init_i_face_zero (w : weighting) (grad : array cs_real_3_t) (f_id : nat) :
  In f_id (i_face_order m) -> zero_on N grad ->
  zero_on N (init_i_face m fvq w pvar grad f_id).
Proof.
  intros Hf Hz. destruct (i_face_in_range f_id Hf) as [Hii Hjj].
  unfold init_i_face. apply scatter_face_zero; try assumption;
    rewrite (Hvar _ Hii), (Hvar _ Hjj); ring.
Qed.

Lemma init_b_face_zero (inc : R) (grad : array cs_real_3_t) (f_id : nat) :
  In f_id (b_face_order m) -> zero_on N grad ->
  zero_on N (init_b_face m fvq cpl inc coefap coefbp pvar grad f_id).
Proof.
  intros Hf Hz. unfold init_b_face.
  destruct (is_coupled cpl f_id); [exact Hz|].
  apply zero_on_upd; [exact Hz|].
  rewrite (Hz _ (b_face_in_range f_id Hf)), (Hcoefa f_id Hf), (Hcoefb f_id Hf).
  unfold axpy3. simpl. apply R3_zero; ring.
Qed.

Lemma scale_by_dvol_zero (grad : array cs_real_3_t) :
  zero_on N grad -> zero_on N (scale_by_dvol g m fvq grad).
Proof.
  intros Hz. unfold scale_by_dvol. apply for_loop_inv; [exact Hz|].
  intros t i Hi Ht. apply zero_on_upd; [exact Ht|].
  rewrite (Ht i) by (pose proof owned_le_local; lia).
  unfold scale3. simpl. apply R3_zero; ring.
Qed.

Lemma initialize_zero (w_stride hyd_p_flag : Z) (inc : R)
      (f_ext : array cs_real_3_t) (c_weight : option (array R)) :
  hyd_p_flag <> 1%Z ->
  zero_on N (_initialize_scalar_gradient g m fvq cpl w_stride hyd_p_flag inc
               f_ext coefap coefbp pvar c_weight).
Proof.
  intros Hh. unfold _initialize_scalar_gradient.
  destruct (Z.eqb_spec hyd_p_flag 1) as [|_]; [contradiction|].
  apply sync_zero. apply zero_on_le with N; [|exact owned_le_local].
  apply scale_by_dvol_zero.
  apply fold_left_inv; [|intros a b Hb Ha; now apply init_b_face_zero].
  assert (Hi : zero_on N (fold_left (init_i_face m fvq
                                       (weighting_of w_stride c_weight) pvar)
                                    (i_face_order m) (fun _ => zero3))).
  { apply fold_left_inv; [apply zero_on_const|].
    intros a b Hb Ha. now apply init_i_face_zero. }
  destruct cpl as [c|] eqn:Ec; [|exact Hi].
  destruct (Hcpl c eq_refl) as [Hinit _]. apply Hinit; [exact Hvar|exact Hi].
Qed.

(** *** Least squares *)

Lemma rhs_zero_upd (n : nat) (rhsv : array cs_real_4_t) (i : nat)
      (v : cs_real_4_t) :
  rhs_zero_on n rhsv -> v = R4 zero3 0 -> rhs_zero_on n (upd rhsv i v).
Proof.
  intros Ha -> c Hc. unfold upd. destruct (Nat.eqb c i); [reflexivity|].
  apply Ha, Hc.
Qed.

Lemma rhs_initial_zero : rhs_zero_on N (fun c_id => R4 zero3 (pvar c_id)).
Proof. intros i Hi. now rewrite (Hvar i Hi). Qed.

Lemma lsq_i_face_zero (c_weight : option (array R))
      (rhsv : array cs_real_4_t) (f_id : nat) :
  In f_id (i_face_order m) -> rhs_zero_on N rhsv ->
  rhs_zero_on N (lsq_i_face m fvq c_weight rhsv f_id).
Proof.
  intros Hf Hz i Hi. destruct (i_face_in_range f_id Hf) as [Hii Hjj].
  unfold lsq_i_face. cbv zeta.
  destruct c_weight as [cw|]; upd_cases;
    rewrite ?(Hz _ Hii), ?(Hz _ Hjj), ?(Hz _ Hi); try reflexivity;
    unfold rhs_add, smul3, times3, add3, Rdiv; simpl; apply R4_zero; ring.
Qed.

Lemma lsq_ext_zero (ii : nat) (rhsv : array cs_real_4_t) (jj : nat) :
  (ii < N)%nat -> (jj < N)%nat -> rhs_zero_on N rhsv ->
  rhs_zero_on N (lsq_ext fvq ii rhsv jj).
Proof.
  intros Hii Hjj Hz i Hi. unfold lsq_ext. cbv zeta. upd_cases;
    rewrite ?(Hz _ Hii), ?(Hz _ Hjj), ?(Hz _ Hi); try reflexivity;
    unfold rhs_add, times3, add3, Rdiv; simpl; apply R4_zero; ring.
Qed.

Lemma ext_loop_inv_range {S : Type} (P : S -> Prop) (halo_type : cs_halo_type_t)
      (body : nat -> S -> nat -> S) (s : S) :
  P s ->
  (forall ii jj t, (ii < n_cells m)%nat -> (jj < N)%nat -> P t ->
                   P (body ii t jj)) ->
  P (ext_loop m halo_type body s).
Proof.
  intros Hs Hstep. unfold ext_loop.
  destruct (cell_cells_idx m) as [idx|] eqn:Ei; [|exact Hs].
  destruct (halo_type_eqb halo_type CS_HALO_EXTENDED); [|exact Hs].
  apply for_loop_inv; [exact Hs|]. intros t ii Hii Ht.
  apply fold_left_inv; [exact Ht|]. intros a jj Hjj Ha.
  apply Hstep; [lia| |exact Ha].
  destruct Hmesh as [_ [_ [_ [_ He]]]]. apply (He idx ii jj Ei); [lia|exact Hjj].
Qed.

Lemma lsq_b_face_zero (inc : R) (rhsv : array cs_real_4_t) (f_id : nat) :
  In f_id (b_face_order m) -> rhs_zero_on N rhsv ->
  rhs_zero_on N (lsq_b_face m fvq cpl inc coefap coefbp rhsv f_id).
Proof.
  intros Hf Hz i Hi. pose proof (b_face_in_range f_id Hf) as Hii.
  unfold lsq_b_face. destruct (is_coupled cpl f_id); [exact (Hz i Hi)|].
  cbv zeta. upd_cases;
    rewrite ?(Hz _ Hii), ?(Hz _ Hi), ?(Hcoefa f_id Hf), ?(Hcoefb f_id Hf);
    try reflexivity;
    unfold rhs_add, times3, add3, Rdiv; simpl; apply R4_zero; ring.
Qed.

Lemma solve_cells_zero (cocg : array cs_cocg_6_t) (rhsv : array cs_real_4_t)
      (grad : array cs_real_3_t) :
  rhs_zero_on N rhsv -> zero_on (n_cells m) (solve_cells m cocg rhsv grad).
Proof.
  intros Hz. unfold solve_cells.
  apply (for_loop_ind (fun i t => zero_on i t)); [lia|intros c Hc; lia|].
  intros i t Hi Ht c Hc. unfold upd.
  destruct (Nat.eqb_spec c i) as [->|Hne]; [|apply Ht; lia].
  rewrite (Hz i) by (pose proof owned_le_local; lia).
  unfold cocg_times_rhs. simpl. apply R3_zero; ring.
Qed.

Lemma lsq_rhs_zero (halo_type : cs_halo_type_t) (inc : R)
      (c_weight : option (array R)) :
  rhs_zero_on N
    (fold_left (lsq_b_face m fvq cpl inc coefap coefbp) (b_face_order m)
       (match cpl with
        | Some c =>
            cs_internal_coupling_lsq_scalar_gradient c c_weight 1
              (ext_loop m halo_type (lsq_ext fvq)
                 (fold_left (lsq_i_face m fvq c_weight) (i_face_order m)
                            (fun c_id => R4 zero3 (pvar c_id))))
        | None =>
            ext_loop m halo_type (lsq_ext fvq)
              (fold_left (lsq_i_face m fvq c_weight) (i_face_order m)
                         (fun c_id => R4 zero3 (pvar c_id)))
        end)).
Proof.
  assert (He : rhs_zero_on N
                 (ext_loop m halo_type (lsq_ext fvq)
                    (fold_left (lsq_i_face m fvq c_weight) (i_face_order m)
                               (fun c_id => R4 zero3 (pvar c_id))))).
  { apply ext_loop_inv_range.
    - apply fold_left_inv; [exact rhs_initial_zero|].
      intros a b Hb Ha. now apply lsq_i_face_zero.
    - intros ii jj t Hii Hjj Ht. apply lsq_ext_zero; [|exact Hjj|exact Ht].
      pose proof owned_le_local. lia. }
  apply fold_left_inv; [|intros a b Hb Ha; now apply lsq_b_face_zero].
  destruct cpl as [c|] eqn:Ec; [|exact He].
  destruct (Hcpl c eq_refl) as [_ [_ Hl]]. intros i Hi. apply Hl; [exact He|exact Hi].
Qed.

Lemma lsq_zero (halo_type : cs_halo_type_t) (recompute_cocg : bool) (inc : R)
      (c_weight : option (array R)) (store : gq_store)
      (grad : array cs_real_3_t) :
  zero_on N (fst (_lsq_scalar_gradient g m fvq cpl halo_type recompute_cocg
                    inc coefap coefbp pvar c_weight store grad)).
Proof.
  unfold _lsq_scalar_gradient.
  destruct (_get_cell_cocg_lsq g m halo_type fvq None store) as [[s c] cb].
  destruct recompute_cocg; cbv zeta; cbn [fst];
    apply sync_zero, solve_cells_zero, lsq_rhs_zero.
Qed.

(** *** Least squares with a tensor weighting *)

Lemma compute_ani_weighting_zero (wi wj : cs_cocg_6_t) (d : cs_real_3_t)
      (a : R) :
  _compute_ani_weighting wi wj (0 - 0) d a (R4 zero3 0) (R4 zero3 0)
  = (R4 zero3 0, R4 zero3 0).
Proof.
  unfold _compute_ani_weighting, _compute_ani_weighting_cocg, ani_add.
  cbv zeta. cbn [rhs_v rhs_p cx cy cz zero3].
  f_equal; apply R4_zero; ring.
Qed.

Lemma ani_i_face_zero (c_weight_t : array cs_cocg_6_t)
      (st : array cs_cocg_6_t * array cs_real_4_t) (f_id : nat) :
  In f_id (i_face_order m) -> rhs_zero_on N (snd st) ->
  rhs_zero_on N (snd (ani_i_face m fvq c_weight_t st f_id)).
Proof.
  intros Hf Hz. destruct st as [cocg rhsv]. cbn [snd] in Hz.
  destruct (i_face_in_range f_id Hf) as [Hii Hjj].
  unfold ani_i_face. cbv zeta.
  destruct (_compute_ani_weighting_cocg _ _ _ _) as [dc_i dc_j].
  rewrite (Hz _ Hii), (Hz _ Hjj). cbn [rhs_p].
  rewrite compute_ani_weighting_zero. cbn [snd].
  apply rhs_zero_upd; [apply rhs_zero_upd|]; [exact Hz|reflexivity|reflexivity].
Qed.

Lemma ani_b_face_zero (inc : R)
      (st : array cs_cocg_6_t * array cs_real_4_t) (f_id : nat) :
  In f_id (b_face_order m) -> rhs_zero_on N (snd st) ->
  rhs_zero_on N (snd (ani_b_face m fvq cpl inc coefap coefbp st f_id)).
Proof.
  intros Hf Hz. destruct st as [cocg rhsv]. cbn [snd] in Hz.
  pose proof (b_face_in_range f_id Hf) as Hii.
  unfold ani_b_face. destruct (is_coupled cpl f_id); [exact Hz|].
  cbv zeta. cbn [snd]. apply rhs_zero_upd; [exact Hz|].
  rewrite (Hz _ Hii), (Hcoefa f_id Hf), (Hcoefb f_id Hf).
  unfold rhs_add, times3, add3, Rdiv. simpl. apply R4_zero; ring.
Qed.

Lemma ani_zero (inc : R) (c_weight_t : array cs_cocg_6_t) (c_weight : array R)
      (grad : array cs_real_3_t) :
  zero_on N (_lsq_scalar_gradient_ani m fvq cpl inc coefap coefbp pvar
               c_weight_t c_weight grad).
Proof.
  unfold _lsq_scalar_gradient_ani. cbv zeta.
  assert (Hi : rhs_zero_on N
                 (snd (fold_left (ani_i_face m fvq c_weight_t) (i_face_order m)
                                 (fun _ => zero6,
                                  fun c_id => R4 zero3 (pvar c_id))))).
  { apply (fold_left_inv (fun st => rhs_zero_on N (snd st)));
      [exact rhs_initial_zero|].
    intros a b Hb Ha. now apply ani_i_face_zero. }
  destruct (fold_left (ani_i_face m fvq c_weight_t) (i_face_order m) _)
    as [cocg1 rhsv1].
  cbn [snd] in Hi.
  assert (Hc : rhs_zero_on N
                 (snd (match cpl with
                       | Some c =>
                           (cs_internal_coupling_lsq_cocg_weighted c c_weight_t cocg1,
                            cs_internal_coupling_lsq_scalar_gradient
                              c (Some c_weight) 6 rhsv1)
                       | None => (cocg1, rhsv1)
                       end))).
  { destruct cpl as [c|] eqn:Ec; [|exact Hi].
    destruct (Hcpl c eq_refl) as [_ [_ Hl]]. cbn [snd]. intros i Hk.
    apply Hl; [exact Hi|exact Hk]. }
  destruct (match cpl with Some _ => _ | None => _ end) as [cocg2 rhsv2].
  cbn [snd] in Hc.
  assert (Hb : rhs_zero_on N
                 (snd (fold_left (ani_b_face m fvq cpl inc coefap coefbp)
                                 (b_face_order m) (cocg2, rhsv2)))).
  { apply (fold_left_inv (fun st => rhs_zero_on N (snd st))); [exact Hc|].
    intros a b Hf Ha. now apply ani_b_face_zero. }
  destruct (fold_left (ani_b_face m fvq cpl inc coefap coefbp) _ _)
    as [cocg3 rhsv3].
  cbn [snd] in Hb.
  apply sync_zero, solve_cells_zero, Hb.
Qed.

(** *** Clipping *)

Lemma clip_cell_apply_zero (climgp : R) (denum denom : array R)
      (a : clip_acc) (ii : nat) :
  zero_on N (acc_grad a) ->
  zero_on N (acc_grad (clip_cell_apply climgp denum denom a ii)).
Proof.
  intros Ha. unfold clip_cell_apply.
  destruct (Rgt_dec (denum ii) (climgp * denom ii)); [|exact Ha].
  cbn [acc_grad]. intros c Hc. unfold upd.
  destruct (Nat.eqb_spec c ii) as [->|_]; [|apply Ha, Hc].
  rewrite (Ha ii Hc). unfold scale3. simpl. apply R3_zero; ring.
Qed.

Lemma clip_face_apply_zero (clip_factor : array R) (a : clip_acc) (ii : nat) :
  zero_on N (acc_grad a) ->
  zero_on N (acc_grad (clip_face_apply clip_factor a ii)).
Proof.
  intros Ha. unfold clip_face_apply.
  assert (H : zero_on N (upd (acc_grad a) ii
                             (scale3 (clip_factor ii) (acc_grad a ii)))).
  { intros c Hc. unfold upd.
    destruct (Nat.eqb_spec c ii) as [->|_]; [|apply Ha, Hc].
    rewrite (Ha ii Hc). unfold scale3. simpl. apply R3_zero; ring. }
  destruct (Rlt_dec (clip_factor ii) 0.99); exact H.
Qed.

Lemma clipping_zero (halo_type : cs_halo_type_t) (clip_mode verbosity : Z)
      (climgp : R) (var_name : string) (var : array R)
      (grad : array cs_real_3_t) (log : list log_event) :
  zero_on N grad ->
  zero_on N (fst (_scalar_gradient_clipping g m fvq halo_type clip_mode
                    verbosity climgp var_name var grad log)).
Proof.
  intros Hz. unfold _scalar_gradient_clipping.
  destruct (clip_mode <=? CS_GRADIENT_LIMIT_NONE)%Z; [exact Hz|].
  cbv zeta.
  set (grad1 := match halo m with
                | Some h =>
                    if (clip_mode =? CS_GRADIENT_LIMIT_FACE)%Z
                    then cs_halo_perio_sync_var_vect h halo_type
                           (cs_halo_sync_var_strided h halo_type grad)
                    else grad
                | None => grad
                end).
  assert (H1 : zero_on N grad1).
  { unfold grad1. destruct (halo m) as [h|] eqn:Eh; [|exact Hz].
    destruct (clip_mode =? CS_GRADIENT_LIMIT_FACE)%Z; [|exact Hz].
    apply sync_perio_zero; [exact Eh|].
    apply zero_on_le with N; [exact Hz|exact owned_le_local]. }
  clearbody grad1.
  match goal with
  | |- context [let '(_, _) := ?p in _] => destruct p as [denum denom]
  end.
  match goal with
  | |- context [if (1 <? n_domains m)%nat then _ else ?A] => set (a := A)
  end.
  assert (Ha : zero_on N (acc_grad a)).
  { unfold a. destruct (clip_mode =? CS_GRADIENT_LIMIT_CELL)%Z.
    - cbn [acc_grad].
      apply (for_loop_inv (fun t => zero_on N (acc_grad t))); [exact H1|].
      intros t i _ Ht. now apply clip_cell_apply_zero.
    - destruct (clip_mode =? CS_GRADIENT_LIMIT_FACE)%Z; [|exact H1].
      match goal with
      | |- context [let '(_, _) := ?p in _] => destruct p as [denom' denum']
      end.
      cbn [acc_grad].
      apply (for_loop_inv (fun t => zero_on N (acc_grad t))); [exact H1|].
      intros t i _ Ht. now apply clip_face_apply_zero. }
  clearbody a.
  cbn [fst].
  assert (Ha' : zero_on N
                  (acc_grad
                     (if (1 <? n_domains m)%nat
                      then Clip_acc (acc_grad a) (MPI_Allreduce_min g (acc_min a))
                             (MPI_Allreduce_max g (acc_max a))
                             (MPI_Allreduce_sum_gnum g (acc_n a))
                      else a))).
  { destruct (1 <? n_domains m)%nat; exact Ha. }
  destruct (halo m) as [h|] eqn:Eh; [|exact Ha'].
  apply sync_perio_zero; [exact Eh|].
  apply zero_on_le with N; [exact Ha'|exact owned_le_local].
Qed.

(** *** Reconstruction *)

Lemma rec_i_face_zero (w : weighting) (r_grad grad : array cs_real_3_t)
      (f_id : nat) :
  In f_id (i_face_order m) -> zero_on N r_grad -> zero_on N grad ->
  zero_on N (rec_i_face m fvq w pvar r_grad grad f_id).
Proof.
  intros Hf Hr Hz. destruct (i_face_in_range f_id Hf) as [Hii Hjj].
  unfold rec_i_face. apply scatter_face_zero; try assumption;
    rewrite (Hvar _ Hii), (Hvar _ Hjj), (Hr _ Hii), (Hr _ Hjj);
    unfold dot3, add3; simpl; ring.
Qed.

Lemma rec_b_face_zero (inc : R) (r_grad grad : array cs_real_3_t) (f_id : nat) :
  In f_id (b_face_order m) -> zero_on N r_grad -> zero_on N grad ->
  zero_on N (rec_b_face m fvq cpl inc coefap coefbp pvar r_grad grad f_id).
Proof.
  intros Hf Hr Hz. unfold rec_b_face.
  destruct (is_coupled cpl f_id); [exact Hz|].
  apply zero_on_upd; [exact Hz|].
  pose proof (b_face_in_range f_id Hf) as Hii.
  rewrite (Hz _ Hii), (Hr _ Hii), (Hcoefa f_id Hf), (Hcoefb f_id Hf).
  unfold axpy3, dot3. simpl. apply R3_zero; ring.
Qed.

Lemma rec_scale_zero (grad : array cs_real_3_t) :
  zero_on N grad -> zero_on N (rec_scale g m fvq grad).
Proof.
  intros Hz. unfold rec_scale. apply for_loop_inv; [exact Hz|].
  intros t i Hi Ht. apply zero_on_upd; [exact Ht|].
  rewrite (Ht i) by (pose proof owned_le_local; lia).
  destruct (CS_BAD_CELLS_WARPED_CORRECTION g);
    unfold mat_33_3_product, scale3; simpl; apply R3_zero; ring.
Qed.

Lemma reconstruct_zero (w_stride hyd_p_flag : Z) (inc : R)
      (f_ext : array cs_real_3_t) (c_weight : option (array R))
      (r_grad : array cs_real_3_t) :
  hyd_p_flag <> 1%Z -> zero_on N r_grad ->
  zero_on N (_reconstruct_scalar_gradient g m fvq cpl w_stride hyd_p_flag inc
               f_ext coefap coefbp c_weight pvar r_grad).
Proof.
  intros Hh Hr. unfold _reconstruct_scalar_gradient.
  destruct (Z.eqb_spec hyd_p_flag 1) as [|_]; [contradiction|].
  apply sync_zero. apply zero_on_le with N; [|exact owned_le_local].
  apply rec_scale_zero.
  apply fold_left_inv; [|intros a b Hb Ha; now apply rec_b_face_zero].
  assert (Hi : zero_on N (fold_left (rec_i_face m fvq
                                       (weighting_of w_stride c_weight)
                                       pvar r_grad)
                                    (i_face_order m) (fun _ => zero3))).
  { apply fold_left_inv; [apply zero_on_const|].
    intros a b Hb Ha. now apply rec_i_face_zero. }
  destruct cpl as [c|] eqn:Ec; [|exact Hi].
  destruct (Hcpl c eq_refl) as [Hinit [Hrec _]].
  apply Hrec; [exact Hr|]. apply Hinit; [exact Hvar|exact Hi].
Qed.

End ZeroField.

(** *** The dispatch on a vanishing field *)

Lemma lsq_stage_zero
      g m fvq drv var_name halo_type inc recompute_cocg w_stride verbosity
      clip_mode clip_coeff f_ext coefap coefbp var c_weight cpl env r_grad :
  mesh_in_range m -> halo_keeps_zero m -> coupling_keeps_zero m cpl ->
  (forall c, (c < n_cells_with_ghosts m)%nat -> var c = 0) ->
  (forall f_id, In f_id (b_face_order m) -> coefap f_id = 0) ->
  (forall f_id, In f_id (b_face_order m) -> coefbp f_id = 1) ->
  zero_on (n_cells_with_ghosts m)
    (fst (lsq_stage g m fvq drv var_name halo_type inc recompute_cocg 0
            w_stride verbosity clip_mode clip_coeff f_ext coefap coefbp var
            c_weight cpl env r_grad)).
Proof.
  intros Hmesh Hhalo Hcpl Hvar Ha Hb. unfold lsq_stage.
  match goal with
  | |- context [let '(_, _) := ?X in _] =>
      assert (HX : zero_on (n_cells_with_ghosts m) (fst X));
      [|destruct X as [rg st]]
  end.
  { destruct (w_stride =? 6)%Z; destruct c_weight as [cw|]; cbn [negb Z.eqb];
      try (cbn [fst]; now apply ani_zero); now apply lsq_zero. }
  cbn [fst] in HX.
  pose proof (clipping_zero g m fvq Hmesh Hhalo halo_type clip_mode verbosity
                clip_coeff var_name var rg (env_log env) HX) as Hc.
  destruct (_scalar_gradient_clipping g m fvq halo_type clip_mode verbosity
              clip_coeff var_name var rg (env_log env)) as [r l].
  exact Hc.
Qed.

Lemma gradient_scalar_zero
      g m fvq drv compute_count r_grad_alloc var_name gradient_type halo_type
      inc check n_r_sweeps w_stride verbosity clip_mode epsilon clip_coeff
      f_ext bc_coeff_a bc_coeff_b var c_weight cpl st env grad :
  mesh_in_range m -> halo_keeps_zero m -> coupling_keeps_zero m cpl ->
  globals_keep_zero g m ->
  gradient_type <> CS_GRADIENT_GREEN_VTX ->
  (forall c, (c < n_cells_with_ghosts m)%nat -> var c = 0) ->
  neumann_a m bc_coeff_a -> neumann_b m bc_coeff_b ->
  zero_on (n_cells m)
    (res_grad (_gradient_scalar g m fvq drv compute_count r_grad_alloc
                 var_name gradient_type halo_type inc check n_r_sweeps 0
                 w_stride verbosity clip_mode epsilon clip_coeff f_ext
                 bc_coeff_a bc_coeff_b var c_weight cpl st env grad)).
Proof.
  intros Hmesh Hhalo Hcpl Hg Hty Hvar Hna Hnb. unfold _gradient_scalar.
  cbv zeta.
  set (coefap := match bc_coeff_a with Some a => a | None => fun _ => 0 end).
  set (coefbp := match bc_coeff_b with Some b => b | None => fun _ => 1 end).
  assert (Ha : forall f_id, In f_id (b_face_order m) -> coefap f_id = 0).
  { unfold coefap. destruct bc_coeff_a; [exact Hna|reflexivity]. }
  assert (Hb : forall f_id, In f_id (b_face_order m) -> coefbp f_id = 1).
  { unfold coefbp. destruct bc_coeff_b; [exact Hnb|reflexivity]. }
  clearbody coefap coefbp.
  match goal with
  | |- context [let '(_, _) := ?X in _] =>
      assert (HX : zero_on (n_cells m) (fst X)); [|destruct X as [gr en]]
  end.
  { destruct gradient_type; [| | |contradiction].
    - cbn [fst].
      assert (H0 : zero_on (n_cells_with_ghosts m)
                     (_initialize_scalar_gradient g m fvq cpl w_stride 0
                        (IZR inc) f_ext coefap coefbp var c_weight)).
      { apply initialize_zero; try assumption. discriminate. }
      apply zero_on_le with (k := n_cells m) in H0; [|exact (proj1 Hmesh)].
      destruct (iterative_zero_exit g m fvq cpl w_stride var_name
                  (env_info env) n_r_sweeps 0 verbosity (IZR inc) epsilon
                  f_ext coefap coefbp var c_weight (env_store env)
                  (env_log env) _ Hg H0) as [Hr _].
      rewrite Hr. exact H0.
    - apply zero_on_le with (n_cells_with_ghosts m); [|exact (proj1 Hmesh)].
      now apply lsq_stage_zero.
    - assert (Hs := lsq_stage_zero g m fvq drv var_name halo_type inc
                      (recompute_cocg_flag st check var_name inc compute_count)
                      w_stride verbosity clip_mode clip_coeff f_ext coefap
                      coefbp var c_weight cpl env r_grad_alloc
                      Hmesh Hhalo Hcpl Hvar Ha Hb).
      destruct (lsq_stage _ _ _ _ _ _ _ _ _ _ _ _ _ _ _ _ _ _ _ _ _)
        as [rg en].
      cbn [fst] in *.
      apply zero_on_le with (n_cells_with_ghosts m); [|exact (proj1 Hmesh)].
      apply reconstruct_zero; try assumption. discriminate. }
  cbn [fst res_grad] in *.
  destruct Hg as [Hreg _].
  destruct (CS_BAD_CELLS_REGULARISATION g) eqn:Er; [|exact HX].
  apply Hreg; [reflexivity|exact HX].
Qed.

(** C3 (amended): without hydrostatic treatment ([hyd_p_flag = 0]) and for
    one of the three schemes that the dispatch handles, on a well-formed
    mesh whose geometry is not degenerate for the scheme and the weighting
    asked for (no divisor vanishes: volumes, distances, interpolated
    weights, determinants of the matrices that are inverted), and with
    collaborators that leave a vanishing quantity as it is, a field that
    vanishes on every cell (ghost cells included) with homogeneous Neumann
    coefficients (given or left out) gets a gradient that vanishes on
    every owned cell, whatever the sweep cap, the tolerance and the clip
    settings, at both scalar entry points; and the iterative driver,
    called on the initialised gradient, returns it as it is, records 0
    sweeps and prints nothing. *)

Theorem zero_field_zero_gradient
        g m fvq drv compute_count r_grad_alloc var_name gradient_type
        halo_type inc n_r_sweeps w_stride verbosity clip_mode epsilon
        clip_coeff f_ext bc_coeff_a bc_coeff_b var c_weight cpl gl grad :
  mesh_in_range m -> halo_keeps_zero m -> coupling_keeps_zero m cpl ->
  globals_keep_zero g m ->
  gradient_type <> CS_GRADIENT_GREEN_VTX ->
  gradient_regular g m fvq cpl gradient_type halo_type w_stride bc_coeff_b
    (synced_c_weight m halo_type w_stride c_weight) (gl_store gl) ->
  gradient_regular g m fvq cpl gradient_type halo_type w_stride bc_coeff_b
    c_weight (gl_store gl) ->
  (forall c, (c < n_cells_with_ghosts m)%nat -> var c = 0) ->
  neumann_a m bc_coeff_a -> neumann_b m bc_coeff_b ->
  (forall c, (c < n_cells m)%nat ->
     fst (cs_gradient_scalar g m fvq drv compute_count r_grad_alloc var_name
            gradient_type halo_type inc n_r_sweeps 0 w_stride verbosity
            clip_mode epsilon clip_coeff f_ext bc_coeff_a bc_coeff_b var
            c_weight cpl gl grad) c = zero3
     /\ fst (cs_gradient_scalar_synced_input g m fvq drv compute_count
               r_grad_alloc var_name gradient_type halo_type inc n_r_sweeps 0
               w_stride verbosity clip_mode epsilon clip_coeff f_ext
               bc_coeff_a bc_coeff_b var c_weight cpl gl grad) c = zero3)
  /\ (green_regular g m fvq w_stride c_weight ->
      forall gradient_info store log,
        let coefap :=
          match bc_coeff_a with Some a => a | None => fun _ => 0 end in
        let coefbp :=
          match bc_coeff_b with Some b => b | None => fun _ => 1 end in
        let grad0 :=
          _initialize_scalar_gradient g m fvq cpl w_stride 0 (IZR inc) f_ext
            coefap coefbp var c_weight in
        let r :=
          _iterative_scalar_gradient g m fvq cpl w_stride var_name
            gradient_info n_r_sweeps 0 verbosity (IZR inc) epsilon f_ext
            coefap coefbp var c_weight store log grad0 in
        it_grad r = grad0
        /\ it_info r = update_iter_opt gradient_info 0
        /\ it_log r = log).
Proof.
  intros Hmesh Hhalo Hcpl Hg Hty _ _ Hvar Hna Hnb. split.
  - intros c Hc. split.
    + unfold cs_gradient_scalar.
      destruct (_find_or_add_system var_name gradient_type
                  (cs_glob_gradient_systems gl)) as [id systems].
      destruct (halo m) as [h|] eqn:Eh; cbn [fst].
      * apply gradient_scalar_zero; try assumption.
        destruct (Hhalo h Eh halo_type) as [Hs _]. apply Hs.
        intros i Hi. apply Hvar. pose proof (proj1 Hmesh). lia.
      * apply gradient_scalar_zero; assumption.
    + unfold cs_gradient_scalar_synced_input.
      destruct (_find_or_add_system var_name gradient_type
                  (cs_glob_gradient_systems gl)) as [id systems].
      cbn [fst]. apply gradient_scalar_zero; assumption.
  - intros _ gradient_info store log coefap coefbp grad0 r.
    apply iterative_zero_exit; [exact Hg|].
    apply zero_on_le with (n_cells_with_ghosts m); [|exact (proj1 Hmesh)].
    apply initialize_zero; try assumption.
    + unfold coefap. destruct bc_coeff_a; [exact Hna|reflexivity].
    + unfold coefbp. destruct bc_coeff_b; [exact Hnb|reflexivity].
    + discriminate.
Qed.
Lemma mesh_1_in_range : mesh_in_range Examples.mesh_1.
Proof.
  unfold mesh_in_range.
  split; [simpl; lia|]. split; [reflexivity|].
  split; [intros f_id H; cbv in H; contradiction|].
  split; [intros f_id H; cbv in H; destruct H as [<-|[]]; simpl; lia|].
  intros idx ii jj H. discriminate H.
Qed.

Lemma no_halo_keeps_zero (m : cs_mesh_t) : halo m = None -> halo_keeps_zero m.
Proof. intros H h Hh. congruence. Qed.

Lemma no_coupling_keeps_zero (m : cs_mesh_t) : coupling_keeps_zero m None.
Proof. intros c H. discriminate H. Qed.

Lemma glob0_keeps_zero (m : cs_mesh_t) : globals_keep_zero Examples.glob0 m.
Proof.
  unfold globals_keep_zero.
  split; [intros H; discriminate H|].
  split; [simpl; intros H; lia|].
  change (cs_math_epzero Examples.glob0) with (/ 10 ^ 12).
  apply Rlt_le, Rinv_0_lt_compat, pow_lt. lra.
Qed.

(** With the hydrostatic treatment and a unit exterior force, the field
    that vanishes, with the boundary coefficients left out, gets the
    gradient (1, 0, 0) on the one-cell mesh. *)

Lemma zero_field_hydrostatic_gradient :
  let out :=
    fst (cs_gradient_scalar Examples.glob0 Examples.mesh_1 Examples.fvq_unit
           Examples.drivers_idle 0 (fun _ => zero3) "p" CS_GRADIENT_GREEN_ITER
           CS_HALO_STANDARD 1 0 1 1 0 CS_GRADIENT_LIMIT_NONE 0 0
           Examples.f_ext_x None None Examples.var_zero None None
           globals_initial (fun _ => zero3)) in
  (forall c, Examples.var_zero c = 0)
  /\ out 0%nat = R3 1 0 0
  /\ out 0%nat <> zero3.
Proof.
  intros out.
  assert (H : out 0%nat = R3 1 0 0).
  { unfold out, cs_gradient_scalar.
    destruct (_find_or_add_system "p" CS_GRADIENT_GREEN_ITER
                (cs_glob_gradient_systems globals_initial)) as [id systems].
    cbn [halo Examples.mesh_1 fst].
    unfold _gradient_scalar. cbv zeta.
    unfold _iterative_scalar_gradient. change (0 <? 1)%Z with true.
    cbn iota. cbn [it_grad fst res_grad CS_BAD_CELLS_REGULARISATION Examples.glob0].
    unfold _initialize_scalar_gradient. change (1 =? 1)%Z with true. cbn iota.
    unfold _sync_scalar_gradient_halo. cbn [halo Examples.mesh_1].
    change (i_face_order Examples.mesh_1) with (@nil nat).
    change (b_face_order Examples.mesh_1) with [0%nat].
    cbn [fold_left].
    unfold scale_by_dvol. cbn [n_cells Examples.mesh_1].
    rewrite for_loop_S by lia. rewrite for_loop_nil by lia.
    rewrite upd_same.
    unfold init_b_face_hyd. rewrite upd_same.
    unfold dvol_of, cell_f_vol_used, b_poro_duq, axpy3, scale3, dot3, sub3.
    simpl. apply f_equal3; field. }
  split; [reflexivity|]. split; [exact H|].
  rewrite H. intros E. injection E as E. lra.
Qed.

(** ** The output does not depend on what the arrays held before *)

Lemma fold_left_ext_in {A B : Type} (f f' : A -> B -> A) (l : list B) (a : A) :
  (forall a b, In b l -> f a b = f' a b) ->
  fold_left f l a = fold_left f' l a.
Proof.
  revert a. induction l as [|x l IH]; intros a H; simpl; [reflexivity|].
  rewrite (H a x) by (left; reflexivity).
  apply IH. intros a0 b Hb. apply H. right. exact Hb.
Qed.

Lemma fold_left_rel {A B : Type} (Rel : A -> A -> Prop) (f f' : A -> B -> A)
      (l : list B) (a a' : A) :
  Rel a a' ->
  (forall a a' b, In b l -> Rel a a' -> Rel (f a b) (f' a' b)) ->
  Rel (fold_left f l a) (fold_left f' l a').
Proof.
  revert a a'. induction l as [|x l IH]; intros a a' H0 H; simpl; [exact H0|].
  apply IH.
  - apply H; [left; reflexivity|exact H0].
  - intros a1 a1' b Hb. apply H. right. exact Hb.
Qed.

Lemma for_loop_rel {S : Type} (Rel : S -> S -> Prop) (lo hi : nat)
      (body body' : S -> nat -> S) (s s' : S) :
  Rel s s' ->
  (forall t t' i, (lo <= i < hi)%nat -> Rel t t' ->
                  Rel (body t i) (body' t' i)) ->
  Rel (for_loop lo hi body s) (for_loop lo hi body' s').
Proof.
  intros H0 H. unfold for_loop. apply fold_left_rel; [exact H0|].
  intros a a' b Hb. apply H. unfold range in Hb. apply in_seq in Hb. lia.
Qed.

Lemma agree_on_refl (n : nat) (a : array cs_real_3_t) : agree_on n a a.
Proof. intros c _. reflexivity. Qed.

Lemma agree_on_le (n k : nat) (a a' : array cs_real_3_t) :
  agree_on n a a' -> (k <= n)%nat -> agree_on k a a'.
Proof. intros H Hk c Hc. apply H. lia. Qed.

Lemma agree_on_upd (n : nat) (a a' : array cs_real_3_t) (i : nat)
      (v v' : cs_real_3_t) :
  agree_on n a a' -> v = v' -> agree_on n (upd a i v) (upd a' i v').
Proof.
  intros H -> c Hc. unfold upd. destruct (Nat.eqb c i); [reflexivity|].
  apply H, Hc.
Qed.

Section Populated.

Variables (g : cs_glob_t) (m : cs_mesh_t) (fvq : cs_mesh_quantities_t).
Variable cpl : option cs_internal_coupling_t.

Hypothesis Hmesh : mesh_in_range m.
Hypothesis Hhalo : halo_from_owned m.
Hypothesis Hcpl : coupling_reads_local m cpl.

Local Abbreviation N := (n_cells_with_ghosts m).

Lemma sync_agree (ht : cs_halo_type_t) (a a' : array cs_real_3_t) :
  agree_on (n_cells m) a a' ->
  agree_on N (_sync_scalar_gradient_halo m ht a)
             (_sync_scalar_gradient_halo m ht a').
Proof.
  intros Ha. unfold _sync_scalar_gradient_halo.
  destruct (halo m) as [h|] eqn:Eh.
  - destruct (Hhalo h Eh ht) as [Hs Hp].
    destruct (have_rotation_perio m); [apply Hp|]; apply Hs; exact Ha.
  - destruct Hmesh as [_ [Hn _]]. rewrite (Hn Eh). exact Ha.
Qed.

Lemma sync_perio_agree (h : cs_halo_t) (ht : cs_halo_type_t)
      (a a' : array cs_real_3_t) :
  halo m = Some h -> agree_on (n_cells m) a a' ->
  agree_on N (cs_halo_perio_sync_var_vect h ht
                (cs_halo_sync_var_strided h ht a))
             (cs_halo_perio_sync_var_vect h ht
                (cs_halo_sync_var_strided h ht a')).
Proof.
  intros Eh Ha. destruct (Hhalo h Eh ht) as [Hs Hp]. apply Hp, Hs, Ha.
Qed.

(** *** Least squares: every owned entry is assigned *)

Lemma solve_cells_owned (cocg : array cs_cocg_6_t) (rhsv : array cs_real_4_t)
      (grad : array cs_real_3_t) (c : nat) :
  (c < n_cells m)%nat ->
  solve_cells m cocg rhsv grad c = cocg_times_rhs (cocg c) (rhs_v (rhsv c)).
Proof.
  unfold solve_cells.
  apply (for_loop_ind
           (fun i t => (c < i)%nat ->
                       t c = cocg_times_rhs (cocg c) (rhs_v (rhsv c))));
    [lia|intros H; lia|].
  intros i t Hi Ht Hc. unfold upd.
  destruct (Nat.eqb_spec c i) as [->|Hne]; [reflexivity|apply Ht; lia].
Qed.

Lemma solve_cells_agree (cocg : array cs_cocg_6_t) (rhsv : array cs_real_4_t)
      (grad grad' : array cs_real_3_t) :
  agree_on (n_cells m) (solve_cells m cocg rhsv grad)
                       (solve_cells m cocg rhsv grad').
Proof. intros c Hc. now rewrite !solve_cells_owned. Qed.

Lemma lsq_agree (halo_type : cs_halo_type_t) (recompute_cocg : bool) (inc : R)
      (coefap coefbp pvar : array R) (c_weight : option (array R))
      (store : gq_store) (grad grad' : array cs_real_3_t) :
  agree_on N
    (fst (_lsq_scalar_gradient g m fvq cpl halo_type recompute_cocg inc
            coefap coefbp pvar c_weight store grad))
    (fst (_lsq_scalar_gradient g m fvq cpl halo_type recompute_cocg inc
            coefap coefbp pvar c_weight store grad')).
Proof.
  unfold _lsq_scalar_gradient.
  destruct (_get_cell_cocg_lsq g m halo_type fvq None store) as [[s c] cb].
  destruct recompute_cocg; cbv zeta; cbn [fst];
    apply sync_agree, solve_cells_agree.
Qed.

Lemma ani_agree (inc : R) (coefap coefbp pvar : array R)
      (c_weight_t : array cs_cocg_6_t) (c_weight : array R)
      (grad grad' : array cs_real_3_t) :
  agree_on N
    (_lsq_scalar_gradient_ani m fvq cpl inc coefap coefbp pvar c_weight_t
                              c_weight grad)
    (_lsq_scalar_gradient_ani m fvq cpl inc coefap coefbp pvar c_weight_t
                              c_weight grad').
Proof.
  unfold _lsq_scalar_gradient_ani. cbv zeta.
  destruct (fold_left (ani_i_face m fvq c_weight_t) (i_face_order m) _)
    as [cocg1 rhsv1].
  destruct (match cpl with Some _ => _ | None => _ end) as [cocg2 rhsv2].
  destruct (fold_left (ani_b_face m fvq cpl inc coefap coefbp) _ _)
    as [cocg3 rhsv3].
  apply sync_agree, solve_cells_agree.
Qed.


(** *** Clipping *)

Lemma ext_loop_ext {S : Type} (halo_type : cs_halo_type_t)
      (body body' : nat -> S -> nat -> S) (s : S) :
  (forall ii jj t, (ii < n_cells m)%nat -> (jj < N)%nat ->
                   body ii t jj = body' ii t jj) ->
  ext_loop m halo_type body s = ext_loop m halo_type body' s.
Proof.
  intros H. unfold ext_loop.
  destruct (cell_cells_idx m) as [idx|] eqn:Ei; [|reflexivity].
  destruct (halo_type_eqb halo_type CS_HALO_EXTENDED); [|reflexivity].
  unfold for_loop. apply fold_left_ext_in. intros t ii Hii.
  unfold range in Hii. apply in_seq in Hii.
  apply fold_left_ext_in. intros t' jj Hjj. apply H; [lia|].
  destruct Hmesh as [_ [_ [_ [_ He]]]]. apply (He idx ii jj Ei); [lia|exact Hjj].
Qed.

Lemma clip_denums_agree (halo_type : cs_halo_type_t) (clip_mode : Z)
      (var : array R) (grad grad' : array cs_real_3_t)
      (d0 : array R * array R) :
  agree_on N grad grad' ->
  (if (clip_mode =? CS_GRADIENT_LIMIT_CELL)%Z then
     ext_loop m halo_type (clip_cell_ext fvq var grad)
       (fold_left (clip_cell_i_face m fvq var grad) (i_face_order m) d0)
   else if (clip_mode =? CS_GRADIENT_LIMIT_FACE)%Z then
     ext_loop m halo_type (clip_face_ext fvq var grad)
       (fold_left (clip_face_i_face m fvq var grad) (i_face_order m) d0)
   else d0)
  = (if (clip_mode =? CS_GRADIENT_LIMIT_CELL)%Z then
       ext_loop m halo_type (clip_cell_ext fvq var grad')
         (fold_left (clip_cell_i_face m fvq var grad') (i_face_order m) d0)
     else if (clip_mode =? CS_GRADIENT_LIMIT_FACE)%Z then
       ext_loop m halo_type (clip_face_ext fvq var grad')
         (fold_left (clip_face_i_face m fvq var grad') (i_face_order m) d0)
     else d0).
Proof.
  intros Hg.
  assert (Hle : (n_cells m <= N)%nat) by exact (proj1 Hmesh).
  assert (Hf : forall f_id, In f_id (i_face_order m) ->
                 grad (fst (i_face_cells m f_id)) = grad' (fst (i_face_cells m f_id))
                 /\ grad (snd (i_face_cells m f_id)) = grad' (snd (i_face_cells m f_id))).
  { intros f_id Hin. destruct Hmesh as [_ [_ [Hi _]]].
    destruct (Hi f_id Hin) as [H1 H2]. split; apply Hg; assumption. }
  destruct (clip_mode =? CS_GRADIENT_LIMIT_CELL)%Z.
  - rewrite (fold_left_ext_in (clip_cell_i_face m fvq var grad)
                              (clip_cell_i_face m fvq var grad')).
    + apply ext_loop_ext. intros ii jj [denum denom] Hii Hjj.
      unfold clip_cell_ext. rewrite (Hg ii) by lia. reflexivity.
    + intros [denum denom] f_id Hin. destruct (Hf f_id Hin) as [H1 H2].
      unfold clip_cell_i_face. rewrite H1, H2. reflexivity.
  - destruct (clip_mode =? CS_GRADIENT_LIMIT_FACE)%Z; [|reflexivity].
    rewrite (fold_left_ext_in (clip_face_i_face m fvq var grad)
                              (clip_face_i_face m fvq var grad')).
    + apply ext_loop_ext. intros ii jj [denum denom] Hii Hjj.
      unfold clip_face_ext. rewrite (Hg ii) by lia. rewrite (Hg jj) by lia.
      reflexivity.
    + intros [denum denom] f_id Hin. destruct (Hf f_id Hin) as [H1 H2].
      unfold clip_face_i_face. rewrite H1, H2. reflexivity.
Qed.

Lemma clip_cell_apply_agree (climgp : R) (denum denom : array R)
      (a a' : clip_acc) (ii : nat) :
  (ii < N)%nat -> agree_on N (acc_grad a) (acc_grad a') ->
  agree_on N (acc_grad (clip_cell_apply climgp denum denom a ii))
             (acc_grad (clip_cell_apply climgp denum denom a' ii)).
Proof.
  intros Hii Ha. unfold clip_cell_apply.
  destruct (Rgt_dec (denum ii) (climgp * denom ii)); [|exact Ha].
  cbn [acc_grad]. apply agree_on_upd; [exact Ha|]. now rewrite (Ha ii Hii).
Qed.

Lemma clip_face_apply_agree (clip_factor : array R) (a a' : clip_acc)
      (ii : nat) :
  (ii < N)%nat -> agree_on N (acc_grad a) (acc_grad a') ->
  agree_on N (acc_grad (clip_face_apply clip_factor a ii))
             (acc_grad (clip_face_apply clip_factor a' ii)).
Proof.
  intros Hii Ha. unfold clip_face_apply.
  assert (H : agree_on N
                (upd (acc_grad a) ii (scale3 (clip_factor ii) (acc_grad a ii)))
                (upd (acc_grad a') ii (scale3 (clip_factor ii) (acc_grad a' ii)))).
  { apply agree_on_upd; [exact Ha|]. now rewrite (Ha ii Hii). }
  destruct (Rlt_dec (clip_factor ii) 0.99); exact H.
Qed.

Lemma clipping_agree (halo_type : cs_halo_type_t) (clip_mode verbosity : Z)
      (climgp : R) (var_name : string) (var : array R)
      (grad grad' : array cs_real_3_t) (log log' : list log_event) :
  agree_on N grad grad' ->
  agree_on N
    (fst (_scalar_gradient_clipping g m fvq halo_type clip_mode verbosity
            climgp var_name var grad log))
    (fst (_scalar_gradient_clipping g m fvq halo_type clip_mode verbosity
            climgp var_name var grad' log')).
Proof.
  intros Hz.
  assert (Hle : (n_cells m <= N)%nat) by exact (proj1 Hmesh).
  unfold _scalar_gradient_clipping.
  destruct (clip_mode <=? CS_GRADIENT_LIMIT_NONE)%Z; [exact Hz|].
  cbv zeta.
  set (grad1 := match halo m with
                | Some h =>
                    if (clip_mode =? CS_GRADIENT_LIMIT_FACE)%Z
                    then cs_halo_perio_sync_var_vect h halo_type
                           (cs_halo_sync_var_strided h halo_type grad)
                    else grad
                | None => grad
                end).
  set (grad1' := match halo m with
                 | Some h =>
                     if (clip_mode =? CS_GRADIENT_LIMIT_FACE)%Z
                     then cs_halo_perio_sync_var_vect h halo_type
                            (cs_halo_sync_var_strided h halo_type grad')
                     else grad'
                 | None => grad'
                 end).
  assert (H1 : agree_on N grad1 grad1').
  { unfold grad1, grad1'. destruct (halo m) as [h|] eqn:Eh; [|exact Hz].
    destruct (clip_mode =? CS_GRADIENT_LIMIT_FACE)%Z; [|exact Hz].
    apply sync_perio_agree; [exact Eh|].
    apply agree_on_le with N; [exact Hz|exact Hle]. }
  clearbody grad1 grad1'.
  rewrite (clip_denums_agree halo_type clip_mode var grad1 grad1'
             (fun _ => 0, fun _ => 0) H1).
  match goal with
  | |- context [let '(_, _) := ?p in _] => destruct p as [denum denom]
  end.
  match goal with
  | |- agree_on N (fst (match halo m with
                        | Some _ => _
                        | None => acc_grad (if _ then _ else ?A)
                        end, _))
                  (fst (match halo m with
                        | Some _ => _
                        | None => acc_grad (if _ then _ else ?A')
                        end, _)) =>
      set (a := A); set (a' := A')
  end.
  assert (Ha : agree_on N (acc_grad a) (acc_grad a')).
  { unfold a, a'. destruct (clip_mode =? CS_GRADIENT_LIMIT_CELL)%Z.
    - cbn [acc_grad].
      apply (for_loop_rel (fun t t' => agree_on N (acc_grad t) (acc_grad t')));
        [exact H1|].
      intros t t' i Hi Ht. apply clip_cell_apply_agree; [lia|exact Ht].
    - destruct (clip_mode =? CS_GRADIENT_LIMIT_FACE)%Z; [|exact H1].
      match goal with
      | |- context [let '(_, _) := ?p in _] => destruct p as [denom' denum']
      end.
      cbn [acc_grad].
      apply (for_loop_rel (fun t t' => agree_on N (acc_grad t) (acc_grad t')));
        [exact H1|].
      intros t t' i Hi Ht. apply clip_face_apply_agree; [lia|exact Ht]. }
  clearbody a a'.
  cbn [fst].
  assert (Hb : agree_on N
                 (acc_grad
                    (if (1 <? n_domains m)%nat
                     then Clip_acc (acc_grad a) (MPI_Allreduce_min g (acc_min a))
                            (MPI_Allreduce_max g (acc_max a))
                            (MPI_Allreduce_sum_gnum g (acc_n a))
                     else a))
                 (acc_grad
                    (if (1 <? n_domains m)%nat
                     then Clip_acc (acc_grad a') (MPI_Allreduce_min g (acc_min a'))
                            (MPI_Allreduce_max g (acc_max a'))
                            (MPI_Allreduce_sum_gnum g (acc_n a'))
                     else a'))).
  { destruct (1 <? n_domains m)%nat; exact Ha. }
  destruct (halo m) as [h|] eqn:Eh; [|exact Hb].
  apply sync_perio_agree; [exact Eh|].
  apply agree_on_le with N; [exact Hb|exact Hle].
Qed.

(** *** Reconstruction *)

Lemma rec_i_face_agree (w : weighting) (c_var : array R)
      (r_grad r_grad' grad : array cs_real_3_t) (f_id : nat) :
  In f_id (i_face_order m) -> agree_on N r_grad r_grad' ->
  rec_i_face m fvq w c_var r_grad grad f_id
  = rec_i_face m fvq w c_var r_grad' grad f_id.
Proof.
  intros Hf Hr. destruct Hmesh as [_ [_ [Hi _]]].
  destruct (Hi f_id Hf) as [H1 H2].
  unfold rec_i_face. rewrite (Hr _ H1), (Hr _ H2). reflexivity.
Qed.

Lemma rec_b_face_agree (inc : R) (coefap coefbp c_var : array R)
      (r_grad r_grad' grad grad' : array cs_real_3_t) (f_id : nat) :
  In f_id (b_face_order m) -> agree_on N r_grad r_grad' ->
  agree_on N grad grad' ->
  agree_on N (rec_b_face m fvq cpl inc coefap coefbp c_var r_grad grad f_id)
             (rec_b_face m fvq cpl inc coefap coefbp c_var r_grad' grad' f_id).
Proof.
  intros Hf Hr Hg. unfold rec_b_face.
  destruct (is_coupled cpl f_id); [exact Hg|].
  assert (Hii : (b_face_cells m f_id < N)%nat).
  { destruct Hmesh as [Hle [_ [_ [Hb _]]]]. specialize (Hb f_id Hf). lia. }
  apply agree_on_upd; [exact Hg|]. now rewrite (Hr _ Hii), (Hg _ Hii).
Qed.

Lemma rec_scale_agree (grad grad' : array cs_real_3_t) :
  agree_on N grad grad' ->
  agree_on N (rec_scale g m fvq grad) (rec_scale g m fvq grad').
Proof.
  intros Hg. unfold rec_scale. apply for_loop_rel; [exact Hg|].
  intros t t' i Hi Ht. apply agree_on_upd; [exact Ht|].
  rewrite (Ht i) by (pose proof (proj1 Hmesh); lia). reflexivity.
Qed.

Lemma reconstruct_agree (w_stride hyd_p_flag : Z) (inc : R)
      (f_ext : array cs_real_3_t) (coefap coefbp : array R)
      (c_weight : option (array R)) (c_var : array R)
      (r_grad r_grad' : array cs_real_3_t) :
  hyd_p_flag <> 1%Z -> agree_on N r_grad r_grad' ->
  agree_on N
    (_reconstruct_scalar_gradient g m fvq cpl w_stride hyd_p_flag inc f_ext
       coefap coefbp c_weight c_var r_grad)
    (_reconstruct_scalar_gradient g m fvq cpl w_stride hyd_p_flag inc f_ext
       coefap coefbp c_weight c_var r_grad').
Proof.
  intros Hh Hr. unfold _reconstruct_scalar_gradient.
  destruct (Z.eqb_spec hyd_p_flag 1) as [|_]; [contradiction|].
  apply sync_agree. apply agree_on_le with N; [|exact (proj1 Hmesh)].
  apply rec_scale_agree.
  apply fold_left_rel;
    [|intros a a' b Hb Ha; now apply rec_b_face_agree].
  rewrite (fold_left_ext_in
             (rec_i_face m fvq (weighting_of w_stride c_weight) c_var r_grad)
             (rec_i_face m fvq (weighting_of w_stride c_weight) c_var r_grad'))
    by (intros a b Hb; now apply rec_i_face_agree).
  destruct cpl as [c|] eqn:Ec; [|apply agree_on_refl].
  apply (Hcpl c eq_refl); [exact Hr|apply agree_on_refl].
Qed.

Lemma rec_i_face_hyd_agree (w : weighting) (f_ext : array cs_real_3_t)
      (c_var : array R) (r_grad r_grad' grad : array cs_real_3_t)
      (f_id : nat) :
  In f_id (i_face_order m) -> agree_on N r_grad r_grad' ->
  rec_i_face_hyd g m fvq w f_ext c_var r_grad grad f_id
  = rec_i_face_hyd g m fvq w f_ext c_var r_grad' grad f_id.
Proof.
  intros Hf Hr. destruct Hmesh as [_ [_ [Hi _]]].
  destruct (Hi f_id Hf) as [H1 H2].
  unfold rec_i_face_hyd. rewrite (Hr _ H1), (Hr _ H2). reflexivity.
Qed.

Lemma rec_b_face_hyd_agree (inc : R) (f_ext : array cs_real_3_t)
      (coefap coefbp c_var : array R)
      (r_grad r_grad' grad grad' : array cs_real_3_t) (f_id : nat) :
  In f_id (b_face_order m) -> agree_on N r_grad r_grad' ->
  agree_on N grad grad' ->
  agree_on N
    (rec_b_face_hyd g m fvq inc f_ext coefap coefbp c_var r_grad grad f_id)
    (rec_b_face_hyd g m fvq inc f_ext coefap coefbp c_var r_grad' grad' f_id).
Proof.
  intros Hf Hr Hg. unfold rec_b_face_hyd.
  assert (Hii : (b_face_cells m f_id < N)%nat).
  { destruct Hmesh as [Hle [_ [_ [Hb _]]]]. specialize (Hb f_id Hf). lia. }
  apply agree_on_upd; [exact Hg|]. now rewrite (Hr _ Hii), (Hg _ Hii).
Qed.

(** With or without the hydrostatic treatment. *)

Lemma reconstruct_agree_any (w_stride hyd_p_flag : Z) (inc : R)
      (f_ext : array cs_real_3_t) (coefap coefbp : array R)
      (c_weight : option (array R)) (c_var : array R)
      (r_grad r_grad' : array cs_real_3_t) :
  agree_on N r_grad r_grad' ->
  agree_on N
    (_reconstruct_scalar_gradient g m fvq cpl w_stride hyd_p_flag inc f_ext
       coefap coefbp c_weight c_var r_grad)
    (_reconstruct_scalar_gradient g m fvq cpl w_stride hyd_p_flag inc f_ext
       coefap coefbp c_weight c_var r_grad').
Proof.
  intros Hr.
  destruct (Z.eq_dec hyd_p_flag 1) as [->|Hh];
    [|now apply reconstruct_agree].
  unfold _reconstruct_scalar_gradient. change (1 =? 1)%Z with true.
  cbv iota zeta.
  apply sync_agree. apply agree_on_le with N; [|exact (proj1 Hmesh)].
  apply rec_scale_agree.
  apply fold_left_rel;
    [|intros a a' b Hb Ha; now apply rec_b_face_hyd_agree].
  rewrite (fold_left_ext_in
             (rec_i_face_hyd g m fvq (weighting_of w_stride c_weight) f_ext
                             c_var r_grad)
             (rec_i_face_hyd g m fvq (weighting_of w_stride c_weight) f_ext
                             c_var r_grad'))
    by (intros a b Hb; now apply rec_i_face_hyd_agree).
  apply agree_on_refl.
Qed.

End Populated.

(** ** The scalar drivers read the boundary coefficients on boundary
       faces only *)

Lemma sweep_loop_ext
      g m (one_sweep one_sweep' : array cs_real_3_t ->
                                  array cs_real_3_t * array cs_real_3_t)
      var_name verbosity epsrgp rnorm (todo : nat) (s : sweep_state) :
  (forall grad, one_sweep grad = one_sweep' grad) ->
  sweep_loop g m one_sweep var_name verbosity epsrgp rnorm todo s
  = sweep_loop g m one_sweep' var_name verbosity epsrgp rnorm todo s.
Proof.
  intros H. revert s. induction todo as [|todo IH]; intros s; simpl;
    [reflexivity|].
  rewrite H. destruct (one_sweep' (sw_grad s)) as [grad rhs].
  destruct (Rlt_dec _ _); [reflexivity|apply IH].
Qed.

Section BoundaryCoefficients.

Variables (g : cs_glob_t) (m : cs_mesh_t) (fvq : cs_mesh_quantities_t).
Variable cpl : option cs_internal_coupling_t.
Variables coefap coefap' coefbp coefbp' : array R.

Hypothesis Hcoefa :
  forall f_id, In f_id (b_face_order m) -> coefap f_id = coefap' f_id.
Hypothesis Hcoefb :
  forall f_id, In f_id (b_face_order m) -> coefbp f_id = coefbp' f_id.

Lemma initialize_bc_ext w_stride hyd_p_flag inc f_ext pvar c_weight :
  _initialize_scalar_gradient g m fvq cpl w_stride hyd_p_flag inc f_ext
    coefap coefbp pvar c_weight
  = _initialize_scalar_gradient g m fvq cpl w_stride hyd_p_flag inc f_ext
      coefap' coefbp' pvar c_weight.
Proof.
  unfold _initialize_scalar_gradient. cbv zeta.
  destruct (hyd_p_flag =? 1)%Z.
  - rewrite (fold_left_ext_in
               (init_b_face_hyd g m fvq inc f_ext coefap coefbp pvar)
               (init_b_face_hyd g m fvq inc f_ext coefap' coefbp' pvar));
      [reflexivity|].
    intros a f_id Hf. unfold init_b_face_hyd.
    now rewrite (Hcoefa f_id Hf), (Hcoefb f_id Hf).
  - rewrite (fold_left_ext_in
               (init_b_face m fvq cpl inc coefap coefbp pvar)
               (init_b_face m fvq cpl inc coefap' coefbp' pvar));
      [reflexivity|].
    intros a f_id Hf. unfold init_b_face.
    now rewrite (Hcoefa f_id Hf), (Hcoefb f_id Hf).
Qed.

Lemma sweep_bc_ext w c_weight hyd_p_flag inc f_ext pvar cocg grad :
  sweep g m fvq cpl w c_weight hyd_p_flag inc f_ext coefap coefbp pvar cocg grad
  = sweep g m fvq cpl w c_weight hyd_p_flag inc f_ext coefap' coefbp' pvar
          cocg grad.
Proof.
  unfold sweep. cbv zeta.
  destruct (hyd_p_flag =? 1)%Z.
  - rewrite (fold_left_ext_in
               (sweep_b_face_hyd g m fvq inc f_ext coefap coefbp pvar grad)
               (sweep_b_face_hyd g m fvq inc f_ext coefap' coefbp' pvar grad));
      [reflexivity|].
    intros a f_id Hf. unfold sweep_b_face_hyd.
    now rewrite (Hcoefa f_id Hf), (Hcoefb f_id Hf).
  - rewrite (fold_left_ext_in
               (sweep_b_face m fvq cpl inc coefap coefbp pvar grad)
               (sweep_b_face m fvq cpl inc coefap' coefbp' pvar grad));
      [reflexivity|].
    intros a f_id Hf. unfold sweep_b_face.
    now rewrite (Hcoefa f_id Hf), (Hcoefb f_id Hf).
Qed.

Lemma iterative_bc_ext w_stride var_name gradient_info nswrgp hyd_p_flag
      verbosity inc epsrgp f_ext pvar c_weight store log grad :
  _iterative_scalar_gradient g m fvq cpl w_stride var_name gradient_info
    nswrgp hyd_p_flag verbosity inc epsrgp f_ext coefap coefbp pvar c_weight
    store log grad
  = _iterative_scalar_gradient g m fvq cpl w_stride var_name gradient_info
      nswrgp hyd_p_flag verbosity inc epsrgp f_ext coefap' coefbp' pvar
      c_weight store log grad.
Proof.
  unfold _iterative_scalar_gradient.
  destruct (nswrgp <? 1)%Z; [reflexivity|]. cbv zeta.
  match goal with
  | |- context [let '(_, _) := ?p in _] => destruct p as [cocg store1]
  end.
  destruct (Rle_dec _ _); [reflexivity|].
  rewrite (sweep_loop_ext g m
             (sweep g m fvq cpl (weighting_of w_stride c_weight) c_weight
                    hyd_p_flag inc f_ext coefap coefbp pvar cocg)
             (sweep g m fvq cpl (weighting_of w_stride c_weight) c_weight
                    hyd_p_flag inc f_ext coefap' coefbp' pvar cocg));
    [reflexivity|].
  intros grad0. apply sweep_bc_ext.
Qed.

Lemma recompute_cocg_bc_ext cocgb cocg :
  _recompute_lsq_scalar_cocg m fvq cpl coefbp cocgb cocg
  = _recompute_lsq_scalar_cocg m fvq cpl coefbp' cocgb cocg.
Proof.
  unfold _recompute_lsq_scalar_cocg. cbv zeta.
  rewrite (fold_left_ext_in (recompute_b_face m fvq cpl coefbp)
                            (recompute_b_face m fvq cpl coefbp'));
    [reflexivity|].
  intros a f_id Hf. unfold recompute_b_face, bc_direction.
  now rewrite (Hcoefb f_id Hf).
Qed.

Lemma lsq_bc_ext halo_type recompute_cocg inc pvar c_weight store grad :
  _lsq_scalar_gradient g m fvq cpl halo_type recompute_cocg inc coefap coefbp
    pvar c_weight store grad
  = _lsq_scalar_gradient g m fvq cpl halo_type recompute_cocg inc coefap'
      coefbp' pvar c_weight store grad.
Proof.
  unfold _lsq_scalar_gradient.
  destruct (_get_cell_cocg_lsq g m halo_type fvq None store) as [[s c] cb].
  rewrite recompute_cocg_bc_ext.
  rewrite (fold_left_ext_in (lsq_b_face m fvq cpl inc coefap coefbp)
                            (lsq_b_face m fvq cpl inc coefap' coefbp'));
    [reflexivity|].
  intros a f_id Hf. unfold lsq_b_face.
  now rewrite (Hcoefa f_id Hf), (Hcoefb f_id Hf).
Qed.

Lemma ani_bc_ext inc pvar c_weight_t c_weight grad :
  _lsq_scalar_gradient_ani m fvq cpl inc coefap coefbp pvar c_weight_t
    c_weight grad
  = _lsq_scalar_gradient_ani m fvq cpl inc coefap' coefbp' pvar c_weight_t
      c_weight grad.
Proof.
  unfold _lsq_scalar_gradient_ani. cbv zeta.
  destruct (fold_left (ani_i_face m fvq c_weight_t) (i_face_order m) _)
    as [cocg1 rhsv1].
  destruct (match cpl with Some _ => _ | None => _ end) as [cocg2 rhsv2].
  rewrite (fold_left_ext_in (ani_b_face m fvq cpl inc coefap coefbp)
                            (ani_b_face m fvq cpl inc coefap' coefbp'));
    [reflexivity|].
  intros [cocg rhsv] f_id Hf. unfold ani_b_face.
  now rewrite (Hcoefa f_id Hf), (Hcoefb f_id Hf).
Qed.

Lemma reconstruct_bc_ext w_stride hyd_p_flag inc f_ext c_weight c_var r_grad :
  _reconstruct_scalar_gradient g m fvq cpl w_stride hyd_p_flag inc f_ext
    coefap coefbp c_weight c_var r_grad
  = _reconstruct_scalar_gradient g m fvq cpl w_stride hyd_p_flag inc f_ext
      coefap' coefbp' c_weight c_var r_grad.
Proof.
  unfold _reconstruct_scalar_gradient. cbv zeta.
  destruct (hyd_p_flag =? 1)%Z.
  - rewrite (fold_left_ext_in
               (rec_b_face_hyd g m fvq inc f_ext coefap coefbp c_var r_grad)
               (rec_b_face_hyd g m fvq inc f_ext coefap' coefbp' c_var r_grad));
      [reflexivity|].
    intros a f_id Hf. unfold rec_b_face_hyd.
    now rewrite (Hcoefa f_id Hf), (Hcoefb f_id Hf).
  - rewrite (fold_left_ext_in
               (rec_b_face m fvq cpl inc coefap coefbp c_var r_grad)
               (rec_b_face m fvq cpl inc coefap' coefbp' c_var r_grad));
      [reflexivity|].
    intros a f_id Hf. unfold rec_b_face.
    now rewrite (Hcoefa f_id Hf), (Hcoefb f_id Hf).
Qed.

End BoundaryCoefficients.

(** ** Dispatch: boundary-condition defaults and the recompute check *)

Lemma char_cmp_eq (c1 c2 : ascii) : char_cmp c1 c2 = 0%Z <-> c1 = c2.
Proof.
  unfold char_cmp. split.
  - destruct (Nat.ltb_spec (nat_of_ascii c1) (nat_of_ascii c2)); [discriminate|].
    destruct (Nat.ltb_spec (nat_of_ascii c2) (nat_of_ascii c1)); [discriminate|].
    intros _. rewrite <- (ascii_nat_embedding c1), <- (ascii_nat_embedding c2).
    f_equal. lia.
  - intros ->. rewrite Nat.ltb_irrefl. reflexivity.
Qed.

Lemma strncmp_eq (n : nat) (s1 s2 : string) :
  strncmp s1 s2 n = 0%Z <-> strncpy s1 n = strncpy s2 n.
Proof.
  revert s1 s2. induction n as [|n IH]; intros s1 s2; simpl.
  - split; reflexivity.
  - destruct s1 as [|c1 r1], s2 as [|c2 r2]; try (split; [discriminate|discriminate]).
    + split; reflexivity.
    + destruct (Z.eqb_spec (char_cmp c1 c2) 0) as [Hc|Hc].
      * apply char_cmp_eq in Hc. subst c2. rewrite IH. split.
        -- intros ->. reflexivity.
        -- intros H. injection H as H. exact H.
      * split; [intros H; contradiction|].
        intros H. injection H as H1 _. apply char_cmp_eq in H1. contradiction.
Qed.

Lemma strncpy_idem (n : nat) (s : string) : strncpy (strncpy s n) n = strncpy s n.
Proof.
  revert s. induction n as [|n IH]; intros s; simpl; [reflexivity|].
  destruct s as [|c r]; [reflexivity|]. simpl. now rewrite IH.
Qed.

Lemma last_cons_default {A : Type} (x d : A) (l : list A) :
  last (x :: l) d = last l x.
Proof.
  revert x d. induction l as [|y l IH]; intros x d; [reflexivity|].
  change (last (x :: y :: l) d) with (last (y :: l) d).
  rewrite (IH y d), (IH y x). reflexivity.
Qed.

(** The statics after a run of calls. *)

Lemma statics_run (h : list scalar_call) (st : gradient_scalar_static) :
  var_name_prev (fold_left static_step h st)
  = last (map (fun p => strncpy (call_name p) 95) h) (var_name_prev st)
  /\ last_fvm_count (fold_left static_step h st)
     = last (map call_count (filter call_synced h)) (last_fvm_count st).
Proof.
  revert st. induction h as [|c h IH]; intros st; [split; reflexivity|].
  cbn [fold_left]. destruct (IH (static_step st c)) as [Hn Hc].
  rewrite Hn, Hc. split.
  - cbn [map]. rewrite last_cons_default. reflexivity.
  - cbn [filter]. unfold static_step, static_after. cbn [last_fvm_count].
    destruct (call_synced c).
    + cbn [map]. rewrite last_cons_default. reflexivity.
    + reflexivity.
Qed.

Lemma remembered_name_short (h : list scalar_call) :
  strncpy (remembered_name h) 95 = remembered_name h.
Proof.
  unfold remembered_name.
  assert (H : forall d, strncpy d 95 = d ->
                        strncpy (last (map (fun p => strncpy (call_name p) 95) h) d) 95
                        = last (map (fun p => strncpy (call_name p) 95) h) d).
  { induction h as [|c h IH]; intros d Hd; [exact Hd|].
    cbn [map]. rewrite last_cons_default. apply IH. apply strncpy_idem. }
  apply H. reflexivity.
Qed.

(** The entry points leave the statics as one step of the history does. *)

Lemma gradient_scalar_statics
      g m fvq drv compute_count r_grad_alloc var_name gradient_type halo_type
      inc check n_r_sweeps hyd_p_flag w_stride verbosity clip_mode epsilon
      clip_coeff f_ext bc_coeff_a bc_coeff_b var c_weight cpl st env grad :
  res_static (_gradient_scalar g m fvq drv compute_count r_grad_alloc var_name
                gradient_type halo_type inc check n_r_sweeps hyd_p_flag
                w_stride verbosity clip_mode epsilon clip_coeff f_ext
                bc_coeff_a bc_coeff_b var c_weight cpl st env grad)
  = static_step st (Scalar_call check var_name inc compute_count).
Proof.
  unfold _gradient_scalar.
  destruct gradient_type; cbv zeta;
    repeat match goal with
           | |- context [let '(_, _) := ?p in _] => destruct p
           end; reflexivity.
Qed.

Lemma cs_gradient_scalar_statics
      g m fvq drv compute_count r_grad_alloc var_name gradient_type halo_type
      inc n_r_sweeps hyd_p_flag w_stride verbosity clip_mode epsilon
      clip_coeff f_ext bc_coeff_a bc_coeff_b var c_weight cpl gl grad :
  gl_static (snd (cs_gradient_scalar g m fvq drv compute_count r_grad_alloc
                    var_name gradient_type halo_type inc n_r_sweeps hyd_p_flag
                    w_stride verbosity clip_mode epsilon clip_coeff f_ext
                    bc_coeff_a bc_coeff_b var c_weight cpl gl grad))
  = static_step (gl_static gl) (Scalar_call false var_name inc compute_count).
Proof.
  unfold cs_gradient_scalar.
  destruct (_find_or_add_system var_name gradient_type
              (cs_glob_gradient_systems gl)) as [id systems].
  destruct (halo m); cbn [snd gl_static]; apply gradient_scalar_statics.
Qed.

Lemma cs_gradient_scalar_synced_input_statics
      g m fvq drv compute_count r_grad_alloc var_name gradient_type halo_type
      inc n_r_sweeps hyd_p_flag w_stride verbosity clip_mode epsilon
      clip_coeff f_ext bc_coeff_a bc_coeff_b var c_weight cpl gl grad :
  gl_static (snd (cs_gradient_scalar_synced_input g m fvq drv compute_count
                    r_grad_alloc var_name gradient_type halo_type inc
                    n_r_sweeps hyd_p_flag w_stride verbosity clip_mode epsilon
                    clip_coeff f_ext bc_coeff_a bc_coeff_b var c_weight cpl
                    gl grad))
  = static_step (gl_static gl) (Scalar_call true var_name inc compute_count).
Proof.
  unfold cs_gradient_scalar_synced_input.
  destruct (_find_or_add_system var_name gradient_type
              (cs_glob_gradient_systems gl)) as [id systems].
  cbn [snd gl_static]. apply gradient_scalar_statics.
Qed.

(** C4 (amended): a call made after the calls [h] gets
    [recompute_cocg = false] exactly when it enters through
    [cs_gradient_scalar_synced_input], its name agrees in its first 95
    characters with the name of the last scalar gradient call (the empty
    name before any call), [inc] is 0, and the compute count equals the one
    seen by the last call that entered through
    [cs_gradient_scalar_synced_input] (0 when there is none): calls through
    [cs_gradient_scalar] record the name but not the count.  In particular
    every call through [cs_gradient_scalar] gets [recompute_cocg = true]. *)

Theorem cocg_recompute_skipped_iff (h : list scalar_call) (c : scalar_call) :
  recompute_cocg_at h c = false
  <-> call_synced c = true
      /\ strncpy (call_name c) 95 = remembered_name h
      /\ call_inc c = 0%Z
      /\ call_count c = remembered_count h.
Proof.
  unfold recompute_cocg_at, statics_after_calls, recompute_cocg_flag.
  destruct (statics_run h static_initial) as [Hn Hc].
  rewrite Hn, Hc. cbn [static_initial var_name_prev last_fvm_count].
  fold (remembered_name h). fold (remembered_count h).
  assert (Hname : strncmp (remembered_name h) (call_name c) 95 = 0%Z
                  <-> strncpy (call_name c) 95 = remembered_name h).
  { rewrite strncmp_eq, remembered_name_short. split; intros H; now symmetry. }
  destruct (call_synced c); [|split; [discriminate|intros [H _]; discriminate H]].
  destruct (Z.eqb_spec (strncmp (remembered_name h) (call_name c) 95) 0)
    as [Hs|Hs];
    destruct (Z.eqb_spec (call_inc c) 0) as [Hi|Hi];
    destruct (Z.eqb_spec (call_count c) (remembered_count h)) as [Hk|Hk];
    cbn [andb negb]; split;
    try discriminate;
    try (intros [_ [H1 [H2 H3]]]; try contradiction;
         exfalso; apply Hs; apply Hname; exact H1).
  - intros _. repeat split; [apply Hname; exact Hs|exact Hi|exact Hk].
  - reflexivity.
Qed.

(** A call through [cs_gradient_scalar_synced_input] for the name of the
    immediately preceding call, with [inc = 0] and the compute count that
    the preceding call saw, still recomputes when that preceding call went
    through [cs_gradient_scalar]. *)

Lemma cocg_recomputed_despite_unchanged_count :
  let h := [Scalar_call true "p" 0 1; Scalar_call false "p" 0 2] in
  let prev := Scalar_call false "p" 0 2 in
  let c := Scalar_call true "p" 0 2 in
  last h c = prev
  /\ call_synced c = true
  /\ strncpy (call_name c) 95 = strncpy (call_name prev) 95
  /\ call_inc c = 0%Z
  /\ call_count c = call_count prev
  /\ recompute_cocg_at h c = true.
Proof. repeat split. Qed.

(** Homogeneous Neumann coefficients of each rank, given explicitly. *)

Lemma gradient_scalar_null_bc
      g m fvq drv compute_count r_grad_alloc var_name gradient_type halo_type
      inc check n_r_sweeps hyd_p_flag w_stride verbosity clip_mode epsilon
      clip_coeff f_ext var c_weight cpl st env grad :
  _gradient_scalar g m fvq drv compute_count r_grad_alloc var_name
    gradient_type halo_type inc check n_r_sweeps hyd_p_flag w_stride verbosity
    clip_mode epsilon clip_coeff f_ext None None var c_weight cpl st env grad
  = _gradient_scalar g m fvq drv compute_count r_grad_alloc var_name
      gradient_type halo_type inc check n_r_sweeps hyd_p_flag w_stride
      verbosity clip_mode epsilon clip_coeff f_ext
      (Some (fun _ => 0)) (Some (fun _ => 1)) var c_weight cpl st env grad.
Proof. reflexivity. Qed.

Lemma gradient_vector_null_bc
      g m fvq drv r_gradv_alloc var_name gradient_type halo_type inc
      n_r_sweeps verbosity clip_mode epsilon clip_coeff var c_weight cpl
      env grad :
  _gradient_vector g m fvq drv r_gradv_alloc var_name gradient_type halo_type
    inc n_r_sweeps verbosity clip_mode epsilon clip_coeff None None
    var c_weight cpl env grad
  = _gradient_vector g m fvq drv r_gradv_alloc var_name gradient_type
      halo_type inc n_r_sweeps verbosity clip_mode epsilon clip_coeff
      (Some (fun _ => zero3)) (Some (fun _ => identity_33))
      var c_weight cpl env grad.
Proof. reflexivity. Qed.

Lemma gradient_tensor_null_bc
      g m fvq drv var_name gradient_type halo_type inc n_r_sweeps verbosity
      clip_mode epsilon clip_coeff var env grad :
  _gradient_tensor g m fvq drv var_name gradient_type halo_type inc
    n_r_sweeps verbosity clip_mode epsilon clip_coeff None None var env grad
  = _gradient_tensor g m fvq drv var_name gradient_type halo_type inc
      n_r_sweeps verbosity clip_mode epsilon clip_coeff
      (Some (fun _ => zero6)) (Some (fun _ => identity_66)) var env grad.
Proof. reflexivity. Qed.

Lemma lsq_stage_bc_ext
      g m fvq drv var_name halo_type inc recompute_cocg w_stride verbosity
      clip_mode clip_coeff f_ext coefap coefap' coefbp coefbp' var c_weight
      cpl env r_grad :
  (forall f_id, In f_id (b_face_order m) -> coefap f_id = coefap' f_id) ->
  (forall f_id, In f_id (b_face_order m) -> coefbp f_id = coefbp' f_id) ->
  lsq_stage g m fvq drv var_name halo_type inc recompute_cocg 0 w_stride
    verbosity clip_mode clip_coeff f_ext coefap coefbp var c_weight cpl env
    r_grad
  = lsq_stage g m fvq drv var_name halo_type inc recompute_cocg 0 w_stride
      verbosity clip_mode clip_coeff f_ext coefap' coefbp' var c_weight cpl
      env r_grad.
Proof.
  intros Ha Hb. unfold lsq_stage.
  destruct (w_stride =? 6)%Z; destruct c_weight as [cw|]; cbn [negb Z.eqb];
    try (rewrite (ani_bc_ext m fvq cpl coefap coefap' coefbp coefbp' Ha Hb);
         reflexivity);
    rewrite (lsq_bc_ext g m fvq cpl coefap coefap' coefbp coefbp' Ha Hb);
    reflexivity.
Qed.

(** Coefficients that are homogeneous Neumann on the boundary faces give
    what the defaults give, whatever they hold elsewhere. *)

Lemma gradient_scalar_neumann
      g m fvq drv compute_count r_grad_alloc var_name gradient_type halo_type
      inc check n_r_sweeps hyd_p_flag w_stride verbosity clip_mode epsilon
      clip_coeff f_ext bc_coeff_a bc_coeff_b var c_weight cpl st env grad :
  neumann_a m bc_coeff_a -> neumann_b m bc_coeff_b ->
  hyd_p_flag = 0%Z \/ gradient_type = CS_GRADIENT_GREEN_ITER ->
  _gradient_scalar g m fvq drv compute_count r_grad_alloc var_name
    gradient_type halo_type inc check n_r_sweeps hyd_p_flag w_stride verbosity
    clip_mode epsilon clip_coeff f_ext None None var c_weight cpl st env grad
  = _gradient_scalar g m fvq drv compute_count r_grad_alloc var_name
      gradient_type halo_type inc check n_r_sweeps hyd_p_flag w_stride
      verbosity clip_mode epsilon clip_coeff f_ext bc_coeff_a bc_coeff_b
      var c_weight cpl st env grad.
Proof.
  intros Hna Hnb Hhyd. unfold _gradient_scalar. cbv zeta.
  set (coefap := match bc_coeff_a with Some a => a | None => fun _ => 0 end).
  set (coefbp := match bc_coeff_b with Some b => b | None => fun _ => 1 end).
  assert (Ha : forall f_id, In f_id (b_face_order m) ->
                            (fun _ : nat => 0) f_id = coefap f_id).
  { intros f_id Hf. unfold coefap. destruct bc_coeff_a as [a|]; [|reflexivity].
    symmetry. exact (Hna f_id Hf). }
  assert (Hb : forall f_id, In f_id (b_face_order m) ->
                            (fun _ : nat => 1) f_id = coefbp f_id).
  { intros f_id Hf. unfold coefbp. destruct bc_coeff_b as [b|]; [|reflexivity].
    symmetry. exact (Hnb f_id Hf). }
  clearbody coefap coefbp.
  destruct gradient_type.
  - rewrite (initialize_bc_ext g m fvq cpl _ coefap _ coefbp Ha Hb).
    rewrite (iterative_bc_ext g m fvq cpl _ coefap _ coefbp Ha Hb).
    reflexivity.
  - destruct Hhyd as [->|Hh]; [|discriminate Hh].
    rewrite (lsq_stage_bc_ext g m fvq drv var_name halo_type inc _ w_stride
               verbosity clip_mode clip_coeff f_ext _ coefap _ coefbp var
               c_weight cpl env grad Ha Hb).
    reflexivity.
  - destruct Hhyd as [->|Hh]; [|discriminate Hh].
    rewrite (lsq_stage_bc_ext g m fvq drv var_name halo_type inc _ w_stride
               verbosity clip_mode clip_coeff f_ext _ coefap _ coefbp var
               c_weight cpl env r_grad_alloc Ha Hb).
    destruct (lsq_stage _ _ _ _ _ _ _ _ _ _ _ _ _ _ _ _ _ _ _ _ _) as [rg en].
    rewrite (reconstruct_bc_ext g m fvq cpl _ coefap _ coefbp Ha Hb).
    reflexivity.
  - reflexivity.
Qed.

(** The embedded drivers of the vector gradient read the boundary
    coefficients at the boundary faces only. *)

Lemma vector_drivers_bc_ext
      (x : VectorGradient.cs_vector_externals_t) (g : cs_glob_t)
      (m : cs_mesh_t) (fvq : cs_mesh_quantities_t)
      (cpl : option cs_internal_coupling_t) (halo_type : cs_halo_type_t)
      (inc : Z) (coefav coefav' : array cs_real_3_t)
      (coefbv coefbv' : array cs_real_33_t) (pvar : array cs_real_3_t)
      (c_weight : option (array R)) (r_grad : array cs_real_33_t) :
  (forall f_id, In f_id (b_face_order m) -> coefav f_id = coefav' f_id) ->
  (forall f_id, In f_id (b_face_order m) -> coefbv f_id = coefbv' f_id) ->
  VectorGradient._initialize_vector_gradient x g m fvq cpl halo_type inc
    coefav coefbv pvar c_weight
  = VectorGradient._initialize_vector_gradient x g m fvq cpl halo_type inc
      coefav' coefbv' pvar c_weight
  /\ VectorGradient._reconstruct_vector_gradient x g m fvq cpl halo_type inc
       coefav coefbv pvar c_weight r_grad
     = VectorGradient._reconstruct_vector_gradient x g m fvq cpl halo_type
         inc coefav' coefbv' pvar c_weight r_grad.
Proof.
  intros Ha Hb. split.
  - unfold VectorGradient._initialize_vector_gradient. cbv zeta.
    rewrite (fold_left_ext_in
               (VectorGradient.init_b_face_v m fvq cpl inc coefav coefbv pvar)
               (VectorGradient.init_b_face_v m fvq cpl inc coefav' coefbv'
                                             pvar)); [reflexivity|].
    intros a f_id Hf. unfold VectorGradient.init_b_face_v.
    rewrite (Ha f_id Hf), (Hb f_id Hf). reflexivity.
  - unfold VectorGradient._reconstruct_vector_gradient. cbv zeta.
    rewrite (fold_left_ext_in
               (VectorGradient.rec_b_face_v m fvq cpl inc coefav coefbv pvar
                                            r_grad)
               (VectorGradient.rec_b_face_v m fvq cpl inc coefav' coefbv'
                                            pvar r_grad)); [reflexivity|].
    intros a f_id Hf. unfold VectorGradient.rec_b_face_v.
    rewrite (Ha f_id Hf), (Hb f_id Hf). reflexivity.
Qed.

(** C5 (amended): at the entry points [cs_gradient_scalar] and
    [cs_gradient_scalar_synced_input], a call given NULL for the boundary
    coefficient arrays returns the gradient, and leaves the state, that it
    returns with explicit coefficients that are homogeneous Neumann on
    every boundary face ([a] zero, [b] one), whatever they hold elsewhere
    (for the least-squares schemes without the hydrostatic treatment,
    whose driver is not embedded); and at the four entry points
    [cs_gradient_scalar], [cs_gradient_scalar_synced_input],
    [cs_gradient_vector] and [cs_gradient_tensor], NULL gives what the
    arrays of zeros and of identities of the rank of the field (1, the 3x3
    identity, the 6x6 identity) give; the two drivers of the vector
    gradient that are embedded, the initialisation and the reconstruction,
    return with these default arrays what they return with arrays that
    are zero and the identity on every boundary face.
    [cs_gradient_scalar_cell] is not among them. *)

(** ** Completion of a gradient computation *)

Lemma lsq_stage_agree
      g m fvq drv var_name halo_type inc recompute_cocg hyd_p_flag w_stride
      verbosity clip_mode clip_coeff f_ext coefap coefbp var c_weight cpl env
      r_grad r_grad' :
  mesh_in_range m -> halo_from_owned m ->
  hyd_p_flag = 0%Z \/ hyd_p_fills m drv ->
  agree_on (n_cells_with_ghosts m)
    (fst (lsq_stage g m fvq drv var_name halo_type inc recompute_cocg
            hyd_p_flag w_stride verbosity clip_mode clip_coeff f_ext coefap
            coefbp var c_weight cpl env r_grad))
    (fst (lsq_stage g m fvq drv var_name halo_type inc recompute_cocg
            hyd_p_flag w_stride verbosity clip_mode clip_coeff f_ext coefap
            coefbp var c_weight cpl env r_grad')).
Proof.
  intros Hmesh Hhalo Hhyd. unfold lsq_stage.
  match goal with
  | |- agree_on _ (fst (let '(_, _) := ?X in _)) (fst (let '(_, _) := ?X' in _)) =>
      assert (HX : agree_on (n_cells_with_ghosts m) (fst X) (fst X'));
      [|destruct X as [rg st]; destruct X' as [rg' st']]
  end.
  { assert (Hplain :
              agree_on (n_cells_with_ghosts m)
                (fst (if negb (hyd_p_flag =? 0)%Z
                      then _lsq_scalar_gradient_hyd_p drv (hyd_p_instance g) m
                             fvq halo_type recompute_cocg (IZR inc) f_ext
                             coefap coefbp var c_weight (env_store env) r_grad
                      else _lsq_scalar_gradient g m fvq cpl halo_type
                             recompute_cocg (IZR inc) coefap coefbp var
                             c_weight (env_store env) r_grad))
                (fst (if negb (hyd_p_flag =? 0)%Z
                      then _lsq_scalar_gradient_hyd_p drv (hyd_p_instance g) m
                             fvq halo_type recompute_cocg (IZR inc) f_ext
                             coefap coefbp var c_weight (env_store env) r_grad'
                      else _lsq_scalar_gradient g m fvq cpl halo_type
                             recompute_cocg (IZR inc) coefap coefbp var
                             c_weight (env_store env) r_grad'))).
    { destruct (Z.eqb_spec hyd_p_flag 0) as [E|E]; cbn [negb].
      - now apply lsq_agree.
      - destruct Hhyd as [Hh|Hh]; [contradiction|]. apply Hh. }
    destruct (w_stride =? 6)%Z; destruct c_weight as [cw|];
      try (cbn [fst]; now apply ani_agree); exact Hplain. }
  cbn [fst] in HX.
  pose proof (clipping_agree g m fvq Hmesh Hhalo halo_type clip_mode verbosity
                clip_coeff var_name var rg rg' (env_log env) (env_log env) HX)
    as Hc.
  destruct (_scalar_gradient_clipping g m fvq halo_type clip_mode verbosity
              clip_coeff var_name var rg (env_log env)) as [r l].
  destruct (_scalar_gradient_clipping g m fvq halo_type clip_mode verbosity
              clip_coeff var_name var rg' (env_log env)) as [r' l'].
  exact Hc.
Qed.

(** For the three schemes of the dispatch, the owned entries of the output
    are determined by the inputs: they do not depend on what the output
    array and the work array held before. *)

Lemma gradient_scalar_populated
      g m fvq drv compute_count r_grad_alloc r_grad_alloc' var_name
      gradient_type halo_type inc check n_r_sweeps hyd_p_flag w_stride
      verbosity clip_mode epsilon clip_coeff f_ext bc_coeff_a bc_coeff_b var
      c_weight cpl st env grad grad' :
  mesh_in_range m -> halo_from_owned m -> coupling_reads_local m cpl ->
  regularisation_from_owned g m ->
  gradient_type <> CS_GRADIENT_GREEN_VTX ->
  hyd_p_flag = 0%Z \/ gradient_type = CS_GRADIENT_GREEN_ITER
  \/ hyd_p_fills m drv ->
  agree_on (n_cells m)
    (res_grad (_gradient_scalar g m fvq drv compute_count r_grad_alloc
                 var_name gradient_type halo_type inc check n_r_sweeps
                 hyd_p_flag w_stride verbosity clip_mode epsilon clip_coeff
                 f_ext bc_coeff_a bc_coeff_b var c_weight cpl st env grad))
    (res_grad (_gradient_scalar g m fvq drv compute_count r_grad_alloc'
                 var_name gradient_type halo_type inc check n_r_sweeps
                 hyd_p_flag w_stride verbosity clip_mode epsilon clip_coeff
                 f_ext bc_coeff_a bc_coeff_b var c_weight cpl st env grad')).
Proof.
  intros Hmesh Hhalo Hcpl Hreg Hty Hhyd. unfold _gradient_scalar. cbv zeta.
  set (coefap := match bc_coeff_a with Some a => a | None => fun _ => 0 end).
  set (coefbp := match bc_coeff_b with Some b => b | None => fun _ => 1 end).
  clearbody coefap coefbp.
  match goal with
  | |- agree_on _ (res_grad (let '(_, _) := ?X in _))
                  (res_grad (let '(_, _) := ?X' in _)) =>
      assert (HX : agree_on (n_cells m) (fst X) (fst X'));
      [|destruct X as [gr en]; destruct X' as [gr' en']]
  end.
  { destruct gradient_type; [| | |contradiction].
    - apply agree_on_refl.
    - apply agree_on_le with (n_cells_with_ghosts m); [|exact (proj1 Hmesh)].
      apply lsq_stage_agree; [exact Hmesh|exact Hhalo|].
      destruct Hhyd as [Hh|[Hh|Hh]];
        [left; exact Hh|discriminate Hh|right; exact Hh].
    - assert (Hs := lsq_stage_agree g m fvq drv var_name halo_type inc
                      (recompute_cocg_flag st check var_name inc compute_count)
                      hyd_p_flag w_stride verbosity clip_mode clip_coeff f_ext
                      coefap coefbp var c_weight cpl env r_grad_alloc
                      r_grad_alloc' Hmesh Hhalo).
      destruct (lsq_stage g m fvq drv var_name halo_type inc
                  (recompute_cocg_flag st check var_name inc compute_count)
                  hyd_p_flag w_stride verbosity clip_mode clip_coeff f_ext
                  coefap coefbp var c_weight cpl env r_grad_alloc) as [rg en].
      destruct (lsq_stage g m fvq drv var_name halo_type inc
                  (recompute_cocg_flag st check var_name inc compute_count)
                  hyd_p_flag w_stride verbosity clip_mode clip_coeff f_ext
                  coefap coefbp var c_weight cpl env r_grad_alloc')
        as [rg' en'].
      cbn [fst] in *.
      apply agree_on_le with (n_cells_with_ghosts m); [|exact (proj1 Hmesh)].
      apply reconstruct_agree_any; try assumption.
      apply Hs.
      destruct Hhyd as [Hh|[Hh|Hh]];
        [left; exact Hh|discriminate Hh|right; exact Hh]. }
  cbn [fst res_grad] in *.
  destruct (CS_BAD_CELLS_REGULARISATION g) eqn:Er; [|exact HX].
  apply Hreg; [exact Er|exact HX].
Qed.

(** A scheme outside the three of the [switch]: the scalar and the vector
    dispatch return the output array as they received it. *)

Lemma gradient_scalar_unsupported
      g m fvq drv compute_count r_grad_alloc var_name halo_type inc check
      n_r_sweeps hyd_p_flag w_stride verbosity clip_mode epsilon clip_coeff
      f_ext bc_coeff_a bc_coeff_b var c_weight cpl st env grad :
  CS_BAD_CELLS_REGULARISATION g = false ->
  res_grad (_gradient_scalar g m fvq drv compute_count r_grad_alloc var_name
              CS_GRADIENT_GREEN_VTX halo_type inc check n_r_sweeps hyd_p_flag
              w_stride verbosity clip_mode epsilon clip_coeff f_ext
              bc_coeff_a bc_coeff_b var c_weight cpl st env grad)
  = grad.
Proof. intros H. unfold _gradient_scalar. cbv zeta. now rewrite H. Qed.

Lemma gradient_vector_unsupported
      g m fvq drv r_gradv_alloc var_name halo_type inc n_r_sweeps verbosity
      clip_mode epsilon clip_coeff bc_coeff_a bc_coeff_b var c_weight cpl
      env grad :
  CS_BAD_CELLS_REGULARISATION g = false ->
  _gradient_vector g m fvq drv r_gradv_alloc var_name CS_GRADIENT_GREEN_VTX
    halo_type inc n_r_sweeps verbosity clip_mode epsilon clip_coeff
    bc_coeff_a bc_coeff_b var c_weight cpl env grad
  = (env, grad).
Proof. intros H. unfold _gradient_vector. cbv zeta. now rewrite H. Qed.

(** The tensor dispatch stops the process exactly for a scheme other than
    the two it handles, when assertions are compiled in. *)

Lemma gradient_tensor_aborts
      g m fvq drv var_name gradient_type halo_type inc n_r_sweeps verbosity
      clip_mode epsilon clip_coeff bc_coeff_a bc_coeff_b var env grad :
  _gradient_tensor g m fvq drv var_name gradient_type halo_type inc
    n_r_sweeps verbosity clip_mode epsilon clip_coeff bc_coeff_a bc_coeff_b
    var env grad = Aborted
  <-> (gradient_type = CS_GRADIENT_GREEN_LSQ
       \/ gradient_type = CS_GRADIENT_GREEN_VTX)
      /\ NDEBUG g = false.
Proof.
  unfold _gradient_tensor. cbv zeta.
  destruct gradient_type; destruct (NDEBUG g); split; intros H;
    try discriminate H;
    try (match type of H with
         | _ /\ _ => destruct H as [[H|H] H']; discriminate
         end);
    try reflexivity;
    (split; [|reflexivity]);
    first [left; reflexivity|right; reflexivity].
Qed.


Lemma cs_gradient_tensor_aborts
      g m fvq drv var_name gradient_type halo_type inc n_r_sweeps verbosity
      clip_mode epsilon clip_coeff bc_coeff_a bc_coeff_b var gl grad :
  cs_gradient_tensor g m fvq drv var_name gradient_type halo_type inc
    n_r_sweeps verbosity clip_mode epsilon clip_coeff bc_coeff_a bc_coeff_b
    var gl grad = Aborted
  <-> gradient_type = CS_GRADIENT_GREEN_VTX /\ NDEBUG g = false.
Proof.
  unfold cs_gradient_tensor. cbv zeta.
  destruct (_find_or_add_system var_name _ (cs_glob_gradient_systems gl))
    as [id systems].
  match goal with
  | |- match ?T with Returned _ => _ | Aborted => _ end = _ <-> _ =>
      match T with
      | _gradient_tensor ?g ?m ?fvq ?drv ?vn ?ty ?ht ?inc ?n ?v ?cm ?eps ?cc
                         ?a ?b ?var ?env ?grad =>
          pose proof (gradient_tensor_aborts g m fvq drv vn ty ht inc n v cm
                        eps cc a b var env grad) as Ht
      end;
      destruct T as [[env' grad']|] eqn:ET
  end.
  - split; [discriminate|]. intros [Hv Hn].
    assert (Ha : Returned (env', grad') = Aborted :> outcome _).
    { apply Ht. subst gradient_type. split; [right; reflexivity|exact Hn]. }
    discriminate Ha.
  - split; [intros _|reflexivity].
    destruct (proj1 Ht eq_refl) as [[Hv|Hv] Hn].
    + destruct gradient_type; discriminate Hv.
    + destruct gradient_type; try discriminate Hv. split; [reflexivity|exact Hn].
Qed.

(** At the entry points: a scheme outside those of the [switch]. *)

Lemma cs_gradient_scalar_unsupported
      g m fvq drv compute_count r_grad_alloc var_name halo_type inc
      n_r_sweeps hyd_p_flag w_stride verbosity clip_mode epsilon clip_coeff
      f_ext bc_coeff_a bc_coeff_b var c_weight cpl gl grad :
  CS_BAD_CELLS_REGULARISATION g = false ->
  fst (cs_gradient_scalar g m fvq drv compute_count r_grad_alloc var_name
         CS_GRADIENT_GREEN_VTX halo_type inc n_r_sweeps hyd_p_flag w_stride
         verbosity clip_mode epsilon clip_coeff f_ext bc_coeff_a bc_coeff_b
         var c_weight cpl gl grad) = grad
  /\ fst (cs_gradient_scalar_synced_input g m fvq drv compute_count
            r_grad_alloc var_name CS_GRADIENT_GREEN_VTX halo_type inc
            n_r_sweeps hyd_p_flag w_stride verbosity clip_mode epsilon
            clip_coeff f_ext bc_coeff_a bc_coeff_b var c_weight cpl gl grad)
     = grad.
Proof.
  intros H. split.
  - unfold cs_gradient_scalar.
    destruct (_find_or_add_system var_name CS_GRADIENT_GREEN_VTX
                (cs_glob_gradient_systems gl)) as [id systems].
    destruct (halo m); cbn [fst]; now apply gradient_scalar_unsupported.
  - unfold cs_gradient_scalar_synced_input.
    destruct (_find_or_add_system var_name CS_GRADIENT_GREEN_VTX
                (cs_glob_gradient_systems gl)) as [id systems].
    cbn [fst]. now apply gradient_scalar_unsupported.
Qed.

Lemma cs_gradient_vector_unsupported
      g m fvq drv r_gradv_alloc var_name halo_type inc n_r_sweeps verbosity
      clip_mode epsilon clip_coeff bc_coeff_a bc_coeff_b var c_weight cpl
      gl gradv :
  CS_BAD_CELLS_REGULARISATION g = false ->
  fst (cs_gradient_vector g m fvq drv r_gradv_alloc var_name
         CS_GRADIENT_GREEN_VTX halo_type inc n_r_sweeps verbosity clip_mode
         epsilon clip_coeff bc_coeff_a bc_coeff_b var c_weight cpl gl gradv)
  = gradv.
Proof.
  intros H. unfold cs_gradient_vector.
  destruct (_find_or_add_system var_name CS_GRADIENT_GREEN_VTX
              (cs_glob_gradient_systems gl)) as [id systems].
  destruct (halo m) as [h|]; cbv zeta; cbn iota;
    rewrite gradient_vector_unsupported by exact H; reflexivity.
Qed.

Lemma cs_gradient_tensor_unsupported
      g m fvq drv var_name halo_type inc n_r_sweeps verbosity clip_mode
      epsilon clip_coeff bc_coeff_a bc_coeff_b var gl grad :
  NDEBUG g = true ->
  exists gl',
    cs_gradient_tensor g m fvq drv var_name CS_GRADIENT_GREEN_VTX halo_type
      inc n_r_sweeps verbosity clip_mode epsilon clip_coeff bc_coeff_a
      bc_coeff_b var gl grad
    = Returned (grad, gl').
Proof.
  intros H. unfold cs_gradient_tensor. cbv zeta.
  destruct (_find_or_add_system var_name CS_GRADIENT_GREEN_VTX
              (cs_glob_gradient_systems gl)) as [id systems].
  unfold _gradient_tensor. cbv zeta. rewrite H.
  eexists. reflexivity.
Qed.

(** The vector dispatch, its drivers being taken as they come. *)

Lemma gradient_vector_filled
      g m fvq drv r_gradv_alloc r_gradv_alloc' var_name gradient_type
      halo_type inc n_r_sweeps verbosity clip_mode epsilon clip_coeff
      bc_coeff_a bc_coeff_b var c_weight cpl env grad grad' :
  (n_cells m <= n_cells_with_ghosts m)%nat ->
  vector_drivers_fill m drv ->
  gradient_type <> CS_GRADIENT_GREEN_VTX ->
  agree_33 (n_cells m)
    (snd (_gradient_vector g m fvq drv r_gradv_alloc var_name gradient_type
            halo_type inc n_r_sweeps verbosity clip_mode epsilon clip_coeff
            bc_coeff_a bc_coeff_b var c_weight cpl env grad))
    (snd (_gradient_vector g m fvq drv r_gradv_alloc' var_name gradient_type
            halo_type inc n_r_sweeps verbosity clip_mode epsilon clip_coeff
            bc_coeff_a bc_coeff_b var c_weight cpl env grad')).
Proof.
  intros Hle (Hinit & Hit & Hlsq & Hclip & Hrec & Hreg) Hty.
  unfold _gradient_vector. cbv zeta.
  set (coefav := match bc_coeff_a with
                 | Some a => a | None => fun _ => R3 0 0 0 end).
  set (coefbv := match bc_coeff_b with
                 | Some b => b | None => fun _ => M33 1 0 0 0 1 0 0 0 1 end).
  clearbody coefav coefbv.
  match goal with
  | |- agree_33 _ (snd (let '(_, _) := ?X in _))
                  (snd (let '(_, _) := ?X' in _)) =>
      assert (HX : fst X = fst X'
                   /\ agree_33 (n_cells_with_ghosts m) (snd X) (snd X'));
      [|destruct X as [en gr]; destruct X' as [en' gr']]
  end.
  { destruct gradient_type; [| | |contradiction].
    - pose proof (Hinit fvq cpl halo_type inc coefav coefbv var c_weight
                    env grad grad') as [He Hg].
      destruct (1 <? n_r_sweeps)%Z; [|split; assumption].
      destruct (_initialize_vector_gradient drv m fvq cpl halo_type inc
                  coefav coefbv var c_weight (env, grad)) as [e1 g1].
      destruct (_initialize_vector_gradient drv m fvq cpl halo_type inc
                  coefav coefbv var c_weight (env, grad')) as [e2 g2].
      cbn [fst snd] in He, Hg. subst e2.
      apply Hit. exact Hg.
    - pose proof (Hlsq fvq cpl halo_type inc coefav coefbv var c_weight
                    env grad grad') as [He Hg].
      destruct (_lsq_vector_gradient drv m fvq cpl halo_type inc coefav
                  coefbv var c_weight (env, grad)) as [e1 g1].
      destruct (_lsq_vector_gradient drv m fvq cpl halo_type inc coefav
                  coefbv var c_weight (env, grad')) as [e2 g2].
      cbn [fst snd] in He, Hg. subst e2.
      apply Hclip. exact Hg.
    - pose proof (Hlsq fvq cpl halo_type inc coefav coefbv var c_weight
                    env r_gradv_alloc r_gradv_alloc') as [He Hg].
      destruct (_lsq_vector_gradient drv m fvq cpl halo_type inc coefav
                  coefbv var c_weight (env, r_gradv_alloc)) as [e1 g1].
      destruct (_lsq_vector_gradient drv m fvq cpl halo_type inc coefav
                  coefbv var c_weight (env, r_gradv_alloc')) as [e2 g2].
      cbn [fst snd] in He, Hg. subst e2.
      pose proof (Hclip fvq halo_type clip_mode verbosity clip_coeff
                    var_name var e1 g1 g2 Hg) as [He' Hg'].
      destruct (_vector_gradient_clipping drv m fvq halo_type clip_mode
                  verbosity clip_coeff var_name var (e1, g1)) as [e3 g3].
      destruct (_vector_gradient_clipping drv m fvq halo_type clip_mode
                  verbosity clip_coeff var_name var (e1, g2)) as [e4 g4].
      cbn [fst snd] in He', Hg'. subst e4.
      apply Hrec. exact Hg'. }
  cbn [fst snd] in HX. destruct HX as [_ HX]. cbn [snd].
  destruct (CS_BAD_CELLS_REGULARISATION g).
  - apply Hreg. exact HX.
  - intros c Hc. apply HX. lia.
Qed.

(** The tensor dispatch, likewise. *)

Lemma gradient_tensor_filled
      g m fvq drv var_name gradient_type halo_type inc n_r_sweeps verbosity
      clip_mode epsilon clip_coeff bc_coeff_a bc_coeff_b var env grad grad' :
  tensor_drivers_fill m drv ->
  gradient_type = CS_GRADIENT_GREEN_ITER \/ gradient_type = CS_GRADIENT_LSQ ->
  exists r r',
    _gradient_tensor g m fvq drv var_name gradient_type halo_type inc
      n_r_sweeps verbosity clip_mode epsilon clip_coeff bc_coeff_a bc_coeff_b
      var env grad = Returned r
    /\ _gradient_tensor g m fvq drv var_name gradient_type halo_type inc
         n_r_sweeps verbosity clip_mode epsilon clip_coeff bc_coeff_a
         bc_coeff_b var env grad' = Returned r'
    /\ fst r = fst r'
    /\ agree_63 (n_cells_with_ghosts m) (snd r) (snd r').
Proof.
  intros (Hinit & Hit & Hlsq & Hclip) Hty.
  unfold _gradient_tensor. cbv zeta.
  set (coefat := match bc_coeff_a with
                 | Some a => a | None => fun _ => zero6 end).
  set (coefbt := match bc_coeff_b with
                 | Some b => b | None => fun _ => identity_66 end).
  clearbody coefat coefbt.
  destruct Hty as [->| ->].
  - eexists. eexists. split; [reflexivity|]. split; [reflexivity|].
    pose proof (Hinit fvq halo_type inc coefat coefbt var env grad grad')
      as [He Hg].
    destruct (1 <? n_r_sweeps)%Z; [|split; assumption].
    destruct (_initialize_tensor_gradient drv m fvq halo_type inc coefat
                coefbt var (env, grad)) as [e1 g1].
    destruct (_initialize_tensor_gradient drv m fvq halo_type inc coefat
                coefbt var (env, grad')) as [e2 g2].
    cbn [fst snd] in He, Hg. subst e2.
    apply Hit. exact Hg.
  - eexists. eexists. split; [reflexivity|]. split; [reflexivity|].
    pose proof (Hlsq fvq halo_type inc coefat coefbt var None env grad grad')
      as [He Hg].
    destruct (_lsq_tensor_gradient drv m fvq halo_type inc coefat coefbt var
                None (env, grad)) as [e1 g1].
    destruct (_lsq_tensor_gradient drv m fvq halo_type inc coefat coefbt var
                None (env, grad')) as [e2 g2].
    cbn [fst snd] in He, Hg. subst e2.
    apply Hclip. exact Hg.
Qed.

(** C6 (amended): on a cache as the module leaves it (so that the
    assertion of [_compute_cell_cocg_lsq] holds), a scalar gradient call
    with one of the three schemes of the dispatch returns an output whose
    owned entries are determined by the inputs, whatever the output array
    and the work array held before the call (which is how a populated
    output is read), at both scalar entry points (with the hydrostatic
    least-squares driver, which is taken as it comes: provided that
    driver determines its output from its inputs); so do a vector call
    with one of the three schemes and a tensor call with a scheme other
    than [CS_GRADIENT_GREEN_VTX], provided their drivers do.  With
    [CS_GRADIENT_GREEN_VTX], which the [switch] of the scalar and of the
    vector dispatch does not handle, a scalar or a vector call returns
    the output array as it received it (regularisation of bad cells
    off).  [cs_gradient_tensor] computes [CS_GRADIENT_GREEN_LSQ] as
    [CS_GRADIENT_GREEN_ITER]; it stops the process exactly when the
    scheme is [CS_GRADIENT_GREEN_VTX] and assertions are compiled in, and
    with assertions compiled out it returns the output array as it
    received it. *)

Lemma no_halo_from_owned (m : cs_mesh_t) : halo m = None -> halo_from_owned m.
Proof. intros H h Hh. congruence. Qed.

Lemma no_coupling_reads_local (m : cs_mesh_t) : coupling_reads_local m None.
Proof. intros c H. discriminate H. Qed.

Lemma glob0_regularisation_from_owned (m : cs_mesh_t) :
  regularisation_from_owned Examples.glob0 m.
Proof. intros H. discriminate H. Qed.
(** ** Least-squares gradient at a single cell *)

Lemma fold_left_rel3 {A B : Type} (Rel : A -> A -> A -> Prop)
      (f1 f2 f3 : A -> B -> A) (l : list B) (s1 s2 s3 : A) :
  Rel s1 s2 s3 ->
  (forall t1 t2 t3 b, In b l -> Rel t1 t2 t3 ->
                      Rel (f1 t1 b) (f2 t2 b) (f3 t3 b)) ->
  Rel (fold_left f1 l s1) (fold_left f2 l s2) (fold_left f3 l s3).
Proof.
  revert s1 s2 s3.
  induction l as [|x l IH]; intros s1 s2 s3 H0 H; simpl; [exact H0|].
  apply IH.
  - apply H; [left; reflexivity|exact H0].
  - intros t1 t2 t3 b Hb. apply H. right. exact Hb.
Qed.

Lemma in_range (lo hi i : nat) : In i (range lo hi) <-> (lo <= i < hi)%nat.
Proof. unfold range. rewrite in_seq. lia. Qed.

Module CellGradientFacts.

Import CellGradient.

Lemma consistent_add (G : cs_real_3_t) (cocg : cs_cocg_6_t)
      (rhsv dc : cs_real_3_t) (ddc d : R) :
  consistent G (cocg, rhsv) ->
  d = dot3 G dc ->
  consistent G (cocg_add_scaled cocg dc ddc,
                add3 rhsv (scale3 (d * ddc) dc)).
Proof.
  unfold consistent. cbn [fst snd]. intros -> ->.
  unfold cocg_add_scaled, cocg_times_rhs, add3, scale3, dot3. cbn.
  f_equal; ring.
Qed.

Lemma neighbours_std (ma : cs_mesh_adjacencies_t) (c_id i : nat)
      (halo_type : cs_halo_type_t) :
  (cell_cells_idx ma c_id <= i < cell_cells_idx ma (c_id + 1)%nat)%nat ->
  In (cell_cells ma i) (neighbours ma c_id halo_type).
Proof.
  intros Hi. unfold neighbours. apply in_or_app. left.
  apply in_map. apply in_range. exact Hi.
Qed.

Lemma neighbours_ext (ma : cs_mesh_adjacencies_t) (c_id i : nat)
      (idx : array nat) :
  cell_cells_e_idx ma = Some idx ->
  (idx c_id <= i < idx (c_id + 1)%nat)%nat ->
  In (cell_cells_e ma i) (neighbours ma c_id CS_HALO_EXTENDED).
Proof.
  intros He Hi. unfold neighbours. apply in_or_app. right.
  cbn [halo_type_eqb]. rewrite He. apply in_map. apply in_range. exact Hi.
Qed.

Lemma b_faces_in (ma : cs_mesh_adjacencies_t) (c_id i : nat) :
  (cell_b_faces_idx ma c_id <= i < cell_b_faces_idx ma (c_id + 1)%nat)%nat ->
  In (cell_b_faces ma i) (b_faces ma c_id).
Proof. intros Hi. unfold b_faces. apply in_map. apply in_range. exact Hi. Qed.

(** The two turns of the adjacency loop, as a property of the neighbours
    visited. *)

Lemma adjacency_inv (P : lsq_system -> Prop) (ma : cs_mesh_adjacencies_t)
      (c_id : nat) (halo_type : cs_halo_type_t)
      (step : array nat -> lsq_system -> nat -> lsq_system)
      (body : lsq_system -> nat -> lsq_system) (st : lsq_system) :
  (forall t, body t 0%nat
             = for_loop (cell_cells_idx ma c_id)
                        (cell_cells_idx ma (c_id + 1)%nat)
                        (step (cell_cells ma)) t) ->
  (forall t, body t 1%nat
             = match cell_cells_e_idx ma with
               | Some idx => for_loop (idx c_id) (idx (c_id + 1)%nat)
                                      (step (cell_cells_e ma)) t
               | None => t
               end) ->
  (forall p t i, In (p i) (neighbours ma c_id halo_type) ->
                 P t -> P (step p t i)) ->
  P st ->
  P (for_loop 0 (if halo_type_eqb halo_type CS_HALO_EXTENDED then 2%nat else 1%nat)
              body st).
Proof.
  intros H0 H1 Hstep Hst.
  assert (Hfirst : P (body st 0%nat)).
  { rewrite H0. apply for_loop_inv; [exact Hst|].
    intros t i Hi Ht. apply Hstep; [|exact Ht].
    apply neighbours_std. exact Hi. }
  destruct halo_type; cbn [halo_type_eqb].
  - unfold for_loop, range. cbn. exact Hfirst.
  - unfold for_loop, range. cbn. rewrite H1.
    destruct (cell_cells_e_idx ma) as [idx|] eqn:He; [|exact Hfirst].
    apply for_loop_inv; [exact Hfirst|].
    intros t i Hi Ht. apply Hstep; [|exact Ht].
    apply (neighbours_ext ma c_id i idx He Hi).
Qed.

Lemma adjacency_0 (ma : cs_mesh_adjacencies_t) (fvq : cs_mesh_quantities_t)
      (c_id : nat) (var : array R) (c_weight : option (array R))
      (t : lsq_system) :
  adjacency ma fvq c_id var c_weight t 0%nat
  = adj_cells fvq c_id var c_weight (cell_cells ma)
              (cell_cells_idx ma c_id) (cell_cells_idx ma (c_id + 1)%nat) t.
Proof. reflexivity. Qed.

Lemma adjacency_1 (ma : cs_mesh_adjacencies_t) (fvq : cs_mesh_quantities_t)
      (c_id : nat) (var : array R) (c_weight : option (array R))
      (t : lsq_system) :
  adjacency ma fvq c_id var c_weight t 1%nat
  = match cell_cells_e_idx ma with
    | Some idx => adj_cells fvq c_id var c_weight (cell_cells_e ma)
                            (idx c_id) (idx (c_id + 1)%nat) t
    | None => t
    end.
Proof. reflexivity. Qed.

(** Cramer's rule on a consistent system gives [G] back. *)

Lemma cramer_consistent (G : cs_real_3_t) (cocg : cs_cocg_6_t)
      (rhsv : cs_real_3_t) :
  consistent G (cocg, rhsv) -> det_6 cocg <> 0 ->
  let a00 := a1 cocg * a2 cocg - a4 cocg * a4 cocg in
  let a01 := a4 cocg * a5 cocg - a3 cocg * a2 cocg in
  let a02 := a3 cocg * a4 cocg - a1 cocg * a5 cocg in
  let a11 := a0 cocg * a2 cocg - a5 cocg * a5 cocg in
  let a12 := a3 cocg * a5 cocg - a0 cocg * a4 cocg in
  let a22 := a0 cocg * a1 cocg - a3 cocg * a3 cocg in
  let det_inv := 1 / (a0 cocg * a00 + a3 cocg * a01 + a5 cocg * a02) in
  R3 ((a00 * cx rhsv + a01 * cy rhsv + a02 * cz rhsv) * det_inv)
     ((a01 * cx rhsv + a11 * cy rhsv + a12 * cz rhsv) * det_inv)
     ((a02 * cx rhsv + a12 * cy rhsv + a22 * cz rhsv) * det_inv)
  = G.
Proof.
  unfold consistent, det_6. cbn [fst snd]. intros -> Hdet. cbv zeta.
  destruct G as [gx gy gz]. destruct cocg as [c0 c1 c2 c3 c4 c5].
  unfold cocg_times_rhs. cbn in *.
  f_equal; field; exact Hdet.
Qed.

(** X1: in exact arithmetic (the reals stand for [cs_real_t]; a binary64
    run agrees up to rounding only), on a field that varies linearly over
    the cell, its neighbours and the boundary values handed in as known
    face values, the gradient returned is the slope of the field, provided
    the covariance matrix is regular. *)

Theorem scalar_cell_exact_on_affine
        (ma : cs_mesh_adjacencies_t) (fvq : cs_mesh_quantities_t)
        (c_id : nat) (halo_type : cs_halo_type_t) (a var : array R)
        (G : cs_real_3_t) :
  distinct_centres ma fvq c_id halo_type ->
  (forall c_id1, In c_id1 (neighbours ma c_id halo_type) ->
     var c_id1 - var c_id
     = dot3 G (sub3 (cell_cen fvq c_id1) (cell_cen fvq c_id))) ->
  (forall f_id, In f_id (b_faces ma c_id) ->
     a f_id - var c_id
     = dot3 G (sub3 (b_face_cog fvq f_id) (cell_cen fvq c_id))) ->
  det_6 (fst (cell_system ma fvq c_id halo_type (Some a) None var None)) <> 0 ->
  cs_gradient_scalar_cell ma fvq c_id halo_type (Some a) None var None = G.
Proof.
  intros _ Hvar Ha Hdet.
  assert (Hc : consistent G
                 (cell_system ma fvq c_id halo_type (Some a) None var None)).
  { unfold cell_system. cbv zeta.
    apply for_loop_inv.
    - apply (adjacency_inv (consistent G) ma c_id halo_type
               (adj_cell fvq c_id var)).
      + intros t. apply adjacency_0.
      + intros t. rewrite adjacency_1.
        destruct (cell_cells_e_idx ma); reflexivity.
      + intros p [cocg rhsv] i Hi Ht. unfold adj_cell.
        apply consistent_add; [exact Ht|]. apply Hvar. exact Hi.
      + unfold consistent, cocg_times_rhs, zero3, zero6. cbn.
        f_equal; ring.
    - intros [cocg rhsv] i Hi Ht. unfold b_face.
      apply consistent_add; [exact Ht|]. apply Ha.
      apply b_faces_in. exact Hi. }
  unfold cs_gradient_scalar_cell.
  destruct (cell_system ma fvq c_id halo_type (Some a) None var None)
    as [cocg rhsv].
  apply cramer_consistent; assumption.
Qed.

(** X2: a cell weighting that takes the same non-zero value on the cell and
    its neighbours has no effect. *)

Theorem scalar_cell_uniform_weight
        (ma : cs_mesh_adjacencies_t) (fvq : cs_mesh_quantities_t)
        (c_id : nat) (halo_type : cs_halo_type_t)
        (bc_coeff_a bc_coeff_b : option (array R)) (var w : array R) :
  w c_id <> 0 ->
  (forall c_id1, In c_id1 (neighbours ma c_id halo_type) ->
                 w c_id1 = w c_id) ->
  cs_gradient_scalar_cell ma fvq c_id halo_type bc_coeff_a bc_coeff_b var
                          (Some w)
  = cs_gradient_scalar_cell ma fvq c_id halo_type bc_coeff_a bc_coeff_b var
                            None.
Proof.
  intros Hw Hn.
  assert (Hs : cell_system ma fvq c_id halo_type bc_coeff_a bc_coeff_b var
                           (Some w)
               = cell_system ma fvq c_id halo_type bc_coeff_a bc_coeff_b var
                             None).
  { unfold cell_system. cbv zeta. f_equal.
    set (n_adj := if halo_type_eqb halo_type CS_HALO_EXTENDED
                  then 2%nat else 1%nat).
    assert (Hstep : forall p t i,
              In (p i) (neighbours ma c_id halo_type) ->
              adj_cell_weighted fvq c_id var w p t i
              = adj_cell fvq c_id var p t i).
    { intros p [cocg rhsv] i Hi. unfold adj_cell_weighted, adj_cell.
      rewrite (Hn _ Hi).
      assert (Hone : 2 * w c_id / (w c_id + w c_id) = 1) by (field; lra).
      rewrite Hone. unfold add3, scale3. cbn.
      f_equal. f_equal; ring. }
    assert (H0 : forall t,
              adjacency ma fvq c_id var (Some w) t 0%nat
              = adjacency ma fvq c_id var None t 0%nat).
    { intros t. rewrite !adjacency_0. unfold adj_cells, for_loop.
      apply fold_left_ext_in. intros s i Hi. apply Hstep.
      apply neighbours_std. apply in_range. exact Hi. }
    unfold n_adj. destruct halo_type; cbn [halo_type_eqb].
    - unfold for_loop, range. cbn [seq Nat.sub fold_left]. apply H0.
    - assert (H1 : forall t,
                adjacency ma fvq c_id var (Some w) t 1%nat
                = adjacency ma fvq c_id var None t 1%nat).
      { intros t. rewrite !adjacency_1.
        destruct (cell_cells_e_idx ma) as [idx|] eqn:He; [|reflexivity].
        unfold adj_cells, for_loop.
        apply fold_left_ext_in. intros s i Hi. apply Hstep.
        apply (neighbours_ext ma c_id i idx He). apply in_range. exact Hi. }
      unfold for_loop, range. cbn [seq Nat.sub fold_left].
      rewrite H0. apply H1. }
  unfold cs_gradient_scalar_cell. rewrite Hs. reflexivity.
Qed.

(** The system accumulated is the same for two runs whose loop bodies
    agree on the neighbours and faces visited. *)

Lemma cell_system_ext
      (ma : cs_mesh_adjacencies_t) (fvq : cs_mesh_quantities_t)
      (c_id : nat) (halo_type : cs_halo_type_t)
      (bc_coeff_a bc_coeff_a' bc_coeff_b bc_coeff_b' : option (array R))
      (var var' : array R) (c_weight : option (array R)) :
  (forall p t i, adj_cell fvq c_id var p t i = adj_cell fvq c_id var' p t i) ->
  (forall w p t i, adj_cell_weighted fvq c_id var w p t i
                   = adj_cell_weighted fvq c_id var' w p t i) ->
  (forall t i, b_face ma fvq c_id bc_coeff_a bc_coeff_b var t i
               = b_face ma fvq c_id bc_coeff_a' bc_coeff_b' var' t i) ->
  cell_system ma fvq c_id halo_type bc_coeff_a bc_coeff_b var c_weight
  = cell_system ma fvq c_id halo_type bc_coeff_a' bc_coeff_b' var' c_weight.
Proof.
  intros Hadj Hadjw Hb. unfold cell_system. cbv zeta.
  assert (Hcells : forall p s_id e_id t,
            adj_cells fvq c_id var c_weight p s_id e_id t
            = adj_cells fvq c_id var' c_weight p s_id e_id t).
  { intros p s_id e_id t. unfold adj_cells, for_loop.
    destruct c_weight as [w|]; apply fold_left_ext_in; intros; auto. }
  assert (Hadjacency : forall t adj_id,
            adjacency ma fvq c_id var c_weight t adj_id
            = adjacency ma fvq c_id var' c_weight t adj_id).
  { intros t adj_id. unfold adjacency.
    destruct (adj_id =? 0)%nat; [apply Hcells|].
    destruct (cell_cells_e_idx ma); [apply Hcells|reflexivity]. }
  unfold for_loop at 1 3.
  rewrite (fold_left_ext_in _ (b_face ma fvq c_id bc_coeff_a' bc_coeff_b' var'))
    by (intros; apply Hb).
  f_equal. unfold for_loop. apply fold_left_ext_in. intros; apply Hadjacency.
Qed.

(** X3: in exact arithmetic, adding a constant to the field, and to the
    face values when they are given as known values, does not change the
    gradient: only differences of values enter the system (in binary64 the
    differences of shifted values are rounded differently). *)

Theorem scalar_cell_shift_invariant
        (ma : cs_mesh_adjacencies_t) (fvq : cs_mesh_quantities_t)
        (c_id : nat) (halo_type : cs_halo_type_t)
        (bc_coeff_a bc_coeff_b : option (array R)) (var : array R)
        (c_weight : option (array R)) (k : R) :
  bc_coeff_a = None \/ bc_coeff_b = None ->
  cs_gradient_scalar_cell ma fvq c_id halo_type
    (option_map (fun a f_id => a f_id + k) bc_coeff_a) bc_coeff_b
    (fun c => var c + k) c_weight
  = cs_gradient_scalar_cell ma fvq c_id halo_type bc_coeff_a bc_coeff_b var
                            c_weight.
Proof.
  intros Hbc. unfold cs_gradient_scalar_cell.
  rewrite (cell_system_ext ma fvq c_id halo_type _ bc_coeff_a _ bc_coeff_b
             _ var c_weight); [reflexivity| | |].
  - intros p [cocg rhsv] i. unfold adj_cell.
    replace (var (p i) + k - (var c_id + k)) with (var (p i) - var c_id)
      by ring.
    reflexivity.
  - intros w p [cocg rhsv] i. unfold adj_cell_weighted.
    replace (var (p i) + k - (var c_id + k)) with (var (p i) - var c_id)
      by ring.
    reflexivity.
  - intros [cocg rhsv] i. unfold b_face.
    destruct Hbc as [->| ->]; [reflexivity|].
    destruct bc_coeff_a as [a|]; cbn [option_map]; [|reflexivity].
    replace (a (cell_b_faces ma i) + k - (var c_id + k))
      with (a (cell_b_faces ma i) - var c_id) by ring.
    reflexivity.
Qed.

Lemma combines_loop (al be : R) (lo hi : nat)
      (f1 f2 f3 : lsq_system -> nat -> lsq_system) (s1 s2 s3 : lsq_system) :
  combines al be s1 s2 s3 ->
  (forall t1 t2 t3 i, combines al be t1 t2 t3 ->
                      combines al be (f1 t1 i) (f2 t2 i) (f3 t3 i)) ->
  combines al be (for_loop lo hi f1 s1) (for_loop lo hi f2 s2)
           (for_loop lo hi f3 s3).
Proof.
  intros H0 H. unfold for_loop. apply fold_left_rel3; [exact H0|].
  intros t1 t2 t3 b _. apply H.
Qed.

Lemma combines_system
      (ma : cs_mesh_adjacencies_t) (fvq : cs_mesh_quantities_t)
      (c_id : nat) (halo_type : cs_halo_type_t)
      (bc1 bc2 bc3 bc_coeff_b : option (array R)) (var1 var2 : array R)
      (c_weight : option (array R)) (al be : R) :
  (forall t1 t2 t3 i, combines al be t1 t2 t3 ->
     combines al be
       (b_face ma fvq c_id bc1 bc_coeff_b var1 t1 i)
       (b_face ma fvq c_id bc2 bc_coeff_b var2 t2 i)
       (b_face ma fvq c_id bc3 bc_coeff_b
               (fun c => al * var1 c + be * var2 c) t3 i)) ->
  combines al be
    (cell_system ma fvq c_id halo_type bc1 bc_coeff_b var1 c_weight)
    (cell_system ma fvq c_id halo_type bc2 bc_coeff_b var2 c_weight)
    (cell_system ma fvq c_id halo_type bc3 bc_coeff_b
                 (fun c => al * var1 c + be * var2 c) c_weight).
Proof.
  intros Hb. unfold cell_system. cbv zeta.
  apply combines_loop; [|exact Hb].
  apply combines_loop.
  - unfold combines, zero3, zero6, add3, scale3. cbn.
    split; [reflexivity|]. split; [reflexivity|]. f_equal; ring.
  - intros t1 t2 t3 adj_id Ht. unfold adjacency.
    assert (Hcells : forall p s_id e_id,
              combines al be
                (adj_cells fvq c_id var1 c_weight p s_id e_id t1)
                (adj_cells fvq c_id var2 c_weight p s_id e_id t2)
                (adj_cells fvq c_id (fun c => al * var1 c + be * var2 c)
                           c_weight p s_id e_id t3)).
    { intros p s_id e_id. unfold adj_cells.
      destruct c_weight as [w|]; (apply combines_loop; [exact Ht|]).
      - intros [c1 r1] [c2 r2] [c3 r3] i (E1 & E2 & E3).
        cbn [fst snd] in *. subst c1 c2 r3.
        unfold adj_cell_weighted, combines, add3, scale3. cbn.
        split; [reflexivity|]. split; [reflexivity|]. f_equal; ring.
      - intros [c1 r1] [c2 r2] [c3 r3] i (E1 & E2 & E3).
        cbn [fst snd] in *. subst c1 c2 r3.
        unfold adj_cell, combines, add3, scale3. cbn.
        split; [reflexivity|]. split; [reflexivity|]. f_equal; ring. }
    destruct (adj_id =? 0)%nat; [apply Hcells|].
    destruct (cell_cells_e_idx ma); [apply Hcells|exact Ht].
Qed.

Lemma combines_solve (al be : R) (s1 s2 s3 : lsq_system) :
  combines al be s1 s2 s3 ->
  forall solve : lsq_system -> cs_real_3_t,
    (forall st,
        solve st
        = let '(cocg, rhsv) := st in
          let a00 := a1 cocg * a2 cocg - a4 cocg * a4 cocg in
          let a01 := a4 cocg * a5 cocg - a3 cocg * a2 cocg in
          let a02 := a3 cocg * a4 cocg - a1 cocg * a5 cocg in
          let a11 := a0 cocg * a2 cocg - a5 cocg * a5 cocg in
          let a12 := a3 cocg * a5 cocg - a0 cocg * a4 cocg in
          let a22 := a0 cocg * a1 cocg - a3 cocg * a3 cocg in
          let det_inv := 1 / (a0 cocg * a00 + a3 cocg * a01 + a5 cocg * a02) in
          R3 ((a00 * cx rhsv + a01 * cy rhsv + a02 * cz rhsv) * det_inv)
             ((a01 * cx rhsv + a11 * cy rhsv + a12 * cz rhsv) * det_inv)
             ((a02 * cx rhsv + a12 * cy rhsv + a22 * cz rhsv) * det_inv)) ->
    solve s3 = add3 (scale3 al (solve s1)) (scale3 be (solve s2)).
Proof.
  destruct s1 as [c1 r1], s2 as [c2 r2], s3 as [c3 r3].
  intros (E1 & E2 & E3) solve Hs. cbn [fst snd] in *. subst c1 c2 r3.
  rewrite !Hs. cbv zeta.
  set (det_inv := 1 / _).
  unfold add3, scale3. cbn. f_equal; ring.
Qed.

(** X4: superposition, in exact arithmetic: the gradient is linear in the
    field together with the boundary term [a], for any boundary term [b]
    and weighting; without boundary coefficients it is linear in the
    field. *)

Theorem scalar_cell_linear
        (ma : cs_mesh_adjacencies_t) (fvq : cs_mesh_quantities_t)
        (c_id : nat) (halo_type : cs_halo_type_t)
        (bc_coeff_b c_weight : option (array R))
        (var1 var2 a1 a2 : array R) (al be : R) :
  cs_gradient_scalar_cell ma fvq c_id halo_type
    (Some (fun f_id => al * a1 f_id + be * a2 f_id)) bc_coeff_b
    (fun c => al * var1 c + be * var2 c) c_weight
  = add3 (scale3 al (cs_gradient_scalar_cell ma fvq c_id halo_type
                       (Some a1) bc_coeff_b var1 c_weight))
         (scale3 be (cs_gradient_scalar_cell ma fvq c_id halo_type
                       (Some a2) bc_coeff_b var2 c_weight))
  /\ cs_gradient_scalar_cell ma fvq c_id halo_type None bc_coeff_b
       (fun c => al * var1 c + be * var2 c) c_weight
     = add3 (scale3 al (cs_gradient_scalar_cell ma fvq c_id halo_type
                          None bc_coeff_b var1 c_weight))
            (scale3 be (cs_gradient_scalar_cell ma fvq c_id halo_type
                          None bc_coeff_b var2 c_weight)).
Proof.
  split.
  - apply (combines_solve al be _ _ _
             (combines_system ma fvq c_id halo_type (Some a1) (Some a2)
                (Some (fun f_id => al * a1 f_id + be * a2 f_id)) bc_coeff_b
                var1 var2 c_weight al be
                ltac:(intros [c1 r1] [c2 r2] [c3 r3] i (E1 & E2 & E3);
                      cbn [fst snd] in *; subst c1 c2 r3;
                      unfold b_face, combines, add3, scale3;
                      destruct bc_coeff_b; cbn;
                      (split; [reflexivity|]); (split; [reflexivity|]);
                      f_equal; ring))
             (fun st => let '(cocg, rhsv) := st in _)).
    intros [cocg rhsv]. reflexivity.
  - apply (combines_solve al be _ _ _
             (combines_system ma fvq c_id halo_type None None None bc_coeff_b
                var1 var2 c_weight al be
                ltac:(intros [c1 r1] [c2 r2] [c3 r3] i (E1 & E2 & E3);
                      cbn [fst snd] in *; subst c1 c2 r3;
                      unfold b_face, combines, add3, scale3; cbn;
                      (split; [reflexivity|]); (split; [reflexivity|]);
                      f_equal; ring))
             (fun st => let '(cocg, rhsv) := st in _)).
    intros [cocg rhsv]. reflexivity.
Qed.

(** *** The star-shaped neighbourhood of [Cases] *)

Lemma star_system :
  cell_system Cases.ma_star Cases.fvq_star 0 CS_HALO_STANDARD
              (Some Cases.face_value) None Cases.var_affine None
  = (Cocg 2 1 1 0 0 0, R3 2 2 3).
Proof.
  unfold cell_system, for_loop, range. cbn [halo_type_eqb Nat.sub seq fold_left].
  unfold adjacency. cbn [Nat.eqb]. unfold adj_cells, for_loop, range.
  cbn.
  unfold cocg_add_scaled, add3, scale3, sub3, zero6, zero3, Cases.face_value.
  cbn. f_equal; f_equal; field; lra.
Qed.

Lemma star_neighbours :
  neighbours Cases.ma_star 0 CS_HALO_STANDARD = [1; 2; 3]%nat.
Proof. reflexivity. Qed.

Lemma star_b_faces : b_faces Cases.ma_star 0 = [0%nat].
Proof. reflexivity. Qed.

Lemma star_distinct_centres :
  distinct_centres Cases.ma_star Cases.fvq_star 0 CS_HALO_STANDARD.
Proof.
  split.
  - intros c_id1. rewrite star_neighbours. intros [<-|[<-|[<-|[]]]];
      unfold dot3, sub3; cbn; lra.
  - intros f_id. rewrite star_b_faces. intros [<-|[]].
    unfold dot3, sub3; cbn; lra.
Qed.

Lemma scalar_cell_exact_on_affine_witness :
  distinct_centres Cases.ma_star Cases.fvq_star 0 CS_HALO_STANDARD
  /\ cs_gradient_scalar_cell Cases.ma_star Cases.fvq_star 0 CS_HALO_STANDARD
       (Some Cases.face_value) None Cases.var_affine None
     = R3 1 2 3.
Proof.
  split; [exact star_distinct_centres|].
  apply scalar_cell_exact_on_affine.
  - exact star_distinct_centres.
  - intros c_id1. rewrite star_neighbours. intros [<-|[<-|[<-|[]]]];
      unfold dot3, sub3; cbn; lra.
  - intros f_id. rewrite star_b_faces. intros [<-|[]].
    unfold dot3, sub3, Cases.face_value; cbn; lra.
  - rewrite star_system. unfold det_6. cbn. lra.
Defined.

Lemma scalar_cell_uniform_weight_witness :
  cs_gradient_scalar_cell Cases.ma_star Cases.fvq_star 0 CS_HALO_STANDARD
    (Some Cases.face_value) None Cases.var_affine (Some (fun _ => 4))
  = cs_gradient_scalar_cell Cases.ma_star Cases.fvq_star 0 CS_HALO_STANDARD
      (Some Cases.face_value) None Cases.var_affine None.
Proof.
  apply scalar_cell_uniform_weight.
  - lra.
  - intros; reflexivity.
Defined.

Lemma scalar_cell_shift_invariant_witness :
  cs_gradient_scalar_cell Cases.ma_star Cases.fvq_star 0 CS_HALO_STANDARD
    (option_map (fun a f_id => a f_id + 10) (Some Cases.face_value)) None
    (fun c => Cases.var_affine c + 10) None
  = cs_gradient_scalar_cell Cases.ma_star Cases.fvq_star 0 CS_HALO_STANDARD
      (Some Cases.face_value) None Cases.var_affine None.
Proof.
  apply scalar_cell_shift_invariant. right. reflexivity.
Defined.

End CellGradientFacts.

(** *** Boundary coefficients left out at a single cell *)

Lemma skew_system_null :
  CellGradient.cell_system Cases.ma_star Cases.fvq_skew 0 CS_HALO_STANDARD
    None None Cases.var_affine None
  = (Cocg (3 / 2) (3 / 2) 1 (- / 2) 0 0, R3 1 2 3).
Proof.
  unfold CellGradient.cell_system, for_loop, range.
  cbn [halo_type_eqb Nat.sub seq fold_left].
  unfold CellGradient.adjacency. cbn [Nat.eqb].
  unfold CellGradient.adj_cells, for_loop, range.
  cbn.
  unfold cocg_add_scaled, add3, scale3, sub3, zero6, zero3.
  cbn. f_equal; f_equal; field; lra.
Qed.

Lemma skew_system_neumann :
  CellGradient.cell_system Cases.ma_star Cases.fvq_skew 0 CS_HALO_STANDARD
    (Some (fun _ => 0)) (Some (fun _ => 1)) Cases.var_affine None
  = (Cocg 2 1 1 0 0 0, R3 1 2 3).
Proof.
  unfold CellGradient.cell_system, for_loop, range.
  cbn [halo_type_eqb Nat.sub seq fold_left].
  unfold CellGradient.adjacency. cbn [Nat.eqb].
  unfold CellGradient.adj_cells, for_loop, range.
  cbn.
  unfold cocg_add_scaled, cocg_add_outer, add3, scale3, sub3, zero6, zero3.
  cbn. f_equal; f_equal; field; lra.
Qed.

(** C5, at a single cell: [cs_gradient_scalar_cell] given NULL for both
    arrays builds the boundary term of its matrix from the vector that
    joins the cell centre to the face centre, and given the homogeneous
    Neumann coefficients 0 and 1 it builds it from the face normal; on the
    skewed boundary face of [Cases.fvq_skew] the two gradients of the
    field x + 2 y + 3 z differ, both systems being regular. *)

(** ** The table of diagnostics entries *)

(** *** Order of C strings *)


Lemma strcmp_lt_cons (c1 c2 : ascii) (r1 r2 : string) :
  (strcmp (String c1 r1) (String c2 r2) < 0)%Z
  <-> (nat_of_ascii c1 < nat_of_ascii c2)%nat
      \/ (c1 = c2 /\ (strcmp r1 r2 < 0)%Z).
Proof.
  cbn [strcmp]. unfold char_cmp.
  destruct (Nat.ltb_spec (nat_of_ascii c1) (nat_of_ascii c2)).
  - cbn. split; [intros _; left; assumption|lia].
  - destruct (Nat.ltb_spec (nat_of_ascii c2) (nat_of_ascii c1)).
    + cbn. split; [lia|]. intros [?|[-> _]]; lia.
    + cbn. assert (c1 = c2).
      { rewrite <- (ascii_nat_embedding c1), <- (ascii_nat_embedding c2).
        f_equal. lia. }
      split; [intros; right; auto|]. intros [?|[_ ?]]; [lia|assumption].
Qed.

Lemma strcmp_gt_cons (c1 c2 : ascii) (r1 r2 : string) :
  (0 < strcmp (String c1 r1) (String c2 r2))%Z
  <-> (nat_of_ascii c2 < nat_of_ascii c1)%nat
      \/ (c1 = c2 /\ (0 < strcmp r1 r2)%Z).
Proof.
  cbn [strcmp]. unfold char_cmp.
  destruct (Nat.ltb_spec (nat_of_ascii c1) (nat_of_ascii c2)).
  - cbn. split; [lia|]. intros [?|[-> _]]; lia.
  - destruct (Nat.ltb_spec (nat_of_ascii c2) (nat_of_ascii c1)).
    + cbn. split; [intros _; left; assumption|lia].
    + cbn. assert (c1 = c2).
      { rewrite <- (ascii_nat_embedding c1), <- (ascii_nat_embedding c2).
        f_equal. lia. }
      split; [intros; right; auto|]. intros [?|[_ ?]]; [lia|assumption].
Qed.

Lemma strcmp_refl (s : string) : strcmp s s = 0%Z.
Proof.
  induction s as [|c r IH]; [reflexivity|].
  cbn [strcmp]. unfold char_cmp. rewrite Nat.ltb_irrefl. exact IH.
Qed.

Lemma strcmp_eq (s1 s2 : string) : strcmp s1 s2 = 0%Z <-> s1 = s2.
Proof.
  split; [|intros ->; apply strcmp_refl].
  revert s2. induction s1 as [|c1 r1 IH]; intros [|c2 r2]; cbn [strcmp];
    try discriminate; [reflexivity|].
  destruct (Z.eqb_spec (char_cmp c1 c2) 0) as [Hc|Hc]; [|contradiction].
  apply char_cmp_eq in Hc. subst c2. intros H. f_equal. apply IH. exact H.
Qed.

Lemma strcmp_lt_gt (s1 s2 : string) :
  (strcmp s1 s2 < 0)%Z <-> (0 < strcmp s2 s1)%Z.
Proof.
  revert s2. induction s1 as [|c1 r1 IH]; intros [|c2 r2].
  - cbn. lia.
  - cbn. lia.
  - cbn. lia.
  - rewrite strcmp_lt_cons, strcmp_gt_cons, IH.
    split; (intros [?|[-> ?]]; [left; assumption|right; split; [reflexivity|assumption]]).
Qed.

Lemma strcmp_trans (s1 s2 s3 : string) :
  (strcmp s1 s2 < 0)%Z -> (strcmp s2 s3 < 0)%Z -> (strcmp s1 s3 < 0)%Z.
Proof.
  revert s2 s3. induction s1 as [|c1 r1 IH]; intros [|c2 r2] [|c3 r3];
    cbn [strcmp]; try lia.
  change ((strcmp (String c1 r1) (String c2 r2) < 0)%Z ->
          (strcmp (String c2 r2) (String c3 r3) < 0)%Z ->
          (strcmp (String c1 r1) (String c3 r3) < 0)%Z).
  rewrite !strcmp_lt_cons.
  intros [H1|[-> H1]] [H2|[-> H2]].
  - left. lia.
  - left. exact H1.
  - left. exact H2.
  - right. split; [reflexivity|]. apply (IH r2); assumption.
Qed.

(** key order *)

Lemma system_cmp_eq (e : cs_gradient_info_t) (name : string)
      (type : cs_gradient_type_t) :
  system_cmp e name type = 0%Z <-> info_name e = name /\ info_type e = type.
Proof.
  unfold system_cmp. cbv zeta.
  destruct (Z.eqb_spec (strcmp (info_name e) name) 0) as [Hc|Hc].
  - apply strcmp_eq in Hc. split.
    + intros H. split; [exact Hc|].
      destruct (info_type e), type; cbn in H; try lia; reflexivity.
    + intros [_ ->]. lia.
  - split; [intros H; contradiction|].
    intros [H _]. apply strcmp_eq in H. contradiction.
Qed.

Lemma system_cmp_lt (e : cs_gradient_info_t) (name : string)
      (type : cs_gradient_type_t) :
  (system_cmp e name type < 0)%Z
  <-> (strcmp (info_name e) name < 0)%Z
      \/ (info_name e = name
          /\ (gradient_type_code (info_type e) < gradient_type_code type)%Z).
Proof.
  unfold system_cmp. cbv zeta.
  destruct (Z.eqb_spec (strcmp (info_name e) name) 0) as [Hc|Hc].
  - pose proof Hc as Hn. apply strcmp_eq in Hn. split.
    + intros H. right. split; [exact Hn|lia].
    + intros [H|[_ H]]; lia.
  - split.
    + intros H. left. exact H.
    + intros [H|[H _]]; [exact H|]. apply strcmp_eq in H. contradiction.
Qed.

Lemma system_cmp_gt (e : cs_gradient_info_t) (name : string)
      (type : cs_gradient_type_t) :
  (0 < system_cmp e name type)%Z
  <-> (0 < strcmp (info_name e) name)%Z
      \/ (info_name e = name
          /\ (gradient_type_code type < gradient_type_code (info_type e))%Z).
Proof.
  unfold system_cmp. cbv zeta.
  destruct (Z.eqb_spec (strcmp (info_name e) name) 0) as [Hc|Hc].
  - pose proof Hc as Hn. apply strcmp_eq in Hn. split.
    + intros H. right. split; [exact Hn|lia].
    + intros [H|[_ H]]; lia.
  - split.
    + intros H. left. exact H.
    + intros [H|[H _]]; [exact H|]. apply strcmp_eq in H. contradiction.
Qed.

(** [e1] before [e2] and [e2] before the key: [e1] before the key. *)

Lemma system_cmp_trans (e1 e2 : cs_gradient_info_t) (name : string)
      (type : cs_gradient_type_t) :
  (system_cmp e1 (info_name e2) (info_type e2) < 0)%Z ->
  (system_cmp e2 name type <= 0)%Z ->
  (system_cmp e1 name type < 0)%Z.
Proof.
  intros H1 H2. apply system_cmp_lt in H1.
  destruct (Z.eq_dec (system_cmp e2 name type) 0) as [E|E].
  - apply system_cmp_eq in E. destruct E as [<- <-].
    apply system_cmp_lt. exact H1.
  - assert (H2' : (system_cmp e2 name type < 0)%Z) by lia.
    apply system_cmp_lt in H2'. apply system_cmp_lt.
    destruct H1 as [H1|[H1 H1']], H2' as [H2'|[H2' H2'']].
    + left. apply (strcmp_trans _ (info_name e2)); assumption.
    + left. rewrite <- H2'. exact H1.
    + left. rewrite H1. exact H2'.
    + right. split; [congruence|lia].
Qed.

Lemma system_cmp_trans_gt (e1 e2 : cs_gradient_info_t) (name : string)
      (type : cs_gradient_type_t) :
  (system_cmp e1 (info_name e2) (info_type e2) < 0)%Z ->
  (0 <= system_cmp e1 name type)%Z ->
  (0 < system_cmp e2 name type)%Z.
Proof.
  intros H1 H2. apply system_cmp_lt in H1.
  destruct (Z.eq_dec (system_cmp e1 name type) 0) as [E|E].
  - apply system_cmp_eq in E. destruct E as [<- <-].
    apply system_cmp_gt.
    destruct H1 as [H1|[H1 H1']].
    + left. apply strcmp_lt_gt. exact H1.
    + right. split; [congruence|lia].
  - assert (H2' : (0 < system_cmp e1 name type)%Z) by lia.
    apply system_cmp_gt in H2'. apply system_cmp_gt.
    destruct H1 as [H1|[H1 H1']], H2' as [H2'|[H2' H2'']].
    + left. apply strcmp_lt_gt. apply strcmp_lt_gt in H2'.
      apply (strcmp_trans _ (info_name e1)); [exact H2'|exact H1].
    + left. rewrite <- H2'. apply strcmp_lt_gt. exact H1.
    + left. rewrite <- H1. exact H2'.
    + right. split; [congruence|lia].
Qed.

Lemma system_cmp_flip (e e' : cs_gradient_info_t) :
  (0 < system_cmp e (info_name e') (info_type e'))%Z ->
  (system_cmp e' (info_name e) (info_type e) < 0)%Z.
Proof.
  intros H. apply system_cmp_gt in H. apply system_cmp_lt.
  destruct H as [H|[H H']].
  - left. apply strcmp_lt_gt. exact H.
  - right. split; [symmetry; exact H|exact H'].
Qed.

Section BinarySearch.

Variable systems : list cs_gradient_info_t.
Variable name : string.
Variable type : cs_gradient_type_t.

Hypothesis Hsorted : systems_sorted systems.

Local Abbreviation n := (List.length systems).
Local Abbreviation d0 := (_gradient_info_create name type).
Local Abbreviation cmp := (fun j : nat => system_cmp (nth j systems d0) name type).

Lemma sorted_below (i j : nat) :
  (i < j < n)%nat -> (cmp j <= 0)%Z -> (cmp i < 0)%Z.
Proof.
  intros Hij Hj.
  apply (system_cmp_trans _ (nth j systems d0)); [|exact Hj].
  apply Hsorted. exact Hij.
Qed.

Lemma sorted_above (i j : nat) :
  (i < j < n)%nat -> (0 <= cmp i)%Z -> (0 < cmp j)%Z.
Proof.
  intros Hij Hi.
  apply (system_cmp_trans_gt (nth i systems d0)); [|exact Hi].
  apply Hsorted. exact Hij.
Qed.

Lemma find_system_loop_spec (turns : nat) :
  forall start_id end_id cmp_ret,
    (0 <= start_id)%Z -> (end_id < Z.of_nat n)%Z ->
    (start_id <= end_id + 1)%Z ->
    (end_id - start_id + 1 <= Z.of_nat turns)%Z ->
    ((end_id < start_id)%Z -> cmp_ret <> 0%Z) ->
    (forall j, (Z.of_nat j < start_id)%Z -> (cmp j < 0)%Z) ->
    (forall j, (end_id < Z.of_nat j)%Z -> (j < n)%nat -> (0 < cmp j)%Z) ->
    search_post systems name type
      (find_system_loop turns systems name type start_id end_id
         (start_id + Z.quot (end_id - start_id) 2)%Z cmp_ret).
Proof.
  assert (Hexit : forall start_id end_id cmp_ret,
             (0 <= start_id)%Z -> (end_id < Z.of_nat n)%Z ->
             (start_id <= end_id + 1)%Z -> (end_id < start_id)%Z ->
             cmp_ret <> 0%Z ->
             (forall j, (Z.of_nat j < start_id)%Z -> (cmp j < 0)%Z) ->
             (forall j, (end_id < Z.of_nat j)%Z -> (j < n)%nat ->
                        (0 < cmp j)%Z) ->
             search_post systems name type ((start_id + Z.quot (end_id - start_id) 2)%Z,
                          cmp_ret)).
  { intros start_id end_id cmp_ret H0 Hn Hle Hlt Hc Hlo Hhi.
    assert (end_id = start_id - 1)%Z by lia. subst end_id.
    replace (start_id - 1 - start_id)%Z with (-1)%Z by lia.
    change (Z.quot (-1) 2) with 0%Z. rewrite Z.add_0_r.
    unfold search_post. cbv zeta. split; [exact H0|]. right.
    split; [exact Hc|]. split; [lia|]. split.
    - intros j Hj. apply Hlo. lia.
    - intros j Hj. apply Hhi; lia. }
  induction turns as [|turns IH];
    intros start_id end_id cmp_ret H0 Hn Hle Hfuel Hc Hlo Hhi.
  - cbn [find_system_loop].
    apply Hexit; try assumption; try lia; apply Hc; lia.
  - cbn [find_system_loop].
    destruct (Z.leb_spec start_id end_id) as [Hse|Hse].
    2:{ apply Hexit; try assumption. apply Hc. exact Hse. }
    set (mid_id := (start_id + Z.quot (end_id - start_id) 2)%Z).
    assert (Hmid : (start_id <= mid_id <= end_id)%Z).
    { unfold mid_id. rewrite Z.quot_div_nonneg by lia.
      pose proof (Z.div_pos (end_id - start_id) 2 ltac:(lia) ltac:(lia)).
      pose proof (Z.div_le_upper_bound (end_id - start_id) 2
                    (end_id - start_id) ltac:(lia) ltac:(lia)).
      lia. }
    cbv zeta.
    change (if (strcmp (info_name (nth (Z.to_nat mid_id) systems d0)) name
                =? 0)%Z
            then (gradient_type_code
                    (info_type (nth (Z.to_nat mid_id) systems d0))
                  - gradient_type_code type)%Z
            else strcmp (info_name (nth (Z.to_nat mid_id) systems d0)) name)
      with (cmp (Z.to_nat mid_id)).
    set (c := cmp (Z.to_nat mid_id)).
    destruct (Z.ltb_spec c 0) as [Hneg|Hnneg].
    + apply IH; try lia.
      * intros j Hj.
        destruct (Nat.eq_dec j (Z.to_nat mid_id)) as [->|Hne]; [exact Hneg|].
        apply (sorted_below j (Z.to_nat mid_id)); [lia|]. fold c. lia.
      * intros j Hj Hjn. apply Hhi; lia.
    + destruct (Z.ltb_spec 0 c) as [Hpos|Hnpos].
      * apply IH; try lia.
        -- intros j Hj. apply Hlo. lia.
        -- intros j Hj Hjn.
           destruct (Z.le_gt_cases (Z.of_nat j) end_id) as [Hje|Hje];
             [|apply Hhi; lia].
           destruct (Nat.eq_dec j (Z.to_nat mid_id)) as [->|Hne];
             [exact Hpos|].
           apply (sorted_above (Z.to_nat mid_id) j); [lia|]. fold c. lia.
      * unfold search_post. cbv zeta. split; [lia|]. left.
        split; [lia|]. split; [lia|]. fold c. lia.
Qed.

Lemma search_spec :
  search_post systems name type
    (find_system_loop (S n) systems name type 0 (Z.of_nat n - 1)
       (0 + Z.quot (Z.of_nat n - 1 - 0) 2)%Z 1).
Proof.
  apply find_system_loop_spec; lia.
Qed.

End BinarySearch.

Lemma nth_insert {A : Type} (l : list A) (p k : nat) (x d : A) :
  (p <= List.length l)%nat ->
  nth k (firstn p l ++ x :: skipn p l) d
  = if (k <? p)%nat then nth k l d
    else if (k =? p)%nat then x else nth (k - 1) l d.
Proof.
  intros Hp.
  assert (Hlen : List.length (firstn p l) = p) by (rewrite length_firstn; lia).
  destruct (Nat.ltb_spec k p) as [Hk|Hk].
  - rewrite app_nth1 by lia. rewrite nth_firstn.
    destruct (Nat.ltb_spec k p); [reflexivity|lia].
  - rewrite app_nth2 by lia. rewrite Hlen.
    destruct (Nat.eqb_spec k p) as [->|Hne].
    + rewrite Nat.sub_diag. reflexivity.
    + destruct (k - p)%nat as [|q] eqn:Hq; [lia|].
      cbn [nth]. rewrite nth_skipn. f_equal. lia.
Qed.

Lemma system_cmp_indep (systems : list cs_gradient_info_t) (j : nat)
      (d d' : cs_gradient_info_t) (name : string) (type : cs_gradient_type_t) :
  (j < List.length systems)%nat ->
  system_cmp (nth j systems d) name type
  = system_cmp (nth j systems d') name type.
Proof. intros Hj. rewrite (nth_indep systems d d' Hj). reflexivity. Qed.

Section FindOrAdd.

Variable systems : list cs_gradient_info_t.
Variable name : string.
Variable type : cs_gradient_type_t.

Hypothesis Hsorted : systems_sorted systems.

Local Abbreviation n := (List.length systems).
Local Abbreviation d0 := (_gradient_info_create name type).

(** An entry of the key is found where it is, and the table is left as
    it is. *)

Lemma find_present (id : nat) :
  (id < n)%nat ->
  info_name (nth id systems d0) = name ->
  info_type (nth id systems d0) = type ->
  _find_or_add_system name type systems = (id, systems).
Proof.
  intros Hid Hname Htype.
  assert (Hkey : system_cmp (nth id systems d0) name type = 0%Z)
    by (apply system_cmp_eq; split; assumption).
  unfold _find_or_add_system. cbv zeta.
  pose proof (search_spec systems name type Hsorted) as Hpost.
  destruct (find_system_loop _ _ _ _ _ _ _ _) as [mid_id cmp_ret].
  unfold search_post in Hpost. cbv zeta in Hpost.
  destruct Hpost as [H0 [(Hc & Hm & Hcm)|(Hc & Hm & Hlo & Hhi)]].
  - subst cmp_ret. cbn [Z.eqb]. f_equal.
    destruct (Nat.lt_trichotomy (Z.to_nat mid_id) id) as [Hlt|[Heq|Hgt]];
      [|exact Heq|].
    + pose proof (sorted_above systems name type Hsorted
                    (Z.to_nat mid_id) id ltac:(lia) ltac:(lia)). lia.
    + pose proof (sorted_below systems name type Hsorted
                    id (Z.to_nat mid_id) ltac:(lia) ltac:(lia)). lia.
  - destruct (Nat.lt_ge_cases id (Z.to_nat mid_id)) as [Hlt|Hge].
    + pose proof (Hlo id Hlt). lia.
    + pose proof (Hhi id ltac:(lia)). lia.
Qed.

(** Without an entry of the key, a fresh one is inserted where it keeps
    the table sorted. *)

Lemma find_absent :
  (forall j, (j < n)%nat ->
             system_cmp (nth j systems d0) name type <> 0%Z) ->
  exists id,
    (id <= n)%nat
    /\ _find_or_add_system name type systems
       = (id, firstn id systems ++ d0 :: skipn id systems)
    /\ (forall j, (j < id)%nat ->
                  (system_cmp (nth j systems d0) name type < 0)%Z)
    /\ (forall j, (id <= j < n)%nat ->
                  (0 < system_cmp (nth j systems d0) name type)%Z).
Proof.
  intros Habsent.
  unfold _find_or_add_system. cbv zeta.
  pose proof (search_spec systems name type Hsorted) as Hpost.
  destruct (find_system_loop _ _ _ _ _ _ _ _) as [mid_id cmp_ret].
  unfold search_post in Hpost. cbv zeta in Hpost.
  destruct Hpost as [H0 [(Hc & Hm & Hcm)|(Hc & Hm & Hlo & Hhi)]].
  - exfalso. exact (Habsent _ Hm Hcm).
  - exists (Z.to_nat mid_id). split; [exact Hm|]. split.
    + destruct (Z.eqb_spec cmp_ret 0); [contradiction|reflexivity].
    + split; assumption.
Qed.

Lemma insert_sorted (id : nat) :
  (id <= n)%nat ->
  (forall j, (j < id)%nat ->
             (system_cmp (nth j systems d0) name type < 0)%Z) ->
  (forall j, (id <= j < n)%nat ->
             (0 < system_cmp (nth j systems d0) name type)%Z) ->
  systems_sorted (firstn id systems ++ d0 :: skipn id systems).
Proof.
  intros Hid Hlo Hhi i j d Hij.
  assert (Hlen : List.length (firstn id systems ++ d0 :: skipn id systems)
                 = S n).
  { rewrite length_app, length_firstn. cbn [List.length].
    rewrite length_skipn. lia. }
  rewrite Hlen in Hij. rewrite !nth_insert by exact Hid.
  destruct (Nat.ltb_spec i id) as [Hi|Hi];
    destruct (Nat.ltb_spec j id) as [Hj|Hj]; try lia.
  - apply Hsorted. lia.
  - destruct (Nat.eqb_spec j id) as [->|Hne].
    + cbn [info_name info_type _gradient_info_create].
      rewrite (system_cmp_indep systems i d d0) by lia. apply Hlo. exact Hi.
    + apply Hsorted. lia.
  - destruct (Nat.eqb_spec i id) as [->|Hne];
      destruct (Nat.eqb_spec j id) as [->|Hne']; try lia.
    + pose proof (Hhi (j - 1)%nat ltac:(lia)) as H.
      rewrite (system_cmp_indep systems (j - 1) d0 d) in H by lia.
      apply (system_cmp_flip (nth (j - 1) systems d) d0). exact H.
    + apply Hsorted. lia.
Qed.

End FindOrAdd.

(** *** Finding or adding an entry *)

(** An entry is in the table with the key it is looked up by. *)

Lemma find_or_add_cases (systems : list cs_gradient_info_t) (name : string)
      (type : cs_gradient_type_t) :
  systems_sorted systems ->
  let d0 := _gradient_info_create name type in
  (exists id, (id < List.length systems)%nat
              /\ info_name (nth id systems d0) = name
              /\ info_type (nth id systems d0) = type
              /\ _find_or_add_system name type systems = (id, systems))
  \/ (exists id, (id <= List.length systems)%nat
                 /\ (forall e, In e systems -> is_system name type e = false)
                 /\ _find_or_add_system name type systems
                    = (id, firstn id systems ++ d0 :: skipn id systems)
                 /\ systems_sorted (firstn id systems ++ d0 :: skipn id systems)).
Proof.
  intros Hsorted d0. subst d0.
  destruct (find (is_system name type) systems) as [e|] eqn:Hfind.
  - left. apply find_some in Hfind. destruct Hfind as [Hin He].
    apply (In_nth _ _ (_gradient_info_create name type)) in Hin. destruct Hin as (id & Hid & Hnth).
    unfold is_system in He. apply Z.eqb_eq in He.
    apply system_cmp_eq in He. destruct He as [Hname Htype].
    exists id. rewrite Hnth. repeat split; try assumption.
    apply find_present; try assumption; rewrite Hnth; assumption.
  - right.
    assert (Habs : forall e, In e systems -> is_system name type e = false).
    { intros e He. apply (find_none _ _ Hfind e He). }
    destruct (find_absent systems name type Hsorted) as (id & Hid & Heq & Hlo & Hhi).
    { intros j Hj. pose proof (Habs (nth j systems (_gradient_info_create name type)) (nth_In _ _ Hj)) as H.
      unfold is_system in H. apply Z.eqb_neq in H. exact H. }
    exists id. repeat split; try assumption.
    apply insert_sorted; assumption.
Qed.

Lemma find_or_add_shape (systems : list cs_gradient_info_t)
        (name : string) (type : cs_gradient_type_t) :
  systems_sorted systems ->
  let id := fst (_find_or_add_system name type systems) in
  let systems' := snd (_find_or_add_system name type systems) in
  systems_sorted systems'
  /\ (id < List.length systems')%nat
  /\ (forall d, info_name (nth id systems' d) = name
                /\ info_type (nth id systems' d) = type)
  /\ (systems' = systems
      \/ (systems' = firstn id systems
                     ++ _gradient_info_create name type :: skipn id systems
          /\ forall e, In e systems ->
                       ~ (info_name e = name /\ info_type e = type))).
Proof.
  intros Hsorted id systems'.
  destruct (find_or_add_cases systems name type Hsorted)
    as [(k & Hk & Hname & Htype & Heq)|(k & Hk & Habs & Heq & Hs)];
    subst id systems'; rewrite Heq; cbn [fst snd].
  - split; [exact Hsorted|]. split; [exact Hk|]. split.
    + intros d. rewrite (nth_indep _ d (_gradient_info_create name type) Hk).
      split; assumption.
    + left. reflexivity.
  - assert (Hlen : List.length
                     (firstn k systems
                      ++ _gradient_info_create name type :: skipn k systems)
                   = S (List.length systems)).
    { rewrite length_app, length_firstn. cbn [List.length].
      rewrite length_skipn. lia. }
    split; [exact Hs|]. split; [lia|]. split.
    + intros d. rewrite nth_insert by exact Hk.
      rewrite Nat.ltb_irrefl, Nat.eqb_refl. split; reflexivity.
    + right. split; [reflexivity|].
      intros e He Hkey. apply system_cmp_eq in Hkey.
      pose proof (Habs e He) as H. unfold is_system in H.
      apply Z.eqb_neq in H. contradiction.
Qed.

(** X5: on a sorted table, [_find_or_add_system] returns the position of an
    entry of the name and scheme asked for, in a table that is still sorted
    and holds every entry it held; the table grows by one fresh entry, with
    no call recorded, exactly when it held none of that name and scheme. *)

Theorem find_or_add_system_sorted (systems : list cs_gradient_info_t)
        (name : string) (type : cs_gradient_type_t) :
  systems_sorted systems ->
  let id := fst (_find_or_add_system name type systems) in
  let systems' := snd (_find_or_add_system name type systems) in
  let e := nth id systems' (_gradient_info_create name type) in
  systems_sorted systems'
  /\ (id < List.length systems')%nat
  /\ info_name e = name /\ info_type e = type
  /\ (forall e', In e' systems -> In e' systems')
  /\ ((exists e', In e' systems /\ info_name e' = name /\ info_type e' = type)
      /\ systems' = systems
      \/ (forall e', In e' systems ->
                     ~ (info_name e' = name /\ info_type e' = type))
         /\ List.length systems' = S (List.length systems)
         /\ e = _gradient_info_create name type).
Proof.
  intros Hsorted id systems' e.
  destruct (find_or_add_shape systems name type Hsorted)
    as (Hs & Hid & Hkey & Hshape).
  fold id systems' in Hs, Hid, Hkey, Hshape.
  destruct (Hkey (_gradient_info_create name type)) as [Hname Htype].
  fold e in Hname, Htype.
  split; [exact Hs|]. split; [exact Hid|].
  split; [exact Hname|]. split; [exact Htype|].
  destruct Hshape as [Hsame|[Hnew Habs]].
  - split; [rewrite Hsame; auto|]. left. split; [|exact Hsame].
    exists e. split; [|split; assumption].
    unfold e. rewrite Hsame in *. apply nth_In. exact Hid.
  - assert (Hidn : (id <= List.length systems)%nat).
    { rewrite Hnew in Hid. rewrite length_app, length_firstn in Hid.
      cbn [List.length] in Hid. rewrite length_skipn in Hid. lia. }
    split.
    + intros e' He'. rewrite Hnew.
      rewrite <- (firstn_skipn id systems) in He'.
      apply in_app_or in He'. apply in_or_app.
      destruct He' as [He'|He']; [left; exact He'|right; right; exact He'].
    + right. split; [exact Habs|]. split.
      * rewrite Hnew, length_app, length_firstn. cbn [List.length].
        rewrite length_skipn. lia.
      * unfold e. rewrite Hnew, nth_insert by exact Hidn.
        rewrite Nat.ltb_irrefl, Nat.eqb_refl. reflexivity.
Qed.

(** X6: looking the same name and scheme up again finds the entry where it
    was put and leaves the table as it is. *)

Theorem find_or_add_system_idempotent (systems : list cs_gradient_info_t)
        (name : string) (type : cs_gradient_type_t) :
  systems_sorted systems ->
  _find_or_add_system name type
    (snd (_find_or_add_system name type systems))
  = _find_or_add_system name type systems.
Proof.
  intros Hsorted.
  destruct (find_or_add_cases systems name type Hsorted)
    as [(k & Hk & Hname & Htype & Heq)|(k & Hk & Habs & Heq & Hs)];
    rewrite Heq; cbn [snd].
  - exact Heq.
  - apply find_present.
    + exact Hs.
    + rewrite length_app, length_firstn. cbn [List.length].
      rewrite length_skipn. lia.
    + rewrite nth_insert by exact Hk.
      rewrite Nat.ltb_irrefl, Nat.eqb_refl. reflexivity.
    + rewrite nth_insert by exact Hk.
      rewrite Nat.ltb_irrefl, Nat.eqb_refl. reflexivity.
Qed.

(** *** Counting the calls *)

Lemma update_iter_key (i : cs_gradient_info_t) (k : Z) :
  info_name (_gradient_info_update_iter i k) = info_name i
  /\ info_type (_gradient_info_update_iter i k) = info_type i
  /\ n_calls (_gradient_info_update_iter i k) = n_calls i.
Proof.
  unfold _gradient_info_update_iter.
  destruct (n_iter_max i <? k)%Z; [|destruct (k <? n_iter_min i)%Z];
    cbn; repeat split.
Qed.

Lemma iterative_info
      g m fvq cpl w_stride var_name (info : cs_gradient_info_t) nswrgp
      hyd_p_flag verbosity inc epsrgp f_ext coefap coefbp pvar c_weight
      store log grad :
  exists k,
    it_info (_iterative_scalar_gradient g m fvq cpl w_stride var_name
               (Some info) nswrgp hyd_p_flag verbosity inc epsrgp f_ext
               coefap coefbp pvar c_weight store log grad)
    = Some (_gradient_info_update_iter info k).
Proof.
  unfold _iterative_scalar_gradient.
  destruct (nswrgp <? 1)%Z; [exists 0%Z; reflexivity|].
  cbv zeta.
  destruct (cocg_it _) as [cocg|];
    (destruct (Rle_dec _ _); [exists 0%Z; reflexivity|]);
    eexists; reflexivity.
Qed.

Lemma gradient_scalar_info
      g m fvq drv compute_count r_grad_alloc var_name gradient_type halo_type
      inc check n_r_sweeps hyd_p_flag w_stride verbosity clip_mode epsilon
      clip_coeff f_ext bc_coeff_a bc_coeff_b var c_weight cpl st store
      (info : cs_gradient_info_t) log grad :
  exists info',
    env_info (res_env
      (_gradient_scalar g m fvq drv compute_count r_grad_alloc var_name
         gradient_type halo_type inc check n_r_sweeps hyd_p_flag w_stride
         verbosity clip_mode epsilon clip_coeff f_ext bc_coeff_a bc_coeff_b
         var c_weight cpl st (Env store (Some info) log) grad))
    = Some info'
    /\ info_name info' = info_name info
    /\ info_type info' = info_type info
    /\ n_calls info' = n_calls info.
Proof.
  assert (Hlsq : forall recompute a b r_grad,
            env_info (snd (lsq_stage g m fvq drv var_name halo_type inc
                             recompute hyd_p_flag w_stride verbosity clip_mode
                             clip_coeff f_ext a b var c_weight cpl
                             (Env store (Some info) log) r_grad))
            = Some info).
  { intros recompute a b r_grad. unfold lsq_stage.
    destruct (match (w_stride =? 6)%Z with true => _ | false => _ end)
      as [rg s].
    destruct (_scalar_gradient_clipping _ _ _ _ _ _ _ _ _ _ _) as [rg' l].
    reflexivity. }
  unfold _gradient_scalar. cbv zeta.
  destruct gradient_type.
  - cbn [res_env env_info].
    destruct (iterative_info g m fvq cpl w_stride var_name info n_r_sweeps
                hyd_p_flag verbosity (IZR inc) epsilon f_ext
                (match bc_coeff_a with Some a => a | None => fun _ => 0 end)
                (match bc_coeff_b with Some b => b | None => fun _ => 1 end)
                var c_weight store log
                (_initialize_scalar_gradient g m fvq cpl w_stride hyd_p_flag
                   (IZR inc) f_ext
                   (match bc_coeff_a with Some a => a | None => fun _ => 0 end)
                   (match bc_coeff_b with Some b => b | None => fun _ => 1 end)
                   var c_weight)) as [k Hk].
    cbn [env_store env_info env_log] in *. rewrite Hk.
    exists (_gradient_info_update_iter info k). split; [reflexivity|].
    apply update_iter_key.
  - specialize (Hlsq (recompute_cocg_flag st check var_name inc compute_count)
                     (match bc_coeff_a with Some a => a | None => fun _ => 0 end)
                     (match bc_coeff_b with Some b => b | None => fun _ => 1 end)
                     grad).
    destruct (lsq_stage _ _ _ _ _ _ _ _ _ _ _ _ _ _ _ _ _ _ _ _ _) as [rg env'].
    cbn [res_env snd] in *. exists info. repeat split; assumption.
  - specialize (Hlsq (recompute_cocg_flag st check var_name inc compute_count)
                     (match bc_coeff_a with Some a => a | None => fun _ => 0 end)
                     (match bc_coeff_b with Some b => b | None => fun _ => 1 end)
                     r_grad_alloc).
    destruct (lsq_stage _ _ _ _ _ _ _ _ _ _ _ _ _ _ _ _ _ _ _ _ _) as [rg env'].
    cbn [res_env snd] in *. exists info. repeat split; assumption.
  - cbn. exists info. repeat split.
Qed.

Lemma systems_set_length (systems : list cs_gradient_info_t) (id : nat)
      (x : cs_gradient_info_t) :
  List.length (systems_set systems id x) = List.length systems.
Proof.
  revert id. induction systems as [|e l IH]; intros [|id]; cbn; auto.
Qed.

Lemma systems_set_nth (systems : list cs_gradient_info_t) (id k : nat)
      (x d : cs_gradient_info_t) :
  (id < List.length systems)%nat ->
  nth k (systems_set systems id x) d
  = if (k =? id)%nat then x else nth k systems d.
Proof.
  revert id k. induction systems as [|e l IH]; intros id k Hid; [cbn in Hid; lia|].
  destruct id as [|id]; destruct k as [|k]; cbn; try reflexivity.
  apply IH. cbn in Hid. lia.
Qed.

Lemma system_cmp_key (e e' : cs_gradient_info_t) (name : string)
      (type : cs_gradient_type_t) :
  info_name e' = info_name e -> info_type e' = info_type e ->
  system_cmp e' name type = system_cmp e name type.
Proof. intros Hn Ht. unfold system_cmp. rewrite Hn, Ht. reflexivity. Qed.

Lemma systems_set_sorted (systems : list cs_gradient_info_t) (id : nat)
      (x : cs_gradient_info_t) :
  systems_sorted systems ->
  (id < List.length systems)%nat ->
  (forall d, info_name x = info_name (nth id systems d)
             /\ info_type x = info_type (nth id systems d)) ->
  systems_sorted (systems_set systems id x).
Proof.
  intros Hs Hid Hkey i j d Hij. rewrite systems_set_length in Hij.
  rewrite !systems_set_nth by exact Hid.
  destruct (Hkey d) as [Hn Ht].
  pose proof (Hs i j d Hij) as H.
  destruct (Nat.eqb_spec i id) as [->|Hi];
    destruct (Nat.eqb_spec j id) as [->|Hj]; try lia.
  - rewrite (system_cmp_key (nth id systems d) x) by assumption. exact H.
  - rewrite Hn, Ht. exact H.
Qed.

Lemma find_set_other (p : cs_gradient_info_t -> bool)
      (systems : list cs_gradient_info_t) (id : nat)
      (x d : cs_gradient_info_t) :
  (id < List.length systems)%nat ->
  p x = false -> p (nth id systems d) = false ->
  find p (systems_set systems id x) = find p systems.
Proof.
  revert id. induction systems as [|e l IH]; intros id Hid Hx Hn;
    [cbn in Hid; lia|].
  destruct id as [|id]; cbn in *.
  - rewrite Hx, Hn. reflexivity.
  - destruct (p e); [reflexivity|]. apply IH; [lia|assumption|assumption].
Qed.

Lemma find_insert_other {A : Type} (p : A -> bool) (l1 l2 : list A) (x : A) :
  p x = false -> find p (l1 ++ x :: l2) = find p (l1 ++ l2).
Proof.
  intros Hx. induction l1 as [|e l IH]; cbn.
  - rewrite Hx. reflexivity.
  - destruct (p e); [reflexivity|exact IH].
Qed.

Lemma find_unique {A : Type} (p : A -> bool) (l : list A) (j : nat) (d : A) :
  (j < List.length l)%nat ->
  p (nth j l d) = true ->
  (forall i, (i < j)%nat -> p (nth i l d) = false) ->
  find p l = Some (nth j l d).
Proof.
  revert j. induction l as [|e l IH]; intros j Hj Hp Hlo; [cbn in Hj; lia|].
  destruct j as [|j]; cbn in *.
  - rewrite Hp. reflexivity.
  - rewrite (Hlo 0%nat) by lia. apply IH; [lia|exact Hp|].
    intros i Hi. apply (Hlo (S i)). lia.
Qed.

(** In a sorted table the entries before an entry of the key are not of
    the key. *)

Lemma sorted_unique (systems : list cs_gradient_info_t) (name : string)
      (type : cs_gradient_type_t) (i j : nat) (d : cs_gradient_info_t) :
  systems_sorted systems ->
  (i < j < List.length systems)%nat ->
  is_system name type (nth j systems d) = true ->
  is_system name type (nth i systems d) = false.
Proof.
  intros Hs Hij Hj. unfold is_system in *.
  apply Z.eqb_eq in Hj. apply Z.eqb_neq.
  pose proof (system_cmp_trans (nth i systems d) (nth j systems d) name type
                (Hs i j d Hij)) as H.
  lia.
Qed.

Lemma is_system_other (name name' : string) (type type' : cs_gradient_type_t)
      (e : cs_gradient_info_t) :
  info_name e = name -> info_type e = type ->
  (name', type') <> (name, type) ->
  is_system name' type' e = false.
Proof.
  intros Hn Ht Hne. unfold is_system. apply Z.eqb_neq. intros H.
  apply system_cmp_eq in H. destruct H as [H1 H2]. apply Hne. congruence.
Qed.

Lemma is_system_key (name : string) (type : cs_gradient_type_t)
      (e : cs_gradient_info_t) :
  info_name e = name -> info_type e = type -> is_system name type e = true.
Proof.
  intros Hn Ht. unfold is_system. apply Z.eqb_eq. apply system_cmp_eq. auto.
Qed.

(** Finding or adding the entry of a key and writing it back with one
    more call: the calls of the key are counted once more, those of any
    other key are as before, and the table is still sorted. *)

Lemma systems_after_counts (systems : list cs_gradient_info_t)
      (name : string) (type : cs_gradient_type_t)
      (info' : cs_gradient_info_t) :
  systems_sorted systems ->
  let id := fst (_find_or_add_system name type systems) in
  let found := snd (_find_or_add_system name type systems) in
  let d0 := _gradient_info_create name type in
  info_name info' = info_name (nth id found d0) ->
  info_type info' = info_type (nth id found d0) ->
  n_calls info' = n_calls (nth id found d0) ->
  counts_call name type systems (systems_after found id (Some info')).
Proof.
  intros Hsorted id found d0 Hn Ht Hc. unfold counts_call.
  set (systems' := systems_after found id (Some info')).
  pose proof (find_or_add_shape systems name type Hsorted)
    as (Hs & Hid & Hkey & Hshape).
  fold id found in Hs, Hid, Hkey, Hshape.
  destruct (Hkey d0) as [Hname Htype].
  assert (Hkn : info_name (info_called info') = name)
    by (cbn; congruence).
  assert (Hkt : info_type (info_called info') = type)
    by (cbn; congruence).
  unfold systems', systems_after.
  split; [|split].
  - apply systems_set_sorted; [exact Hs|exact Hid|].
    intros d. destruct (Hkey d) as [Hname' Htype']. split; congruence.
  - unfold system_calls.
    rewrite (find_unique (is_system name type)
               (systems_set found id (info_called info')) id d0).
    + rewrite systems_set_nth, Nat.eqb_refl by exact Hid.
      cbn [n_calls info_called]. f_equal. f_equal. rewrite Hc.
      destruct Hshape as [Hsame|[Hnew Habs]].
      * rewrite Hsame in *.
        rewrite (find_unique (is_system name type) systems id d0).
        -- reflexivity.
        -- exact Hid.
        -- apply is_system_key; assumption.
        -- intros i Hi. apply (sorted_unique systems name type i id d0);
             [exact Hsorted|lia|]. apply is_system_key; assumption.
      * assert (Hnone : find (is_system name type) systems = None).
        { destruct (find (is_system name type) systems) as [e|] eqn:Hf;
            [|reflexivity].
          apply find_some in Hf. destruct Hf as [Hin He]. exfalso.
          apply (Habs e Hin). unfold is_system in He.
          apply Z.eqb_eq in He. apply system_cmp_eq in He. exact He. }
        rewrite Hnone.
        assert (Hidn : (id <= List.length systems)%nat).
        { rewrite Hnew in Hid. rewrite length_app, length_firstn in Hid.
          cbn [List.length] in Hid. rewrite length_skipn in Hid. lia. }
        rewrite Hnew, nth_insert by exact Hidn.
        rewrite Nat.ltb_irrefl, Nat.eqb_refl. reflexivity.
    + rewrite systems_set_length. exact Hid.
    + rewrite systems_set_nth, Nat.eqb_refl by exact Hid.
      apply is_system_key; assumption.
    + intros i Hi. rewrite systems_set_nth by exact Hid.
      destruct (Nat.eqb_spec i id); [lia|].
      apply (sorted_unique found name type i id d0); [exact Hs|lia|].
      apply is_system_key; assumption.
  - intros name' type' Hne. unfold system_calls.
    rewrite (find_set_other _ found id (info_called info') d0);
      [|exact Hid| |].
    + destruct Hshape as [Hsame|[Hnew Habs]].
      * rewrite Hsame. reflexivity.
      * rewrite Hnew, find_insert_other, firstn_skipn; [reflexivity|].
        apply (is_system_other name name' type type'); auto.
    + apply (is_system_other name name' type type'); auto.
    + apply (is_system_other name name' type type'); auto.
Qed.

(** X7: every call of a scalar entry point adds one to the call count
    of the entry of its name and scheme, an [unsigned] that wraps around at
    2^32 (the count of a key without entry being 0); the entries of other
    names or schemes keep their counts, and the table stays sorted. *)

Theorem scalar_calls_counted
        (g : cs_glob_t) (m : cs_mesh_t) (fvq : cs_mesh_quantities_t)
        (drv : cs_gradient_drivers_t) (compute_count : Z)
        (r_grad_alloc : array cs_real_3_t)
        (var_name : string) (gradient_type : cs_gradient_type_t)
        (halo_type : cs_halo_type_t)
        (inc n_r_sweeps hyd_p_flag w_stride verbosity clip_mode : Z)
        (epsilon clip_coeff : R) (f_ext : array cs_real_3_t)
        (bc_coeff_a bc_coeff_b : option (array R)) (var : array R)
        (c_weight : option (array R))
        (cpl : option cs_internal_coupling_t)
        (gl : cs_gradient_globals_t) (grad : array cs_real_3_t) :
  systems_sorted (cs_glob_gradient_systems gl) ->
  counts_call var_name gradient_type (cs_glob_gradient_systems gl)
    (cs_glob_gradient_systems
       (snd (cs_gradient_scalar g m fvq drv compute_count r_grad_alloc
               var_name gradient_type halo_type inc n_r_sweeps hyd_p_flag
               w_stride verbosity clip_mode epsilon clip_coeff f_ext
               bc_coeff_a bc_coeff_b var c_weight cpl gl grad)))
  /\ counts_call var_name gradient_type (cs_glob_gradient_systems gl)
       (cs_glob_gradient_systems
          (snd (cs_gradient_scalar_synced_input g m fvq drv compute_count
                  r_grad_alloc var_name gradient_type halo_type inc
                  n_r_sweeps hyd_p_flag w_stride verbosity clip_mode epsilon
                  clip_coeff f_ext bc_coeff_a bc_coeff_b var c_weight cpl gl
                  grad))).
Proof.
  intros Hsorted.
  pose proof (systems_after_counts (cs_glob_gradient_systems gl) var_name
                gradient_type) as Hcount.
  cbv zeta in Hcount.
  split.
  - unfold cs_gradient_scalar.
    destruct (_find_or_add_system var_name gradient_type
                (cs_glob_gradient_systems gl)) as [id systems].
    cbn [fst snd] in Hcount. cbv zeta.
    set (info := nth id systems (_gradient_info_create var_name gradient_type))
      in *.
    destruct (match halo m with Some h => _ | None => _ end)
      as [[var' c_weight'] f_ext'].
    cbn [snd cs_glob_gradient_systems].
    destruct (gradient_scalar_info g m fvq drv compute_count r_grad_alloc
                var_name gradient_type halo_type inc false n_r_sweeps
                hyd_p_flag w_stride verbosity clip_mode epsilon clip_coeff
                f_ext' bc_coeff_a bc_coeff_b var' c_weight' cpl (gl_static gl)
                (gl_store gl) info (gl_log gl) grad)
      as (info' & Hi & Hn & Ht & Hc).
    rewrite Hi. apply Hcount; assumption.
  - unfold cs_gradient_scalar_synced_input. cbv zeta.
    destruct (_find_or_add_system var_name gradient_type
                (cs_glob_gradient_systems gl)) as [id systems].
    cbn [fst snd] in Hcount.
    set (info := nth id systems (_gradient_info_create var_name gradient_type))
      in *.
    cbn [snd cs_glob_gradient_systems].
    match goal with
    | |- context [_gradient_scalar _ _ _ _ _ _ _ _ _ _ _ _ _ _ _ _ _ _ ?fe _ _ _ _ _ _ _ _] =>
        destruct (gradient_scalar_info g m fvq drv compute_count r_grad_alloc
                    var_name gradient_type halo_type inc true n_r_sweeps
                    hyd_p_flag w_stride verbosity clip_mode epsilon clip_coeff
                    fe bc_coeff_a bc_coeff_b var c_weight cpl (gl_static gl)
                    (gl_store gl) info (gl_log gl) grad)
          as (info' & Hi & Hn & Ht & Hc)
    end.
    rewrite Hi. apply Hcount; assumption.
Qed.

Lemma scalar_calls_counted_witness :
  systems_sorted (cs_glob_gradient_systems globals_initial)
  /\ counts_call "p" CS_GRADIENT_LSQ (cs_glob_gradient_systems globals_initial)
       (cs_glob_gradient_systems
          (snd (cs_gradient_scalar Examples.glob0 Examples.mesh_1
                  Examples.fvq_unit Examples.drivers_idle 0 (fun _ => zero3)
                  "p" CS_GRADIENT_LSQ CS_HALO_STANDARD 1 2 0 1 0
                  CS_GRADIENT_LIMIT_NONE (/ 10) 1 Examples.f_ext_zero None None
                  Examples.var_zero None None globals_initial
                  Examples.grad_x))).
Proof.
  assert (Hs : systems_sorted (cs_glob_gradient_systems globals_initial)).
  { intros i j d Hij. cbn in Hij. lia. }
  split; [exact Hs|].
  exact (proj1 (scalar_calls_counted Examples.glob0 Examples.mesh_1
                  Examples.fvq_unit Examples.drivers_idle 0 (fun _ => zero3)
                  "p" CS_GRADIENT_LSQ CS_HALO_STANDARD 1 2 0 1 0
                  CS_GRADIENT_LIMIT_NONE (/ 10) 1 Examples.f_ext_zero None None
                  Examples.var_zero None None globals_initial
                  Examples.grad_x Hs)).
Defined.

Lemma singleton_sorted (e : cs_gradient_info_t) : systems_sorted [e].
Proof. intros i j d Hij. cbn in Hij. lia. Qed.

Lemma find_or_add_system_sorted_witness :
  systems_sorted [_gradient_info_create "p" CS_GRADIENT_LSQ]
  /\ systems_sorted
       (snd (_find_or_add_system "k" CS_GRADIENT_GREEN_ITER
               [_gradient_info_create "p" CS_GRADIENT_LSQ])).
Proof.
  split; [apply singleton_sorted|].
  exact (proj1 (find_or_add_system_sorted
                  [_gradient_info_create "p" CS_GRADIENT_LSQ]
                  "k" CS_GRADIENT_GREEN_ITER (singleton_sorted _))).
Defined.

Lemma find_or_add_system_idempotent_witness :
  systems_sorted [_gradient_info_create "p" CS_GRADIENT_LSQ]
  /\ _find_or_add_system "k" CS_GRADIENT_GREEN_ITER
       (snd (_find_or_add_system "k" CS_GRADIENT_GREEN_ITER
               [_gradient_info_create "p" CS_GRADIENT_LSQ]))
     = _find_or_add_system "k" CS_GRADIENT_GREEN_ITER
         [_gradient_info_create "p" CS_GRADIENT_LSQ].
Proof.
  split; [apply singleton_sorted|].
  apply find_or_add_system_idempotent. apply singleton_sorted.
Defined.

(** *** Sweep statistics *)

(** The sweep counts are [int] values. *)

Definition is_int (k : Z) : Prop := (INT_MIN <= k <= INT_MAX)%Z.

Lemma record_call_later (i : cs_gradient_info_t) (k : Z) :
  (1 <= n_calls i < UINT_MODULUS - 1)%Z -> (n_iter_min i <= n_iter_max i)%Z ->
  n_calls (record_call i k) = (n_calls i + 1)%Z
  /\ n_iter_tot (record_call i k) = ((n_iter_tot i + k) mod ULONG_MODULUS)%Z
  /\ n_iter_max (record_call i k) = Z.max (n_iter_max i) k
  /\ n_iter_min (record_call i k) = Z.min (n_iter_min i) k.
Proof.
  intros Hc Hmm. unfold record_call, _gradient_info_update_iter.
  destruct (Z.eqb_spec (n_calls i) 0); [lia|].
  destruct (Z.ltb_spec (n_iter_max i) k);
    [|destruct (Z.ltb_spec k (n_iter_min i))];
    cbn [info_called n_calls n_iter_tot n_iter_max n_iter_min];
    (split; [apply Z.mod_small; lia|]); repeat split; lia.
Qed.

Lemma fold_add_from (ks : list Z) (b : Z) :
  fold_left Z.add ks b = (b + fold_left Z.add ks 0)%Z.
Proof.
  revert b. induction ks as [|k ks IH]; intros b; cbn [fold_left]; [lia|].
  rewrite (IH (b + k)%Z), (IH (0 + k)%Z). lia.
Qed.

Lemma record_calls_later (ks : list Z) :
  forall i,
    (1 <= n_calls i)%Z ->
    (n_calls i + Z.of_nat (List.length ks) < UINT_MODULUS)%Z ->
    (n_iter_min i <= n_iter_max i)%Z ->
    (0 <= n_iter_tot i < ULONG_MODULUS)%Z ->
    let i' := fold_left record_call ks i in
    n_calls i' = (n_calls i + Z.of_nat (List.length ks))%Z
    /\ n_iter_tot i'
       = (fold_left Z.add ks (n_iter_tot i) mod ULONG_MODULUS)%Z
    /\ n_iter_max i' = fold_left Z.max ks (n_iter_max i)
    /\ n_iter_min i' = fold_left Z.min ks (n_iter_min i).
Proof.
  induction ks as [|k ks IH]; intros i Hc Hn Hmm Ht;
    cbn [fold_left List.length].
  - split; [lia|]. split; [symmetry; apply Z.mod_small; exact Ht|].
    split; reflexivity.
  - cbn [List.length] in Hn.
    destruct (record_call_later i k) as (E1 & E2 & E3 & E4); [lia|exact Hmm|].
    destruct (IH (record_call i k)) as (F1 & F2 & F3 & F4);
      [lia|lia|lia| |].
    { rewrite E2. apply Z.mod_pos_bound. unfold ULONG_MODULUS. lia. }
    cbv zeta in *. rewrite F1, F2, F3, F4, E1, E2, E3, E4.
    split; [lia|]. split; [|split; reflexivity].
    rewrite (fold_add_from ks ((n_iter_tot i + k) mod ULONG_MODULUS)%Z).
    rewrite (fold_add_from ks (n_iter_tot i + k)%Z).
    apply Zplus_mod_idemp_l.
Qed.

(** X8: the entry of a scheme that iterates holds the statistics of its
    calls, as long as the call count (an [unsigned]) has not wrapped: after
    the calls that took [k], then [ks], sweeps ([int] values, the first not
    negative), it holds their number, the total of the sweeps modulo 2^64
    (an [unsigned long]), their maximum and their minimum. *)

Theorem iteration_statistics (name : string) (type : cs_gradient_type_t)
        (k : Z) (ks : list Z) :
  (0 <= k)%Z -> is_int k -> Forall is_int ks ->
  (Z.of_nat (List.length ks) + 1 < UINT_MODULUS)%Z ->
  let i := fold_left record_call (k :: ks) (_gradient_info_create name type) in
  n_calls i = (Z.of_nat (List.length ks) + 1)%Z
  /\ n_iter_tot i = (fold_left Z.add ks k mod ULONG_MODULUS)%Z
  /\ n_iter_max i = fold_left Z.max ks k
  /\ n_iter_min i = fold_left Z.min ks k.
Proof.
  intros Hk Hik _ Hn. cbn [fold_left].
  set (i1 := record_call (_gradient_info_create name type) k).
  assert (H1 : n_calls i1 = 1%Z /\ n_iter_tot i1 = k
               /\ n_iter_max i1 = k /\ n_iter_min i1 = k).
  { unfold i1, record_call, _gradient_info_update_iter, _gradient_info_create.
    cbn [n_calls n_iter_min n_iter_max n_iter_tot Z.eqb].
    assert (Hsmall : ((0 + k) mod ULONG_MODULUS = k)%Z).
    { apply Z.mod_small. unfold is_int, INT_MAX, ULONG_MODULUS in *. lia. }
    destruct (Z.ltb_spec 0 k); [|destruct (Z.ltb_spec k 0)];
      cbn [info_called n_calls n_iter_min n_iter_max n_iter_tot];
      rewrite Hsmall; repeat split; lia. }
  destruct H1 as (E1 & E2 & E3 & E4).
  destruct (record_calls_later ks i1) as (F1 & F2 & F3 & F4);
    [lia|lia|lia| |].
  { rewrite E2. unfold is_int, INT_MAX, ULONG_MODULUS in *. lia. }
  cbv zeta in *. rewrite F1, F2, F3, F4, E1, E2, E3, E4.
  split; [lia|]. split; [reflexivity|]. split; reflexivity.
Qed.

Lemma iteration_statistics_witness :
  (0 <= 3)%Z /\ is_int 3 /\ Forall is_int [1; 2]%Z
  /\ (Z.of_nat (List.length [1; 2]%Z) + 1 < UINT_MODULUS)%Z
  /\ n_iter_min (fold_left record_call [3; 1; 2]%Z
                   (_gradient_info_create "p" CS_GRADIENT_GREEN_ITER))
     = 1%Z.
Proof.
  assert (H3 : is_int 3) by (unfold is_int, INT_MIN, INT_MAX; lia).
  assert (Hks : Forall is_int [1; 2]%Z)
    by (repeat constructor; unfold INT_MIN, INT_MAX; lia).
  assert (Hn : (Z.of_nat (List.length [1; 2]%Z) + 1 < UINT_MODULUS)%Z)
    by (unfold UINT_MODULUS; cbn; lia).
  split; [lia|]. split; [exact H3|]. split; [exact Hks|]. split; [exact Hn|].
  exact (proj2 (proj2 (proj2 (iteration_statistics "p" CS_GRADIENT_GREEN_ITER
                                3 [1; 2]%Z ltac:(lia) H3 Hks Hn)))).
Defined.

(** ** Solving on an increment *)

Ltac drop_coefa coefap coefap' :=
  repeat match goal with
  | |- context [coefap ?f * 0] =>
      replace (coefap f * 0) with (coefap' f * 0) by ring
  | |- context [0 * coefap ?f] =>
      replace (0 * coefap f) with (0 * coefap' f) by ring
  end.

Section Increment.

Variables (g : cs_glob_t) (m : cs_mesh_t) (fvq : cs_mesh_quantities_t).
Variable cpl : option cs_internal_coupling_t.
Variables coefap coefap' coefbp : array R.

Lemma initialize_increment w_stride hyd_p_flag f_ext pvar c_weight :
  _initialize_scalar_gradient g m fvq cpl w_stride hyd_p_flag 0 f_ext
    coefap coefbp pvar c_weight
  = _initialize_scalar_gradient g m fvq cpl w_stride hyd_p_flag 0 f_ext
      coefap' coefbp pvar c_weight.
Proof.
  unfold _initialize_scalar_gradient. cbv zeta.
  destruct (hyd_p_flag =? 1)%Z.
  - rewrite (fold_left_ext_in
               (init_b_face_hyd g m fvq 0 f_ext coefap coefbp pvar)
               (init_b_face_hyd g m fvq 0 f_ext coefap' coefbp pvar));
      [reflexivity|].
    intros a f_id _. unfold init_b_face_hyd.
    drop_coefa coefap coefap'. reflexivity.
  - rewrite (fold_left_ext_in
               (init_b_face m fvq cpl 0 coefap coefbp pvar)
               (init_b_face m fvq cpl 0 coefap' coefbp pvar));
      [reflexivity|].
    intros a f_id _. unfold init_b_face.
    drop_coefa coefap coefap'. reflexivity.
Qed.

Lemma sweep_increment_mode w c_weight hyd_p_flag f_ext pvar cocg grad :
  sweep g m fvq cpl w c_weight hyd_p_flag 0 f_ext coefap coefbp pvar cocg grad
  = sweep g m fvq cpl w c_weight hyd_p_flag 0 f_ext coefap' coefbp pvar
          cocg grad.
Proof.
  unfold sweep. cbv zeta.
  destruct (hyd_p_flag =? 1)%Z.
  - rewrite (fold_left_ext_in
               (sweep_b_face_hyd g m fvq 0 f_ext coefap coefbp pvar grad)
               (sweep_b_face_hyd g m fvq 0 f_ext coefap' coefbp pvar grad));
      [reflexivity|].
    intros a f_id _. unfold sweep_b_face_hyd.
    drop_coefa coefap coefap'. reflexivity.
  - rewrite (fold_left_ext_in
               (sweep_b_face m fvq cpl 0 coefap coefbp pvar grad)
               (sweep_b_face m fvq cpl 0 coefap' coefbp pvar grad));
      [reflexivity|].
    intros a f_id _. unfold sweep_b_face.
    drop_coefa coefap coefap'. reflexivity.
Qed.

Lemma iterative_increment w_stride var_name gradient_info nswrgp hyd_p_flag
      verbosity epsrgp f_ext pvar c_weight store log grad :
  _iterative_scalar_gradient g m fvq cpl w_stride var_name gradient_info
    nswrgp hyd_p_flag verbosity 0 epsrgp f_ext coefap coefbp pvar c_weight
    store log grad
  = _iterative_scalar_gradient g m fvq cpl w_stride var_name gradient_info
      nswrgp hyd_p_flag verbosity 0 epsrgp f_ext coefap' coefbp pvar
      c_weight store log grad.
Proof.
  unfold _iterative_scalar_gradient.
  destruct (nswrgp <? 1)%Z; [reflexivity|]. cbv zeta.
  match goal with
  | |- context [let '(_, _) := ?p in _] => destruct p as [cocg store1]
  end.
  destruct (Rle_dec _ _); [reflexivity|].
  rewrite (sweep_loop_ext g m
             (sweep g m fvq cpl (weighting_of w_stride c_weight) c_weight
                    hyd_p_flag 0 f_ext coefap coefbp pvar cocg)
             (sweep g m fvq cpl (weighting_of w_stride c_weight) c_weight
                    hyd_p_flag 0 f_ext coefap' coefbp pvar cocg));
    [reflexivity|].
  intros grad0. apply sweep_increment_mode.
Qed.

Lemma lsq_increment halo_type recompute_cocg pvar c_weight store grad :
  _lsq_scalar_gradient g m fvq cpl halo_type recompute_cocg 0 coefap coefbp
    pvar c_weight store grad
  = _lsq_scalar_gradient g m fvq cpl halo_type recompute_cocg 0 coefap'
      coefbp pvar c_weight store grad.
Proof.
  unfold _lsq_scalar_gradient.
  destruct (_get_cell_cocg_lsq g m halo_type fvq None store) as [[s c] cb].
  rewrite (fold_left_ext_in (lsq_b_face m fvq cpl 0 coefap coefbp)
                            (lsq_b_face m fvq cpl 0 coefap' coefbp));
    [reflexivity|].
  intros a f_id _. unfold lsq_b_face.
  drop_coefa coefap coefap'. reflexivity.
Qed.

Lemma ani_increment pvar c_weight_t c_weight grad :
  _lsq_scalar_gradient_ani m fvq cpl 0 coefap coefbp pvar c_weight_t
    c_weight grad
  = _lsq_scalar_gradient_ani m fvq cpl 0 coefap' coefbp pvar c_weight_t
      c_weight grad.
Proof.
  unfold _lsq_scalar_gradient_ani. cbv zeta.
  destruct (fold_left (ani_i_face m fvq c_weight_t) (i_face_order m) _)
    as [cocg1 rhsv1].
  destruct (match cpl with Some _ => _ | None => _ end) as [cocg2 rhsv2].
  rewrite (fold_left_ext_in (ani_b_face m fvq cpl 0 coefap coefbp)
                            (ani_b_face m fvq cpl 0 coefap' coefbp));
    [reflexivity|].
  intros [cocg rhsv] f_id _. unfold ani_b_face.
  drop_coefa coefap coefap'. reflexivity.
Qed.

Lemma reconstruct_increment w_stride hyd_p_flag f_ext c_weight c_var r_grad :
  _reconstruct_scalar_gradient g m fvq cpl w_stride hyd_p_flag 0 f_ext
    coefap coefbp c_weight c_var r_grad
  = _reconstruct_scalar_gradient g m fvq cpl w_stride hyd_p_flag 0 f_ext
      coefap' coefbp c_weight c_var r_grad.
Proof.
  unfold _reconstruct_scalar_gradient. cbv zeta.
  destruct (hyd_p_flag =? 1)%Z.
  - rewrite (fold_left_ext_in
               (rec_b_face_hyd g m fvq 0 f_ext coefap coefbp c_var r_grad)
               (rec_b_face_hyd g m fvq 0 f_ext coefap' coefbp c_var r_grad));
      [reflexivity|].
    intros a f_id _. unfold rec_b_face_hyd.
    drop_coefa coefap coefap'. reflexivity.
  - rewrite (fold_left_ext_in
               (rec_b_face m fvq cpl 0 coefap coefbp c_var r_grad)
               (rec_b_face m fvq cpl 0 coefap' coefbp c_var r_grad));
      [reflexivity|].
    intros a f_id _. unfold rec_b_face.
    drop_coefa coefap coefap'. reflexivity.
Qed.

Lemma lsq_stage_increment
      drv var_name halo_type recompute_cocg w_stride verbosity clip_mode
      clip_coeff f_ext var c_weight env r_grad :
  lsq_stage g m fvq drv var_name halo_type 0 recompute_cocg 0 w_stride
    verbosity clip_mode clip_coeff f_ext coefap coefbp var c_weight cpl env
    r_grad
  = lsq_stage g m fvq drv var_name halo_type 0 recompute_cocg 0 w_stride
      verbosity clip_mode clip_coeff f_ext coefap' coefbp var c_weight cpl
      env r_grad.
Proof.
  unfold lsq_stage.
  destruct (w_stride =? 6)%Z; destruct c_weight as [cw|]; cbn [negb Z.eqb];
    try (rewrite ani_increment; reflexivity);
    rewrite lsq_increment; reflexivity.
Qed.

End Increment.

Lemma gradient_scalar_increment
      g m fvq drv compute_count r_grad_alloc var_name gradient_type halo_type
      check n_r_sweeps hyd_p_flag w_stride verbosity clip_mode epsilon
      clip_coeff f_ext bc_coeff_a bc_coeff_a' bc_coeff_b var c_weight cpl st
      env grad :
  hyd_p_flag = 0%Z \/ gradient_type = CS_GRADIENT_GREEN_ITER ->
  _gradient_scalar g m fvq drv compute_count r_grad_alloc var_name
    gradient_type halo_type 0 check n_r_sweeps hyd_p_flag w_stride verbosity
    clip_mode epsilon clip_coeff f_ext bc_coeff_a bc_coeff_b var c_weight cpl
    st env grad
  = _gradient_scalar g m fvq drv compute_count r_grad_alloc var_name
      gradient_type halo_type 0 check n_r_sweeps hyd_p_flag w_stride verbosity
      clip_mode epsilon clip_coeff f_ext bc_coeff_a' bc_coeff_b var c_weight
      cpl st env grad.
Proof.
  intros Hhyd. unfold _gradient_scalar. cbv zeta.
  set (coefap := match bc_coeff_a with Some a => a | None => fun _ => 0 end).
  set (coefap' := match bc_coeff_a' with Some a => a | None => fun _ => 0 end).
  set (coefbp := match bc_coeff_b with Some b => b | None => fun _ => 1 end).
  clearbody coefap coefap' coefbp.
  destruct gradient_type.
  - rewrite (initialize_increment g m fvq cpl coefap coefap').
    rewrite (iterative_increment g m fvq cpl coefap coefap').
    reflexivity.
  - destruct Hhyd as [->|Hh]; [|discriminate Hh].
    rewrite (lsq_stage_increment g m fvq cpl coefap coefap').
    reflexivity.
  - destruct Hhyd as [->|Hh]; [|discriminate Hh].
    rewrite (lsq_stage_increment g m fvq cpl coefap coefap').
    destruct (lsq_stage _ _ _ _ _ _ _ _ _ _ _ _ _ _ _ _ _ _ _ _ _) as [rg en].
    rewrite (reconstruct_increment g m fvq cpl coefap coefap').
    reflexivity.
  - reflexivity.
Qed.

(** X9: when solving on an increment ([inc = 0]) the additive boundary term
    [a] is not used: the scalar gradient, and the state left behind, are the
    same for any two arrays handed in for it (for the least-squares schemes,
    without the hydrostatic treatment, whose driver is not embedded). *)

Theorem increment_ignores_bc_coeff_a
        (g : cs_glob_t) (m : cs_mesh_t) (fvq : cs_mesh_quantities_t)
        (drv : cs_gradient_drivers_t) (compute_count : Z)
        (r_grad_alloc : array cs_real_3_t)
        (var_name : string) (gradient_type : cs_gradient_type_t)
        (halo_type : cs_halo_type_t)
        (n_r_sweeps hyd_p_flag w_stride verbosity clip_mode : Z)
        (epsilon clip_coeff : R) (f_ext : array cs_real_3_t)
        (bc_coeff_a bc_coeff_a' bc_coeff_b : option (array R)) (var : array R)
        (c_weight : option (array R))
        (cpl : option cs_internal_coupling_t)
        (gl : cs_gradient_globals_t) (grad : array cs_real_3_t) :
  hyd_p_flag = 0%Z \/ gradient_type = CS_GRADIENT_GREEN_ITER ->
  cs_gradient_scalar g m fvq drv compute_count r_grad_alloc var_name
    gradient_type halo_type 0 n_r_sweeps hyd_p_flag w_stride verbosity
    clip_mode epsilon clip_coeff f_ext bc_coeff_a bc_coeff_b var c_weight cpl
    gl grad
  = cs_gradient_scalar g m fvq drv compute_count r_grad_alloc var_name
      gradient_type halo_type 0 n_r_sweeps hyd_p_flag w_stride verbosity
      clip_mode epsilon clip_coeff f_ext bc_coeff_a' bc_coeff_b var c_weight
      cpl gl grad
  /\ cs_gradient_scalar_synced_input g m fvq drv compute_count r_grad_alloc
       var_name gradient_type halo_type 0 n_r_sweeps hyd_p_flag w_stride
       verbosity clip_mode epsilon clip_coeff f_ext bc_coeff_a bc_coeff_b var
       c_weight cpl gl grad
     = cs_gradient_scalar_synced_input g m fvq drv compute_count r_grad_alloc
         var_name gradient_type halo_type 0 n_r_sweeps hyd_p_flag w_stride
         verbosity clip_mode epsilon clip_coeff f_ext bc_coeff_a' bc_coeff_b
         var c_weight cpl gl grad.
Proof.
  intros Hhyd. split.
  - unfold cs_gradient_scalar.
    destruct (_find_or_add_system var_name gradient_type
                (cs_glob_gradient_systems gl)) as [id systems].
    destruct (halo m); cbv zeta; cbn iota;
      rewrite (gradient_scalar_increment g m fvq drv compute_count
                 r_grad_alloc var_name gradient_type halo_type false
                 n_r_sweeps hyd_p_flag w_stride verbosity clip_mode epsilon
                 clip_coeff _ bc_coeff_a bc_coeff_a') by assumption;
      reflexivity.
  - unfold cs_gradient_scalar_synced_input.
    destruct (_find_or_add_system var_name gradient_type
                (cs_glob_gradient_systems gl)) as [id systems].
    cbv zeta.
    rewrite (gradient_scalar_increment g m fvq drv compute_count r_grad_alloc
               var_name gradient_type halo_type true n_r_sweeps hyd_p_flag
               w_stride verbosity clip_mode epsilon clip_coeff _ bc_coeff_a
               bc_coeff_a') by assumption.
    reflexivity.
Qed.

Lemma increment_ignores_bc_coeff_a_witness :
  cs_gradient_scalar Examples.glob0 Examples.mesh_1 Examples.fvq_unit
    Examples.drivers_idle 0 (fun _ => zero3) "p" CS_GRADIENT_LSQ
    CS_HALO_STANDARD 0 2 0 1 0 CS_GRADIENT_LIMIT_NONE (/ 10) 1
    Examples.f_ext_zero (Some (fun _ => 5)) None Examples.var_zero
    None None globals_initial Examples.grad_x
  = cs_gradient_scalar Examples.glob0 Examples.mesh_1 Examples.fvq_unit
      Examples.drivers_idle 0 (fun _ => zero3) "p" CS_GRADIENT_LSQ
      CS_HALO_STANDARD 0 2 0 1 0 CS_GRADIENT_LIMIT_NONE (/ 10) 1
      Examples.f_ext_zero None None Examples.var_zero None None
      globals_initial Examples.grad_x.
Proof.
  exact (proj1 (increment_ignores_bc_coeff_a Examples.glob0 Examples.mesh_1
                  Examples.fvq_unit Examples.drivers_idle 0 (fun _ => zero3)
                  "p" CS_GRADIENT_LSQ CS_HALO_STANDARD 2 0 1 0
                  CS_GRADIENT_LIMIT_NONE (/ 10) 1 Examples.f_ext_zero
                  (Some (fun _ => 5)) None None Examples.var_zero
                  None None globals_initial Examples.grad_x
                  (or_introl eq_refl))).
Defined.
(** ** The exterior force is read by the hydrostatic treatment only *)

Section ExteriorForce.

Variables (g : cs_glob_t) (m : cs_mesh_t) (fvq : cs_mesh_quantities_t).
Variable cpl : option cs_internal_coupling_t.
Variable hyd_p_flag : Z.
Variables f_ext f_ext' : array cs_real_3_t.

Hypothesis Hhyd : hyd_p_flag <> 1%Z.

Lemma hyd_test : (hyd_p_flag =? 1)%Z = false.
Proof. apply Z.eqb_neq. exact Hhyd. Qed.

Lemma initialize_f_ext w_stride inc coefap coefbp pvar c_weight :
  _initialize_scalar_gradient g m fvq cpl w_stride hyd_p_flag inc f_ext
    coefap coefbp pvar c_weight
  = _initialize_scalar_gradient g m fvq cpl w_stride hyd_p_flag inc f_ext'
      coefap coefbp pvar c_weight.
Proof.
  unfold _initialize_scalar_gradient. cbv zeta.
  destruct (hyd_p_flag =? 1)%Z eqn:E;
    [rewrite hyd_test in E; discriminate E|reflexivity].
Qed.

Lemma sweep_f_ext w c_weight inc coefap coefbp pvar cocg grad :
  sweep g m fvq cpl w c_weight hyd_p_flag inc f_ext coefap coefbp pvar cocg
        grad
  = sweep g m fvq cpl w c_weight hyd_p_flag inc f_ext' coefap coefbp pvar
          cocg grad.
Proof.
  unfold sweep. cbv zeta.
  destruct (hyd_p_flag =? 1)%Z eqn:E;
    [rewrite hyd_test in E; discriminate E|reflexivity].
Qed.

Lemma iterative_f_ext w_stride var_name gradient_info nswrgp verbosity inc
      epsrgp coefap coefbp pvar c_weight store log grad :
  _iterative_scalar_gradient g m fvq cpl w_stride var_name gradient_info
    nswrgp hyd_p_flag verbosity inc epsrgp f_ext coefap coefbp pvar c_weight
    store log grad
  = _iterative_scalar_gradient g m fvq cpl w_stride var_name gradient_info
      nswrgp hyd_p_flag verbosity inc epsrgp f_ext' coefap coefbp pvar
      c_weight store log grad.
Proof.
  unfold _iterative_scalar_gradient.
  destruct (nswrgp <? 1)%Z; [reflexivity|]. cbv zeta.
  match goal with
  | |- context [let '(_, _) := ?p in _] => destruct p as [cocg store1]
  end.
  destruct (Rle_dec _ _); [reflexivity|].
  rewrite (sweep_loop_ext g m
             (sweep g m fvq cpl (weighting_of w_stride c_weight) c_weight
                    hyd_p_flag inc f_ext coefap coefbp pvar cocg)
             (sweep g m fvq cpl (weighting_of w_stride c_weight) c_weight
                    hyd_p_flag inc f_ext' coefap coefbp pvar cocg));
    [reflexivity|].
  intros grad0. apply sweep_f_ext.
Qed.

Lemma reconstruct_f_ext w_stride inc coefap coefbp c_weight c_var r_grad :
  _reconstruct_scalar_gradient g m fvq cpl w_stride hyd_p_flag inc f_ext
    coefap coefbp c_weight c_var r_grad
  = _reconstruct_scalar_gradient g m fvq cpl w_stride hyd_p_flag inc f_ext'
      coefap coefbp c_weight c_var r_grad.
Proof.
  unfold _reconstruct_scalar_gradient. cbv zeta.
  destruct (hyd_p_flag =? 1)%Z eqn:E;
    [rewrite hyd_test in E; discriminate E|reflexivity].
Qed.

End ExteriorForce.

Lemma lsq_stage_f_ext
      g m fvq drv var_name halo_type inc recompute_cocg w_stride verbosity
      clip_mode clip_coeff f_ext f_ext' coefap coefbp var c_weight cpl env
      r_grad :
  lsq_stage g m fvq drv var_name halo_type inc recompute_cocg 0 w_stride
    verbosity clip_mode clip_coeff f_ext coefap coefbp var c_weight cpl env
    r_grad
  = lsq_stage g m fvq drv var_name halo_type inc recompute_cocg 0 w_stride
      verbosity clip_mode clip_coeff f_ext' coefap coefbp var c_weight cpl
      env r_grad.
Proof.
  unfold lsq_stage. change (negb (0 =? 0)%Z) with false. cbv iota.
  reflexivity.
Qed.

Lemma gradient_scalar_f_ext
      g m fvq drv compute_count r_grad_alloc var_name gradient_type halo_type
      inc check n_r_sweeps hyd_p_flag w_stride verbosity clip_mode epsilon
      clip_coeff f_ext f_ext' bc_coeff_a bc_coeff_b var c_weight cpl st env
      grad :
  hyd_p_flag = 0%Z
  \/ (gradient_type = CS_GRADIENT_GREEN_ITER /\ hyd_p_flag <> 1%Z) ->
  _gradient_scalar g m fvq drv compute_count r_grad_alloc var_name
    gradient_type halo_type inc check n_r_sweeps hyd_p_flag w_stride verbosity
    clip_mode epsilon clip_coeff f_ext bc_coeff_a bc_coeff_b var c_weight cpl
    st env grad
  = _gradient_scalar g m fvq drv compute_count r_grad_alloc var_name
      gradient_type halo_type inc check n_r_sweeps hyd_p_flag w_stride
      verbosity clip_mode epsilon clip_coeff f_ext' bc_coeff_a bc_coeff_b var
      c_weight cpl st env grad.
Proof.
  intros Hhyd.
  assert (Hne : hyd_p_flag <> 1%Z) by (destruct Hhyd as [->|[_ H]]; [lia|exact H]).
  unfold _gradient_scalar. cbv zeta.
  destruct gradient_type.
  - rewrite (initialize_f_ext g m fvq cpl hyd_p_flag f_ext f_ext' Hne).
    rewrite (iterative_f_ext g m fvq cpl hyd_p_flag f_ext f_ext' Hne).
    reflexivity.
  - destruct Hhyd as [->|[Hh _]]; [|discriminate Hh].
    rewrite (lsq_stage_f_ext g m fvq drv var_name halo_type inc _ w_stride
               verbosity clip_mode clip_coeff f_ext f_ext').
    reflexivity.
  - destruct Hhyd as [->|[Hh _]]; [|discriminate Hh].
    rewrite (lsq_stage_f_ext g m fvq drv var_name halo_type inc _ w_stride
               verbosity clip_mode clip_coeff f_ext f_ext').
    destruct (lsq_stage _ _ _ _ _ _ _ _ _ _ _ _ _ _ _ _ _ _ _ _ _) as [rg en].
    rewrite (reconstruct_f_ext g m fvq cpl 0 f_ext f_ext') by lia.
    reflexivity.
  - reflexivity.
Qed.

(** X10: the exterior force [f_ext] is read only by the hydrostatic
    treatment: without it ([hyd_p_flag = 0]), and for the iterative scheme
    whenever the flag is not 1, the scalar gradient and the state left
    behind are the same whatever array is handed in for [f_ext], at both
    scalar entry points. *)

Theorem exterior_force_unused
        (g : cs_glob_t) (m : cs_mesh_t) (fvq : cs_mesh_quantities_t)
        (drv : cs_gradient_drivers_t) (compute_count : Z)
        (r_grad_alloc : array cs_real_3_t)
        (var_name : string) (gradient_type : cs_gradient_type_t)
        (halo_type : cs_halo_type_t)
        (inc n_r_sweeps hyd_p_flag w_stride verbosity clip_mode : Z)
        (epsilon clip_coeff : R) (f_ext f_ext' : array cs_real_3_t)
        (bc_coeff_a bc_coeff_b : option (array R)) (var : array R)
        (c_weight : option (array R))
        (cpl : option cs_internal_coupling_t)
        (gl : cs_gradient_globals_t) (grad : array cs_real_3_t) :
  hyd_p_flag = 0%Z
  \/ (gradient_type = CS_GRADIENT_GREEN_ITER /\ hyd_p_flag <> 1%Z) ->
  cs_gradient_scalar g m fvq drv compute_count r_grad_alloc var_name
    gradient_type halo_type inc n_r_sweeps hyd_p_flag w_stride verbosity
    clip_mode epsilon clip_coeff f_ext bc_coeff_a bc_coeff_b var c_weight cpl
    gl grad
  = cs_gradient_scalar g m fvq drv compute_count r_grad_alloc var_name
      gradient_type halo_type inc n_r_sweeps hyd_p_flag w_stride verbosity
      clip_mode epsilon clip_coeff f_ext' bc_coeff_a bc_coeff_b var c_weight
      cpl gl grad
  /\ cs_gradient_scalar_synced_input g m fvq drv compute_count r_grad_alloc
       var_name gradient_type halo_type inc n_r_sweeps hyd_p_flag w_stride
       verbosity clip_mode epsilon clip_coeff f_ext bc_coeff_a bc_coeff_b var
       c_weight cpl gl grad
     = cs_gradient_scalar_synced_input g m fvq drv compute_count r_grad_alloc
         var_name gradient_type halo_type inc n_r_sweeps hyd_p_flag w_stride
         verbosity clip_mode epsilon clip_coeff f_ext' bc_coeff_a bc_coeff_b
         var c_weight cpl gl grad.
Proof.
  intros Hhyd.
  assert (Hne : (hyd_p_flag =? 1)%Z = false).
  { apply Z.eqb_neq. destruct Hhyd as [->|[_ H]]; [lia|exact H]. }
  split.
  - unfold cs_gradient_scalar. rewrite Hne.
    destruct (_find_or_add_system var_name gradient_type
                (cs_glob_gradient_systems gl)) as [id systems].
    destruct (halo m). cbv zeta. cbn iota. 
    rewrite (gradient_scalar_f_ext g m fvq drv compute_count r_grad_alloc
                 var_name gradient_type halo_type inc false n_r_sweeps
                 hyd_p_flag w_stride verbosity clip_mode epsilon clip_coeff
                 f_ext f_ext') by assumption.
    reflexivity.
    cbv zeta. cbn iota. 
    rewrite (gradient_scalar_f_ext g m fvq drv compute_count r_grad_alloc
                 var_name gradient_type halo_type inc false n_r_sweeps
                 hyd_p_flag w_stride verbosity clip_mode epsilon clip_coeff
                 f_ext f_ext') by assumption.
    reflexivity.
  - unfold cs_gradient_scalar_synced_input. rewrite Hne. cbv zeta.
    destruct (_find_or_add_system var_name gradient_type
                (cs_glob_gradient_systems gl)) as [id systems].
    rewrite (gradient_scalar_f_ext g m fvq drv compute_count r_grad_alloc
               var_name gradient_type halo_type inc true n_r_sweeps
               hyd_p_flag w_stride verbosity clip_mode epsilon clip_coeff
               f_ext f_ext') by assumption.
    reflexivity.
Qed.

Lemma exterior_force_unused_witness :
  cs_gradient_scalar Examples.glob0 Examples.mesh_1 Examples.fvq_unit
    Examples.drivers_idle 0 (fun _ => zero3) "p" CS_GRADIENT_GREEN_ITER
    CS_HALO_STANDARD 1 2 2 1 0 CS_GRADIENT_LIMIT_NONE (/ 10) 1
    Examples.f_ext_x None None Examples.var_zero None None globals_initial
    Examples.grad_x
  = cs_gradient_scalar Examples.glob0 Examples.mesh_1 Examples.fvq_unit
      Examples.drivers_idle 0 (fun _ => zero3) "p" CS_GRADIENT_GREEN_ITER
      CS_HALO_STANDARD 1 2 2 1 0 CS_GRADIENT_LIMIT_NONE (/ 10) 1
      Examples.f_ext_zero None None Examples.var_zero None None
      globals_initial Examples.grad_x.
Proof.
  assert (H : 2%Z = 0%Z \/ (CS_GRADIENT_GREEN_ITER = CS_GRADIENT_GREEN_ITER /\ 2%Z <> 1%Z)).
  { right. split; [reflexivity|discriminate]. }
  pose proof (exterior_force_unused Examples.glob0 Examples.mesh_1
                  Examples.fvq_unit Examples.drivers_idle 0 (fun _ => zero3)
                  "p" CS_GRADIENT_GREEN_ITER CS_HALO_STANDARD 1 2 2 1 0
                  CS_GRADIENT_LIMIT_NONE (/ 10) 1 Examples.f_ext_x
                  Examples.f_ext_zero None None Examples.var_zero None None
                  globals_initial Examples.grad_x H) as H2.
  exact (proj1 H2).
Defined.
(** ** Least-squares gradient of an affine field *)

Lemma fold_left_rel2 {A A' B : Type} (Rel : A -> A' -> Prop)
      (f : A -> B -> A) (f' : A' -> B -> A') (l : list B) (a : A) (a' : A') :
  Rel a a' ->
  (forall a a' b, In b l -> Rel a a' -> Rel (f a b) (f' a' b)) ->
  Rel (fold_left f l a) (fold_left f' l a').
Proof.
  revert a a'. induction l as [|x l IH]; intros a a' H0 H; simpl; [exact H0|].
  apply IH.
  - apply H; [left; reflexivity|exact H0].
  - intros a1 a1' b Hb. apply H. right. exact Hb.
Qed.

Lemma cocg_times_add (C : cs_cocg_6_t) (dc G : cs_real_3_t) (D : R) :
  cocg_times_rhs (cocg_add_scaled C dc (1 / D)) G
  = add3 (cocg_times_rhs C G) (times3 dc (dot3 G dc / D)).
Proof.
  unfold cocg_times_rhs, cocg_add_scaled, add3, times3, dot3. cbn.
  unfold Rdiv. f_equal; ring.
Qed.

Lemma cramer_solves (M : cs_cocg_6_t) (G : cs_real_3_t) :
  det_6 M <> 0 ->
  cocg_times_rhs (Kernels._math_6_inv_cramer_sym_in_place M)
                 (cocg_times_rhs M G) = G.
Proof.
  intros Hdet. destruct M as [c0 c1 c2 c3 c4 c5], G as [gx gy gz].
  unfold det_6 in Hdet.
  unfold Kernels._math_6_inv_cramer_sym_in_place, cocg_times_rhs. cbn in *.
  f_equal; field; exact Hdet.
Qed.

Section AffineField.

Variables (m : cs_mesh_t) (fvq : cs_mesh_quantities_t).
Variables (G : cs_real_3_t) (k : R) (pvar : array R).

Hypothesis Haffine : affine_field fvq G k pvar.

Lemma affine_difference (ii jj : nat) :
  pvar jj - pvar ii = dot3 G (sub3 (cell_cen fvq jj) (cell_cen fvq ii)).
Proof. rewrite (Haffine jj), (Haffine ii). unfold dot3, sub3. cbn. ring. Qed.

Lemma lsq_i_face_consistent cocg rhsv f_id :
  lsq_consistent G pvar cocg rhsv ->
  lsq_consistent G pvar (cocg_lsq_i_face m fvq cocg f_id)
                 (lsq_i_face m fvq None rhsv f_id).
Proof.
  intros H c. unfold cocg_lsq_i_face, lsq_i_face. cbv zeta.
  set (ii := fst (i_face_cells m f_id)).
  set (jj := snd (i_face_cells m f_id)).
  set (dc := sub3 (cell_cen fvq jj) (cell_cen fvq ii)).
  set (D := cx dc * cx dc + cy dc * cy dc + cz dc * cz dc).
  destruct (H ii) as [Hvi Hpi]. destruct (H jj) as [Hvj Hpj].
  rewrite Hpi, Hpj, (affine_difference ii jj). fold dc.
  unfold upd.
  destruct (Nat.eqb_spec c jj) as [Hcj|Hcj];
    [destruct (Nat.eqb_spec jj ii) as [Hji|Hji]
    |destruct (Nat.eqb_spec c ii) as [Hci|Hci]];
    cbn [rhs_add rhs_v rhs_p]; rewrite ?cocg_times_add;
    try (split; [congruence|assumption || congruence]).
  - destruct (H c) as [Hv Hp]. split; assumption.
Qed.

Lemma lsq_ext_consistent cocg rhsv ii jj :
  lsq_consistent G pvar cocg rhsv ->
  lsq_consistent G pvar (cocg_lsq_neighbour fvq ii cocg jj)
                 (lsq_ext fvq ii rhsv jj).
Proof.
  intros H c. unfold cocg_lsq_neighbour, lsq_ext. cbv zeta.
  set (dc := sub3 (cell_cen fvq jj) (cell_cen fvq ii)).
  set (D := cx dc * cx dc + cy dc * cy dc + cz dc * cz dc).
  destruct (H ii) as [Hvi Hpi]. destruct (H jj) as [Hvj Hpj].
  rewrite Hpi, Hpj, (affine_difference ii jj). fold dc.
  unfold upd.
  destruct (Nat.eqb_spec c ii) as [Hci|Hci];
    cbn [rhs_add rhs_v rhs_p]; rewrite ?cocg_times_add.
  - split; congruence.
  - apply H.
Qed.

End AffineField.

Section LsqExact.

Variables (g : cs_glob_t) (m : cs_mesh_t) (fvq : cs_mesh_quantities_t).
Variables (G : cs_real_3_t) (k : R) (pvar : array R).

Hypothesis Haffine : affine_field fvq G k pvar.
Hypothesis Hb : b_faces_on_b_cells m.

Lemma interior_consistent (halo_type : cs_halo_type_t) :
  lsq_consistent G pvar
    (cocg_lsq_interior m (is_extended m halo_type) fvq)
    (ext_loop m halo_type (lsq_ext fvq)
       (fold_left (lsq_i_face m fvq None) (i_face_order m)
                  (fun c_id => R4 zero3 (pvar c_id)))).
Proof.
  assert (H1 : lsq_consistent G pvar
                 (fold_left (cocg_lsq_i_face m fvq) (i_face_order m)
                            (fun _ => zero6))
                 (fold_left (lsq_i_face m fvq None) (i_face_order m)
                            (fun c_id => R4 zero3 (pvar c_id)))).
  { apply (fold_left_rel2 (lsq_consistent G pvar)).
    - intros c. cbn [rhs_v rhs_p]. split; [|reflexivity].
      unfold cocg_times_rhs, zero3, zero6. cbn. f_equal; ring.
    - intros a a' f_id _ H. apply (lsq_i_face_consistent m fvq G k pvar Haffine).
      exact H. }
  unfold cocg_lsq_interior, ext_loop, is_extended. cbv zeta.
  destruct (cell_cells_idx m) as [idx|];
    destruct (halo_type_eqb halo_type CS_HALO_EXTENDED); cbn [andb];
    try exact H1.
  unfold for_loop. apply (fold_left_rel2 (lsq_consistent G pvar)); [exact H1|].
  intros a a' ii _ H.
  apply (fold_left_rel2 (lsq_consistent G pvar)); [exact H|].
  intros b b' jj _ H'.
  apply (lsq_ext_consistent fvq G k pvar Haffine). exact H'.
Qed.

Lemma not_b_cell_face (c f_id : nat) :
  ~ is_b_cell m c -> In f_id (b_face_order m) -> b_face_cells m f_id <> c.
Proof.
  intros Hc Hf E. apply Hc. destruct (Hb f_id Hf) as (ii & Hii & Hcell).
  exists ii. split; [exact Hii|]. congruence.
Qed.

Lemma lsq_b_faces_other cpl inc coefap coefbp (rhsv : array cs_real_4_t) c :
  ~ is_b_cell m c ->
  fold_left (lsq_b_face m fvq cpl inc coefap coefbp) (b_face_order m) rhsv c
  = rhsv c.
Proof.
  intros Hc.
  apply (fold_left_inv (fun a => a c = rhsv c)); [reflexivity|].
  intros a f_id Hf Ha. unfold lsq_b_face.
  destruct (is_coupled cpl f_id); [exact Ha|]. cbv zeta.
  rewrite upd_other; [exact Ha|].
  intros E. apply (not_b_cell_face c f_id Hc Hf). symmetry. exact E.
Qed.

Lemma sym_b_faces_other (cocg : array cs_cocg_6_t) c :
  ~ is_b_cell m c ->
  fold_left (cocg_lsq_b_face_sym g m fvq None) (b_face_order m) cocg c
  = cocg c.
Proof.
  intros Hc.
  apply (fold_left_inv (fun a => a c = cocg c)); [reflexivity|].
  intros a f_id Hf Ha. unfold cocg_lsq_b_face_sym. cbn [is_coupled]. cbv zeta.
  rewrite upd_other; [exact Ha|].
  intros E. apply (not_b_cell_face c f_id Hc Hf). symmetry. exact E.
Qed.

Lemma recompute_other coefbp (cocgb cocg : array cs_cocg_6_t) c :
  ~ is_b_cell m c ->
  _recompute_lsq_scalar_cocg m fvq None coefbp cocgb cocg c = cocg c.
Proof.
  intros Hc. unfold _recompute_lsq_scalar_cocg. cbv zeta.
  assert (Hcell : forall ii, (ii < n_b_cells m)%nat -> b_cells m ii <> c).
  { intros ii Hii E. apply Hc. exists ii. split; assumption. }
  rewrite invert_cells_other by exact Hcell.
  rewrite recompute_b_faces_gather, b_face_terms_nil by assumption.
  cbn [fold_left]. unfold restore_b_cells.
  apply (map_cells_other (n_b_cells m) (b_cells m) (fun _ ii => cocgb ii)).
  exact Hcell.
Qed.

Lemma compute_at (halo_type : cs_halo_type_t) c :
  (c < n_cells m)%nat -> ~ is_b_cell m c ->
  fst (_compute_cell_cocg_lsq g m (is_extended m halo_type) fvq None) c
  = Kernels._math_6_inv_cramer_sym_in_place
      (cocg_lsq_interior m (is_extended m halo_type) fvq c).
Proof.
  intros Hn Hc.
  change (fst (_compute_cell_cocg_lsq g m (is_extended m halo_type) fvq None))
    with (invert_cells (n_cells m) (fun c_id => c_id)
            (fold_left (cocg_lsq_b_face_sym g m fvq None) (b_face_order m)
                       (cocg_lsq_interior m (is_extended m halo_type) fvq))).
  rewrite (invert_cells_at (n_cells m) (fun c_id => c_id) _ c);
    [|intros i j _ _ E; exact E|exact Hn].
  rewrite sym_b_faces_other by exact Hc. reflexivity.
Qed.

Lemma get_cell_cocg_empty (halo_type : cs_halo_type_t) (store : gq_store) :
  lsq_cache_empty m halo_type store ->
  snd (fst (_get_cell_cocg_lsq g m halo_type fvq None store))
  = fst (_compute_cell_cocg_lsq g m (is_extended m halo_type) fvq None).
Proof.
  unfold lsq_cache_empty, _get_cell_cocg_lsq. cbn [gq_id_of]. cbv zeta.
  intros He. rewrite He.
  destruct (_compute_cell_cocg_lsq g m (is_extended m halo_type) fvq None)
    as [cocg cocgb].
  cbn [fst snd].
  assert (Hlen : (0 < List.length (_gradient_quantities_get 0 store))%nat).
  { unfold _gradient_quantities_get.
    destruct (Nat.leb_spec (List.length store) 0).
    - rewrite length_app, repeat_length. lia.
    - lia. }
  destruct (_gradient_quantities_get 0 store) as [|q rest];
    [cbn in Hlen; lia|].
  unfold gq_at. cbn [gq_set nth].
  unfold gq_cocg_lsq, gq_with_lsq.
  destruct (is_extended m halo_type); reflexivity.
Qed.

End LsqExact.

Lemma sync_keeps_owned (m : cs_mesh_t) (ht : cs_halo_type_t)
      (a : array cs_real_3_t) (c : nat) :
  halo_keeps_owned m -> (c < n_cells m)%nat ->
  _sync_scalar_gradient_halo m ht a c = a c.
Proof.
  intros Hh Hc. unfold _sync_scalar_gradient_halo.
  destruct (halo m) as [h|] eqn:Eh; [|reflexivity].
  destruct (Hh h Eh ht c Hc) as (_ & Hs & Hp).
  destruct (have_rotation_perio m); [rewrite Hp|]; apply Hs.
Qed.

(** X11: in exact arithmetic, on a field that is affine in the cell
    centres, the least-squares driver, starting from an empty cache,
    returns the slope of the field at every owned cell that touches no
    boundary face and whose covariance sum is regular (a binary64 run
    returns the slope up to rounding). *)

Theorem lsq_exact_on_affine
        (g : cs_glob_t) (m : cs_mesh_t) (fvq : cs_mesh_quantities_t)
        (halo_type : cs_halo_type_t) (recompute_cocg : bool) (inc : R)
        (coefap coefbp pvar : array R) (G : cs_real_3_t) (k : R)
        (store : gq_store) (grad : array cs_real_3_t) (c : nat) :
  b_faces_on_b_cells m -> halo_keeps_owned m -> centres_distinct m fvq ->
  affine_field fvq G k pvar ->
  lsq_cache_empty m halo_type store ->
  (c < n_cells m)%nat -> ~ is_b_cell m c ->
  det_6 (cocg_lsq_interior m (is_extended m halo_type) fvq c) <> 0 ->
  fst (_lsq_scalar_gradient g m fvq None halo_type recompute_cocg inc coefap
         coefbp pvar None store grad) c
  = G.
Proof.
  intros Hb Hhalo _ Haffine Hempty Hc Hnb Hdet.
  pose proof (get_cell_cocg_empty g m fvq halo_type store Hempty) as Hget.
  pose proof (interior_consistent m fvq G k pvar Haffine halo_type c)
    as [Hv _].
  unfold _lsq_scalar_gradient.
  destruct (_get_cell_cocg_lsq g m halo_type fvq None store)
    as [[store1 cocg] cocgb].
  cbn [fst snd] in Hget. subst cocg.
  assert (Hsolve : forall cocg',
            cocg' c = fst (_compute_cell_cocg_lsq g m
                             (is_extended m halo_type) fvq None) c ->
            _sync_scalar_gradient_halo m CS_HALO_STANDARD
              (solve_cells m cocg'
                 (fold_left (lsq_b_face m fvq None inc coefap coefbp)
                    (b_face_order m)
                    (ext_loop m halo_type (lsq_ext fvq)
                       (fold_left (lsq_i_face m fvq None) (i_face_order m)
                          (fun c_id => R4 zero3 (pvar c_id)))))
                 grad) c = G).
  { intros cocg' Hcocg.
    rewrite sync_keeps_owned by assumption.
    rewrite solve_cells_owned by exact Hc.
    rewrite (lsq_b_faces_other m fvq Hb) by exact Hnb.
    rewrite Hcocg, (compute_at g m fvq Hb) by assumption.
    rewrite Hv. apply cramer_solves. exact Hdet. }
  destruct recompute_cocg; cbv zeta; cbn [fst]; apply Hsolve.
  - apply (recompute_other m fvq Hb). exact Hnb.
  - reflexivity.
Qed.

(** *** The star-shaped mesh of [Cases] *)

Lemma star_affine :
  affine_field Cases.fvq_star (R3 1 2 3) 0 Cases.var_affine.
Proof.
  intros [|[|[|c]]]; unfold dot3; cbn; lra.
Qed.

Lemma star_interior_sum :
  cocg_lsq_interior Cases.mesh_star
    (is_extended Cases.mesh_star CS_HALO_STANDARD) Cases.fvq_star 0%nat
  = Cocg 1 1 1 0 0 0.
Proof.
  unfold cocg_lsq_interior, is_extended. cbn [halo_type_eqb andb].
  cbv zeta. unfold i_face_order. cbn.
  unfold cocg_lsq_i_face, upd. cbn.
  unfold cocg_add_scaled, sub3, zero6. cbn.
  f_equal; field; lra.
Qed.

Lemma lsq_exact_on_affine_witness :
  b_faces_on_b_cells Cases.mesh_star
  /\ halo_keeps_owned Cases.mesh_star
  /\ centres_distinct Cases.mesh_star Cases.fvq_star
  /\ affine_field Cases.fvq_star (R3 1 2 3) 0 Cases.var_affine
  /\ fst (_lsq_scalar_gradient Examples.glob0 Cases.mesh_star Cases.fvq_star
            None CS_HALO_STANDARD true 1 Examples.coefa_zero
            Examples.coefb_one Cases.var_affine None [] Examples.grad_x) 0%nat
     = R3 1 2 3.
Proof.
  assert (Hb : b_faces_on_b_cells Cases.mesh_star).
  { intros f_id Hf. cbv in Hf. contradiction. }
  assert (Hh : halo_keeps_owned Cases.mesh_star)
    by (apply no_halo_keeps_owned; reflexivity).
  assert (Hd : centres_distinct Cases.mesh_star Cases.fvq_star).
  { split.
    - intros f_id Hf. unfold i_face_order in Hf. cbn in Hf.
      destruct Hf as [<-|[<-|[<-|[]]]]; unfold dot3, sub3; cbn; lra.
    - intros idx ii jj Hidx. discriminate Hidx. }
  split; [exact Hb|]. split; [exact Hh|]. split; [exact Hd|].
  split; [exact star_affine|].
  apply (lsq_exact_on_affine Examples.glob0 Cases.mesh_star Cases.fvq_star
           CS_HALO_STANDARD true 1 Examples.coefa_zero Examples.coefb_one
           Cases.var_affine (R3 1 2 3) 0 [] Examples.grad_x 0%nat Hb Hh Hd
           star_affine).
  - reflexivity.
  - cbn. lia.
  - intros (ii & Hii & _). cbn in Hii. lia.
  - rewrite star_interior_sum. unfold det_6. cbn. lra.
Defined.
(** ** The gradient of a field shifted by a constant *)

Lemma ext_loop_rel {S : Type} (Rel : S -> S -> Prop) (m : cs_mesh_t)
      (halo_type : cs_halo_type_t) (body body' : nat -> S -> nat -> S)
      (s s' : S) :
  Rel s s' ->
  (forall ii jj t t', Rel t t' -> Rel (body ii t jj) (body' ii t' jj)) ->
  Rel (ext_loop m halo_type body s) (ext_loop m halo_type body' s').
Proof.
  intros H0 H. unfold ext_loop.
  destruct (cell_cells_idx m) as [idx|]; [|exact H0].
  destruct (halo_type_eqb halo_type CS_HALO_EXTENDED); [|exact H0].
  apply for_loop_rel; [exact H0|]. intros t t' ii _ Ht.
  apply fold_left_rel; [exact Ht|]. intros a a' jj _ Ha. apply H. exact Ha.
Qed.

Ltac unshift pvar k :=
  repeat match goal with
  | |- context [pvar ?a + k - (pvar ?b + k)] =>
      replace (pvar a + k - (pvar b + k)) with (pvar a - pvar b) by ring
  | |- context [(1 - 1) * (pvar ?a + k)] =>
      replace ((1 - 1) * (pvar a + k)) with ((1 - 1) * pvar a) by ring
  end.

Section ShiftedField.

Variables (g : cs_glob_t) (m : cs_mesh_t) (fvq : cs_mesh_quantities_t).
Variables (coefap coefbp pvar : array R) (k : R).

Hypothesis Hcoefb :
  forall f_id, In f_id (b_face_order m) -> coefbp f_id = 1.

Local Abbreviation shifted := (fun c : nat => pvar c + k).

Lemma initialize_shift w_stride hyd_p_flag inc f_ext c_weight :
  _initialize_scalar_gradient g m fvq None w_stride hyd_p_flag inc f_ext
    coefap coefbp shifted c_weight
  = _initialize_scalar_gradient g m fvq None w_stride hyd_p_flag inc f_ext
      coefap coefbp pvar c_weight.
Proof.
  unfold _initialize_scalar_gradient. cbv zeta.
  destruct (hyd_p_flag =? 1)%Z.
  - rewrite (fold_left_ext_in
               (init_i_face_hyd g m fvq (weighting_of w_stride c_weight)
                                f_ext shifted)
               (init_i_face_hyd g m fvq (weighting_of w_stride c_weight)
                                f_ext pvar)).
    2:{ intros a f_id _. unfold init_i_face_hyd. cbv zeta.
        unshift pvar k. reflexivity. }
    rewrite (fold_left_ext_in
               (init_b_face_hyd g m fvq inc f_ext coefap coefbp shifted)
               (init_b_face_hyd g m fvq inc f_ext coefap coefbp pvar));
      [reflexivity|].
    intros a f_id Hf. unfold init_b_face_hyd. cbv zeta.
    rewrite (Hcoefb f_id Hf). unshift pvar k. reflexivity.
  - rewrite (fold_left_ext_in
               (init_i_face m fvq (weighting_of w_stride c_weight) shifted)
               (init_i_face m fvq (weighting_of w_stride c_weight) pvar)).
    2:{ intros a f_id _. unfold init_i_face. cbv zeta.
        unshift pvar k. reflexivity. }
    rewrite (fold_left_ext_in
               (init_b_face m fvq None inc coefap coefbp shifted)
               (init_b_face m fvq None inc coefap coefbp pvar));
      [reflexivity|].
    intros a f_id Hf. unfold init_b_face. cbn [is_coupled]. cbv zeta.
    rewrite (Hcoefb f_id Hf). unshift pvar k. reflexivity.
Qed.

Lemma sweep_shift w c_weight hyd_p_flag inc f_ext cocg grad :
  sweep g m fvq None w c_weight hyd_p_flag inc f_ext coefap coefbp shifted
        cocg grad
  = sweep g m fvq None w c_weight hyd_p_flag inc f_ext coefap coefbp pvar
          cocg grad.
Proof.
  unfold sweep. cbv zeta.
  destruct (hyd_p_flag =? 1)%Z.
  - rewrite (fold_left_ext_in
               (sweep_i_face_hyd g m fvq w f_ext shifted grad)
               (sweep_i_face_hyd g m fvq w f_ext pvar grad)).
    2:{ intros a f_id _. unfold sweep_i_face_hyd. cbv zeta.
        unshift pvar k. reflexivity. }
    rewrite (fold_left_ext_in
               (sweep_b_face_hyd g m fvq inc f_ext coefap coefbp shifted grad)
               (sweep_b_face_hyd g m fvq inc f_ext coefap coefbp pvar grad));
      [reflexivity|].
    intros a f_id Hf. unfold sweep_b_face_hyd. cbv zeta.
    rewrite (Hcoefb f_id Hf). unshift pvar k. reflexivity.
  - rewrite (fold_left_ext_in
               (sweep_i_face m fvq w shifted grad)
               (sweep_i_face m fvq w pvar grad)).
    2:{ intros a f_id _. unfold sweep_i_face. cbv zeta.
        unshift pvar k. reflexivity. }
    rewrite (fold_left_ext_in
               (sweep_b_face m fvq None inc coefap coefbp shifted grad)
               (sweep_b_face m fvq None inc coefap coefbp pvar grad));
      [reflexivity|].
    intros a f_id Hf. unfold sweep_b_face. cbn [is_coupled]. cbv zeta.
    rewrite (Hcoefb f_id Hf). unshift pvar k. reflexivity.
Qed.

Lemma iterative_shift w_stride var_name gradient_info nswrgp hyd_p_flag
      verbosity inc epsrgp f_ext c_weight store log grad :
  _iterative_scalar_gradient g m fvq None w_stride var_name gradient_info
    nswrgp hyd_p_flag verbosity inc epsrgp f_ext coefap coefbp shifted
    c_weight store log grad
  = _iterative_scalar_gradient g m fvq None w_stride var_name gradient_info
      nswrgp hyd_p_flag verbosity inc epsrgp f_ext coefap coefbp pvar
      c_weight store log grad.
Proof.
  unfold _iterative_scalar_gradient.
  destruct (nswrgp <? 1)%Z; [reflexivity|]. cbv zeta.
  match goal with
  | |- context [let '(_, _) := ?p in _] => destruct p as [cocg store1]
  end.
  destruct (Rle_dec _ _); [reflexivity|].
  rewrite (sweep_loop_ext g m
             (sweep g m fvq None (weighting_of w_stride c_weight) c_weight
                    hyd_p_flag inc f_ext coefap coefbp shifted cocg)
             (sweep g m fvq None (weighting_of w_stride c_weight) c_weight
                    hyd_p_flag inc f_ext coefap coefbp pvar cocg));
    [reflexivity|].
  intros grad0. apply sweep_shift.
Qed.

Lemma reconstruct_shift w_stride hyd_p_flag inc f_ext c_weight r_grad :
  _reconstruct_scalar_gradient g m fvq None w_stride hyd_p_flag inc f_ext
    coefap coefbp c_weight shifted r_grad
  = _reconstruct_scalar_gradient g m fvq None w_stride hyd_p_flag inc f_ext
      coefap coefbp c_weight pvar r_grad.
Proof.
  unfold _reconstruct_scalar_gradient. cbv zeta.
  destruct (hyd_p_flag =? 1)%Z.
  - rewrite (fold_left_ext_in
               (rec_i_face_hyd g m fvq (weighting_of w_stride c_weight)
                               f_ext shifted r_grad)
               (rec_i_face_hyd g m fvq (weighting_of w_stride c_weight)
                               f_ext pvar r_grad)).
    2:{ intros a f_id _. unfold rec_i_face_hyd. cbv zeta.
        unshift pvar k. reflexivity. }
    rewrite (fold_left_ext_in
               (rec_b_face_hyd g m fvq inc f_ext coefap coefbp shifted r_grad)
               (rec_b_face_hyd g m fvq inc f_ext coefap coefbp pvar r_grad));
      [reflexivity|].
    intros a f_id Hf. unfold rec_b_face_hyd. cbv zeta.
    rewrite (Hcoefb f_id Hf). unshift pvar k. reflexivity.
  - rewrite (fold_left_ext_in
               (rec_i_face m fvq (weighting_of w_stride c_weight) shifted
                           r_grad)
               (rec_i_face m fvq (weighting_of w_stride c_weight) pvar
                           r_grad)).
    2:{ intros a f_id _. unfold rec_i_face. cbv zeta.
        unshift pvar k. reflexivity. }
    rewrite (fold_left_ext_in
               (rec_b_face m fvq None inc coefap coefbp shifted r_grad)
               (rec_b_face m fvq None inc coefap coefbp pvar r_grad));
      [reflexivity|].
    intros a f_id Hf. unfold rec_b_face. cbn [is_coupled]. cbv zeta.
    rewrite (Hcoefb f_id Hf). unshift pvar k. reflexivity.
Qed.

End ShiftedField.

(** *** Least-squares drivers and clipping *)

Section ShiftedLsq.

Variables (g : cs_glob_t) (m : cs_mesh_t) (fvq : cs_mesh_quantities_t).
Variables (coefap coefbp pvar : array R) (k : R).

Hypothesis Hcoefb :
  forall f_id, In f_id (b_face_order m) -> coefbp f_id = 1.

Local Abbreviation shifted := (fun c : nat => pvar c + k).

Lemma rhs_shift_eq (r r' : cs_real_4_t) (v : cs_real_3_t) :
  rhs_v r' = rhs_v r -> rhs_p r' = rhs_p r + k ->
  rhs_v (rhs_add r' v) = rhs_v (rhs_add r v)
  /\ rhs_p (rhs_add r' v) = rhs_p (rhs_add r v) + k.
Proof. intros Hv Hp. cbn. rewrite Hv. split; [reflexivity|exact Hp]. Qed.

Lemma lsq_i_face_shift c_weight rhsv rhsv' f_id :
  rhs_shifted k rhsv rhsv' ->
  rhs_shifted k (lsq_i_face m fvq c_weight rhsv f_id)
              (lsq_i_face m fvq c_weight rhsv' f_id).
Proof.
  intros H c. unfold lsq_i_face. cbv zeta.
  set (ii := fst (i_face_cells m f_id)).
  set (jj := snd (i_face_cells m f_id)).
  destruct (H ii) as [Hvi Hpi]. destruct (H jj) as [Hvj Hpj].
  destruct (H c) as [Hvc Hpc].
  rewrite Hpi, Hpj.
  replace (rhs_p (rhsv jj) + k - (rhs_p (rhsv ii) + k))
    with (rhs_p (rhsv jj) - rhs_p (rhsv ii)) by ring.
  destruct c_weight as [cw|]; unfold upd;
    (destruct (Nat.eqb_spec c jj) as [Hcj|Hcj];
     [destruct (Nat.eqb_spec jj ii) as [Hji|Hji]
     |destruct (Nat.eqb_spec c ii) as [Hci|Hci]]);
    cbn [rhs_add rhs_v rhs_p]; rewrite ?Hvi, ?Hvj, ?Hvc;
    split; try reflexivity; assumption.
Qed.

Lemma lsq_ext_shift ii jj rhsv rhsv' :
  rhs_shifted k rhsv rhsv' ->
  rhs_shifted k (lsq_ext fvq ii rhsv jj) (lsq_ext fvq ii rhsv' jj).
Proof.
  intros H c. unfold lsq_ext. cbv zeta.
  destruct (H ii) as [Hvi Hpi]. destruct (H jj) as [Hvj Hpj].
  destruct (H c) as [Hvc Hpc].
  rewrite Hpi, Hpj.
  replace (rhs_p (rhsv jj) + k - (rhs_p (rhsv ii) + k))
    with (rhs_p (rhsv jj) - rhs_p (rhsv ii)) by ring.
  unfold upd. destruct (Nat.eqb_spec c ii);
    cbn [rhs_add rhs_v rhs_p]; rewrite ?Hvi, ?Hvc;
    split; try reflexivity; assumption.
Qed.

Lemma lsq_b_face_shift inc rhsv rhsv' f_id :
  In f_id (b_face_order m) ->
  rhs_shifted k rhsv rhsv' ->
  rhs_shifted k (lsq_b_face m fvq None inc coefap coefbp rhsv f_id)
              (lsq_b_face m fvq None inc coefap coefbp rhsv' f_id).
Proof.
  intros Hf H c. unfold lsq_b_face. cbn [is_coupled]. cbv zeta.
  set (ii := b_face_cells m f_id).
  destruct (H ii) as [Hvi Hpi]. destruct (H c) as [Hvc Hpc].
  rewrite (Hcoefb f_id Hf), Hpi.
  replace ((1 - 1) * (rhs_p (rhsv ii) + k))
    with ((1 - 1) * rhs_p (rhsv ii)) by ring.
  unfold upd. destruct (Nat.eqb_spec c ii);
    cbn [rhs_add rhs_v rhs_p]; rewrite ?Hvi, ?Hvc;
    split; try reflexivity; assumption.
Qed.

Lemma solve_cells_shift cocg rhsv rhsv' grad :
  rhs_shifted k rhsv rhsv' ->
  solve_cells m cocg rhsv' grad = solve_cells m cocg rhsv grad.
Proof.
  intros H. unfold solve_cells, for_loop. apply fold_left_ext_in.
  intros a c _. rewrite (proj1 (H c)). reflexivity.
Qed.

Lemma lsq_shift halo_type recompute_cocg inc c_weight store grad :
  _lsq_scalar_gradient g m fvq None halo_type recompute_cocg inc coefap coefbp
    shifted c_weight store grad
  = _lsq_scalar_gradient g m fvq None halo_type recompute_cocg inc coefap
      coefbp pvar c_weight store grad.
Proof.
  unfold _lsq_scalar_gradient.
  destruct (_get_cell_cocg_lsq g m halo_type fvq None store) as [[s c] cb].
  match goal with
  | |- context [let '(_, _) := ?p in _] => destruct p as [cocg store1]
  end.
  cbv zeta.
  rewrite (solve_cells_shift cocg
             (fold_left (lsq_b_face m fvq None inc coefap coefbp)
                (b_face_order m)
                (ext_loop m halo_type (lsq_ext fvq)
                   (fold_left (lsq_i_face m fvq c_weight) (i_face_order m)
                      (fun c_id => R4 zero3 (pvar c_id))))));
    [reflexivity|].
  apply (fold_left_rel (rhs_shifted k)).
  - apply (ext_loop_rel (rhs_shifted k)).
    + apply (fold_left_rel (rhs_shifted k)).
      * intros c0. cbn. split; reflexivity.
      * intros a a' f_id _ Ha. apply lsq_i_face_shift. exact Ha.
    + intros ii jj t t' Ht. apply lsq_ext_shift. exact Ht.
  - intros a a' f_id Hf Ha. apply lsq_b_face_shift; assumption.
Qed.

Lemma ani_shift inc c_weight_t c_weight grad :
  _lsq_scalar_gradient_ani m fvq None inc coefap coefbp shifted c_weight_t
    c_weight grad
  = _lsq_scalar_gradient_ani m fvq None inc coefap coefbp pvar c_weight_t
      c_weight grad.
Proof.
  unfold _lsq_scalar_gradient_ani. cbv zeta.
  set (Rel := fun st st' : array cs_cocg_6_t * array cs_real_4_t =>
                fst st' = fst st /\ rhs_shifted k (snd st) (snd st')).
  assert (Hrel :
    Rel
      (fold_left (ani_b_face m fvq None inc coefap coefbp) (b_face_order m)
         (fold_left (ani_i_face m fvq c_weight_t) (i_face_order m)
            (fun _ => zero6, fun c_id => R4 zero3 (pvar c_id))))
      (fold_left (ani_b_face m fvq None inc coefap coefbp) (b_face_order m)
         (fold_left (ani_i_face m fvq c_weight_t) (i_face_order m)
            (fun _ => zero6, fun c_id => R4 zero3 (pvar c_id + k))))).
  { apply (fold_left_rel Rel).
    - apply (fold_left_rel Rel).
      + unfold Rel. cbn [fst snd]. split; [reflexivity|].
        intros c0. cbn. split; reflexivity.
      + intros [cocg rhsv] [cocg' rhsv'] f_id _ [Hc H]. unfold Rel.
        cbn [fst snd] in Hc, H. subst cocg'.
        unfold ani_i_face. cbv zeta.
        set (ii := fst (i_face_cells m f_id)).
        set (jj := snd (i_face_cells m f_id)).
        destruct (_compute_ani_weighting_cocg _ _ _ _) as [dc_i dc_j].
        destruct (H ii) as [Hvi Hpi]. destruct (H jj) as [Hvj Hpj].
        rewrite Hpi, Hpj.
        replace (rhs_p (rhsv jj) + k - (rhs_p (rhsv ii) + k))
          with (rhs_p (rhsv jj) - rhs_p (rhsv ii)) by ring.
        unfold _compute_ani_weighting.
        destruct (_compute_ani_weighting_cocg _ _ _ _) as [ki_d kj_d].
        cbn [fst snd]. split; [reflexivity|].
        intros c0. destruct (H c0) as [Hvc Hpc]. unfold upd.
        destruct (Nat.eqb_spec c0 jj); [|destruct (Nat.eqb_spec c0 ii)];
          unfold ani_add; cbn [rhs_v rhs_p]; rewrite ?Hvi, ?Hvj, ?Hvc;
          split; try reflexivity; assumption.
    - intros [cocg rhsv] [cocg' rhsv'] f_id Hf [Hc H]. unfold Rel.
      cbn [fst snd] in Hc, H. subst cocg'.
      unfold ani_b_face. cbn [is_coupled]. cbv zeta.
      set (ii := b_face_cells m f_id).
      destruct (H ii) as [Hvi Hpi].
      rewrite (Hcoefb f_id Hf), Hpi.
      replace ((1 - 1) * (rhs_p (rhsv ii) + k))
        with ((1 - 1) * rhs_p (rhsv ii)) by ring.
      cbn [fst snd]. split; [reflexivity|].
      intros c0. destruct (H c0) as [Hvc Hpc]. unfold upd.
      destruct (Nat.eqb_spec c0 ii);
        cbn [rhs_add rhs_v rhs_p]; rewrite ?Hvi, ?Hvc;
        split; try reflexivity; assumption. }
  unfold Rel in Hrel. clear Rel.
  destruct (fold_left (ani_b_face m fvq None inc coefap coefbp) (b_face_order m)
              (fold_left (ani_i_face m fvq c_weight_t) (i_face_order m)
                 (fun _ => zero6, fun c_id => R4 zero3 (pvar c_id))))
    as [cocg rhsv] eqn:E.
  destruct (fold_left (ani_b_face m fvq None inc coefap coefbp) (b_face_order m)
              (fold_left (ani_i_face m fvq c_weight_t) (i_face_order m)
                 (fun _ => zero6, fun c_id => R4 zero3 (pvar c_id + k))))
    as [cocg' rhsv'] eqn:E'.
  cbn [fst snd] in Hrel. destruct Hrel as [-> Hrel].
  destruct (fold_left (ani_i_face m fvq c_weight_t) (i_face_order m)
              (fun _ => zero6, fun c_id => R4 zero3 (pvar c_id)))
    as [cocg1 rhsv1].
  destruct (fold_left (ani_i_face m fvq c_weight_t) (i_face_order m)
              (fun _ => zero6, fun c_id => R4 zero3 (pvar c_id + k)))
    as [cocg1' rhsv1'].
  rewrite E, E'.
  rewrite (solve_cells_shift _ rhsv rhsv') by exact Hrel.
  reflexivity.
Qed.

Lemma clipping_shift halo_type clip_mode verbosity climgp var_name grad log :
  _scalar_gradient_clipping g m fvq halo_type clip_mode verbosity climgp
                            var_name shifted grad log
  = _scalar_gradient_clipping g m fvq halo_type clip_mode verbosity climgp
                              var_name pvar grad log.
Proof.
  unfold _scalar_gradient_clipping. cbv zeta.
  destruct (clip_mode <=? CS_GRADIENT_LIMIT_NONE)%Z; [reflexivity|].
  set (grad1 := match halo m with Some h => _ | None => grad end).
  assert (Hcell :
    ext_loop m halo_type (clip_cell_ext fvq shifted grad1)
      (fold_left (clip_cell_i_face m fvq shifted grad1) (i_face_order m)
                 (fun _ => 0, fun _ => 0))
    = ext_loop m halo_type (clip_cell_ext fvq pvar grad1)
        (fold_left (clip_cell_i_face m fvq pvar grad1) (i_face_order m)
                   (fun _ => 0, fun _ => 0))).
  { apply (ext_loop_rel eq).
    - apply fold_left_ext_in. intros [dn dm] f_id _.
      unfold clip_cell_i_face. cbv zeta. unshift pvar k. reflexivity.
    - intros ii jj [dn dm] t' <-. unfold clip_cell_ext. cbv zeta.
      unshift pvar k. reflexivity. }
  assert (Hface :
    ext_loop m halo_type (clip_face_ext fvq shifted grad1)
      (fold_left (clip_face_i_face m fvq shifted grad1) (i_face_order m)
                 (fun _ => 0, fun _ => 0))
    = ext_loop m halo_type (clip_face_ext fvq pvar grad1)
        (fold_left (clip_face_i_face m fvq pvar grad1) (i_face_order m)
                   (fun _ => 0, fun _ => 0))).
  { apply (ext_loop_rel eq).
    - apply fold_left_ext_in. intros [dn dm] f_id _.
      unfold clip_face_i_face. cbv zeta. unshift pvar k. reflexivity.
    - intros ii jj [dn dm] t' <-. unfold clip_face_ext. cbv zeta.
      unshift pvar k. reflexivity. }
  rewrite Hcell, Hface. reflexivity.
Qed.

End ShiftedLsq.

Lemma lsq_stage_shift
      g m fvq drv var_name halo_type inc recompute_cocg w_stride verbosity
      clip_mode clip_coeff f_ext coefap coefbp var k c_weight env r_grad :
  (forall f_id, In f_id (b_face_order m) -> coefbp f_id = 1) ->
  lsq_stage g m fvq drv var_name halo_type inc recompute_cocg 0 w_stride
    verbosity clip_mode clip_coeff f_ext coefap coefbp (fun c => var c + k)
    c_weight None env r_grad
  = lsq_stage g m fvq drv var_name halo_type inc recompute_cocg 0 w_stride
      verbosity clip_mode clip_coeff f_ext coefap coefbp var c_weight None env
      r_grad.
Proof.
  intros Hb. unfold lsq_stage. change (negb (0 =? 0)%Z) with false. cbv iota.
  destruct (w_stride =? 6)%Z; destruct c_weight as [cw|];
    try rewrite (ani_shift m fvq coefap coefbp var k Hb);
    try rewrite (lsq_shift g m fvq coefap coefbp var k Hb);
    try (destruct (_lsq_scalar_gradient _ _ _ _ _ _ _ _ _ _ _ _ _)
           as [rg st]);
    rewrite (clipping_shift g m fvq var k); reflexivity.
Qed.

Lemma gradient_scalar_shift
      g m fvq drv compute_count r_grad_alloc var_name gradient_type halo_type
      inc check n_r_sweeps hyd_p_flag w_stride verbosity clip_mode epsilon
      clip_coeff f_ext bc_coeff_a bc_coeff_b var k c_weight st env grad :
  neumann_b m bc_coeff_b ->
  hyd_p_flag = 0%Z \/ gradient_type = CS_GRADIENT_GREEN_ITER ->
  _gradient_scalar g m fvq drv compute_count r_grad_alloc var_name
    gradient_type halo_type inc check n_r_sweeps hyd_p_flag w_stride verbosity
    clip_mode epsilon clip_coeff f_ext bc_coeff_a bc_coeff_b
    (fun c => var c + k) c_weight None st env grad
  = _gradient_scalar g m fvq drv compute_count r_grad_alloc var_name
      gradient_type halo_type inc check n_r_sweeps hyd_p_flag w_stride
      verbosity clip_mode epsilon clip_coeff f_ext bc_coeff_a bc_coeff_b var
      c_weight None st env grad.
Proof.
  intros Hnb Hhyd. unfold _gradient_scalar. cbv zeta.
  set (coefap := match bc_coeff_a with Some a => a | None => fun _ => 0 end).
  set (coefbp := match bc_coeff_b with Some b => b | None => fun _ => 1 end).
  assert (Hb : forall f_id, In f_id (b_face_order m) -> coefbp f_id = 1).
  { intros f_id Hf. unfold coefbp. destruct bc_coeff_b as [b|]; [|reflexivity].
    exact (Hnb f_id Hf). }
  clearbody coefap coefbp.
  destruct gradient_type.
  - rewrite (initialize_shift g m fvq coefap coefbp var k Hb).
    rewrite (iterative_shift g m fvq coefap coefbp var k Hb).
    reflexivity.
  - destruct Hhyd as [->|Hh]; [|discriminate Hh].
    rewrite (lsq_stage_shift g m fvq drv var_name halo_type inc _ w_stride
               verbosity clip_mode clip_coeff f_ext coefap coefbp var k
               c_weight env grad Hb).
    reflexivity.
  - destruct Hhyd as [->|Hh]; [|discriminate Hh].
    rewrite (lsq_stage_shift g m fvq drv var_name halo_type inc _ w_stride
               verbosity clip_mode clip_coeff f_ext coefap coefbp var k
               c_weight env r_grad_alloc Hb).
    destruct (lsq_stage _ _ _ _ _ _ _ _ _ _ _ _ _ _ _ _ _ _ _ _ _) as [rg en].
    rewrite (reconstruct_shift g m fvq coefap coefbp var k Hb).
    reflexivity.
  - reflexivity.
Qed.

(** X12: in exact arithmetic and on a geometry that is not degenerate
    for the scheme and the weighting asked for, with a clip coefficient
    that is not negative, boundary coefficients [b] equal to 1 on the
    boundary faces (as with the default) and no internal coupling, the
    scalar gradient depends on the field only up to an additive constant:
    shifting the (synchronized) field by [k] changes neither the gradient
    nor the state left behind (for the least-squares schemes, without the
    hydrostatic treatment, whose driver is not embedded). *)

Theorem gradient_shift_invariant
        (g : cs_glob_t) (m : cs_mesh_t) (fvq : cs_mesh_quantities_t)
        (drv : cs_gradient_drivers_t) (compute_count : Z)
        (r_grad_alloc : array cs_real_3_t)
        (var_name : string) (gradient_type : cs_gradient_type_t)
        (halo_type : cs_halo_type_t)
        (inc n_r_sweeps hyd_p_flag w_stride verbosity clip_mode : Z)
        (epsilon clip_coeff : R) (f_ext : array cs_real_3_t)
        (bc_coeff_a bc_coeff_b : option (array R)) (var : array R) (k : R)
        (c_weight : option (array R))
        (gl : cs_gradient_globals_t) (grad : array cs_real_3_t) :
  gradient_regular g m fvq None gradient_type halo_type w_stride bc_coeff_b
    c_weight (gl_store gl) ->
  0 <= clip_coeff ->
  neumann_b m bc_coeff_b ->
  hyd_p_flag = 0%Z \/ gradient_type = CS_GRADIENT_GREEN_ITER ->
  cs_gradient_scalar_synced_input g m fvq drv compute_count r_grad_alloc
    var_name gradient_type halo_type inc n_r_sweeps hyd_p_flag w_stride
    verbosity clip_mode epsilon clip_coeff f_ext bc_coeff_a bc_coeff_b
    (fun c => var c + k) c_weight None gl grad
  = cs_gradient_scalar_synced_input g m fvq drv compute_count r_grad_alloc
      var_name gradient_type halo_type inc n_r_sweeps hyd_p_flag w_stride
      verbosity clip_mode epsilon clip_coeff f_ext bc_coeff_a bc_coeff_b var
      c_weight None gl grad.
Proof.
  intros _ _ Hnb Hhyd.
  unfold cs_gradient_scalar_synced_input. cbv zeta.
  destruct (_find_or_add_system var_name gradient_type
              (cs_glob_gradient_systems gl)) as [id systems].
  rewrite (gradient_scalar_shift g m fvq drv compute_count r_grad_alloc
             var_name gradient_type halo_type inc true n_r_sweeps hyd_p_flag
             w_stride verbosity clip_mode epsilon clip_coeff _ bc_coeff_a
             bc_coeff_b var k) by assumption.
  reflexivity.
Qed.
(** ** The gradient of a uniform field *)

(** X13: in exact arithmetic and on a geometry that is not degenerate
    for the scheme and the weighting asked for (no divisor vanishes:
    volumes, distances, interpolated weights, determinants of the matrices
    that are inverted), a field equal to [k] in every cell, with
    homogeneous-Neumann boundary coefficients and without hydrostatic
    treatment or internal coupling, has a zero gradient on every owned
    cell, for the three schemes of the dispatch and whatever the
    clipping. *)

Theorem uniform_field_zero_gradient
        (g : cs_glob_t) (m : cs_mesh_t) (fvq : cs_mesh_quantities_t)
        (drv : cs_gradient_drivers_t) (compute_count : Z)
        (r_grad_alloc : array cs_real_3_t)
        (var_name : string) (gradient_type : cs_gradient_type_t)
        (halo_type : cs_halo_type_t)
        (inc n_r_sweeps w_stride verbosity clip_mode : Z)
        (epsilon clip_coeff : R) (f_ext : array cs_real_3_t)
        (bc_coeff_a bc_coeff_b : option (array R)) (k : R)
        (c_weight : option (array R))
        (gl : cs_gradient_globals_t) (grad : array cs_real_3_t) (c : nat) :
  mesh_in_range m -> halo_keeps_zero m -> globals_keep_zero g m ->
  gradient_type <> CS_GRADIENT_GREEN_VTX ->
  gradient_regular g m fvq None gradient_type halo_type w_stride bc_coeff_b
    c_weight (gl_store gl) ->
  neumann_a m bc_coeff_a -> neumann_b m bc_coeff_b ->
  (c < n_cells m)%nat ->
  fst (cs_gradient_scalar_synced_input g m fvq drv compute_count r_grad_alloc
         var_name gradient_type halo_type inc n_r_sweeps 0 w_stride verbosity
         clip_mode epsilon clip_coeff f_ext bc_coeff_a bc_coeff_b
         (fun _ => k) c_weight None gl grad) c = zero3.
Proof.
  intros Hmesh Hhalo Hg Hty _ Hna Hnb Hc.
  unfold cs_gradient_scalar_synced_input. cbv zeta.
  destruct (_find_or_add_system var_name gradient_type
              (cs_glob_gradient_systems gl)) as [id systems].
  cbn [fst].
  rewrite <- (gradient_scalar_shift g m fvq drv compute_count r_grad_alloc
                var_name gradient_type halo_type inc true n_r_sweeps 0
                w_stride verbosity clip_mode epsilon clip_coeff _ bc_coeff_a
                bc_coeff_b (fun _ => k) (- k)) by (auto; left; reflexivity).
  apply gradient_scalar_zero; try assumption.
  - apply no_coupling_keeps_zero.
  - intros c0 _. lra.
Qed.
(** ** Cell-based clipping applied twice *)

Lemma CS_ABS_scale (f : R) (d v : cs_real_3_t) :
  0 <= f -> CS_ABS (dot3 d (scale3 f v)) = f * CS_ABS (dot3 d v).
Proof.
  intros Hf.
  assert (E : dot3 d (scale3 f v) = f * dot3 d v).
  { unfold dot3, scale3. simpl. ring. }
  rewrite E. unfold CS_ABS.
  destruct (Rlt_dec (f * dot3 d v) 0) as [H|H];
    destruct (Rlt_dec (dot3 d v) 0) as [H'|H']; try ring; nra.
Qed.

Lemma CS_MAX_scale (f a b : R) :
  0 <= f -> CS_MAX (f * a) (f * b) = f * CS_MAX a b.
Proof.
  intros Hf. unfold CS_MAX.
  destruct (Rgt_dec (f * a) (f * b)) as [H|H];
    destruct (Rgt_dec a b) as [H'|H']; try reflexivity; nra.
Qed.

Section ClippedTwice.

Variables (m : cs_mesh_t) (fvq : cs_mesh_quantities_t) (var : array R).
Variables (grad grad' : array cs_real_3_t) (f : array R).
Hypothesis Hf : forall c, (c < n_cells m)%nat -> 0 <= f c.
Hypothesis Hgrad :
  forall c, (c < n_cells m)%nat -> grad' c = scale3 (f c) (grad c).

Lemma clip_cell_i_face_scaled st st' f_id :
  scaled_by (n_cells m) f st st' ->
  scaled_by (n_cells m) f (clip_cell_i_face m fvq var grad st f_id)
            (clip_cell_i_face m fvq var grad' st' f_id).
Proof.
  intros H c Hc. destruct st as [denum denom], st' as [denum' denom'].
  unfold clip_cell_i_face. cbn [fst snd].
  destruct (i_face_cells m f_id) as [ii jj]. cbn [fst snd].
  destruct (H c Hc) as [H1 H2]. cbn [fst snd] in H1, H2.
  unfold upd.
  destruct (Nat.eqb_spec c jj) as [Ej|Ej]; destruct (Nat.eqb_spec c ii) as [Ei|Ei];
    subst; rewrite ?Nat.eqb_refl.
  - rewrite Hgrad, CS_ABS_scale by auto.
    rewrite H1, H2. rewrite !CS_MAX_scale by auto. split; reflexivity.
  - destruct (Nat.eqb_spec jj ii); [congruence|].
    rewrite Hgrad, CS_ABS_scale by auto.
    rewrite H1, H2, CS_MAX_scale by auto. split; reflexivity.
  - rewrite Hgrad, CS_ABS_scale by auto.
    rewrite H1, H2, CS_MAX_scale by auto. split; reflexivity.
  - split; assumption.
Qed.

Lemma clip_cell_ext_scaled ii st st' jj :
  (ii < n_cells m)%nat ->
  scaled_by (n_cells m) f st st' ->
  scaled_by (n_cells m) f (clip_cell_ext fvq var grad ii st jj)
            (clip_cell_ext fvq var grad' ii st' jj).
Proof.
  intros Hii H c Hc. destruct st as [denum denom], st' as [denum' denom'].
  unfold clip_cell_ext. cbn [fst snd].
  destruct (H c Hc) as [H1 H2]. cbn [fst snd] in H1, H2.
  unfold upd. destruct (Nat.eqb_spec c ii) as [Ei|Ei].
  - subst c. rewrite Hgrad, CS_ABS_scale by auto.
    rewrite H1, H2, CS_MAX_scale by auto. split; reflexivity.
  - split; assumption.
Qed.

Lemma cell_clip_bounds_scaled halo_type :
  scaled_by (n_cells m) f (cell_clip_bounds m fvq halo_type var grad)
            (cell_clip_bounds m fvq halo_type var grad').
Proof.
  unfold cell_clip_bounds.
  assert (H0 : scaled_by (n_cells m) f
                 (fold_left (clip_cell_i_face m fvq var grad) (i_face_order m)
                            (fun _ => 0, fun _ => 0))
                 (fold_left (clip_cell_i_face m fvq var grad') (i_face_order m)
                            (fun _ => 0, fun _ => 0))).
  { apply (fold_left_rel2 (scaled_by (n_cells m) f)).
    - intros c _. cbn [fst snd]. split; [ring|reflexivity].
    - intros a a' b _ Ha. apply clip_cell_i_face_scaled. exact Ha. }
  unfold ext_loop. destruct (cell_cells_idx m) as [idx|]; [|exact H0].
  destruct (halo_type_eqb halo_type CS_HALO_EXTENDED); [|exact H0].
  unfold for_loop. apply (fold_left_rel2 (scaled_by (n_cells m) f)); [exact H0|].
  intros a a' ii Hii Ha.
  apply in_range in Hii.
  apply (fold_left_rel2 (scaled_by (n_cells m) f)); [exact Ha|].
  intros t t' jj _ Ht. apply clip_cell_ext_scaled; [lia|exact Ht].
Qed.

End ClippedTwice.

(** The loop that applies the factors visits each owned cell once. *)

Lemma clip_cell_loop climgp denum denom grad n c :
  acc_grad (for_loop 0 n (clip_cell_apply climgp denum denom)
                     (Clip_acc grad 1 0 0)) c
  = if (c <? n)%nat
    then scale3 (one_sided_factor climgp denum denom c) (grad c)
    else grad c.
Proof.
  revert c.
  apply (for_loop_ind
           (fun i a => forall c,
                acc_grad a c
                = if (c <? i)%nat
                  then scale3 (one_sided_factor climgp denum denom c) (grad c)
                  else grad c)); [lia| |].
  - intros c. reflexivity.
  - intros i t Hi IH c. unfold clip_cell_apply, one_sided_factor.
    pose proof (IH c) as Hc. pose proof (IH i) as Hii.
    rewrite Nat.ltb_irrefl in Hii.
    destruct (Rgt_dec (denum i) (climgp * denom i)) as [Hgt|Hle].
    + cbn [acc_grad]. unfold upd.
      destruct (Nat.eqb_spec c i) as [->|Hne].
      * replace (i <? S i)%nat with true by (symmetry; apply Nat.ltb_lt; lia).
        destruct (Rgt_dec (denum i) (climgp * denom i)); [|contradiction].
        rewrite Hii. reflexivity.
      * rewrite Hc.
        destruct (Nat.ltb_spec c i); destruct (Nat.ltb_spec c (S i));
          try reflexivity; lia.
    + rewrite Hc.
      destruct (Nat.ltb_spec c i); destruct (Nat.ltb_spec c (S i));
        try reflexivity; try lia.
      assert (c = i) by lia. subst c.
      destruct (Rgt_dec (denum i) (climgp * denom i)); [contradiction|].
      symmetry. apply scale3_one.
Qed.

(** What the cell-based clipping leaves at an owned cell. *)

Lemma clipping_cell_value
      g m fvq halo_type verbosity climgp var_name var grad log c :
  halo_keeps_owned m -> (c < n_cells m)%nat ->
  fst (_scalar_gradient_clipping g m fvq halo_type CS_GRADIENT_LIMIT_CELL
         verbosity climgp var_name var grad log) c
  = scale3 (one_sided_factor climgp
              (fst (cell_clip_bounds m fvq halo_type var grad))
              (snd (cell_clip_bounds m fvq halo_type var grad)) c)
           (grad c).
Proof.
  intros Hh Hcell. unfold _scalar_gradient_clipping.
  change (CS_GRADIENT_LIMIT_CELL <=? CS_GRADIENT_LIMIT_NONE)%Z with false.
  change (CS_GRADIENT_LIMIT_CELL =? CS_GRADIENT_LIMIT_FACE)%Z with false.
  change (CS_GRADIENT_LIMIT_CELL =? CS_GRADIENT_LIMIT_CELL)%Z with true.
  cbv beta iota.
  replace (match halo m with Some _ => grad | None => grad end) with grad
    by (destruct (halo m); reflexivity).
  fold (cell_clip_bounds m fvq halo_type var grad).
  destruct (cell_clip_bounds m fvq halo_type var grad) as [denum denom].
  cbv zeta. cbn [fst snd].
  match goal with
  | |- match halo m with Some h => _ | None => ?a end c = _ =>
      transitivity (a c)
  end.
  - apply final_sync_owned; assumption.
  - pose proof (clip_cell_loop climgp denum denom grad (n_cells m) c) as Hl.
    replace (c <? n_cells m)%nat with true in Hl
      by (symmetry; apply Nat.ltb_lt; exact Hcell).
    destruct (1 <? n_domains m)%nat; simpl; exact Hl.
Qed.

Lemma cell_clip_bounds_nonneg m fvq halo_type var grad i :
  0 <= snd (cell_clip_bounds m fvq halo_type var grad) i.
Proof.
  revert i. change (denom_nonneg (cell_clip_bounds m fvq halo_type var grad)).
  unfold cell_clip_bounds.
  apply (ext_loop_inv denom_nonneg).
  - apply (fold_left_inv denom_nonneg).
    + intros i. simpl. lra.
    + intros a b _. apply clip_cell_i_face_nonneg.
  - intros ii t jj. apply clip_cell_ext_nonneg.
Qed.

(** X14: in exact arithmetic, the cell-based clipping is idempotent on
    the owned cells: a gradient that has been clipped is left as it is by
    a second clipping with the same variable and coefficient (in binary64
    a clipped gradient may exceed the bound by a rounding error and be
    clipped again). *)

Theorem cell_clipping_idempotent
        (g : cs_glob_t) (m : cs_mesh_t) (fvq : cs_mesh_quantities_t)
        (halo_type : cs_halo_type_t) (verbosity verbosity' : Z) (climgp : R)
        (var_name : string) (var : array R) (grad : array cs_real_3_t)
        (log log' : list log_event) (c : nat) :
  halo_keeps_owned m -> 0 <= climgp -> (c < n_cells m)%nat ->
  fst (_scalar_gradient_clipping g m fvq halo_type CS_GRADIENT_LIMIT_CELL
         verbosity' climgp var_name var
         (fst (_scalar_gradient_clipping g m fvq halo_type
                 CS_GRADIENT_LIMIT_CELL verbosity climgp var_name var grad
                 log))
         log') c
  = fst (_scalar_gradient_clipping g m fvq halo_type CS_GRADIENT_LIMIT_CELL
           verbosity climgp var_name var grad log) c.
Proof.
  intros Hh Hclim Hc.
  set (once := fst (_scalar_gradient_clipping g m fvq halo_type
                      CS_GRADIENT_LIMIT_CELL verbosity climgp var_name var
                      grad log)).
  set (b1 := cell_clip_bounds m fvq halo_type var grad).
  set (f := one_sided_factor climgp (fst b1) (snd b1)).
  assert (Hd : forall i, 0 <= snd b1 i)
    by (intros i; apply cell_clip_bounds_nonneg).
  assert (Hf : forall i, (i < n_cells m)%nat -> 0 <= f i).
  { intros i _. unfold f, one_sided_factor.
    destruct (Rgt_dec (fst b1 i) (climgp * snd b1 i)) as [Hgt|_]; [|lra].
    pose proof (Hd i) as Hdi.
    assert (Hpos : 0 < fst b1 i) by nra.
    unfold Rdiv. apply Rmult_le_pos; [nra|].
    apply Rlt_le, Rinv_0_lt_compat. exact Hpos. }
  assert (Honce : forall i, (i < n_cells m)%nat ->
                            once i = scale3 (f i) (grad i)).
  { intros i Hi. unfold once. now apply clipping_cell_value. }
  rewrite (clipping_cell_value g m fvq halo_type verbosity' climgp var_name
             var once log' c Hh Hc).
  destruct (cell_clip_bounds_scaled m fvq var grad once f Hf Honce halo_type
              c Hc) as [H1 H2].
  fold b1 in H1, H2.
  assert (E : one_sided_factor climgp
                (fst (cell_clip_bounds m fvq halo_type var once))
                (snd (cell_clip_bounds m fvq halo_type var once)) c = 1).
  { unfold one_sided_factor. rewrite H1, H2.
    destruct (Rgt_dec (f c * fst b1 c) (climgp * snd b1 c)) as [Hgt|_];
      [|reflexivity].
    exfalso. revert Hgt. unfold f, one_sided_factor.
    destruct (Rgt_dec (fst b1 c) (climgp * snd b1 c)) as [Hgt'|Hle]; [|lra].
    pose proof (Hd c) as Hdc.
    assert (Hpos : fst b1 c <> 0) by nra.
    replace (climgp * snd b1 c / fst b1 c * fst b1 c)
      with (climgp * snd b1 c) by (field; exact Hpos).
    lra. }
  rewrite E. apply scale3_one.
Qed.

Lemma cell_clipping_idempotent_witness :
  halo_keeps_owned Examples.mesh_2
  /\ 0 <= / 2
  /\ (0 < n_cells Examples.mesh_2)%nat
  /\ fst (_scalar_gradient_clipping Examples.glob0 Examples.mesh_2
            Examples.fvq_unit CS_HALO_STANDARD CS_GRADIENT_LIMIT_CELL 2 (/ 2)
            "p" (fun c => INR c)
            (fst (_scalar_gradient_clipping Examples.glob0 Examples.mesh_2
                    Examples.fvq_unit CS_HALO_STANDARD CS_GRADIENT_LIMIT_CELL
                    0 (/ 2) "p" (fun c => INR c) Examples.grad_x []))
            []) 0%nat
     = fst (_scalar_gradient_clipping Examples.glob0 Examples.mesh_2
              Examples.fvq_unit CS_HALO_STANDARD CS_GRADIENT_LIMIT_CELL 0
              (/ 2) "p" (fun c => INR c) Examples.grad_x []) 0%nat.
Proof.
  split; [apply no_halo_keeps_owned; reflexivity|].
  split; [lra|].
  split; [simpl; lia|].
  apply (cell_clipping_idempotent Examples.glob0 Examples.mesh_2
           Examples.fvq_unit CS_HALO_STANDARD 0 2 (/ 2) "p" (fun c => INR c)
           Examples.grad_x [] [] 0%nat).
  - apply no_halo_keeps_owned. reflexivity.
  - lra.
  - simpl. lia.
Defined.
(** ** Porosity balance *)

Lemma fold_left_reach {A B : Type} (P : A -> Prop) (f : A -> B -> A)
      (l : list B) (a : A) (x : B) :
  In x l ->
  (forall a, P (f a x)) ->
  (forall a b, In b l -> P a -> P (f a b)) ->
  P (fold_left f l a).
Proof.
  revert a. induction l as [|y l IH]; intros a Hx Hset Hkeep; [destruct Hx|].
  simpl. destruct Hx as [->|Hx].
  - apply fold_left_inv; [apply Hset|].
    intros a0 b Hb. apply Hkeep. right. exact Hb.
  - apply IH; [exact Hx|exact Hset|].
    intros a0 b Hb. apply Hkeep. right. exact Hb.
Qed.

Lemma for_loop_upd_each {T : Type} (F : nat -> T -> T) (n : nat)
      (a : array T) (c : nat) :
  for_loop 0 n (fun a i => upd a i (F i (a i))) a c
  = if (c <? n)%nat then F c (a c) else a c.
Proof.
  revert c.
  apply (for_loop_ind
           (fun i t =>
              forall c, t c = if (c <? i)%nat then F c (a c) else a c));
    [lia| |].
  - intros c. reflexivity.
  - intros i t _ IH c. unfold upd.
    destruct (Nat.eqb_spec c i) as [->|Hne].
    + replace (i <? S i)%nat with true by (symmetry; apply Nat.ltb_lt; lia).
      rewrite IH, Nat.ltb_irrefl. reflexivity.
    + rewrite IH.
      destruct (Nat.ltb_spec c i); destruct (Nat.ltb_spec c (S i));
        try reflexivity; lia.
Qed.

Lemma in_b_face_order (m : cs_mesh_t) (f_id : nat) :
  In f_id (b_face_order m) <->
  exists t_id, In t_id (range 0 (n_threads (b_face_numbering m)))
               /\ In f_id (range (group_index (b_face_numbering m) (t_id * 2))
                                 (group_index (b_face_numbering m)
                                              (t_id * 2 + 1))).
Proof. unfold b_face_order. apply in_flat_map. Qed.

Lemma scale3_zero_l (v : cs_real_3_t) : scale3 0 v = zero3.
Proof. unfold scale3, zero3. f_equal; ring. Qed.

Lemma scale3_zero3 (f : R) : scale3 f zero3 = zero3.
Proof. unfold scale3, zero3. simpl. f_equal; ring. Qed.

Lemma axpy3_zero (n : cs_real_3_t) : axpy3 zero3 0 n = zero3.
Proof. unfold axpy3, zero3. simpl. f_equal; ring. Qed.

Lemma axmy3_zero (n : cs_real_3_t) : axmy3 zero3 0 n = zero3.
Proof. unfold axmy3, zero3. simpl. f_equal; ring. Qed.

Lemma scatter_face_vanishes (a : array cs_real_3_t) ii jj n :
  (forall c, a c = zero3) -> forall c, scatter_face a ii jj 0 0 n c = zero3.
Proof.
  intros Hz c. unfold scatter_face, upd.
  destruct (Nat.eqb_spec c jj) as [E2|E2];
    destruct (Nat.eqb_spec c ii) as [E1|E1]; subst; rewrite ?Nat.eqb_refl.
  - rewrite Hz, axpy3_zero. apply axmy3_zero.
  - destruct (Nat.eqb_spec jj ii); [congruence|]. rewrite Hz. apply axmy3_zero.
  - rewrite Hz. apply axpy3_zero.
  - apply Hz.
Qed.

Lemma dvol_of_disabled (fvq : cs_mesh_quantities_t) (vol : array R) (c : nat) :
  cell_enabled fvq c = false -> dvol_of fvq vol c = 0.
Proof. unfold cell_enabled, dvol_of. cbv zeta. intros ->. reflexivity. Qed.

Section PorosityBalance.

Variables (g : cs_glob_t) (m : cs_mesh_t) (fvq : cs_mesh_quantities_t).
Variables (ff : cs_fluid_faces_t) (fl : cs_flux_fields_t).

(** *** The terms of a face *)

Lemma poro_i_face_terms_disabled f_id :
  cell_enabled fvq (fst (i_face_cells m f_id)) = false
  \/ cell_enabled fvq (snd (i_face_cells m f_id)) = false ->
  poro_i_face_terms g m fvq ff fl f_id = (0, 0).
Proof.
  intros H. unfold poro_i_face_terms. cbv zeta.
  replace (cell_enabled fvq (fst (i_face_cells m f_id))
           && cell_enabled fvq (snd (i_face_cells m f_id)))%bool with false.
  - f_equal; ring.
  - symmetry. apply andb_false_iff. exact H.
Qed.

Lemma poro_i_face_terms_full f_id :
  i_f_face_factor ff f_id = (1, 1) ->
  poro_i_face_terms g m fvq ff fl f_id = (0, 0).
Proof.
  intros H. unfold poro_i_face_terms. cbv zeta. rewrite H. cbn [fst snd].
  f_equal; ring.
Qed.

Lemma poro_b_face_term_disabled f_id :
  cell_enabled fvq (b_face_cells m f_id) = false ->
  poro_b_face_term g m fvq ff fl f_id = 0.
Proof. intros H. unfold poro_b_face_term. cbv zeta. rewrite H. ring. Qed.

Lemma poro_b_face_term_full f_id :
  b_f_face_factor ff f_id = 1 ->
  poro_b_face_term g m fvq ff fl f_id = 0.
Proof. intros H. unfold poro_b_face_term. cbv zeta. rewrite H. ring. Qed.

(** *** What the loops leave in the face arrays *)

Lemma poro_i_face_sets st f_id :
  i_terms_at g m fvq ff fl f_id (poro_i_face g m fvq ff fl st f_id).
Proof.
  unfold i_terms_at, poro_i_face. cbv zeta.
  cbn [val_i_poro_duq_0 val_i_poro_duq_1]. rewrite !upd_same.
  split; reflexivity.
Qed.

Lemma poro_i_face_keeps st f_id f :
  i_terms_at g m fvq ff fl f st ->
  i_terms_at g m fvq ff fl f (poro_i_face g m fvq ff fl st f_id).
Proof.
  intros H. destruct (Nat.eq_dec f f_id) as [->|Hne];
    [apply poro_i_face_sets|].
  unfold i_terms_at, poro_i_face. cbv zeta.
  cbn [val_i_poro_duq_0 val_i_poro_duq_1].
  rewrite !upd_other by exact Hne. exact H.
Qed.

Lemma poro_b_face_sets st f_id :
  b_term_at g m fvq ff fl f_id (poro_b_face g m fvq ff fl st f_id).
Proof.
  unfold b_term_at, poro_b_face. cbv zeta. cbn [val_b_poro_duq].
  apply upd_same.
Qed.

Lemma poro_b_face_keeps st f_id f :
  b_term_at g m fvq ff fl f st ->
  b_term_at g m fvq ff fl f (poro_b_face g m fvq ff fl st f_id).
Proof.
  intros H. destruct (Nat.eq_dec f f_id) as [->|Hne];
    [apply poro_b_face_sets|].
  unfold b_term_at, poro_b_face. cbv zeta. cbn [val_b_poro_duq].
  rewrite upd_other by exact Hne. exact H.
Qed.

Lemma poro_b_thread_i st t_id :
  val_i_poro_duq_0 (poro_b_thread g m fvq ff fl st t_id) = val_i_poro_duq_0 st
  /\ val_i_poro_duq_1 (poro_b_thread g m fvq ff fl st t_id)
     = val_i_poro_duq_1 st.
Proof.
  unfold poro_b_thread. cbv zeta. cbn [val_i_poro_duq_0 val_i_poro_duq_1].
  apply (for_loop_inv
           (fun t => val_i_poro_duq_0 t = val_i_poro_duq_0 st
                     /\ val_i_poro_duq_1 t = val_i_poro_duq_1 st)).
  - split; reflexivity.
  - intros t i _ Ht. exact Ht.
Qed.

Lemma poro_b_thread_keeps st t_id f :
  b_term_at g m fvq ff fl f st ->
  b_term_at g m fvq ff fl f (poro_b_thread g m fvq ff fl st t_id).
Proof.
  intros H. unfold poro_b_thread. cbv zeta. unfold b_term_at.
  cbn [val_b_poro_duq].
  apply (for_loop_inv (b_term_at g m fvq ff fl f)); [exact H|].
  intros t i _ Ht. apply poro_b_face_keeps. exact Ht.
Qed.

Lemma poro_b_thread_sets st t_id f :
  In f (range (group_index (b_face_numbering m) (t_id * 2))
              (group_index (b_face_numbering m) (t_id * 2 + 1))) ->
  b_term_at g m fvq ff fl f (poro_b_thread g m fvq ff fl st t_id).
Proof.
  intros Hf. unfold poro_b_thread. cbv zeta. unfold b_term_at.
  cbn [val_b_poro_duq]. unfold for_loop at 1.
  apply (fold_left_reach (b_term_at g m fvq ff fl f) _ _ _ f Hf).
  - intros a. apply poro_b_face_sets.
  - intros a b _ Ha. apply poro_b_face_keeps. exact Ha.
Qed.

Lemma after_faces_i st f :
  In f (i_face_order m) ->
  i_terms_at g m fvq ff fl f (after_faces g m fvq ff fl st).
Proof.
  intros Hf. unfold after_faces.
  apply (for_loop_inv (i_terms_at g m fvq ff fl f)).
  - apply (fold_left_reach (i_terms_at g m fvq ff fl f) _ _ _ f Hf).
    + intros a. apply poro_i_face_sets.
    + intros a b _ Ha. apply poro_i_face_keeps. exact Ha.
  - intros t i _ Ht. unfold i_terms_at.
    destruct (poro_b_thread_i t i) as [E0 E1]. rewrite E0, E1. exact Ht.
Qed.

Lemma after_faces_b st f :
  In f (b_face_order m) ->
  b_term_at g m fvq ff fl f (after_faces g m fvq ff fl st).
Proof.
  intros Hf. apply in_b_face_order in Hf. destruct Hf as [t_id [Ht Hf]].
  unfold after_faces, for_loop.
  apply (fold_left_reach (b_term_at g m fvq ff fl f) _ _ _ t_id Ht).
  - intros a. apply poro_b_thread_sets. exact Hf.
  - intros a b _ Ha. apply poro_b_thread_keeps. exact Ha.
Qed.

(** *** The cell terms *)

Lemma poro_cells_at (a : array cs_real_3_t) (c : nat) :
  for_loop 0 (n_cells m) (poro_cell fvq) a c
  = if (c <? n_cells m)%nat
    then scale3 (dvol_of fvq (cell_f_vol fvq) c) (a c) else a c.
Proof.
  unfold poro_cell.
  apply (for_loop_upd_each
           (fun i v => scale3 (dvol_of fvq (cell_f_vol fvq) i) v)).
Qed.

(** After a turn of the loop on the threads, a disabled owned cell holds
    zero. *)

Lemma poro_b_thread_disabled st t_id c :
  (c < n_cells m)%nat -> cell_enabled fvq c = false ->
  val_poro_div_duq (poro_b_thread g m fvq ff fl st t_id) c = zero3.
Proof.
  intros Hc Hdis. unfold poro_b_thread. cbv zeta. cbn [val_poro_div_duq].
  rewrite poro_cells_at.
  replace (c <? n_cells m)%nat with true
    by (symmetry; apply Nat.ltb_lt; exact Hc).
  rewrite dvol_of_disabled by exact Hdis. apply scale3_zero_l.
Qed.

Lemma after_faces_disabled st c :
  (1 <= n_threads (b_face_numbering m))%nat ->
  (c < n_cells m)%nat -> cell_enabled fvq c = false ->
  val_poro_div_duq (after_faces g m fvq ff fl st) c = zero3.
Proof.
  intros Hn Hc Hdis. unfold after_faces.
  destruct (n_threads (b_face_numbering m)) as [|n]; [lia|].
  rewrite for_loop_S by lia. apply poro_b_thread_disabled; assumption.
Qed.

(** Faces whose terms vanish add nothing. *)

Lemma poro_i_face_zero st f_id :
  poro_i_face_terms g m fvq ff fl f_id = (0, 0) ->
  balance_zero st -> balance_zero (poro_i_face g m fvq ff fl st f_id).
Proof.
  intros Ht Hz c. unfold poro_i_face. cbv zeta. cbn [val_poro_div_duq].
  rewrite !upd_same, Ht. cbn [fst snd]. apply scatter_face_vanishes. exact Hz.
Qed.

Lemma poro_b_face_zero st f_id :
  poro_b_face_term g m fvq ff fl f_id = 0 ->
  balance_zero st -> balance_zero (poro_b_face g m fvq ff fl st f_id).
Proof.
  intros Ht Hz c. unfold poro_b_face. cbv zeta. cbn [val_poro_div_duq].
  rewrite upd_same, Ht. unfold upd.
  destruct (Nat.eqb_spec c (b_face_cells m f_id)) as [E|E]; [|apply Hz].
  rewrite Hz. apply axpy3_zero.
Qed.

Lemma after_faces_zero st :
  (forall f_id, In f_id (i_face_order m) ->
                poro_i_face_terms g m fvq ff fl f_id = (0, 0)) ->
  (forall f_id, In f_id (b_face_order m) ->
                poro_b_face_term g m fvq ff fl f_id = 0) ->
  balance_zero st -> balance_zero (after_faces g m fvq ff fl st).
Proof.
  intros Hi Hb Hz. unfold after_faces, for_loop.
  apply fold_left_inv.
  - apply fold_left_inv; [exact Hz|].
    intros a f Hf Ha. apply poro_i_face_zero; [apply Hi; exact Hf|exact Ha].
  - intros a t_id Ht Ha. unfold poro_b_thread. cbv zeta.
    assert (Hin : balance_zero
                    (for_loop (group_index (b_face_numbering m) (t_id * 2))
                              (group_index (b_face_numbering m) (t_id * 2 + 1))
                              (poro_b_face g m fvq ff fl) a)).
    { unfold for_loop. apply fold_left_inv; [exact Ha|].
      intros a0 f Hf Ha0. apply poro_b_face_zero; [|exact Ha0].
      apply Hb. apply in_b_face_order. exists t_id. split; assumption. }
    intros c. cbn [val_poro_div_duq]. rewrite poro_cells_at.
    destruct (c <? n_cells m)%nat; rewrite Hin;
      [apply scale3_zero3|reflexivity].
Qed.

Lemma balance_after_faces inc st :
  inc = 1%Z ->
  cs_gradient_porosity_balance g m fvq ff fl inc (Some st)
  = let st' :=
      after_faces g m fvq ff fl
        (Poro_fields (val_i_poro_duq_0 st) (val_i_poro_duq_1 st)
                     (val_b_poro_duq st) (fun _ => zero3)) in
    Some (Poro_fields (val_i_poro_duq_0 st') (val_i_poro_duq_1 st')
            (val_b_poro_duq st')
            match halo m with
            | Some h =>
                cs_halo_sync_var_strided h CS_HALO_STANDARD
                                         (val_poro_div_duq st')
            | None => val_poro_div_duq st'
            end).
Proof. intros ->. reflexivity. Qed.

Lemma balance_sync_owned (a : array cs_real_3_t) c :
  halo_keeps_owned m -> (c < n_cells m)%nat ->
  match halo m with
  | Some h => cs_halo_sync_var_strided h CS_HALO_STANDARD a
  | None => a
  end c = a c.
Proof.
  intros Hh Hc. destruct (halo m) as [h|] eqn:E; [|reflexivity].
  destruct (Hh h E CS_HALO_STANDARD c Hc) as [_ [H2 _]]. apply H2.
Qed.

End PorosityBalance.

(** X15: with [inc = 1], a disabled owned cell gets a zero balance, and the
    faces of the loops that touch a disabled cell carry no correction. *)

Theorem porosity_balance_disabled
        (g : cs_glob_t) (m : cs_mesh_t) (fvq : cs_mesh_quantities_t)
        (ff : cs_fluid_faces_t) (fl : cs_flux_fields_t)
        (st : cs_poro_fields_t) :
  halo_keeps_owned m ->
  (1 <= n_threads (b_face_numbering m))%nat ->
  exists st',
    cs_gradient_porosity_balance g m fvq ff fl 1 (Some st) = Some st'
    /\ (forall c, (c < n_cells m)%nat -> cell_enabled fvq c = false ->
                  val_poro_div_duq st' c = zero3)
    /\ (forall f_id, In f_id (i_face_order m) ->
          cell_enabled fvq (fst (i_face_cells m f_id)) = false
          \/ cell_enabled fvq (snd (i_face_cells m f_id)) = false ->
          val_i_poro_duq_0 st' f_id = 0 /\ val_i_poro_duq_1 st' f_id = 0)
    /\ (forall f_id, In f_id (b_face_order m) ->
          cell_enabled fvq (b_face_cells m f_id) = false ->
          val_b_poro_duq st' f_id = 0).
Proof.
  intros Hh Hn. rewrite balance_after_faces by reflexivity. cbv zeta.
  eexists. split; [reflexivity|]. cbn [val_poro_div_duq val_i_poro_duq_0
    val_i_poro_duq_1 val_b_poro_duq].
  split; [|split].
  - intros c Hc Hdis. rewrite balance_sync_owned by assumption.
    apply after_faces_disabled; assumption.
  - intros f_id Hf Hdis.
    destruct (after_faces_i g m fvq ff fl
                (Poro_fields (val_i_poro_duq_0 st) (val_i_poro_duq_1 st)
                             (val_b_poro_duq st) (fun _ => zero3))
                f_id Hf) as [E0 E1].
    rewrite E0, E1, poro_i_face_terms_disabled by exact Hdis.
    split; reflexivity.
  - intros f_id Hf Hdis.
    rewrite (after_faces_b g m fvq ff fl _ f_id Hf).
    apply poro_b_face_term_disabled. exact Hdis.
Qed.

(** X16: with [inc = 1] and every face factor equal to 1 on the faces of
    the loops, the balance vanishes: the face corrections are zero and so
    are the cell terms of the owned cells. *)

Theorem porosity_balance_full_faces
        (g : cs_glob_t) (m : cs_mesh_t) (fvq : cs_mesh_quantities_t)
        (ff : cs_fluid_faces_t) (fl : cs_flux_fields_t)
        (st : cs_poro_fields_t) :
  halo_keeps_owned m ->
  (forall f_id, In f_id (i_face_order m) -> i_f_face_factor ff f_id = (1, 1)) ->
  (forall f_id, In f_id (b_face_order m) -> b_f_face_factor ff f_id = 1) ->
  exists st',
    cs_gradient_porosity_balance g m fvq ff fl 1 (Some st) = Some st'
    /\ (forall c, (c < n_cells m)%nat -> val_poro_div_duq st' c = zero3)
    /\ (forall f_id, In f_id (i_face_order m) ->
          val_i_poro_duq_0 st' f_id = 0 /\ val_i_poro_duq_1 st' f_id = 0)
    /\ (forall f_id, In f_id (b_face_order m) -> val_b_poro_duq st' f_id = 0).
Proof.
  intros Hh Hi Hb. rewrite balance_after_faces by reflexivity. cbv zeta.
  eexists. split; [reflexivity|]. cbn [val_poro_div_duq val_i_poro_duq_0
    val_i_poro_duq_1 val_b_poro_duq].
  split; [|split].
  - intros c Hc. rewrite balance_sync_owned by assumption.
    apply after_faces_zero.
    + intros f_id Hf. apply poro_i_face_terms_full. apply Hi. exact Hf.
    + intros f_id Hf. apply poro_b_face_term_full. apply Hb. exact Hf.
    + intros c0. reflexivity.
  - intros f_id Hf.
    destruct (after_faces_i g m fvq ff fl
                (Poro_fields (val_i_poro_duq_0 st) (val_i_poro_duq_1 st)
                             (val_b_poro_duq st) (fun _ => zero3))
                f_id Hf) as [E0 E1].
    rewrite E0, E1, poro_i_face_terms_full by (apply Hi; exact Hf).
    split; reflexivity.
  - intros f_id Hf.
    rewrite (after_faces_b g m fvq ff fl _ f_id Hf).
    apply poro_b_face_term_full. apply Hb. exact Hf.
Qed.

(** X17: in increment mode ([inc] other than 1) the cell terms and the
    corrections of the interior faces are reset to zero, while the
    corrections of the boundary faces keep the values they had. *)

Theorem porosity_balance_increment
        (g : cs_glob_t) (m : cs_mesh_t) (fvq : cs_mesh_quantities_t)
        (ff : cs_fluid_faces_t) (fl : cs_flux_fields_t) (inc : Z)
        (st : cs_poro_fields_t) :
  inc <> 1%Z ->
  exists st',
    cs_gradient_porosity_balance g m fvq ff fl inc (Some st) = Some st'
    /\ (forall c, val_poro_div_duq st' c = zero3)
    /\ (forall f_id, (f_id < n_i_faces m)%nat ->
          val_i_poro_duq_0 st' f_id = 0 /\ val_i_poro_duq_1 st' f_id = 0)
    /\ val_b_poro_duq st' = val_b_poro_duq st.
Proof.
  intros Hinc. unfold cs_gradient_porosity_balance. cbv zeta.
  destruct (Z.eqb_spec inc 1) as [E|_]; [contradiction|].
  assert (Hl : forall f_id, (f_id < n_i_faces m)%nat ->
             fst (for_loop 0 (n_i_faces m)
                    (fun '(p0, p1) f_id => (upd p0 f_id 0, upd p1 f_id 0))
                    (val_i_poro_duq_0 st, val_i_poro_duq_1 st)) f_id = 0
             /\ snd (for_loop 0 (n_i_faces m)
                       (fun '(p0, p1) f_id => (upd p0 f_id 0, upd p1 f_id 0))
                       (val_i_poro_duq_0 st, val_i_poro_duq_1 st)) f_id = 0).
  { apply (for_loop_ind
             (fun i (t : array R * array R) =>
                forall f_id, (f_id < i)%nat ->
                             fst t f_id = 0 /\ snd t f_id = 0)); [lia| |].
    - intros f_id Hf. lia.
    - intros i [p0 p1] _ IH f_id Hf. cbn [fst snd]. unfold upd.
      destruct (Nat.eqb_spec f_id i) as [_|Hne]; [split; reflexivity|].
      apply (IH f_id). lia. }
  destruct (for_loop 0 (n_i_faces m)
              (fun '(p0, p1) f_id => (upd p0 f_id 0, upd p1 f_id 0))
              (val_i_poro_duq_0 st, val_i_poro_duq_1 st)) as [q0 q1].
  eexists. split; [reflexivity|].
  cbn [val_poro_div_duq val_i_poro_duq_0 val_i_poro_duq_1 val_b_poro_duq].
  split; [intros c; reflexivity|]. split; [exact Hl|reflexivity].
Qed.

Lemma porosity_balance_disabled_witness :
  halo_keeps_owned Examples.mesh_1
  /\ (1 <= n_threads (b_face_numbering Examples.mesh_1))%nat
  /\ exists st',
       cs_gradient_porosity_balance Examples.glob0 Examples.mesh_1
         PorosityCases.fvq_solid PorosityCases.ff_half PorosityCases.fl_unit
         1 (Some PorosityCases.fields_7) = Some st'
       /\ (forall c, (c < n_cells Examples.mesh_1)%nat ->
                     cell_enabled PorosityCases.fvq_solid c = false ->
                     val_poro_div_duq st' c = zero3)
       /\ (forall f_id, In f_id (i_face_order Examples.mesh_1) ->
             cell_enabled PorosityCases.fvq_solid
               (fst (i_face_cells Examples.mesh_1 f_id)) = false
             \/ cell_enabled PorosityCases.fvq_solid
                  (snd (i_face_cells Examples.mesh_1 f_id)) = false ->
             val_i_poro_duq_0 st' f_id = 0 /\ val_i_poro_duq_1 st' f_id = 0)
       /\ (forall f_id, In f_id (b_face_order Examples.mesh_1) ->
             cell_enabled PorosityCases.fvq_solid
               (b_face_cells Examples.mesh_1 f_id) = false ->
             val_b_poro_duq st' f_id = 0).
Proof.
  split; [apply no_halo_keeps_owned; reflexivity|].
  split; [simpl; lia|].
  apply (porosity_balance_disabled Examples.glob0 Examples.mesh_1
           PorosityCases.fvq_solid PorosityCases.ff_half PorosityCases.fl_unit
           PorosityCases.fields_7).
  - apply no_halo_keeps_owned. reflexivity.
  - simpl. lia.
Defined.

Lemma porosity_balance_full_faces_witness :
  halo_keeps_owned Examples.mesh_2
  /\ (forall f_id, In f_id (i_face_order Examples.mesh_2) ->
                   i_f_face_factor PorosityCases.ff_full f_id = (1, 1))
  /\ (forall f_id, In f_id (b_face_order Examples.mesh_2) ->
                   b_f_face_factor PorosityCases.ff_full f_id = 1)
  /\ exists st',
       cs_gradient_porosity_balance Examples.glob0 Examples.mesh_2
         Examples.fvq_unit PorosityCases.ff_full PorosityCases.fl_unit
         1 (Some PorosityCases.fields_7) = Some st'
       /\ (forall c, (c < n_cells Examples.mesh_2)%nat ->
                     val_poro_div_duq st' c = zero3)
       /\ (forall f_id, In f_id (i_face_order Examples.mesh_2) ->
             val_i_poro_duq_0 st' f_id = 0 /\ val_i_poro_duq_1 st' f_id = 0)
       /\ (forall f_id, In f_id (b_face_order Examples.mesh_2) ->
             val_b_poro_duq st' f_id = 0).
Proof.
  split; [apply no_halo_keeps_owned; reflexivity|].
  split; [intros f_id _; reflexivity|].
  split; [intros f_id _; reflexivity|].
  apply (porosity_balance_full_faces Examples.glob0 Examples.mesh_2
           Examples.fvq_unit PorosityCases.ff_full PorosityCases.fl_unit
           PorosityCases.fields_7).
  - apply no_halo_keeps_owned. reflexivity.
  - intros f_id _. reflexivity.
  - intros f_id _. reflexivity.
Defined.

Lemma porosity_balance_increment_witness :
  0%Z <> 1%Z
  /\ exists st',
       cs_gradient_porosity_balance Examples.glob0 Examples.mesh_2
         Examples.fvq_unit PorosityCases.ff_half PorosityCases.fl_unit
         0 (Some PorosityCases.fields_7) = Some st'
       /\ (forall c, val_poro_div_duq st' c = zero3)
       /\ (forall f_id, (f_id < n_i_faces Examples.mesh_2)%nat ->
             val_i_poro_duq_0 st' f_id = 0 /\ val_i_poro_duq_1 st' f_id = 0)
       /\ val_b_poro_duq st' = val_b_poro_duq PorosityCases.fields_7.
Proof.
  split; [discriminate|].
  apply (porosity_balance_increment Examples.glob0 Examples.mesh_2
           Examples.fvq_unit PorosityCases.ff_half PorosityCases.fl_unit 0
           PorosityCases.fields_7).
  discriminate.
Defined.
(** ** Reuse of the cached least-squares matrices *)

Lemma gq_get_cons (store : gq_store) :
  exists q rest, _gradient_quantities_get 0 store = q :: rest.
Proof.
  unfold _gradient_quantities_get.
  destruct store as [|q rest]; cbn; eauto.
Qed.

(** Looking up the cache in which [store_cocg_lsq] has just written
    returns what was written, with the saved boundary sums unchanged. *)

Lemma get_after_store g m fvq (halo_type : cs_halo_type_t) (store : gq_store)
      (X : array cs_cocg_6_t) :
  let r := _get_cell_cocg_lsq g m halo_type fvq None store in
  let store' := store_cocg_lsq m halo_type (fst (fst r)) X in
  _get_cell_cocg_lsq g m halo_type fvq None store' = (store', X, snd r).
Proof.
  cbv zeta. unfold _get_cell_cocg_lsq, store_cocg_lsq. cbn [gq_id_of].
  cbv zeta.
  destruct (gq_get_cons store) as (q & rest & E). rewrite E.
  destruct (_compute_cell_cocg_lsq g m (is_extended m halo_type) fvq None)
    as [cocg cocgb].
  unfold gq_at, gq_cocg_lsq, gq_cocgb_lsq, gq_with_lsq. cbn [nth].
  destruct (is_extended m halo_type).
  - destruct (cocg_lsq_ext q) as [c0|]; reflexivity.
  - destruct (cocg_lsq q) as [c0|]; reflexivity.
Qed.

Lemma is_b_cell_dec (m : cs_mesh_t) (c : nat) :
  is_b_cell m c \/ ~ is_b_cell m c.
Proof.
  unfold is_b_cell.
  induction (n_b_cells m) as [|n IH].
  - right. intros (ii & Hii & _). lia.
  - destruct IH as [(ii & Hii & E)|Hno].
    + left. exists ii. split; [lia|exact E].
    + destruct (Nat.eq_dec (b_cells m n) c) as [E|Hne].
      * left. exists n. split; [lia|exact E].
      * right. intros (ii & Hii & E).
        destruct (Nat.eq_dec ii n) as [->|Hn]; [contradiction|].
        apply Hno. exists ii. split; [lia|exact E].
Qed.

(** The recomputation rebuilds the boundary cells from the saved sums: a
    second one changes nothing. *)

Lemma recompute_twice m fvq coefbp (cocgb X : array cs_cocg_6_t) c :
  b_faces_on_b_cells m -> b_cells_distinct m ->
  _recompute_lsq_scalar_cocg m fvq None coefbp cocgb
    (_recompute_lsq_scalar_cocg m fvq None coefbp cocgb X) c
  = _recompute_lsq_scalar_cocg m fvq None coefbp cocgb X c.
Proof.
  intros Hb Hd. destruct (is_b_cell_dec m c) as [(ii & Hii & <-)|Hc].
  - unfold _recompute_lsq_scalar_cocg at 1 3. cbv zeta.
    rewrite !invert_cells_at by assumption.
    rewrite !recompute_b_faces_gather.
    rewrite !restore_b_cells_at by assumption. reflexivity.
  - apply recompute_other; assumption.
Qed.

(** X18: once a least-squares call has recomputed the matrices with the
    boundary coefficients [coefbp], a later call with the same [coefbp]
    returns, on the owned cells, the gradient that a recomputing call on
    the original cache returns, whether it recomputes or not: skipping the
    recomputation is sound while [coefbp] is unchanged. *)

Theorem lsq_cocg_reuse
        (g : cs_glob_t) (m : cs_mesh_t) (fvq : cs_mesh_quantities_t)
        (halo_type : cs_halo_type_t) (inc : R)
        (coefap coefbp pvar : array R) (c_weight : option (array R))
        (store : gq_store) (grad : array cs_real_3_t)
        (recompute_cocg : bool) (inc' : R) (coefap' pvar' : array R)
        (c_weight' : option (array R)) (grad' : array cs_real_3_t) (c : nat) :
  b_faces_on_b_cells m -> b_cells_distinct m -> halo_keeps_owned m ->
  (c < n_cells m)%nat ->
  fst (_lsq_scalar_gradient g m fvq None halo_type recompute_cocg inc'
         coefap' coefbp pvar' c_weight'
         (snd (_lsq_scalar_gradient g m fvq None halo_type true inc coefap
                 coefbp pvar c_weight store grad))
         grad') c
  = fst (_lsq_scalar_gradient g m fvq None halo_type true inc' coefap'
           coefbp pvar' c_weight' store grad') c.
Proof.
  intros Hb Hd Hh Hc. unfold _lsq_scalar_gradient.
  pose proof (get_after_store g m fvq halo_type store) as Hget.
  cbv zeta in Hget.
  destruct (_get_cell_cocg_lsq g m halo_type fvq None store)
    as [[s1 cocg] cocgb].
  cbn [fst snd] in Hget. cbv zeta. cbn [fst snd].
  rewrite Hget.
  destruct recompute_cocg; cbn [fst snd];
    rewrite !sync_keeps_owned by assumption;
    rewrite !solve_cells_owned by exact Hc; [|reflexivity].
  rewrite recompute_twice by assumption. reflexivity.
Qed.

Lemma lsq_cocg_reuse_witness :
  b_faces_on_b_cells Examples.mesh_1
  /\ b_cells_distinct Examples.mesh_1
  /\ halo_keeps_owned Examples.mesh_1
  /\ (0 < n_cells Examples.mesh_1)%nat
  /\ fst (_lsq_scalar_gradient Examples.glob0 Examples.mesh_1
            Examples.fvq_unit None CS_HALO_STANDARD false 1
            Examples.coefa_face_0 Examples.coefb_face_0 (fun _ => 3) None
            (snd (_lsq_scalar_gradient Examples.glob0 Examples.mesh_1
                    Examples.fvq_unit None CS_HALO_STANDARD true 1
                    Examples.coefa_zero Examples.coefb_face_0
                    Examples.var_zero None [] Examples.grad_x))
            Examples.grad_x) 0%nat
     = fst (_lsq_scalar_gradient Examples.glob0 Examples.mesh_1
              Examples.fvq_unit None CS_HALO_STANDARD true 1
              Examples.coefa_face_0 Examples.coefb_face_0 (fun _ => 3) None
              [] Examples.grad_x) 0%nat.
Proof.
  assert (Hwf : b_faces_on_b_cells Examples.mesh_1).
  { intros f Hf. exists 0%nat. split; [simpl; lia|reflexivity]. }
  assert (Hd : b_cells_distinct Examples.mesh_1).
  { intros i j Hi Hj _. simpl in Hi, Hj. lia. }
  split; [exact Hwf|]. split; [exact Hd|].
  split; [apply no_halo_keeps_owned; reflexivity|].
  split; [simpl; lia|].
  apply (lsq_cocg_reuse Examples.glob0 Examples.mesh_1 Examples.fvq_unit
           CS_HALO_STANDARD 1 Examples.coefa_zero Examples.coefb_face_0
           Examples.var_zero None [] Examples.grad_x false 1
           Examples.coefa_face_0 (fun _ => 3) None Examples.grad_x 0%nat
           Hwf Hd).
  - apply no_halo_keeps_owned. reflexivity.
  - simpl. lia.
Defined.
(** ** Least-squares gradient at a boundary cell *)

Lemma cocg_times_add_outer (M : cs_cocg_6_t) (d G : cs_real_3_t) :
  cocg_times_rhs (cocg_add_outer M d) G
  = add3 (cocg_times_rhs M G) (times3 d (dot3 G d)).
Proof.
  unfold cocg_times_rhs, cocg_add_outer, add3, times3, dot3. cbn.
  f_equal; ring.
Qed.

Section BoundaryCell.

Variables (m : cs_mesh_t) (fvq : cs_mesh_quantities_t).
Variables (G : cs_real_3_t) (inc : R) (coefap coefbp pvar : array R).
Variable c : nat.

(** The factor of a boundary face of [c] is the slope along the direction
    of the face. *)

Lemma bc_consistent_pfac f_id :
  b_dist fvq f_id <> 0 ->
  bc_consistent fvq G inc coefap coefbp pvar c f_id ->
  (coefap f_id * inc + (coefbp f_id - 1) * pvar c) * (1 / b_dist fvq f_id)
  = dot3 G (bc_direction fvq coefbp f_id).
Proof.
  intros Hd H. unfold bc_consistent in H. cbv zeta in H.
  set (n := smul3 (1 / b_face_surf fvq f_id) (b_face_normal fvq f_id)) in H.
  assert (E : dot3 G (bc_direction fvq coefbp f_id)
              = dot3 G n
                + (1 - coefbp f_id) / b_dist fvq f_id
                  * dot3 G (diipb fvq f_id)).
  { unfold bc_direction, n, dot3, smul3. cbn. ring. }
  rewrite E.
  set (X := dot3 G (diipb fvq f_id)) in *.
  set (Y := dot3 G n) in *.
  assert (E' : coefap f_id * inc + (coefbp f_id - 1) * pvar c
               = b_dist fvq f_id * Y + (1 - coefbp f_id) * X) by lra.
  rewrite E'. field. exact Hd.
Qed.

Lemma lsq_b_faces_consistent (l : list nat) :
  (forall f_id, In f_id l -> b_dist fvq f_id <> 0) ->
  (forall f_id, In f_id l -> b_face_cells m f_id = c ->
                bc_consistent fvq G inc coefap coefbp pvar c f_id) ->
  forall (rhsv : array cs_real_4_t) (M : cs_cocg_6_t),
    (forall c', rhs_p (rhsv c') = pvar c') ->
    rhs_v (rhsv c) = cocg_times_rhs M G ->
    rhs_v (fold_left (lsq_b_face m fvq None inc coefap coefbp) l rhsv c)
    = cocg_times_rhs
        (fold_left cocg_add_outer
           (map (bc_direction fvq coefbp)
                (filter (fun f_id => negb (is_coupled None f_id)
                                     && Nat.eqb (b_face_cells m f_id) c) l))
           M) G.
Proof.
  induction l as [|f l IH]; intros Hd Hbc rhsv M Hp Hv; [exact Hv|].
  cbn [fold_left filter is_coupled negb andb].
  assert (Hd' : forall f_id, In f_id l -> b_dist fvq f_id <> 0)
    by (intros f_id Hf; apply Hd; right; exact Hf).
  assert (Hbc' : forall f_id, In f_id l -> b_face_cells m f_id = c ->
                   bc_consistent fvq G inc coefap coefbp pvar c f_id)
    by (intros f_id Hf; apply Hbc; right; exact Hf).
  assert (Hp' : forall c', rhs_p (lsq_b_face m fvq None inc coefap coefbp
                                             rhsv f c') = pvar c').
  { intros c'. unfold lsq_b_face. cbn [is_coupled]. cbv zeta. unfold upd.
    destruct (Nat.eqb_spec c' (b_face_cells m f)) as [->|_]; [|apply Hp].
    cbn [rhs_add rhs_p]. apply Hp. }
  destruct (Nat.eqb_spec (b_face_cells m f) c) as [E|E].
  - cbn [map fold_left]. apply (IH Hd' Hbc'); [exact Hp'|].
    unfold lsq_b_face. cbn [is_coupled]. cbv zeta. rewrite E, upd_same.
    cbn [rhs_add rhs_v]. rewrite Hv, cocg_times_add_outer, Hp.
    f_equal. f_equal.
    + unfold bc_direction. f_equal; unfold Rdiv; ring.
    + rewrite (bc_consistent_pfac f) by
        (first [apply Hd; left; reflexivity
               |apply Hbc; [left; reflexivity|exact E]]).
      reflexivity.
  - apply (IH Hd' Hbc'); [exact Hp'|].
    unfold lsq_b_face. cbn [is_coupled]. cbv zeta.
    rewrite upd_other by congruence. exact Hv.
Qed.

End BoundaryCell.

Lemma get_cell_cocgb_empty g m fvq (halo_type : cs_halo_type_t)
      (store : gq_store) :
  lsq_cache_empty m halo_type store ->
  forall ii,
    snd (_get_cell_cocg_lsq g m halo_type fvq None store) ii
    = cocg_lsq_interior m (is_extended m halo_type) fvq (b_cells m ii).
Proof.
  unfold lsq_cache_empty, _get_cell_cocg_lsq. cbn [gq_id_of]. cbv zeta.
  intros He ii. rewrite He.
  change (_compute_cell_cocg_lsq g m (is_extended m halo_type) fvq None)
    with (invert_cells (n_cells m) (fun c_id => c_id)
            (fold_left (cocg_lsq_b_face_sym g m fvq None) (b_face_order m)
                       (cocg_lsq_interior m (is_extended m halo_type) fvq)),
          fun ii => cocg_lsq_interior m (is_extended m halo_type) fvq
                      (b_cells m ii)).
  cbn [fst snd].
  destruct (gq_get_cons store) as (q & rest & E). rewrite E.
  unfold gq_at. cbn [gq_set nth].
  unfold gq_cocgb_lsq, gq_with_lsq.
  destruct (is_extended m halo_type); reflexivity.
Qed.

(** X19: in exact arithmetic, on a field that is affine in the cell
    centres, the least-squares driver that recomputes the matrices from an
    empty cache returns the slope of the field at an owned boundary cell
    too, when the boundary conditions of the faces of the cell are those
    of the field and the covariance sum of the cell (the interior sum
    plus the terms [d d^T] of its boundary faces) is regular. *)

Theorem lsq_exact_at_boundary
        (g : cs_glob_t) (m : cs_mesh_t) (fvq : cs_mesh_quantities_t)
        (halo_type : cs_halo_type_t) (inc : R)
        (coefap coefbp pvar : array R) (G : cs_real_3_t) (k : R)
        (store : gq_store) (grad : array cs_real_3_t) (c : nat) :
  b_faces_on_b_cells m -> b_cells_distinct m -> halo_keeps_owned m ->
  centres_distinct m fvq ->
  (forall f_id, In f_id (b_face_order m) ->
                b_dist fvq f_id <> 0 /\ b_face_surf fvq f_id <> 0) ->
  affine_field fvq G k pvar ->
  lsq_cache_empty m halo_type store ->
  (c < n_cells m)%nat -> is_b_cell m c ->
  (forall f_id, In f_id (b_face_order m) -> b_face_cells m f_id = c ->
                bc_consistent fvq G inc coefap coefbp pvar c f_id) ->
  det_6 (add_6 (cocg_lsq_interior m (is_extended m halo_type) fvq c)
               (boundary_covariance m fvq None coefbp c)) <> 0 ->
  fst (_lsq_scalar_gradient g m fvq None halo_type true inc coefap coefbp
         pvar None store grad) c
  = G.
Proof.
  intros Hb Hd Hhalo _ Hgeo Haffine Hempty Hc (ii & Hii & Hcell) Hbc Hdet.
  rewrite <- b_face_terms_sum in Hdet.
  fold (cocg_lsq_total m (is_extended m halo_type) fvq coefbp c) in Hdet.
  pose proof (get_cell_cocgb_empty g m fvq halo_type store Hempty ii)
    as Hcocgb.
  pose proof (interior_consistent m fvq G k pvar Haffine halo_type) as Hint.
  unfold _lsq_scalar_gradient.
  destruct (_get_cell_cocg_lsq g m halo_type fvq None store)
    as [[store1 cocg] cocgb].
  cbn [snd] in Hcocgb. cbv zeta. cbn [fst].
  rewrite sync_keeps_owned by assumption.
  rewrite solve_cells_owned by exact Hc.
  assert (Hmat : _recompute_lsq_scalar_cocg m fvq None coefbp cocgb cocg c
                 = Kernels._math_6_inv_cramer_sym_in_place
                     (cocg_lsq_total m (is_extended m halo_type) fvq coefbp
                                     c)).
  { rewrite <- Hcell. unfold _recompute_lsq_scalar_cocg. cbv zeta.
    rewrite invert_cells_at by assumption.
    rewrite recompute_b_faces_gather.
    rewrite restore_b_cells_at by assumption.
    rewrite Hcocgb. reflexivity. }
  rewrite Hmat.
  rewrite (lsq_b_faces_consistent m fvq G inc coefap coefbp pvar c
             (b_face_order m)
             (fun f_id Hf => proj1 (Hgeo f_id Hf)) Hbc _
             (cocg_lsq_interior m (is_extended m halo_type) fvq c)).
  - apply cramer_solves. exact Hdet.
  - intros c'. apply Hint.
  - apply Hint.
Qed.

(** *** The cell against a wall of [WallCase] *)

Lemma wall_total :
  cocg_lsq_total WallCase.mesh_wall
    (is_extended WallCase.mesh_wall CS_HALO_STANDARD) Cases.fvq_star
    WallCase.coefb_zero 0%nat
  = Cocg 1 1 1 0 0 0.
Proof.
  unfold cocg_lsq_total, cocg_lsq_interior, b_face_terms, is_extended.
  cbn [halo_type_eqb andb]. cbv zeta.
  unfold i_face_order, b_face_order. cbn.
  unfold cocg_lsq_i_face, upd. cbn.
  unfold cocg_add_outer, cocg_add_scaled, bc_direction, sub3, zero6. cbn.
  f_equal; field; lra.
Qed.

Lemma lsq_exact_at_boundary_witness :
  b_faces_on_b_cells WallCase.mesh_wall
  /\ b_cells_distinct WallCase.mesh_wall
  /\ halo_keeps_owned WallCase.mesh_wall
  /\ centres_distinct WallCase.mesh_wall Cases.fvq_star
  /\ affine_field Cases.fvq_star (R3 1 2 3) 0 Cases.var_affine
  /\ is_b_cell WallCase.mesh_wall 0%nat
  /\ bc_consistent Cases.fvq_star (R3 1 2 3) 1 Cases.face_value
       WallCase.coefb_zero Cases.var_affine 0%nat 0%nat
  /\ fst (_lsq_scalar_gradient Examples.glob0 WallCase.mesh_wall
            Cases.fvq_star None CS_HALO_STANDARD true 1 Cases.face_value
            WallCase.coefb_zero Cases.var_affine None [] Examples.grad_x)
         0%nat
     = R3 1 2 3.
Proof.
  assert (Hb : b_faces_on_b_cells WallCase.mesh_wall).
  { intros f Hf. exists 0%nat. split; [simpl; lia|reflexivity]. }
  assert (Hd : b_cells_distinct WallCase.mesh_wall).
  { intros i j Hi Hj _. simpl in Hi, Hj. lia. }
  assert (Hh : halo_keeps_owned WallCase.mesh_wall)
    by (apply no_halo_keeps_owned; reflexivity).
  assert (Hc : centres_distinct WallCase.mesh_wall Cases.fvq_star).
  { split.
    - intros f_id Hf. unfold i_face_order in Hf. cbn in Hf.
      destruct Hf as [<-|[<-|[]]]; unfold dot3, sub3; cbn; lra.
    - intros idx ii jj Hidx. discriminate Hidx. }
  assert (Hcell : is_b_cell WallCase.mesh_wall 0%nat).
  { exists 0%nat. split; [simpl; lia|reflexivity]. }
  assert (Hbc : bc_consistent Cases.fvq_star (R3 1 2 3) 1 Cases.face_value
                  WallCase.coefb_zero Cases.var_affine 0%nat 0%nat).
  { unfold bc_consistent, dot3, smul3, Cases.face_value, WallCase.coefb_zero.
    cbn. field. }
  split; [exact Hb|]. split; [exact Hd|]. split; [exact Hh|].
  split; [exact Hc|]. split; [exact star_affine|]. split; [exact Hcell|].
  split; [exact Hbc|].
  apply (lsq_exact_at_boundary Examples.glob0 WallCase.mesh_wall
           Cases.fvq_star CS_HALO_STANDARD 1 Cases.face_value
           WallCase.coefb_zero Cases.var_affine (R3 1 2 3) 0 []
           Examples.grad_x 0%nat Hb Hd Hh Hc).
  - intros f_id _. cbn. split; lra.
  - exact star_affine.
  - reflexivity.
  - cbn. lia.
  - exact Hcell.
  - intros f_id Hf _. unfold b_face_order in Hf. cbn in Hf.
    destruct Hf as [<-|[]]. exact Hbc.
  - pose proof wall_total as W. unfold cocg_lsq_total in W.
    rewrite <- b_face_terms_sum, W. unfold det_6. cbn. lra.
Defined.
(** ** Superposition in the least-squares driver *)

Section Superposition.

Variables (m : cs_mesh_t) (fvq : cs_mesh_quantities_t) (al be : R).

Lemma lsq_i_face_combines c_weight r1 r2 r3 f_id :
  rhs_combines al be r1 r2 r3 ->
  rhs_combines al be (lsq_i_face m fvq c_weight r1 f_id)
               (lsq_i_face m fvq c_weight r2 f_id)
               (lsq_i_face m fvq c_weight r3 f_id).
Proof.
  intros H c. unfold lsq_i_face. cbv zeta.
  set (ii := fst (i_face_cells m f_id)).
  set (jj := snd (i_face_cells m f_id)).
  destruct (H ii) as [Hvi Hpi]. destruct (H jj) as [Hvj Hpj].
  destruct (H c) as [Hvc Hpc].
  rewrite Hpi, Hpj.
  destruct c_weight as [cw|]; unfold upd;
    destruct (Nat.eqb_spec c jj) as [Ej|Ej];
    try (destruct (Nat.eqb_spec jj ii) as [Eji|Eji]);
    try (destruct (Nat.eqb_spec c ii) as [Ei|Ei]);
    subst; cbn [rhs_add rhs_v rhs_p];
    rewrite ?Hvi, ?Hvj, ?Hvc, ?Hpi, ?Hpj, ?Hpc;
    (split; [|reflexivity || assumption]);
    unfold add3, scale3, smul3, times3, Rdiv; cbn; f_equal; ring.
Qed.

Lemma lsq_ext_combines ii r1 r2 r3 jj :
  rhs_combines al be r1 r2 r3 ->
  rhs_combines al be (lsq_ext fvq ii r1 jj) (lsq_ext fvq ii r2 jj)
               (lsq_ext fvq ii r3 jj).
Proof.
  intros H c. unfold lsq_ext. cbv zeta.
  destruct (H ii) as [Hvi Hpi]. destruct (H jj) as [Hvj Hpj].
  destruct (H c) as [Hvc Hpc].
  rewrite Hpi, Hpj. unfold upd.
  destruct (Nat.eqb_spec c ii) as [Ei|Ei]; subst; cbn [rhs_add rhs_v rhs_p];
    rewrite ?Hvi, ?Hpi; [|split; assumption].
  split; [|reflexivity].
  unfold add3, scale3, times3, Rdiv; cbn; f_equal; ring.
Qed.

Lemma lsq_b_face_combines inc1 inc2 inc3 coefap1 coefap2 coefap3 coefbp
      r1 r2 r3 f_id :
  coefap3 f_id * inc3
  = al * (coefap1 f_id * inc1) + be * (coefap2 f_id * inc2) ->
  rhs_combines al be r1 r2 r3 ->
  rhs_combines al be (lsq_b_face m fvq None inc1 coefap1 coefbp r1 f_id)
               (lsq_b_face m fvq None inc2 coefap2 coefbp r2 f_id)
               (lsq_b_face m fvq None inc3 coefap3 coefbp r3 f_id).
Proof.
  intros Ha H c. unfold lsq_b_face. cbn [is_coupled]. cbv zeta.
  set (ii := b_face_cells m f_id).
  destruct (H ii) as [Hvi Hpi]. destruct (H c) as [Hvc Hpc].
  unfold upd.
  destruct (Nat.eqb_spec c ii) as [Ei|Ei]; [|split; assumption].
  cbn [rhs_add rhs_v rhs_p]. rewrite Hvi, Hpi, Ha.
  split; [|reflexivity].
  unfold add3, scale3, times3, Rdiv; cbn; f_equal; ring.
Qed.

Lemma lsq_rhs_combines halo_type c_weight inc1 inc2 inc3
      coefap1 coefap2 coefap3 coefbp pvar1 pvar2 pvar3 :
  (forall c, pvar3 c = al * pvar1 c + be * pvar2 c) ->
  (forall f_id, In f_id (b_face_order m) ->
     coefap3 f_id * inc3
     = al * (coefap1 f_id * inc1) + be * (coefap2 f_id * inc2)) ->
  rhs_combines al be
    (fold_left (lsq_b_face m fvq None inc1 coefap1 coefbp) (b_face_order m)
       (ext_loop m halo_type (lsq_ext fvq)
          (fold_left (lsq_i_face m fvq c_weight) (i_face_order m)
                     (fun c_id => R4 zero3 (pvar1 c_id)))))
    (fold_left (lsq_b_face m fvq None inc2 coefap2 coefbp) (b_face_order m)
       (ext_loop m halo_type (lsq_ext fvq)
          (fold_left (lsq_i_face m fvq c_weight) (i_face_order m)
                     (fun c_id => R4 zero3 (pvar2 c_id)))))
    (fold_left (lsq_b_face m fvq None inc3 coefap3 coefbp) (b_face_order m)
       (ext_loop m halo_type (lsq_ext fvq)
          (fold_left (lsq_i_face m fvq c_weight) (i_face_order m)
                     (fun c_id => R4 zero3 (pvar3 c_id))))).
Proof.
  intros Hp Ha.
  apply (fold_left_rel3 (rhs_combines al be)).
  - unfold ext_loop.
    assert (H0 : rhs_combines al be
                   (fold_left (lsq_i_face m fvq c_weight) (i_face_order m)
                              (fun c_id => R4 zero3 (pvar1 c_id)))
                   (fold_left (lsq_i_face m fvq c_weight) (i_face_order m)
                              (fun c_id => R4 zero3 (pvar2 c_id)))
                   (fold_left (lsq_i_face m fvq c_weight) (i_face_order m)
                              (fun c_id => R4 zero3 (pvar3 c_id)))).
    { apply (fold_left_rel3 (rhs_combines al be)).
      - intros c. cbn [rhs_v rhs_p]. split; [|apply Hp].
        unfold add3, scale3, zero3. cbn. f_equal; ring.
      - intros t1 t2 t3 f_id _ Ht. apply lsq_i_face_combines. exact Ht. }
    destruct (cell_cells_idx m) as [idx|]; [|exact H0].
    destruct (halo_type_eqb halo_type CS_HALO_EXTENDED); [|exact H0].
    unfold for_loop. apply (fold_left_rel3 (rhs_combines al be)); [exact H0|].
    intros t1 t2 t3 ii _ Ht.
    apply (fold_left_rel3 (rhs_combines al be)); [exact Ht|].
    intros u1 u2 u3 jj _ Hu. apply lsq_ext_combines. exact Hu.
  - intros t1 t2 t3 f_id Hf Ht. apply lsq_b_face_combines; [|exact Ht].
    apply Ha. exact Hf.
Qed.

End Superposition.

Lemma cocg_times_combines (M : cs_cocg_6_t) (al be : R) (u v : cs_real_3_t) :
  cocg_times_rhs M (add3 (scale3 al u) (scale3 be v))
  = add3 (scale3 al (cocg_times_rhs M u)) (scale3 be (cocg_times_rhs M v)).
Proof. unfold cocg_times_rhs, add3, scale3. cbn. f_equal; ring. Qed.

(** X20: superposition, in exact arithmetic.  With the same boundary
    coefficients [coefbp], weighting and cache, the least-squares gradient
    of the combination [al * p1 + be * p2], the boundary terms
    [coefap * inc] being combined
    alike, is the combination of the gradients on the owned cells.  In
    particular the gradient of an increment computed with [inc = 0] is the
    change of the gradient computed with [inc = 1]. *)

Theorem lsq_superposition
        (g : cs_glob_t) (m : cs_mesh_t) (fvq : cs_mesh_quantities_t)
        (halo_type : cs_halo_type_t) (recompute_cocg : bool)
        (al be inc1 inc2 inc3 : R)
        (coefap1 coefap2 coefap3 coefbp pvar1 pvar2 pvar3 : array R)
        (c_weight : option (array R)) (store : gq_store)
        (grad1 grad2 grad3 : array cs_real_3_t) (c : nat) :
  halo_keeps_owned m ->
  (forall c, pvar3 c = al * pvar1 c + be * pvar2 c) ->
  (forall f_id, In f_id (b_face_order m) ->
     coefap3 f_id * inc3
     = al * (coefap1 f_id * inc1) + be * (coefap2 f_id * inc2)) ->
  (c < n_cells m)%nat ->
  fst (_lsq_scalar_gradient g m fvq None halo_type recompute_cocg inc3
         coefap3 coefbp pvar3 c_weight store grad3) c
  = add3
      (scale3 al
         (fst (_lsq_scalar_gradient g m fvq None halo_type recompute_cocg
                 inc1 coefap1 coefbp pvar1 c_weight store grad1) c))
      (scale3 be
         (fst (_lsq_scalar_gradient g m fvq None halo_type recompute_cocg
                 inc2 coefap2 coefbp pvar2 c_weight store grad2) c)).
Proof.
  intros Hh Hp Ha Hc.
  pose proof (lsq_rhs_combines m fvq al be halo_type c_weight inc1 inc2 inc3
                coefap1 coefap2 coefap3 coefbp pvar1 pvar2 pvar3 Hp Ha c)
    as [Hv _].
  unfold _lsq_scalar_gradient.
  destruct (_get_cell_cocg_lsq g m halo_type fvq None store)
    as [[s1 cocg] cocgb].
  destruct recompute_cocg; cbv zeta; cbn [fst];
    rewrite !sync_keeps_owned by assumption;
    rewrite !solve_cells_owned by exact Hc;
    rewrite Hv; apply cocg_times_combines.
Qed.

Lemma lsq_superposition_witness :
  halo_keeps_owned Cases.mesh_star
  /\ (forall c, Cases.var_affine c + 1 = 1 * Cases.var_affine c + 1 * 1)
  /\ (0 < n_cells Cases.mesh_star)%nat
  /\ fst (_lsq_scalar_gradient Examples.glob0 Cases.mesh_star Cases.fvq_star
            None CS_HALO_STANDARD true 1 Examples.coefa_zero
            Examples.coefb_one (fun c => Cases.var_affine c + 1) None []
            Examples.grad_x) 0%nat
     = add3
         (scale3 1
            (fst (_lsq_scalar_gradient Examples.glob0 Cases.mesh_star
                    Cases.fvq_star None CS_HALO_STANDARD true 1
                    Examples.coefa_zero Examples.coefb_one Cases.var_affine
                    None [] Examples.grad_x) 0%nat))
         (scale3 1
            (fst (_lsq_scalar_gradient Examples.glob0 Cases.mesh_star
                    Cases.fvq_star None CS_HALO_STANDARD true 0
                    Examples.coefa_zero Examples.coefb_one (fun _ => 1)
                    None [] Examples.grad_x) 0%nat)).
Proof.
  split; [apply no_halo_keeps_owned; reflexivity|].
  split; [intros c; ring|].
  split; [cbn; lia|].
  apply (lsq_superposition Examples.glob0 Cases.mesh_star Cases.fvq_star
           CS_HALO_STANDARD true 1 1 1 0 1 Examples.coefa_zero
           Examples.coefa_zero Examples.coefa_zero Examples.coefb_one
           Cases.var_affine (fun _ => 1) (fun c => Cases.var_affine c + 1)
           None [] Examples.grad_x Examples.grad_x Examples.grad_x 0%nat).
  - apply no_halo_keeps_owned. reflexivity.
  - intros c. ring.
  - intros f_id _. unfold Examples.coefa_zero. ring.
  - cbn. lia.
Defined.
(** ** The assembly algorithms of the hydrostatic least-squares driver *)

(** *** Sums of vectors *)

Lemma add3_comm (u v : cs_real_3_t) : add3 u v = add3 v u.
Proof. unfold add3. f_equal; ring. Qed.

Lemma add3_assoc (u v w : cs_real_3_t) :
  add3 (add3 u v) w = add3 u (add3 v w).
Proof. unfold add3. cbn. f_equal; ring. Qed.

Lemma add3_zero_l (u : cs_real_3_t) : add3 zero3 u = u.
Proof. destruct u. unfold add3, zero3. cbn. f_equal; ring. Qed.

Lemma add3_zero_r (u : cs_real_3_t) : add3 u zero3 = u.
Proof. destruct u. unfold add3, zero3. cbn. f_equal; ring. Qed.

Lemma fold_add3_from (l : list cs_real_3_t) (u : cs_real_3_t) :
  fold_left add3 l u = add3 u (vsum l).
Proof.
  unfold vsum. revert u. induction l as [|v l IH]; intros u; cbn [fold_left].
  - symmetry. apply add3_zero_r.
  - rewrite IH, (IH (add3 zero3 v)), add3_zero_l. apply add3_assoc.
Qed.

Lemma vsum_cons (v : cs_real_3_t) (l : list cs_real_3_t) :
  vsum (v :: l) = add3 v (vsum l).
Proof.
  unfold vsum at 1. cbn [fold_left]. rewrite fold_add3_from, add3_zero_l.
  reflexivity.
Qed.

Lemma vsum_perm (l l' : list cs_real_3_t) :
  Permutation l l' -> vsum l = vsum l'.
Proof.
  induction 1 as [|v l l' _ IH|u v l|l l' l'' _ IH1 _ IH2].
  - reflexivity.
  - rewrite !vsum_cons, IH. reflexivity.
  - rewrite !vsum_cons, <- !add3_assoc, (add3_comm v u). reflexivity.
  - congruence.
Qed.

Lemma filter_perm {A : Type} (p : A -> bool) (l l' : list A) :
  Permutation l l' -> Permutation (filter p l) (filter p l').
Proof.
  induction 1 as [|v l l' _ IH|u v l|l l' l'' _ IH1 _ IH2]; cbn [filter].
  - constructor.
  - destruct (p v); [constructor|]; exact IH.
  - destruct (p u), (p v); try apply Permutation_refl. constructor.
  - eapply Permutation_trans; eassumption.
Qed.


(** *** Loops that add to one cell at a time *)

(** A loop whose steps add the terms [t i] to cell [c0]. *)

Lemma fold_accumulate (pvar : array R) (c0 : nat) (t : nat -> cs_real_3_t)
      (step : array cs_real_4_t -> nat -> array cs_real_4_t) (l : list nat) :
  (forall a i, In i l -> (forall c, rhs_p (a c) = pvar c) ->
     forall c, rhs_p (step a i c) = pvar c
               /\ rhs_v (step a i c)
                  = if (c =? c0)%nat then add3 (rhs_v (a c)) (t i)
                    else rhs_v (a c)) ->
  forall a, (forall c, rhs_p (a c) = pvar c) ->
    forall c, rhs_p (fold_left step l a c) = pvar c
              /\ rhs_v (fold_left step l a c)
                 = if (c =? c0)%nat
                   then add3 (rhs_v (a c)) (vsum (map t l))
                   else rhs_v (a c).
Proof.
  induction l as [|i l IH]; intros Hstep a Ha c; cbn [fold_left map].
  - split; [apply Ha|]. destruct (c =? c0)%nat; [|reflexivity].
    symmetry. apply add3_zero_r.
  - assert (Ha1 : forall c, rhs_p (step a i c) = pvar c)
      by (intros c'; apply (Hstep a i (or_introl eq_refl) Ha c')).
    destruct (IH (fun a i Hi => Hstep a i (or_intror Hi)) (step a i) Ha1 c)
      as [Hp Hv].
    split; [exact Hp|]. rewrite Hv.
    destruct (Hstep a i (or_introl eq_refl) Ha c) as [_ Hv1]. rewrite Hv1.
    destruct (c =? c0)%nat; [|reflexivity].
    rewrite vsum_cons. apply add3_assoc.
Qed.

(** A loop on the cells [0 .. n - 1] whose turn [c0] adds [S c0] to cell
    [c0]. *)

Lemma cells_accumulate (pvar : array R) (S : nat -> cs_real_3_t)
      (body : array cs_real_4_t -> nat -> array cs_real_4_t) (n : nat) :
  (forall a c0, (c0 < n)%nat -> (forall c, rhs_p (a c) = pvar c) ->
     forall c, rhs_p (body a c0 c) = pvar c
               /\ rhs_v (body a c0 c)
                  = if (c =? c0)%nat then add3 (rhs_v (a c)) (S c0)
                    else rhs_v (a c)) ->
  forall a, (forall c, rhs_p (a c) = pvar c) ->
    forall c, rhs_p (for_loop 0 n body a c) = pvar c
              /\ rhs_v (for_loop 0 n body a c)
                 = if (c <? n)%nat then add3 (rhs_v (a c)) (S c)
                   else rhs_v (a c).
Proof.
  intros Hbody a Ha.
  apply (for_loop_ind
           (fun k r => forall c,
                rhs_p (r c) = pvar c
                /\ rhs_v (r c)
                   = if (c <? k)%nat then add3 (rhs_v (a c)) (S c)
                     else rhs_v (a c))); [lia| |].
  - intros c. split; [apply Ha|reflexivity].
  - intros k r Hk IH c.
    destruct (Hbody r k ltac:(lia) (fun c' => proj1 (IH c')) c) as [Hp Hv].
    split; [exact Hp|]. rewrite Hv. destruct (IH c) as [_ Hc]. rewrite Hc.
    destruct (Nat.eqb_spec c k) as [->|Hne].
    + rewrite Nat.ltb_irrefl.
      replace (k <? Datatypes.S k)%nat with true
        by (symmetry; apply Nat.ltb_lt; lia).
      reflexivity.
    + destruct (Nat.ltb_spec c k); destruct (Nat.ltb_spec c (Datatypes.S k));
        try reflexivity; lia.
Qed.

Module HydPFacts.

Import HydP HydPTerms.

Section Assembly.

Variables (x : cs_hyd_externals_t) (g : cs_glob_t).
Variables (ma : cs_mesh_adjacencies_t) (m : cs_mesh_t).
Variables (fvq : cs_mesh_quantities_t) (f_ext : array cs_real_3_t).
Variables (pvar : array R) (c_weight_s : option (array R)).

(** *** Scatter *)

Lemma scatter_step (a : array cs_real_4_t) (f_id c : nat) :
  (forall c, rhs_p (a c) = pvar c) ->
  fst (i_face_cells m f_id) <> snd (i_face_cells m f_id) ->
  rhs_p (scatter_i_face x g m fvq f_ext c_weight_s a f_id c) = pvar c
  /\ rhs_v (scatter_i_face x g m fvq f_ext c_weight_s a f_id c)
     = if touches m c f_id
       then add3 (rhs_v (a c))
                 (cell_term x g m fvq f_ext pvar c_weight_s c f_id)
       else rhs_v (a c).
Proof.
  intros Hp Hne. unfold scatter_i_face, touches, cell_term, face_term.
  cbv zeta. rewrite !Hp.
  set (ii := fst (i_face_cells m f_id)) in *.
  set (jj := snd (i_face_cells m f_id)) in *.
  destruct c_weight_s as [cw|]; unfold upd;
    destruct (Nat.eqb_spec c jj) as [Ej|Ej];
    destruct (Nat.eqb_spec c ii) as [Ei|Ei];
    try (exfalso; apply Hne; congruence);
    subst; rewrite ?Nat.eqb_refl;
    repeat match goal with
           | |- context [Nat.eqb ?a ?b] =>
               destruct (Nat.eqb_spec a b); try congruence
           end;
    cbn [rhs_add rhs_v rhs_p orb]; rewrite ?Hp; split; reflexivity.
Qed.

Lemma scatter_sum (l : list nat) :
  (forall f_id, In f_id l ->
     fst (i_face_cells m f_id) <> snd (i_face_cells m f_id)) ->
  forall a, (forall c, rhs_p (a c) = pvar c) ->
    forall c,
      rhs_p (fold_left (scatter_i_face x g m fvq f_ext c_weight_s) l a c)
      = pvar c
      /\ rhs_v (fold_left (scatter_i_face x g m fvq f_ext c_weight_s) l a c)
         = add3 (rhs_v (a c))
                (vsum (map (cell_term x g m fvq f_ext pvar c_weight_s c)
                           (filter (touches m c) l))).
Proof.
  induction l as [|f l IH]; intros Hne a Ha c; cbn [fold_left filter map].
  - split; [apply Ha|]. symmetry. apply add3_zero_r.
  - assert (Hf : fst (i_face_cells m f) <> snd (i_face_cells m f))
      by (apply Hne; left; reflexivity).
    assert (Ha1 : forall c,
               rhs_p (scatter_i_face x g m fvq f_ext c_weight_s a f c)
               = pvar c)
      by (intros c'; apply (scatter_step a f c' Ha Hf)).
    destruct (IH (fun f' Hf' => Hne f' (or_intror Hf')) _ Ha1 c) as [Hp Hv].
    split; [exact Hp|]. rewrite Hv.
    destruct (scatter_step a f c Ha Hf) as [_ Hv1]. rewrite Hv1.
    destruct (touches m c f); [|reflexivity].
    cbn [map]. rewrite vsum_cons. apply add3_assoc.
Qed.

(** *** Store, then gather *)

Lemma store_values (l : list nat) (f_ctb0 : array cs_real_3_t) (f_id : nat) :
  In f_id l ->
  fold_left (store_i_face x g m fvq f_ext pvar c_weight_s) l f_ctb0 f_id
  = face_term x g m fvq f_ext pvar c_weight_s f_id.
Proof.
  intros Hf.
  assert (Hset : forall a,
             store_i_face x g m fvq f_ext pvar c_weight_s a f_id f_id
             = face_term x g m fvq f_ext pvar c_weight_s f_id).
  { intros a. unfold store_i_face, face_term. cbv zeta.
    destruct c_weight_s; apply upd_same. }
  apply (fold_left_reach
           (fun a => a f_id
                     = face_term x g m fvq f_ext pvar c_weight_s f_id)
           _ _ _ f_id Hf).
  - exact Hset.
  - intros a b _ Ha. destruct (Nat.eq_dec f_id b) as [<-|Hne]; [apply Hset|].
    unfold store_i_face. cbv zeta.
    destruct c_weight_s; rewrite upd_other by exact Hne; exact Ha.
Qed.

Lemma assemble_cell_sum (f_ctb : array cs_real_3_t) (a : array cs_real_4_t)
      (c0 : nat) :
  (forall c, rhs_p (a c) = pvar c) ->
  forall c,
    rhs_p (assemble_cell ma c_weight_s f_ctb a c0 c) = pvar c
    /\ rhs_v (assemble_cell ma c_weight_s f_ctb a c0 c)
       = if (c =? c0)%nat
         then add3 (rhs_v (a c))
                (vsum (map (assembled ma c_weight_s f_ctb)
                           (range (c2c_idx ma c0)
                                  (c2c_idx ma (c0 + 1)%nat))))
         else rhs_v (a c).
Proof.
  intros Ha. unfold assemble_cell, for_loop. cbv zeta.
  apply (fold_accumulate pvar c0 (assembled ma c_weight_s f_ctb)); [|exact Ha].
  intros a' i _ Ha' c. unfold assembled, upd.
  destruct c_weight_s; destruct (Nat.eqb_spec c c0) as [->|Hne];
    cbn [rhs_add rhs_v rhs_p]; rewrite ?Ha'; split; reflexivity.
Qed.

(** *** Gather *)

Lemma gather_cell_sum (a : array cs_real_4_t) (ii : nat) :
  (forall c, rhs_p (a c) = pvar c) ->
  forall c,
    rhs_p (gather_cell x g ma fvq f_ext c_weight_s a ii c) = pvar c
    /\ rhs_v (gather_cell x g ma fvq f_ext c_weight_s a ii c)
       = if (c =? ii)%nat
         then add3 (rhs_v (a c))
                (vsum (map (gathered x g ma fvq f_ext pvar c_weight_s ii)
                           (range (c2c_idx ma ii)
                                  (c2c_idx ma (ii + 1)%nat))))
         else rhs_v (a c).
Proof.
  intros Ha. unfold gather_cell, for_loop.
  apply (fold_accumulate pvar ii
           (gathered x g ma fvq f_ext pvar c_weight_s ii)); [|exact Ha].
  intros a' i _ Ha' c. unfold gather_neighbour, gathered, upd. cbv zeta.
  rewrite !Ha'.
  destruct c_weight_s; destruct (Nat.eqb_spec c ii) as [->|Hne];
    cbn [rhs_add rhs_v rhs_p]; rewrite ?Ha'; split; reflexivity.
Qed.

(** *** The adjacencies of a cell *)

Hypothesis Hdist : faces_distinct_cells m.
Hypothesis Hadj : adjacency_consistent ma m.

Lemma adjacency_face (c i : nat) :
  (c < n_cells m)%nat ->
  In i (range (c2c_idx ma c) (c2c_idx ma (c + 1)%nat)) ->
  (c2f ma i < n_i_faces m)%nat.
Proof.
  intros Hc Hi. destruct (Hadj c Hc) as [_ Hperm].
  assert (Hin : In (c2f ma i)
                   (filter (touches m c) (range 0 (n_i_faces m)))).
  { apply (Permutation_in _ Hperm). apply in_map. exact Hi. }
  apply filter_In in Hin. destruct Hin as [Hin _].
  apply in_range in Hin. lia.
Qed.

Lemma adjacency_other (c i : nat) :
  (c < n_cells m)%nat ->
  In i (range (c2c_idx ma c) (c2c_idx ma (c + 1)%nat)) ->
  (if (fst (i_face_cells m (c2f ma i)) =? c)%nat
   then snd (i_face_cells m (c2f ma i))
   else fst (i_face_cells m (c2f ma i))) = c2c ma i.
Proof.
  intros Hc Hi. pose proof (Hdist _ (adjacency_face c i Hc Hi)) as Hne.
  destruct (Hadj c Hc) as [Hcells _].
  destruct (Hcells i Hi) as [[_ E]|[_ E]]; rewrite E in *; cbn [fst snd] in *.
  - rewrite Nat.eqb_refl. reflexivity.
  - destruct (Nat.eqb_spec (c2c ma i) c); [contradiction|reflexivity].
Qed.

Lemma assembled_term (f_ctb : array cs_real_3_t) (c i : nat) :
  (c < n_cells m)%nat ->
  In i (range (c2c_idx ma c) (c2c_idx ma (c + 1)%nat)) ->
  f_ctb (c2f ma i) = face_term x g m fvq f_ext pvar c_weight_s (c2f ma i) ->
  assembled ma c_weight_s f_ctb i
  = cell_term x g m fvq f_ext pvar c_weight_s c (c2f ma i).
Proof.
  intros Hc Hi Hf. unfold assembled, cell_term. cbv zeta.
  destruct c_weight_s as [cw|]; [|exact Hf].
  rewrite (adjacency_other c i Hc Hi), Hf. reflexivity.
Qed.

Lemma square_norm_opp (u v : cs_real_3_t) :
  cs_math_3_square_norm (sub3 u v) = cs_math_3_square_norm (sub3 v u).
Proof. unfold cs_math_3_square_norm, sub3. cbn. ring. Qed.

Lemma gathered_term (c i : nat) :
  (forall f_id, i_poro_duq_0 g f_id = i_poro_duq_1 g f_id) ->
  (c < n_cells m)%nat ->
  In i (range (c2c_idx ma c) (c2c_idx ma (c + 1)%nat)) ->
  gathered x g ma fvq f_ext pvar c_weight_s c i
  = cell_term x g m fvq f_ext pvar c_weight_s c (c2f ma i).
Proof.
  intros Hporo Hc Hi.
  pose proof (adjacency_other c i Hc Hi) as Hother.
  destruct (Hadj c Hc) as [Hcells _].
  unfold gathered, cell_term, face_term, i_pfac in *. cbv zeta.
  destruct (Hcells i Hi) as [[Hs E]|[Hs E]]; rewrite E in *;
    cbn [fst snd] in *.
  - replace (0 <? c2f_sgn ma i)%Z with true
      by (symmetry; apply Z.ltb_lt; exact Hs).
    destruct c_weight_s as [cw|]; rewrite ?Hother; reflexivity.
  - replace (0 <? c2f_sgn ma i)%Z with false
      by (symmetry; apply Z.ltb_ge; exact Hs).
    rewrite (square_norm_opp (cell_cen fvq (c2c ma i)) (cell_cen fvq c)).
    rewrite (Hporo (c2f ma i)).
    set (D := cs_math_3_square_norm _).
    set (hi := cs_math_3_distance_dot_product x _ (cell_cen fvq c) _).
    set (hj := cs_math_3_distance_dot_product x _ (cell_cen fvq (c2c ma i)) _).
    destruct c_weight_s as [cw|]; rewrite ?Hother.
    + replace ((1 - weight fvq (c2f ma i)) * cw c
               + (1 - (1 - weight fvq (c2f ma i))) * cw (c2c ma i))
        with (weight fvq (c2f ma i) * cw (c2c ma i)
              + (1 - weight fvq (c2f ma i)) * cw c) by ring.
      unfold smul3, times3, sub3, Rdiv. cbn. f_equal; ring.
    + unfold times3, sub3, Rdiv. cbn. f_equal; ring.
Qed.

Lemma adjacency_sum (t : nat -> cs_real_3_t) (c : nat) :
  (c < n_cells m)%nat ->
  (forall i, In i (range (c2c_idx ma c) (c2c_idx ma (c + 1)%nat)) ->
     t i = cell_term x g m fvq f_ext pvar c_weight_s c (c2f ma i)) ->
  vsum (map t (range (c2c_idx ma c) (c2c_idx ma (c + 1)%nat)))
  = interior_sum x g m fvq f_ext pvar c_weight_s c.
Proof.
  intros Hc Ht. destruct (Hadj c Hc) as [_ Hperm].
  rewrite (map_ext_in _ _ _ Ht), <- map_map. unfold interior_sum.
  apply vsum_perm, Permutation_map, Hperm.
Qed.

End Assembly.

(** *** The right-hand side after the interior faces *)

Lemma blocks_sum x g m fvq f_ext pvar c_weight_s (l : list nat) (c : nat) :
  Permutation l (range 0 (n_i_faces m)) ->
  vsum (map (cell_term x g m fvq f_ext pvar c_weight_s c)
            (filter (touches m c) l))
  = interior_sum x g m fvq f_ext pvar c_weight_s c.
Proof.
  intros Hperm. unfold interior_sum.
  apply vsum_perm, Permutation_map, filter_perm, Hperm.
Qed.

Lemma blocks_distinct m (l : list nat) :
  faces_distinct_cells m -> Permutation l (range 0 (n_i_faces m)) ->
  forall f_id, In f_id l ->
    fst (i_face_cells m f_id) <> snd (i_face_cells m f_id).
Proof.
  intros Hdist Hperm f_id Hf. apply Hdist.
  apply (Permutation_in _ Hperm) in Hf. apply in_range in Hf. lia.
Qed.

Lemma interior_faces_sum x g ma f_ctb_alloc e2n m fvq f_ext pvar c_weight_s :
  faces_distinct_cells m -> algorithm_ready x g ma m e2n ->
  let r := interior_faces x g ma f_ctb_alloc e2n m fvq f_ext pvar c_weight_s
             (fun c_id => R4 zero3 (pvar c_id)) in
  (forall c, rhs_p (r c) = pvar c)
  /\ (forall c, (c < n_cells m)%nat ->
        rhs_v (r c) = interior_sum x g m fvq f_ext pvar c_weight_s c).
Proof.
  intros Hdist Hready r.
  assert (H0 : forall c,
             rhs_p ((fun c_id => R4 zero3 (pvar c_id)) c) = pvar c)
    by (intros c; reflexivity).
  assert (Hscatter :
            blocks_cover x m e2n ->
            let r := fold_left (scatter_i_face x g m fvq f_ext c_weight_s)
                       (i_face_blocks x m e2n)
                       (fun c_id => R4 zero3 (pvar c_id)) in
            (forall c, rhs_p (r c) = pvar c)
            /\ (forall c, (c < n_cells m)%nat ->
                  rhs_v (r c)
                  = interior_sum x g m fvq f_ext pvar c_weight_s c)).
  { intros Hcover r'.
    pose proof (scatter_sum x g m fvq f_ext pvar c_weight_s
                  (i_face_blocks x m e2n)
                  (blocks_distinct m _ Hdist Hcover) _ H0) as Hs.
    split; [intros c; apply Hs|].
    intros c _. destruct (Hs c) as [_ Hv]. unfold r'. rewrite Hv.
    cbn [rhs_v]. rewrite add3_zero_l. apply blocks_sum. exact Hcover. }
  destruct e2n; cbn [algorithm_ready] in Hready; unfold r, interior_faces.
  - apply Hscatter. exact Hready.
  - apply Hscatter. exact Hready.
  - destruct Hready as [Hadj Hporo].
    pose proof (cells_accumulate pvar
                  (fun ii =>
                     vsum (map (gathered x g ma fvq f_ext pvar c_weight_s ii)
                               (range (c2c_idx ma ii)
                                      (c2c_idx ma (ii + 1)%nat))))
                  (gather_cell x g ma fvq f_ext c_weight_s) (n_cells m)
                  (fun a c0 _ Ha =>
                     gather_cell_sum x g ma fvq f_ext pvar c_weight_s a c0 Ha)
                  _ H0) as Hs.
    split; [intros c; apply Hs|].
    intros c Hc. destruct (Hs c) as [_ Hv]. rewrite Hv.
    replace (c <? n_cells m)%nat with true
      by (symmetry; apply Nat.ltb_lt; exact Hc).
    cbn [rhs_v]. rewrite add3_zero_l.
    apply (adjacency_sum x g ma m fvq f_ext pvar c_weight_s Hadj); [exact Hc|].
    intros i Hi.
    apply (gathered_term x g ma m fvq f_ext pvar c_weight_s Hdist Hadj);
      assumption.
  - destruct Hready as [Hcover Hadj].
    set (f_ctb := fold_left (store_i_face x g m fvq f_ext pvar c_weight_s)
                            (i_face_blocks x m CS_E2N_SUM_STORE_THEN_GATHER)
                            f_ctb_alloc).
    pose proof (cells_accumulate pvar
                  (fun c0 =>
                     vsum (map (assembled ma c_weight_s f_ctb)
                               (range (c2c_idx ma c0)
                                      (c2c_idx ma (c0 + 1)%nat))))
                  (assemble_cell ma c_weight_s f_ctb) (n_cells m)
                  (fun a c0 _ Ha =>
                     assemble_cell_sum ma pvar c_weight_s f_ctb a c0 Ha)
                  _ H0) as Hs.
    split; [intros c; apply Hs|].
    intros c Hc. destruct (Hs c) as [_ Hv]. rewrite Hv.
    replace (c <? n_cells m)%nat with true
      by (symmetry; apply Nat.ltb_lt; exact Hc).
    cbn [rhs_v]. rewrite add3_zero_l.
    apply (adjacency_sum x g ma m fvq f_ext pvar c_weight_s Hadj); [exact Hc|].
    intros i Hi.
    apply (assembled_term x g ma m fvq f_ext pvar c_weight_s Hdist Hadj);
      [exact Hc|exact Hi|].
    unfold f_ctb. apply store_values.
    apply (Permutation_in _ (Permutation_sym Hcover)).
    apply in_range.
    pose proof (adjacency_face ma m Hadj c i Hc Hi). lia.
Qed.


(** *** From the right-hand side to the gradient *)

Lemma rhs_agree_refl (n : nat) (r : array cs_real_4_t) : rhs_agree n r r.
Proof. split; intros; reflexivity. Qed.

Lemma ext_neighbour_agree fvq f_ext (n ii jj : nat)
      (r r' : array cs_real_4_t) :
  rhs_agree n r r' ->
  rhs_agree n (ext_neighbour fvq f_ext ii r jj)
            (ext_neighbour fvq f_ext ii r' jj).
Proof.
  intros [Hp Hv]. unfold ext_neighbour, upd. cbv zeta.
  split; [intros c|intros c Hc]; destruct (Nat.eqb_spec c ii) as [->|_];
    unfold rhs_add; cbn [rhs_p rhs_v]; rewrite ?Hp, ?Hv by assumption;
    auto.
Qed.

Lemma boundary_face_agree x g m fvq inc f_ext coefap coefbp (n f_id : nat)
      (r r' : array cs_real_4_t) :
  rhs_agree n r r' ->
  rhs_agree n (boundary_face x g m fvq inc f_ext coefap coefbp r f_id)
            (boundary_face x g m fvq inc f_ext coefap coefbp r' f_id).
Proof.
  intros [Hp Hv]. unfold boundary_face, upd. cbv zeta.
  split; [intros c|intros c Hc];
    destruct (Nat.eqb_spec c (b_face_cells m f_id)) as [->|_];
    unfold rhs_add; cbn [rhs_p rhs_v]; rewrite ?Hp, ?Hv by assumption;
    auto.
Qed.

Lemma compute_gradient_owned m f_ext (cocg : array cs_cocg_6_t)
      (rhsv : array cs_real_4_t) (grad : array cs_real_3_t) (c : nat) :
  (c < n_cells m)%nat ->
  HydP.compute_gradient m f_ext cocg rhsv grad c
  = add3 (cocg_times_rhs (cocg c) (rhs_v (rhsv c))) (f_ext c).
Proof.
  unfold HydP.compute_gradient.
  apply (for_loop_ind
           (fun i t => (c < i)%nat ->
              t c = add3 (cocg_times_rhs (cocg c) (rhs_v (rhsv c)))
                         (f_ext c)));
    [lia|intros H; lia|].
  intros i t Hi Ht Hc. unfold upd.
  destruct (Nat.eqb_spec c i) as [->|Hne]; [reflexivity|apply Ht; lia].
Qed.

(** The right-hand side of the driver before the gradient is computed,
    on the owned cells, whatever the assembly algorithm. *)

Lemma rhs_of_algorithms x g ma f_ctb_alloc f_ctb_alloc' e2n e2n' m fvq
      halo_type inc f_ext coefap coefbp pvar c_weight_s :
  faces_distinct_cells m ->
  algorithm_ready x g ma m e2n -> algorithm_ready x g ma m e2n' ->
  rhs_agree (n_cells m)
    (fold_left (boundary_face x g m fvq inc f_ext coefap coefbp)
       (b_face_order m)
       (ext_loop m halo_type (ext_neighbour fvq f_ext)
          (interior_faces x g ma f_ctb_alloc e2n m fvq f_ext pvar c_weight_s
             (fun c_id => R4 zero3 (pvar c_id)))))
    (fold_left (boundary_face x g m fvq inc f_ext coefap coefbp)
       (b_face_order m)
       (ext_loop m halo_type (ext_neighbour fvq f_ext)
          (interior_faces x g ma f_ctb_alloc' e2n' m fvq f_ext pvar
             c_weight_s (fun c_id => R4 zero3 (pvar c_id))))).
Proof.
  intros Hdist Hr Hr'.
  apply (fold_left_rel (rhs_agree (n_cells m))).
  - apply (ext_loop_rel (rhs_agree (n_cells m))).
    + pose proof (interior_faces_sum x g ma f_ctb_alloc e2n m fvq f_ext pvar
                    c_weight_s Hdist Hr) as [Hp Hv].
      pose proof (interior_faces_sum x g ma f_ctb_alloc' e2n' m fvq f_ext
                    pvar c_weight_s Hdist Hr') as [Hp' Hv'].
      split; [intros c; rewrite Hp, Hp'; reflexivity|].
      intros c Hc. rewrite Hv, Hv' by exact Hc. reflexivity.
    + intros ii jj t t' Ht. apply ext_neighbour_agree. exact Ht.
  - intros a a' f_id _ Ha. apply boundary_face_agree. exact Ha.
Qed.

(** *** Without exterior force *)

Section WithoutForce.

Variables (x : cs_hyd_externals_t) (g : cs_glob_t) (m : cs_mesh_t).
Variables (fvq : cs_mesh_quantities_t) (f_ext : array cs_real_3_t).

Hypothesis Hforce : forall c, f_ext c = zero3.
Hypothesis Hporo : poro_duq g = None.
Hypothesis Hddp :
  forall xa xb, cs_math_3_distance_dot_product x xa xb zero3 = 0.

Lemma i_pfac_plain (dvarij : R) (f_id ii jj : nat) :
  i_pfac x g fvq f_ext dvarij f_id ii jj
  = dvarij / cs_math_3_square_norm
               (sub3 (cell_cen fvq jj) (cell_cen fvq ii)).
Proof.
  unfold i_pfac, i_poro_duq_0, i_poro_duq_1. cbv zeta.
  rewrite Hporo, !Hforce, !Hddp. unfold Rdiv. ring.
Qed.

Lemma smul3_times3_div (w Dw p : R) (dc : cs_real_3_t) :
  smul3 (w * (1 / Dw)) (times3 dc p) = smul3 w (times3 dc (p / Dw)).
Proof. unfold smul3, times3, Rdiv. cbn. f_equal; ring. Qed.

Lemma scatter_plain (c_weight_s : option (array R))
      (a a' : array cs_real_4_t) (f_id : nat) :
  (forall c, a c = a' c) ->
  forall c, lsq_i_face m fvq c_weight_s a f_id c
            = scatter_i_face x g m fvq f_ext c_weight_s a' f_id c.
Proof.
  intros Ha c. unfold lsq_i_face, scatter_i_face. cbv zeta.
  rewrite i_pfac_plain.
  destruct c_weight_s as [cw|]; unfold upd;
    rewrite <- ?(Ha c), <- ?(Ha (fst (i_face_cells m f_id))),
      <- ?(Ha (snd (i_face_cells m f_id)));
    [|reflexivity].
  rewrite !smul3_times3_div. reflexivity.
Qed.

Lemma ext_plain (n ii jj : nat) (r r' : array cs_real_4_t) :
  rhs_agree n r r' ->
  rhs_agree n (lsq_ext fvq ii r jj) (ext_neighbour fvq f_ext ii r' jj).
Proof.
  intros [Hp Hv]. unfold lsq_ext, ext_neighbour, upd. cbv zeta.
  rewrite !Hforce. unfold cs_math_3_square_norm.
  set (dc := sub3 _ _).
  replace (rhs_p (r' jj) - rhs_p (r' ii) - 0.5 * dot3 dc zero3
           - 0.5 * dot3 dc zero3)
    with (rhs_p (r' jj) - rhs_p (r' ii))
    by (unfold dot3, zero3; cbn; ring).
  split; [intros c|intros c Hc]; destruct (Nat.eqb_spec c ii) as [->|_];
    unfold rhs_add; cbn [rhs_p rhs_v]; rewrite ?Hp, ?Hv by assumption;
    auto.
Qed.

Lemma boundary_face_plain inc coefap coefbp (n f_id : nat)
      (r r' : array cs_real_4_t) :
  rhs_agree n r r' ->
  rhs_agree n (lsq_b_face m fvq None inc coefap coefbp r f_id)
            (boundary_face x g m fvq inc f_ext coefap coefbp r' f_id).
Proof.
  intros [Hp Hv]. unfold lsq_b_face, boundary_face, upd, b_poro_duq.
  cbn [is_coupled]. cbv zeta. rewrite Hporo, !Hforce, !Hddp.
  replace (rhs_p (r' (b_face_cells m f_id)) + 0 + 0)
    with (rhs_p (r' (b_face_cells m f_id))) by ring.
  split; [intros c|intros c Hc];
    destruct (Nat.eqb_spec c (b_face_cells m f_id)) as [->|_];
    unfold rhs_add; cbn [rhs_p rhs_v]; rewrite ?Hp, ?Hv by assumption;
    auto.
Qed.

Lemma rhs_plain ma f_ctb_alloc e2n halo_type inc coefap coefbp pvar
      c_weight_s :
  faces_distinct_cells m -> i_faces_numbered m ->
  algorithm_ready x g ma m e2n ->
  rhs_agree (n_cells m)
    (fold_left (lsq_b_face m fvq None inc coefap coefbp) (b_face_order m)
       (ext_loop m halo_type (lsq_ext fvq)
          (fold_left (lsq_i_face m fvq c_weight_s) (i_face_order m)
             (fun c_id => R4 zero3 (pvar c_id)))))
    (fold_left (boundary_face x g m fvq inc f_ext coefap coefbp)
       (b_face_order m)
       (ext_loop m halo_type (ext_neighbour fvq f_ext)
          (interior_faces x g ma f_ctb_alloc e2n m fvq f_ext pvar c_weight_s
             (fun c_id => R4 zero3 (pvar c_id))))).
Proof.
  intros Hdist Hnum Hr.
  apply (fold_left_rel (rhs_agree (n_cells m))).
  - apply (ext_loop_rel (rhs_agree (n_cells m))).
    + assert (Hs : forall c,
                 fold_left (lsq_i_face m fvq c_weight_s) (i_face_order m)
                           (fun c_id => R4 zero3 (pvar c_id)) c
                 = fold_left (scatter_i_face x g m fvq f_ext c_weight_s)
                             (i_face_order m)
                             (fun c_id => R4 zero3 (pvar c_id)) c).
      { apply (fold_left_rel (fun a a' => forall c, a c = a' c));
          [reflexivity|].
        intros a a' f_id _ Ha. apply scatter_plain. exact Ha. }
      pose proof (scatter_sum x g m fvq f_ext pvar c_weight_s
                    (i_face_order m) (blocks_distinct m _ Hdist Hnum)
                    (fun c_id => R4 zero3 (pvar c_id))
                    (fun c => eq_refl)) as Hsum.
      pose proof (interior_faces_sum x g ma f_ctb_alloc e2n m fvq f_ext pvar
                    c_weight_s Hdist Hr) as [Hp Hv].
      split; [intros c; rewrite Hs, Hp; apply Hsum|].
      intros c Hc. rewrite Hs, Hv by exact Hc.
      destruct (Hsum c) as [_ ->]. cbn [rhs_v]. rewrite add3_zero_l.
      apply blocks_sum. exact Hnum.
    + intros ii jj t t' Ht. apply ext_plain. exact Ht.
  - intros a a' f_id _ Ha. apply boundary_face_plain. exact Ha.
Qed.

End WithoutForce.

End HydPFacts.

(** *** Two cells sharing a face *)

Lemma case_blocks_cover (e2n : cs_e2n_sum_t) :
  HydPTerms.blocks_cover HydPCase.x_one_block Examples.mesh_2 e2n.
Proof. apply Permutation_refl. Qed.

Lemma case_distinct : HydPTerms.faces_distinct_cells Examples.mesh_2.
Proof. intros f_id _. cbn. discriminate. Qed.

Lemma case_numbered : HydPTerms.i_faces_numbered Examples.mesh_2.
Proof. apply Permutation_refl. Qed.

Lemma case_adjacency :
  HydPTerms.adjacency_consistent HydPCase.ma_2 Examples.mesh_2.
Proof.
  intros c Hc. cbn in Hc.
  destruct c as [|[|c]]; [| |lia]; (split; [|apply Permutation_refl]);
    intros i [<-|[]]; cbn; [left|right]; split; (lia || reflexivity).
Qed.

Lemma case_ready (e2n : cs_e2n_sum_t) :
  HydPTerms.algorithm_ready HydPCase.x_one_block Examples.glob0
    HydPCase.ma_2 Examples.mesh_2 e2n.
Proof.
  destruct e2n; cbn [HydPTerms.algorithm_ready].
  - apply case_blocks_cover.
  - apply case_blocks_cover.
  - split; [exact case_adjacency|reflexivity].
  - split; [apply case_blocks_cover|exact case_adjacency].
Qed.

(** X21: in exact arithmetic, the gradient of the hydrostatic
    least-squares driver on an owned cell does not depend on the assembly
    algorithm of the interior faces (scatter, atomic scatter, gather,
    store then gather), nor on the content of the work array or of the
    gradient array at entry: each algorithm whose needs are met (blocks
    holding every face once, consistent cell adjacencies, and for the
    gather algorithm equal porosity terms on both sides of each face)
    gives the same value. *)

Theorem hyd_p_algorithms_agree
        (x : HydP.cs_hyd_externals_t) (g : cs_glob_t)
        (ma : HydP.cs_mesh_adjacencies_t)
        (f_ctb_alloc f_ctb_alloc' : array cs_real_3_t)
        (e2n e2n' : cs_e2n_sum_t) (m : cs_mesh_t)
        (fvq : cs_mesh_quantities_t) (halo_type : cs_halo_type_t)
        (recompute_cocg : bool) (inc : R) (f_ext : array cs_real_3_t)
        (coefap coefbp pvar : array R) (c_weight_s : option (array R))
        (store : gq_store) (grad grad' : array cs_real_3_t) (c : nat) :
  halo_keeps_owned m -> HydPTerms.faces_distinct_cells m ->
  HydPTerms.algorithm_ready x g ma m e2n ->
  HydPTerms.algorithm_ready x g ma m e2n' ->
  (c < n_cells m)%nat ->
  fst (HydP._lsq_scalar_gradient_hyd_p x g ma f_ctb_alloc e2n m fvq
         halo_type recompute_cocg inc f_ext coefap coefbp pvar c_weight_s
         store grad) c
  = fst (HydP._lsq_scalar_gradient_hyd_p x g ma f_ctb_alloc' e2n' m fvq
           halo_type recompute_cocg inc f_ext coefap coefbp pvar c_weight_s
           store grad') c.
Proof.
  intros Hh Hdist Hr Hr' Hc. unfold HydP._lsq_scalar_gradient_hyd_p.
  destruct (_get_cell_cocg_lsq g m halo_type fvq None store)
    as [[s1 cocg] cocgb].
  pose proof (HydPFacts.rhs_of_algorithms x g ma f_ctb_alloc f_ctb_alloc'
                e2n e2n' m fvq halo_type inc f_ext coefap coefbp pvar
                c_weight_s Hdist Hr Hr') as [_ Hv].
  destruct recompute_cocg; cbv zeta; cbn [fst snd];
    rewrite !sync_keeps_owned by assumption;
    rewrite !HydPFacts.compute_gradient_owned by exact Hc;
    rewrite (Hv c Hc); reflexivity.
Qed.

Lemma hyd_p_algorithms_agree_witness :
  halo_keeps_owned Examples.mesh_2
  /\ HydPTerms.faces_distinct_cells Examples.mesh_2
  /\ HydPTerms.algorithm_ready HydPCase.x_one_block Examples.glob0
       HydPCase.ma_2 Examples.mesh_2 CS_E2N_SUM_GATHER
  /\ HydPTerms.algorithm_ready HydPCase.x_one_block Examples.glob0
       HydPCase.ma_2 Examples.mesh_2 CS_E2N_SUM_SCATTER
  /\ (0 < n_cells Examples.mesh_2)%nat
  /\ fst (HydP._lsq_scalar_gradient_hyd_p HydPCase.x_one_block
            Examples.glob0 HydPCase.ma_2 Examples.grad_x CS_E2N_SUM_GATHER
            Examples.mesh_2 Examples.fvq_unit CS_HALO_STANDARD true 1
            HydPCase.f_ext_gravity Examples.coefa_zero Examples.coefb_one
            (fun c_id => INR c_id) None [] Examples.grad_x) 0%nat
     = fst (HydP._lsq_scalar_gradient_hyd_p HydPCase.x_one_block
              Examples.glob0 HydPCase.ma_2 Examples.f_ext_zero
              CS_E2N_SUM_SCATTER Examples.mesh_2 Examples.fvq_unit
              CS_HALO_STANDARD true 1 HydPCase.f_ext_gravity
              Examples.coefa_zero Examples.coefb_one
              (fun c_id => INR c_id) None [] Examples.f_ext_zero) 0%nat.
Proof.
  split; [apply no_halo_keeps_owned; reflexivity|].
  split; [exact case_distinct|].
  split; [apply case_ready|]. split; [apply case_ready|].
  split; [simpl; lia|].
  apply (hyd_p_algorithms_agree HydPCase.x_one_block Examples.glob0
           HydPCase.ma_2 Examples.grad_x Examples.f_ext_zero
           CS_E2N_SUM_GATHER CS_E2N_SUM_SCATTER Examples.mesh_2
           Examples.fvq_unit CS_HALO_STANDARD true 1 HydPCase.f_ext_gravity
           Examples.coefa_zero Examples.coefb_one (fun c_id => INR c_id)
           None [] Examples.grad_x Examples.f_ext_zero 0%nat).
  - apply no_halo_keeps_owned. reflexivity.
  - exact case_distinct.
  - apply case_ready.
  - apply case_ready.
  - simpl. lia.
Defined.

(** X22: without exterior force and without porosity fields, the
    hydrostatic least-squares driver gives on every owned cell the
    gradient of the plain least-squares driver, whatever the assembly
    algorithm (in exact arithmetic; the distance dot product with a zero
    vector being zero, and the face numbering of the plain driver visiting
    every interior face once). *)

Theorem hyd_p_without_force
        (x : HydP.cs_hyd_externals_t) (g : cs_glob_t)
        (ma : HydP.cs_mesh_adjacencies_t) (f_ctb_alloc : array cs_real_3_t)
        (e2n : cs_e2n_sum_t) (m : cs_mesh_t) (fvq : cs_mesh_quantities_t)
        (halo_type : cs_halo_type_t) (recompute_cocg : bool) (inc : R)
        (f_ext : array cs_real_3_t) (coefap coefbp pvar : array R)
        (c_weight_s : option (array R)) (store : gq_store)
        (grad grad' : array cs_real_3_t) (c : nat) :
  (forall c_id, f_ext c_id = zero3) -> poro_duq g = None ->
  (forall xa xb, HydP.cs_math_3_distance_dot_product x xa xb zero3 = 0) ->
  halo_keeps_owned m -> HydPTerms.faces_distinct_cells m ->
  HydPTerms.i_faces_numbered m ->
  HydPTerms.algorithm_ready x g ma m e2n ->
  (c < n_cells m)%nat ->
  fst (HydP._lsq_scalar_gradient_hyd_p x g ma f_ctb_alloc e2n m fvq
         halo_type recompute_cocg inc f_ext coefap coefbp pvar c_weight_s
         store grad) c
  = fst (_lsq_scalar_gradient g m fvq None halo_type recompute_cocg inc
           coefap coefbp pvar c_weight_s store grad') c.
Proof.
  intros Hforce Hporo Hddp Hh Hdist Hnum Hr Hc.
  unfold HydP._lsq_scalar_gradient_hyd_p, _lsq_scalar_gradient.
  destruct (_get_cell_cocg_lsq g m halo_type fvq None store)
    as [[s1 cocg] cocgb].
  pose proof (HydPFacts.rhs_plain x g m fvq f_ext Hforce Hporo Hddp ma
                f_ctb_alloc e2n halo_type inc coefap coefbp pvar c_weight_s
                Hdist Hnum Hr) as [_ Hv].
  destruct recompute_cocg; cbv zeta; cbn [fst snd];
    rewrite !sync_keeps_owned by assumption;
    rewrite HydPFacts.compute_gradient_owned by exact Hc;
    rewrite solve_cells_owned by exact Hc;
    rewrite (Hv c Hc), Hforce; apply add3_zero_r.
Qed.

Lemma hyd_p_without_force_witness :
  (forall c_id, Examples.f_ext_zero c_id = zero3)
  /\ poro_duq Examples.glob0 = None
  /\ (forall xa xb,
        HydP.cs_math_3_distance_dot_product HydPCase.x_one_block xa xb zero3
        = 0)
  /\ halo_keeps_owned Examples.mesh_2
  /\ HydPTerms.faces_distinct_cells Examples.mesh_2
  /\ HydPTerms.i_faces_numbered Examples.mesh_2
  /\ HydPTerms.algorithm_ready HydPCase.x_one_block Examples.glob0
       HydPCase.ma_2 Examples.mesh_2 CS_E2N_SUM_STORE_THEN_GATHER
  /\ (1 < n_cells Examples.mesh_2)%nat
  /\ fst (HydP._lsq_scalar_gradient_hyd_p HydPCase.x_one_block
            Examples.glob0 HydPCase.ma_2 Examples.grad_x
            CS_E2N_SUM_STORE_THEN_GATHER Examples.mesh_2 Examples.fvq_unit
            CS_HALO_STANDARD true 1 Examples.f_ext_zero Examples.coefa_zero
            Examples.coefb_one (fun c_id => INR c_id) None []
            Examples.grad_x) 1%nat
     = fst (_lsq_scalar_gradient Examples.glob0 Examples.mesh_2
              Examples.fvq_unit None CS_HALO_STANDARD true 1
              Examples.coefa_zero Examples.coefb_one (fun c_id => INR c_id)
              None [] Examples.f_ext_zero) 1%nat.
Proof.
  assert (Hddp : forall xa xb,
             HydP.cs_math_3_distance_dot_product HydPCase.x_one_block xa xb
               zero3 = 0).
  { intros xa xb. cbn. unfold dot3, sub3, zero3. cbn. ring. }
  split; [reflexivity|]. split; [reflexivity|]. split; [exact Hddp|].
  split; [apply no_halo_keeps_owned; reflexivity|].
  split; [exact case_distinct|]. split; [exact case_numbered|].
  split; [apply case_ready|]. split; [simpl; lia|].
  apply (hyd_p_without_force HydPCase.x_one_block Examples.glob0
           HydPCase.ma_2 Examples.grad_x CS_E2N_SUM_STORE_THEN_GATHER
           Examples.mesh_2 Examples.fvq_unit CS_HALO_STANDARD true 1
           Examples.f_ext_zero Examples.coefa_zero Examples.coefb_one
           (fun c_id => INR c_id) None [] Examples.grad_x
           Examples.f_ext_zero 1%nat).
  - reflexivity.
  - reflexivity.
  - exact Hddp.
  - apply no_halo_keeps_owned. reflexivity.
  - exact case_distinct.
  - exact case_numbered.
  - apply case_ready.
  - simpl. lia.
Defined.

(** ** The gradient of a vector, row by row *)

Module VectorFacts.

Import VectorGradient.

(** Row [i] of every entry of [G] is the entry of [s]. *)

Lemma row_axpy_33 (a : cs_real_33_t) (p n : cs_real_3_t) (i : nat) :
  row_33 (axpy_33 a p n) i = axpy3 (row_33 a i) (comp_3 p i) n.
Proof. destruct i as [|[|i]]; reflexivity. Qed.

Lemma row_axmy_33 (a : cs_real_33_t) (p n : cs_real_3_t) (i : nat) :
  row_33 (axmy_33 a p n) i = axmy3 (row_33 a i) (comp_3 p i) n.
Proof. destruct i as [|[|i]]; reflexivity. Qed.

Lemma row_scale_33 (a : cs_real_33_t) (dvol : R) (i : nat) :
  row_33 (scale_33 a dvol) i = scale3 dvol (row_33 a i).
Proof. destruct i as [|[|i]]; reflexivity. Qed.

Lemma ktpond_scalar (fvq : cs_mesh_quantities_t) (c_weight : option (array R))
      (f_id ii jj : nat) :
  ktpond_of fvq (weighting_of 1 c_weight) f_id ii jj
  = match c_weight with
    | None => weight fvq f_id
    | Some cw =>
        weight fvq f_id * cw ii
        / (weight fvq f_id * cw ii + (1 - weight fvq f_id) * cw jj)
    end.
Proof. destruct c_weight; reflexivity. Qed.

Lemma sync_vector_keeps_owned (x : cs_vector_externals_t) (m : cs_mesh_t)
      (ht : cs_halo_type_t) (G : array cs_real_33_t) (c : nat) :
  tensor_halo_keeps_owned x m -> (c < n_cells m)%nat ->
  sync_vector_gradient_halo x m ht G c = G c.
Proof.
  intros Hx Hc. unfold sync_vector_gradient_halo.
  destruct (halo m) as [h|] eqn:Eh; [|reflexivity].
  destruct (have_rotation_perio m).
  - destruct (Hx h Eh ht (cs_halo_sync_var_strided_9 x h ht G) c Hc)
      as [_ ->].
    apply (Hx h Eh ht G c Hc).
  - apply (Hx h Eh ht G c Hc).
Qed.

Section Rows.

Variables (m : cs_mesh_t) (fvq : cs_mesh_quantities_t).
Variables (pvar : array cs_real_3_t) (c_weight : option (array R)).
Variable i : nat.

Lemma init_i_face_row (G : array cs_real_33_t) (s : array cs_real_3_t)
      (f_id : nat) :
  (forall c, row_33 (G c) i = s c) ->
  forall c,
    row_33 (init_i_face_v m fvq pvar c_weight G f_id c) i
    = init_i_face m fvq (weighting_of 1 c_weight)
        (fun c_id => comp_3 (pvar c_id) i) s f_id c.
Proof.
  intros H c. unfold init_i_face_v, init_i_face, scatter_face. cbv zeta.
  rewrite ktpond_scalar. unfold upd.
  destruct (Nat.eqb_spec c (snd (i_face_cells m f_id))) as [_|_];
    [|destruct (Nat.eqb_spec c (fst (i_face_cells m f_id))) as [_|_]].
  - rewrite row_axmy_33.
    destruct (Nat.eqb_spec (snd (i_face_cells m f_id))
                           (fst (i_face_cells m f_id))) as [_|_];
      rewrite ?row_axpy_33, !H; destruct i as [|[|k]]; reflexivity.
  - rewrite row_axpy_33, H. destruct i as [|[|k]]; reflexivity.
  - apply H.
Qed.

Lemma init_b_face_row (inc : Z) (coefav : array cs_real_3_t)
      (coefbv : array cs_real_33_t) (G : array cs_real_33_t)
      (s : array cs_real_3_t) (f_id : nat) :
  (i < 3)%nat ->
  (forall k, (k < 3)%nat -> k <> i -> comp_3 (row_33 (coefbv f_id) i) k = 0) ->
  (forall c, row_33 (G c) i = s c) ->
  forall c,
    row_33 (init_b_face_v m fvq None inc coefav coefbv pvar G f_id c) i
    = init_b_face m fvq None (IZR inc)
        (fun f => comp_3 (coefav f) i)
        (fun f => comp_3 (row_33 (coefbv f) i) i)
        (fun c_id => comp_3 (pvar c_id) i) s f_id c.
Proof.
  intros Hi Hb H c. unfold init_b_face_v, init_b_face. cbn [is_coupled].
  cbv zeta. unfold upd.
  destruct (Nat.eqb_spec c (b_face_cells m f_id)) as [_|_]; [|apply H].
  rewrite row_axpy_33, H. f_equal.
  destruct i as [|[|[|k]]]; [| | |lia]; cbn [comp_3 row_33 cx cy cz] in *.
  - pose proof (Hb 1%nat ltac:(lia) ltac:(lia)) as H1.
    pose proof (Hb 2%nat ltac:(lia) ltac:(lia)) as H2.
    cbn in H1, H2. rewrite H1, H2. ring.
  - pose proof (Hb 0%nat ltac:(lia) ltac:(lia)) as H1.
    pose proof (Hb 2%nat ltac:(lia) ltac:(lia)) as H2.
    cbn in H1, H2. rewrite H1, H2. ring.
  - pose proof (Hb 0%nat ltac:(lia) ltac:(lia)) as H1.
    pose proof (Hb 1%nat ltac:(lia) ltac:(lia)) as H2.
    cbn in H1, H2. rewrite H1, H2. ring.
Qed.

Lemma rec_i_face_row (r_grad : array cs_real_33_t)
      (G : array cs_real_33_t) (s : array cs_real_3_t) (f_id : nat) :
  (forall c, row_33 (G c) i = s c) ->
  forall c,
    row_33 (rec_i_face_v m fvq pvar c_weight r_grad G f_id c) i
    = rec_i_face m fvq (weighting_of 1 c_weight)
        (fun c_id => comp_3 (pvar c_id) i)
        (fun c_id => row_33 (r_grad c_id) i) s f_id c.
Proof.
  intros H c. unfold rec_i_face_v, rec_i_face, scatter_face. cbv zeta.
  rewrite ktpond_scalar. unfold upd.
  destruct (Nat.eqb_spec c (snd (i_face_cells m f_id))) as [_|_];
    [|destruct (Nat.eqb_spec c (fst (i_face_cells m f_id))) as [_|_]].
  - rewrite row_axmy_33.
    destruct (Nat.eqb_spec (snd (i_face_cells m f_id))
                           (fst (i_face_cells m f_id))) as [_|_];
      rewrite ?row_axpy_33, !H; destruct i as [|[|k]]; reflexivity.
  - rewrite row_axpy_33, H. destruct i as [|[|k]]; reflexivity.
  - apply H.
Qed.

Lemma rec_b_face_row (inc : Z) (coefav : array cs_real_3_t)
      (coefbv : array cs_real_33_t) (r_grad : array cs_real_33_t)
      (G : array cs_real_33_t) (s : array cs_real_3_t) (f_id : nat) :
  (i < 3)%nat ->
  (forall k, (k < 3)%nat -> k <> i -> comp_3 (row_33 (coefbv f_id) i) k = 0) ->
  (forall c, row_33 (G c) i = s c) ->
  forall c,
    row_33 (rec_b_face_v m fvq None inc coefav coefbv pvar r_grad G f_id c) i
    = rec_b_face m fvq None (IZR inc)
        (fun f => comp_3 (coefav f) i)
        (fun f => comp_3 (row_33 (coefbv f) i) i)
        (fun c_id => comp_3 (pvar c_id) i)
        (fun c_id => row_33 (r_grad c_id) i) s f_id c.
Proof.
  intros Hi Hb H c. unfold rec_b_face_v, rec_b_face. cbn [is_coupled].
  cbv zeta. unfold upd.
  destruct (Nat.eqb_spec c (b_face_cells m f_id)) as [_|_]; [|apply H].
  rewrite row_axpy_33, H. f_equal. unfold dot3.
  destruct i as [|[|[|k]]]; [| | |lia].
  - pose proof (Hb 1%nat ltac:(lia) ltac:(lia)) as H1.
    pose proof (Hb 2%nat ltac:(lia) ltac:(lia)) as H2.
    cbn [comp_3 cx cy cz] in *. rewrite H1, H2. ring.
  - pose proof (Hb 0%nat ltac:(lia) ltac:(lia)) as H1.
    pose proof (Hb 2%nat ltac:(lia) ltac:(lia)) as H2.
    cbn [comp_3 cx cy cz] in *. rewrite H1, H2. ring.
  - pose proof (Hb 0%nat ltac:(lia) ltac:(lia)) as H1.
    pose proof (Hb 1%nat ltac:(lia) ltac:(lia)) as H2.
    cbn [comp_3 cx cy cz] in *. rewrite H1, H2. ring.
Qed.

End Rows.

Lemma row_rows_33 (M : cs_real_33_t) (r0 r1 r2 : cs_real_3_t) (i : nat) :
  row_33 (rows_33 (mat_33_3_product M r0) (mat_33_3_product M r1)
                  (mat_33_3_product M r2)) i
  = mat_33_3_product M (comp_rows r0 r1 r2 i).
Proof. destruct i as [|[|i]]; reflexivity. Qed.

Lemma rec_scale_row (g : cs_glob_t) (m : cs_mesh_t)
      (fvq : cs_mesh_quantities_t) (i : nat)
      (G : array cs_real_33_t) (s : array cs_real_3_t) :
  (forall c, row_33 (G c) i = s c) ->
  forall c, row_33 (rec_scale_v g m fvq G c) i = rec_scale g m fvq s c.
Proof.
  intros H0. unfold rec_scale_v, rec_scale, for_loop.
  apply (fold_left_rel2
           (fun (G : array cs_real_33_t) (s : array cs_real_3_t) =>
              forall c0, row_33 (G c0) i = s c0)); [exact H0|].
  intros G0 s0 c0 _ H c1. cbv zeta. unfold upd.
  destruct (Nat.eqb_spec c1 c0) as [_|_]; [|apply H].
  destruct (CS_BAD_CELLS_WARPED_CORRECTION g).
  - rewrite row_rows_33. f_equal. rewrite <- H, <- row_scale_33.
    destruct i as [|[|k]]; reflexivity.
  - rewrite row_scale_33, H. reflexivity.
Qed.

(** *** Without reconstruction gradient *)

Lemma rec_i_face_v_of_zero m fvq pvar c_weight
      (r_grad G G' : array cs_real_33_t) (f_id : nat) :
  (forall c, r_grad c = zero_33) -> (forall c, G c = G' c) ->
  forall c, rec_i_face_v m fvq pvar c_weight r_grad G f_id c
            = init_i_face_v m fvq pvar c_weight G' f_id c.
Proof.
  intros Hr H c. unfold rec_i_face_v, init_i_face_v. cbv zeta.
  rewrite !Hr. unfold upd. rewrite !H.
  set (kt := match c_weight with Some _ => _ | None => _ end).
  cbn [row_33 zero_33 comp_3 cx cy cz m00 m01 m02 m10 m11 m12 m20 m21 m22].
  repeat match goal with
         | |- context [if ?b then _ else _] => destruct b
         end;
    try reflexivity; unfold axpy_33, axmy_33;
    cbn [cx cy cz m00 m01 m02 m10 m11 m12 m20 m21 m22];
    f_equal; ring.
Qed.

Lemma rec_b_face_v_of_zero m fvq cpl inc coefav coefbv pvar
      (r_grad G G' : array cs_real_33_t) (f_id : nat) :
  (forall c, r_grad c = zero_33) -> (forall c, G c = G' c) ->
  forall c, rec_b_face_v m fvq cpl inc coefav coefbv pvar r_grad G f_id c
            = init_b_face_v m fvq cpl inc coefav coefbv pvar G' f_id c.
Proof.
  intros Hr H c. unfold rec_b_face_v, init_b_face_v.
  destruct (is_coupled cpl f_id); [apply H|]. cbv zeta.
  rewrite !Hr. unfold upd. rewrite !H.
  destruct (c =? b_face_cells m f_id)%nat; [|reflexivity].
  unfold axpy_33.
  cbn [row_33 zero_33 comp_3 cx cy cz m00 m01 m02 m10 m11 m12 m20 m21 m22].
  f_equal; ring.
Qed.

End VectorFacts.

Lemma no_halo_tensor_keeps_owned (x : VectorGradient.cs_vector_externals_t)
      (m : cs_mesh_t) :
  halo m = None -> VectorGradient.tensor_halo_keeps_owned x m.
Proof. intros H h Hh. congruence. Qed.

Lemma coefbv_diag_uncoupled (m : cs_mesh_t) :
  VectorGradient.bc_uncoupled m VectorCase.coefbv_diag 1.
Proof.
  intros f_id _ k Hk Hne.
  destruct k as [|[|[|k]]]; [reflexivity|congruence|reflexivity|lia].
Qed.

(** X23: when component [i] of the boundary condition is not coupled to
    the other components (row [i] of [coefbv] is zero off the diagonal on
    the boundary faces) and there is no internal coupling, row [i] of the
    initial Green-Gauss gradient of a vector is, on every owned cell, the
    initial Green-Gauss gradient of the scalar field made of component [i],
    with the boundary coefficients of that component. *)

Theorem vector_init_by_components
        (x : VectorGradient.cs_vector_externals_t) (g : cs_glob_t)
        (m : cs_mesh_t) (fvq : cs_mesh_quantities_t)
        (halo_type : cs_halo_type_t) (inc : Z)
        (coefav : array cs_real_3_t) (coefbv : array cs_real_33_t)
        (pvar : array cs_real_3_t) (c_weight : option (array R))
        (f_ext : array cs_real_3_t) (i c : nat) :
  (i < 3)%nat -> VectorGradient.bc_uncoupled m coefbv i ->
  halo_keeps_owned m -> VectorGradient.tensor_halo_keeps_owned x m ->
  (c < n_cells m)%nat ->
  VectorGradient.row_33
    (VectorGradient._initialize_vector_gradient x g m fvq None halo_type inc
       coefav coefbv pvar c_weight c) i
  = _initialize_scalar_gradient g m fvq None 1 0 (IZR inc) f_ext
      (fun f_id => VectorGradient.comp_3 (coefav f_id) i)
      (fun f_id =>
         VectorGradient.comp_3 (VectorGradient.row_33 (coefbv f_id) i) i)
      (fun c_id => VectorGradient.comp_3 (pvar c_id) i) c_weight c.
Proof.
  intros Hi Hb Hh Hx Hc.
  unfold VectorGradient._initialize_vector_gradient,
    _initialize_scalar_gradient.
  cbv zeta. cbn [Z.eqb].
  rewrite sync_keeps_owned by assumption.
  rewrite VectorFacts.sync_vector_keeps_owned by assumption.
  clear Hc. revert c.
  unfold scale_by_dvol, for_loop.
  apply (fold_left_rel2
           (fun (G : array cs_real_33_t) (s : array cs_real_3_t) =>
              forall c0, VectorGradient.row_33 (G c0) i = s c0)).
  - apply (fold_left_rel2
             (fun (G : array cs_real_33_t) (s : array cs_real_3_t) =>
                forall c0, VectorGradient.row_33 (G c0) i = s c0)).
    + apply (fold_left_rel2
               (fun (G : array cs_real_33_t) (s : array cs_real_3_t) =>
                  forall c0, VectorGradient.row_33 (G c0) i = s c0)).
      * intros c0. destruct i as [|[|k]]; reflexivity.
      * intros G s f_id _ H. apply VectorFacts.init_i_face_row. exact H.
    + intros G s f_id Hf H.
      apply VectorFacts.init_b_face_row; [exact Hi|apply Hb; exact Hf|exact H].
  - intros G s c0 _ H c1. unfold upd.
    destruct (Nat.eqb_spec c1 c0) as [_|_]; [|apply H].
    rewrite VectorFacts.row_scale_33, H. reflexivity.
Qed.

Lemma vector_init_by_components_witness :
  (1 < 3)%nat
  /\ VectorGradient.bc_uncoupled Examples.mesh_1 VectorCase.coefbv_diag 1
  /\ halo_keeps_owned Examples.mesh_1
  /\ VectorGradient.tensor_halo_keeps_owned VectorCase.x_idle Examples.mesh_1
  /\ (0 < n_cells Examples.mesh_1)%nat
  /\ VectorGradient.row_33
       (VectorGradient._initialize_vector_gradient VectorCase.x_idle
          Examples.glob0 Examples.mesh_1 Examples.fvq_unit None
          CS_HALO_STANDARD 1 VectorCase.coefav_one VectorCase.coefbv_diag
          VectorCase.var_v None 0%nat) 1
     = _initialize_scalar_gradient Examples.glob0 Examples.mesh_1
         Examples.fvq_unit None 1 0 (IZR 1) Examples.f_ext_zero
         (fun f_id => VectorGradient.comp_3 (VectorCase.coefav_one f_id) 1)
         (fun f_id =>
            VectorGradient.comp_3
              (VectorGradient.row_33 (VectorCase.coefbv_diag f_id) 1) 1)
         (fun c_id => VectorGradient.comp_3 (VectorCase.var_v c_id) 1)
         None 0%nat.
Proof.
  split; [lia|]. split; [apply coefbv_diag_uncoupled|].
  split; [apply no_halo_keeps_owned; reflexivity|].
  split; [apply no_halo_tensor_keeps_owned; reflexivity|].
  split; [simpl; lia|].
  apply (vector_init_by_components VectorCase.x_idle Examples.glob0
           Examples.mesh_1 Examples.fvq_unit CS_HALO_STANDARD 1
           VectorCase.coefav_one VectorCase.coefbv_diag VectorCase.var_v
           None Examples.f_ext_zero 1%nat 0%nat).
  - lia.
  - apply coefbv_diag_uncoupled.
  - apply no_halo_keeps_owned. reflexivity.
  - apply no_halo_tensor_keeps_owned. reflexivity.
  - simpl. lia.
Defined.

(** X24: in exact arithmetic (the boundary term is grouped differently
    in the two functions), when component [i] of the boundary condition is
    not coupled to the other components and there is no internal coupling,
    row [i] of the reconstructed Green-Gauss gradient of a vector is, on
    every owned cell, the reconstructed Green-Gauss gradient of the scalar
    field made of component [i], reconstructed with row [i] of the
    reconstruction gradient. *)

Theorem vector_reconstruct_by_components
        (x : VectorGradient.cs_vector_externals_t) (g : cs_glob_t)
        (m : cs_mesh_t) (fvq : cs_mesh_quantities_t)
        (halo_type : cs_halo_type_t) (inc : Z)
        (coefav : array cs_real_3_t) (coefbv : array cs_real_33_t)
        (pvar : array cs_real_3_t) (c_weight : option (array R))
        (r_grad : array cs_real_33_t) (f_ext : array cs_real_3_t)
        (i c : nat) :
  (i < 3)%nat -> VectorGradient.bc_uncoupled m coefbv i ->
  halo_keeps_owned m -> VectorGradient.tensor_halo_keeps_owned x m ->
  (c < n_cells m)%nat ->
  VectorGradient.row_33
    (VectorGradient._reconstruct_vector_gradient x g m fvq None halo_type
       inc coefav coefbv pvar c_weight r_grad c) i
  = _reconstruct_scalar_gradient g m fvq None 1 0 (IZR inc) f_ext
      (fun f_id => VectorGradient.comp_3 (coefav f_id) i)
      (fun f_id =>
         VectorGradient.comp_3 (VectorGradient.row_33 (coefbv f_id) i) i)
      c_weight
      (fun c_id => VectorGradient.comp_3 (pvar c_id) i)
      (fun c_id => VectorGradient.row_33 (r_grad c_id) i) c.
Proof.
  intros Hi Hb Hh Hx Hc.
  unfold VectorGradient._reconstruct_vector_gradient,
    _reconstruct_scalar_gradient.
  cbv zeta. cbn [Z.eqb].
  rewrite sync_keeps_owned by assumption.
  rewrite VectorFacts.sync_vector_keeps_owned by assumption.
  apply VectorFacts.rec_scale_row.
  apply (fold_left_rel2
           (fun (G : array cs_real_33_t) (s : array cs_real_3_t) =>
              forall c0, VectorGradient.row_33 (G c0) i = s c0)).
  - apply (fold_left_rel2
             (fun (G : array cs_real_33_t) (s : array cs_real_3_t) =>
                forall c0, VectorGradient.row_33 (G c0) i = s c0)).
    + intros c0. destruct i as [|[|k]]; reflexivity.
    + intros G s f_id _ H. apply VectorFacts.rec_i_face_row. exact H.
  - intros G s f_id Hf H.
    apply VectorFacts.rec_b_face_row; [exact Hi|apply Hb; exact Hf|exact H].
Qed.

Lemma vector_reconstruct_by_components_witness :
  (1 < 3)%nat
  /\ VectorGradient.bc_uncoupled Examples.mesh_1 VectorCase.coefbv_diag 1
  /\ halo_keeps_owned Examples.mesh_1
  /\ VectorGradient.tensor_halo_keeps_owned VectorCase.x_idle Examples.mesh_1
  /\ (0 < n_cells Examples.mesh_1)%nat
  /\ VectorGradient.row_33
       (VectorGradient._reconstruct_vector_gradient VectorCase.x_idle
          Examples.glob0 Examples.mesh_1 Examples.fvq_unit None
          CS_HALO_STANDARD 1 VectorCase.coefav_one VectorCase.coefbv_diag
          VectorCase.var_v None VectorCase.r_grad_v 0%nat) 1
     = _reconstruct_scalar_gradient Examples.glob0 Examples.mesh_1
         Examples.fvq_unit None 1 0 (IZR 1) Examples.f_ext_zero
         (fun f_id => VectorGradient.comp_3 (VectorCase.coefav_one f_id) 1)
         (fun f_id =>
            VectorGradient.comp_3
              (VectorGradient.row_33 (VectorCase.coefbv_diag f_id) 1) 1)
         None
         (fun c_id => VectorGradient.comp_3 (VectorCase.var_v c_id) 1)
         (fun c_id => VectorGradient.row_33 (VectorCase.r_grad_v c_id) 1)
         0%nat.
Proof.
  split; [lia|]. split; [apply coefbv_diag_uncoupled|].
  split; [apply no_halo_keeps_owned; reflexivity|].
  split; [apply no_halo_tensor_keeps_owned; reflexivity|].
  split; [simpl; lia|].
  apply (vector_reconstruct_by_components VectorCase.x_idle Examples.glob0
           Examples.mesh_1 Examples.fvq_unit CS_HALO_STANDARD 1
           VectorCase.coefav_one VectorCase.coefbv_diag VectorCase.var_v
           None VectorCase.r_grad_v Examples.f_ext_zero 1%nat 0%nat).
  - lia.
  - apply coefbv_diag_uncoupled.
  - apply no_halo_keeps_owned. reflexivity.
  - apply no_halo_tensor_keeps_owned. reflexivity.
  - simpl. lia.
Defined.

(** X25: in exact arithmetic, with a reconstruction gradient that
    vanishes everywhere, and without correction for warped faces, the
    reconstructed gradient of a vector is on every owned cell the
    non-reconstructed gradient of [_initialize_vector_gradient] (no
    internal coupling). *)

Theorem vector_reconstruct_of_zero
        (x : VectorGradient.cs_vector_externals_t) (g : cs_glob_t)
        (m : cs_mesh_t) (fvq : cs_mesh_quantities_t)
        (halo_type : cs_halo_type_t) (inc : Z)
        (coefav : array cs_real_3_t) (coefbv : array cs_real_33_t)
        (pvar : array cs_real_3_t) (c_weight : option (array R))
        (r_grad : array cs_real_33_t) (c : nat) :
  (forall c_id, r_grad c_id = VectorGradient.zero_33) ->
  CS_BAD_CELLS_WARPED_CORRECTION g = false ->
  VectorGradient.tensor_halo_keeps_owned x m ->
  (c < n_cells m)%nat ->
  VectorGradient._reconstruct_vector_gradient x g m fvq None halo_type inc
    coefav coefbv pvar c_weight r_grad c
  = VectorGradient._initialize_vector_gradient x g m fvq None halo_type inc
      coefav coefbv pvar c_weight c.
Proof.
  intros Hr Hw Hx Hc.
  unfold VectorGradient._reconstruct_vector_gradient,
    VectorGradient._initialize_vector_gradient.
  cbv zeta.
  rewrite !VectorFacts.sync_vector_keeps_owned by assumption.
  clear Hc. revert c.
  unfold VectorGradient.rec_scale_v, for_loop. rewrite Hw.
  apply (fold_left_rel (fun G G' : array cs_real_33_t =>
                          forall c0, G c0 = G' c0)).
  - apply (fold_left_rel (fun G G' : array cs_real_33_t =>
                            forall c0, G c0 = G' c0)).
    + apply (fold_left_rel (fun G G' : array cs_real_33_t =>
                              forall c0, G c0 = G' c0)); [reflexivity|].
      intros G G' f_id _ H. apply VectorFacts.rec_i_face_v_of_zero; assumption.
    + intros G G' f_id _ H. apply VectorFacts.rec_b_face_v_of_zero; assumption.
  - intros G G' c0 _ H c1. cbv zeta. unfold upd.
    destruct (c1 =? c0)%nat; [rewrite H; reflexivity|apply H].
Qed.

Lemma vector_reconstruct_of_zero_witness :
  (forall c_id : nat,
      (fun _ : nat => VectorGradient.zero_33) c_id = VectorGradient.zero_33)
  /\ CS_BAD_CELLS_WARPED_CORRECTION Examples.glob0 = false
  /\ VectorGradient.tensor_halo_keeps_owned VectorCase.x_idle Examples.mesh_2
  /\ (1 < n_cells Examples.mesh_2)%nat
  /\ VectorGradient._reconstruct_vector_gradient VectorCase.x_idle
       Examples.glob0 Examples.mesh_2 Examples.fvq_unit None
       CS_HALO_STANDARD 1 VectorCase.coefav_one VectorCase.coefbv_diag
       VectorCase.var_v None (fun _ => VectorGradient.zero_33) 1%nat
     = VectorGradient._initialize_vector_gradient VectorCase.x_idle
         Examples.glob0 Examples.mesh_2 Examples.fvq_unit None
         CS_HALO_STANDARD 1 VectorCase.coefav_one VectorCase.coefbv_diag
         VectorCase.var_v None 1%nat.
Proof.
  split; [reflexivity|]. split; [reflexivity|].
  split; [apply no_halo_tensor_keeps_owned; reflexivity|].
  split; [simpl; lia|].
  apply (vector_reconstruct_of_zero VectorCase.x_idle Examples.glob0
           Examples.mesh_2 Examples.fvq_unit CS_HALO_STANDARD 1
           VectorCase.coefav_one VectorCase.coefbv_diag VectorCase.var_v
           None (fun _ => VectorGradient.zero_33) 1%nat).
  - reflexivity.
  - reflexivity.
  - apply no_halo_tensor_keeps_owned. reflexivity.
  - simpl. lia.
Defined.

(** ** Non-degenerate geometry *)

(** The matrices named by the regularity predicates are those that the
    drivers invert. *)

Lemma compute_cell_cocg_lsq_inverts g m extended fvq ce :
  fst (_compute_cell_cocg_lsq g m extended fvq ce)
  = invert_cells (n_cells m) (fun c_id => c_id)
                 (cocg_lsq_sums g m extended fvq ce).
Proof. reflexivity. Qed.

Lemma recompute_lsq_scalar_cocg_inverts m fvq cpl coefbp cocgb cocg :
  _recompute_lsq_scalar_cocg m fvq cpl coefbp cocgb cocg
  = invert_cells (n_b_cells m) (b_cells m)
                 (cocg_recompute_sums m fvq cpl coefbp cocgb cocg).
Proof. reflexivity. Qed.

Lemma compute_cell_cocg_it_inverts m fvq ce :
  _compute_cell_cocg_it m fvq ce
  = for_loop 0 (n_cells m)
      (fun cocg cell_id =>
         upd cocg cell_id
             (Kernels.cs_math_33_inv_cramer_in_place (cocg cell_id)))
      (cocg_it_sums m fvq ce).
Proof. reflexivity. Qed.

Lemma lsq_scalar_gradient_ani_inverts m fvq cpl inc coefap coefbp pvar cwt cw
      grad :
  _lsq_scalar_gradient_ani m fvq cpl inc coefap coefbp pvar cwt cw grad
  = let '(cocg, rhsv) := ani_sums m fvq cpl inc coefap coefbp pvar cwt cw in
    _sync_scalar_gradient_halo m CS_HALO_STANDARD
      (solve_cells m (invert_cells (n_cells m) (fun c => c) cocg) rhsv grad).
Proof.
  unfold _lsq_scalar_gradient_ani, ani_sums. cbv zeta.
  destruct (fold_left (ani_i_face m fvq cwt) (i_face_order m) _) as [c r].
  destruct cpl; destruct (fold_left _ _ _); reflexivity.
Qed.

Lemma recompute_sums_total g m fvq halo_type coefbp store ii :
  lsq_cache_empty m halo_type store -> b_cells_distinct m ->
  (ii < n_b_cells m)%nat ->
  cocg_recompute_sums m fvq None coefbp
    (snd (_get_cell_cocg_lsq g m halo_type fvq None store))
    (snd (fst (_get_cell_cocg_lsq g m halo_type fvq None store)))
    (b_cells m ii)
  = cocg_lsq_total m (is_extended m halo_type) fvq coefbp (b_cells m ii).
Proof.
  intros He Hd Hii. unfold cocg_recompute_sums. cbv zeta.
  rewrite recompute_b_faces_gather.
  rewrite restore_b_cells_at by assumption.
  rewrite (get_cell_cocgb_empty g m fvq halo_type store He ii).
  reflexivity.
Qed.

(** *** The two cubes of [CubeCase] *)

Lemma normalize_face_normal f :
  cs_math_3_normalize Examples.glob0 (CubeCase.face_normal f)
  = CubeCase.face_normal f.
Proof.
  assert (H : norm3 (CubeCase.face_normal f) = 1).
  { unfold norm3.
    replace (dot3 (CubeCase.face_normal f) (CubeCase.face_normal f)) with 1;
      [apply sqrt_1|].
    do 10 (destruct f as [|f]; [unfold dot3; cbn; ring|]).
    unfold dot3; cbn; ring. }
  cbn [cs_math_3_normalize Examples.glob0]. rewrite H.
  destruct (CubeCase.face_normal f). unfold scale3. cbn. f_equal; field.
Qed.

Lemma cubes_i_faces : i_face_order CubeCase.mesh_cubes = [0%nat].
Proof. reflexivity. Qed.

Lemma cubes_b_faces :
  b_face_order CubeCase.mesh_cubes = [0; 1; 2; 3; 4; 5; 6; 7; 8; 9]%nat.
Proof. reflexivity. Qed.

Lemma cubes_faces_of c_id :
  (c_id < 2)%nat ->
  filter (fun f_id => negb (is_coupled None f_id)
                      && Nat.eqb (b_face_cells CubeCase.mesh_cubes f_id) c_id)
         (b_face_order CubeCase.mesh_cubes)
  = match c_id with
    | 0%nat => [0; 2; 3; 4; 5]%nat
    | _ => [1; 6; 7; 8; 9]%nat
    end.
Proof. intros Hc. destruct c_id as [|[|c_id]]; [reflexivity|reflexivity|lia]. Qed.

Lemma cubes_interior c_id :
  (c_id < 2)%nat ->
  cocg_lsq_interior CubeCase.mesh_cubes false CubeCase.fvq_cubes c_id
  = Cocg 1 0 0 0 0 0.
Proof.
  intros Hc. unfold cocg_lsq_interior. cbv zeta. rewrite cubes_i_faces.
  cbn [fold_left]. unfold cocg_lsq_i_face. cbv zeta.
  change (i_face_cells CubeCase.mesh_cubes 0%nat) with (0%nat, 1%nat).
  cbn [fst snd].
  change (cell_cen CubeCase.fvq_cubes 1%nat) with (R3 1 0 0).
  change (cell_cen CubeCase.fvq_cubes 0%nat) with (R3 0 0 0).
  destruct c_id as [|[|c_id]]; [| |lia].
  - rewrite upd_other by discriminate. rewrite upd_same.
    unfold cocg_add_scaled, sub3, zero6. cbn [cx cy cz a0 a1 a2 a3 a4 a5].
    f_equal; field.
  - rewrite upd_same. rewrite upd_other by discriminate.
    unfold cocg_add_scaled, sub3, zero6. cbn [cx cy cz a0 a1 a2 a3 a4 a5].
    f_equal; field.
Qed.

Lemma lsq_sums_gather g m fvq c_id :
  cocg_lsq_sums g m false fvq None c_id
  = fold_left cocg_add_outer
      (map (fun f_id => cs_math_3_normalize g (b_face_normal fvq f_id))
           (filter (fun f_id => negb (is_coupled None f_id)
                                && Nat.eqb (b_face_cells m f_id) c_id)
                   (b_face_order m)))
      (cocg_lsq_interior m false fvq c_id).
Proof.
  unfold cocg_lsq_sums. cbv zeta.
  rewrite <- (scatter_gather (is_coupled None) (b_face_cells m)
                (fun f_id => cs_math_3_normalize g (b_face_normal fvq f_id))
                cocg_add_outer).
  reflexivity.
Qed.

Lemma cubes_bc_direction coefbp f_id :
  bc_direction CubeCase.fvq_cubes coefbp f_id = CubeCase.face_normal f_id.
Proof.
  unfold bc_direction.
  change (b_face_normal CubeCase.fvq_cubes f_id)
    with (CubeCase.face_normal f_id).
  change (b_face_surf CubeCase.fvq_cubes f_id) with 1.
  change (b_dist CubeCase.fvq_cubes f_id) with (/ 2).
  change (diipb CubeCase.fvq_cubes f_id) with (R3 0 0 0).
  destruct (CubeCase.face_normal f_id) as [x y z]. cbn [cx cy cz].
  f_equal; field.
Qed.

Lemma cubes_normals_sum c_id :
  (c_id < 2)%nat ->
  fold_left cocg_add_outer
    (map CubeCase.face_normal
         match c_id with
         | 0%nat => [0; 2; 3; 4; 5]%nat
         | _ => [1; 6; 7; 8; 9]%nat
         end)
    (Cocg 1 0 0 0 0 0)
  = Cocg 2 2 2 0 0 0.
Proof.
  intros Hc. destruct c_id as [|[|c_id]]; [| |lia];
    cbn [map fold_left CubeCase.face_normal];
    unfold cocg_add_outer; cbn [cx cy cz a0 a1 a2 a3 a4 a5];
    f_equal; ring.
Qed.

Lemma cubes_lsq_sums c_id :
  (c_id < 2)%nat ->
  cocg_lsq_sums Examples.glob0 CubeCase.mesh_cubes false CubeCase.fvq_cubes
                None c_id
  = Cocg 2 2 2 0 0 0.
Proof.
  intros Hc. rewrite lsq_sums_gather.
  rewrite cubes_faces_of, cubes_interior by exact Hc.
  rewrite (map_ext _ CubeCase.face_normal)
    by (intros f_id; apply normalize_face_normal).
  apply cubes_normals_sum. exact Hc.
Qed.

Lemma cubes_total coefbp c_id :
  (c_id < 2)%nat ->
  cocg_lsq_total CubeCase.mesh_cubes false CubeCase.fvq_cubes coefbp c_id
  = Cocg 2 2 2 0 0 0.
Proof.
  intros Hc. unfold cocg_lsq_total, b_face_terms.
  rewrite cubes_faces_of, cubes_interior by exact Hc.
  rewrite (map_ext _ CubeCase.face_normal)
    by (intros f_id; apply cubes_bc_direction).
  apply cubes_normals_sum. exact Hc.
Qed.

Lemma cubes_centres_distinct :
  centres_distinct CubeCase.mesh_cubes CubeCase.fvq_cubes.
Proof.
  split.
  - intros f_id Hf. rewrite cubes_i_faces in Hf. destruct Hf as [<-|[]].
    unfold dot3, sub3. cbn. lra.
  - intros idx ii jj Hidx. discriminate Hidx.
Qed.

Lemma cubes_b_cells_distinct : b_cells_distinct CubeCase.mesh_cubes.
Proof. intros i j _ _ H. exact H. Qed.

Lemma cubes_lsq_regular coefbp :
  lsq_regular Examples.glob0 CubeCase.mesh_cubes CubeCase.fvq_cubes None
              CS_HALO_STANDARD coefbp None [].
Proof.
  unfold lsq_regular. split; [|split; [|split; [|split]]].
  - exact cubes_centres_distinct.
  - intros f_id _ _. cbn. split; lra.
  - intros f_id cw _ Hcw. discriminate Hcw.
  - intros _ c_id Hc.
    change (is_extended CubeCase.mesh_cubes CS_HALO_STANDARD) with false.
    rewrite cubes_lsq_sums by exact Hc. unfold det_6. cbn. lra.
  - intros ii Hii.
    pose proof (recompute_sums_total Examples.glob0 CubeCase.mesh_cubes
                  CubeCase.fvq_cubes CS_HALO_STANDARD coefbp [] ii) as H.
    destruct (_get_cell_cocg_lsq Examples.glob0 CubeCase.mesh_cubes
                CS_HALO_STANDARD CubeCase.fvq_cubes None [])
      as [[st cocg] cocgb].
    cbn [fst snd] in H. rewrite H.
    + change (is_extended CubeCase.mesh_cubes CS_HALO_STANDARD) with false.
      rewrite cubes_total by exact Hii. unfold det_6. cbn. lra.
    + reflexivity.
    + exact cubes_b_cells_distinct.
    + exact Hii.
Qed.

Lemma cubes_green_regular w_stride :
  green_regular Examples.glob0 CubeCase.mesh_cubes CubeCase.fvq_cubes w_stride
                None.
Proof.
  split.
  - intros c_id _ has_dc _. cbn. lra.
  - intros f_id Hf. exact I.
Qed.

Lemma cubes_iterative_regular store :
  iterative_regular CubeCase.mesh_cubes CubeCase.fvq_cubes None store.
Proof.
  intros _. split.
  - intros f_id Hf. cbn. split; lra.
  - intros c_id Hc. unfold cocg_it_sums. cbv zeta.
    cbn [n_i_faces CubeCase.mesh_cubes].
    rewrite for_loop_S by lia. rewrite for_loop_nil by lia.
    cbn in Hc.
    destruct c_id as [|[|c_id]]; [| |lia];
      unfold cocg_it_i_face, upd; cbn;
      unfold det_33, add_33, sub_33, cocg_it_face_term, identity_33; cbn; lra.
Qed.

Lemma cubes_gradient_regular gradient_type w_stride bc_coeff_b store :
  store = [] ->
  gradient_regular Examples.glob0 CubeCase.mesh_cubes CubeCase.fvq_cubes None
    gradient_type CS_HALO_STANDARD w_stride bc_coeff_b None store.
Proof.
  intros ->. unfold gradient_regular, lsq_stage_regular. cbv zeta.
  destruct gradient_type.
  - split; [apply cubes_green_regular|apply cubes_iterative_regular].
  - destruct (w_stride =? 6)%Z; apply cubes_lsq_regular.
  - split; [|apply cubes_green_regular].
    destruct (w_stride =? 6)%Z; apply cubes_lsq_regular.
  - exact I.
Qed.

Lemma mesh_cubes_in_range : mesh_in_range CubeCase.mesh_cubes.
Proof.
  unfold mesh_in_range.
  split; [simpl; lia|]. split; [reflexivity|].
  split; [intros f_id H; rewrite cubes_i_faces in H;
          destruct H as [<-|[]]; simpl; lia|].
  split.
  - intros f_id H. rewrite cubes_b_faces in H. simpl in H.
    repeat (destruct H as [<-|H]; [simpl; lia|]). contradiction.
  - intros idx ii jj H. discriminate H.
Qed.

Lemma cubes_neumann_a : neumann_a CubeCase.mesh_cubes (Some CubeCase.coefa_cubes).
Proof.
  intros f_id Hf. rewrite cubes_b_faces in Hf. simpl in Hf.
  repeat (destruct Hf as [<-|Hf]; [reflexivity|]). contradiction.
Qed.

Lemma cubes_neumann_b : neumann_b CubeCase.mesh_cubes (Some CubeCase.coefb_cubes).
Proof.
  intros f_id Hf. rewrite cubes_b_faces in Hf. simpl in Hf.
  repeat (destruct Hf as [<-|Hf]; [reflexivity|]). contradiction.
Qed.

Lemma zero_field_zero_gradient_witness :
  mesh_in_range CubeCase.mesh_cubes
  /\ halo_keeps_zero CubeCase.mesh_cubes
  /\ coupling_keeps_zero CubeCase.mesh_cubes None
  /\ globals_keep_zero Examples.glob0 CubeCase.mesh_cubes
  /\ gradient_regular Examples.glob0 CubeCase.mesh_cubes CubeCase.fvq_cubes
       None CS_GRADIENT_LSQ CS_HALO_STANDARD 1
       (Some CubeCase.coefb_cubes) None (gl_store globals_initial)
  /\ neumann_a CubeCase.mesh_cubes (Some CubeCase.coefa_cubes)
  /\ neumann_b CubeCase.mesh_cubes (Some CubeCase.coefb_cubes)
  /\ fst (cs_gradient_scalar Examples.glob0 CubeCase.mesh_cubes
            CubeCase.fvq_cubes Examples.drivers_idle 0 (fun _ => zero3) "p"
            CS_GRADIENT_LSQ CS_HALO_STANDARD 1 2 0 1 0 CS_GRADIENT_LIMIT_CELL
            (/ 10) 1 Examples.f_ext_zero (Some CubeCase.coefa_cubes)
            (Some CubeCase.coefb_cubes) Examples.var_zero None None
            globals_initial Examples.grad_x) 1%nat
     = zero3.
Proof.
  assert (Hr : gradient_regular Examples.glob0 CubeCase.mesh_cubes
                 CubeCase.fvq_cubes None CS_GRADIENT_LSQ CS_HALO_STANDARD 1
                 (Some CubeCase.coefb_cubes) None (gl_store globals_initial))
    by (apply cubes_gradient_regular; reflexivity).
  split; [exact mesh_cubes_in_range|].
  split; [apply no_halo_keeps_zero; reflexivity|].
  split; [apply no_coupling_keeps_zero|].
  split; [apply glob0_keeps_zero|].
  split; [exact Hr|].
  split; [exact cubes_neumann_a|].
  split; [exact cubes_neumann_b|].
  refine (proj1 (proj1 (zero_field_zero_gradient Examples.glob0
            CubeCase.mesh_cubes CubeCase.fvq_cubes Examples.drivers_idle 0
            (fun _ => zero3) "p" CS_GRADIENT_LSQ CS_HALO_STANDARD 1 2 1 0
            CS_GRADIENT_LIMIT_CELL (/ 10) 1 Examples.f_ext_zero
            (Some CubeCase.coefa_cubes) (Some CubeCase.coefb_cubes)
            Examples.var_zero None None globals_initial Examples.grad_x
            mesh_cubes_in_range _ _ _ _ Hr Hr _ cubes_neumann_a
            cubes_neumann_b) 1%nat _)).
  - apply no_halo_keeps_zero. reflexivity.
  - apply no_coupling_keeps_zero.
  - apply glob0_keeps_zero.
  - discriminate.
  - intros c _. reflexivity.
  - simpl. lia.
Defined.

Lemma uniform_field_zero_gradient_witness :
  mesh_in_range CubeCase.mesh_cubes
  /\ halo_keeps_zero CubeCase.mesh_cubes
  /\ globals_keep_zero Examples.glob0 CubeCase.mesh_cubes
  /\ gradient_regular Examples.glob0 CubeCase.mesh_cubes CubeCase.fvq_cubes
       None CS_GRADIENT_LSQ CS_HALO_STANDARD 1
       (Some CubeCase.coefb_cubes) None (gl_store globals_initial)
  /\ neumann_a CubeCase.mesh_cubes (Some CubeCase.coefa_cubes)
  /\ neumann_b CubeCase.mesh_cubes (Some CubeCase.coefb_cubes)
  /\ fst (cs_gradient_scalar_synced_input Examples.glob0 CubeCase.mesh_cubes
            CubeCase.fvq_cubes Examples.drivers_idle 0 (fun _ => zero3) "p"
            CS_GRADIENT_LSQ CS_HALO_STANDARD 1 2 0 1 0
            CS_GRADIENT_LIMIT_CELL (/ 10) 1 Examples.f_ext_zero
            (Some CubeCase.coefa_cubes) (Some CubeCase.coefb_cubes)
            (fun _ => 7) None None globals_initial Examples.grad_x) 1%nat
     = zero3.
Proof.
  assert (Hr : gradient_regular Examples.glob0 CubeCase.mesh_cubes
                 CubeCase.fvq_cubes None CS_GRADIENT_LSQ CS_HALO_STANDARD 1
                 (Some CubeCase.coefb_cubes) None (gl_store globals_initial))
    by (apply cubes_gradient_regular; reflexivity).
  split; [exact mesh_cubes_in_range|].
  split; [apply no_halo_keeps_zero; reflexivity|].
  split; [apply glob0_keeps_zero|].
  split; [exact Hr|].
  split; [exact cubes_neumann_a|].
  split; [exact cubes_neumann_b|].
  apply (uniform_field_zero_gradient Examples.glob0 CubeCase.mesh_cubes
           CubeCase.fvq_cubes Examples.drivers_idle 0 (fun _ => zero3) "p"
           CS_GRADIENT_LSQ CS_HALO_STANDARD 1 2 1 0 CS_GRADIENT_LIMIT_CELL
           (/ 10) 1 Examples.f_ext_zero (Some CubeCase.coefa_cubes)
           (Some CubeCase.coefb_cubes) 7 None globals_initial
           Examples.grad_x 1%nat).
  - exact mesh_cubes_in_range.
  - apply no_halo_keeps_zero. reflexivity.
  - apply glob0_keeps_zero.
  - discriminate.
  - exact Hr.
  - exact cubes_neumann_a.
  - exact cubes_neumann_b.
  - simpl. lia.
Defined.

Lemma gradient_shift_invariant_witness :
  gradient_regular Examples.glob0 CubeCase.mesh_cubes CubeCase.fvq_cubes
    None CS_GRADIENT_LSQ CS_HALO_STANDARD 1 (Some CubeCase.coefb_cubes) None
    (gl_store globals_initial)
  /\ 0 <= 1
  /\ neumann_b CubeCase.mesh_cubes (Some CubeCase.coefb_cubes)
  /\ cs_gradient_scalar_synced_input Examples.glob0 CubeCase.mesh_cubes
       CubeCase.fvq_cubes Examples.drivers_idle 0 (fun _ => zero3) "p"
       CS_GRADIENT_LSQ CS_HALO_STANDARD 1 2 0 1 0 CS_GRADIENT_LIMIT_CELL
       (/ 10) 1 Examples.f_ext_zero (Some CubeCase.coefa_cubes)
       (Some CubeCase.coefb_cubes) (fun c => CubeCase.var_x c + 100) None
       None globals_initial Examples.grad_x
     = cs_gradient_scalar_synced_input Examples.glob0 CubeCase.mesh_cubes
         CubeCase.fvq_cubes Examples.drivers_idle 0 (fun _ => zero3) "p"
         CS_GRADIENT_LSQ CS_HALO_STANDARD 1 2 0 1 0 CS_GRADIENT_LIMIT_CELL
         (/ 10) 1 Examples.f_ext_zero (Some CubeCase.coefa_cubes)
         (Some CubeCase.coefb_cubes) CubeCase.var_x None None
         globals_initial Examples.grad_x.
Proof.
  assert (Hr : gradient_regular Examples.glob0 CubeCase.mesh_cubes
                 CubeCase.fvq_cubes None CS_GRADIENT_LSQ CS_HALO_STANDARD 1
                 (Some CubeCase.coefb_cubes) None (gl_store globals_initial))
    by (apply cubes_gradient_regular; reflexivity).
  assert (Hc : 0 <= 1) by lra.
  assert (Hh : 0%Z = 0%Z \/ CS_GRADIENT_LSQ = CS_GRADIENT_GREEN_ITER)
    by (left; reflexivity).
  split; [exact Hr|]. split; [exact Hc|]. split; [exact cubes_neumann_b|].
  exact (gradient_shift_invariant Examples.glob0 CubeCase.mesh_cubes
           CubeCase.fvq_cubes Examples.drivers_idle 0 (fun _ => zero3) "p"
           CS_GRADIENT_LSQ CS_HALO_STANDARD 1 2 0 1 0 CS_GRADIENT_LIMIT_CELL
           (/ 10) 1 Examples.f_ext_zero (Some CubeCase.coefa_cubes)
           (Some CubeCase.coefb_cubes) CubeCase.var_x 100 None
           globals_initial Examples.grad_x Hr Hc cubes_neumann_b Hh).
Defined.

(** ** Completion: the drivers taken as they come, and a concrete case *)

(** The hydrostatic least-squares driver as embedded in [HydP] determines
    the gradient of every local cell from its inputs. *)

Lemma hyd_p_embedded_fills
      (x : HydP.cs_hyd_externals_t) (g : cs_glob_t)
      (ma : HydP.cs_mesh_adjacencies_t) (f_ctb_alloc : array cs_real_3_t)
      (m : cs_mesh_t) (drv : cs_gradient_drivers_t) :
  mesh_in_range m -> halo_from_owned m ->
  _lsq_scalar_gradient_hyd_p drv
  = HydP._lsq_scalar_gradient_hyd_p x g ma f_ctb_alloc ->
  hyd_p_fills m drv.
Proof.
  intros Hmesh Hhalo E e2n fvq halo_type recompute_cocg inc f_ext coefap
         coefbp pvar c_weight store grad grad'.
  rewrite E. unfold HydP._lsq_scalar_gradient_hyd_p.
  destruct (_get_cell_cocg_lsq g m halo_type fvq None store)
    as [[store1 cocg] cocgb].
  destruct recompute_cocg; cbv zeta; cbn [fst];
    (apply sync_agree; [exact Hmesh|exact Hhalo|]);
    intros c Hc; rewrite !HydPFacts.compute_gradient_owned by exact Hc;
    reflexivity.
Qed.

(** The stand-ins of [Examples.drivers_fresh] meet what is asked of the
    drivers. *)

Lemma fresh_hyd_p_fills (m : cs_mesh_t) : hyd_p_fills m Examples.drivers_fresh.
Proof. intros e2n fvq ht rc inc f_ext a b p w store grad grad' c _. reflexivity. Qed.

Lemma fresh_vector_drivers_fill (m : cs_mesh_t) :
  (n_cells m <= n_cells_with_ghosts m)%nat ->
  vector_drivers_fill m Examples.drivers_fresh.
Proof.
  intros Hle. unfold vector_drivers_fill, fills, carries. cbn.
  repeat split; try (intros; assumption); try reflexivity.
  intros a a' H c Hc. apply H. lia.
Qed.

Lemma fresh_tensor_drivers_fill (m : cs_mesh_t) :
  tensor_drivers_fill m Examples.drivers_fresh.
Proof.
  unfold tensor_drivers_fill, fills, carries. cbn.
  repeat split; try (intros; assumption); try reflexivity.
Qed.


(** C6, what does not hold: a scalar call with [CS_GRADIENT_GREEN_VTX]
    returns, without any error, the output array as it received it, so
    that the output depends on what the array held and not on the field;
    and a tensor call with [CS_GRADIENT_GREEN_LSQ], which is neither the
    iterative nor the least-squares scheme, returns normally, assertions
    compiled in. *)

